(* ===== verification/_CoqProject ===== *)
-Q . S2P
Prelude.v
RoomVersions.v
Identifiers.v
Events.v
Redaction.v
RedactionProps.v
EventAuth.v
EventAuthProps.v
EventAuthSafety.v
EventAuthExamples.v
RedactionAuth.v
StateFilter.v
StateFilterProps.v
StreamChangeCache.v
StreamChangeCacheProps.v
StreamTokens.v
StreamTokensProps.v
IdGenerators.v
IdGeneratorsProps.v
IdGeneratorsSystem.v
WalletAuth.v
WalletAuthProps.v
WalletLogin.v
WalletLoginProps.v
WalletLoginSystem.v
WalletLoginSafety.v
WalletLoginLive.v
WalletLoginExamples.v
TopoSort.v
StateRes.v
StateResProps.v
StateResCorrect.v
StateResExamples.v
WheelTimer.v
WheelTimerProps.v
Presence.v
PresenceProps.v
PresenceSystem.v
PresenceSteps.v
PresenceTick.v
PresenceLive.v
PresenceOffline.v
PresenceExamples.v
PresenceQueue.v
PresenceQueueProps.v
PresenceWorker.v
PresenceWorkerProps.v
Visibility.v
VisibilityProps.v
VisibilityClients.v
VisibilityServer.v
VisibilityExamples.v
StateResV1.v
StateResV1Props.v
StateResV1Order.v
StateResV1Examples.v
ChainLinks.v
ChainLinksProps.v
ChainLinksWalk.v
IterUtils.v
ChainCover.v
ChainCoverInv.v
ChainCoverGather.v
ChainCoverAlloc.v
ChainCoverLink.v
ChainCoverPersist.v
AuthChain.v
AuthChainProps.v
AuthChainWalk.v
AuthDiff.v
AuthDiffProps.v
AuthDiffFixup.v
AuthDiffWalk.v
AuthDiffSubgraph.v
AuthChainExamples.v
StateResAuthDiff.v
StateResAuthDiffExamples.v
