(* ===== verification/Prelude.v ===== *)
(** * A verification of the core of the TextRP-Briij homeserver

    TextRP-Briij ([src/textrp_briij/]) is a Matrix homeserver in Python, a fork
    of Synapse.  Users and remote servers send events to rooms; every event
    names the events that authorise it, a room's state is a map from
    (event type, state key) to event, and when servers disagree the state is
    resolved by a deterministic algorithm.  Clients follow the server through
    stream positions collected in tokens, and log in with a ledger wallet.  This
    library models the parts of the server that decide: which events are
    accepted, which state a room has, what redaction keeps, what a client is
    told changed, and who a wallet logs in.

    ** Files

    - [Prelude]: the Python layer (exceptions and the [result] monad, strings as
      their UTF-8 bytes, JSON values, [int], dictionaries) and the lemmas and
      tactics every component shares.
    - [RoomVersions]: [api/room_versions.py], the feature table.
    - [Identifiers]: the ID classes of [types/__init__.py] and the server-name
      grammar of [util/stringutils.py].
    - [Events]: the event object of [events/__init__.py], in its four formats.
    - [EventAuth]: [event_auth.py], one definition per function;
      [EventAuthProps] (the membership rules against a declarative
      specification; which state the rules read), [EventAuthSafety]
      (what acceptance implies), [EventAuthExamples] (concrete rooms).
    - [StateFilter], [StateFilterProps]: [types/state.py].
    - [StreamChangeCache], [StreamChangeCacheProps]:
      [util/caches/stream_change_cache.py], an LRU-like cache refined to the
      history of the changes reported to it.
    - [StreamTokens], [StreamTokensProps]: the tokens of [types/__init__.py].
    - [TopoSort], [StateRes]: [state/v2.py], state resolution v2 and v2.1;
      [StateResProps] (a program logic for its monad, termination),
      [StateResCorrect] (what it computes, on the known events),
      [StateResExamples].
    - [Redaction], [RedactionProps]: [prune_event_dict] and [prune_event] of
      [events/utils.py] and the reference hash; [RedactionAuth] relates them to
      the authorization rules.
    - [IdGenerators]: [MultiWriterIdGenerator] of [storage/util/id_generators.py]
      and the local sequence of [storage/util/sequence.py], one record per process;
      [IdGeneratorsProps] (what each operation keeps), [IdGeneratorsSystem] (all
      processes of a stream, with restarts and replication, as a step relation).
    - [WalletAuth]: the ledger adapter, the recovery envelope, the names and the
      configuration of wallet login ([auth/xrpl_chain_adapter.py],
      [auth/wallet_recovery_envelope.py], [auth/wallet_auth_types.py],
      [config/xrpl_auth.py]); [WalletAuthProps] (what is accepted).
    - [WalletLogin]: [auth/xrpl_auth.py] as coroutines, with the session store
      ([storage/databases/main/session.py]), the wallet links
      ([storage/databases/main/registration.py]) and [_do_xrpl_login];
      [WalletLoginProps] (the paths of a request), [WalletLoginSystem] (many
      requests interleaved), [WalletLoginSafety], [WalletLoginLive],
      [WalletLoginExamples].
    - [StateResV1], [StateResV1Props], [StateResV1Order], [StateResV1Examples]:
      [state/v1.py], state resolution of rooms of version 1.
    - [Visibility]: [visibility.py], with [event_visible_to_server] of
      [rust/src/events/filter.rs]; [VisibilityProps] (the specification and the
      checks), [VisibilityClients], [VisibilityServer] (the filters),
      [VisibilityExamples].
    - [WheelTimer], [WheelTimerProps]: [util/wheel_timer.py].
    - [Presence]: the presence writer of [handlers/presence.py] with the data of
      [api/presence.py] and its table; [PresenceProps] (the pure functions),
      [PresenceSystem] (the step relation and its invariant), [PresenceSteps]
      (each handler keeps it), [PresenceTick] (one run of the timer loop),
      [PresenceLive], [PresenceOffline] (timers are pending, so users go
      offline), [PresenceExamples] (concrete runs).
    - [PresenceQueue], [PresenceQueueProps]: [PresenceFederationQueue], the
      updates for other federation senders.
    - [ChainLinks], [ChainLinksProps], [ChainLinksWalk]: the links of the chain
      cover index, [_LinkMap] of [storage/databases/main/events.py] and the walks
      of [storage/databases/main/event_federation.py]; [IterUtils]: batches and the
      topological order of [util/iterutils.py].
    - [ChainCover]: the tables of the index and the functions that compute and
      store it when events are persisted; [ChainCoverInv] (what the index means),
      [ChainCoverGather], [ChainCoverAlloc], [ChainCoverLink], [ChainCoverPersist]
      (each stage keeps it).
    - [AuthChain], [AuthChainProps], [AuthChainWalk]: the auth chain of events, with
      the index and without it.
    - [AuthDiff]: the auth chain difference and the conflicted subgraph;
      [AuthDiffProps] (with the index), [AuthDiffFixup] (events that wait for it),
      [AuthDiffWalk] (without it), [AuthDiffSubgraph]; [AuthChainExamples].
    - [StateResAuthDiff], [StateResAuthDiffExamples]: state resolution with the
      database as its store.
    - [PresenceWorker], [PresenceWorkerProps]: [WorkerPresenceHandler], syncs on
      workers and what the presence writer knows of them.

    ** How the code is modelled

    Pure functions are functions; code that raises returns [result].  Code that
    mutates an object takes and returns the object's record; state resolution,
    which shares the dictionary [event_map], uses a state monad with exceptions,
    and wallet login is a free monad over the calls it awaits.
    [while] loops are structural where the code consumes a list, and otherwise
    take fuel; every such loop has a theorem saying how much fuel is enough
    ([kahn_loop]: the number of nodes; the searches of state resolution: one
    step per auth edge of the conflicted set, and the depth of the auth graph).
    Python sets are [gset]s and dictionaries [gmap]s, or association lists where
    their order is observable.

    Code outside the repository, and services, are arguments: the signature
    check of third-party invites, [netaddr.valid_ipv6], the event store (during
    one state resolution it answers every request from the same events), the
    table of writer instances, the size of the canonical JSON of an event.

    A Python [str] is its UTF-8 encoding (a string with lone surrogates, which
    has none, is outside the model), numerals are ASCII, and floats occur only
    as values of JSON.

    ** What the theorems show

    Authorization: the membership rules accept exactly what a one-page
    specification allows; accepted events come from entitled senders; bans
    hold; power levels cannot be escalated; creators cannot be removed; the
    keys [auth_types_for_event] selects are all the state the rules read, but
    for power levels under another state key ([power_levels_key_not_selected]).
    State resolution: the sorts end and give the one order their definition
    allows; the resolved state is the one a declarative definition of the
    algorithm gives, each event accepted or refused by the state before it.
    Filters, caches and tokens: filters compute what they denote, in memory and
    in SQL; the change cache never misses a change as long as invalidations do
    not go back ([invalidation_going_back_misses]); tokens form a lattice and
    survive printing and parsing.
    Redaction: it is total, idempotent (so event IDs survive it) and, under the
    rules of room version 11, invisible to the authorization rules; for older
    rules [old_redaction_opens_room] shows it is not.
    Stream IDs: a process never reports a position as persisted while an ID at
    or below it is being written, whatever the order of allocations, commits,
    restarts and messages.  Two assumptions on starts are stated in the step
    relation: a writer with IDs in flight has its row in [stream_positions], and
    the last ID of the sequence is not being written; without the second the
    theorem fails ([restart_skips_id_in_flight]).
    Wallet login: a coroutine is a tree of the calls it awaits, so requests
    interleave at every call.  Nobody is logged in without a challenge for the
    address and a signature of it, or a signed transaction that names the
    address; a challenge is used once, the session table is well typed, and an
    honest client gets in.  Two theorems show what is not guaranteed:
    [signin_accepts_any_key] (a transaction proves no control) and
    [concurrent_first_logins_split_wallet].
    State resolution v1: what it keeps, which conflicted event it chooses, and that
    no order of dictionaries, sets or states changes the result;
    [ex1_unchecked_levels_win] shows its weakness.
    Visibility: clients and servers are sent exactly the events a table over the
    user's role and the history visibility allows, and the filter that pushes an
    event agrees with the one that answers requests (some soft-failed events,
    call invites and visibility changes of erased senders apart).  Two runs show
    what the hypotheses exclude: [unchecked_request_raises] and
    [soft_failed_call_invite_shown].
    Auth chains: whatever is persisted, in whatever order, the chain cover index
    stays an exact description of the auth chains of the indexed events, so the
    auth chain, the auth chain difference and the conflicted subgraph read from it
    are those of the events, also when state resolution adds events that are not
    persisted yet; the walks without it end, and the difference they
    find is never too small.  [walk_stops_early], [second_batch_skipped],
    [duplicate_auth_event_lost] and [conflicted_waiting] are inputs on which the
    queries are wrong or raise.
    Presence: the timer wheel returns objects after their time and at most one
    bucket late; on top of it, the presence shown is always that of the devices,
    users that stop syncing and users of lost servers go offline, updates survive
    federation and the queue, and the writer knows the syncs of its workers while
    it hears of them every five minutes.  The
    limits are theorems too: [busy_user_never_times_out],
    [unavailable_user_never_times_out], [lost_server_user_stays_online],
    [offline_right_after_sync], [syncing_user_shown_offline] and
    [full_presence_erases_status].

    ** Not modelled

    Storage engines and SQL beyond the clauses built in Python, federation and
    HTTP transport, REST servlets, configuration, logging and metrics: I/O and
    glue around the decisions above.  Metrics and log lines inside modelled
    functions, and the sleeps that only yield to the reactor, are left out.

    Of wallet login, the ledger library, Ed25519 and [str.upper] are the class
    [XrplLib]; the handlers for rate limits, registration, account data and
    completing a login, and the randomness, are the class [Services], assumed
    only to draw letters.  [len(str(envelope))] is a parameter.  Strict base64
    decoding is that of CPython 3.11 and later.  Of the ID generators, the
    notifier and the consistency check of the sequence are left out; the
    sequence hands out increasing IDs.

    The visibility filters read a snapshot of the database (states, events,
    ignored and erased users, retention policies) and the clock once.

    The tables of the auth chain index are maps and lists, and a transaction is one
    step.  An event ID stands for one event, and auth events are older than the
    event and named once; Python sets are walked in the order of [elements].  The
    cache of auth events may drop any entry when it is written to.  Redactions,
    state groups, forward extremities and the other tables that persisting events
    writes are left out, as are the background update that indexes old rooms and
    purging.  A conflicted event is taken to have a chain with links, which all
    events but the first of a room have; sequence numbers are below 2^53 - 1.

    A presence handler is one atomic step that takes its readings of the clock as
    arguments: other requests do not run while it waits for the database.  The
    table [presence_stream] is the map of its rows.  Who is interested in an
    update (rooms, routers), the event source of [/sync], the reaction to joins
    and the worker's copy of the stream are left out.  [int(t / bucket)] is exact
    for times below 2^53.
    The fields of a presence push are of their documented types: the errors other
    JSON values cause in [incoming_presence] are left out.

    Redaction builds new dictionaries: that the new content of a create event
    under the rules of version 11 is the old dictionary itself, which matters only
    with the experimental redaction of relations (MSC3389), is not modelled.
*)
From stdpp Require Export base tactics numbers list gmap strings pretty sorting.
From Stdlib Require Import Ascii.

(** Close a closed equation by evaluation in the kernel's virtual machine. *)
Ltac by_vm :=
  lazymatch goal with |- @eq ?A ?x ?y => vm_cast_no_check (@eq_refl A y) end.

(** * Python layer *)

(** ** Exceptions

    The exception classes the modelled code raises, with the arguments callers
    can observe: the HTTP code, the message (the format string, before the
    values are substituted) and the Matrix [errcode]. *)
Inductive exn :=
  | SynapseError (code : Z) (msg errcode : string)
  | AuthError (code : Z) (msg errcode : string)
  | UnstableSpecAuthError (code : Z) (msg errcode : string)
  | EventSizeError (msg : string) (unpersistable : bool)
  | LoginError (code : Z) (msg errcode : string)
  | StoreError (code : Z) (msg : string)
  | LimitExceededError (retry_after_ms : Z)
  | SignatureVerifyException
  | PyException (msg : string)
  | RuntimeError (msg : string)
  | KeyError
  | IndexError
  | TypeError
  | ValueError
  | AttributeError
  | OverflowError
  | AssertionError
  | ZeroDivisionError
  | NameError
  | IntegrityError
  | NoChainCoverIndex (room_id : string).

#[export] Instance exn_eq_dec : EqDecision exn.
Proof. solve_decision. Defined.

(** [except AuthError] catches [AuthError] and its subclass
    [UnstableSpecAuthError]. *)
Definition is_auth_error (e : exn) : bool :=
  match e with
  | AuthError _ _ _ | UnstableSpecAuthError _ _ _ => true
  | _ => false
  end.

(** ** Results: a value, or the exception raised *)
Inductive result (A : Type) :=
  | Ok (x : A)
  | Raise (e : exn).
Arguments Ok {_} _.
Arguments Raise {_} _.

#[export] Instance result_ret : MRet result := @Ok.
#[export] Instance result_bind : MBind result :=
  λ A B f r, match r with Ok x => f x | Raise e => Raise e end.
#[export] Instance result_fmap : FMap result :=
  λ A B f r, match r with Ok x => Ok (f x) | Raise e => Raise e end.

(** [if b: raise e] *)
Definition raise_if (b : bool) (e : exn) : result unit :=
  if b then Raise e else Ok tt.

Definition is_ok {A} (r : result A) : bool :=
  match r with Ok _ => true | Raise _ => false end.

(** [try: ... except Exception: handler] *)
Definition try_except {A} (r : result A) (h : exn → result A) : result A :=
  match r with Ok x => Ok x | Raise e => h e end.

Definition of_option {A} (o : option A) (e : exn) : result A :=
  match o with Some x => Ok x | None => Raise e end.

(** Run [f] over a list from left to right, stopping at the first exception. *)
Fixpoint for_each {A} (f : A → result unit) (l : list A) : result unit :=
  match l with
  | [] => Ok tt
  | x :: l' => _ ← f x; for_each f l'
  end.

Fixpoint fold_res {A S} (f : S → A → result S) (l : list A) (s : S) : result S :=
  match l with
  | [] => Ok s
  | x :: l' => s' ← f s x; fold_res f l' s'
  end.

(** ** Lemmas on results *)
Lemma bind_ok {A B} (r : result A) (f : A → result B) y :
  (x ← r; f x) = Ok y ↔ ∃ x, r = Ok x ∧ f x = Ok y.
Proof. destruct r; simpl; naive_solver. Qed.

Lemma bind_raise {A B} (r : result A) (f : A → result B) ex :
  (x ← r; f x) = Raise ex ↔ r = Raise ex ∨ ∃ x, r = Ok x ∧ f x = Raise ex.
Proof. destruct r; simpl; naive_solver. Qed.

Lemma raise_if_raise b e ex : raise_if b e = Raise ex → ex = e.
Proof. destruct b; simpl; congruence. Qed.

Lemma raise_if_ok b e u : raise_if b e = Ok u ↔ b = false.
Proof. destruct b, u; simpl; naive_solver. Qed.

Lemma of_option_ok {A} (o : option A) e x : of_option o e = Ok x ↔ o = Some x.
Proof. destruct o; simpl; naive_solver. Qed.

Lemma for_each_ok {A} (f : A → result unit) l :
  for_each f l = Ok tt ↔ Forall (λ x, f x = Ok tt) l.
Proof.
  induction l as [|x l IH]; simpl; [by split|].
  rewrite Forall_cons, <- IH. destruct (f x) as [[]|]; simpl; naive_solver.
Qed.

Lemma fold_res_snoc {A S} (f : S → A → result S) (l : list A) x s :
  fold_res f (l ++ [x]) s = (s' ← fold_res f l s; f s' x).
Proof.
  revert s. induction l as [|y l IH]; intros s; simpl; [by destruct (f s x)|].
  destruct (f s y); simpl; [apply IH|done].
Qed.

(** ** Strings

    A Python [str] is modelled by its UTF-8 encoding. [py_len] counts code
    points (the bytes that are not continuation bytes), [String.length] the
    bytes of [s.encode("utf-8")]. *)
Definition is_continuation (c : ascii) : bool :=
  let n := N_of_ascii c in ((128 <=? n) && (n <? 192))%N.

Fixpoint py_len (s : string) : nat :=
  match s with
  | EmptyString => 0
  | String c s' => (if is_continuation c then 0 else 1) + py_len s'
  end.

Lemma py_len_le_bytes s : py_len s ≤ String.length s.
Proof. induction s as [|c s IH]; simpl; [done|]. destruct (is_continuation c); lia. Qed.

(** [s.split(c, 1)]: the parts before and after the first [c], if there is one. *)
Fixpoint split_once (c : ascii) (s : string) : option (string * string) :=
  match s with
  | EmptyString => None
  | String d s' =>
      if Ascii.eqb c d then Some (EmptyString, s')
      else '(l, r) ← split_once c s'; Some (String d l, r)
  end.

Fixpoint str_mem (c : ascii) (s : string) : bool :=
  match s with
  | EmptyString => false
  | String d s' => Ascii.eqb c d || str_mem c s'
  end.

(** [s.split(c)] *)
Fixpoint split_all (c : ascii) (s : string) : list string :=
  match s with
  | EmptyString => [EmptyString]
  | String d s' =>
      if Ascii.eqb c d then EmptyString :: split_all c s'
      else match split_all c s' with
           | [] => [String d EmptyString]
           | p :: ps => String d p :: ps
           end
  end.

(** [s.startswith(p)] *)
Fixpoint startswith (p s : string) : bool :=
  match p, s with
  | EmptyString, _ => true
  | String a p', String b s' => Ascii.eqb a b && startswith p' s'
  | String _ _, EmptyString => false
  end.

(** [p in s] for strings. *)
Fixpoint substring_of (p s : string) : bool :=
  startswith p s ||
  match s with EmptyString => false | String _ s' => substring_of p s' end.

Definition str_nonempty (s : string) : bool :=
  match s with EmptyString => false | _ => true end.

Definition str_tail (s : string) : string :=
  match s with EmptyString => EmptyString | String _ s' => s' end.

Fixpoint str_forall (P : ascii → bool) (s : string) : bool :=
  match s with EmptyString => true | String c s' => P c && str_forall P s' end.

Fixpoint str_map (f : ascii → ascii) (s : string) : string :=
  match s with EmptyString => EmptyString | String c s' => String (f c) (str_map f s') end.

(** ASCII [str.lower] / [str.upper] on one character. *)
Definition ascii_lower (c : ascii) : ascii :=
  let n := N_of_ascii c in
  if ((65 <=? n) && (n <=? 90))%N then ascii_of_N (n + 32) else c.
Definition ascii_upper (c : ascii) : ascii :=
  let n := N_of_ascii c in
  if ((97 <=? n) && (n <=? 122))%N then ascii_of_N (n - 32) else c.

(** The characters [str.strip] and [int] remove (ASCII whitespace). *)
Definition is_space (c : ascii) : bool :=
  let n := N_of_ascii c in (((9 <=? n) && (n <=? 13)) || ((28 <=? n) && (n <=? 32)))%N.

Fixpoint str_lstrip (P : ascii → bool) (s : string) : string :=
  match s with
  | EmptyString => EmptyString
  | String c s' => if P c then str_lstrip P s' else s
  end.

Fixpoint str_rstrip (P : ascii → bool) (s : string) : string :=
  match s with
  | EmptyString => EmptyString
  | String c s' =>
      match str_rstrip P s' with
      | EmptyString => if P c then EmptyString else String c EmptyString
      | r => String c r
      end
  end.

Definition str_strip (P : ascii → bool) (s : string) : string :=
  str_rstrip P (str_lstrip P s).

(** ** [int(...)] on strings *)
Definition is_digit (c : ascii) : bool :=
  let n := N_of_ascii c in ((48 <=? n) && (n <=? 57))%N.
Definition digit_val (c : ascii) : Z := Z.of_N (N_of_ascii c) - 48.

(** Digits, with single underscores allowed between two of them. *)
Fixpoint parse_digits (s : string) (acc : Z) (prev_digit : bool) : option Z :=
  match s with
  | EmptyString => if prev_digit then Some acc else None
  | String c s' =>
      if is_digit c then parse_digits s' (acc * 10 + digit_val c) true
      else if Ascii.eqb c "_"%char && prev_digit then parse_digits s' acc false
      else None
  end.

Fixpoint count_digits (s : string) : N :=
  match s with
  | EmptyString => 0
  | String c s' => ((if is_digit c then 1 else 0) + count_digits s')%N
  end.

(** [int] refuses a string of more than 4300 digits
    ([sys.int_info.default_max_str_digits]). *)
Definition parse_unsigned (s : string) : option Z :=
  if (4300 <? count_digits s)%N then None else parse_digits s 0 false.

Definition int_of_string (s : string) : option Z :=
  match str_strip is_space s with
  | String "-"%char s' => Z.opp <$> parse_unsigned s'
  | String "+"%char s' => parse_unsigned s'
  | s' => parse_unsigned s'
  end.

(** ** JSON values

    What [json.loads] produces. A float is its exact value [m * 2^e] (the JSON
    decoder of the server refuses NaN and the infinities). A [dict] is the
    list of its items in insertion order. *)
Inductive json :=
  | JNull
  | JBool (b : bool)
  | JInt (z : Z)
  | JFloat (m e : Z)
  | JStr (s : string)
  | JList (l : list json)
  | JDict (d : list (string * json)).

Abbreviation pydict := (list (string * json)).

Fixpoint dict_get {V} (d : list (string * V)) (k : string) : option V :=
  match d with
  | [] => None
  | (k', v) :: d' => if String.eqb k k' then Some v else dict_get d' k
  end.

Definition dict_mem {V} (d : list (string * V)) (k : string) : bool :=
  match dict_get d k with Some _ => true | None => false end.

(** [d[k]] *)
Definition dict_index {V} (d : list (string * V)) (k : string) : result V :=
  of_option (dict_get d k) KeyError.

(** [d.get(k, default)] *)
Definition dict_get_or {V} (d : list (string * V)) (k : string) (v : V) : V :=
  default v (dict_get d k).

(** [j == s] for a string [s]. *)
Definition json_is_str (j : json) (s : string) : bool :=
  match j with JStr t => String.eqb t s | _ => false end.

Lemma json_is_str_true j s : json_is_str j s = true ↔ j = JStr s.
Proof.
  destruct j; simpl; split; intros H; simplify_eq; try done.
  - by apply String.eqb_eq in H as ->.
  - by apply String.eqb_eq.
Qed.

(** A JSON value equal to one string is different from every other. *)
Lemma json_is_str_other j s t :
  json_is_str j s = true → s ≠ t → json_is_str j t = false.
Proof. intros ->%json_is_str_true Hne. by apply String.eqb_neq. Qed.

(** [bool(j)] *)
Definition truthy (j : json) : bool :=
  match j with
  | JNull => false
  | JBool b => b
  | JInt z => negb (z =? 0)%Z
  | JFloat m _ => negb (m =? 0)%Z
  | JStr s => str_nonempty s
  | JList l => match l with [] => false | _ => true end
  | JDict d => match d with [] => false | _ => true end
  end.

(** Truncation of [m * 2^e] towards zero. *)
Definition float_trunc (m e : Z) : Z :=
  (if 0 <=? e then m * 2 ^ e else Z.quot m (2 ^ (- e)))%Z.

(** [int(j)] *)
Definition py_int (j : json) : result Z :=
  match j with
  | JInt z => Ok z
  | JBool b => Ok (if b then 1 else 0)%Z
  | JFloat m e => Ok (float_trunc m e)
  | JStr s => of_option (int_of_string s) ValueError
  | JNull | JList _ | JDict _ => Raise TypeError
  end.

(** [type(j) is int]: a [bool] is not one. *)
Definition is_int (j : json) : bool := match j with JInt _ => true | _ => false end.

(** [isinstance(j, Mapping)], with the mapping. *)
Definition as_mapping (j : json) : option pydict :=
  match j with JDict d => Some d | _ => None end.

(** [j.get], [j.items()], [j.keys()]: only a [dict] has them. *)
Definition mapping_of (j : json) : result pydict := of_option (as_mapping j) AttributeError.

(** A value that can be a [dict] key or a [set] element. *)
Definition hashable (j : json) : bool :=
  match j with JList _ | JDict _ => false | _ => true end.

(** The value of a number, as [(m, e)] for [m * 2^e]. *)
Definition json_num (j : json) : option (Z * Z) :=
  match j with
  | JBool b => Some (if b then 1 else 0, 0)%Z
  | JInt z => Some (z, 0)%Z
  | JFloat m e => Some (m, e)
  | _ => None
  end.

Definition num_eqb (x y : Z * Z) : bool :=
  let lo := Z.min x.2 y.2 in
  (x.1 * 2 ^ (x.2 - lo) =? y.1 * 2 ^ (y.2 - lo))%Z.

(** [a == b] where [a] is hashable (a container is equal to no scalar). *)
Definition scalar_eqb (a b : json) : bool :=
  match a, b with
  | JNull, JNull => true
  | JStr s, JStr t => String.eqb s t
  | JNull, _ | JStr _, _ | _, JNull | _, JStr _ => false
  | _, _ => match json_num a, json_num b with
            | Some x, Some y => num_eqb x y
            | _, _ => false
            end
  end.

(** [list(s)]: the one-character strings of [s]. *)
Fixpoint str_chars (s : string) : list string :=
  match s with
  | EmptyString => []
  | String c s' =>
      match str_chars s', s' with
      | p :: ps, String d _ => if is_continuation d then String c p :: ps
                               else String c EmptyString :: p :: ps
      | ps, _ => String c EmptyString :: ps
      end
  end.

(** [list(j)] *)
Definition py_list (j : json) : result (list json) :=
  match j with
  | JDict d => Ok (JStr <$> d.*1)
  | JList l => Ok l
  | JStr s => Ok (JStr <$> str_chars s)
  | _ => Raise TypeError
  end.

(** [set(l)], as the list of its distinct elements in order of first
    appearance. *)
Fixpoint dedup_scalars (seen l : list json) : list json :=
  match l with
  | [] => []
  | x :: l' => if existsb (scalar_eqb x) seen then dedup_scalars seen l'
               else x :: dedup_scalars (x :: seen) l'
  end.

Definition py_set (l : list json) : result (list json) :=
  if forallb hashable l then Ok (dedup_scalars [] l) else Raise TypeError.

(** [k in c] for a hashable [k]. *)
Definition py_in (k c : json) : result bool :=
  match c with
  | JDict d => Ok (match k with JStr s => dict_mem d s | _ => false end)
  | JList l => Ok (existsb (scalar_eqb k) l)
  | JStr s => match k with JStr p => Ok (substring_of p s) | _ => Raise TypeError end
  | _ => Raise TypeError
  end.

(** The position a list or string index denotes: negative indices count from
    the end. *)
Definition list_index (len : nat) (i : Z) : option nat :=
  let j := if (i <? 0)%Z then (i + Z.of_nat len)%Z else i in
  if ((0 <=? j) && (j <? Z.of_nat len))%Z then Some (Z.to_nat j) else None.

(** [c[k]] *)
Definition py_getitem (c k : json) : result json :=
  match c with
  | JDict d => match k with JStr s => dict_index d s | _ => Raise KeyError end
  | JList l =>
      match k with
      | JInt _ | JBool _ =>
          i ← py_int k;
          of_option (n ← list_index (length l) i; l !! n) IndexError
      | _ => Raise TypeError
      end
  | JStr s =>
      match k with
      | JInt _ | JBool _ =>
          let cs := str_chars s in
          i ← py_int k;
          of_option (n ← list_index (length cs) i; JStr <$> cs !! n) IndexError
      | _ => Raise TypeError
      end
  | _ => Raise TypeError
  end.

(** ** Lemmas on strings *)
#[global] Arguments String.append !_ _ / : simpl nomatch.

Lemma split_once_Some c s l r :
  split_once c s = Some (l, r) ↔ s = l +:+ String c r ∧ str_mem c l = false.
Proof.
  revert l r; induction s as [|d s IH]; intros l r; simpl.
  - split; [done|]. intros [Hs _]. by destruct l.
  - destruct (Ascii.eqb_spec c d) as [->|Hne].
    + split.
      * intros [= <- <-]. done.
      * intros [Hs Hl]. destruct l as [|a l]; simpl in *; [by simplify_eq|].
        simplify_eq. by rewrite Ascii.eqb_refl in Hl.
    + split.
      * destruct (split_once c s) as [[l' r']|] eqn:E; simpl; [|done].
        intros [= <- <-]. destruct (proj1 (IH l' r') eq_refl) as [-> Hl].
        simpl. split; [done|]. rewrite Hl. by destruct (Ascii.eqb_spec c d).
      * intros [Hs Hl]. destruct l as [|a l]; simpl in *; simplify_eq.
        apply orb_false_iff in Hl as [_ Hl].
        by rewrite (proj2 (IH l r) (conj eq_refl Hl)).
Qed.

Lemma split_once_None c s : split_once c s = None ↔ str_mem c s = false.
Proof.
  induction s as [|d s IH]; simpl; [done|].
  destruct (Ascii.eqb_spec c d); simpl; [done|].
  rewrite <- IH. destruct (split_once c s) as [[??]|]; simpl; naive_solver.
Qed.

Lemma str_mem_app c s t : str_mem c (s +:+ t) = str_mem c s || str_mem c t.
Proof. induction s as [|d s IH]; simpl; [done|]. by rewrite IH, orb_assoc. Qed.

Lemma str_forall_app P s t : str_forall P (s +:+ t) = str_forall P s && str_forall P t.
Proof. induction s as [|d s IH]; simpl; [done|]. by rewrite IH, andb_assoc. Qed.

Lemma str_app_assoc (s t u : string) : (s +:+ t) +:+ u = s +:+ (t +:+ u).
Proof. induction s as [|d s IH]; simpl; [done|]. by rewrite IH. Qed.

Lemma str_app_nil_r (s : string) : s +:+ "" = s.
Proof. induction s as [|d s IH]; simpl; [done|]. by rewrite IH. Qed.

(** Python compares strings by code points, which is the order of their UTF-8
    encodings: [String.leb]. *)
Lemma string_leb_trans s1 s2 s3 :
  String.leb s1 s2 = true → String.leb s2 s3 = true → String.leb s1 s3 = true.
Proof.
  unfold String.leb. revert s2 s3. induction s1 as [|a s1 IH]; intros [|b s2] [|c s3]; try done.
  simpl. unfold Ascii.compare.
  destruct (N.compare_spec (N_of_ascii a) (N_of_ascii b)) as [Hab|Hab|Hab]; try done;
    destruct (N.compare_spec (N_of_ascii b) (N_of_ascii c)) as [Hbc|Hbc|Hbc]; try done;
    destruct (N.compare_spec (N_of_ascii a) (N_of_ascii c)) as [Hac|Hac|Hac]; try done; try lia.
  apply IH.
Qed.

(** ** [int] inverts decimal printing *)
Lemma count_digits_app s t : count_digits (s +:+ t) = (count_digits s + count_digits t)%N.
Proof. induction s as [|d s IH]; simpl; [done|]. rewrite IH. lia. Qed.

Lemma pretty_N_char_digit x :
  (x < 10)%N → is_digit (pretty_N_char x) = true ∧ digit_val (pretty_N_char x) = Z.of_N x.
Proof.
  intros Hx. assert (∃ n : nat, n < 10 ∧ x = N.of_nat n) as (n & Hn & ->).
  { exists (N.to_nat x). lia. }
  do 10 (destruct n as [|n]; [done|]). lia.
Qed.

Lemma pretty_N_go_length x t :
  String.length (pretty_N_go x t) = String.length (pretty_N_go x "") + String.length t.
Proof.
  revert t. induction (N.lt_wf_0 x) as [y _ IH]. intros t.
  destruct (decide (y = 0%N)) as [->|Hy]; [by rewrite !pretty_N_go_0|].
  rewrite !(pretty_N_go_step y) by lia.
  assert (y `div` 10 < y)%N by (apply N.div_lt; lia).
  rewrite IH by done. symmetry. rewrite IH by done. simpl. lia.
Qed.

Lemma pretty_N_go_count x t k :
  (x < 10 ^ k)%N → (count_digits (pretty_N_go x t) ≤ k + count_digits t)%N.
Proof.
  revert x t. induction k as [|k IH] using N.peano_ind; intros x t Hx.
  - assert (x = 0%N) as -> by (rewrite N.pow_0_r in Hx; lia). rewrite pretty_N_go_0. lia.
  - destruct (decide (x = 0%N)) as [->|Hx0]; [rewrite pretty_N_go_0; lia|].
    rewrite pretty_N_go_step by lia. rewrite N.pow_succ_r' in Hx.
    assert (x `div` 10 < 10 ^ k)%N as Hlt by (apply N.Div0.div_lt_upper_bound; lia).
    specialize (IH _ (String (pretty_N_char (x `mod` 10)) t) Hlt). simpl in IH.
    destruct (is_digit _); lia.
Qed.

Lemma parse_digits_pretty_go x s acc p :
  parse_digits (pretty_N_go x s) acc p =
  parse_digits s (acc * 10 ^ Z.of_nat (String.length (pretty_N_go x "")) + Z.of_N x)
    (p || negb (x =? 0)%N).
Proof.
  revert s acc p. induction (N.lt_wf_0 x) as [x _ IH]. intros s acc p.
  destruct (decide (x = 0%N)) as [->|Hx].
  - rewrite pretty_N_go_0. simpl. rewrite orb_false_r. f_equal.
    change (10 ^ Z.of_nat (String.length (pretty_N_go 0 "")))%Z with 1%Z. lia.
  - rewrite !(pretty_N_go_step x) by lia.
    assert (x `div` 10 < x)%N as Hlt by (apply N.div_lt; lia).
    rewrite IH by done. destruct (pretty_N_char_digit (x `mod` 10)) as [Hd Hv].
    { apply N.mod_lt. lia. }
    simpl. rewrite Hd, Hv, (pretty_N_go_length _ (String _ _)). simpl.
    replace (p || negb (x =? 0)%N) with true
      by (destruct (N.eqb_spec x 0); [done|]; by rewrite orb_true_r).
    f_equal. rewrite Nat2Z.inj_add, Z.pow_add_r by lia.
    pose proof (N.div_mod x 10 ltac:(lia)).
    change (10 ^ Z.of_nat 1)%Z with 10%Z. set (k := (10 ^ _)%Z). lia.
Qed.

Lemma parse_unsigned_pretty (n : N) :
  (n < 10 ^ 4300)%N → parse_unsigned (pretty n) = Some (Z.of_N n).
Proof.
  intros Hn. unfold parse_unsigned, pretty, pretty_N. case_decide as Hz.
  - by subst.
  - assert (count_digits (pretty_N_go n "") ≤ 4300)%N as Hc.
    { pose proof (pretty_N_go_count n "" 4300 Hn). simpl in *. lia. }
    replace (4300 <? _)%N with false by (symmetry; apply N.ltb_ge; exact Hc).
    rewrite parse_digits_pretty_go. simpl.
    destruct (N.eqb_spec n 0); simpl; [done|]. by f_equal.
Qed.

Lemma str_rstrip_last P s c :
  P c = false → str_rstrip P (s +:+ String c "") = s +:+ String c "".
Proof.
  intros Hc. induction s as [|d s IH]; simpl; [by rewrite Hc|].
  rewrite IH. by destruct s.
Qed.

Lemma pretty_N_go_head x s :
  (0 < x)%N → ∃ c t, pretty_N_go x s = String c t ∧ is_digit c = true.
Proof.
  revert s. induction (N.lt_wf_0 x) as [y _ IH]. intros s Hy.
  rewrite pretty_N_go_step by done.
  destruct (decide (y `div` 10 = 0)%N) as [->|Hd].
  - rewrite pretty_N_go_0. do 2 eexists. split; [done|].
    apply pretty_N_char_digit, N.mod_lt. lia.
  - apply IH; [apply N.div_lt; lia|]. by apply N.neq_0_lt_0.
Qed.

Lemma pretty_N_go_forall x s :
  str_forall is_digit s = true → str_forall is_digit (pretty_N_go x s) = true.
Proof.
  revert s. induction (N.lt_wf_0 x) as [y _ IH]. intros s Hs.
  destruct (decide (y = 0%N)) as [->|Hy]; [by rewrite pretty_N_go_0|].
  rewrite pretty_N_go_step by lia. apply IH; [apply N.div_lt; lia|]. simpl.
  by rewrite (proj1 (pretty_N_char_digit (y `mod` 10) ltac:(apply N.mod_lt; lia))).
Qed.

Lemma pretty_N_digits (n : N) : str_forall is_digit (pretty n) = true.
Proof. unfold pretty, pretty_N. case_decide; [done|]. by apply pretty_N_go_forall. Qed.

Lemma pretty_N_head (n : N) : ∃ c t, pretty n = String c t ∧ is_digit c = true.
Proof.
  unfold pretty, pretty_N. case_decide; [by do 2 eexists|]. apply pretty_N_go_head. lia.
Qed.

Lemma str_rstrip_none P s : str_forall (negb ∘ P) s = true → str_rstrip P s = s.
Proof.
  induction s as [|c s IH]; simpl; [done|].
  intros [Hc Hs]%andb_true_iff. rewrite IH by done.
  destruct s; [|done]. by destruct (P c).
Qed.

Lemma str_forall_impl (P Q : ascii → bool) s :
  (∀ c, P c = true → Q c = true) → str_forall P s = true → str_forall Q s = true.
Proof.
  intros HPQ. induction s as [|c s IH]; simpl; [done|].
  intros [Hc Hs]%andb_true_iff. by rewrite (HPQ _ Hc), IH.
Qed.

Lemma digit_not_space c : is_digit c = true → is_space c = false.
Proof.
  unfold is_digit, is_space. intros [H1 H2]%andb_true_iff.
  apply N.leb_le in H1, H2. apply orb_false_iff; split; apply andb_false_iff;
    rewrite !N.leb_gt; lia.
Qed.

(** Characters that [int] treats like digits or the sign are not whitespace. *)
Lemma str_strip_digits s :
  str_forall is_digit s = true → str_strip is_space s = s.
Proof.
  intros Hs. unfold str_strip. replace (str_lstrip is_space s) with s.
  - apply str_rstrip_none. revert Hs. apply str_forall_impl.
    intros c Hc. simpl. by rewrite (digit_not_space c Hc).
  - destruct s as [|c s]; simpl in *; [done|].
    apply andb_true_iff in Hs as [Hc _]. by rewrite (digit_not_space c Hc).
Qed.

Lemma int_of_string_pretty_N (n : N) :
  (n < 10 ^ 4300)%N → int_of_string (pretty n) = Some (Z.of_N n).
Proof.
  intros Hn. unfold int_of_string. rewrite str_strip_digits by apply pretty_N_digits.
  destruct (pretty_N_head n) as (c & t & Hp & Hc).
  rewrite <- (parse_unsigned_pretty n Hn), Hp.
  by destruct c as [[] [] [] [] [] [] [] []].
Qed.

(** [int("%d" % z) == z], for every number short enough for [int]. *)
Lemma int_of_string_pretty (z : Z) :
  (Z.abs_N z < 10 ^ 4300)%N → int_of_string (pretty z) = Some z.
Proof.
  destruct z as [|p|p]; simpl; intros Hz; [done|exact (int_of_string_pretty_N (Npos p) Hz)|].
  unfold int_of_string.
  assert (str_strip is_space ("-" +:+ pretty (Npos p)) = "-" +:+ pretty (Npos p)) as Hs.
  { unfold str_strip. simpl. apply (str_rstrip_none is_space ("-" +:+ _)). simpl.
    eapply str_forall_impl; [|apply pretty_N_digits].
    intros c Hc. simpl. by rewrite digit_not_space. }
  change (pretty (Z.neg p)) with ("-" +:+ pretty (Npos p)). rewrite Hs. simpl.
  by rewrite parse_unsigned_pretty.
Qed.
