(* ===== verification/RoomVersions.v ===== *)
(** Room versions: [textrp_briij/api/room_versions.py].

    Each room version is a record of the features its rooms use; every other
    component branches on these fields.  The file ends with the facts about the
    table that those components rely on. *)
From S2P Require Import Prelude.

Module EventFormatVersions.
Inductive t := ROOM_V1_V2 | ROOM_V3 | ROOM_V4_PLUS | ROOM_V11_HYDRA_PLUS.

#[export] Instance t_eq_dec : EqDecision t.
Proof. solve_decision. Defined.
End EventFormatVersions.
Import EventFormatVersions.

Module StateResolutionVersions.
Inductive t := SR_V1 | SR_V2 | SR_V2_1.

#[export] Instance t_eq_dec : EqDecision t.
Proof. solve_decision. Defined.
End StateResolutionVersions.
Import StateResolutionVersions.

Inductive RoomDisposition := STABLE | UNSTABLE.
#[export] Instance RoomDisposition_eq_dec : EqDecision RoomDisposition.
Proof. solve_decision. Defined.

(** [PushRuleRoomFlag.EXTENSIBLE_EVENTS] *)
Definition EXTENSIBLE_EVENTS : string := "org.matrix.msc3932.extensible_events".

Record RoomVersion := mkRoomVersion {
  identifier : string;
  disposition : RoomDisposition;
  event_format : EventFormatVersions.t;
  state_res : StateResolutionVersions.t;
  enforce_key_validity : bool;
  special_case_aliases_auth : bool;
  strict_canonicaljson : bool;
  limit_notifications_power_levels : bool;
  implicit_room_creator : bool;
  updated_redaction_rules : bool;
  restricted_join_rule : bool;
  restricted_join_rule_fix : bool;
  knock_join_rule : bool;
  msc3389_relation_redactions : bool;
  knock_restricted_join_rule : bool;
  enforce_int_power_levels : bool;
  msc3931_push_features : list string;
  msc3757_enabled : bool;
  msc4289_creator_power_enabled : bool;
  msc4291_room_ids_as_hashes : bool
}.

#[export] Instance RoomVersion_eq_dec : EqDecision RoomVersion.
Proof. solve_decision. Defined.

Module RoomVersions.
Definition V1 : RoomVersion := {|
  identifier := "1";
  disposition := STABLE;
  event_format := ROOM_V1_V2;
  state_res := SR_V1;
  enforce_key_validity := false;
  special_case_aliases_auth := true;
  strict_canonicaljson := false;
  limit_notifications_power_levels := false;
  implicit_room_creator := false;
  updated_redaction_rules := false;
  restricted_join_rule := false;
  restricted_join_rule_fix := false;
  knock_join_rule := false;
  msc3389_relation_redactions := false;
  knock_restricted_join_rule := false;
  enforce_int_power_levels := false;
  msc3931_push_features := [];
  msc3757_enabled := false;
  msc4289_creator_power_enabled := false;
  msc4291_room_ids_as_hashes := false |}.

Definition V2 : RoomVersion := {|
  identifier := "2";
  disposition := STABLE;
  event_format := ROOM_V1_V2;
  state_res := SR_V2;
  enforce_key_validity := false;
  special_case_aliases_auth := true;
  strict_canonicaljson := false;
  limit_notifications_power_levels := false;
  implicit_room_creator := false;
  updated_redaction_rules := false;
  restricted_join_rule := false;
  restricted_join_rule_fix := false;
  knock_join_rule := false;
  msc3389_relation_redactions := false;
  knock_restricted_join_rule := false;
  enforce_int_power_levels := false;
  msc3931_push_features := [];
  msc3757_enabled := false;
  msc4289_creator_power_enabled := false;
  msc4291_room_ids_as_hashes := false |}.

Definition V3 : RoomVersion := {|
  identifier := "3";
  disposition := STABLE;
  event_format := ROOM_V3;
  state_res := SR_V2;
  enforce_key_validity := false;
  special_case_aliases_auth := true;
  strict_canonicaljson := false;
  limit_notifications_power_levels := false;
  implicit_room_creator := false;
  updated_redaction_rules := false;
  restricted_join_rule := false;
  restricted_join_rule_fix := false;
  knock_join_rule := false;
  msc3389_relation_redactions := false;
  knock_restricted_join_rule := false;
  enforce_int_power_levels := false;
  msc3931_push_features := [];
  msc3757_enabled := false;
  msc4289_creator_power_enabled := false;
  msc4291_room_ids_as_hashes := false |}.

Definition V4 : RoomVersion := {|
  identifier := "4";
  disposition := STABLE;
  event_format := ROOM_V4_PLUS;
  state_res := SR_V2;
  enforce_key_validity := false;
  special_case_aliases_auth := true;
  strict_canonicaljson := false;
  limit_notifications_power_levels := false;
  implicit_room_creator := false;
  updated_redaction_rules := false;
  restricted_join_rule := false;
  restricted_join_rule_fix := false;
  knock_join_rule := false;
  msc3389_relation_redactions := false;
  knock_restricted_join_rule := false;
  enforce_int_power_levels := false;
  msc3931_push_features := [];
  msc3757_enabled := false;
  msc4289_creator_power_enabled := false;
  msc4291_room_ids_as_hashes := false |}.

Definition V5 : RoomVersion := {|
  identifier := "5";
  disposition := STABLE;
  event_format := ROOM_V4_PLUS;
  state_res := SR_V2;
  enforce_key_validity := true;
  special_case_aliases_auth := true;
  strict_canonicaljson := false;
  limit_notifications_power_levels := false;
  implicit_room_creator := false;
  updated_redaction_rules := false;
  restricted_join_rule := false;
  restricted_join_rule_fix := false;
  knock_join_rule := false;
  msc3389_relation_redactions := false;
  knock_restricted_join_rule := false;
  enforce_int_power_levels := false;
  msc3931_push_features := [];
  msc3757_enabled := false;
  msc4289_creator_power_enabled := false;
  msc4291_room_ids_as_hashes := false |}.

Definition V6 : RoomVersion := {|
  identifier := "6";
  disposition := STABLE;
  event_format := ROOM_V4_PLUS;
  state_res := SR_V2;
  enforce_key_validity := true;
  special_case_aliases_auth := false;
  strict_canonicaljson := true;
  limit_notifications_power_levels := true;
  implicit_room_creator := false;
  updated_redaction_rules := false;
  restricted_join_rule := false;
  restricted_join_rule_fix := false;
  knock_join_rule := false;
  msc3389_relation_redactions := false;
  knock_restricted_join_rule := false;
  enforce_int_power_levels := false;
  msc3931_push_features := [];
  msc3757_enabled := false;
  msc4289_creator_power_enabled := false;
  msc4291_room_ids_as_hashes := false |}.

Definition V7 : RoomVersion := {|
  identifier := "7";
  disposition := STABLE;
  event_format := ROOM_V4_PLUS;
  state_res := SR_V2;
  enforce_key_validity := true;
  special_case_aliases_auth := false;
  strict_canonicaljson := true;
  limit_notifications_power_levels := true;
  implicit_room_creator := false;
  updated_redaction_rules := false;
  restricted_join_rule := false;
  restricted_join_rule_fix := false;
  knock_join_rule := true;
  msc3389_relation_redactions := false;
  knock_restricted_join_rule := false;
  enforce_int_power_levels := false;
  msc3931_push_features := [];
  msc3757_enabled := false;
  msc4289_creator_power_enabled := false;
  msc4291_room_ids_as_hashes := false |}.

Definition V8 : RoomVersion := {|
  identifier := "8";
  disposition := STABLE;
  event_format := ROOM_V4_PLUS;
  state_res := SR_V2;
  enforce_key_validity := true;
  special_case_aliases_auth := false;
  strict_canonicaljson := true;
  limit_notifications_power_levels := true;
  implicit_room_creator := false;
  updated_redaction_rules := false;
  restricted_join_rule := true;
  restricted_join_rule_fix := false;
  knock_join_rule := true;
  msc3389_relation_redactions := false;
  knock_restricted_join_rule := false;
  enforce_int_power_levels := false;
  msc3931_push_features := [];
  msc3757_enabled := false;
  msc4289_creator_power_enabled := false;
  msc4291_room_ids_as_hashes := false |}.

Definition V9 : RoomVersion := {|
  identifier := "9";
  disposition := STABLE;
  event_format := ROOM_V4_PLUS;
  state_res := SR_V2;
  enforce_key_validity := true;
  special_case_aliases_auth := false;
  strict_canonicaljson := true;
  limit_notifications_power_levels := true;
  implicit_room_creator := false;
  updated_redaction_rules := false;
  restricted_join_rule := true;
  restricted_join_rule_fix := true;
  knock_join_rule := true;
  msc3389_relation_redactions := false;
  knock_restricted_join_rule := false;
  enforce_int_power_levels := false;
  msc3931_push_features := [];
  msc3757_enabled := false;
  msc4289_creator_power_enabled := false;
  msc4291_room_ids_as_hashes := false |}.

Definition V10 : RoomVersion := {|
  identifier := "10";
  disposition := STABLE;
  event_format := ROOM_V4_PLUS;
  state_res := SR_V2;
  enforce_key_validity := true;
  special_case_aliases_auth := false;
  strict_canonicaljson := true;
  limit_notifications_power_levels := true;
  implicit_room_creator := false;
  updated_redaction_rules := false;
  restricted_join_rule := true;
  restricted_join_rule_fix := true;
  knock_join_rule := true;
  msc3389_relation_redactions := false;
  knock_restricted_join_rule := true;
  enforce_int_power_levels := true;
  msc3931_push_features := [];
  msc3757_enabled := false;
  msc4289_creator_power_enabled := false;
  msc4291_room_ids_as_hashes := false |}.

Definition MSC1767v10 : RoomVersion := {|
  identifier := "org.matrix.msc1767.10";
  disposition := UNSTABLE;
  event_format := ROOM_V4_PLUS;
  state_res := SR_V2;
  enforce_key_validity := true;
  special_case_aliases_auth := false;
  strict_canonicaljson := true;
  limit_notifications_power_levels := true;
  implicit_room_creator := false;
  updated_redaction_rules := false;
  restricted_join_rule := true;
  restricted_join_rule_fix := true;
  knock_join_rule := true;
  msc3389_relation_redactions := false;
  knock_restricted_join_rule := true;
  enforce_int_power_levels := true;
  msc3931_push_features := [EXTENSIBLE_EVENTS];
  msc3757_enabled := false;
  msc4289_creator_power_enabled := false;
  msc4291_room_ids_as_hashes := false |}.

Definition MSC3757v10 : RoomVersion := {|
  identifier := "org.matrix.msc3757.10";
  disposition := UNSTABLE;
  event_format := ROOM_V4_PLUS;
  state_res := SR_V2;
  enforce_key_validity := true;
  special_case_aliases_auth := false;
  strict_canonicaljson := true;
  limit_notifications_power_levels := true;
  implicit_room_creator := false;
  updated_redaction_rules := false;
  restricted_join_rule := true;
  restricted_join_rule_fix := true;
  knock_join_rule := true;
  msc3389_relation_redactions := false;
  knock_restricted_join_rule := true;
  enforce_int_power_levels := true;
  msc3931_push_features := [];
  msc3757_enabled := true;
  msc4289_creator_power_enabled := false;
  msc4291_room_ids_as_hashes := false |}.

Definition V11 : RoomVersion := {|
  identifier := "11";
  disposition := STABLE;
  event_format := ROOM_V4_PLUS;
  state_res := SR_V2;
  enforce_key_validity := true;
  special_case_aliases_auth := false;
  strict_canonicaljson := true;
  limit_notifications_power_levels := true;
  implicit_room_creator := true;
  updated_redaction_rules := true;
  restricted_join_rule := true;
  restricted_join_rule_fix := true;
  knock_join_rule := true;
  msc3389_relation_redactions := false;
  knock_restricted_join_rule := true;
  enforce_int_power_levels := true;
  msc3931_push_features := [];
  msc3757_enabled := false;
  msc4289_creator_power_enabled := false;
  msc4291_room_ids_as_hashes := false |}.

Definition MSC3757v11 : RoomVersion := {|
  identifier := "org.matrix.msc3757.11";
  disposition := UNSTABLE;
  event_format := ROOM_V4_PLUS;
  state_res := SR_V2;
  enforce_key_validity := true;
  special_case_aliases_auth := false;
  strict_canonicaljson := true;
  limit_notifications_power_levels := true;
  implicit_room_creator := true;
  updated_redaction_rules := true;
  restricted_join_rule := true;
  restricted_join_rule_fix := true;
  knock_join_rule := true;
  msc3389_relation_redactions := false;
  knock_restricted_join_rule := true;
  enforce_int_power_levels := true;
  msc3931_push_features := [];
  msc3757_enabled := true;
  msc4289_creator_power_enabled := false;
  msc4291_room_ids_as_hashes := false |}.

Definition HydraV11 : RoomVersion := {|
  identifier := "org.matrix.hydra.11";
  disposition := UNSTABLE;
  event_format := ROOM_V11_HYDRA_PLUS;
  state_res := SR_V2_1;
  enforce_key_validity := true;
  special_case_aliases_auth := false;
  strict_canonicaljson := true;
  limit_notifications_power_levels := true;
  implicit_room_creator := true;
  updated_redaction_rules := true;
  restricted_join_rule := true;
  restricted_join_rule_fix := true;
  knock_join_rule := true;
  msc3389_relation_redactions := false;
  knock_restricted_join_rule := true;
  enforce_int_power_levels := true;
  msc3931_push_features := [];
  msc3757_enabled := false;
  msc4289_creator_power_enabled := true;
  msc4291_room_ids_as_hashes := true |}.

Definition V12 : RoomVersion := {|
  identifier := "12";
  disposition := STABLE;
  event_format := ROOM_V11_HYDRA_PLUS;
  state_res := SR_V2_1;
  enforce_key_validity := true;
  special_case_aliases_auth := false;
  strict_canonicaljson := true;
  limit_notifications_power_levels := true;
  implicit_room_creator := true;
  updated_redaction_rules := true;
  restricted_join_rule := true;
  restricted_join_rule_fix := true;
  knock_join_rule := true;
  msc3389_relation_redactions := false;
  knock_restricted_join_rule := true;
  enforce_int_power_levels := true;
  msc3931_push_features := [];
  msc3757_enabled := false;
  msc4289_creator_power_enabled := true;
  msc4291_room_ids_as_hashes := true |}.

End RoomVersions.

(** The versions the server accepts: [MSC1767v10] is defined but not listed. *)
Definition known_room_versions : list RoomVersion :=
  [ RoomVersions.V1; RoomVersions.V2; RoomVersions.V3; RoomVersions.V4;
    RoomVersions.V5; RoomVersions.V6; RoomVersions.V7; RoomVersions.V8;
    RoomVersions.V9; RoomVersions.V10; RoomVersions.V11; RoomVersions.V12;
    RoomVersions.MSC3757v10; RoomVersions.MSC3757v11; RoomVersions.HydraV11 ].

(** [KNOWN_ROOM_VERSIONS], as a dict from the identifier. *)
Definition KNOWN_ROOM_VERSIONS : list (string * RoomVersion) :=
  (λ v, (identifier v, v)) <$> known_room_versions.

(** ** The facts the other components rely on *)

(** The features of a version fit together: a fix implies what it fixes, the
    combined join rule implies its two halves, and the three parts of
    hash-based room IDs (event format, creator power, resolution algorithm)
    come together. *)
Definition consistent_version (v : RoomVersion) : bool :=
  (negb (restricted_join_rule_fix v) || restricted_join_rule v) &&
  (negb (knock_restricted_join_rule v) || (restricted_join_rule v && knock_join_rule v)) &&
  Bool.eqb (msc4291_room_ids_as_hashes v) (bool_decide (event_format v = ROOM_V11_HYDRA_PLUS)) &&
  (negb (msc4291_room_ids_as_hashes v) ||
   (msc4289_creator_power_enabled v && implicit_room_creator v && updated_redaction_rules v)) &&
  Bool.eqb (msc4291_room_ids_as_hashes v) (bool_decide (state_res v = SR_V2_1)) &&
  Bool.eqb (bool_decide (state_res v = SR_V1)) (String.eqb (identifier v) "1") &&
  (negb (enforce_int_power_levels v) || strict_canonicaljson v).

Lemma known_versions_consistent : forallb consistent_version known_room_versions = true.
Proof. reflexivity. Qed.

Lemma known_versions_nodup : NoDup (identifier <$> known_room_versions).
Proof. apply (bool_decide_unpack _). vm_compute. exact I. Qed.

Lemma dict_get_pairs (vs : list RoomVersion) k v :
  dict_get ((λ v, (identifier v, v)) <$> vs) k = Some v → v ∈ vs ∧ identifier v = k.
Proof.
  induction vs as [|w vs IH]; simpl; [done|].
  destruct (String.eqb_spec k (identifier w)) as [->|].
  - intros [= ->]. split; [left|done].
  - intros [? ?]%IH. split; [by right|done].
Qed.

Lemma dict_get_identifier (vs : list RoomVersion) v :
  NoDup (identifier <$> vs) → v ∈ vs →
  dict_get ((λ v, (identifier v, v)) <$> vs) (identifier v) = Some v.
Proof.
  induction vs as [|w vs IH]; simpl; [intros _ []%not_elem_of_nil|].
  intros [Hw Hnd]%NoDup_cons [->|Hin]%elem_of_cons; [by rewrite String.eqb_refl|].
  destruct (String.eqb_spec (identifier v) (identifier w)) as [Heq|]; [|by apply IH].
  destruct Hw. rewrite <- Heq. by apply list_elem_of_fmap_2.
Qed.

(** The table of room versions.  Looking an identifier up in
    [KNOWN_ROOM_VERSIONS] gives a version with that identifier, every listed
    version is found under its own identifier (none hides another), and the
    feature flags of a version the server accepts are consistent with each
    other, which the authorization rules and the state resolution rely on when
    they test only one of them. *)
Theorem known_room_versions_table (v : RoomVersion) :
  (dict_get KNOWN_ROOM_VERSIONS (identifier v) = Some v ↔ v ∈ known_room_versions) ∧
  (∀ k w, dict_get KNOWN_ROOM_VERSIONS k = Some w →
     identifier w = k ∧ consistent_version w = true).
Proof.
  unfold KNOWN_ROOM_VERSIONS. split; [split|].
  - by intros [? _]%dict_get_pairs.
  - intros ?. by apply dict_get_identifier; [apply known_versions_nodup|].
  - intros k w [Hin Hk]%dict_get_pairs. split; [done|].
    pose proof known_versions_consistent as Hall. rewrite forallb_forall in Hall.
    by apply Hall, list_elem_of_In.
Qed.

Lemma known_room_versions_table_witness :
  dict_get KNOWN_ROOM_VERSIONS "12" = Some RoomVersions.V12 ∧
  consistent_version RoomVersions.V12 = true.
Proof.
  assert (dict_get KNOWN_ROOM_VERSIONS "12" = Some RoomVersions.V12) as H by reflexivity.
  split; [exact H|]. exact (proj2 (proj2 (known_room_versions_table RoomVersions.V12) _ _ H)).
Defined.
