(* ===== verification/Identifiers.v ===== *)
(** Matrix identifiers: [textrp_briij/types/__init__.py] (the ID classes) and the
    server-name grammar of [textrp_briij/util/stringutils.py]. *)
From S2P Require Import Prelude.
From Stdlib Require Import Ascii.

Definition INVALID_PARAM : string := "M_INVALID_PARAM".
Definition UNKNOWN : string := "M_UNKNOWN".

(** ** [get_domain_from_id] and [get_localpart_from_id] *)
Definition get_domain_from_id (s : string) : result string :=
  match split_once ":" s with
  | None => Raise (SynapseError 400 "Invalid ID: %r" UNKNOWN)
  | Some (_, domain) => Ok domain
  end.

Definition get_localpart_from_id (s : string) : result string :=
  match split_once ":" s with
  | None => Raise (SynapseError 400 "Invalid ID: %r" UNKNOWN)
  | Some (l, _) => Ok (str_tail l)
  end.

(** ** Server names *)

(** [s.rsplit(c, 1)]: the parts around the last [c]. *)
Fixpoint split_last (c : ascii) (s : string) : option (string * string) :=
  match s with
  | EmptyString => None
  | String d s' =>
      match split_last c s' with
      | Some (l, r) => Some (String d l, r)
      | None => if Ascii.eqb c d then Some (EmptyString, s') else None
      end
  end.

Fixpoint last_char (s : string) : option ascii :=
  match s with
  | EmptyString => None
  | String c EmptyString => Some c
  | String _ s' => last_char s'
  end.

Definition parse_server_name (server_name : string) : result (string * option Z) :=
  if bool_decide (last_char server_name = Some "]"%char) then Ok (server_name, None)
  else match split_last ":" server_name with
       | None => Ok (server_name, None)
       | Some (domain, p) =>
           match int_of_string p with
           | Some port => Ok (domain, Some port)
           | None => Raise ValueError
           end
       end.

Definition is_alnum (c : ascii) : bool :=
  let n := N_of_ascii c in
  (((48 <=? n) && (n <=? 57)) || ((65 <=? n) && (n <=? 90)) || ((97 <=? n) && (n <=? 122)))%N.

Definition host_char (c : ascii) : bool := is_alnum c || Ascii.eqb c "-".

(** [VALID_HOST_REGEX]: dot-separated, non-empty labels of [host_char]s, up to
    the very end of the string. *)
Definition VALID_HOST_REGEX (host : string) : bool :=
  forallb (λ p, str_nonempty p && str_forall host_char p) (split_all "." host).

Fixpoint str_init (s : string) : string :=
  match s with
  | EmptyString => EmptyString
  | String _ EmptyString => EmptyString
  | String c s' => String c (str_init s')
  end.

Section ServerName.
(** [netaddr.valid_ipv6] *)
Context (valid_ipv6 : string → bool).

Definition parse_and_validate_server_name (server_name : string) : result (string * option Z) :=
  '(host, port) ← parse_server_name server_name;
  if startswith "[" host then
    _ ← raise_if (negb (bool_decide (last_char host = Some "]"%char))) ValueError;
    let ipv6_address := str_init (str_tail host) in
    _ ← raise_if (negb (str_nonempty ipv6_address) || negb (valid_ipv6 ipv6_address)) ValueError;
    Ok (host, port)
  else
    _ ← raise_if (negb (VALID_HOST_REGEX host)) ValueError;
    Ok (host, port).
End ServerName.

(** ** [DomainSpecificString] and its subclasses *)
Record DomainSpecificString := mkDSS { localpart : string; domain : string }.

Module SIGIL.
Definition UserID : ascii := "@".
Definition RoomAlias : ascii := "#".
Definition RoomIdWithDomain : ascii := "!".
Definition EventID : ascii := "$".
End SIGIL.

Definition from_string (SIGIL : ascii) (s : string) : result DomainSpecificString :=
  match s with
  | EmptyString =>
      Raise (SynapseError 400 "Expected %s string to start with '%s'" INVALID_PARAM)
  | String c s' =>
      if Ascii.eqb c SIGIL then
        match split_once ":" s' with
        | None =>
            Raise (SynapseError 400 "Expected %s of the form '%slocalname:domain'" INVALID_PARAM)
        | Some (l, d) => Ok (mkDSS l d)
        end
      else Raise (SynapseError 400 "Expected %s string to start with '%s'" INVALID_PARAM)
  end.

Definition to_string (SIGIL : ascii) (d : DomainSpecificString) : string :=
  String SIGIL (localpart d +:+ String ":" (domain d)).

Definition is_valid (valid_ipv6 : string → bool) (SIGIL : ascii) (s : string) : bool :=
  is_ok (obj ← from_string SIGIL s;
         parse_and_validate_server_name valid_ipv6 (domain obj)).

(** ** [RoomID] *)
Record RoomID := mkRoomID { room_id_str : string; room_id_with_domain : option DomainSpecificString }.

Definition urlsafe_b64_char (c : ascii) : bool :=
  is_alnum c || Ascii.eqb c "-" || Ascii.eqb c "_".

Definition newline : ascii := ascii_of_N 10.

(** [ROOM_ID_PATTERN_DOMAINLESS.match]: [^...$], and [$] also matches just
    before a newline that ends the string. *)
Definition room_id_pattern_domainless (v : string) : bool :=
  let body := if bool_decide (last_char v = Some newline) then str_init v else v in
  str_forall urlsafe_b64_char body && bool_decide (String.length body = 43).

Definition RoomID_from_string (s : string) : result RoomID :=
  if startswith "!" s then
    if str_mem ":" s then
      d ← from_string SIGIL.RoomIdWithDomain s; Ok (mkRoomID s (Some d))
    else if room_id_pattern_domainless (str_tail s) then Ok (mkRoomID s None)
    else Raise (SynapseError 400 "Expected %s string to be valid urlsafe unpadded base64 '%s'"
                  INVALID_PARAM)
  else Raise (SynapseError 400 "Expected %s string to start with '%s'" INVALID_PARAM).

Definition RoomID_to_string (r : RoomID) : string :=
  match room_id_with_domain r with
  | Some d => to_string SIGIL.RoomIdWithDomain d
  | None => room_id_str r
  end.

Definition RoomID_get_domain (r : RoomID) : option string :=
  domain <$> room_id_with_domain r.

Definition RoomID_is_valid (valid_ipv6 : string → bool) (s : string) : bool :=
  if str_mem ":" s then is_valid valid_ipv6 SIGIL.RoomIdWithDomain s
  else is_ok (RoomID_from_string s).

(** ** Localparts *)
Definition is_ascii_lower (c : ascii) : bool :=
  let n := N_of_ascii c in ((97 <=? n) && (n <=? 122))%N.
Definition is_ascii_upper (c : ascii) : bool :=
  let n := N_of_ascii c in ((65 <=? n) && (n <=? 90))%N.

Definition MXID_LOCALPART_ALLOWED_CHARACTERS (c : ascii) : bool :=
  str_mem c "_-./=+" || is_ascii_lower c || is_digit c.

Definition contains_invalid_mxid_characters (localpart : string) : bool :=
  negb (str_forall MXID_LOCALPART_ALLOWED_CHARACTERS localpart).

Definition hex_digit (n : N) : ascii :=
  if (n <? 10)%N then ascii_of_N (48 + n) else ascii_of_N (87 + n).

(** [b"=%02x"] *)
Definition percent_02x (c : ascii) : string :=
  let n := N_of_ascii c in
  String "=" (String (hex_digit (n / 16)) (String (hex_digit (n mod 16)) EmptyString)).

(** [f1]: [UPPER_CASE_PATTERN] is [[A-Z_]]. *)
Definition escape_upper (c : ascii) : string :=
  if is_ascii_upper c || Ascii.eqb c "_" then String "_" (String (ascii_lower c) EmptyString)
  else String c EmptyString.

(** [f2]: [NON_MXID_CHARACTER_PATTERN] excludes the allowed characters but [=]. *)
Definition escape_non_mxid (c : ascii) : string :=
  if MXID_LOCALPART_ALLOWED_CHARACTERS c && negb (Ascii.eqb c "=") then String c EmptyString
  else percent_02x c.

Fixpoint str_concat_map (f : ascii → string) (s : string) : string :=
  match s with
  | EmptyString => EmptyString
  | String c s' => f c +:+ str_concat_map f s'
  end.

Definition map_username_to_mxid_localpart (username : string) (case_sensitive : bool) : string :=
  let username := if case_sensitive then str_concat_map escape_upper username
                  else str_map ascii_lower username in
  let username := str_concat_map escape_non_mxid username in
  match username with
  | String c s => if Ascii.eqb c "_" then "=5f" +:+ s else username
  | EmptyString => EmptyString
  end.

(** ** Round trips between strings and structured IDs *)
Lemma from_string_iff S s d :
  from_string S s = Ok d ↔ s = to_string S d ∧ str_mem ":" (localpart d) = false.
Proof.
  unfold to_string. destruct s as [|c s]; simpl; [naive_solver|].
  destruct (Ascii.eqb_spec c S) as [->|Hc]; [|naive_solver].
  destruct d as [l dm]; simpl. pose proof (split_once_Some ":" s l dm) as Hsp.
  destruct (split_once ":" s) as [[l' d']|]; naive_solver.
Qed.

(** parsing an ID and printing it are inverse: [from_string] accepts exactly
    the strings [to_string] prints for a colon-free localpart, returns the
    fields they were printed from, and agrees with [get_domain_from_id] and
    [get_localpart_from_id], which the rest of the server uses on the raw
    string. *)
Theorem id_roundtrip (S : ascii) (s : string) (d : DomainSpecificString) (HS : S ≠ ":"%char) :
  (from_string S s = Ok d ↔ s = to_string S d ∧ str_mem ":" (localpart d) = false) ∧
  (from_string S s = Ok d →
   get_domain_from_id s = Ok (domain d) ∧ get_localpart_from_id s = Ok (localpart d)).
Proof.
  split; [apply from_string_iff|]. intros [-> Hl]%from_string_iff.
  unfold get_domain_from_id, get_localpart_from_id, to_string.
  assert (split_once ":" (String S (localpart d +:+ String ":" (domain d))) =
          Some (String S (localpart d), domain d)) as ->.
  { apply split_once_Some. split; [done|]. cbn [str_mem].
    by rewrite Hl, orb_false_r; apply Ascii.eqb_neq. }
  done.
Qed.

Lemma id_roundtrip_witness :
  from_string SIGIL.UserID "@alice:example.com" = Ok (mkDSS "alice" "example.com") ∧
  get_domain_from_id "@alice:example.com" = Ok "example.com".
Proof.
  assert (SIGIL.UserID ≠ ":"%char) as HS by done.
  pose proof (id_roundtrip SIGIL.UserID "@alice:example.com" (mkDSS "alice" "example.com") HS)
    as [[_ H1] H2].
  assert (from_string SIGIL.UserID "@alice:example.com" = Ok (mkDSS "alice" "example.com"))
    as H by (apply H1; done).
  split; [exact H|apply H2, H].
Defined.

(** ** The mapping from usernames to localparts *)
Definition hex_val (c : ascii) : N :=
  let n := N_of_ascii c in if (n <? 58)%N then n - 48 else n - 87.

(** The inverse of the case-sensitive mapping: undo the leading [=5f], then read
    one escape sequence at a time. *)
Fixpoint unescape (s : string) : string :=
  match s with
  | EmptyString => EmptyString
  | String c s1 =>
      if Ascii.eqb c "_" then
        match s1 with
        | String d s2 => String (ascii_upper d) (unescape s2)
        | EmptyString => EmptyString
        end
      else if Ascii.eqb c "=" then
        match s1 with
        | String h (String l s3) => String (ascii_of_N (16 * hex_val h + hex_val l)) (unescape s3)
        | _ => EmptyString
        end
      else String c (unescape s1)
  end.

Definition unmap_localpart (s : string) : string :=
  if startswith "=5f" s then unescape ("_" +:+ String.substring 3 (String.length s - 3) s)
  else unescape s.

Lemma str_concat_map_app f s t :
  str_concat_map f (s +:+ t) = str_concat_map f s +:+ str_concat_map f t.
Proof. induction s as [|c s IH]; simpl; [done|]. by rewrite IH, str_app_assoc. Qed.

(** The two passes together, on one character. *)
Definition escape_both (c : ascii) : string := str_concat_map escape_non_mxid (escape_upper c).

Lemma escape_both_concat s :
  str_concat_map escape_non_mxid (str_concat_map escape_upper s) = str_concat_map escape_both s.
Proof.
  induction s as [|c s IH]; simpl; [done|]. by rewrite str_concat_map_app, IH.
Qed.

Lemma unescape_escape_both c s : unescape (escape_both c +:+ s) = String c (unescape s).
Proof. by destruct c as [[] [] [] [] [] [] [] []]. Qed.

Lemma unescape_concat s : unescape (str_concat_map escape_both s) = s.
Proof. induction s as [|c s IH]; simpl; [done|]. by rewrite unescape_escape_both, IH. Qed.

Lemma escape_both_not_5f c s : startswith "=5f" (escape_both c +:+ s) = false.
Proof. by destruct c as [[] [] [] [] [] [] [] []]. Qed.

Lemma concat_not_5f s : startswith "=5f" (str_concat_map escape_both s) = false.
Proof. destruct s; [done|]. apply escape_both_not_5f. Qed.

Lemma substring_all s : String.substring 0 (String.length s) s = s.
Proof. induction s as [|c s IH]; simpl; [done|]. by rewrite IH. Qed.

Lemma unmap_map s : unmap_localpart (map_username_to_mxid_localpart s true) = s.
Proof.
  unfold map_username_to_mxid_localpart, unmap_localpart. cbn [negb].
  rewrite escape_both_concat. pose proof (unescape_concat s) as Hs.
  pose proof (concat_not_5f s) as H5.
  destruct (str_concat_map escape_both s) as [|c t] eqn:E; [done|].
  destruct (Ascii.eqb_spec c "_") as [->|Hc].
  - cbn -[unescape]. by rewrite Nat.sub_0_r, substring_all.
  - by rewrite H5.
Qed.

Lemma escape_non_mxid_allowed s :
  str_forall MXID_LOCALPART_ALLOWED_CHARACTERS (str_concat_map escape_non_mxid s) = true.
Proof.
  induction s as [|c s IH]; [done|]. cbn [str_concat_map]. rewrite str_forall_app, IH, andb_true_r.
  by destruct c as [[] [] [] [] [] [] [] []].
Qed.

(** [map_username_to_mxid_localpart] always returns a string of allowed
    localpart characters that does not start with an underscore, and in its
    case-sensitive mode it has a left inverse, so two different usernames are
    never mapped to the same localpart. *)
Theorem map_username_localpart_ok (username : string) (case_sensitive : bool) :
  contains_invalid_mxid_characters (map_username_to_mxid_localpart username case_sensitive) = false ∧
  startswith "_" (map_username_to_mxid_localpart username case_sensitive) = false ∧
  (case_sensitive = true →
   unmap_localpart (map_username_to_mxid_localpart username case_sensitive) = username).
Proof.
  split_and!; [| |intros ->; apply unmap_map];
    unfold contains_invalid_mxid_characters, map_username_to_mxid_localpart; cbn zeta;
    set (u := if case_sensitive then _ else _);
    pose proof (escape_non_mxid_allowed u) as Ha;
    destruct (str_concat_map escape_non_mxid u) as [|c t]; try done.
  - destruct (Ascii.eqb_spec c "_"); [|by rewrite Ha].
    cbn [str_forall] in Ha. apply andb_true_iff in Ha as [_ Ha].
    by rewrite str_forall_app, Ha.
  - destruct (Ascii.eqb_spec c "_"); [done|]. cbn [startswith].
    destruct (Ascii.eqb_spec "_" c); [congruence|done].
Qed.

Lemma map_username_localpart_ok_witness :
  map_username_to_mxid_localpart "Foo_Bar=1" true = "=5ffoo___bar=3d1" ∧
  unmap_localpart (map_username_to_mxid_localpart "Foo_Bar=1" true) = "Foo_Bar=1".
Proof.
  split; [reflexivity|]. apply (map_username_localpart_ok "Foo_Bar=1" true). reflexivity.
Defined.
