(* ===== verification/Events.v ===== *)
(** Events: [textrp_briij/events/__init__.py] and the constants of
    [textrp_briij/api/constants.py] the auth rules use. *)
From S2P Require Import Prelude RoomVersions.
Import EventFormatVersions.

Module EventTypes.
Definition Member : string := "m.room.member".
Definition Create : string := "m.room.create".
Definition JoinRules : string := "m.room.join_rules".
Definition PowerLevels : string := "m.room.power_levels".
Definition Aliases : string := "m.room.aliases".
Definition Redaction : string := "m.room.redaction".
Definition ThirdPartyInvite : string := "m.room.third_party_invite".
End EventTypes.

Module Membership.
Definition INVITE : string := "invite".
Definition JOIN : string := "join".
Definition KNOCK : string := "knock".
Definition LEAVE : string := "leave".
Definition BAN : string := "ban".
End Membership.

Module JoinRules.
Definition PUBLIC : string := "public".
Definition KNOCK : string := "knock".
Definition INVITE : string := "invite".
Definition RESTRICTED : string := "restricted".
Definition KNOCK_RESTRICTED : string := "knock_restricted".
End JoinRules.

Module EventContentFields.
Definition FEDERATE : string := "m.federate".
Definition ROOM_CREATOR : string := "creator".
Definition ADDITIONAL_CREATORS : string := "additional_creators".
Definition AUTHORISING_USER : string := "join_authorised_via_users_server".
End EventContentFields.

Definition MAX_PDU_SIZE : Z := 65536.
Definition CANONICALJSON_MAX_INT : Z := 2 ^ 53 - 1.
Definition CANONICALJSON_MIN_INT : Z := - CANONICALJSON_MAX_INT.
Definition CREATOR_POWER_LEVEL : Z := 2 ^ 53.
(** [StickyEvent.MAX_DURATION], in milliseconds. *)
Definition STICKY_MAX_DURATION_MS : Z := 3600000.

(** ** The event object

    The fields of [EventBase] and of its [_dict] that the modelled code reads.
    [ev_ref_hash] is the (base64) reference hash of the event, which the code
    computes with SHA-256 from the event's canonical JSON; [ev_prev_events] and
    [ev_auth_events] are the IDs listed in [_dict]; [ev_other] holds the
    remaining top-level keys. *)
Record event := mkEvent {
  ev_room_version : RoomVersion;
  ev_type : string;
  ev_sender : string;
  ev_state_key : option string;
  ev_content : pydict;
  ev_dict_room_id : option string;
  ev_v1_event_id : string;
  ev_ref_hash : string;
  ev_prev_events : list string;
  ev_auth_events : list string;
  ev_origin_server_ts : Z;
  ev_signatures : list (string * pydict);
  ev_rejected_reason : option string;
  ev_recheck_redaction : bool;
  ev_other : pydict
}.

Definition format_version (e : event) : EventFormatVersions.t := event_format (ev_room_version e).

(** [event_id]: stored in the event in the first format, a hash in the others. *)
Definition event_id (e : event) : string :=
  match format_version e with
  | ROOM_V1_V2 => ev_v1_event_id e
  | _ => "$" +:+ ev_ref_hash e
  end.

Definition is_create_event (e : event) : bool :=
  String.eqb (ev_type e) EventTypes.Create && bool_decide (ev_state_key e = Some "").

(** [room_id]: the create event of a hash-based room names the room. *)
Definition room_id (e : event) : result string :=
  match format_version e with
  | ROOM_V11_HYDRA_PLUS =>
      if is_create_event e then Ok ("!" +:+ ev_ref_hash e)
      else of_option (ev_dict_room_id e) KeyError
  | _ => of_option (ev_dict_room_id e) KeyError
  end.

Definition prev_event_ids (e : event) : list string := ev_prev_events e.

(** [auth_event_ids]: hash-based rooms leave the create event out on the wire. *)
Definition auth_event_ids (e : event) : result (list string) :=
  match format_version e with
  | ROOM_V11_HYDRA_PLUS =>
      rid ← room_id e;
      let create_event_id := "$" +:+ str_tail rid in
      _ ← raise_if (bool_decide (create_event_id ∈ ev_auth_events e)) AssertionError;
      if is_create_event e then Ok (ev_auth_events e)
      else Ok (ev_auth_events e ++ [create_event_id])
  | _ => Ok (ev_auth_events e)
  end.

Definition membership (e : event) : result json := dict_index (ev_content e) "membership".

Definition redacts (e : event) : json :=
  if updated_redaction_rules (ev_room_version e)
  then dict_get_or (ev_content e) "redacts" JNull
  else dict_get_or (ev_other e) "redacts" JNull.

Definition get_state_key (e : event) : option string := ev_state_key e.
Definition is_state (e : event) : bool := bool_decide (is_Some (get_state_key e)).

(** [event.state_key]: a [DictProperty]. *)
Definition state_key (e : event) : result string := of_option (ev_state_key e) AttributeError.

(** [sticky_duration], in milliseconds. [Duration] raises [OverflowError] past
    999999999 days. *)
Definition sticky_duration (e : event) : result (option Z) :=
  match dict_get (ev_other e) "msc4354_sticky" with
  | Some (JDict sticky_obj) =>
      match dict_get_or sticky_obj "duration_ms" JNull with
      | JInt ms =>
          if (0 <=? ms)%Z then
            _ ← raise_if (999999999 <? ms / 86400000)%Z OverflowError;
            Ok (Some (Z.min ms STICKY_MAX_DURATION_MS))
          else Ok None
      | _ => Ok None
      end
  | _ => Ok None
  end.

(** ** Relations *)
Record EventRelation := mkRelation {
  parent_id : string;
  rel_type : string;
  aggregation_key : option string
}.

Definition relation_from_event (e : event) : option EventRelation :=
  match dict_get_or (ev_content e) "m.relates_to" JNull with
  | JDict (_ :: _ as relation) =>
      match dict_get_or relation "rel_type" JNull with
      | JStr rt =>
          match dict_get_or relation "event_id" JNull with
          | JStr parent =>
              let key := if String.eqb rt "m.annotation" then
                           match dict_get_or relation "key" JNull with
                           | JStr k => Some k
                           | _ => None
                           end
                         else None in
              Some (mkRelation parent rt key)
          | _ => None
          end
      | _ => None
      end
  | _ => None
  end.

(** ** Creators *)
Definition is_creator (create : event) (user_id : string) : result bool :=
  _ ← raise_if (negb (String.eqb (ev_type create) EventTypes.Create)) AssertionError;
  if String.eqb (ev_sender create) user_id then Ok true
  else if msc4289_creator_power_enabled (ev_room_version create) then
    l ← py_list (dict_get_or (ev_content create) EventContentFields.ADDITIONAL_CREATORS (JList []));
    s ← py_set l;
    Ok (existsb (λ j, json_is_str j user_id) s)
  else Ok false.
