(* ===== verification/Redaction.v ===== *)
(** Redaction: [prune_event_dict] and [prune_event] of
    [textrp_briij/events/utils.py], and the reference hash of
    [textrp_briij/crypto/event_signing.py].

    Redacting an event removes every field that is not protected.  An event's ID
    is a hash of its redacted form, and events that arrive with a wrong content
    hash are used in redacted form, so both the hash and the authorization rules
    depend on what redaction keeps. *)
From S2P Require Import Prelude RoomVersions Events.

Definition RoomHistoryVisibility : string := "m.room.history_visibility".

(** [d[k] = v]: in place when the key is there, at the end otherwise. *)
Fixpoint dict_set (d : pydict) (k : string) (v : json) : pydict :=
  match d with
  | [] => [(k, v)]
  | (k', v') :: d' => if String.eqb k k' then (k', v) :: d' else (k', v') :: dict_set d' k v
  end.

(** [new_content[k] = v] *)
Definition set_item (new_content : json) (k : string) (v : json) : result json :=
  match new_content with
  | JDict d => Ok (JDict (dict_set d k v))
  | _ => Raise TypeError
  end.

(** [add_fields]; [content] is [event_dict["content"]], which is evaluated at
    each use. *)
Definition add_field (content : result json) (new_content : json) (field : string) : result json :=
  c ← content;
  present ← py_in (JStr field) c;
  if (present : bool) then v ← py_getitem c (JStr field); set_item new_content field v
  else Ok new_content.

Definition add_fields (content : result json) (fields : list string) (new_content : json)
    : result json := fold_res (add_field content) fields new_content.

Definition allowed_keys (room_version : RoomVersion) : list string :=
  ["event_id"; "sender"; "room_id"; "hashes"; "signatures"; "content"; "type"; "state_key";
   "depth"; "prev_events"; "auth_events"; "origin_server_ts"] ++
  (if updated_redaction_rules room_version then [] else ["prev_state"; "membership"; "origin"]).

(** [third_party_invite.signed] of a membership event. *)
Definition keep_third_party_invite (content : result json) (new_content : json) : result json :=
  c ← content;
  d ← mapping_of c;
  match dict_get_or d "third_party_invite" JNull with
  | JDict third_party_invite =>
      set_item new_content "third_party_invite"
        (JDict match dict_get third_party_invite "signed" with
               | Some signed => [("signed", signed)]
               | None => []
               end)
  | _ => Ok new_content
  end.

(** The content that is kept by the type of the event. *)
Definition pruned_fields (room_version : RoomVersion) (event_type : json) (content : result json)
    : result json :=
  let is_type t := json_is_str event_type t in
  let new_content := JDict [] in
  if is_type EventTypes.Member then
    nc ← add_fields content ["membership"] new_content;
    nc ← (if restricted_join_rule_fix room_version
          then add_fields content [EventContentFields.AUTHORISING_USER] nc else Ok nc);
    if updated_redaction_rules room_version then keep_third_party_invite content nc else Ok nc
  else if is_type EventTypes.Create then
    nc ← (if updated_redaction_rules room_version then content else Ok new_content);
    if implicit_room_creator room_version then Ok nc else add_fields content ["creator"] nc
  else if is_type EventTypes.JoinRules then
    nc ← add_fields content ["join_rule"] new_content;
    if restricted_join_rule room_version then add_fields content ["allow"] nc else Ok nc
  else if is_type EventTypes.PowerLevels then
    nc ← add_fields content ["users"; "users_default"; "events"; "events_default";
                             "state_default"; "ban"; "kick"; "redact"] new_content;
    if updated_redaction_rules room_version then add_fields content ["invite"] nc else Ok nc
  else if is_type EventTypes.Aliases && special_case_aliases_auth room_version then
    add_fields content ["aliases"] new_content
  else if is_type RoomHistoryVisibility then add_fields content ["history_visibility"] new_content
  else if is_type EventTypes.Redaction && updated_redaction_rules room_version then
    add_fields content ["redacts"] new_content
  else Ok new_content.

(** [rel_type] and [event_id] of [m.relates_to]. *)
Definition keep_relation (content : result json) (new_content : json) : result json :=
  c ← content;
  d ← mapping_of c;
  match dict_get_or d "m.relates_to" JNull with
  | JDict relates_to =>
      match
        omap (λ field, (field,.) <$> dict_get relates_to field) ["rel_type"; "event_id"]
      with
      | [] => Ok new_content
      | new_relates_to => set_item new_content "m.relates_to" (JDict new_relates_to)
      end
  | _ => Ok new_content
  end.

Definition prune_content (room_version : RoomVersion) (event_type : json) (content : result json)
    : result json :=
  nc ← pruned_fields room_version event_type content;
  if msc3389_relation_redactions room_version then keep_relation content nc else Ok nc.

(** [age_ts] and [replaces_state] of the unsigned section. *)
Definition prune_unsigned (event_unsigned : json) : result json :=
  add_fields (Ok event_unsigned) ["age_ts"; "replaces_state"] (JDict []).

Definition is_allowed (room_version : RoomVersion) (event_type : json) (k : string) : bool :=
  bool_decide (k ∈ allowed_keys room_version) &&
  negb (json_is_str event_type EventTypes.Create && msc4291_room_ids_as_hashes room_version &&
        String.eqb k "room_id").

Definition prune_event_dict (room_version : RoomVersion) (event_dict : pydict) : result pydict :=
  event_type ← dict_index event_dict "type";
  new_content ← prune_content room_version event_type (dict_index event_dict "content");
  let allowed_fields :=
    filter (λ kv, is_allowed room_version event_type kv.1 = true) event_dict in
  unsigned ← prune_unsigned (dict_get_or event_dict "unsigned" (JDict []));
  Ok (dict_set (dict_set allowed_fields "content" new_content) "unsigned" unsigned).

(** [compute_event_reference_hash], with the hash of the canonical JSON of a
    dict as a parameter. *)
Definition dict_pop (d : pydict) (k : string) : pydict := filter (λ kv, kv.1 ≠ k) d.

Definition compute_event_reference_hash (hash_json : pydict → string) (room_version : RoomVersion)
    (event_dict : pydict) : result string :=
  pruned ← prune_event_dict room_version event_dict;
  Ok (hash_json (dict_pop (dict_pop (dict_pop pruned "signatures") "age_ts") "unsigned")).

(** [prune_event], on the event object.  The new object has no
    [rejected_reason]. *)
Definition prune_event (e : event) : result event :=
  new_content ← prune_content (ev_room_version e) (JStr (ev_type e)) (Ok (JDict (ev_content e)));
  content ← mapping_of new_content;
  unsigned ← prune_unsigned (dict_get_or (ev_other e) "unsigned" (JDict []));
  let allowed :=
    filter (λ kv, is_allowed (ev_room_version e) (JStr (ev_type e)) kv.1 = true) (ev_other e) in
  Ok (mkEvent (ev_room_version e) (ev_type e) (ev_sender e) (ev_state_key e) content
        (if is_allowed (ev_room_version e) (JStr (ev_type e)) "room_id"
         then ev_dict_room_id e else None)
        (ev_v1_event_id e) (ev_ref_hash e) (ev_prev_events e) (ev_auth_events e)
        (ev_origin_server_ts e) (ev_signatures e) None (ev_recheck_redaction e)
        (dict_set allowed "unsigned" unsigned)).
