(* ===== verification/RedactionProps.v ===== *)
(** Redaction: what it keeps, that it is idempotent, and that it does not touch
    what the authorization rules read. *)
From S2P Require Import Prelude RoomVersions Events Redaction.

(** ** Dictionaries *)
Lemma dict_get_set (d : pydict) k v k' :
  dict_get (dict_set d k v) k' = if String.eqb k' k then Some v else dict_get d k'.
Proof.
  induction d as [|[x y] d IH]; simpl.
  - by destruct (String.eqb k' k).
  - destruct (String.eqb_spec k x) as [<-|Hne]; simpl.
    + by destruct (String.eqb k' k).
    + rewrite IH. destruct (String.eqb_spec k' x) as [->|]; [|done].
      by destruct (String.eqb_spec x k); [congruence|].
Qed.

Lemma dict_set_same (d : pydict) k v : dict_get d k = Some v → dict_set d k v = d.
Proof.
  induction d as [|[x y] d IH]; simpl; [done|].
  destruct (String.eqb_spec k x) as [<-|]; [by intros [= ->]|]. intros ?. by rewrite IH.
Qed.

Lemma dict_set_twice (d : pydict) k v : dict_set (dict_set d k v) k v = dict_set d k v.
Proof. apply dict_set_same. by rewrite dict_get_set, String.eqb_refl. Qed.

Lemma dict_set_new (d : pydict) k v : dict_get d k = None → dict_set d k v = d ++ [(k, v)].
Proof.
  induction d as [|[x y] d IH]; simpl; [done|].
  destruct (String.eqb k x); [done|]. intros ?. by rewrite IH.
Qed.

Lemma dict_get_app {V} (d1 d2 : list (string * V)) k :
  dict_get (d1 ++ d2) k = match dict_get d1 k with Some v => Some v | None => dict_get d2 k end.
Proof. induction d1 as [|[x y] d1 IH]; simpl; [done|]. by destruct (String.eqb k x). Qed.

Lemma dict_get_filter {V} (P : string → bool) (d : list (string * V)) k :
  dict_get (filter (λ kv, P kv.1 = true) d) k = if P k then dict_get d k else None.
Proof.
  induction d as [|[x y] d IH]; simpl; [by destruct (P k)|].
  rewrite filter_cons. simpl. case_decide as HP; simpl; rewrite IH;
    destruct (String.eqb_spec k x) as [->|]; try done.
  - by rewrite HP.
  - by destruct (P x).
Qed.

Lemma filter_dict_set (P : string → bool) (d : pydict) k v :
  P k = true →
  filter (λ kv, P kv.1 = true) (dict_set d k v) = dict_set (filter (λ kv, P kv.1 = true) d) k v.
Proof.
  intros Hk. induction d as [|[x y] d IH]; simpl.
  - by rewrite filter_cons_True.
  - destruct (String.eqb_spec k x) as [<-|Hne].
    + rewrite !filter_cons_True by done. simpl. by rewrite String.eqb_refl.
    + destruct (P x) eqn:HP.
      * rewrite !filter_cons_True by done. simpl. rewrite IH.
        by destruct (String.eqb_spec k x).
      * rewrite !filter_cons_False by (simpl; congruence). done.
Qed.

Lemma filter_filter_same (P : string → bool) (d : pydict) :
  filter (λ kv, P kv.1 = true) (filter (λ kv, P kv.1 = true) d) =
  filter (λ kv, P kv.1 = true) d.
Proof.
  induction d as [|[x y] d IH]; [done|]. destruct (P x) eqn:HP.
  - rewrite !filter_cons_True by done. by rewrite IH.
  - rewrite !filter_cons_False by (simpl; congruence). done.
Qed.

(** ** The fields that are copied *)
Definition select (fields : list string) (c : pydict) : pydict :=
  omap (λ f, (f,.) <$> dict_get c f) fields.

Lemma select_cons f fields c :
  select (f :: fields) c =
  match dict_get c f with Some v => (f, v) :: select fields c | None => select fields c end.
Proof. unfold select. simpl. by destruct (dict_get c f). Qed.

Lemma dict_get_select fields c k :
  dict_get (select fields c) k = if bool_decide (k ∈ fields) then dict_get c k else None.
Proof.
  induction fields as [|f fields IH]; [done|]. rewrite select_cons.
  destruct (String.eqb_spec k f) as [->|Hne].
  - rewrite bool_decide_true by set_solver.
    destruct (dict_get c f) eqn:E; simpl; [by rewrite String.eqb_refl|].
    rewrite IH. by case_bool_decide; rewrite ?E.
  - rewrite (bool_decide_ext (k ∈ f :: fields) (k ∈ fields)) by set_solver.
    rewrite <- IH. destruct (dict_get c f); simpl; [|done].
    by destruct (String.eqb_spec k f).
Qed.

Lemma select_ext fields c c' :
  (∀ f, f ∈ fields → dict_get c f = dict_get c' f) → select fields c = select fields c'.
Proof.
  intros Hf. induction fields as [|f fields IH]; [done|]. rewrite !select_cons.
  rewrite (Hf f), IH by set_solver. done.
Qed.

Lemma select_select fields c : select fields (select fields c) = select fields c.
Proof. apply select_ext. intros f Hf. by rewrite dict_get_select, bool_decide_true. Qed.

Lemma select_app f1 f2 c : select (f1 ++ f2) c = select f1 c ++ select f2 c.
Proof.
  induction f1 as [|f f1 IH]; [done|]. simpl app. rewrite !select_cons, IH.
  by destruct (dict_get c f).
Qed.

Lemma add_field_dict (c nc : pydict) f :
  add_field (Ok (JDict c)) (JDict nc) f =
  Ok (JDict match dict_get c f with Some v => dict_set nc f v | None => nc end).
Proof.
  unfold add_field. simpl. unfold dict_mem, dict_index. by destruct (dict_get c f).
Qed.

(** [add_fields] appends the fields that are there. *)
Lemma add_fields_select (c : pydict) fields nc :
  NoDup fields → (∀ f, f ∈ fields → dict_get nc f = None) →
  add_fields (Ok (JDict c)) fields (JDict nc) = Ok (JDict (nc ++ select fields c)).
Proof.
  unfold add_fields. revert nc. induction fields as [|f fields IH]; intros nc Hnd Hnc.
  - simpl. by rewrite app_nil_r.
  - apply NoDup_cons in Hnd as [Hf Hnd]. rewrite select_cons. cbn [fold_res].
    rewrite add_field_dict. cbn [mbind result_bind].
    destruct (dict_get c f) as [v|] eqn:E.
    + rewrite dict_set_new by (apply Hnc; set_solver).
      rewrite IH; [by rewrite <- app_assoc|done|].
      intros f' Hf'. rewrite dict_get_app, Hnc by set_solver. simpl.
      destruct (String.eqb_spec f' f); [by subst|done].
    + apply IH; [done|]. intros f' Hf'. apply Hnc. set_solver.
Qed.

(** ** What is kept of the content *)
Section Content.
Context (rv : RoomVersion) (ty : json).
#[local] Abbreviation is_type t := (json_is_str ty t).

Definition kept_fields : list string :=
  if is_type EventTypes.Member then
    "membership" :: (if restricted_join_rule_fix rv then [EventContentFields.AUTHORISING_USER] else [])
  else if is_type EventTypes.Create then
    if implicit_room_creator rv then [] else ["creator"]
  else if is_type EventTypes.JoinRules then
    "join_rule" :: (if restricted_join_rule rv then ["allow"] else [])
  else if is_type EventTypes.PowerLevels then
    ["users"; "users_default"; "events"; "events_default"; "state_default"; "ban"; "kick"; "redact"]
    ++ (if updated_redaction_rules rv then ["invite"] else [])
  else if is_type EventTypes.Aliases && special_case_aliases_auth rv then ["aliases"]
  else if is_type RoomHistoryVisibility then ["history_visibility"]
  else if is_type EventTypes.Redaction && updated_redaction_rules rv then ["redacts"]
  else [].

Definition keeps_all : bool := is_type EventTypes.Create && updated_redaction_rules rv.
Definition keeps_invite : bool := is_type EventTypes.Member && updated_redaction_rules rv.

Definition kept_invite (c : pydict) : pydict :=
  match dict_get_or c "third_party_invite" JNull with
  | JDict third_party_invite =>
      [("third_party_invite", JDict (select ["signed"] third_party_invite))]
  | _ => []
  end.

(** The specification: a create event keeps its content under the updated
    rules, any other event the fields of its type. *)
Definition kept_content (c : pydict) : pydict :=
  if keeps_all then c
  else select kept_fields c ++ (if keeps_invite then kept_invite c else []).

Definition kept_relation (c nc : pydict) : pydict :=
  match dict_get_or c "m.relates_to" JNull with
  | JDict r =>
      match select ["rel_type"; "event_id"] r with
      | [] => nc
      | r' => dict_set nc "m.relates_to" (JDict r')
      end
  | _ => nc
  end.

Definition pruned (c : pydict) : pydict :=
  if msc3389_relation_redactions rv then kept_relation c (kept_content c) else kept_content c.

Lemma kept_fields_nodup : NoDup kept_fields.
Proof.
  unfold kept_fields. repeat case_match; simpl; apply (bool_decide_unpack _); by vm_compute.
Qed.

Lemma kept_fields_other : "m.relates_to" ∉ kept_fields ∧ "third_party_invite" ∉ kept_fields.
Proof.
  unfold kept_fields. repeat case_match; simpl; split; apply (bool_decide_unpack _); by vm_compute.
Qed.

Lemma is_type_excl t t' : is_type t = true → t ≠ t' → is_type t' = false.
Proof.
  destruct ty; simpl; try done. intros ->%String.eqb_eq ?. by destruct (String.eqb_spec t t').
Qed.

Lemma add_fields_empty (c : pydict) fields :
  NoDup fields → add_fields (Ok (JDict c)) fields (JDict []) = Ok (JDict (select fields c)).
Proof. intros. by rewrite add_fields_select. Qed.

(** A second call, on fields the first did not have. *)
Lemma add_fields_more (c : pydict) f1 f2 :
  NoDup (f1 ++ f2) →
  add_fields (Ok (JDict c)) f2 (JDict (select f1 c)) = Ok (JDict (select (f1 ++ f2) c)).
Proof.
  intros (_ & Hdisj & Hnd)%NoDup_app. rewrite add_fields_select, select_app; [done|done|].
  intros f Hf. rewrite dict_get_select, bool_decide_false; [done|]. intros ?. by eapply Hdisj.
Qed.

Lemma keep_third_party_invite_dict (c nc : pydict) :
  dict_get nc "third_party_invite" = None →
  keep_third_party_invite (Ok (JDict c)) (JDict nc) = Ok (JDict (nc ++ kept_invite c)).
Proof.
  intros Hnc. unfold keep_third_party_invite, kept_invite. simpl.
  destruct (dict_get_or c "third_party_invite" JNull) as [| | | | | |t]; rewrite ?app_nil_r; try done.
  simpl. rewrite dict_set_new by done. do 4 f_equal. unfold select. simpl.
  by destruct (dict_get t "signed").
Qed.

Ltac nodup := apply (bool_decide_unpack _); by vm_compute.

Lemma pruned_fields_dict (c : pydict) :
  pruned_fields rv ty (Ok (JDict c)) = Ok (JDict (kept_content c)).
Proof.
  unfold pruned_fields, kept_content, keeps_all, keeps_invite, kept_fields.
  destruct (is_type EventTypes.Member) eqn:Hm.
  { rewrite (is_type_excl _ _ Hm) by done. simpl andb. cbn match.
    rewrite add_fields_empty by nodup. cbn [mbind result_bind].
    destruct (restricted_join_rule_fix rv).
    - rewrite (add_fields_more c ["membership"] [EventContentFields.AUTHORISING_USER]) by nodup.
      cbn [mbind result_bind app]. destruct (updated_redaction_rules rv); [|by rewrite app_nil_r].
      apply keep_third_party_invite_dict. rewrite dict_get_select. by vm_compute.
    - cbn [mbind result_bind]. destruct (updated_redaction_rules rv); [|by rewrite app_nil_r].
      apply keep_third_party_invite_dict. rewrite dict_get_select. by vm_compute. }
  simpl andb. rewrite app_nil_r.
  destruct (is_type EventTypes.Create).
  { destruct (updated_redaction_rules rv), (implicit_room_creator rv); cbn [mbind result_bind andb];
      try done; [|by rewrite add_fields_empty by nodup].
    unfold add_fields. cbn [fold_res]. rewrite add_field_dict. cbn [mbind result_bind].
    destruct (dict_get c "creator") eqn:E; [by rewrite dict_set_same|done]. }
  simpl andb. cbn match.
  destruct (is_type EventTypes.JoinRules).
  { rewrite add_fields_empty by nodup. cbn [mbind result_bind].
    destruct (restricted_join_rule rv); [|done].
    by rewrite (add_fields_more c ["join_rule"] ["allow"]) by nodup. }
  destruct (is_type EventTypes.PowerLevels).
  { rewrite add_fields_empty by nodup. cbn [mbind result_bind].
    destruct (updated_redaction_rules rv); [|by rewrite app_nil_r].
    by rewrite add_fields_more by nodup. }
  destruct (_ && _); [by rewrite add_fields_empty by nodup|].
  destruct (is_type RoomHistoryVisibility); [by rewrite add_fields_empty by nodup|].
  destruct (_ && _); [by rewrite add_fields_empty by nodup|]. done.
Qed.

Lemma prune_content_dict (c : pydict) :
  prune_content rv ty (Ok (JDict c)) = Ok (JDict (pruned c)).
Proof.
  unfold prune_content, pruned. rewrite pruned_fields_dict. cbn [mbind result_bind].
  destruct (msc3389_relation_redactions rv); [|done].
  unfold keep_relation, kept_relation. simpl.
  destruct (dict_get_or c "m.relates_to" JNull) as [| | | | | |r]; try done.
  unfold select. by case_match.
Qed.

(** ** Idempotence *)
Lemma kept_invite_idem c c' :
  dict_get c' "third_party_invite" = dict_get (kept_invite c) "third_party_invite" →
  kept_invite c' = kept_invite c.
Proof.
  intros Hc'. unfold kept_invite at 1, dict_get_or. rewrite Hc'. unfold kept_invite.
  destruct (dict_get_or c "third_party_invite" JNull) as [| | | | | |t]; try done.
  assert (Hg : ∀ v : json, dict_get [("third_party_invite", v)] "third_party_invite" = Some v) by done.
  rewrite Hg. cbn [default from_option id]. by rewrite select_select.
Qed.

(** The lookups redaction itself does, on content that was redacted. *)
Lemma kept_content_get c k :
  keeps_all = false → k ∈ kept_fields → dict_get (kept_content c) k = dict_get c k.
Proof.
  intros Hall Hk. unfold kept_content. rewrite Hall, dict_get_app, dict_get_select.
  rewrite bool_decide_true by done. destruct (dict_get c k); [done|].
  destruct keeps_invite; [|done]. unfold kept_invite.
  destruct (dict_get_or c "third_party_invite" JNull); try done. simpl.
  destruct (String.eqb_spec k "third_party_invite") as [->|]; [|done].
  by destruct (proj2 kept_fields_other).
Qed.

Lemma kept_content_get_invite c :
  keeps_all = false →
  dict_get (kept_content c) "third_party_invite" =
  if keeps_invite then dict_get (kept_invite c) "third_party_invite" else None.
Proof.
  intros Hall. unfold kept_content. rewrite Hall, dict_get_app, dict_get_select.
  rewrite bool_decide_false by apply kept_fields_other. by destruct keeps_invite.
Qed.

Lemma kept_content_idem c c' :
  keeps_all = false →
  (∀ k, k ≠ "m.relates_to" → dict_get c' k = dict_get (kept_content c) k) →
  kept_content c' = kept_content c.
Proof.
  intros Hall Hc'. unfold kept_content. rewrite Hall. f_equal.
  - apply select_ext. intros k Hk. rewrite Hc', kept_content_get; [done|done|done|].
    intros ->. by destruct (proj1 kept_fields_other).
  - destruct keeps_invite eqn:Hi; [|done]. apply kept_invite_idem.
    by rewrite Hc', kept_content_get_invite, Hi.
Qed.

Lemma kept_content_no_relation c :
  keeps_all = false → dict_get (kept_content c) "m.relates_to" = None.
Proof.
  intros Hall. unfold kept_content. rewrite Hall, dict_get_app, dict_get_select.
  rewrite bool_decide_false by apply kept_fields_other.
  destruct keeps_invite; [|done]. unfold kept_invite. by case_match.
Qed.

Lemma kept_relation_get c nc k :
  k ≠ "m.relates_to" → dict_get (kept_relation c nc) k = dict_get nc k.
Proof.
  intros Hk. unfold kept_relation. repeat case_match; try done.
  rewrite dict_get_set. by destruct (String.eqb_spec k "m.relates_to").
Qed.

(** The relation is kept as it is the second time. *)
Lemma kept_relation_absent c nc :
  dict_get nc "m.relates_to" = None →
  kept_relation (kept_relation c nc) nc = kept_relation c nc.
Proof.
  intros Hn.
  assert (Hnc : kept_relation nc nc = nc) by (unfold kept_relation, dict_get_or; by rewrite Hn).
  destruct (dict_get_or c "m.relates_to" JNull) as [| | | | | |r] eqn:Hr;
    try (assert (Hc : kept_relation c nc = nc) by (unfold kept_relation; by rewrite Hr);
         by rewrite Hc).
  destruct (select ["rel_type"; "event_id"] r) as [|x xs] eqn:Hs.
  - assert (Hc : kept_relation c nc = nc) by (unfold kept_relation; by rewrite Hr, Hs).
    by rewrite Hc.
  - assert (Hc : kept_relation c nc = dict_set nc "m.relates_to" (JDict (x :: xs)))
      by (unfold kept_relation; by rewrite Hr, Hs).
    rewrite Hc. unfold kept_relation, dict_get_or. rewrite dict_get_set, String.eqb_refl.
    cbn [default from_option id]. rewrite <- Hs, select_select, Hs. done.
Qed.

Lemma kept_relation_own c : kept_relation (kept_relation c c) (kept_relation c c) = kept_relation c c.
Proof.
  destruct (dict_get_or c "m.relates_to" JNull) as [| | | | | |r] eqn:Hr;
    try (assert (Hc : kept_relation c c = c) by (unfold kept_relation; by rewrite Hr);
         by rewrite !Hc).
  destruct (select ["rel_type"; "event_id"] r) as [|x xs] eqn:Hs.
  - assert (Hc : kept_relation c c = c) by (unfold kept_relation; by rewrite Hr, Hs).
    by rewrite !Hc.
  - assert (Hc : kept_relation c c = dict_set c "m.relates_to" (JDict (x :: xs)))
      by (unfold kept_relation; by rewrite Hr, Hs).
    rewrite Hc. unfold kept_relation, dict_get_or. rewrite dict_get_set, String.eqb_refl.
    cbn [default from_option id]. rewrite <- Hs, select_select, Hs. apply dict_set_twice.
Qed.

Lemma pruned_idem c : pruned (pruned c) = pruned c.
Proof.
  destruct (keeps_all) eqn:Hall.
  - assert (Hk : ∀ d, kept_content d = d) by (intros d; unfold kept_content; by rewrite Hall).
    unfold pruned. rewrite !Hk. destruct (msc3389_relation_redactions rv); [|done].
    apply kept_relation_own.
  - unfold pruned. destruct (msc3389_relation_redactions rv).
    + rewrite (kept_content_idem c (kept_relation _ _)) by (auto using kept_relation_get).
      by apply kept_relation_absent, kept_content_no_relation.
    + by apply kept_content_idem.
Qed.
End Content.

(** ** The whole event *)
Lemma allowed_basic rv ty :
  is_allowed rv ty "content" = true ∧ is_allowed rv ty "type" = true ∧
  is_allowed rv ty "unsigned" = false.
Proof.
  unfold is_allowed, allowed_keys.
  destruct (updated_redaction_rules rv), (json_is_str ty EventTypes.Create),
    (msc4291_room_ids_as_hashes rv); by vm_compute.
Qed.

Lemma prune_unsigned_dict u :
  prune_unsigned (JDict u) = Ok (JDict (select ["age_ts"; "replaces_state"] u)).
Proof. apply add_fields_empty. apply (bool_decide_unpack _). by vm_compute. Qed.

(** What [prune_event_dict] makes of an event with the fields every event has. *)
Lemma prune_event_dict_ok rv d ty c u :
  dict_get d "type" = Some ty → dict_get d "content" = Some (JDict c) →
  dict_get_or d "unsigned" (JDict []) = JDict u →
  prune_event_dict rv d = Ok (dict_set (dict_set (filter (λ kv, is_allowed rv ty kv.1 = true) d)
    "content" (JDict (pruned rv ty c))) "unsigned" (JDict (select ["age_ts"; "replaces_state"] u))).
Proof.
  intros Hty Hc Hu. unfold prune_event_dict, dict_index. rewrite Hty, Hc, Hu.
  cbn [of_option mbind result_bind]. rewrite prune_content_dict. cbn [mbind result_bind].
  by rewrite prune_unsigned_dict.
Qed.

(** C39: Redaction.  An event with a type and content objects is always pruned; of
    its other top-level keys exactly the allowed ones survive, unchanged; of its
    content what [kept_content] says; pruning again changes nothing, so a
    redacted event has the reference hash, and with it the event ID, of the
    event it was made from. *)
Theorem prune_event_dict_correct rv d ty c u :
  dict_get d "type" = Some ty → dict_get d "content" = Some (JDict c) →
  dict_get_or d "unsigned" (JDict []) = JDict u →
  ∃ d', prune_event_dict rv d = Ok d' ∧
    (∀ k, k ≠ "content" → k ≠ "unsigned" →
       dict_get d' k = if is_allowed rv ty k then dict_get d k else None) ∧
    dict_get d' "content" = Some (JDict (pruned rv ty c)) ∧
    dict_get d' "unsigned" = Some (JDict (select ["age_ts"; "replaces_state"] u)) ∧
    prune_event_dict rv d' = Ok d' ∧
    (∀ hash_json, compute_event_reference_hash hash_json rv d' =
                  compute_event_reference_hash hash_json rv d).
Proof.
  intros Hty Hc Hu. rewrite (prune_event_dict_ok _ _ _ _ _ Hty Hc Hu).
  destruct (allowed_basic rv ty) as (Hac & Hat & Hau).
  set (a := filter (λ kv, is_allowed rv ty kv.1 = true) d).
  set (d1 := dict_set a "content" (JDict (pruned rv ty c))).
  set (u' := select ["age_ts"; "replaces_state"] u).
  set (d' := dict_set d1 "unsigned" (JDict u')).
  assert (Hidem : prune_event_dict rv d' = Ok d').
  { assert (H1 : filter (λ kv, is_allowed rv ty kv.1 = true) d1 = d1).
    { unfold d1. rewrite filter_dict_set by done. unfold a. by rewrite filter_filter_same. }
    assert (H2 : dict_get d1 "unsigned" = None).
    { unfold d1, a. rewrite dict_get_set. simpl. rewrite (dict_get_filter (is_allowed rv ty)).
      by rewrite Hau. }
    rewrite (prune_event_dict_ok rv d' ty (pruned rv ty c) u').
    - rewrite pruned_idem. unfold u' at 1. rewrite select_select. fold u'.
      replace (filter (λ kv, is_allowed rv ty kv.1 = true) d') with d1.
      + unfold d1 at 1. rewrite dict_set_twice. done.
      + unfold d'. rewrite dict_set_new, filter_app, H1 by done.
        rewrite filter_cons_False by (simpl; congruence). simpl. by rewrite app_nil_r.
    - unfold d', d1, a. rewrite !dict_get_set. simpl.
      rewrite (dict_get_filter (is_allowed rv ty)). by rewrite Hat.
    - unfold d', d1. rewrite dict_get_set. simpl. by rewrite dict_get_set.
    - unfold d', dict_get_or. by rewrite dict_get_set. }
  exists d'. split; [done|]. split_and!; [| | |done|].
  - intros k H1 H2. unfold d', d1, a. rewrite !dict_get_set.
    destruct (String.eqb_spec k "unsigned"); [done|]. destruct (String.eqb_spec k "content"); [done|].
    apply (dict_get_filter (is_allowed rv ty)).
  - unfold d', d1. rewrite dict_get_set. simpl. by rewrite dict_get_set.
  - unfold d'. by rewrite dict_get_set.
  - intros hash_json. unfold compute_event_reference_hash.
    by rewrite Hidem, (prune_event_dict_ok _ _ _ _ _ Hty Hc Hu).
Qed.
