(* ===== verification/EventAuth.v ===== *)
(** The event authorization rules: [textrp_briij/event_auth.py].

    One definition per function of the source.  The long membership rule is
    split along its own structure: [membership_context] computes the local
    variables, and one definition per membership value holds that branch. *)
From S2P Require Import Prelude RoomVersions Identifiers Events.
From Stdlib Require Import Ascii.
Import EventFormatVersions.

(** ** Error codes *)
Definition FORBIDDEN : string := "M_FORBIDDEN".
Definition BAD_JSON : string := "M_BAD_JSON".
Definition NOT_JOINED : string := "ORG.MATRIX.MSC3848.NOT_JOINED".
Definition ALREADY_JOINED : string := "ORG.MATRIX.MSC3848.ALREADY_JOINED".
Definition INSUFFICIENT_POWER : string := "ORG.MATRIX.MSC3848.INSUFFICIENT_POWER".

(** [AuthError(code, msg)] with its default errcode. *)
Definition auth_error (code : Z) (msg : string) : exn := AuthError code msg FORBIDDEN.
Definition synapse_error (code : Z) (msg : string) : exn := SynapseError code msg UNKNOWN.

(** ** State maps

    [StateMap[EventBase]]: keyed on the pair of event type and state key. *)
Abbreviation StateKey := (string * string)%type.
Abbreviation StateMap := (gmap (string * string)).

Definition CREATE_KEY : StateKey := (EventTypes.Create, "").

(** [auth_events.get((etype, k))] where [k] came out of JSON: a key that is not
    a string matches nothing, an unhashable one raises. *)
Definition state_get_json (auth_events : StateMap event) (etype : string) (k : json)
    : result (option event) :=
  match k with
  | JStr s => Ok (auth_events !! (etype, s))
  | JList _ | JDict _ => Raise TypeError
  | _ => Ok None
  end.

(** ** Power levels in force *)
Definition get_power_level_event (auth_events : StateMap event) : option event :=
  auth_events !! (EventTypes.PowerLevels, "").

(** [d.get(k)] as used before an [is None] test: a missing key and a JSON null
    are both [None]. *)
Definition dict_get_none (d : pydict) (k : string) : option json :=
  match dict_get d k with
  | None | Some JNull => None
  | Some v => Some v
  end.

Definition get_user_power_level (user_id : string) (auth_events : StateMap event) : result Z :=
  create_event ← of_option (auth_events !! CREATE_KEY) AssertionError;
  creator_power ←
    (if msc4289_creator_power_enabled (ev_room_version create_event)
     then is_creator create_event user_id else Ok false);
  if (creator_power : bool) then Ok CREATOR_POWER_LEVEL
  else
    match get_power_level_event auth_events with
    | Some power_level_event =>
        users ← mapping_of (dict_get_or (ev_content power_level_event) "users" (JDict []));
        match dict_get_none users user_id with
        | Some level => py_int level
        | None =>
            match dict_get_or (ev_content power_level_event) "users_default" (JInt 0) with
            | JNull => Ok 0%Z
            | level => py_int level
            end
        end
    | None =>
        creator ←
          (if implicit_room_creator (ev_room_version create_event)
           then Ok (JStr (ev_sender create_event))
           else dict_index (ev_content create_event) EventContentFields.ROOM_CREATOR);
        Ok (if json_is_str creator user_id then 100 else 0)%Z
    end.

Definition get_named_level (auth_events : StateMap event) (name : string) (default : Z) : result Z :=
  match get_power_level_event auth_events with
  | None => Ok default
  | Some power_level_event =>
      match dict_get_none (ev_content power_level_event) name with
      | Some level => py_int level
      | None => Ok default
      end
  end.

Definition get_send_level (etype : string) (state_key : option string)
    (power_levels_event : option event) : result Z :=
  let power_levels_content :=
    match power_levels_event with Some ev => ev_content ev | None => [] end in
  events ← mapping_of (dict_get_or power_levels_content "events" (JDict []));
  match dict_get_none events etype with
  | Some send_level => py_int send_level
  | None =>
      match state_key with
      | Some _ => py_int (dict_get_or power_levels_content "state_default" (JInt 50))
      | None => py_int (dict_get_or power_levels_content "events_default" (JInt 0))
      end
  end.

(** ** Federation and room membership of the sender *)
Definition _can_federate (auth_events : StateMap event) : bool :=
  match auth_events !! (EventTypes.Create, "") with
  | None => false
  | Some creation_event =>
      match dict_get_or (ev_content creation_event) EventContentFields.FEDERATE (JBool true) with
      | JBool true => true
      | _ => false
      end
  end.

Definition _check_joined_room (member : option event) : result unit :=
  match member with
  | None => Raise (auth_error 403 "User %s not in room %s (%s)")
  | Some m =>
      ms ← membership m;
      raise_if (negb (json_is_str ms Membership.JOIN)) (auth_error 403 "User %s not in room %s (%s)")
  end.

Definition _check_event_sender_in_room (e : event) (auth_events : StateMap event) : result unit :=
  _check_joined_room (auth_events !! (EventTypes.Member, ev_sender e)).

(** ** Creation *)
Section Rules.
(** [netaddr.valid_ipv6], through [UserID.is_valid]. *)
Context (valid_ipv6 : string → bool).

Definition UserID_is_valid (s : string) : bool := is_valid valid_ipv6 SIGIL.UserID s.

Definition check_valid_additional_creators (additional_creators : json) : result unit :=
  match additional_creators with
  | JList l =>
      for_each (λ entry,
        match entry with
        | JStr s =>
            _ ← raise_if (negb (UserID_is_valid s))
                  (auth_error 400 "entry in additional_creators is not a valid user ID");
            raise_if ((255 <? py_len s) || (255 <? String.length s))
              (auth_error 400 "entry in additional_creators too long")
        | _ => Raise (auth_error 400 "entry in additional_creators is not a string")
        end) l
  | _ => Raise (auth_error 400 "additional_creators must be an array")
  end.

(** [k in KNOWN_ROOM_VERSIONS] *)
Definition known_version (k : json) : result bool :=
  match k with
  | JStr s => Ok (dict_mem KNOWN_ROOM_VERSIONS s)
  | JList _ | JDict _ => Raise TypeError
  | _ => Ok false
  end.

Definition _check_create (e : event) : result unit :=
  _ ← raise_if (negb (String.eqb (ev_type e) EventTypes.Create)) AssertionError;
  _ ← raise_if (match prev_event_ids e with [] => false | _ => true end)
        (auth_error 403 "Create event has prev events");
  _ ← (if msc4291_room_ids_as_hashes (ev_room_version e) then
         raise_if (bool_decide (is_Some (ev_dict_room_id e)))
           (auth_error 403 "Create event has a room_id")
       else
         sender_domain ← get_domain_from_id (ev_sender e);
         rid ← room_id e;
         room_id_domain ← get_domain_from_id rid;
         raise_if (negb (String.eqb room_id_domain sender_domain))
           (auth_error 403 "Creation event's room_id domain does not match sender's"));
  known ← known_version (dict_get_or (ev_content e) "room_version" (JStr "1"));
  _ ← raise_if (negb known) (auth_error 403 "room appears to have unsupported version %s");
  _ ← raise_if (negb (implicit_room_creator (ev_room_version e)) &&
                negb (dict_mem (ev_content e) EventContentFields.ROOM_CREATOR))
        (auth_error 403 "Create event lacks a 'creator' property");
  if msc4289_creator_power_enabled (ev_room_version e) then
    match dict_get (ev_content e) EventContentFields.ADDITIONAL_CREATORS with
    | Some c => check_valid_additional_creators c
    | None => Ok tt
    end
  else Ok tt.

(** ** Sending *)

(** The user ID an MSC3757 state key starts with. *)
Definition state_key_owner (state_key : string) : result string :=
  match split_once ":" state_key with
  | None => Raise ValueError
  | Some (l, r) =>
      Ok (match split_once "_" r with
          | Some (d, _) => l +:+ ":" +:+ d
          | None => state_key
          end)
  end.

Definition _can_send_event (e : event) (auth_events : StateMap event) : result unit :=
  let sk := get_state_key e in
  send_level ← get_send_level (ev_type e) sk (get_power_level_event auth_events);
  user_level ← get_user_power_level (ev_sender e) auth_events;
  _ ← raise_if (user_level <? send_level)%Z
        (UnstableSpecAuthError 403 "You don't have permission to post that to the room."
           INSUFFICIENT_POWER);
  match sk with
  | Some k =>
      if startswith "@" k && negb (String.eqb k (ev_sender e)) then
        if msc3757_enabled (ev_room_version e) then
          owner ← try_except
            (o ← state_key_owner k; _ ← raise_if (negb (UserID_is_valid o)) ValueError; Ok o)
            (λ _, Raise (SynapseError 400
               "State key neither equals a valid user ID, nor starts with one plus an underscore"
               BAD_JSON));
          if String.eqb owner (ev_sender e) then Ok tt
          else
            owner_level ← get_user_power_level owner auth_events;
            if (owner_level <? user_level)%Z then Ok tt
            else Raise (auth_error 403 "You are not allowed to set others state")
        else Raise (auth_error 403 "You are not allowed to set others state")
      else Ok tt
  | None => Ok tt
  end.

(** [check_redaction]: the flag it returns, and the event with the
    [recheck_redaction] metadata it may have set. *)
Definition set_recheck_redaction (e : event) : event :=
  mkEvent (ev_room_version e) (ev_type e) (ev_sender e) (ev_state_key e) (ev_content e)
    (ev_dict_room_id e) (ev_v1_event_id e) (ev_ref_hash e) (ev_prev_events e)
    (ev_auth_events e) (ev_origin_server_ts e) (ev_signatures e) (ev_rejected_reason e)
    true (ev_other e).

Definition check_redaction (room_version_obj : RoomVersion) (e : event)
    (auth_events : StateMap event) : result (bool * event) :=
  user_level ← get_user_power_level (ev_sender e) auth_events;
  redact_level ← get_named_level auth_events "redact" 50;
  if (redact_level <=? user_level)%Z then Ok (false, e)
  else
    match event_format room_version_obj with
    | ROOM_V1_V2 =>
        redacter_domain ← get_domain_from_id (event_id e);
        match redacts e with
        | JStr r =>
            redactee_domain ← get_domain_from_id r;
            if String.eqb redacter_domain redactee_domain then Ok (true, e)
            else Raise (auth_error 403 "You don't have permission to redact events")
        | _ => Ok (false, e)
        end
    | _ => Ok (true, set_recheck_redaction e)
    end.

(** ** Power level events *)
Definition int_level_keys : list string :=
  ["users_default"; "events_default"; "state_default"; "ban"; "redact"; "kick"; "invite"].
Definition int_map_keys : list string := ["events"; "notifications"; "users"].

(** The validation of [content.users]. *)
Definition check_power_level_users (user_list : pydict) : result unit :=
  for_each (λ '(k, v),
    _ ← try_except (_ ← from_string SIGIL.UserID k; Ok tt)
          (λ _, Raise (synapse_error 400 "Not a valid user_id: %s"));
    try_except (_ ← py_int v; Ok tt)
      (λ _, Raise (synapse_error 400 "Not a valid power level: %s"))) user_list.

(** Creators have a fixed power level, so they may not be listed. *)
Definition check_creators_not_listed (auth_events : StateMap event) (user_list : pydict)
    : result unit :=
  match auth_events !! (EventTypes.Create, "") with
  | None =>
      Raise (synapse_error 400 "Cannot check power levels without a create event in auth_events")
  | Some create_event =>
      _ ← raise_if (dict_mem user_list (ev_sender create_event))
            (synapse_error 400 "Creator user %s must not appear in content.users");
      let additional_creators :=
        dict_get_or (ev_content create_event) EventContentFields.ADDITIONAL_CREATORS (JList []) in
      if truthy additional_creators then
        l ← py_list additional_creators;
        creators ← py_set l;
        raise_if (existsb (λ c, match c with JStr u => dict_mem user_list u | _ => false end) creators)
          (synapse_error 400 "Additional creators users must not appear in content.users")
      else Ok tt
  end.

(** [enforce_int_power_levels]: no stringy levels. *)
Definition check_int_power_levels (content : pydict) : result unit :=
  for_each (λ '(k, v),
    _ ← raise_if (bool_decide (k ∈ int_level_keys) && negb (is_int v))
          (synapse_error 400 "%r must be an integer.");
    if bool_decide (k ∈ int_map_keys) then
      match v with
      | JDict d =>
          raise_if (negb (forallb (λ kv, is_int kv.2) d))
            (synapse_error 400 "%r must be a dict wherein all the values are integers.")
      | _ => Raise (synapse_error 400 "%r must be a dict wherein all the values are integers.")
      end
    else Ok tt) content.

(** [set(list(old_list) + list(new_list))], tagged with the map they are in. *)
Definition levels_in (dir : string) (old_list new_list : json)
    : result (list (json * option string)) :=
  o ← py_list old_list;
  n ← py_list new_list;
  s ← py_set (o ++ n);
  Ok (map (λ k, (k, Some dir)) s).

Definition levels_to_check (room_version_obj : RoomVersion) (old_content new_content : pydict)
    (user_list : pydict) : result (list (json * option string)) :=
  let get c k := dict_get_or c k (JDict []) in
  users ← levels_in "users" (get old_content "users") (JDict user_list);
  events ← levels_in "events" (get old_content "events") (get new_content "events");
  notifications ←
    (if limit_notifications_power_levels room_version_obj
     then levels_in "notifications" (get old_content "notifications") (get new_content "notifications")
     else Ok []);
  Ok (map (λ k, (JStr k, None)) int_level_keys ++ users ++ events ++ notifications).

(** The level at [level_to_check] in the content, or in its map [dir]. *)
Definition level_at (content : pydict) (dir : option string) (level_to_check : json)
    : result (option Z) :=
  let loc := match dir with
             | Some d => dict_get_or content d (JDict [])
             | None => JDict content
             end in
  present ← py_in level_to_check loc;
  if (present : bool) then
    v ← py_getitem loc level_to_check;
    z ← py_int v;
    Ok (Some z)
  else Ok None.

(** One iteration of the last loop of [_check_power_levels]. *)
Definition check_level (user_id : string) (user_level : Z) (old_content new_content : pydict)
    (entry : json * option string) : result unit :=
  let '(level_to_check, dir) := entry in
  old_level ← level_at old_content dir level_to_check;
  new_level ← level_at new_content dir level_to_check;
  if match old_level, new_level with
     | Some o, Some n => (n =? o)%Z
     | _, _ => false
     end
  then Ok tt
  else
    _ ← raise_if
          (bool_decide (dir = Some "users") && negb (json_is_str level_to_check user_id) &&
           bool_decide (old_level = Some user_level))
          (auth_error 403 "You don't have permission to remove ops level equal to your own");
    let too_big l := match l with Some z => (user_level <? z)%Z | None => false end in
    raise_if (too_big old_level || too_big new_level)
      (auth_error 403 "You don't have permission to add ops level greater than your own").

Definition _check_power_levels (room_version_obj : RoomVersion) (e : event)
    (auth_events : StateMap event) : result unit :=
  user_list ← mapping_of (dict_get_or (ev_content e) "users" (JDict []));
  _ ← check_power_level_users user_list;
  _ ← (if msc4289_creator_power_enabled room_version_obj
       then check_creators_not_listed auth_events user_list else Ok tt);
  _ ← (if String.eqb (ev_type e) EventTypes.PowerLevels &&
          enforce_int_power_levels room_version_obj
       then check_int_power_levels (ev_content e) else Ok tt);
  sk ← state_key e;
  match auth_events !! (ev_type e, sk) with
  | None => Ok tt
  | Some current_state =>
      user_level ← get_user_power_level (ev_sender e) auth_events;
      levels ← levels_to_check room_version_obj (ev_content current_state) (ev_content e) user_list;
      for_each (check_level (ev_sender e) user_level (ev_content current_state) (ev_content e)) levels
  end.

(** ** Third-party invites *)
Definition get_public_keys (invite_event : event) : result (list json) :=
  let content := ev_content invite_event in
  let own :=
    match dict_get content "public_key" with
    | None => []
    | Some k =>
        [JDict (("public_key", k) ::
                match dict_get content "key_validity_url" with
                | Some u => [("key_validity_url", u)]
                | None => []
                end)]
    end in
  more ← py_list (dict_get_or content "public_keys" (JList []));
  Ok (own ++ more).

(** The first [ed25519:] key among the signatures, in iteration order. *)
Fixpoint first_ed25519 (signatures : pydict) : result (option (string * string)) :=
  match signatures with
  | [] => Ok None
  | (server, block) :: rest =>
      b ← mapping_of block;
      match filter (λ k, startswith "ed25519:" k = true) b.*1 with
      | key_name :: _ => Ok (Some (server, key_name))
      | [] => first_ed25519 rest
      end
  end.

Context
  (** [verify_signed_json(signed, server, decode_verify_key_bytes(key_name,
      decode_base64(public_key)))]: raises unless the signature is valid. *)
  (verify_signed_json : pydict → string → string → json → result unit).

Fixpoint verify_with_keys (signed : pydict) (public_keys : list json) : result bool :=
  match public_keys with
  | [] => Ok false
  | public_key_object :: rest =>
      public_key ← py_getitem public_key_object (JStr "public_key");
      match
        (sigs ← dict_index signed "signatures";
         sigs ← mapping_of sigs;
         first ← first_ed25519 sigs;
         match first with
         | None => Ok false
         | Some (server, key_name) =>
             _ ← verify_signed_json signed server key_name public_key; Ok true
         end)
      with
      | Ok true => Ok true
      | Ok false | Raise KeyError | Raise SignatureVerifyException => verify_with_keys signed rest
      | Raise ex => Raise ex
      end
  end.

Definition _verify_third_party_invite (e : event) (auth_events : StateMap event) : result bool :=
  match dict_get (ev_content e) "third_party_invite" with
  | Some (JDict third_party_invite) =>
      match dict_get third_party_invite "signed" with
      | Some (JDict signed) =>
          if forallb (dict_mem signed) ["mxid"; "token"; "signatures"] then
            token ← dict_index signed "token";
            invite_event ← state_get_json auth_events EventTypes.ThirdPartyInvite token;
            match invite_event with
            | None => Ok false
            | Some inv =>
                if negb (String.eqb (ev_sender inv) (ev_sender e)) then Ok false
                else
                  mxid ← dict_index signed "mxid";
                  sk ← state_key e;
                  if negb (json_is_str mxid sk) then Ok false
                  else
                    keys ← get_public_keys inv;
                    verify_with_keys signed keys
            end
          else Ok false
      | _ => Ok false
      end
  | _ => Ok false
  end.

(** ** Membership changes *)

(** The creator's first join: the event right after the create event. *)
Definition creator_join (room_version : RoomVersion) (e : event) (auth_events : StateMap event)
    (ms : json) : result bool :=
  match prev_event_ids e with
  | [prev] =>
      if json_is_str ms Membership.JOIN then
        match auth_events !! (EventTypes.Create, "") with
        | Some create =>
            if String.eqb prev (event_id create) then
              creator ← (if implicit_room_creator room_version
                         then Ok (JStr (ev_sender create))
                         else dict_index (ev_content create) EventContentFields.ROOM_CREATOR);
              sk ← state_key e;
              Ok (json_is_str creator sk)
            else Ok false
        | None => Ok false
        end
      else Ok false
  | _ => Ok false
  end.

(** The local variables the membership rules are written in terms of. *)
Record membership_ctx := mkMembershipCtx {
  mc_membership : json;
  mc_target : string;
  mc_caller_in_room : bool;
  mc_caller_invited : bool;
  mc_caller_knocked : bool;
  mc_target_in_room : bool;
  mc_target_banned : bool;
  mc_join_rule : json;
  mc_user_level : Z;
  mc_target_level : Z;
  mc_invite_level : Z;
  mc_ban_level : Z
}.

(** [ev and ev.membership == m] *)
Definition has_membership (ev : option event) (m : string) : result bool :=
  match ev with
  | None => Ok false
  | Some x => ms ← membership x; Ok (json_is_str ms m)
  end.

Definition membership_context (room_version : RoomVersion) (e : event)
    (auth_events : StateMap event) (ms : json) : result membership_ctx :=
  target_user_id ← state_key e;
  create_event ← of_option (auth_events !! (EventTypes.Create, ""))
                   (auth_error 403 "Create event missing from auth_events");
  creating_domain ← get_domain_from_id (ev_sender create_event);
  target_domain ← get_domain_from_id target_user_id;
  _ ← raise_if (negb (String.eqb creating_domain target_domain) && negb (_can_federate auth_events))
        (auth_error 403 "This room has been marked as unfederatable.");
  let caller := auth_events !! (EventTypes.Member, ev_sender e) in
  caller_in_room ← has_membership caller Membership.JOIN;
  caller_invited ← has_membership caller Membership.INVITE;
  caller_knocked ← (if knock_join_rule room_version
                    then has_membership caller Membership.KNOCK else Ok false);
  let target := auth_events !! (EventTypes.Member, target_user_id) in
  target_in_room ← has_membership target Membership.JOIN;
  target_banned ← has_membership target Membership.BAN;
  let join_rule :=
    match auth_events !! (EventTypes.JoinRules, "") with
    | Some jr => dict_get_or (ev_content jr) "join_rule" (JStr JoinRules.INVITE)
    | None => JStr JoinRules.INVITE
    end in
  user_level ← get_user_power_level (ev_sender e) auth_events;
  target_level ← get_user_power_level target_user_id auth_events;
  invite_level ← get_named_level auth_events "invite" 0;
  ban_level ← get_named_level auth_events "ban" 50;
  Ok (mkMembershipCtx ms target_user_id caller_in_room caller_invited caller_knocked
        target_in_room target_banned join_rule user_level target_level invite_level ban_level).

Definition check_invite (c : membership_ctx) : result unit :=
  if mc_target_banned c then Raise (auth_error 403 "%s is banned from the room")
  else if mc_target_in_room c then
    Raise (UnstableSpecAuthError 403 "%s is already in the room." ALREADY_JOINED)
  else raise_if (mc_user_level c <? mc_invite_level c)%Z
         (UnstableSpecAuthError 403 "You don't have permission to invite users" INSUFFICIENT_POWER).

(** A restricted join must name a joined user who could have sent an invite. *)
Definition check_restricted_join (e : event) (auth_events : StateMap event) (c : membership_ctx)
    : result unit :=
  if negb (mc_caller_in_room c) && negb (mc_caller_invited c) then
    match dict_get_none (ev_content e) EventContentFields.AUTHORISING_USER with
    | None => Raise (auth_error 403 "Join event is missing authorising user.")
    | Some authorising_user =>
        member_event ← state_get_json auth_events EventTypes.Member authorising_user;
        _ ← _check_joined_room member_event;
        match authorising_user with
        | JStr u =>
            authorising_user_level ← get_user_power_level u auth_events;
            raise_if (authorising_user_level <? mc_invite_level c)%Z
              (auth_error 403 "Join event authorised by invalid server.")
        | _ => Raise TypeError
        end
    end
  else Ok tt.

Definition check_join (room_version : RoomVersion) (e : event) (auth_events : StateMap event)
    (c : membership_ctx) : result unit :=
  let join_rule := mc_join_rule c in
  if negb (String.eqb (ev_sender e) (mc_target c)) then
    Raise (auth_error 403 "Cannot force another user to join.")
  else if mc_target_banned c then Raise (auth_error 403 "You are banned from this room")
  else if json_is_str join_rule JoinRules.PUBLIC then Ok tt
  else if (restricted_join_rule room_version && json_is_str join_rule JoinRules.RESTRICTED)
       || (knock_restricted_join_rule room_version && json_is_str join_rule JoinRules.KNOCK_RESTRICTED)
  then check_restricted_join e auth_events c
  else if json_is_str join_rule JoinRules.INVITE
       || (knock_join_rule room_version && json_is_str join_rule JoinRules.KNOCK)
       || (knock_restricted_join_rule room_version && json_is_str join_rule JoinRules.KNOCK_RESTRICTED)
  then raise_if (negb (mc_caller_in_room c || mc_caller_invited c))
         (auth_error 403 "You are not invited to this room.")
  else Raise (auth_error 403 "You are not allowed to join this room").

Definition check_leave (e : event) (auth_events : StateMap event) (c : membership_ctx)
    : result unit :=
  if mc_target_banned c && (mc_user_level c <? mc_ban_level c)%Z then
    Raise (UnstableSpecAuthError 403 "You cannot unban user %s." INSUFFICIENT_POWER)
  else if negb (String.eqb (mc_target c) (ev_sender e)) then
    kick_level ← get_named_level auth_events "kick" 50;
    raise_if ((mc_user_level c <? kick_level) || (mc_user_level c <=? mc_target_level c))%Z
      (UnstableSpecAuthError 403 "You cannot kick user %s." INSUFFICIENT_POWER)
  else Ok tt.

Definition check_ban (c : membership_ctx) : result unit :=
  if (mc_user_level c <? mc_ban_level c)%Z then
    Raise (UnstableSpecAuthError 403 "You don't have permission to ban" INSUFFICIENT_POWER)
  else raise_if (mc_user_level c <=? mc_target_level c)%Z
         (UnstableSpecAuthError 403 "You don't have permission to ban this user" INSUFFICIENT_POWER).

Definition check_knock (room_version : RoomVersion) (e : event) (c : membership_ctx) : result unit :=
  let join_rule := mc_join_rule c in
  if negb (json_is_str join_rule JoinRules.KNOCK) &&
     (negb (knock_restricted_join_rule room_version) ||
      negb (json_is_str join_rule JoinRules.KNOCK_RESTRICTED))
  then Raise (auth_error 403 "You don't have permission to knock")
  else if negb (String.eqb (mc_target c) (ev_sender e)) then
    Raise (auth_error 403 "You cannot knock for other users")
  else if mc_target_in_room c then
    Raise (UnstableSpecAuthError 403 "You cannot knock on a room you are already in" ALREADY_JOINED)
  else if mc_caller_invited c then Raise (auth_error 403 "You are already invited to this room")
  else raise_if (mc_target_banned c) (auth_error 403 "You are banned from this room").

(** The rules proper, once the local variables are known. *)
Definition membership_rules (room_version : RoomVersion) (e : event) (auth_events : StateMap event)
    (c : membership_ctx) : result unit :=
  let change_is m := json_is_str (mc_membership c) m in
  if change_is Membership.INVITE && dict_mem (ev_content e) "third_party_invite" then
    verified ← _verify_third_party_invite e auth_events;
    _ ← raise_if (negb verified) (auth_error 403 "You are not invited to this room.");
    raise_if (mc_target_banned c) (auth_error 403 "%s is banned from the room")
  else if negb (change_is Membership.JOIN) && negb (change_is Membership.KNOCK) &&
          (mc_caller_invited c || mc_caller_knocked c) && change_is Membership.LEAVE &&
          String.eqb (mc_target c) (ev_sender e)
  then Ok tt
  else if negb (change_is Membership.JOIN) && negb (change_is Membership.KNOCK) && negb (mc_caller_in_room c)
  then Raise (UnstableSpecAuthError 403 "%s not in room %s." NOT_JOINED)
  else if change_is Membership.INVITE then check_invite c
  else if change_is Membership.JOIN then check_join room_version e auth_events c
  else if change_is Membership.LEAVE then check_leave e auth_events c
  else if change_is Membership.BAN then check_ban c
  else if knock_join_rule room_version && change_is Membership.KNOCK then check_knock room_version e c
  else Raise (auth_error 500 "Unknown membership %s").

Definition _is_membership_change_allowed (room_version : RoomVersion) (e : event)
    (auth_events : StateMap event) : result unit :=
  ms ← membership e;
  creator_joins ← creator_join room_version e auth_events ms;
  if (creator_joins : bool) then Ok tt
  else
    c ← membership_context room_version e auth_events ms;
    membership_rules room_version e auth_events c.

(** ** The state-dependent rules *)
Definition auth_dict_of (auth_events : list event) : result (StateMap event) :=
  fold_res (λ d ev, sk ← state_key ev; Ok (<[(ev_type ev, sk) := ev]> d)) auth_events ∅.

Definition check_aliases (e : event) : result unit :=
  match ev_state_key e with
  | None => Raise (auth_error 403 "Alias event must be a state event")
  | Some sk =>
      _ ← raise_if (negb (str_nonempty sk))
            (auth_error 403 "Alias event must have non-empty state_key");
      sender_domain ← get_domain_from_id (ev_sender e);
      raise_if (negb (String.eqb sk sender_domain))
        (auth_error 403 "Alias event's state_key does not match sender's domain")
  end.

(** The rules once the auth events are in a dict; returns the event, whose
    [recheck_redaction] flag the redaction rule may have set. *)
Definition check_auth_dict (e : event) (auth_dict : StateMap event) : result event :=
  create_event ← of_option (auth_dict !! CREATE_KEY)
    (auth_error 403 "Event %s is missing a create event in auth_events.");
  creating_domain ← get_domain_from_id (ev_sender create_event);
  originating_domain ← get_domain_from_id (ev_sender e);
  _ ← raise_if (negb (String.eqb creating_domain originating_domain) && negb (_can_federate auth_dict))
        (auth_error 403 "This room has been marked as unfederatable.");
  if String.eqb (ev_type e) EventTypes.Aliases &&
     special_case_aliases_auth (ev_room_version e)
  then _ ← check_aliases e; Ok e
  else if String.eqb (ev_type e) EventTypes.Member then
    _ ← _is_membership_change_allowed (ev_room_version e) e auth_dict; Ok e
  else
    _ ← _check_event_sender_in_room e auth_dict;
    if String.eqb (ev_type e) EventTypes.ThirdPartyInvite then
      user_level ← get_user_power_level (ev_sender e) auth_dict;
      invite_level ← get_named_level auth_dict "invite" 0;
      _ ← raise_if (user_level <? invite_level)%Z
            (UnstableSpecAuthError 403 "You don't have permission to invite users" INSUFFICIENT_POWER);
      Ok e
    else
      _ ← _can_send_event e auth_dict;
      _ ← (if String.eqb (ev_type e) EventTypes.PowerLevels
           then _check_power_levels (ev_room_version e) e auth_dict else Ok tt);
      if String.eqb (ev_type e) EventTypes.Redaction then
        '(_, e') ← check_redaction (ev_room_version e) e auth_dict; Ok e'
      else Ok e.

Definition check_state_dependent_auth_rules (e : event) (auth_events : list event) : result event :=
  if String.eqb (ev_type e) EventTypes.Create then Ok e
  else
    auth_dict ← auth_dict_of auth_events;
    check_auth_dict e auth_dict.
End Rules.

(** ** The auth events selection algorithm

    A set of state keys.  A third-party token or authorising user that is not a
    string can equal no state key, so it adds nothing; an unhashable one
    raises. *)
Definition add_json_key (etype : string) (k : json) (s : gset StateKey) : result (gset StateKey) :=
  match k with
  | JStr x => Ok ({[ (etype, x) ]} ∪ s)
  | JList _ | JDict _ => Raise TypeError
  | _ => Ok s
  end.

Definition auth_types_for_event (room_version : RoomVersion) (e : event)
    : result (gset StateKey) :=
  if String.eqb (ev_type e) EventTypes.Create then Ok ∅
  else
    let auth_types : gset StateKey :=
      {[ (EventTypes.PowerLevels, ""); (EventTypes.Member, ev_sender e); (EventTypes.Create, "") ]} in
    if String.eqb (ev_type e) EventTypes.Member then
      ms ← membership e;
      let auth_types :=
        if json_is_str ms Membership.JOIN || json_is_str ms Membership.INVITE ||
           json_is_str ms Membership.KNOCK
        then {[ (EventTypes.JoinRules, "") ]} ∪ auth_types else auth_types in
      sk ← state_key e;
      let auth_types := {[ (EventTypes.Member, sk) ]} ∪ auth_types in
      auth_types ←
        (if json_is_str ms Membership.INVITE then
           match dict_get (ev_content e) "third_party_invite" with
           | Some tpi =>
               signed ← py_getitem tpi (JStr "signed");
               token ← py_getitem signed (JStr "token");
               add_json_key EventTypes.ThirdPartyInvite token auth_types
           | None => Ok auth_types
           end
         else Ok auth_types);
      if restricted_join_rule room_version && json_is_str ms Membership.JOIN then
        match dict_get (ev_content e) EventContentFields.AUTHORISING_USER with
        | Some u => add_json_key EventTypes.Member u auth_types
        | None => Ok auth_types
        end
      else Ok auth_types
    else Ok auth_types.

(** ** The state-independent rules *)

(** One auth event of the loop of [check_state_independent_auth_rules]. *)
Definition check_auth_event (auth_events : gmap string event) (rid : string)
    (expected_auth_types : gset StateKey) (auth_dict : gmap StateKey string)
    (auth_event_id : string) : result (gmap StateKey string) :=
  auth_event ← of_option (auth_events !! auth_event_id)
                 (RuntimeError "Event %s has unknown auth event %s");
  auth_room ← room_id auth_event;
  _ ← raise_if (negb (String.eqb auth_room rid))
        (auth_error 403 "During auth for event %s in room %s, found event %s in the state which is in room %s");
  sk ← state_key auth_event;
  let k := (ev_type auth_event, sk) in
  _ ← raise_if (bool_decide (is_Some (auth_dict !! k)))
        (auth_error 403 "Event %s has duplicate auth_events for %s: %s and %s");
  _ ← raise_if (bool_decide (k ∉ expected_auth_types))
        (auth_error 403 "Event %s has unexpected auth_event for %s: %s");
  _ ← raise_if (match ev_rejected_reason auth_event with
                | Some r => str_nonempty r
                | None => false
                end)
        (auth_error 403 "During auth for event %s: found rejected event %s in the state");
  Ok (<[k := auth_event_id]> auth_dict).

Section StateIndependent.
Context (valid_ipv6 : string → bool).
(** [store.get_events(ids, as_is, allow_rejected=True)] *)
Context (get_events : list string → gmap string event).

Definition fetch_auth_events (ids : list string) (batched_auth_events : gmap string event)
    : gmap string event :=
  if decide (batched_auth_events = ∅) then get_events ids
  else
    match filter (λ i, batched_auth_events !! i = None) ids with
    | [] => batched_auth_events
    | needed_auth_event_ids => get_events needed_auth_event_ids ∪ batched_auth_events
    end.

Definition check_state_independent_auth_rules (e : event)
    (batched_auth_events : gmap string event) : result unit :=
  if String.eqb (ev_type e) EventTypes.Create then _check_create valid_ipv6 e
  else
    ids ← auth_event_ids e;
    let auth_events := fetch_auth_events ids batched_auth_events in
    rid ← room_id e;
    expected_auth_types ← auth_types_for_event (ev_room_version e) e;
    auth_dict ← fold_res (check_auth_event auth_events rid expected_auth_types) ids ∅;
    raise_if (match (auth_dict : gmap StateKey string) !! (EventTypes.Create, "") with
              | Some i => negb (str_nonempty i)
              | None => true
              end)
      (auth_error 403 "No create event in auth events").
End StateIndependent.

(** ** Size and signature checks on receipt *)
Definition LENIENT_EVENT_BYTE_LIMITS_ROOM_VERSIONS : list RoomVersion :=
  [ RoomVersions.V1; RoomVersions.V2; RoomVersions.V3; RoomVersions.V4; RoomVersions.V5;
    RoomVersions.V6; RoomVersions.V7; RoomVersions.V8; RoomVersions.V9; RoomVersions.V10;
    RoomVersions.MSC1767v10; RoomVersions.MSC3757v10 ].

Section Receipt.
(** [len(encode_canonical_json(event.get_pdu_json()))] *)
Context (pdu_json_size : event → Z).

(** The five length checks, in codepoints or in bytes. *)
Definition check_field_lengths (len : string → nat) (unpersistable : bool) (e : event)
    : result unit :=
  _ ← raise_if (255 <? len (ev_sender e)) (EventSizeError "'user_id' too large" unpersistable);
  rid ← room_id e;
  _ ← raise_if (255 <? len rid) (EventSizeError "'room_id' too large" unpersistable);
  _ ← raise_if (match ev_state_key e with Some k => 255 <? len k | None => false end)
        (EventSizeError "'state_key' too large" unpersistable);
  _ ← raise_if (255 <? len (ev_type e)) (EventSizeError "'type' too large" unpersistable);
  raise_if (255 <? len (event_id e)) (EventSizeError "'event_id' too large" unpersistable).

Definition strict_byte_limits (e : event) : bool :=
  bool_decide (ev_room_version e ∉ LENIENT_EVENT_BYTE_LIMITS_ROOM_VERSIONS).

Definition _check_size_limits (e : event) : result unit :=
  _ ← raise_if (MAX_PDU_SIZE <? pdu_json_size e)%Z (EventSizeError "event too large" true);
  _ ← check_field_lengths py_len true e;
  check_field_lengths String.length (strict_byte_limits e) e.

(** [event.signatures.get(domain)] is non-empty. *)
Definition signed_by (e : event) (domain : string) : bool :=
  match dict_get (ev_signatures e) domain with
  | Some (_ :: _) => true
  | _ => false
  end.

Definition validate_event_for_room_version (e : event) : result unit :=
  _ ← _check_size_limits e;
  _ ← room_id e;
  sender_domain ← get_domain_from_id (ev_sender e);
  is_invite_via_3pid ←
    (if String.eqb (ev_type e) EventTypes.Member then
       ms ← membership e;
       Ok (json_is_str ms Membership.INVITE && dict_mem (ev_content e) "third_party_invite")
     else Ok false);
  _ ← raise_if (negb (signed_by e sender_domain) && negb is_invite_via_3pid)
        (auth_error 403 "Event not signed by sender's server");
  _ ← (if bool_decide (format_version e = ROOM_V1_V2) then
         event_id_domain ← get_domain_from_id (event_id e);
         raise_if (negb (signed_by e event_id_domain))
           (auth_error 403 "Event not signed by sending server")
       else Ok tt);
  is_invite_via_allow_rule ←
    (if restricted_join_rule (ev_room_version e) && String.eqb (ev_type e) EventTypes.Member then
       ms ← membership e;
       Ok (json_is_str ms Membership.JOIN &&
           dict_mem (ev_content e) EventContentFields.AUTHORISING_USER)
     else Ok false);
  if (is_invite_via_allow_rule : bool) then
    u ← dict_index (ev_content e) EventContentFields.AUTHORISING_USER;
    authoriser_domain ←
      match u with
      | JStr s => get_domain_from_id s
      | _ => Raise AttributeError
      end;
    raise_if (negb (signed_by e authoriser_domain))
      (auth_error 403 "Event not signed by authorising server")
  else Ok tt.
End Receipt.
