(* ===== verification/EventAuthProps.v ===== *)
(** Correctness of the authorization rules of [EventAuth]. *)
From S2P Require Import Prelude RoomVersions Identifiers Events EventAuth.
Import EventFormatVersions.

(** ** Automation: invert a computation that returned [Ok] *)
Ltac inv_ok :=
  repeat match goal with
  | H : raise_if _ _ = Ok _ |- _ => apply raise_if_ok in H
  | H : mbind _ _ = Ok _ |- _ => apply bind_ok in H as (? & ? & H)
  | H : of_option _ _ = Ok _ |- _ => apply of_option_ok in H
  | H : Raise _ = Ok _ |- _ => discriminate H
  | H : Ok _ = Ok _ |- _ => injection H as H
  | H : negb _ = false |- _ => apply negb_false_iff in H
  | H : negb _ = true |- _ => apply negb_true_iff in H
  | H : _ || _ = false |- _ => apply orb_false_iff in H as [? ?]
  | H : _ && _ = true |- _ => apply andb_true_iff in H as [? ?]
  | H : String.eqb _ _ = true |- _ => apply String.eqb_eq in H
  | H : String.eqb _ _ = false |- _ => apply String.eqb_neq in H
  | H : (_ <? _)%Z = false |- _ => apply Z.ltb_ge in H
  | H : (_ <=? _)%Z = false |- _ => apply Z.leb_gt in H
  | H : (_ <? _) = false |- _ => apply Nat.ltb_ge in H
  | u : unit |- _ => destruct u
  end.

Lemma raise_if_ok_tt b e : raise_if b e = Ok tt ↔ b = false.
Proof. apply raise_if_ok. Qed.

(** ** Membership changes *)
Section Membership.
Context (verify_signed_json : pydict → string → string → json → result unit).
Context (rv : RoomVersion) (e : event) (auth : StateMap event).

(** A join is authorised by the join rule in force. *)
Definition join_rule_admits (c : membership_ctx) : Prop :=
  let rule r := json_is_str (mc_join_rule c) r = true in
  let restricted :=
    (restricted_join_rule rv = true ∧ rule JoinRules.RESTRICTED) ∨
    (knock_restricted_join_rule rv = true ∧ rule JoinRules.KNOCK_RESTRICTED) in
  let known := mc_caller_in_room c = true ∨ mc_caller_invited c = true in
  rule JoinRules.PUBLIC ∨
  ((rule JoinRules.INVITE ∨ (knock_join_rule rv = true ∧ rule JoinRules.KNOCK) ∨ restricted) ∧ known) ∨
  (restricted ∧
   ∃ u m ms lvl,
     dict_get (ev_content e) EventContentFields.AUTHORISING_USER = Some (JStr u) ∧
     auth !! (EventTypes.Member, u) = Some m ∧ membership m = Ok ms ∧
     json_is_str ms Membership.JOIN = true ∧
     get_user_power_level u auth = Ok lvl ∧ (mc_invite_level c ≤ lvl)%Z).

(** The Matrix rules for [m.room.member], as one condition per membership. *)
Definition membership_spec (c : membership_ctx) : Prop :=
  let self := mc_target c = ev_sender e in
  let change m := json_is_str (mc_membership c) m = true in
  (change Membership.INVITE ∧ mc_target_banned c = false ∧
   if dict_mem (ev_content e) "third_party_invite"
   then _verify_third_party_invite verify_signed_json e auth = Ok true
   else mc_caller_in_room c = true ∧ mc_target_in_room c = false ∧
        (mc_invite_level c ≤ mc_user_level c)%Z) ∨
  (change Membership.JOIN ∧ self ∧ mc_target_banned c = false ∧ join_rule_admits c) ∨
  (change Membership.LEAVE ∧
   ((self ∧ (mc_caller_invited c = true ∨ mc_caller_knocked c = true)) ∨
    (mc_caller_in_room c = true ∧
     (mc_target_banned c = true → (mc_ban_level c ≤ mc_user_level c)%Z) ∧
     (¬ self → ∃ k, get_named_level auth "kick" 50 = Ok k ∧
        (k ≤ mc_user_level c)%Z ∧ (mc_target_level c < mc_user_level c)%Z)))) ∨
  (change Membership.BAN ∧ mc_caller_in_room c = true ∧
   (mc_ban_level c ≤ mc_user_level c)%Z ∧ (mc_target_level c < mc_user_level c)%Z) ∨
  (change Membership.KNOCK ∧ knock_join_rule rv = true ∧ self ∧
   (json_is_str (mc_join_rule c) JoinRules.KNOCK = true ∨
    (knock_restricted_join_rule rv = true ∧
     json_is_str (mc_join_rule c) JoinRules.KNOCK_RESTRICTED = true)) ∧
   mc_target_in_room c = false ∧ mc_caller_invited c = false ∧ mc_target_banned c = false).

Lemma check_invite_ok c :
  check_invite c = Ok tt ↔
  mc_target_banned c = false ∧ mc_target_in_room c = false ∧
  (mc_invite_level c ≤ mc_user_level c)%Z.
Proof.
  unfold check_invite. destruct (mc_target_banned c), (mc_target_in_room c);
    rewrite ?raise_if_ok_tt, ?Z.ltb_ge; naive_solver.
Qed.

Lemma check_ban_ok c :
  check_ban c = Ok tt ↔
  (mc_ban_level c ≤ mc_user_level c)%Z ∧ (mc_target_level c < mc_user_level c)%Z.
Proof.
  unfold check_ban. destruct (Z.ltb_spec (mc_user_level c) (mc_ban_level c));
    rewrite ?raise_if_ok_tt, ?Z.leb_gt; split; intros; try done; naive_solver lia.
Qed.

Lemma check_leave_ok c :
  check_leave e auth c = Ok tt ↔
  (mc_target_banned c = true → (mc_ban_level c ≤ mc_user_level c)%Z) ∧
  (mc_target c ≠ ev_sender e → ∃ k, get_named_level auth "kick" 50 = Ok k ∧
     (k ≤ mc_user_level c)%Z ∧ (mc_target_level c < mc_user_level c)%Z).
Proof.
  unfold check_leave.
  assert (mc_target_banned c && (mc_user_level c <? mc_ban_level c)%Z = false ↔
          (mc_target_banned c = true → (mc_ban_level c ≤ mc_user_level c)%Z)) as <-.
  { destruct (mc_target_banned c); simpl; rewrite ?Z.ltb_ge; naive_solver. }
  destruct (mc_target_banned c && _); [naive_solver|].
  destruct (String.eqb_spec (mc_target c) (ev_sender e)) as [->|Hne]; simpl; [naive_solver|].
  rewrite bind_ok. setoid_rewrite raise_if_ok_tt. setoid_rewrite orb_false_iff.
  setoid_rewrite Z.ltb_ge. setoid_rewrite Z.leb_gt. naive_solver.
Qed.

Lemma check_knock_ok c :
  check_knock rv e c = Ok tt ↔
  mc_target c = ev_sender e ∧
  (json_is_str (mc_join_rule c) JoinRules.KNOCK = true ∨
   (knock_restricted_join_rule rv = true ∧
    json_is_str (mc_join_rule c) JoinRules.KNOCK_RESTRICTED = true)) ∧
  mc_target_in_room c = false ∧ mc_caller_invited c = false ∧ mc_target_banned c = false.
Proof.
  unfold check_knock.
  destruct (String.eqb_spec (mc_target c) (ev_sender e)), (json_is_str _ JoinRules.KNOCK),
    (knock_restricted_join_rule rv), (json_is_str _ JoinRules.KNOCK_RESTRICTED),
    (mc_target_in_room c), (mc_caller_invited c), (mc_target_banned c); simpl; naive_solver.
Qed.

Lemma check_joined_room_ok m :
  _check_joined_room m = Ok tt ↔
  ∃ ev ms, m = Some ev ∧ membership ev = Ok ms ∧ json_is_str ms Membership.JOIN = true.
Proof.
  unfold _check_joined_room. destruct m as [ev|]; [|naive_solver].
  rewrite bind_ok. setoid_rewrite raise_if_ok_tt. setoid_rewrite negb_false_iff. naive_solver.
Qed.

Lemma check_restricted_join_ok c :
  check_restricted_join e auth c = Ok tt ↔
  mc_caller_in_room c = true ∨ mc_caller_invited c = true ∨
  ∃ u m ms lvl,
    dict_get (ev_content e) EventContentFields.AUTHORISING_USER = Some (JStr u) ∧
    auth !! (EventTypes.Member, u) = Some m ∧ membership m = Ok ms ∧
    json_is_str ms Membership.JOIN = true ∧
    get_user_power_level u auth = Ok lvl ∧ (mc_invite_level c ≤ lvl)%Z.
Proof.
  unfold check_restricted_join.
  destruct (mc_caller_in_room c); [naive_solver|].
  destruct (mc_caller_invited c); [naive_solver|]. cbn [negb andb].
  split.
  - intros H. do 2 right. unfold dict_get_none in H.
    destruct (dict_get _ _) as [v|] eqn:Hv; [|done].
    destruct v; try done; simpl in H.
    apply bind_ok in H as ([] & (m & ms & Hm & Hms & Hj)%check_joined_room_ok & H).
    apply bind_ok in H as (lvl & Hl & H%raise_if_ok_tt). apply Z.ltb_ge in H.
    naive_solver.
  - intros [?|[?|(u & m & ms & lvl & Hu & Hm & Hms & Hj & Hl & Hle)]]; [done..|].
    unfold dict_get_none. rewrite Hu. simpl.
    rewrite Hm. simpl. rewrite Hms. simpl. rewrite Hj. simpl. rewrite Hl. simpl.
    by apply raise_if_ok_tt, Z.ltb_ge.
Qed.

Lemma check_join_ok c :
  check_join rv e auth c = Ok tt ↔
  mc_target c = ev_sender e ∧ mc_target_banned c = false ∧ join_rule_admits c.
Proof.
  unfold check_join, join_rule_admits.
  destruct (String.eqb_spec (ev_sender e) (mc_target c)) as [Heq|Hne]; simpl; [|naive_solver].
  destruct (mc_target_banned c); [naive_solver|].
  destruct (json_is_str (mc_join_rule c) JoinRules.PUBLIC) eqn:Hpub; [naive_solver|].
  pose proof diff_false_true as Hft. symmetry in Heq.
  destruct (restricted_join_rule rv && _ || _) eqn:Hres.
  - rewrite check_restricted_join_ok.
    rewrite orb_true_iff, !andb_true_iff in Hres. tauto.
  - apply not_true_iff_false in Hres. rewrite orb_true_iff, !andb_true_iff in Hres.
    destruct (_ || _ || _) eqn:Hrule.
    + rewrite raise_if_ok_tt, negb_false_iff, orb_true_iff.
      rewrite !orb_true_iff, !andb_true_iff in Hrule. tauto.
    + apply not_true_iff_false in Hrule. rewrite !orb_true_iff, !andb_true_iff in Hrule.
      split; [done|tauto].
Qed.

Lemma membership_rules_ok c :
  membership_rules verify_signed_json rv e auth c = Ok tt ↔ membership_spec c.
Proof.
  unfold membership_rules, membership_spec. cbn zeta.
  set (chg m := json_is_str (mc_membership c) m).
  assert (∀ a b, chg a = true → a ≠ b → chg b = false) as Hx by apply json_is_str_other.
  fold (chg Membership.INVITE) (chg Membership.JOIN) (chg Membership.LEAVE) (chg Membership.BAN)
    (chg Membership.KNOCK).
  pose proof diff_false_true as Hft. pose proof (eq_refl true) as Ht.
  pose proof (eq_refl false) as Hf.
  assert (∀ u, Ok u = Ok tt) as Hok by by intros [].
  assert (∀ ex, Raise ex = Ok tt ↔ False) as Hraise by done.
  destruct (chg Membership.INVITE) eqn:HI.
  { rewrite !(Hx _ _ HI) by done. destruct (dict_mem _ _); simpl.
    - split.
      + intros (v & Hv & (u & Hnv%raise_if_ok%negb_false_iff & Hb%raise_if_ok)%bind_ok)%bind_ok.
        subst v. tauto.
      + intros [(_ & Hb & ->)|H]; [|tauto]. simpl. by rewrite Hb.
    - rewrite andb_false_r. simpl.
      destruct (mc_caller_in_room c); simpl; rewrite ?check_invite_ok, ?Hraise; tauto. }
  destruct (chg Membership.JOIN) eqn:HJ.
  { rewrite !(Hx _ _ HJ) by done. simpl. rewrite check_join_ok. tauto. }
  destruct (chg Membership.LEAVE) eqn:HL.
  { rewrite !(Hx _ _ HL) by done. simpl. rewrite andb_true_r.
    destruct (String.eqb_spec (mc_target c) (ev_sender e)) as [Hs|?];
      rewrite ?andb_true_r, ?andb_false_r.
    - destruct (mc_caller_invited c) eqn:?, (mc_caller_knocked c) eqn:?; simpl; [tauto..|].
      destruct (mc_caller_in_room c); simpl; rewrite ?check_leave_ok, ?Hraise; tauto.
    - destruct (mc_caller_in_room c); simpl; rewrite ?check_leave_ok, ?Hraise; tauto. }
  destruct (chg Membership.BAN) eqn:HB.
  { rewrite !(Hx _ _ HB) by done. simpl. rewrite andb_false_r. simpl.
    destruct (mc_caller_in_room c); simpl; rewrite ?check_ban_ok, ?Hraise; tauto. }
  destruct (chg Membership.KNOCK) eqn:HK; simpl.
  { rewrite andb_true_r. destruct (knock_join_rule rv);
      rewrite ?check_knock_ok, ?Hraise; tauto. }
  rewrite !andb_false_r. simpl. destruct (mc_caller_in_room c); simpl; rewrite Hraise; tauto.
Qed.
End Membership.

(** C2: [_is_membership_change_allowed] accepts a membership event exactly when
    it is the creator's first join, or the declarative rules of
    [membership_spec] hold of the membership events, join rule and power levels
    found in the auth events. *)
Theorem membership_change_allowed_iff verify_signed_json rv e auth :
  _is_membership_change_allowed verify_signed_json rv e auth = Ok tt ↔
  ∃ ms, membership e = Ok ms ∧
    (creator_join rv e auth ms = Ok true ∨
     creator_join rv e auth ms = Ok false ∧
     ∃ c, membership_context rv e auth ms = Ok c ∧ membership_spec verify_signed_json rv e auth c).
Proof.
  unfold _is_membership_change_allowed. setoid_rewrite <- membership_rules_ok. split.
  - intros (ms & Hms & (cj & Hcj & H)%bind_ok)%bind_ok. exists ms. split; [done|].
    destruct cj; [by left|]. right. split; [done|]. by apply bind_ok in H.
  - intros (ms & Hms & Hor). apply bind_ok. exists ms. split; [done|].
    destruct Hor as [Hcj|(Hcj & c & Hc & H)]; rewrite Hcj; [done|]. simpl. by rewrite Hc.
Qed.

(** ** Which state the rules read *)

(** Two auth states that hold the same events at the keys of [s]. *)
Definition agree_on (s : gset StateKey) (a b : StateMap event) : Prop :=
  ∀ k, k ∈ s → a !! k = b !! k.

Section Agree.
Context (valid_ipv6 : string → bool).
Context (verify_signed_json : pydict → string → string → json → result unit).
Context (a b : StateMap event).
Context (Hcreate : a !! CREATE_KEY = b !! CREATE_KEY).
Context (Hpl : a !! (EventTypes.PowerLevels, "") = b !! (EventTypes.PowerLevels, "")).

Lemma get_user_power_level_agree u : get_user_power_level u a = get_user_power_level u b.
Proof. unfold get_user_power_level, get_power_level_event. by rewrite Hcreate, Hpl. Qed.

Lemma get_named_level_agree n d : get_named_level a n d = get_named_level b n d.
Proof. unfold get_named_level, get_power_level_event. by rewrite Hpl. Qed.

Lemma can_federate_agree : _can_federate a = _can_federate b.
Proof. unfold _can_federate. change (EventTypes.Create, "") with CREATE_KEY. by rewrite Hcreate. Qed.

Lemma can_send_event_agree e : _can_send_event valid_ipv6 e a = _can_send_event valid_ipv6 e b.
Proof.
  unfold _can_send_event, get_power_level_event. rewrite Hpl, get_user_power_level_agree.
  destruct (get_send_level _ _ _); simpl; [|done].
  destruct (get_user_power_level _ b); simpl; [|done].
  destruct (raise_if _ _); simpl; [|done].
  destruct (get_state_key e) as [k|]; [|done].
  destruct (_ && negb (String.eqb k _)); [|done]. destruct (msc3757_enabled _); [|done].
  destruct (state_key_owner k) as [o|]; simpl; [|done].
  destruct (raise_if (negb _) _); simpl; [|done].
  by rewrite get_user_power_level_agree.
Qed.

Lemma check_redaction_agree rv e : check_redaction rv e a = check_redaction rv e b.
Proof.
  unfold check_redaction. by rewrite get_user_power_level_agree, get_named_level_agree.
Qed.

Lemma check_power_levels_agree rv e :
  (∀ sk, ev_state_key e = Some sk → a !! (ev_type e, sk) = b !! (ev_type e, sk)) →
  _check_power_levels rv e a = _check_power_levels rv e b.
Proof.
  intros Hsk. unfold _check_power_levels, check_creators_not_listed.
  change (EventTypes.Create, "") with CREATE_KEY. rewrite Hcreate, get_user_power_level_agree.
  unfold state_key. destruct (ev_state_key e) as [sk|]; simpl; [|done]. by rewrite (Hsk sk).
Qed.

Lemma creator_join_agree rv e ms : creator_join rv e a ms = creator_join rv e b ms.
Proof. unfold creator_join. change (EventTypes.Create, "") with CREATE_KEY. by rewrite Hcreate. Qed.

Definition join_rule_of (auth : StateMap event) : json :=
  match auth !! (EventTypes.JoinRules, "") with
  | Some jr => dict_get_or (ev_content jr) "join_rule" (JStr JoinRules.INVITE)
  | None => JStr JoinRules.INVITE
  end.

Definition set_join_rule (j : json) (c : membership_ctx) : membership_ctx :=
  mkMembershipCtx (mc_membership c) (mc_target c) (mc_caller_in_room c) (mc_caller_invited c)
    (mc_caller_knocked c) (mc_target_in_room c) (mc_target_banned c) j (mc_user_level c)
    (mc_target_level c) (mc_invite_level c) (mc_ban_level c).

Lemma membership_context_agree rv e ms :
  a !! (EventTypes.Member, ev_sender e) = b !! (EventTypes.Member, ev_sender e) →
  (∀ sk, ev_state_key e = Some sk →
     a !! (EventTypes.Member, sk) = b !! (EventTypes.Member, sk)) →
  membership_context rv e b ms = set_join_rule (join_rule_of b) <$> membership_context rv e a ms.
Proof.
  intros Hs Ht. unfold membership_context, state_key, join_rule_of.
  destruct (ev_state_key e) as [sk|]; simpl; [|done].
  rewrite Hs, (Ht sk), can_federate_agree by done.
  change (EventTypes.Create, "") with CREATE_KEY. rewrite Hcreate.
  rewrite !get_user_power_level_agree, !get_named_level_agree.
  repeat (match goal with |- (mbind _ ?r) = _ => destruct r; simpl; [|done] end).
  done.
Qed.

(** Only joins and knocks read the join rule. *)
Lemma membership_rules_join_rule rv e auth j c :
  json_is_str (mc_membership c) Membership.JOIN = false →
  json_is_str (mc_membership c) Membership.KNOCK = false →
  membership_rules verify_signed_json rv e auth (set_join_rule j c) =
  membership_rules verify_signed_json rv e auth c.
Proof. intros HJ HK. unfold membership_rules. simpl. rewrite HJ, HK. by rewrite !andb_false_r. Qed.

(** The third-party invite the membership event cites. *)
Lemma verify_third_party_invite_agree e :
  (∀ tpi signed token,
     dict_get (ev_content e) "third_party_invite" = Some (JDict tpi) →
     dict_get tpi "signed" = Some (JDict signed) → dict_get signed "token" = Some (JStr token) →
     a !! (EventTypes.ThirdPartyInvite, token) = b !! (EventTypes.ThirdPartyInvite, token)) →
  _verify_third_party_invite verify_signed_json e a = _verify_third_party_invite verify_signed_json e b.
Proof.
  intros Htok. unfold _verify_third_party_invite.
  destruct (dict_get (ev_content e) _) as [[]|] eqn:Htpi; try done.
  destruct (dict_get d _) as [[]|] eqn:Hsig; try done.
  destruct (forallb _ _); [|done]. unfold dict_index.
  destruct (dict_get _ "token") as [[]|] eqn:Ht; simpl; try done.
  by rewrite (Htok _ _ _ eq_refl Hsig Ht).
Qed.

Lemma check_restricted_join_agree e c :
  (∀ u, dict_get (ev_content e) EventContentFields.AUTHORISING_USER = Some (JStr u) →
     a !! (EventTypes.Member, u) = b !! (EventTypes.Member, u)) →
  check_restricted_join e a c = check_restricted_join e b c.
Proof.
  intros Hu. unfold check_restricted_join, dict_get_none. destruct (_ && _); [|done].
  destruct (dict_get _ _) as [[]|]; simpl; try done.
  rewrite (Hu _ eq_refl). by rewrite get_user_power_level_agree.
Qed.

Lemma membership_rules_agree rv e c :
  (json_is_str (mc_membership c) Membership.INVITE = true →
   _verify_third_party_invite verify_signed_json e a = _verify_third_party_invite verify_signed_json e b) →
  (json_is_str (mc_membership c) Membership.JOIN = true →
   restricted_join_rule rv || knock_restricted_join_rule rv = true →
   check_restricted_join e a c = check_restricted_join e b c) →
  membership_rules verify_signed_json rv e a c = membership_rules verify_signed_json rv e b c.
Proof.
  intros Hinv Hjoin. unfold membership_rules.
  destruct (json_is_str _ Membership.INVITE) eqn:HI; simpl.
  - rewrite Hinv by done.
    destruct (json_is_str_other _ _ Membership.JOIN HI ltac:(done)). by destruct (dict_mem _ _).
  - destruct (json_is_str _ Membership.JOIN) eqn:HJ; simpl.
    + unfold check_join. destruct (restricted_join_rule rv), (knock_restricted_join_rule rv);
        rewrite ?Hjoin by done; done.
    + unfold check_leave. by rewrite get_named_level_agree.
Qed.

End Agree.

(** ** The auth events selection algorithm picks enough *)

Lemma add_json_key_mono (t : string) (j : json) (s s' : gset StateKey) : add_json_key t j s = Ok s' → s ⊆ s'.
Proof. destruct j; simpl; intros; simplify_eq; set_solver. Qed.

Lemma add_json_key_elem (t k : string) (s s' : gset StateKey) :
  add_json_key t (JStr k) s = Ok s' → (t, k) ∈ s'.
Proof. simpl. intros [= <-]. set_solver. Qed.

(** The keys [auth_types_for_event] selects for a membership event. *)
Lemma auth_types_member (rv : RoomVersion) (e : event) (types : gset StateKey) :
  auth_types_for_event rv e = Ok types → ev_type e = EventTypes.Member →
  ∃ ms sk, membership e = Ok ms ∧ ev_state_key e = Some sk ∧
  {[ (EventTypes.Member, sk); CREATE_KEY; (EventTypes.PowerLevels, "");
     (EventTypes.Member, ev_sender e) ]} ⊆ types ∧
  (json_is_str ms Membership.JOIN || json_is_str ms Membership.INVITE ||
   json_is_str ms Membership.KNOCK = true → (EventTypes.JoinRules, "") ∈ types) ∧
  (∀ tpi signed token, json_is_str ms Membership.INVITE = true →
     dict_get (ev_content e) "third_party_invite" = Some (JDict tpi) →
     dict_get tpi "signed" = Some (JDict signed) → dict_get signed "token" = Some (JStr token) →
     (EventTypes.ThirdPartyInvite, token) ∈ types) ∧
  (∀ u, restricted_join_rule rv = true → json_is_str ms Membership.JOIN = true →
     dict_get (ev_content e) EventContentFields.AUTHORISING_USER = Some (JStr u) →
     (EventTypes.Member, u) ∈ types).
Proof.
  unfold auth_types_for_event, CREATE_KEY. intros H Hm. rewrite Hm in H. simpl in H.
  apply bind_ok in H as (ms & Hms & H). apply bind_ok in H as (sk & Hsk & H).
  apply of_option_ok in Hsk. apply bind_ok in H as (s1 & Hs1 & H).
  set (base := if _ || _ || _ then _ else _) in *.
  assert ({[ (EventTypes.Create, ""); (EventTypes.PowerLevels, "");
             (EventTypes.Member, ev_sender e) ]} ⊆ base) as Hb
    by (unfold base; destruct (_ || _ || _); set_solver).
  assert (json_is_str ms Membership.JOIN || json_is_str ms Membership.INVITE ||
   json_is_str ms Membership.KNOCK = true → (EventTypes.JoinRules, "") ∈ base) as Hj
    by (unfold base; destruct (_ || _ || _); set_solver).
  clearbody base.
  assert (s1 ⊆ types) as H1.
  { destruct (_ && _); [|simplify_eq; set_solver].
    destruct (dict_get _ EventContentFields.AUTHORISING_USER); [exact (add_json_key_mono _ _ _ _ H)|simplify_eq; set_solver]. }
  assert ({[(EventTypes.Member, sk)]} ∪ base ⊆ s1) as H0.
  { destruct (json_is_str _ _); [|simplify_eq; set_solver].
    destruct (dict_get _ "third_party_invite"); [|simplify_eq; set_solver]. inv_ok.
    exact (add_json_key_mono _ _ _ _ Hs1). }
  exists ms, sk. repeat split; [done..|set_solver|set_solver| |].
  - intros tpi signed token HI Htpi Hsg Htk. rewrite HI, Htpi in Hs1. simpl in Hs1.
    unfold dict_index in Hs1. rewrite Hsg in Hs1. simpl in Hs1.
    unfold dict_index in Hs1. rewrite Htk in Hs1. simpl in Hs1. simplify_eq. set_solver.
  - intros u Hr HJ Hu. rewrite Hr, HJ, Hu in H. by apply add_json_key_elem in H.
Qed.

Lemma membership_context_fields rv e auth ms c :
  membership_context rv e auth ms = Ok c →
  mc_membership c = ms ∧ mc_join_rule c = join_rule_of auth.
Proof. unfold membership_context. intros H. by inv_ok; subst c. Qed.

Lemma set_join_rule_same c : set_join_rule (mc_join_rule c) c = c.
Proof. by destruct c. Qed.

Lemma known_versions_knock_restricted rv :
  rv ∈ known_room_versions → knock_restricted_join_rule rv = true → restricted_join_rule rv = true.
Proof.
  intros Hrv%list_elem_of_In.
  assert (forallb (λ v, implb (knock_restricted_join_rule v) (restricted_join_rule v))
    known_room_versions = true) as Hall by by_vm.
  rewrite forallb_forall in Hall. specialize (Hall rv Hrv). by destruct (knock_restricted_join_rule rv).
Qed.

Section Sufficient.
Context (valid_ipv6 : string → bool).
Context (verify_signed_json : pydict → string → string → json → result unit).

Lemma membership_change_agree (e : event) (types : gset StateKey)
    (a b : StateMap event) :
  auth_types_for_event (ev_room_version e) e = Ok types → ev_type e = EventTypes.Member →
  agree_on types a b →
  (knock_restricted_join_rule (ev_room_version e) = true →
   restricted_join_rule (ev_room_version e) = true) →
  _is_membership_change_allowed verify_signed_json (ev_room_version e) e a =
  _is_membership_change_allowed verify_signed_json (ev_room_version e) e b.
Proof.
  intros Htypes Hm Hag Hkr.
  destruct (auth_types_member _ _ _ Htypes Hm) as (ms & sk & Hms & Hsk & Hsub & Hjr & Htpi & Hauth).
  assert (a !! CREATE_KEY = b !! CREATE_KEY) as Hcreate by (apply Hag; set_solver).
  assert (a !! (EventTypes.PowerLevels, "") = b !! (EventTypes.PowerLevels, "")) as Hpl
    by (apply Hag; set_solver).
  unfold _is_membership_change_allowed. rewrite Hms. simpl.
  rewrite (creator_join_agree a b Hcreate).
  destruct (creator_join _ _ _ _) as [[]|]; simpl; [done| |done].
  rewrite (membership_context_agree a b Hcreate Hpl _ _ ms)
    by (intros; simplify_eq; apply Hag; set_solver).
  destruct (membership_context _ _ a ms) as [c|] eqn:Hctx; simpl; [|done].
  apply membership_context_fields in Hctx as [Hcm Hcj].
  trans (membership_rules verify_signed_json (ev_room_version e) e b c).
  - apply membership_rules_agree; [done..| |]; rewrite Hcm.
    + intros HI. apply verify_third_party_invite_agree. intros. by eapply Hag, Htpi.
    + intros HJ Hr. apply check_restricted_join_agree; [done..|].
      intros u Hu. apply Hag, Hauth; [|done..]. destruct (restricted_join_rule _); [done|auto].
  - destruct (json_is_str ms Membership.JOIN || json_is_str ms Membership.INVITE ||
              json_is_str ms Membership.KNOCK) eqn:Hread.
    + assert (join_rule_of b = mc_join_rule c) as ->; [|by rewrite set_join_rule_same].
      rewrite Hcj. unfold join_rule_of. by rewrite (Hag _ (Hjr eq_refl)).
    + rewrite !orb_false_iff in Hread. symmetry.
      apply membership_rules_join_rule; rewrite Hcm; naive_solver.
Qed.

(** C17: the auth events selection algorithm is complete, but for one key.  The
    keys [auth_types_for_event] computes cover every piece of state the
    state-dependent rules read, except that the rules for a power levels event
    also read the power levels under the event's own state key, which the
    algorithm does not name when that key is not empty
    ([power_levels_key_not_selected]): two sets of auth events that agree on the
    keys it names, and, for a power levels event, on its own key, give the same
    verdict (the same exception, or the same event), whatever else they hold. The
    last hypothesis holds of every listed room version
    ([known_versions_knock_restricted]). *)
Theorem auth_types_sufficient (e : event) (types : gset StateKey)
    (la lb : list event) (a b : StateMap event) :
  auth_types_for_event (ev_room_version e) e = Ok types →
  auth_dict_of la = Ok a → auth_dict_of lb = Ok b → agree_on types a b →
  (∀ sk, ev_type e = EventTypes.PowerLevels → ev_state_key e = Some sk →
     a !! (EventTypes.PowerLevels, sk) = b !! (EventTypes.PowerLevels, sk)) →
  (knock_restricted_join_rule (ev_room_version e) = true →
   restricted_join_rule (ev_room_version e) = true) →
  check_state_dependent_auth_rules valid_ipv6 verify_signed_json e la =
  check_state_dependent_auth_rules valid_ipv6 verify_signed_json e lb.
Proof.
  intros Htypes Ha Hb Hag Hplk Hkr. unfold check_state_dependent_auth_rules.
  rewrite Ha, Hb. simpl. clear Ha Hb la lb.
  destruct (String.eqb_spec (ev_type e) EventTypes.Create) as [|Hc]; [done|].
  assert ({[CREATE_KEY; (EventTypes.PowerLevels, ""); (EventTypes.Member, ev_sender e)]} ⊆ types)
    as Hsub.
  { destruct (decide (ev_type e = EventTypes.Member)) as [Hm|Hm%String.eqb_neq].
    - destruct (auth_types_member _ _ _ Htypes Hm) as (? & ? & ? & ? & Hsub & _). set_solver.
    - unfold auth_types_for_event in Htypes. apply String.eqb_neq in Hc.
      rewrite Hc, Hm in Htypes. unfold CREATE_KEY. simplify_eq. set_solver. }
  assert (a !! CREATE_KEY = b !! CREATE_KEY) as Hcreate by (apply Hag; set_solver).
  assert (a !! (EventTypes.PowerLevels, "") = b !! (EventTypes.PowerLevels, "")) as Hpl
    by (apply Hag; set_solver).
  unfold check_auth_dict. rewrite Hcreate, (can_federate_agree a b Hcreate).
  destruct (String.eqb_spec (ev_type e) EventTypes.Member) as [Hm|Hm].
  { by rewrite (membership_change_agree _ _ _ _ Htypes Hm Hag Hkr). }
  unfold _check_event_sender_in_room.
  rewrite (Hag (EventTypes.Member, ev_sender e)) by set_solver.
  rewrite (get_user_power_level_agree a b Hcreate Hpl), (get_named_level_agree a b Hpl).
  rewrite (can_send_event_agree valid_ipv6 a b Hcreate Hpl),
    (check_redaction_agree a b Hcreate Hpl).
  destruct (String.eqb_spec (ev_type e) EventTypes.PowerLevels) as [Hp|]; [|done].
  rewrite (check_power_levels_agree a b Hcreate Hpl); [done|].
  intros sk Hsk. rewrite Hp. by apply Hplk.
Qed.
End Sufficient.
