(* ===== verification/EventAuthSafety.v ===== *)
(** Safety of the authorization rules: what an accepted event implies. *)
From S2P Require Import Prelude RoomVersions Identifiers Events EventAuth EventAuthProps.
Import EventFormatVersions.
#[local] Arguments startswith : simpl never.

(** ** Power level changes *)

(** A level may change only if neither its old nor its new value is above
    [lvl]. *)
Definition level_change_bounded (lvl : Z) (o n : option Z) : Prop :=
  o = n ∨ (∀ z, o = Some z ∨ n = Some z → (z ≤ lvl)%Z).

Lemma check_level_ok u lvl old new k dir :
  check_level u lvl old new (k, dir) = Ok tt →
  ∃ o n, level_at old dir k = Ok o ∧ level_at new dir k = Ok n ∧
    level_change_bounded lvl o n ∧
    (dir = Some "users" → json_is_str k u = false → o = Some lvl → n = o).
Proof.
  unfold check_level. intros (o & Ho & (n & Hn & H)%bind_ok)%bind_ok. exists o, n.
  split; [done|]. split; [done|]. unfold level_change_bounded.
  destruct (match o with Some _ => _ | None => _ end) eqn:Hsame.
  { destruct o, n; try done. apply Z.eqb_eq in Hsame as ->. by split; [left|]. }
  apply bind_ok in H as ([] & Hself%raise_if_ok_tt & Hbig%raise_if_ok_tt).
  apply orb_false_iff in Hbig as [Hbo Hbn]. split.
  - right. intros z [-> | ->]; by apply Z.ltb_ge.
  - intros -> Hk ->. rewrite Hk in Hself. by rewrite !bool_decide_eq_true_2 in Hself.
Qed.

Lemma scalar_eqb_str s j : scalar_eqb (JStr s) j = true → j = JStr s.
Proof. destruct j; simpl; try done. by intros ->%String.eqb_eq. Qed.

Lemma dedup_scalars_str s seen l :
  JStr s ∈ l → JStr s ∈ seen ∨ JStr s ∈ dedup_scalars seen l.
Proof.
  revert seen. induction l as [|x l IH]; intros seen; [by intros ?%not_elem_of_nil|].
  intros [<-|Hl]%elem_of_cons; simpl.
  - destruct (existsb _ seen) eqn:Hs; [|right; left].
    left. apply existsb_exists in Hs as (y & Hy & ->%scalar_eqb_str).
    by apply list_elem_of_In.
  - destruct (existsb _ seen); [by apply IH|].
    destruct (IH (x :: seen) Hl) as [[<-|?]%elem_of_cons|?];
      [right; left|by left|right; by right].
Qed.

Lemma levels_in_str dir od nd ls k :
  levels_in dir (JDict od) (JDict nd) = Ok ls → k ∈ od.*1 ∨ k ∈ nd.*1 →
  (JStr k, Some dir) ∈ ls.
Proof.
  unfold levels_in, py_set. simpl. intros H Hk.
  destruct (forallb _ _); [|done]. simpl in H. simplify_eq.
  apply list_elem_of_fmap. exists (JStr k). split; [done|].
  destruct (dedup_scalars_str k [] ((JStr <$> od.*1) ++ (JStr <$> nd.*1))) as [[]%not_elem_of_nil|?];
    [|done].
  rewrite elem_of_app, !list_elem_of_fmap. naive_solver.
Qed.

Lemma dict_mem_keys {V} (d : list (string * V)) k : dict_mem d k = true ↔ k ∈ d.*1.
Proof.
  unfold dict_mem. induction d as [|[k' v] d IH]; simpl.
  - split; [done|]. by intros ?%not_elem_of_nil.
  - rewrite elem_of_cons, <- IH. destruct (String.eqb_spec k k'); naive_solver.
Qed.

Lemma level_at_absent content d m k :
  dict_get_or content d (JDict []) = JDict m → k ∉ m.*1 →
  level_at content (Some d) (JStr k) = Ok None.
Proof.
  intros Hd Hk. unfold level_at. rewrite Hd. simpl.
  destruct (dict_mem m k) eqn:Hm; [|done]. by apply dict_mem_keys in Hm.
Qed.

(** C16: no privilege escalation through [m.room.power_levels].  When
    [_check_power_levels] accepts a change of an existing event, every level of
    the content (the seven top-level integers, and the per-user, per-event and,
    where the room version limits them, per-notification levels) either keeps
    its value or has both its old and new value at or below the sender's own
    power; and another user whose level equals the sender's keeps it. *)
Theorem power_levels_no_escalation rv e auth cur sk lvl :
  _check_power_levels rv e auth = Ok tt →
  ev_state_key e = Some sk → auth !! (ev_type e, sk) = Some cur →
  get_user_power_level (ev_sender e) auth = Ok lvl →
  (∀ k, k ∈ int_level_keys → ∃ o n,
     level_at (ev_content cur) None (JStr k) = Ok o ∧
     level_at (ev_content e) None (JStr k) = Ok n ∧ level_change_bounded lvl o n) ∧
  (∀ dir od nd k,
     dir = "users" ∨ dir = "events" ∨
       (limit_notifications_power_levels rv = true ∧ dir = "notifications") →
     dict_get_or (ev_content cur) dir (JDict []) = JDict od →
     dict_get_or (ev_content e) dir (JDict []) = JDict nd →
     ∃ o n, level_at (ev_content cur) (Some dir) (JStr k) = Ok o ∧
       level_at (ev_content e) (Some dir) (JStr k) = Ok n ∧ level_change_bounded lvl o n ∧
       (dir = "users" → k ≠ ev_sender e → o = Some lvl → n = o)).
Proof.
  intros H Hsk Hcur Hlvl. unfold _check_power_levels in H.
  apply bind_ok in H as (ul & Hul & H). do 3 apply bind_ok in H as (? & _ & H).
  apply bind_ok in H as (sk' & Hsk' & H). unfold state_key in Hsk'.
  rewrite Hsk in Hsk'. simplify_eq/=. rewrite Hcur, Hlvl in H. simpl in H.
  apply bind_ok in H as (ls & Hls & H). rewrite for_each_ok, Forall_forall in H.
  unfold levels_to_check in Hls.
  apply bind_ok in Hls as (us & Hus & Hls). apply bind_ok in Hls as (es & Hes & Hls).
  apply bind_ok in Hls as (ns & Hns & Hls). apply (f_equal (λ r, match r with Ok l => l | Raise _ => [] end)) in Hls. simpl in Hls.
  split.
  - intros k Hk. specialize (H (JStr k, None)).
    destruct (check_level_ok _ _ _ _ _ _ (H ltac:(subst ls; unfold int_level_keys in Hk; set_solver)))
      as (o & n & Ho & Hn & Hb & _). by exists o, n.
  - intros dir od nd k Hdir Hod Hnd.
    destruct (decide (k ∈ od.*1 ∨ k ∈ nd.*1)) as [Hk|Hk]; last first.
    { exists None, None. rewrite (level_at_absent _ _ od), (level_at_absent _ _ nd) by naive_solver.
      repeat split; by try left. }
    assert ((JStr k, Some dir) ∈ us ++ es ++ ns) as Hin.
    { rewrite !elem_of_app. destruct Hdir as [->|[->|[Hlim ->]]].
      - left. rewrite Hnd in Hul. unfold mapping_of in Hul. simplify_eq/=.
        rewrite Hod in Hus. by eapply levels_in_str; eauto.
      - right; left. rewrite Hod, Hnd in Hes. by eapply levels_in_str; eauto.
      - right; right. rewrite Hlim, Hod, Hnd in Hns. by eapply levels_in_str; eauto. }
    specialize (H (JStr k, Some dir) ltac:(subst ls; by do 7 right)).
    destruct (check_level_ok _ _ _ _ _ _ H) as (o & n & Ho & Hn & Hb & Hself).
    exists o, n. repeat split; [done..|]. intros -> Hne. apply Hself; [done|].
    by apply String.eqb_neq.
Qed.

(** ** Events other than membership changes *)
Section Accepted.
Context (valid_ipv6 : string → bool).
Context (verify_signed_json : pydict → string → string → json → result unit).

Definition joined (auth : StateMap event) (u : string) : Prop :=
  ∃ m, auth !! (EventTypes.Member, u) = Some m ∧ membership m = Ok (JStr Membership.JOIN).

Definition banned (auth : StateMap event) (u : string) : Prop :=
  ∃ m, auth !! (EventTypes.Member, u) = Some m ∧ membership m = Ok (JStr Membership.BAN).

(** Who may set the state at a key that starts with a user ID. *)
Definition owns_state_key (e : event) (auth : StateMap event) (lvl : Z) (k : string) : Prop :=
  startswith "@" k = true →
  k = ev_sender e ∨
  (msc3757_enabled (ev_room_version e) = true ∧
   ∃ owner, state_key_owner k = Ok owner ∧ UserID_is_valid valid_ipv6 owner = true ∧
     (owner = ev_sender e ∨
      ∃ l, get_user_power_level owner auth = Ok l ∧ (l < lvl)%Z)).

Lemma sender_in_room_ok e auth :
  _check_event_sender_in_room e auth = Ok tt ↔ joined auth (ev_sender e).
Proof.
  unfold _check_event_sender_in_room, joined. rewrite check_joined_room_ok.
  setoid_rewrite json_is_str_true. naive_solver.
Qed.

Lemma can_send_event_ok e auth :
  _can_send_event valid_ipv6 e auth = Ok tt ↔
  ∃ sl ul, get_send_level (ev_type e) (ev_state_key e) (get_power_level_event auth) = Ok sl ∧
    get_user_power_level (ev_sender e) auth = Ok ul ∧ (sl ≤ ul)%Z ∧
    (∀ k, ev_state_key e = Some k → owns_state_key e auth ul k).
Proof.
  unfold _can_send_event, get_state_key. split.
  - intros H. inv_ok. do 2 eexists. split; [done|]. split; [done|]. split; [done|].
    intros k Hk Hat. rewrite Hk, Hat in H.
    destruct (String.eqb_spec k (ev_sender e)); [by left|]. right. cbn [negb andb] in H.
    destruct (msc3757_enabled _); [|done]. split; [done|].
    destruct (state_key_owner k) as [o|]; simpl in H; [|done].
    destruct (UserID_is_valid _ o) eqn:Hv; simpl in H; [|done].
    exists o. split; [done|]. split; [done|].
    destruct (String.eqb_spec o (ev_sender e)); [by left|]. right.
    inv_ok. match goal with H : (if (?a <? ?b)%Z then _ else _) = _ |- _ =>
      destruct (Z.ltb_spec a b); [|done] end. eauto.
  - intros (sl & ul & Hs & Hu & Hle & Hown). rewrite Hs, Hu. simpl.
    apply Z.ltb_ge in Hle. rewrite Hle. simpl.
    destruct (ev_state_key e) as [k|]; [|done]. specialize (Hown k eq_refl).
    destruct (startswith "@" k) eqn:Hat; [|done].
    destruct (String.eqb_spec k (ev_sender e)); [done|]. cbn [negb andb].
    destruct (Hown Hat) as [?|(Hm & o & Ho & Hv & Hor)]; [done|].
    rewrite Hm, Ho. simpl. rewrite Hv. simpl.
    destruct (String.eqb_spec o (ev_sender e)); [done|].
    destruct Hor as [?|(l & Hl & Hlt%Z.ltb_lt)]; [done|]. rewrite Hl. simpl. by rewrite Hlt.
Qed.

(** [check_redaction] changes nothing but the re-check mark. *)
Lemma check_redaction_event rv e auth f e' :
  check_redaction rv e auth = Ok (f, e') → e' = e ∨ e' = set_recheck_redaction e.
Proof.
  unfold check_redaction. intros (ul & _ & H)%bind_ok. apply bind_ok in H as (rl & _ & H).
  destruct (_ <=? _)%Z; [left; congruence|].
  destruct (event_format rv); [|right; congruence..].
  left. apply bind_ok in H as (d & _ & H). destruct (redacts e); try congruence.
  apply bind_ok in H as (d' & _ & H). destruct (String.eqb d d'); congruence.
Qed.

(** C19: what an accepted ordinary event implies.  Outside the special cases
    (membership events, third-party invites, and aliases in the first room
    versions) the rules accept an event only when its sender is joined to the
    room, has at least the power level the event type requires, and owns the
    state key if that key starts with a user ID; an accepted event is returned
    unchanged, except for the redaction re-check mark. *)
Theorem accepted_event_sender_entitled e auth e' :
  check_auth_dict valid_ipv6 verify_signed_json e auth = Ok e' →
  ev_type e ∉ [EventTypes.Aliases; EventTypes.Member; EventTypes.ThirdPartyInvite] →
  joined auth (ev_sender e) ∧
  (∃ sl ul, get_send_level (ev_type e) (ev_state_key e) (get_power_level_event auth) = Ok sl ∧
     get_user_power_level (ev_sender e) auth = Ok ul ∧ (sl ≤ ul)%Z ∧
     (∀ k, ev_state_key e = Some k → owns_state_key e auth ul k)) ∧
  (e' = e ∨ ev_type e = EventTypes.Redaction ∧ e' = set_recheck_redaction e).
Proof.
  unfold check_auth_dict. rewrite !not_elem_of_cons. intros H (Ha & Hm & Ht & _).
  apply String.eqb_neq in Ha, Hm, Ht. rewrite Ha, Hm, Ht in H. simpl in H.
  inv_ok. rewrite <- sender_in_room_ok, <- can_send_event_ok. split; [done|]. split; [done|].
  destruct (String.eqb_spec (ev_type e) EventTypes.Redaction) as [Hr|]; [|left; by inv_ok].
  apply bind_ok in H as ([f e1] & Hred & H). assert (e1 = e') as -> by congruence.
  destruct (check_redaction_event _ _ _ _ _ Hred) as [->| ->]; [by left|by right].
Qed.

(** ** Bans *)

(** C20: bans are enforced.  An event sent by a user whose membership in the auth
    events is a ban is accepted only as an aliases event of the first room
    versions, as an invite backed by a verified third-party invite of that user,
    or as the creator's join right after the create event. *)
Theorem ban_enforced e auth e' :
  check_auth_dict valid_ipv6 verify_signed_json e auth = Ok e' →
  banned auth (ev_sender e) →
  (ev_type e = EventTypes.Aliases ∧ special_case_aliases_auth (ev_room_version e) = true) ∨
  (ev_type e = EventTypes.Member ∧ ∃ ms, membership e = Ok ms ∧
     (creator_join (ev_room_version e) e auth ms = Ok true ∨
      (ms = JStr Membership.INVITE ∧ dict_mem (ev_content e) "third_party_invite" = true ∧
       _verify_third_party_invite verify_signed_json e auth = Ok true))).
Proof.
  intros H (m & Hm & Hban). unfold check_auth_dict in H. inv_ok.
  destruct (_ && special_case_aliases_auth _) eqn:Hal; [left; by inv_ok|].
  destruct (String.eqb_spec (ev_type e) EventTypes.Member) as [Hty|Hty]; last first.
  { apply bind_ok in H as (u & Hj & _). destruct u.
    apply sender_in_room_ok in Hj as (m' & Hm' & Hj). simplify_eq; by rewrite Hban in Hj. }
  right. split; [done|]. apply bind_ok in H as ([] & H & _).
  apply membership_change_allowed_iff in H as (ms & Hms & H). exists ms. split; [done|].
  destruct H as [H|(_ & c & Hc & Hs)]; [by left|]. right.
  destruct (membership_context_fields _ _ _ _ _ Hc) as [Hcm _].
  assert (mc_caller_in_room c = false ∧ mc_caller_invited c = false ∧ mc_caller_knocked c = false ∧
          (mc_target c = ev_sender e → mc_target_banned c = true)) as (Hr & Hi & Hk & Hb).
  { assert (∀ x, has_membership (Some m) x = Ok (String.eqb Membership.BAN x)) as Hhas.
    { intros x'. unfold has_membership. by rewrite Hban. }
    clear - Hc Hm Hhas. unfold membership_context in Hc. rewrite Hm, !Hhas in Hc.
    inv_ok. subst c. simpl. split_and!; [done|done| |].
    - by destruct (knock_join_rule _); simplify_eq.
    - intros ->. rewrite Hm, Hhas in *. by simplify_eq. }
  unfold membership_spec in Hs. rewrite Hcm, Hr, Hi, Hk, !json_is_str_true in Hs.
  destruct Hs as [(-> & _ & Hv)|[(_ & Hself & Hnb & _)|[(_ & [(_ & [?|?])|(? & _)])|
    [(_ & ? & _)|(_ & _ & Hself & _ & _ & _ & Hnb)]]]]; try done.
  - destruct (dict_mem _ _); [by split_and!|]. by destruct Hv.
  - by rewrite (Hb Hself) in Hnb.
  - by rewrite (Hb Hself) in Hnb.
Qed.
End Accepted.

(** ** Room creators *)

(** A power level a canonical-JSON integer can express, which is what
    [enforce_int_power_levels] leaves in the content. *)
Definition canonical_level (j : json) : Prop :=
  ∃ z, j = JInt z ∧ (CANONICALJSON_MIN_INT ≤ z ≤ CANONICALJSON_MAX_INT)%Z.

Definition canonical_users (pl : event) : Prop :=
  ∃ users, dict_get_or (ev_content pl) "users" (JDict []) = JDict users ∧
    Forall (λ kv, canonical_level kv.2) users ∧
    canonical_level (dict_get_or (ev_content pl) "users_default" (JInt 0)).

Lemma dict_get_elem {V} (d : list (string * V)) k v : dict_get d k = Some v → (k, v) ∈ d.
Proof.
  induction d as [|[k' v'] d IH]; simpl; [done|].
  destruct (String.eqb_spec k k') as [->|]; [intros [= ->]; left|right; by apply IH].
Qed.

(** Only creators reach [CREATOR_POWER_LEVEL]. *)
Lemma user_power_bounded u auth lvl :
  get_user_power_level u auth = Ok lvl →
  (∀ pl, get_power_level_event auth = Some pl → canonical_users pl) →
  (lvl ≤ CREATOR_POWER_LEVEL)%Z.
Proof.
  unfold get_user_power_level. intros H Hpl. inv_ok.
  destruct x0; [inv_ok; subst; done|].
  destruct (get_power_level_event auth) as [pl|]; last first.
  { inv_ok. subst. by destruct (json_is_str _ _). }
  destruct (Hpl pl eq_refl) as (users & Hu & Hall & z & Hz & Hr).
  rewrite Hu, Hz in H. simpl in H. unfold dict_get_none in H.
  assert (lvl ≤ CANONICALJSON_MAX_INT)%Z as Hle.
  { destruct (dict_get users u) as [v|] eqn:Hv; [|simpl in H; simplify_eq; lia].
    apply dict_get_elem in Hv. rewrite Forall_forall in Hall.
    destruct (Hall _ Hv) as (z' & Hz' & Hr'). simpl in Hz'. subst v. simpl in H. simplify_eq. lia. }
  etrans; [exact Hle|]. done.
Qed.

(** Creators are out of reach.  In a room whose create event grants creators
    their own power level, as long as the power levels event holds canonical
    integers, nobody else can remove a creator: the membership rules refuse
    every ban of a creator and every kick of a creator by another user, also by
    a fellow creator. *)
Theorem creator_not_removable verify_signed_json rv e auth create target ms :
  auth !! CREATE_KEY = Some create →
  msc4289_creator_power_enabled (ev_room_version create) = true →
  is_creator create target = Ok true →
  (∀ pl, get_power_level_event auth = Some pl → canonical_users pl) →
  ev_state_key e = Some target → membership e = Ok ms →
  ms = JStr Membership.BAN ∨ ms = JStr Membership.LEAVE ∧ target ≠ ev_sender e →
  _is_membership_change_allowed verify_signed_json rv e auth ≠ Ok tt.
Proof.
  intros Hcr Hpow Hcreator Hpl Hsk Hms Hrem H.
  apply membership_change_allowed_iff in H as (ms' & Hms' & H). assert (ms' = ms) as -> by congruence.
  assert (json_is_str ms Membership.JOIN = false) as HJ
    by (destruct Hrem as [->|[-> _]]; done).
  assert (creator_join rv e auth ms = Ok false) as Hnj.
  { unfold creator_join. rewrite HJ. by destruct (prev_event_ids e) as [|? []]. }
  destruct H as [H|(_ & c & Hc & Hs)]; [congruence|].
  assert (get_user_power_level target auth = Ok CREATOR_POWER_LEVEL) as Htl.
  { unfold get_user_power_level. rewrite Hcr. simpl. by rewrite Hpow, Hcreator. }
  assert (mc_target c = target ∧ mc_membership c = ms ∧ mc_target_level c = CREATOR_POWER_LEVEL ∧
          (mc_user_level c ≤ CREATOR_POWER_LEVEL)%Z) as (Ht & Hm & Hl & Hu).
  { unfold membership_context, state_key in Hc. rewrite Hsk in Hc. simpl in Hc. inv_ok. subst c. simpl.
    split_and!; [done|done|congruence|]. by eapply user_power_bounded. }
  unfold membership_spec in Hs. rewrite Hm, !json_is_str_true, Ht, Hl in Hs.
  destruct Hs as [(? & _)|[(? & _)|[(? & [(? & _)|(_ & _ & Hk)])|[(_ & _ & _ & ?)|(? & _)]]]];
    [destruct Hrem; naive_solver..| |lia|destruct Hrem; naive_solver].
  destruct Hrem as [?|[_ Hne]]; [by simplify_eq|]. destruct (Hk Hne) as (k & _ & _ & ?). lia.
Qed.

(** ** State-independent rules *)

(** What the rules require of the auth event [i], filed under the key [k]. *)
Definition auth_event_admissible (evs : gmap string event) (rid : string)
    (types : gset StateKey) (i : string) (k : StateKey) : Prop :=
  ∃ a, evs !! i = Some a ∧ room_id a = Ok rid ∧ ev_type a = k.1 ∧
    ev_state_key a = Some k.2 ∧ k ∈ types ∧
    match ev_rejected_reason a with Some r => r = "" | None => True end.

Lemma check_auth_event_ok evs rid types d i d' :
  check_auth_event evs rid types d i = Ok d' ↔
  ∃ k, auth_event_admissible evs rid types i k ∧ d !! k = None ∧ d' = <[k := i]> d.
Proof.
  unfold check_auth_event, auth_event_admissible, state_key. split.
  - intros (a & Ha%of_option_ok & H)%bind_ok. apply bind_ok in H as (r & Hr & H).
    apply bind_ok in H as (? & He%raise_if_ok & H). apply bind_ok in H as (s & Hs%of_option_ok & H).
    apply bind_ok in H as (? & Hdup%raise_if_ok & H). apply bind_ok in H as (? & Hin%raise_if_ok & H).
    apply bind_ok in H as (? & Hrej%raise_if_ok & H).
    apply negb_false_iff, String.eqb_eq in He as ->.
    apply bool_decide_eq_false, eq_None_not_Some in Hdup.
    apply bool_decide_eq_false, dec_stable in Hin.
    exists (ev_type a, s). split; [|split; [done|by injection H]].
    exists a. split_and!; [done..|]. by destruct (ev_rejected_reason a) as [[]|].
  - intros ([t s] & (a & Ha & Hr & Ht & Hs & Hk & Hrej) & Hnone & ->). simpl in *. subst t.
    rewrite Ha. simpl. rewrite Hr. simpl. rewrite String.eqb_refl. simpl. rewrite Hs. simpl.
    rewrite Hnone. simpl.
    rewrite bool_decide_eq_false_2 by naive_solver. simpl.
    by destruct (ev_rejected_reason a) as [[]|].
Qed.

Lemma fold_auth_events_ok evs rid types ids d d' :
  fold_res (check_auth_event evs rid types) ids d = Ok d' ↔
  ∃ keys, Forall2 (auth_event_admissible evs rid types) ids keys ∧ NoDup keys ∧
    (∀ k, k ∈ keys → d !! k = None) ∧ d' = list_to_map (zip keys ids) ∪ d.
Proof.
  revert d. induction ids as [|i ids IH]; intros d; simpl.
  - split.
    + intros [= <-]. exists []. split_and!; [done|apply NoDup_nil_2|set_solver|].
      symmetry. apply (left_id_L ∅ (∪)).
    + intros (keys & H & _ & _ & ->). apply Forall2_nil_inv_l in H as ->.
      f_equal. symmetry. apply (left_id_L ∅ (∪)).
  - rewrite bind_ok. split.
    + intros (d1 & (k & Hk & Hn & ->)%check_auth_event_ok & (keys & HF & Hnd & Hfresh & ->)%IH).
      assert (k ∉ keys) as Hni.
      { intros Hin. specialize (Hfresh k Hin). by rewrite lookup_insert_eq in Hfresh. }
      exists (k :: keys). split_and!; [by constructor|by apply NoDup_cons| |].
      * intros k' [->|Hk']%elem_of_cons; [done|]. specialize (Hfresh k' Hk').
        by rewrite lookup_insert_ne in Hfresh by set_solver.
      * simpl. rewrite <- insert_union_l. symmetry. apply insert_union_r.
        apply not_elem_of_list_to_map_1. intros Hin. apply Hni.
        apply list_elem_of_fmap in Hin as ([k1 i1] & -> & Hin). by apply elem_of_zip_l in Hin.
    + intros (keys & HF & Hnd & Hfresh & ->).
      apply Forall2_cons_inv_l in HF as (k & keys' & Hk & HF & ->).
      apply NoDup_cons in Hnd as [Hni Hnd]. exists (<[k := i]> d). split.
      { apply check_auth_event_ok. exists k. split_and!; [done|apply Hfresh; left|done]. }
      apply IH. exists keys'. split_and!; [done..| |].
      * intros k' Hk'. rewrite lookup_insert_ne by set_solver. apply Hfresh. by right.
      * simpl. rewrite <- insert_union_l. apply insert_union_r.
        apply not_elem_of_list_to_map_1. intros Hin. apply Hni.
        apply list_elem_of_fmap in Hin as ([k1 i1] & -> & Hin). by apply elem_of_zip_l in Hin.
Qed.

(** C21: the state-independent rules accept a non-create event exactly when every
    auth event it names is known, is a state event of the same room that was not
    rejected, sits at a key the selection algorithm allows, no two of them sit
    at the same key, and the create event is among them. *)
Theorem state_independent_rules_iff (valid_ipv6 : string → bool)
    (get_events : list string → gmap string event) (e : event) (batched : gmap string event) :
  ev_type e ≠ EventTypes.Create →
  check_state_independent_auth_rules valid_ipv6 get_events e batched = Ok tt ↔
  ∃ ids rid types keys,
    auth_event_ids e = Ok ids ∧ room_id e = Ok rid ∧
    auth_types_for_event (ev_room_version e) e = Ok types ∧
    Forall2 (auth_event_admissible (fetch_auth_events get_events ids batched) rid types) ids keys ∧
    NoDup keys ∧ ∃ i, (CREATE_KEY, i) ∈ zip keys ids ∧ i ≠ "".
Proof.
  intros Hty%String.eqb_neq. unfold check_state_independent_auth_rules. rewrite Hty.
  rewrite bind_ok.
  assert (∀ keys ids i, NoDup keys → length keys = length ids →
    (CREATE_KEY, i) ∈ zip keys ids ↔
    (list_to_map (zip keys ids) : gmap StateKey string) !! CREATE_KEY = Some i) as Hmap.
  { intros keys ids i Hnd Hlen. apply elem_of_list_to_map. by rewrite fst_zip by lia. }
  split.
  - intros (ids & Hids & (rid & Hrid & (types & Hty' & (d & Hd & H)%bind_ok)%bind_ok)%bind_ok).
    apply fold_auth_events_ok in Hd as (keys & HF & Hnd & _ & ->).
    rewrite (right_id_L ∅ (∪)) in H. apply raise_if_ok_tt in H.
    exists ids, rid, types, keys. split_and!; [done..|].
    destruct (list_to_map _ !! _) as [i|] eqn:Hi; [|done].
    exists i. apply Hmap in Hi; [|done|by apply Forall2_length in HF]. by destruct i.
  - intros (ids & rid & types & keys & Hids & Hrid & Hty' & HF & Hnd & i & Hi & Hne).
    exists ids. split; [done|]. rewrite Hrid. simpl. rewrite Hty'. simpl.
    apply bind_ok. exists (list_to_map (zip keys ids) ∪ ∅). split.
    { apply fold_auth_events_ok. exists keys. split_and!; [done..| |done].
      intros. by apply lookup_empty. }
    rewrite (right_id_L ∅ (∪)). apply Hmap in Hi; [|done|by apply Forall2_length in HF].
    unfold CREATE_KEY in Hi. rewrite Hi. by destruct i.
Qed.

(** ** Size limits *)
Section Sizes.
Context (pdu_json_size : event → Z).

(** Every limited field of [e] has at most 255 units. *)
Definition fields_fit (len : string → nat) (e : event) : Prop :=
  len (ev_sender e) ≤ 255 ∧ (∃ r, room_id e = Ok r ∧ len r ≤ 255) ∧
  (∀ k, ev_state_key e = Some k → len k ≤ 255) ∧
  len (ev_type e) ≤ 255 ∧ len (event_id e) ≤ 255.

Lemma check_field_lengths_ok len unp e :
  check_field_lengths len unp e = Ok tt ↔ fields_fit len e.
Proof.
  unfold check_field_lengths, fields_fit. split.
  - intros (? & Hs%raise_if_ok%Nat.ltb_ge & H)%bind_ok. apply bind_ok in H as (r & Hr & H).
    apply bind_ok in H as (? & Hrl%raise_if_ok%Nat.ltb_ge & H).
    apply bind_ok in H as (? & Hk%raise_if_ok & H).
    apply bind_ok in H as (? & Ht%raise_if_ok%Nat.ltb_ge & Hi%raise_if_ok%Nat.ltb_ge).
    split_and!; [done|by eexists| |done|done].
    intros k Hsk. rewrite Hsk in Hk. by apply Nat.ltb_ge.
  - intros (Hs & (r & Hr & Hrl) & Hk & Ht & Hi).
    apply Nat.ltb_ge in Hs, Hrl, Ht, Hi. rewrite Hs. simpl. rewrite Hr. simpl. rewrite Hrl. simpl.
    rewrite Ht, Hi. destruct (ev_state_key e) as [k|]; [|done].
    specialize (Hk k eq_refl). apply Nat.ltb_ge in Hk. by rewrite Hk.
Qed.

Lemma fields_fit_mono l1 l2 e : (∀ s, l1 s ≤ l2 s) → fields_fit l2 e → fields_fit l1 e.
Proof.
  intros Hle (Hs & (r & Hr & Hrl) & Hk & Ht & Hi). split_and!; [|exists r|intros k Hkk| |];
    try (etrans; [apply Hle|]); eauto. split; [done|]. etrans; [apply Hle|done].
Qed.

Lemma check_field_lengths_unpersistable len unp e m b :
  check_field_lengths len unp e = Raise (EventSizeError m b) → b = unp.
Proof.
  unfold check_field_lengths.
  intros [H%raise_if_raise|(_ & _ & H)]%bind_raise; [congruence|].
  apply bind_raise in H as [H|(r & _ & H)].
  { unfold room_id in H.
    destruct (format_version e), (is_create_event e), (ev_dict_room_id e); by simplify_eq/=. }
  do 3 (apply bind_raise in H as [H%raise_if_raise|(_ & _ & H)]; [congruence|]).
  apply raise_if_raise in H. congruence.
Qed.

(** the size limits.  [_check_size_limits] accepts an event exactly when its
    canonical JSON is at most 65536 bytes and its sender, room ID, state key,
    type and event ID are at most 255 bytes each; and it reports an oversized
    event as persistable only in the room versions with lenient byte limits, for
    an event within the limits counted in code points. *)
Theorem size_limits_iff e :
  (_check_size_limits pdu_json_size e = Ok tt ↔
     (pdu_json_size e ≤ MAX_PDU_SIZE)%Z ∧ fields_fit String.length e) ∧
  (∀ m, _check_size_limits pdu_json_size e = Raise (EventSizeError m false) →
     ev_room_version e ∈ LENIENT_EVENT_BYTE_LIMITS_ROOM_VERSIONS ∧
     (pdu_json_size e ≤ MAX_PDU_SIZE)%Z ∧ fields_fit py_len e).
Proof.
  unfold _check_size_limits.
  destruct (Z.ltb_spec MAX_PDU_SIZE (pdu_json_size e)) as [Hbig|Hfit]; simpl.
  { split; [split; [done|lia]|done]. }
  split.
  - rewrite bind_ok. setoid_rewrite check_field_lengths_ok. split.
    + intros ([] & _ & H). done.
    + intros [_ H]. exists tt. split; [|done]. apply check_field_lengths_ok.
      eapply fields_fit_mono; [|done]. apply py_len_le_bytes.
  - intros m H. destruct (check_field_lengths py_len true e) as [[]|ex] eqn:Hc; simpl in H.
    + apply check_field_lengths_unpersistable in H. apply check_field_lengths_ok in Hc.
      split; [|done]. unfold strict_byte_limits in H. symmetry in H.
      by apply bool_decide_eq_false, dec_stable in H.
    + injection H as ->. by apply check_field_lengths_unpersistable in Hc.
Qed.
End Sizes.
