(* ===== verification/EventAuthExamples.v ===== *)
(** Concrete rooms for the authorization rules: every theorem of
    [EventAuthProps] and [EventAuthSafety] that has hypotheses is applied to one
    of them. *)
From S2P Require Import Prelude RoomVersions Identifiers Events EventAuth.
From S2P Require Import EventAuthProps EventAuthSafety.
Import EventFormatVersions.

(** ** A room of version 10 and one of version 12 *)
Definition ex_event (rv : RoomVersion) (etype sender : string) (sk : option string)
    (content : pydict) (hash : string) (auth : list string) : event :=
  mkEvent rv etype sender sk content (Some "!room:a.org") "" hash [] auth 0
    [("a.org", [("ed25519:1", JStr "sig")])] None false [].

Definition ex_alice : string := "@alice:a.org".
Definition ex_bob : string := "@bob:a.org".
Definition ex_eve : string := "@eve:a.org".

Definition ex_create (rv : RoomVersion) : event :=
  ex_event rv EventTypes.Create ex_alice (Some "")
    [("creator", JStr ex_alice); ("room_version", JStr (identifier rv))] "create" [].

Definition ex_member (rv : RoomVersion) (sender user ms : string) : event :=
  ex_event rv EventTypes.Member sender (Some user) [("membership", JStr ms)]
    ("member" +:+ user) ["$create"].

Definition ex_power_levels (rv : RoomVersion) (sender : string) (users : pydict) (ban : Z) : event :=
  ex_event rv EventTypes.PowerLevels sender (Some "")
    [("users", JDict users); ("ban", JInt ban)] "power" ["$create"; "$member@alice:a.org"].

(** Alice has level 100, Bob 50; Eve is banned. *)
Definition ex_auth_list : list event :=
  let rv := RoomVersions.V10 in
  [ ex_create rv; ex_member rv ex_alice ex_alice "join"; ex_member rv ex_bob ex_bob "join";
    ex_member rv ex_alice ex_eve "ban";
    ex_power_levels rv ex_alice [(ex_alice, JInt 100); (ex_bob, JInt 50)] 50 ].

Definition ex_state_of (l : list event) : StateMap event :=
  list_to_map ((λ e, ((ev_type e, default "" (ev_state_key e)), e)) <$> l).

Definition ex_auth : StateMap event := ex_state_of ex_auth_list.

Definition ex_message (sender : string) : event :=
  ex_event RoomVersions.V10 "m.room.message" sender None [("body", JStr "hi")] "msg"
    ["$create"; "$member@bob:a.org"].

Definition no_ipv6 : string → bool := λ _, false.
Definition no_signature : pydict → string → string → json → result unit :=
  λ _ _ _ _, Raise SignatureVerifyException.

(** Bob demotes himself and raises the level needed to ban up to his own. *)
Definition ex_new_levels : event :=
  ex_power_levels RoomVersions.V10 ex_bob [(ex_alice, JInt 100); (ex_bob, JInt 10)] 40.

(** ** The theorems at work *)
Lemma auth_types_sufficient_witness :
  check_state_dependent_auth_rules no_ipv6 no_signature (ex_message ex_bob) ex_auth_list =
  check_state_dependent_auth_rules no_ipv6 no_signature (ex_message ex_bob)
    (filter (λ e, ev_state_key e ≠ Some ex_eve) ex_auth_list).
Proof.
  eapply (auth_types_sufficient no_ipv6 no_signature (ex_message ex_bob)
    {[ (EventTypes.PowerLevels, ""); (EventTypes.Member, ex_bob); (EventTypes.Create, "") ]}
    ex_auth_list (filter (λ e, ev_state_key e ≠ Some ex_eve) ex_auth_list)
    ex_auth (ex_state_of (filter (λ e, ev_state_key e ≠ Some ex_eve) ex_auth_list))).
  - by_vm.
  - by_vm.
  - by_vm.
  - intros k Hk. rewrite !elem_of_union, !elem_of_singleton in Hk.
    destruct Hk as [[-> | ->] | ->]; by_vm.
  - intros sk H. vm_compute in H. discriminate H.
  - intros _. reflexivity.
Defined.

(** A power levels event with the state key [x]: the rules compare it with the
    power levels under that key, which [auth_types_for_event] does not name. *)
Definition ex_levels_at (hash : string) (users : pydict) : event :=
  ex_event RoomVersions.V10 EventTypes.PowerLevels ex_alice (Some "x") [("users", JDict users)] hash
    ["$create"; "$member@alice:a.org"].

Example power_levels_key_not_selected :
  let e := ex_levels_at "new" [] in
  let old := ex_levels_at "old" [(ex_bob, JInt 200)] in
  auth_types_for_event RoomVersions.V10 e =
    Ok {[ (EventTypes.PowerLevels, ""); (EventTypes.Member, ex_alice); (EventTypes.Create, "") ]} ∧
  is_ok (check_state_dependent_auth_rules no_ipv6 no_signature e ex_auth_list) = true ∧
  is_ok (check_state_dependent_auth_rules no_ipv6 no_signature e (old :: ex_auth_list)) = false.
Proof. split_and!; by_vm. Qed.

Lemma power_levels_no_escalation_witness :
  ∃ o n, level_at (ev_content (ex_power_levels RoomVersions.V10 ex_alice
            [(ex_alice, JInt 100); (ex_bob, JInt 50)] 50)) (Some "users") (JStr ex_bob) = Ok o ∧
    level_at (ev_content ex_new_levels) (Some "users") (JStr ex_bob) = Ok n ∧
    level_change_bounded 50 o n.
Proof.
  destruct (power_levels_no_escalation RoomVersions.V10 ex_new_levels ex_auth
    (ex_power_levels RoomVersions.V10 ex_alice [(ex_alice, JInt 100); (ex_bob, JInt 50)] 50) "" 50
    ltac:(by_vm) ltac:(reflexivity) ltac:(by_vm)
    ltac:(by_vm)) as [_ H].
  destruct (H "users" [(ex_alice, JInt 100); (ex_bob, JInt 50)]
    [(ex_alice, JInt 100); (ex_bob, JInt 10)] ex_bob ltac:(left; reflexivity)
    ltac:(reflexivity) ltac:(reflexivity)) as (o & n & Ho & Hn & Hb & _).
  exists o, n. exact (conj Ho (conj Hn Hb)).
Defined.

Lemma accepted_event_sender_entitled_witness : joined ex_auth ex_bob.
Proof.
  refine (proj1 (accepted_event_sender_entitled no_ipv6 no_signature (ex_message ex_bob) ex_auth
    (ex_message ex_bob) _ _)).
  - by_vm.
  - apply (bool_decide_unpack _). vm_compute. exact I.
Defined.

(** In the first room versions a banned user's aliases event still passes. *)
Definition ex_aliases : event :=
  ex_event RoomVersions.V1 EventTypes.Aliases ex_eve (Some "a.org") [] "aliases" [].

Lemma ban_enforced_witness : banned ex_auth ex_eve ∧ ev_type ex_aliases = EventTypes.Aliases.
Proof.
  assert (banned ex_auth ex_eve) as Hb.
  { exists (ex_member RoomVersions.V10 ex_alice ex_eve "ban"). split; by_vm. }
  split; [exact Hb|].
  destruct (ban_enforced no_ipv6 no_signature ex_aliases ex_auth ex_aliases
    ltac:(by_vm) Hb) as [[H _] | [H _]]; [exact H|].
  vm_compute in H. discriminate H.
Defined.

(** Alice created a version 12 room; Bob, with the highest canonical level, tries
    to ban her. *)
Definition ex_v12_auth : StateMap event :=
  let rv := RoomVersions.V12 in
  ex_state_of
    [ ex_create rv; ex_member rv ex_alice ex_alice "join"; ex_member rv ex_bob ex_bob "join";
      ex_power_levels rv ex_alice [(ex_bob, JInt CANONICALJSON_MAX_INT)] 50 ].

Lemma creator_not_removable_witness :
  _is_membership_change_allowed no_signature RoomVersions.V12
    (ex_member RoomVersions.V12 ex_bob ex_alice "ban") ex_v12_auth ≠ Ok tt.
Proof.
  apply (creator_not_removable no_signature RoomVersions.V12
    (ex_member RoomVersions.V12 ex_bob ex_alice "ban") ex_v12_auth (ex_create RoomVersions.V12)
    ex_alice (JStr "ban")).
  - by_vm.
  - reflexivity.
  - reflexivity.
  - intros pl Hpl. vm_compute in Hpl. injection Hpl as <-.
    exists [(ex_bob, JInt CANONICALJSON_MAX_INT)]. split_and!; [reflexivity| |].
    + repeat constructor. exists CANONICALJSON_MAX_INT. split; [reflexivity|]. vm_compute.
      split; discriminate.
    + exists 0%Z. split; [reflexivity|]. vm_compute. split; discriminate.
  - reflexivity.
  - reflexivity.
  - left. reflexivity.
Defined.

Definition ex_get_events (ids : list string) : gmap string event :=
  list_to_map ((λ e, (event_id e, e)) <$> ex_auth_list).

Lemma state_independent_rules_iff_witness :
  ∃ ids, auth_event_ids (ex_message ex_bob) = Ok ids ∧ ids = ["$create"; "$member@bob:a.org"].
Proof.
  assert (ev_type (ex_message ex_bob) ≠ EventTypes.Create) as Hne by discriminate.
  destruct (proj1 (state_independent_rules_iff no_ipv6 ex_get_events (ex_message ex_bob) ∅ Hne)
    ltac:(by_vm)) as (ids & rid & types & keys & Hids & _).
  exists ids. split; [exact Hids|]. vm_compute in Hids. injection Hids as <-. reflexivity.
Defined.

Lemma size_limits_iff_witness :
  _check_size_limits (λ _, 1000%Z) (ex_message ex_bob) = Ok tt ∧
  fields_fit String.length (ex_message ex_bob).
Proof.
  assert (_check_size_limits (λ _, 1000%Z) (ex_message ex_bob) = Ok tt) as H
    by by_vm.
  split; [exact H|].
  exact (proj2 (proj1 (proj1 (size_limits_iff (λ _, 1000%Z) (ex_message ex_bob))) H)).
Defined.
