(* ===== verification/RedactionAuth.v ===== *)
(** Redaction and authorization: redacting events of the room's state does not
    change which events are authorised.

    [auth_equiv] relates events that agree on everything the authorization rules
    read of them, [state_equiv] states that hold such events under the same
    keys.  Every function of [EventAuth] that looks at the state respects
    [state_equiv], and redaction under the updated rules (room version 11 and
    later) stays inside [auth_equiv]. *)
From S2P Require Import Prelude RoomVersions Identifiers Events Redaction RedactionProps.
From S2P Require Import EventAuth EventAuthExamples.

(** The content fields the rules read of an event in the state.  The
    [notifications] of a power levels event, which redaction drops, are read only
    when another power levels event is checked: [n] says whether they count. *)
Definition read_fields (n : bool) (ty : string) : list string :=
  if String.eqb ty EventTypes.Member then ["membership"]
  else if String.eqb ty EventTypes.Create then
    [EventContentFields.ROOM_CREATOR; EventContentFields.ADDITIONAL_CREATORS;
     EventContentFields.FEDERATE]
  else if String.eqb ty EventTypes.JoinRules then ["join_rule"]
  else if String.eqb ty EventTypes.PowerLevels then
    ["users"; "users_default"; "events"; "events_default"; "state_default"; "ban"; "kick";
     "redact"; "invite"] ++ (if n then ["notifications"] else [])
  else [].

Record auth_equiv (n : bool) (a b : event) : Prop := {
  ae_room_version : ev_room_version a = ev_room_version b;
  ae_type : ev_type a = ev_type b;
  ae_sender : ev_sender a = ev_sender b;
  ae_state_key : ev_state_key a = ev_state_key b;
  ae_event_id : event_id a = event_id b;
  ae_content : ∀ k, k ∈ read_fields n (ev_type a) →
    dict_get (ev_content a) k = dict_get (ev_content b) k
}.

#[export] Instance auth_equiv_refl n : Reflexive (auth_equiv n).
Proof. by intros a. Qed.

(** ** Redaction respects it *)
Lemma prune_event_inv a b :
  prune_event a = Ok b →
  ev_room_version b = ev_room_version a ∧ ev_type b = ev_type a ∧ ev_sender b = ev_sender a ∧
  ev_state_key b = ev_state_key a ∧ event_id b = event_id a ∧
  ev_content b = pruned (ev_room_version a) (JStr (ev_type a)) (ev_content a).
Proof.
  unfold prune_event. rewrite prune_content_dict. cbn [mbind result_bind mapping_of of_option as_mapping].
  intros Heq. apply bind_ok in Heq as (u & _ & Heq). injection Heq as <-. done.
Qed.

Lemma pruned_read_fields rv ty c k :
  updated_redaction_rules rv = true → k ∈ read_fields false ty →
  dict_get (pruned rv (JStr ty) c) k = dict_get c k.
Proof.
  intros Hu Hk.
  assert (Hr : k ≠ "m.relates_to").
  { intros ->. revert Hk. unfold read_fields.
    repeat (destruct (String.eqb _ _)); apply (bool_decide_unpack _); by vm_compute. }
  assert (Hc : dict_get (kept_content rv (JStr ty) c) k = dict_get c k).
  { destruct (keeps_all rv (JStr ty)) eqn:Hall; [unfold kept_content; by rewrite Hall|].
    apply kept_content_get; [done|]. unfold keeps_all in Hall. rewrite Hu, andb_true_r in Hall.
    revert Hk. unfold read_fields, kept_fields. simpl in Hall |- *. rewrite Hall, Hu.
    destruct (String.eqb ty EventTypes.Member); [set_solver|].
    destruct (String.eqb ty EventTypes.JoinRules); [set_solver|].
    destruct (String.eqb ty EventTypes.PowerLevels); [|set_solver]. set_solver. }
  unfold pruned. destruct (msc3389_relation_redactions rv); [|done].
  by rewrite kept_relation_get.
Qed.

(** Redaction drops the [notifications]. *)
Lemma pruned_no_notifications rv ty c :
  ty ≠ EventTypes.Create → dict_get (pruned rv (JStr ty) c) "notifications" = None.
Proof.
  intros Hty. assert (Hall : keeps_all rv (JStr ty) = false).
  { unfold keeps_all. simpl. by destruct (String.eqb_spec ty EventTypes.Create). }
  assert (Hc : dict_get (kept_content rv (JStr ty) c) "notifications" = None).
  { unfold kept_content. rewrite Hall, dict_get_app, dict_get_select, bool_decide_false.
    - destruct (keeps_invite _ _); [|done]. unfold kept_invite. by case_match.
    - unfold kept_fields. simpl. repeat (case_match; [apply (bool_decide_unpack _); by vm_compute|]).
      repeat case_match; apply (bool_decide_unpack _); by vm_compute. }
  unfold pruned. destruct (msc3389_relation_redactions rv); [|done]. by rewrite kept_relation_get.
Qed.

Lemma prune_auth_equiv n a b :
  updated_redaction_rules (ev_room_version a) = true → prune_event a = Ok b →
  (n = true → dict_get (ev_content a) "notifications" = None) → auth_equiv n a b.
Proof.
  intros Hu (Hrv & Hty & Hs & Hsk & Hid & Hc)%prune_event_inv Hn. split; try done.
  intros k Hk. rewrite Hc.
  destruct (decide (k ∈ read_fields false (ev_type a))) as [|Hk']; [by rewrite pruned_read_fields|].
  assert (k = "notifications" ∧ n = true ∧ ev_type a ≠ EventTypes.Create) as (-> & -> & Hne).
  { revert Hk Hk'. unfold read_fields. destruct (String.eqb _ _); [done|].
    destruct (String.eqb_spec (ev_type a) EventTypes.Create); [done|].
    destruct (String.eqb _ _); [done|]. destruct (String.eqb _ _); [|done].
    destruct n; set_solver. }
  by rewrite pruned_no_notifications, Hn.
Qed.

(** ** States *)
Definition state_equiv (n : bool) (A B : StateMap event) : Prop :=
  ∀ k, match A !! k, B !! k with
       | Some a, Some b => auth_equiv n a b ∧ ev_type a = k.1
       | None, None => True
       | _, _ => False
       end.

Lemma auth_dict_equiv n l l' :
  Forall2 (auth_equiv n) l l' →
  match auth_dict_of l, auth_dict_of l' with
  | Ok A, Ok B => state_equiv n A B
  | Raise e, Raise e' => e = e'
  | _, _ => False
  end.
Proof.
  intros Hl. unfold auth_dict_of.
  assert (Hemp : state_equiv n ∅ ∅) by (intros k; by rewrite lookup_empty).
  revert Hemp. generalize (∅ : StateMap event) at 1 3 as A. generalize (∅ : StateMap event) as B.
  induction Hl as [|a b l l' Hab Hl IH]; intros B A HAB; simpl; [done|].
  unfold state_key. rewrite <- (ae_state_key _ _ _ Hab), <- (ae_type _ _ _ Hab).
  destruct (ev_state_key a) as [sk|]; simpl; [|done]. apply IH.
  intros k. destruct (decide ((ev_type a, sk) = k)) as [<-|Hne].
  - by rewrite !lookup_insert_eq.
  - rewrite !lookup_insert_ne by done. apply HAB.
Qed.

Lemma state_equiv_lookup n A B k :
  state_equiv n A B →
  (A !! k = None ∧ B !! k = None) ∨
  ∃ a b, A !! k = Some a ∧ B !! k = Some b ∧ auth_equiv n a b ∧ ev_type a = k.1.
Proof.
  intros HAB. specialize (HAB k).
  destruct (A !! k) as [a|], (B !! k) as [b|]; try done; [|by left]. right. naive_solver.
Qed.

(** Look the same key up in both states, and read fields of what is found. *)
Ltac look_up key a b Hab Hty :=
  match goal with
  | HAB : state_equiv _ _ _ |- _ =>
      destruct (state_equiv_lookup _ _ _ key HAB) as [[-> ->]|(a & b & -> & -> & Hab & Hty)]
  end.
Ltac read_same Hab Hty :=
  unfold dict_get_or, dict_get_none, dict_index;
  rewrite ?(ae_content _ _ _ Hab) by (rewrite Hty; simpl; set_solver).

Section Readers.
Context (n : bool) (A B : StateMap event) (HAB : state_equiv n A B).

Lemma is_creator_equiv a b u :
  auth_equiv n a b → ev_type a = EventTypes.Create → is_creator a u = is_creator b u.
Proof.
  intros Hab Hty. unfold is_creator. read_same Hab Hty.
  by rewrite (ae_type _ _ _ Hab), (ae_sender _ _ _ Hab), (ae_room_version _ _ _ Hab).
Qed.

Lemma get_user_power_level_equiv u : get_user_power_level u A = get_user_power_level u B.
Proof.
  unfold get_user_power_level, CREATE_KEY, get_power_level_event.
  look_up (EventTypes.Create, "") a b Hab Hty; [done|].
  simpl. rewrite <- (ae_room_version _ _ _ Hab), (is_creator_equiv _ _ u Hab Hty).
  destruct (if msc4289_creator_power_enabled _ then _ else _) as [[]|]; simpl; try done.
  look_up (EventTypes.PowerLevels, "") p q Hpq Hpt.
  - rewrite (ae_sender _ _ _ Hab). by read_same Hab Hty.
  - by read_same Hpq Hpt.
Qed.

Lemma get_named_level_equiv name d :
  name ∈ read_fields n EventTypes.PowerLevels → get_named_level A name d = get_named_level B name d.
Proof.
  intros Hn. unfold get_named_level, get_power_level_event.
  look_up (EventTypes.PowerLevels, "") p q Hpq Hpt; [done|].
  unfold dict_get_none. by rewrite (ae_content _ _ _ Hpq) by (by rewrite Hpt).
Qed.

Lemma get_send_level_equiv ty sk :
  get_send_level ty sk (get_power_level_event A) = get_send_level ty sk (get_power_level_event B).
Proof.
  unfold get_send_level, get_power_level_event.
  look_up (EventTypes.PowerLevels, "") p q Hpq Hpt; [done|].
  by read_same Hpq Hpt.
Qed.

Lemma can_federate_equiv : _can_federate A = _can_federate B.
Proof.
  unfold _can_federate.
  look_up (EventTypes.Create, "") a b Hab Hty; [done|].
  by read_same Hab Hty.
Qed.

Lemma membership_equiv a b :
  auth_equiv n a b → ev_type a = EventTypes.Member → membership a = membership b.
Proof.
  intros Hab Hty. unfold membership. by read_same Hab Hty.
Qed.

Lemma has_membership_equiv u m :
  has_membership (A !! (EventTypes.Member, u)) m = has_membership (B !! (EventTypes.Member, u)) m.
Proof.
  look_up (EventTypes.Member, u) a b Hab Hty; [done|]. simpl.
  by rewrite (membership_equiv _ _ Hab Hty).
Qed.

Lemma check_joined_room_equiv u :
  _check_joined_room (A !! (EventTypes.Member, u)) = _check_joined_room (B !! (EventTypes.Member, u)).
Proof.
  look_up (EventTypes.Member, u) a b Hab Hty; [done|]. simpl.
  by rewrite (membership_equiv _ _ Hab Hty).
Qed.

Lemma creator_join_equiv rv e ms : creator_join rv e A ms = creator_join rv e B ms.
Proof.
  unfold creator_join.
  look_up (EventTypes.Create, "") a b Hab Hty; [done|].
  read_same Hab Hty. by rewrite (ae_event_id _ _ _ Hab), (ae_sender _ _ _ Hab).
Qed.

Lemma membership_context_equiv rv e ms :
  membership_context rv e A ms = membership_context rv e B ms.
Proof.
  unfold membership_context. rewrite can_federate_equiv.
  destruct (state_key e) as [tgt|]; simpl; [|done].
  rewrite !has_membership_equiv, !get_user_power_level_equiv.
  rewrite !get_named_level_equiv by (simpl; set_solver).
  look_up (EventTypes.JoinRules, "") j j' Hj Hjt;
    (look_up (EventTypes.Create, "") a b Hab Hty; [done|]);
    simpl; rewrite (ae_sender _ _ _ Hab); [done|].
  by read_same Hj Hjt.
Qed.

Lemma check_restricted_join_equiv e c :
  check_restricted_join e A c = check_restricted_join e B c.
Proof.
  unfold check_restricted_join. destruct (_ && _); [|done].
  destruct (dict_get_none _ _) as [[| | | |u| |]|]; simpl; try done.
  by rewrite check_joined_room_equiv, get_user_power_level_equiv.
Qed.

Lemma membership_rules_equiv verify rv e c :
  dict_mem (ev_content e) "third_party_invite" = false →
  membership_rules verify rv e A c = membership_rules verify rv e B c.
Proof.
  intros Ht. unfold membership_rules, check_join, check_leave. rewrite Ht, andb_false_r.
  rewrite check_restricted_join_equiv, get_named_level_equiv by (simpl; set_solver). done.
Qed.

Lemma is_membership_change_allowed_equiv verify rv e :
  dict_mem (ev_content e) "third_party_invite" = false →
  _is_membership_change_allowed verify rv e A = _is_membership_change_allowed verify rv e B.
Proof.
  intros Ht. unfold _is_membership_change_allowed. destruct (membership e) as [ms|]; simpl; [|done].
  rewrite creator_join_equiv. destruct (creator_join _ _ _ _) as [[]|]; simpl; try done.
  rewrite membership_context_equiv. destruct (membership_context _ _ _ _); simpl; [|done].
  by apply membership_rules_equiv.
Qed.

Lemma can_send_event_equiv v6 e : _can_send_event v6 e A = _can_send_event v6 e B.
Proof.
  unfold _can_send_event. rewrite get_send_level_equiv, get_user_power_level_equiv.
  destruct (get_send_level _ _ _); simpl; [|done].
  destruct (get_user_power_level _ _); simpl; [|done].
  destruct (raise_if _ _); simpl; [|done].
  destruct (get_state_key e); [|done]. destruct (_ && _); [|done].
  destruct (msc3757_enabled _); [|done].
  destruct (try_except _ _); simpl; [|done]. by rewrite get_user_power_level_equiv.
Qed.

Lemma check_redaction_equiv rv e : check_redaction rv e A = check_redaction rv e B.
Proof.
  unfold check_redaction. rewrite get_user_power_level_equiv.
  by rewrite get_named_level_equiv by (simpl; set_solver).
Qed.

(** *** Power levels events *)
Lemma for_each_ext {T} (f g : T → result unit) l :
  (∀ x, x ∈ l → f x = g x) → for_each f l = for_each g l.
Proof.
  induction l as [|x l IH]; intros Hfg; simpl; [done|].
  rewrite Hfg, IH by set_solver. done.
Qed.

(** The places [_check_power_levels] compares levels at. *)
Definition level_place (entry : json * option string) : Prop :=
  match entry with
  | (JStr k, None) => k ∈ int_level_keys
  | (_, Some d) => d ∈ int_map_keys
  | _ => False
  end.

Lemma levels_in_places dir o o' l :
  dir ∈ int_map_keys → levels_in dir o o' = Ok l → Forall level_place l.
Proof.
  intros Hd Heq. unfold levels_in in Heq. apply bind_ok in Heq as (x & _ & Heq).
  apply bind_ok in Heq as (y & _ & Heq). apply bind_ok in Heq as (z & _ & [= <-]).
  apply Forall_forall. intros e (k & -> & _)%list_elem_of_fmap. by destruct k.
Qed.

Lemma levels_to_check_places rv c c' u l : levels_to_check rv c c' u = Ok l → Forall level_place l.
Proof.
  unfold levels_to_check. intros Heq. apply bind_ok in Heq as (x & Hx & Heq).
  apply bind_ok in Heq as (y & Hy & Heq). apply bind_ok in Heq as (z & Hz & [= <-]).
  apply levels_in_places in Hx; [|set_solver]. apply levels_in_places in Hy; [|set_solver].
  assert (Forall level_place z).
  { destruct (limit_notifications_power_levels rv); [|by injection Hz as <-].
    apply levels_in_places in Hz; [done|set_solver]. }
  repeat (constructor; [unfold level_place, int_level_keys; set_solver|]).
  by rewrite !Forall_app.
Qed.

Lemma check_level_equiv a b u ul c' entry :
  auth_equiv true a b → ev_type a = EventTypes.PowerLevels → level_place entry →
  check_level u ul (ev_content a) c' entry = check_level u ul (ev_content b) c' entry.
Proof.
  intros Hab Hty Hp. destruct entry as [key dir]. unfold check_level.
  assert (Hl : level_at (ev_content a) dir key = level_at (ev_content b) dir key).
  { unfold level_at. destruct dir as [d|].
    - unfold dict_get_or. rewrite (ae_content _ _ _ Hab); [done|]. rewrite Hty. simpl.
      unfold level_place, int_map_keys in Hp. destruct key; set_solver.
    - destruct key as [| | | |k| |]; try done. simpl. unfold dict_mem, dict_index.
      rewrite (ae_content _ _ _ Hab); [done|]. rewrite Hty. simpl.
      unfold level_place, int_level_keys in Hp. set_solver. }
  by rewrite Hl.
Qed.

Lemma check_power_levels_equiv rv e :
  n = true → ev_type e = EventTypes.PowerLevels →
  _check_power_levels rv e A = _check_power_levels rv e B.
Proof.
  intros Hn Hpl. unfold _check_power_levels. rewrite Hpl.
  assert (Hc : ∀ ul, check_creators_not_listed A ul = check_creators_not_listed B ul).
  { intros ul. unfold check_creators_not_listed.
    look_up (EventTypes.Create, "") a b Hab Hty; [done|].
    rewrite (ae_sender _ _ _ Hab). by read_same Hab Hty. }
  destruct (mapping_of _) as [ul|]; cbn [mbind result_bind]; [|done].
  destruct (check_power_level_users ul); cbn [mbind result_bind]; [|done].
  rewrite Hc. destruct (if msc4289_creator_power_enabled rv then _ else _);
    cbn [mbind result_bind]; [|done].
  destruct (if _ && enforce_int_power_levels rv then _ else _); cbn [mbind result_bind]; [|done].
  destruct (state_key e) as [sk|]; cbn [mbind result_bind]; [|done].
  look_up (EventTypes.PowerLevels, sk) p q Hpq Hpt; [done|]. rewrite Hn in Hpq.
  rewrite get_user_power_level_equiv.
  destruct (get_user_power_level _ _) as [level|]; cbn [mbind result_bind]; [|done].
  assert (Hl : levels_to_check rv (ev_content p) (ev_content e) ul =
               levels_to_check rv (ev_content q) (ev_content e) ul).
  { unfold levels_to_check. by read_same Hpq Hpt. }
  rewrite Hl. clear Hl. destruct (levels_to_check rv (ev_content q) (ev_content e) ul) as [l|] eqn:El;
    cbn [mbind result_bind]; [|done].
  apply for_each_ext. intros entry Hin. apply check_level_equiv; [done|done|].
  apply levels_to_check_places in El. rewrite Forall_forall in El. auto.
Qed.

Lemma check_auth_dict_equiv v6 verify e :
  (ev_type e = EventTypes.PowerLevels → n = true) →
  dict_mem (ev_content e) "third_party_invite" = false ∨ ev_type e ≠ EventTypes.Member →
  check_auth_dict v6 verify e A = check_auth_dict v6 verify e B.
Proof.
  intros Hpl Htp. unfold check_auth_dict, CREATE_KEY.
  look_up (EventTypes.Create, "") a b Hab Hty; [done|].
  simpl. rewrite (ae_sender _ _ _ Hab), can_federate_equiv.
  destruct (get_domain_from_id (ev_sender b)); simpl; [|done].
  destruct (get_domain_from_id (ev_sender e)); simpl; [|done].
  destruct (raise_if _ _); simpl; [|done].
  destruct (_ && _); [done|].
  destruct (String.eqb_spec (ev_type e) EventTypes.Member) as [Hm|Hm].
  { destruct Htp as [Htp|]; [|done]. by rewrite is_membership_change_allowed_equiv. }
  unfold _check_event_sender_in_room. rewrite check_joined_room_equiv.
  destruct (_check_joined_room _); simpl; [|done].
  rewrite get_user_power_level_equiv, get_named_level_equiv by (simpl; set_solver).
  rewrite can_send_event_equiv, check_redaction_equiv.
  destruct (String.eqb_spec (ev_type e) EventTypes.PowerLevels) as [Hp|]; [|done].
  by rewrite check_power_levels_equiv by auto.
Qed.
End Readers.

(** C18: Redaction does not change authorization.  Under the updated redaction
    rules, redacting any of the auth events of an event leaves the verdict of the
    state-dependent rules on it as it was: the same event accepted, or the same
    exception.  Left out are third-party invites, whose keys redaction is meant
    to revoke, and the power levels of notifications, which redaction drops. *)
Theorem redaction_preserves_authorization v6 verify (e : event) (auth auth' : list event) :
  Forall2 (λ a a', a' = a ∨ prune_event a = Ok a') auth auth' →
  Forall (λ a, updated_redaction_rules (ev_room_version a) = true) auth →
  (ev_type e = EventTypes.PowerLevels →
   Forall (λ a, dict_get (ev_content a) "notifications" = None) auth) →
  (ev_type e = EventTypes.Member → dict_mem (ev_content e) "third_party_invite" = false) →
  check_state_dependent_auth_rules v6 verify e auth' = check_state_dependent_auth_rules v6 verify e auth.
Proof.
  intros Hpr Hu Hn Htp. unfold check_state_dependent_auth_rules.
  destruct (String.eqb (ev_type e) EventTypes.Create); [done|].
  set (n := String.eqb (ev_type e) EventTypes.PowerLevels).
  assert (Heq : Forall2 (auth_equiv n) auth auth').
  { assert (Hn' : n = true → Forall (λ a, dict_get (ev_content a) "notifications" = None) auth)
      by (intros ?%String.eqb_eq; auto).
    clear Hn. induction Hpr as [|a a' l l' [->|Ha] Hpr IH]; constructor;
      inversion Hu; subst; try (apply IH; [done|intros Ht; specialize (Hn' Ht); by inversion Hn']);
      [done|].
    apply prune_auth_equiv; [done|done|]. intros Ht. specialize (Hn' Ht). by inversion Hn'. }
  pose proof (auth_dict_equiv _ _ _ Heq) as Hd.
  destruct (auth_dict_of auth), (auth_dict_of auth'); simpl; try done; [|congruence].
  symmetry. apply (check_auth_dict_equiv n); [done| |].
  - intros Hp. by apply String.eqb_eq.
  - destruct (decide (ev_type e = EventTypes.Member)); auto.
Qed.

(** ** Examples *)
Definition redacted (a : event) : event := match prune_event a with Ok b => b | Raise _ => a end.

Definition ex_redaction_auth (rv : RoomVersion) : list event :=
  [ ex_event rv EventTypes.Create ex_alice (Some "")
      [("creator", JStr ex_alice); ("m.federate", JBool false)] "create" [];
    ex_event rv EventTypes.Member ex_bob (Some ex_bob)
      [("membership", JStr "join"); ("displayname", JStr "Bob")] "bob" ["$create"];
    ex_power_levels rv ex_alice [(ex_alice, JInt 100)] 50 ].

Lemma redaction_preserves_authorization_witness :
  (ev_content <$> (redacted <$> ex_redaction_auth RoomVersions.V11) !! 1) =
    Some [("membership", JStr "join")] ∧
  check_state_dependent_auth_rules no_ipv6 no_signature (ex_message ex_bob)
    (redacted <$> ex_redaction_auth RoomVersions.V11) =
  check_state_dependent_auth_rules no_ipv6 no_signature (ex_message ex_bob)
    (ex_redaction_auth RoomVersions.V11).
Proof.
  split; [by_vm|]. apply redaction_preserves_authorization.
  - repeat constructor; right; by_vm.
  - repeat constructor; by_vm.
  - intros H. vm_compute in H. discriminate H.
  - intros H. vm_compute in H. discriminate H.
Defined.

Lemma prune_event_dict_correct_witness :
  ∃ d', prune_event_dict RoomVersions.V11
    [("type", JStr "m.room.message"); ("content", JDict [("body", JStr "hi")]);
     ("unsigned", JDict [("age_ts", JInt 5)]); ("redacts", JStr "$x")] = Ok d' ∧
    dict_get d' "content" = Some (JDict []) ∧ dict_get d' "redacts" = None ∧
    prune_event_dict RoomVersions.V11 d' = Ok d'.
Proof.
  destruct (prune_event_dict_correct RoomVersions.V11
    [("type", JStr "m.room.message"); ("content", JDict [("body", JStr "hi")]);
     ("unsigned", JDict [("age_ts", JInt 5)]); ("redacts", JStr "$x")]
    (JStr "m.room.message") [("body", JStr "hi")] [("age_ts", JInt 5)])
    as (d' & Hd & Hk & Hc & _ & Hi & _); [by_vm|by_vm|by_vm|].
  exists d'. split_and!; [exact Hd|exact Hc|exact (Hk "redacts" ltac:(discriminate) ltac:(discriminate))|exact Hi].
Defined.

(** The hypothesis on the redaction rules is needed: before room version 11
    redaction drops [m.federate] from the create event, and a room that was
    closed to other servers is open to them. *)
Definition ex_foreign_join (rv : RoomVersion) : event :=
  ex_event rv EventTypes.Member "@zoe:z.org" (Some "@zoe:z.org")
    [("membership", JStr "leave")] "zoe" ["$create"].

Lemma old_redaction_opens_room :
  let auth := ex_event RoomVersions.V10 EventTypes.Member "@zoe:z.org" (Some "@zoe:z.org")
                [("membership", JStr "invite")] "inv" ["$create"] ::
              ex_redaction_auth RoomVersions.V10 in
  is_ok (check_state_dependent_auth_rules no_ipv6 no_signature
           (ex_foreign_join RoomVersions.V10) auth) = false ∧
  is_ok (check_state_dependent_auth_rules no_ipv6 no_signature
           (ex_foreign_join RoomVersions.V10) (redacted <$> auth)) = true.
Proof. split; by_vm. Qed.
