(* ===== verification/StateFilter.v ===== *)
(** State filters: [textrp_briij/types/state.py].

    A filter maps event types to the state keys wanted of that type ([None]: all
    of them), plus a flag for the types that are not listed.  The dictionary is a
    [gmap] and the [frozenset]s are [gset]s; where the source iterates over them
    (in no order a caller may rely on) the model iterates over [map_to_list] and
    [elements]. *)
From S2P Require Import Prelude Events.

Abbreviation StateKey := (string * string)%type.
Abbreviation type_map := (gmap string (option (gset string))).

Record StateFilter := mkStateFilter {
  types : type_map;
  include_others : bool
}.

#[export] Instance StateFilter_eq_dec : EqDecision StateFilter.
Proof. solve_decision. Defined.

(** [v is None or v] *)
Definition non_empty_entry (v : option (gset string)) : bool :=
  match v with None => true | Some s => bool_decide (s ≠ ∅) end.

Definition is_wildcard (v : option (gset string)) : bool :=
  match v with None => true | Some _ => false end.

(** [__attrs_post_init__]: the constructor canonicalises the dictionary. *)
Definition StateFilter_init (ts : type_map) (inc : bool) : StateFilter :=
  mkStateFilter
    (if inc then filter (λ kv, is_wildcard kv.2 = false) ts
     else filter (λ kv, non_empty_entry kv.2 = true) ts) inc.

Definition _ALL_STATE_FILTER : StateFilter := StateFilter_init ∅ true.
Definition _NONE_STATE_FILTER : StateFilter := StateFilter_init ∅ false.
Definition _ALL_NON_MEMBER_STATE_FILTER : StateFilter :=
  StateFilter_init {[ EventTypes.Member := Some ∅ ]} true.

(** [key in filter] *)
Definition contains (f : StateFilter) (k : StateKey) : bool :=
  match types f !! k.1 with
  | Some None => true
  | Some (Some state_keys) => bool_decide (k.2 ∈ state_keys)
  | None => include_others f
  end.

Definition filter_bool (f : StateFilter) : bool :=
  include_others f || bool_decide (types f ≠ ∅).

(** ** Construction *)

(** One step of the loop of [from_types]. *)
Definition add_type (type_dict : type_map) (ts : string * option string) : type_map :=
  let '(typ, s) := ts in
  match type_dict !! typ, s with
  | Some None, _ => type_dict
  | _, None => <[typ := None]> type_dict
  | Some (Some keys), Some k => <[typ := Some ({[k]} ∪ keys)]> type_dict
  | None, Some k => <[typ := Some {[k]}]> type_dict
  end.

Definition from_types (ts : list (string * option string)) : StateFilter :=
  StateFilter_init (foldl add_type ∅ ts) false.

Definition to_types (f : StateFilter) : list (string * option string) :=
  '(event_type, state_keys) ← map_to_list (types f);
  match state_keys with
  | None => [(event_type, None)]
  | Some ks => (λ k, (event_type, Some k)) <$> elements ks
  end.

Definition from_lazy_load_member_list (members : list string) : StateFilter :=
  StateFilter_init {[ EventTypes.Member := Some (list_to_set members) ]} true.

Definition freeze (ts : type_map) (inc : bool) : StateFilter := StateFilter_init ts inc.

(** ** Queries *)
Definition is_full (f : StateFilter) : bool :=
  include_others f && bool_decide (types f = ∅).

Definition has_wildcards (f : StateFilter) : bool :=
  include_others f || existsb (λ kv, is_wildcard kv.2) (map_to_list (types f)).

Definition concrete_types (f : StateFilter) : list StateKey :=
  '(t, state_keys) ← map_to_list (types f);
  match state_keys with
  | None => []
  | Some ks => (λ s, (t, s)) <$> elements ks
  end.

Definition wildcard_types (f : StateFilter) : list string :=
  (filter (λ kv, is_wildcard kv.2 = true) (map_to_list (types f))).*1.

Definition max_entries_returned (f : StateFilter) : option nat :=
  if has_wildcards f then None else Some (length (concrete_types f)).

Definition filter_state {T} (f : StateFilter) (state_dict : gmap StateKey T) : gmap StateKey T :=
  if is_full f then state_dict
  else filter (λ kv,
    match types f !! kv.1.1 with
    | Some None => true
    | Some (Some state_keys) => bool_decide (kv.1.2 ∈ state_keys)
    | None => include_others f
    end = true) state_dict.

Definition must_await_full_state (is_mine_id : string → bool) (f : StateFilter) : bool :=
  match types f !! EventTypes.Member with
  | None => include_others f
  | Some None => true
  | Some (Some member_state_keys) =>
      existsb (λ k, negb (is_mine_id k)) (elements member_state_keys)
  end.

(** ** Splitting and widening *)
Definition return_expanded (f : StateFilter) : StateFilter :=
  if is_full f then f
  else if negb (has_wildcards f) then f
  else
    let get_all_members :=
      match types f !! EventTypes.Member with
      | Some v => is_wildcard v
      | None => include_others f
      end in
    let has_non_member_wildcard :=
      include_others f ||
      existsb (λ kv, negb (String.eqb kv.1 EventTypes.Member) && is_wildcard kv.2)
        (map_to_list (types f)) in
    if negb has_non_member_wildcard then f
    else if get_all_members then _ALL_STATE_FILTER
    else match types f !! EventTypes.Member with
         | Some v => StateFilter_init {[ EventTypes.Member := v ]} true
         | None => _ALL_NON_MEMBER_STATE_FILTER
         end.

Definition get_member_split (f : StateFilter) : StateFilter * StateFilter :=
  let member_filter :=
    match types f !! EventTypes.Member with
    | Some None => _ALL_STATE_FILTER
    | Some (Some state_keys) => StateFilter_init {[ EventTypes.Member := Some state_keys ]} false
    | None => if include_others f then _ALL_STATE_FILTER else _NONE_STATE_FILTER
    end in
  let non_member_filter :=
    StateFilter_init (filter (λ kv, kv.1 ≠ EventTypes.Member) (types f)) (include_others f) in
  (member_filter, non_member_filter).

(** ** Differences *)
Definition four_parts : Type :=
  (bool * gset string) * (gset string * gset StateKey).

Definition _decompose_into_four_parts (f : StateFilter) : four_parts :=
  let is_all := include_others f in
  let excluded_types : gset string := if is_all then dom (types f) else ∅ in
  let wildcards : gset string := list_to_set (wildcard_types f) in
  let concrete_keys : gset StateKey := list_to_set (concrete_types f) in
  ((is_all, excluded_types), (wildcards, concrete_keys)).

(** One step of the loop that inserts the specific state keys. *)
Definition add_state_key (all_part : bool) (new_types : type_map) (k : StateKey) : type_map :=
  match new_types !! k.1 with
  | Some (Some entry) => <[k.1 := Some ({[k.2]} ∪ entry)]> new_types
  | Some None => new_types
  | None => if all_part then new_types else <[k.1 := Some {[k.2]}]> new_types
  end.

Definition _recompose_from_four_parts (p : four_parts) : StateFilter :=
  let '((all_part, minus_wildcards), (plus_wildcards, plus_state_keys)) := p in
  let excluded : type_map := if all_part then gset_to_gmap (Some ∅) minus_wildcards else ∅ in
  let new_types : type_map := gset_to_gmap None plus_wildcards ∪ excluded in
  freeze (foldl (add_state_key all_part) new_types (elements plus_state_keys)) all_part.

(** The four parts of [self - other]. *)
Definition difference_parts (p q : four_parts) : four_parts :=
  let '((self_all, self_excludes), (self_wildcards, self_concrete_keys)) := p in
  let '((other_all, other_excludes), (other_wildcards, other_concrete_keys)) := q in
  let new_excludes := self_excludes ∪ other_wildcards in
  let new_wildcards := self_wildcards ∖ other_wildcards in
  let new_concrete_keys :=
    filter (λ k : StateKey, k.1 ∉ other_wildcards) self_concrete_keys ∖ other_concrete_keys in
  if other_all then
    let new_wildcards :=
      if self_all then new_wildcards ∪ (other_excludes ∖ self_excludes) else new_wildcards in
    ((false, ∅),
     (new_wildcards ∩ other_excludes,
      filter (λ k : StateKey, k.1 ∈ other_excludes) new_concrete_keys))
  else ((self_all, new_excludes), (new_wildcards, new_concrete_keys)).

Definition approx_difference (self other : StateFilter) : StateFilter :=
  _recompose_from_four_parts
    (difference_parts (_decompose_into_four_parts self) (_decompose_into_four_parts other)).

(** ** SQL *)

(** The conditions [make_sql_filter_clause] joins with [OR]; [render] is the SQL
    text and the bound arguments of each. *)
Inductive sql_clause :=
  | TypeIs (etype : string)
  | TypeAndKeyAre (etype state_key : string)
  | TypeNotIn (etypes : list string).

Definition render (c : sql_clause) : string * list string :=
  match c with
  | TypeIs t => ("(type = ?)", [t])
  | TypeAndKeyAre t k => ("(type = ? AND state_key = ?)", [t; k])
  | TypeNotIn ts =>
      ("type NOT IN (" +:+ String.concat "," (replicate (length ts) "?") +:+ ")", ts)
  end.

Definition sql_clauses (f : StateFilter) : list sql_clause :=
  ('(etype, state_keys) ← map_to_list (types f);
   match state_keys with
   | None => [TypeIs etype]
   | Some ks => TypeAndKeyAre etype <$> elements ks
   end) ++
  (if include_others f then [TypeNotIn (map_to_list (types f)).*1] else []).

Definition make_sql_filter_clause (f : StateFilter) : string * list string :=
  if is_full f then ("", [])
  else if negb (include_others f) && bool_decide (types f = ∅) then ("1 = 2", [])
  else
    let rendered := render <$> sql_clauses f in
    (String.concat " OR " rendered.*1, concat rendered.*2).
