(* ===== verification/StateFilterProps.v ===== *)
(** Correctness of the state filters of [StateFilter]. *)
From S2P Require Import Prelude Events StateFilter.
From Stdlib Require Import Ascii.

(** ** Canonical filters

    What [__attrs_post_init__] establishes, and so what every filter the code
    builds satisfies. *)
Definition canonical (f : StateFilter) : Prop :=
  ∀ t v, types f !! t = Some v → if include_others f then v ≠ None else v ≠ Some ∅.

Lemma init_lookup ts inc t :
  types (StateFilter_init ts inc) !! t =
  v ← ts !! t; if (if inc then negb (is_wildcard v) else non_empty_entry v) then Some v else None.
Proof.
  unfold StateFilter_init. destruct inc; simpl; rewrite map_lookup_filter;
    destruct (ts !! t) as [v|]; simpl; try done;
    [destruct (is_wildcard v)|destruct (non_empty_entry v)]; done.
Qed.

Lemma init_canonical ts inc : canonical (StateFilter_init ts inc).
Proof.
  intros t v. rewrite init_lookup. simpl. destruct (ts !! t) as [w|]; simpl; [|done].
  destruct inc; simpl; destruct w as [s|]; simpl; intros; simplify_eq; try done.
  case_bool_decide; naive_solver.
Qed.
#[export] Hint Resolve init_canonical : core.

(** Canonicalising does not change what the filter matches. *)
Lemma contains_init ts inc k :
  contains (StateFilter_init ts inc) k = contains (mkStateFilter ts inc) k.
Proof.
  unfold contains. rewrite init_lookup. simpl. destruct (ts !! k.1) as [[s|]|]; simpl; [|by destruct inc|done].
  destruct inc; simpl; [done|]. case_bool_decide as Hs; [done|].
  subst s. by rewrite bool_decide_eq_false_2 by set_solver.
Qed.

Lemma contains_all k : contains _ALL_STATE_FILTER k = true.
Proof. done. Qed.
Lemma contains_none k : contains _NONE_STATE_FILTER k = false.
Proof. done. Qed.

Lemma contains_all_non_member k :
  contains _ALL_NON_MEMBER_STATE_FILTER k = negb (String.eqb k.1 EventTypes.Member).
Proof.
  unfold _ALL_NON_MEMBER_STATE_FILTER. rewrite contains_init. unfold contains. simpl.
  destruct (String.eqb_spec k.1 EventTypes.Member) as [->|Hne]; simpl.
  - by rewrite lookup_singleton_eq.
  - by rewrite lookup_singleton_ne by done.
Qed.

Lemma is_full_contains f k : is_full f = true → contains f k = true.
Proof.
  unfold is_full, contains. intros [Hi Ht%bool_decide_eq_true]%andb_true_iff.
  by rewrite Ht, lookup_empty.
Qed.

(** ** Iteration over the dictionary *)
Lemma elem_of_wildcard_types f t : t ∈ wildcard_types f ↔ types f !! t = Some None.
Proof.
  unfold wildcard_types. rewrite list_elem_of_fmap. split.
  - intros ([t' v] & -> & [Hv Hin]%list_elem_of_filter). apply elem_of_map_to_list in Hin.
    simpl in *. by destruct v.
  - intros Ht. exists (t, None). split; [done|].
    apply list_elem_of_filter. split; [done|]. by apply elem_of_map_to_list.
Qed.

Lemma elem_of_concrete_types f (k : StateKey) :
  k ∈ concrete_types f ↔ ∃ ks, types f !! k.1 = Some (Some ks) ∧ k.2 ∈ ks.
Proof.
  unfold concrete_types. rewrite list_elem_of_bind. split.
  - intros ([t v] & Hk & Hin%elem_of_map_to_list). destruct v as [ks|]; [|by apply not_elem_of_nil in Hk].
    apply list_elem_of_fmap in Hk as (s & -> & Hs%elem_of_elements). by exists ks.
  - intros (ks & Ht & Hk). exists (k.1, Some ks). split; [|by apply elem_of_map_to_list].
    apply list_elem_of_fmap. exists k.2. split; [by destruct k|]. by apply elem_of_elements.
Qed.

Lemma has_wildcards_false f :
  has_wildcards f = false ↔ include_others f = false ∧ ∀ t, types f !! t ≠ Some None.
Proof.
  unfold has_wildcards. rewrite orb_false_iff. f_equiv.
  rewrite <- not_true_iff_false, existsb_exists. split.
  - intros Hn t Ht. apply Hn. exists (t, None). split; [|done].
    by apply list_elem_of_In, elem_of_map_to_list.
  - intros Hn ([t v] & Hin & Hv). apply list_elem_of_In, elem_of_map_to_list in Hin.
    destruct v; [done|]. by apply (Hn t).
Qed.

(** ** Filtering *)
Lemma filter_state_lookup {T} (f : StateFilter) (m : gmap StateKey T) (k : StateKey) :
  filter_state f m !! k = if contains f k then m !! k else None.
Proof.
  unfold filter_state. destruct (is_full f) eqn:Hf; [by rewrite is_full_contains|].
  change (filter (λ kv, contains f kv.1 = true) m !! k = if contains f k then m !! k else None).
  rewrite map_lookup_filter. destruct (m !! k) as [x|]; simpl; by destruct (contains f k).
Qed.

(** What [from_types] matches. *)
Lemma from_types_contains ts k :
  contains (from_types ts) k = true ↔ (k.1, Some k.2) ∈ ts ∨ (k.1, None) ∈ ts.
Proof.
  unfold from_types. rewrite contains_init.
  assert (∀ m, contains (mkStateFilter (foldl add_type m ts) false) k = true ↔
    contains (mkStateFilter m false) k = true ∨ (k.1, Some k.2) ∈ ts ∨ (k.1, None) ∈ ts) as H.
  { induction ts as [|[t o] ts IH]; intros m; simpl; [set_solver|].
    rewrite IH, !elem_of_cons. unfold contains, add_type. simpl. destruct k as [kt ks]. simpl.
    destruct (decide (t = kt)) as [->|Hne].
    - destruct (m !! kt) as [[ks'|]|] eqn:Hm, o as [o|]; simpl;
        rewrite ?lookup_insert_eq, ?Hm, ?bool_decide_eq_true; set_solver.
    - assert (∀ v, (<[t:=v]> m : type_map) !! kt = m !! kt) as Hl
        by (intros v; by apply lookup_insert_ne).
      assert (∀ o', (kt, o') = (t, o) ↔ False) as Hf by (intros o'; naive_solver).
      rewrite !Hf. destruct (m !! t) as [[ks'|]|], o as [o|]; rewrite ?Hl; tauto. }
  rewrite H. unfold contains. simpl. rewrite lookup_empty. naive_solver.
Qed.

(** [filter_state] keeps exactly the entries the filter matches, unchanged;
    and a filter with a known entry limit never lets more entries through than
    [max_entries_returned] says. *)
Theorem filter_state_correct {T} (f : StateFilter) (m : gmap StateKey T) :
  (∀ k, filter_state f m !! k = if contains f k then m !! k else None) ∧
  (∀ n, max_entries_returned f = Some n → size (filter_state f m) ≤ n).
Proof.
  split; [apply filter_state_lookup|]. unfold max_entries_returned. intros n.
  destruct (has_wildcards f) eqn:Hw; [done|]. intros [= <-].
  apply has_wildcards_false in Hw as [Hi Hw].
  rewrite <- size_dom. unfold size, set_size. simpl.
  apply submseteq_length, NoDup_submseteq; [apply NoDup_elements|].
  intros k [x Hk]%elem_of_elements%elem_of_dom. rewrite elem_of_concrete_types.
  rewrite filter_state_lookup in Hk. destruct (contains f k) eqn:Hc; [|done].
  unfold contains in Hc. destruct (types f !! k.1) as [[ks|]|] eqn:Ht; [|by destruct (Hw k.1)|by rewrite Hi in Hc].
  exists ks. by apply bool_decide_eq_true in Hc.
Qed.

(** ** Four-part representation *)

(** [all? - minus_wildcards + plus_wildcards + plus_state_keys] *)
Definition parts_match (p : four_parts) (k : StateKey) : Prop :=
  let '((all_part, minus_wildcards), (plus_wildcards, plus_state_keys)) := p in
  (all_part = true ∧ k.1 ∉ minus_wildcards) ∨ k.1 ∈ plus_wildcards ∨ k ∈ plus_state_keys.

Lemma add_state_key_contains all_part ts k k' :
  contains (mkStateFilter (add_state_key all_part ts k) all_part) k' = true ↔
  contains (mkStateFilter ts all_part) k' = true ∨ k' = k.
Proof.
  destruct k as [t s], k' as [t' s']. unfold contains, add_state_key. simpl.
  destruct (decide (t' = t)) as [->|Hne].
  - destruct (ts !! t) as [[e|]|] eqn:Ht.
    + rewrite lookup_insert_eq, !bool_decide_eq_true. set_solver.
    + rewrite Ht. naive_solver.
    + destruct all_part; [rewrite Ht; naive_solver|].
      rewrite lookup_insert_eq, bool_decide_eq_true. set_solver.
  - assert ((t', s') ≠ (t, s)) by congruence.
    destruct (ts !! t) as [[e|]|]; [| |destruct all_part]; rewrite ?lookup_insert_ne by done; tauto.
Qed.

Lemma fold_state_keys_contains all_part l ts k :
  contains (mkStateFilter (foldl (add_state_key all_part) ts l) all_part) k = true ↔
  contains (mkStateFilter ts all_part) k = true ∨ k ∈ l.
Proof.
  revert ts. induction l as [|k' l IH]; intros ts; simpl; [set_solver|].
  rewrite IH, add_state_key_contains, elem_of_cons. tauto.
Qed.

Lemma recompose_contains p k :
  contains (_recompose_from_four_parts p) k = true ↔ parts_match p k.
Proof.
  destruct p as [[all_part minus] [plus keys]]. unfold _recompose_from_four_parts, freeze.
  rewrite contains_init, fold_state_keys_contains, elem_of_elements. simpl.
  enough (contains (mkStateFilter (gset_to_gmap None plus ∪
            (if all_part then gset_to_gmap (Some ∅) minus else ∅)) all_part) k = true ↔
          (all_part = true ∧ k.1 ∉ minus) ∨ k.1 ∈ plus) by tauto.
  unfold contains. simpl. rewrite lookup_union.
  destruct (decide (k.1 ∈ plus)) as [Hp|Hp].
  - rewrite (proj2 (lookup_gset_to_gmap_Some _ _ _ _)) by done.
    destruct (_ !! k.1); simpl; tauto.
  - rewrite (proj2 (lookup_gset_to_gmap_None _ _ _)) by done.
    rewrite (left_id_L None (∪)). destruct all_part; [|rewrite lookup_empty; naive_solver].
    destruct (decide (k.1 ∈ minus)).
    + rewrite (proj2 (lookup_gset_to_gmap_Some _ _ _ _)) by done. set_solver.
    + rewrite (proj2 (lookup_gset_to_gmap_None _ _ _)) by done. tauto.
Qed.

(** The parts of a filter, in terms of its entry for one type. *)
Lemma decompose_entry f (t s : string) :
  let '((all_part, minus), (plus, keys)) := _decompose_into_four_parts f in
  all_part = include_others f ∧
  (t ∈ minus ↔ include_others f = true ∧ is_Some (types f !! t)) ∧
  (t ∈ plus ↔ types f !! t = Some None) ∧
  ((t, s) ∈ keys ↔ ∃ ks, types f !! t = Some (Some ks) ∧ s ∈ ks).
Proof.
  simpl. rewrite !elem_of_list_to_set, elem_of_wildcard_types, elem_of_concrete_types. simpl.
  split_and!; [done| |done|done].
  destruct (include_others f); [rewrite elem_of_dom|]; set_solver.
Qed.

Lemma decompose_contains f k :
  contains f k = true ↔ parts_match (_decompose_into_four_parts f) k.
Proof.
  destruct k as [t s]. pose proof (decompose_entry f t s) as H.
  destruct (_decompose_into_four_parts f) as [[all_part minus] [plus keys]].
  destruct H as (-> & Hm & Hp & Hk). unfold parts_match. simpl. rewrite Hm, Hp, Hk.
  unfold contains. simpl.
  destruct (types f !! t) as [[ks|]|]; rewrite ?bool_decide_eq_true; [| |rewrite is_Some_alt];
    naive_solver.
Qed.

(** C40: [approx_difference] meets its contract.  The filter for [self - other]
    matches every state key [self] matches and [other] does not; it matches
    nothing outside [self]; and wherever [self] lists concrete state keys it is
    exact, so the only over-approximation is a wildcard that was kept. *)
Theorem approx_difference_correct self other k :
  canonical self → canonical other →
  (contains self k = true → contains other k = false →
   contains (approx_difference self other) k = true) ∧
  (contains (approx_difference self other) k = true → contains self k = true) ∧
  (is_Some (types self !! k.1) → types self !! k.1 ≠ Some None →
   contains (approx_difference self other) k = contains self k && negb (contains other k)).
Proof.
  intros Hcs Hco. destruct k as [t s].
  pose proof (decompose_entry self t s) as Hs. pose proof (decompose_entry other t s) as Ho.
  specialize (Hcs t). specialize (Hco t).
  assert (contains (approx_difference self other) (t, s) = true ↔
          parts_match (difference_parts (_decompose_into_four_parts self)
                         (_decompose_into_four_parts other)) (t, s)) as Hd
    by apply recompose_contains.
  destruct (_decompose_into_four_parts self) as [[sa sm] [sp sk]].
  destruct (_decompose_into_four_parts other) as [[oa om] [op ok]].
  destruct Hs as (-> & Hsm & Hsp & Hsk), Ho as (-> & Hom & Hop & Hok).
  unfold parts_match, difference_parts in Hd.
  set (c := contains (approx_difference self other) (t, s)) in *. clearbody c.
  unfold contains. simpl.
  assert (∀ ks, (∃ x : gset string, Some (Some ks) = Some (Some x) ∧ s ∈ x) ↔ s ∈ ks) as E1 by naive_solver.
  assert ((∃ x : gset string, Some None = Some (Some x) ∧ s ∈ x) ↔ False) as E2 by naive_solver.
  assert ((∃ x : gset string, None = Some (Some x) ∧ s ∈ x) ↔ False) as E3 by naive_solver.
  assert (∀ x : option (gset string), is_Some (Some x) ↔ True) as E4 by (split; [done|by eexists]).
  assert (is_Some (@None (option (gset string))) ↔ False) as E5 by (by split; [apply is_Some_None|]).
  assert (∀ ks : gset string, Some (Some ks) = Some None ↔ False) as E6 by done.
  assert (@None (option (gset string)) = Some None ↔ False) as E7 by done.
  assert (Some (@None (gset string)) = Some None ↔ True) as E8 by done.
  pose proof diff_false_true as Hft. pose proof (eq_refl true) as Htt.
  destruct (types self !! t) as [[ks|]|], (types other !! t) as [[ko|]|];
    rewrite ?E1, ?E2, ?E3, ?E4, ?E5, ?E6, ?E7, ?E8 in *.
  all: destruct (include_others self), (include_others other).
  all: try (by destruct (Hcs _ eq_refl)); try (by destruct (Hco _ eq_refl)).
  all: set_unfold in Hd; simpl in *; clear Hcs Hco E1 E2 E3 E4 E5 E6 E7 E8.
  all: repeat case_bool_decide; destruct c; simpl; split_and!; intros; try done.
  all: exfalso; tauto.
Qed.

(** ** Round trips *)

(** The state keys listed for one type. *)
Definition keys_of (l : list StateKey) (t : string) : gset string :=
  list_to_set (filter (λ k, k.1 = t) l).*2.

Lemma elem_of_keys_of l t s : s ∈ keys_of l t ↔ (t, s) ∈ l.
Proof.
  unfold keys_of. rewrite elem_of_list_to_set, list_elem_of_fmap. split.
  - intros ([t' s'] & -> & [Ht Hin]%list_elem_of_filter). simpl in *. by subst.
  - intros Hin. exists (t, s). split; [done|]. by apply list_elem_of_filter.
Qed.

(** What the insertion loop leaves at one type. *)
Lemma fold_state_keys_lookup all_part l ts t :
  foldl (add_state_key all_part) ts l !! t =
  match ts !! t with
  | Some (Some e) => Some (Some (keys_of l t ∪ e))
  | Some None => Some None
  | None => if all_part || bool_decide (keys_of l t = ∅) then None else Some (Some (keys_of l t))
  end.
Proof.
  assert (∀ k l, keys_of (k :: l) t = (if decide (k.1 = t) then {[k.2]} else ∅) ∪ keys_of l t) as Hcons.
  { intros [t' s'] l'. unfold keys_of. simpl. case_decide; subst; simpl;
      rewrite ?filter_cons_True, ?filter_cons_False by done; simpl; set_solver. }
  revert ts. induction l as [|[t' s] l IH]; intros ts; simpl.
  - unfold keys_of. simpl. rewrite bool_decide_eq_true_2, orb_true_r by done.
    destruct (ts !! t) as [[e|]|]; [|done..]. by rewrite (left_id_L ∅ (∪)).
  - rewrite IH, !Hcons. clear IH. unfold add_state_key. simpl. case_decide as Ht.
    + subst t'. destruct (ts !! t) as [[e|]|] eqn:Hts.
      * rewrite lookup_insert_eq. do 2 f_equal. set_solver.
      * by rewrite Hts.
      * destruct all_part; simpl; [by rewrite Hts|].
        rewrite lookup_insert_eq, bool_decide_eq_false_2 by set_solver. do 2 f_equal. set_solver.
    + rewrite (left_id_L ∅ (∪)).
      destruct (ts !! t') as [[e|]|]; [| |destruct all_part]; by rewrite ?lookup_insert_ne by done.
Qed.

Definition wanted_keys (l : list (string * option string)) (t : string) : gset string :=
  keys_of (omap (λ '(t', s), (λ k, (t', k)) <$> s) l) t.

Lemma elem_of_wanted_keys l t s : s ∈ wanted_keys l t ↔ (t, Some s) ∈ l.
Proof.
  unfold wanted_keys. rewrite elem_of_keys_of, list_elem_of_omap. split.
  - intros ([t' [k|]] & Hin & H); simpl in *; by simplify_eq.
  - intros Hin. by exists (t, Some s).
Qed.

(** What the loop of [from_types] leaves at one type. *)
Lemma fold_types_lookup l ts t :
  foldl add_type ts l !! t =
  if bool_decide (ts !! t = Some None ∨ (t, None) ∈ l) then Some None
  else match ts !! t with
       | Some (Some e) => Some (Some (wanted_keys l t ∪ e))
       | _ => if bool_decide (wanted_keys l t = ∅) then None else Some (Some (wanted_keys l t))
       end.
Proof.
  revert ts. induction l as [|[t' s] l IH]; intros ts; simpl.
  - unfold wanted_keys, keys_of. simpl. rewrite (bool_decide_eq_true_2 (∅ = ∅)) by done.
    case_bool_decide as H; [destruct H; [done|set_solver]|].
    destruct (ts !! t) as [[e|]|]; [by rewrite (left_id_L ∅ (∪))|naive_solver|done].
  - rewrite IH. clear IH.
    assert (wanted_keys ((t', s) :: l) t =
            (if decide (t' = t) then match s with Some k => {[k]} | None => ∅ end else ∅) ∪
            wanted_keys l t) as ->.
    { apply set_eq. intros x. rewrite elem_of_union, !elem_of_wanted_keys, elem_of_cons.
      case_decide; destruct s; set_solver. }
    destruct (decide (t' = t)) as [->|Hne].
    + destruct (ts !! t) as [[e|]|] eqn:Ht; destruct s as [k|];
        rewrite ?lookup_insert_eq, ?Ht; repeat case_bool_decide;
        try done; try (do 2 f_equal; set_solver).
    + rewrite (left_id_L ∅ (∪)).
      replace (match ts !! t' with _ => _ end !! t) with (ts !! t)
        by (destruct (ts !! t') as [[e|]|], s; by rewrite ?lookup_insert_ne by done).
      repeat case_bool_decide; try done; set_solver.
Qed.

Lemma elem_of_to_types f t s :
  (t, s) ∈ to_types f ↔
  match s with
  | None => types f !! t = Some None
  | Some k => ∃ ks, types f !! t = Some (Some ks) ∧ k ∈ ks
  end.
Proof.
  unfold to_types. rewrite list_elem_of_bind. split.
  - intros ([t' v] & Hin & Hm%elem_of_map_to_list). destruct v as [ks|].
    + apply list_elem_of_fmap in Hin as (k & ? & Hk%elem_of_elements). simplify_eq. eauto.
    + apply list_elem_of_singleton in Hin. by simplify_eq.
  - destruct s as [k|].
    + intros (ks & Ht & Hk). exists (t, Some ks). split; [|by apply elem_of_map_to_list].
      apply list_elem_of_fmap. exists k. split; [done|]. by apply elem_of_elements.
    + intros Ht. exists (t, None). split; [|by apply elem_of_map_to_list].
      by apply list_elem_of_singleton.
Qed.

Lemma filter_ext f g :
  include_others f = include_others g → (∀ t, types f !! t = types g !! t) → f = g.
Proof. destruct f, g; simpl. intros -> H. f_equal. by apply map_eq. Qed.

Lemma gset_to_gmap_in {A} (x : A) (X : gset string) t :
  t ∈ X → gset_to_gmap x X !! t = Some x.
Proof. intros. by apply lookup_gset_to_gmap_Some. Qed.

Lemma gset_to_gmap_out {A} (x : A) (X : gset string) t :
  t ∉ X → gset_to_gmap x X !! t = None.
Proof. intros. by apply lookup_gset_to_gmap_None. Qed.

Lemma recompose_decompose f t :
  canonical f →
  types (_recompose_from_four_parts (_decompose_into_four_parts f)) !! t = types f !! t.
Proof.
  intros Hc. specialize (Hc t). pose proof (λ s, decompose_entry f t s) as H.
  destruct (_decompose_into_four_parts f) as [[all_part minus] [plus keys]].
  destruct (H "") as (-> & Hm & Hp & _). unfold _recompose_from_four_parts, freeze.
  rewrite init_lookup, fold_state_keys_lookup, lookup_union.
  assert (∀ s, s ∈ keys_of (elements keys) t ↔ ∃ ks, types f !! t = Some (Some ks) ∧ s ∈ ks) as Hk.
  { intros s. rewrite elem_of_keys_of, elem_of_elements. apply H. }
  clear H. destruct (types f !! t) as [[ks|]|].
  - assert (keys_of (elements keys) t = ks) as -> by set_solver.
    rewrite gset_to_gmap_out, (left_id_L None (∪)) by (by rewrite Hp).
    destruct (include_others f); [|simpl; rewrite lookup_empty].
    + rewrite gset_to_gmap_in by (rewrite Hm; by eauto). simpl. by rewrite (right_id_L ∅ (∪)).
    + specialize (Hc _ eq_refl). assert (ks ≠ ∅) by naive_solver.
      rewrite bool_decide_eq_false_2 by done. simpl. by rewrite bool_decide_eq_true_2.
  - rewrite gset_to_gmap_in by (by rewrite Hp).
    destruct (include_others f); [by destruct (Hc _ eq_refl)|]. by destruct (_ !! t).
  - assert (keys_of (elements keys) t = ∅) as -> by set_solver.
    rewrite gset_to_gmap_out, (left_id_L None (∪)) by (by rewrite Hp).
    destruct (include_others f); [|simpl; by rewrite lookup_empty].
    rewrite gset_to_gmap_out by (rewrite Hm; by intros [_ []]). done.
Qed.

Lemma from_types_to_types f t :
  canonical f → include_others f = false → types (from_types (to_types f)) !! t = types f !! t.
Proof.
  intros Hc Hinc. specialize (Hc t). unfold from_types.
  rewrite init_lookup, fold_types_lookup, lookup_empty.
  assert (∀ s, s ∈ wanted_keys (to_types f) t ↔ ∃ ks, types f !! t = Some (Some ks) ∧ s ∈ ks) as Hk.
  { intros s. by rewrite elem_of_wanted_keys, elem_of_to_types. }
  assert ((@None (option (gset string)) = Some None ∨ (t, None) ∈ to_types f) ↔ types f !! t = Some None) as Hw.
  { rewrite elem_of_to_types. naive_solver. }
  rewrite Hinc in Hc. destruct (types f !! t) as [[ks|]|].
  - rewrite bool_decide_eq_false_2 by (by rewrite Hw).
    assert (wanted_keys (to_types f) t = ks) as -> by set_solver.
    specialize (Hc _ eq_refl). assert (ks ≠ ∅) by naive_solver.
    rewrite bool_decide_eq_false_2 by done. simpl. by rewrite bool_decide_eq_true_2.
  - by rewrite bool_decide_eq_true_2 by (by rewrite Hw).
  - rewrite bool_decide_eq_false_2 by (by rewrite Hw).
    assert (wanted_keys (to_types f) t = ∅) as -> by set_solver. done.
Qed.

(** the two representations agree.  For every filter the constructor can
    build, recomposing its four parts gives it back, and so does [from_types] on
    [to_types] when the filter has no [include_others]. *)
Theorem state_filter_roundtrips f :
  canonical f →
  _recompose_from_four_parts (_decompose_into_four_parts f) = f ∧
  (include_others f = false → from_types (to_types f) = f).
Proof.
  intros Hc. split; [|intros Hinc]; (apply filter_ext; [done|]); intros t.
  - by apply recompose_decompose.
  - by apply from_types_to_types.
Qed.

(** ** Splitting and widening *)
Lemma contains_wildcard f t :
  types f !! t = Some None → ∀ s, contains f (t, s) = true.
Proof. intros Ht s. unfold contains. simpl. by rewrite Ht. Qed.

Lemma contains_member_only v inc k :
  contains (StateFilter_init {[ EventTypes.Member := v ]} inc) k =
  if String.eqb k.1 EventTypes.Member
  then match v with None => true | Some ks => bool_decide (k.2 ∈ ks) end else inc.
Proof.
  rewrite contains_init. unfold contains. simpl.
  destruct (String.eqb_spec k.1 EventTypes.Member) as [->|Hne]; simpl.
  - rewrite lookup_singleton_eq. by destruct v.
  - by rewrite lookup_singleton_ne by done.
Qed.

Lemma return_expanded_spec f :
  (return_expanded f = f ∧
   (is_full f = true ∨ ∀ t, t ≠ EventTypes.Member → types f !! t ≠ Some None)) ∨
  (∀ k, contains (return_expanded f) k =
        if String.eqb k.1 EventTypes.Member then contains f k else true).
Proof.
  unfold return_expanded. destruct (is_full f) eqn:Hf; [by left; split; [|left]|].
  destruct (has_wildcards f) eqn:Hw; simpl; last first.
  { left. split; [done|]. right. intros t _. by apply has_wildcards_false in Hw as [_ Hw]. }
  destruct (include_others f || existsb _ _) eqn:Hnm; simpl; last first.
  { left. split; [done|]. right. intros t Ht Hnone. apply orb_false_iff in Hnm as [_ Hnm].
    apply not_true_iff_false in Hnm. apply Hnm, existsb_exists. exists (t, None).
    split; [by apply list_elem_of_In, elem_of_map_to_list|].
    apply String.eqb_neq in Ht. simpl. by rewrite Ht. }
  right. intros [t s]. unfold contains at 2. simpl.
  destruct (types f !! EventTypes.Member) as [[ks|]|] eqn:Hm; simpl.
  - rewrite contains_member_only. simpl.
    destruct (String.eqb_spec t EventTypes.Member) as [->|]; by rewrite ?Hm.
  - rewrite contains_all. destruct (String.eqb_spec t EventTypes.Member) as [->|]; by rewrite ?Hm.
  - destruct (include_others f); rewrite ?contains_all, ?contains_all_non_member; simpl;
      destruct (String.eqb_spec t EventTypes.Member) as [->|]; by rewrite ?Hm.
Qed.

(** [get_member_split] and [return_expanded].  On member events the first
    half of the split matches what the filter matches, on the others the second
    half does.  The expanded filter matches at least what the filter matches and
    the same member events, and is either free of wildcards outside the member
    events or matches all non-member events. *)
Theorem split_and_expand_correct f k :
  (k.1 = EventTypes.Member → contains (get_member_split f).1 k = contains f k) ∧
  (k.1 ≠ EventTypes.Member → contains (get_member_split f).2 k = contains f k) ∧
  (contains f k = true → contains (return_expanded f) k = true) ∧
  (k.1 = EventTypes.Member → contains (return_expanded f) k = contains f k) ∧
  (k.1 ≠ EventTypes.Member →
   (∀ k', k'.1 ≠ EventTypes.Member → contains (return_expanded f) k' = true) ∨
   types (return_expanded f) !! k.1 ≠ Some None).
Proof.
  destruct k as [t s]. simpl. split_and!.
  - intros ->. unfold contains at 2. simpl.
    destruct (types f !! EventTypes.Member) as [[ks|]|]; [|done|by destruct (include_others f)].
    by rewrite contains_member_only.
  - intros Hne. rewrite contains_init. unfold contains. simpl. rewrite map_lookup_filter.
    destruct (types f !! t); simpl; [|done]. by rewrite option_guard_True by done.
  - destruct (return_expanded_spec f) as [[-> _]|H]; [done|]. rewrite H. simpl.
    by destruct (String.eqb t EventTypes.Member).
  - intros ->. destruct (return_expanded_spec f) as [[-> _]|H]; [done|]. by rewrite H.
  - intros Hne. destruct (return_expanded_spec f) as [[-> [Hf|Hw]]|H].
    + left. intros. by apply is_full_contains.
    + right. by apply Hw.
    + left. intros k' Hk'%String.eqb_neq. by rewrite H, Hk'.
Qed.

(** a state filter that need not await the full state of a partially joined
    room asks for the membership of local users only. *)
Theorem must_await_full_state_safe is_mine_id f u :
  must_await_full_state is_mine_id f = false →
  contains f (EventTypes.Member, u) = true → is_mine_id u = true.
Proof.
  unfold must_await_full_state, contains. simpl.
  destruct (types f !! EventTypes.Member) as [[ks|]|]; [|done|congruence].
  intros H Hu%bool_decide_eq_true. apply not_false_iff_true. intros Hn.
  apply not_true_iff_false in H. apply H, existsb_exists. exists u.
  split; [by apply list_elem_of_In, elem_of_elements|]. by rewrite Hn.
Qed.

(** ** SQL *)
Definition sql_holds (c : sql_clause) (row : StateKey) : bool :=
  match c with
  | TypeIs t => String.eqb row.1 t
  | TypeAndKeyAre t k => String.eqb row.1 t && String.eqb row.2 k
  | TypeNotIn ts => bool_decide (row.1 ∉ ts)
  end.

(** The rows the query selects: all of them without a condition, none for
    [1 = 2]. *)
Definition sql_selects (f : StateFilter) (row : StateKey) : bool :=
  is_full f || existsb (λ c, sql_holds c row) (sql_clauses f).

(** The number of [?] placeholders. *)
Fixpoint placeholders (s : string) : nat :=
  match s with
  | EmptyString => 0
  | String c s' => (if Ascii.eqb c "?"%char then 1 else 0) + placeholders s'
  end.

Lemma placeholders_app s t : placeholders (s +:+ t) = placeholders s + placeholders t.
Proof. induction s as [|c s IH]; simpl; [done|]. rewrite IH. lia. Qed.

Lemma placeholders_concat sep l :
  placeholders sep = 0 → placeholders (String.concat sep l) = sum_list (placeholders <$> l).
Proof.
  intros Hsep. induction l as [|x [|y l] IH]; simpl in *; [done|lia|].
  rewrite !placeholders_app, Hsep, IH. lia.
Qed.

Lemma render_placeholders c : placeholders (render c).1 = length (render c).2.
Proof.
  destruct c as [t|t k|ts]; simpl; [done..|].
  rewrite placeholders_app, placeholders_concat by done.
  rewrite fmap_replicate, sum_list_replicate. simpl. lia.
Qed.

Lemma sum_list_length_concat {A} (ls : list (list A)) :
  length (concat ls) = sum_list (length <$> ls).
Proof. induction ls as [|l ls IH]; simpl; [done|]. rewrite length_app, IH. done. Qed.

Lemma sql_clauses_hold f row :
  (∃ c, c ∈ sql_clauses f ∧ sql_holds c row = true) ↔ contains f row = true.
Proof.
  destruct row as [t s]. unfold sql_clauses, contains. simpl. split.
  - intros (c & [Hc|Hc]%elem_of_app & Hs).
    + apply list_elem_of_bind in Hc as ([t' v] & Hc & Hin%elem_of_map_to_list).
      destruct v as [ks|].
      * apply list_elem_of_fmap in Hc as (k & -> & Hk%elem_of_elements). simpl in Hs.
        apply andb_true_iff in Hs as [->%String.eqb_eq ->%String.eqb_eq].
        rewrite Hin. by apply bool_decide_eq_true.
      * apply list_elem_of_singleton in Hc as ->. simpl in Hs.
        apply String.eqb_eq in Hs as ->. by rewrite Hin.
    + destruct (include_others f); [|by apply not_elem_of_nil in Hc].
      apply list_elem_of_singleton in Hc as ->. simpl in Hs. apply bool_decide_eq_true in Hs.
      destruct (types f !! t) as [v|] eqn:Ht; [|done]. destruct Hs.
      apply list_elem_of_fmap. exists (t, v). split; [done|]. by apply elem_of_map_to_list.
  - setoid_rewrite elem_of_app. destruct (types f !! t) as [[ks|]|] eqn:Ht.
    + intros Hs%bool_decide_eq_true. exists (TypeAndKeyAre t s). simpl. rewrite !String.eqb_refl.
      split; [left|done]. apply list_elem_of_bind. exists (t, Some ks).
      split; [|by apply elem_of_map_to_list]. apply list_elem_of_fmap. exists s.
      split; [done|]. by apply elem_of_elements.
    + intros _. exists (TypeIs t). simpl. rewrite String.eqb_refl. split; [left|done].
      apply list_elem_of_bind. exists (t, None). split; [by left|]. by apply elem_of_map_to_list.
    + intros ->. exists (TypeNotIn (map_to_list (types f)).*1). simpl. split; [right; by left|].
      apply bool_decide_eq_true. intros ([t' v] & -> & Hin%elem_of_map_to_list)%list_elem_of_fmap.
      simpl in *. congruence.
Qed.

(** The SQL clause of a filter selects exactly the rows the filter matches,
    and binds as many arguments as it has placeholders; the empty and the
    contradictory clause are used only for the filters that match everything and
    nothing. *)
Theorem sql_filter_clause_correct f row :
  sql_selects f row = contains f row ∧
  placeholders (make_sql_filter_clause f).1 = length (make_sql_filter_clause f).2 ∧
  (negb (include_others f) && bool_decide (types f = ∅) = true → contains f row = false).
Proof.
  split_and!.
  - apply eq_bool_prop_intro. rewrite !Is_true_true. unfold sql_selects.
    rewrite orb_true_iff, existsb_exists, <- sql_clauses_hold. setoid_rewrite list_elem_of_In.
    split; [|by right]. intros [Hf|?]; [|done].
    setoid_rewrite <- list_elem_of_In. by apply sql_clauses_hold, is_full_contains.
  - unfold make_sql_filter_clause. destruct (is_full f); [done|]. destruct (_ && _); [done|]. simpl.
    rewrite placeholders_concat, sum_list_length_concat, <- !list_fmap_compose by done.
    f_equal. apply list_fmap_ext. intros ? c _. apply render_placeholders.
  - intros [Hi Ht%bool_decide_eq_true]%andb_true_iff. unfold contains.
    rewrite Ht, lookup_empty. by destruct (include_others f).
Qed.

(** ** The theorems at work *)
Definition ex_filter : StateFilter :=
  StateFilter_init {[ EventTypes.Member := Some {[ "@a:x"; "@b:x" ]}; "m.room.name" := None ]} false.
Definition ex_other : StateFilter := from_types [(EventTypes.Member, Some "@a:x")].

Lemma filter_state_correct_witness :
  size (filter_state ex_other {[ (EventTypes.Member, "@a:x") := 1; ("m.room.name", "") := 2 ]}) ≤ 1.
Proof.
  refine (proj2 (filter_state_correct ex_other _) 1 _). by_vm.
Defined.

Lemma approx_difference_correct_witness :
  contains (approx_difference ex_filter ex_other) (EventTypes.Member, "@b:x") = true.
Proof.
  refine (proj1 (approx_difference_correct ex_filter ex_other (EventTypes.Member, "@b:x")
    (init_canonical _ _) (init_canonical _ _)) _ _); by_vm.
Defined.

Lemma state_filter_roundtrips_witness : from_types (to_types ex_filter) = ex_filter.
Proof. exact (proj2 (state_filter_roundtrips ex_filter (init_canonical _ _)) eq_refl). Defined.

Lemma split_and_expand_correct_witness :
  contains (return_expanded ex_filter) ("m.room.name", "") = true.
Proof.
  destruct (split_and_expand_correct ex_filter ("m.room.name", "")) as (_ & _ & H & _).
  apply H. by_vm.
Defined.

Lemma must_await_full_state_safe_witness :
  must_await_full_state (λ u, bool_decide (u = "@a:x")) ex_other = false ∧
  bool_decide ("@a:x" = "@a:x") = true.
Proof.
  assert (must_await_full_state (λ u, bool_decide (u = "@a:x")) ex_other = false) as H by by_vm.
  split; [exact H|].
  apply (must_await_full_state_safe (λ u, bool_decide (u = "@a:x")) ex_other "@a:x" H). by_vm.
Defined.

Lemma sql_filter_clause_correct_witness : contains _NONE_STATE_FILTER ("m.room.name", "") = false.
Proof.
  destruct (sql_filter_clause_correct _NONE_STATE_FILTER ("m.room.name", "")) as (_ & _ & H).
  apply H. by_vm.
Defined.
