(* ===== verification/StreamChangeCache.v ===== *)
(** The stream change cache: [textrp_briij/util/caches/stream_change_cache.py].

    [SortedDict] (from sortedcontainers) is modelled by the list of its items in
    increasing key order, with the operations the cache calls. Metrics are left
    out: they are counters no method reads. *)
From S2P Require Import Prelude.

(** ** [SortedDict] *)
Section SortedDict.
Context {V : Type}.

Abbreviation sorted_dict := (list (Z * V)).

(** [d.get(k)] *)
Fixpoint sd_get (d : sorted_dict) (k : Z) : option V :=
  match d with
  | [] => None
  | (k', v) :: d' => if (k =? k')%Z then Some v else sd_get d' k
  end.

(** [d[k] = v] *)
Fixpoint sd_set (d : sorted_dict) (k : Z) (v : V) : sorted_dict :=
  match d with
  | [] => [(k, v)]
  | (k', v') :: d' =>
      if (k <? k')%Z then (k, v) :: d
      else if (k =? k')%Z then (k, v) :: d'
      else (k', v') :: sd_set d' k v
  end.

(** [del d[k]] *)
Fixpoint sd_del (d : sorted_dict) (k : Z) : sorted_dict :=
  match d with
  | [] => []
  | (k', v) :: d' => if (k =? k')%Z then d' else (k', v) :: sd_del d' k
  end.

(** [d.bisect_right(k)]: how many keys are at most [k]. *)
Fixpoint bisect_right (d : sorted_dict) (k : Z) : nat :=
  match d with
  | [] => 0
  | (k', _) :: d' => if (k' <=? k)%Z then S (bisect_right d' k) else 0
  end.

(** [d.islice(start=n)] with the values looked up. *)
Definition islice (d : sorted_dict) (start : nat) : sorted_dict := drop start d.

(** [d.peekitem()]: the item with the largest key. *)
Definition peekitem (d : sorted_dict) : option (Z * V) := last d.

Definition sd_sorted (d : sorted_dict) : Prop := StronglySorted Z.lt d.*1.
End SortedDict.

(** ** The cache *)
Record cache := mkCache {
  _original_max_size : nat;
  _max_size : nat;
  _cache : list (Z * gset string);
  _entity_to_key : gmap string Z;
  _earliest_known_stream_pos : Z
}.

Definition with_maps (c : cache) (m : list (Z * gset string)) (k : gmap string Z) (p : Z) : cache :=
  mkCache (_original_max_size c) (_max_size c) m k p.

Definition pop_entities (entity_to_key : gmap string Z) (r : gset string) : gmap string Z :=
  foldr delete entity_to_key (elements r).

(** The [while] loop of [_evict], which removes one entry per turn. *)
Fixpoint evict_loop (max_size : nat) (m : list (Z * gset string)) (keys : gmap string Z) (p : Z)
    : list (Z * gset string) * gmap string Z * Z :=
  match m with
  | [] => (m, keys, p)
  | (k, r) :: m' =>
      if max_size <? length m
      then evict_loop max_size m' (pop_entities keys r) (Z.max k p)
      else (m, keys, p)
  end.

Definition _evict (c : cache) : cache :=
  let '(m, keys, p) :=
    evict_loop (_max_size c) (_cache c) (_entity_to_key c) (_earliest_known_stream_pos c) in
  with_maps c m keys p.

(** [self._cache[old_pos]] without [entity], dropping the key with its last
    entity. *)
Definition remove_entity (m : list (Z * gset string)) (old_pos : Z) (entity : string)
    : result (list (Z * gset string)) :=
  e ← of_option (sd_get m old_pos) KeyError;
  _ ← raise_if (bool_decide (entity ∉ (e : gset string))) KeyError;
  let e' := e ∖ {[entity]} in
  Ok (if decide (e' = ∅) then sd_del m old_pos else sd_set m old_pos e').

Definition add_entity (m : list (Z * gset string)) (stream_pos : Z) (entity : string)
    : list (Z * gset string) :=
  sd_set m stream_pos ({[entity]} ∪ default ∅ (sd_get m stream_pos)).

Definition entity_has_changed (c : cache) (entity : string) (stream_pos : Z) : result cache :=
  if (stream_pos <=? _earliest_known_stream_pos c)%Z then Ok c
  else
    let old_pos := _entity_to_key c !! entity in
    if match old_pos with Some p => (stream_pos <=? p)%Z | None => false end then Ok c
    else
      m ← match old_pos with
          | Some p => remove_entity (_cache c) p entity
          | None => Ok (_cache c)
          end;
      Ok (_evict (with_maps c (add_entity m stream_pos entity)
                    (<[entity := stream_pos]> (_entity_to_key c)) (_earliest_known_stream_pos c))).

Definition all_entities_changed (c : cache) (stream_pos : Z) : cache :=
  with_maps c [] ∅ stream_pos.

Definition init (current_stream_pos : Z) (max_size : nat) (prefilled_cache : list (string * Z))
    : result cache :=
  fold_res (λ c '(entity, stream_pos), entity_has_changed c entity stream_pos) prefilled_cache
    (mkCache max_size max_size [] ∅ current_stream_pos).

(** [new_size] is [math.floor(self._original_max_size * factor)]. *)
Definition set_cache_factor (c : cache) (new_size : nat) : cache * bool :=
  if bool_decide (new_size ≠ _max_size c) then
    (_evict (mkCache (_original_max_size c) new_size (_cache c) (_entity_to_key c)
               (_earliest_known_stream_pos c)), true)
  else (c, false).

(** ** Queries *)
Definition has_entity_changed (c : cache) (entity : string) (stream_pos : Z) : bool :=
  if (stream_pos <? _earliest_known_stream_pos c)%Z then true
  else match _entity_to_key c !! entity with
       | None => false
       | Some latest_entity_change_pos => (stream_pos <? latest_entity_change_pos)%Z
       end.

Definition has_any_entity_changed (c : cache) (stream_pos : Z) : bool :=
  if (stream_pos <? _earliest_known_stream_pos c)%Z then true
  else match peekitem (_cache c) with
       | None => false
       | Some (k, _) => (stream_pos <? k)%Z
       end.

Definition get_all_entities_changed (c : cache) (stream_pos : Z) : option (list string) :=
  if (stream_pos <? _earliest_known_stream_pos c)%Z then None
  else Some ('(_, es) ← islice (_cache c) (bisect_right (_cache c) stream_pos); elements es).

(** [perf_factor] is the argument [_perf_factor]. *)
Definition get_entities_changed (c : cache) (entities : list string) (stream_pos perf_factor : Z)
    : gset string :=
  match peekitem (_cache c) with
  | None => list_to_set entities
  | Some (max_stream_pos, _) =>
      if (stream_pos <? _earliest_known_stream_pos c)%Z then list_to_set entities
      else if (perf_factor * Z.of_nat (length entities) <? max_stream_pos - stream_pos)%Z
      then list_to_set
             (filter (λ entity, (stream_pos < default (-1) (_entity_to_key c !! entity))%Z) entities)
      else match get_all_entities_changed c stream_pos with
           | Some changed => list_to_set entities ∩ list_to_set changed
           | None => list_to_set entities
           end
  end.

Definition get_max_pos_of_last_change (c : cache) (entity : string) : option Z :=
  _entity_to_key c !! entity.

(** * Correctness *)

(** ** Sorted dictionaries *)
Section SortedDictLemmas.
Context {V : Type}.
Implicit Types (d : list (Z * V)).

Lemma sd_sorted_cons k v d :
  sd_sorted ((k, v) :: d) ↔ sd_sorted d ∧ ∀ k' v', (k', v') ∈ d → (k < k')%Z.
Proof.
  unfold sd_sorted. simpl. split.
  - intros [Hs Hf]%StronglySorted_inv. split; [done|]. intros k' v' Hin.
    rewrite Forall_forall in Hf. apply Hf. apply list_elem_of_fmap. by exists (k', v').
  - intros [Hs Hf]. constructor; [done|]. apply Forall_forall.
    intros x ([k' v'] & -> & Hin)%list_elem_of_fmap. by eapply Hf.
Qed.

Lemma sd_get_elem d k v : sd_sorted d → sd_get d k = Some v ↔ (k, v) ∈ d.
Proof.
  induction d as [|[k' v'] d IH]; simpl; [set_solver|].
  intros [Hs Hlt]%sd_sorted_cons. rewrite elem_of_cons.
  destruct (Z.eqb_spec k k') as [->|Hne].
  - split; [intros [= ->]; by left|]. intros [?|Hin]; [congruence|]. specialize (Hlt _ _ Hin). lia.
  - rewrite IH by done. naive_solver.
Qed.

Lemma sd_set_elem d k v k' v' :
  sd_sorted d → (k', v') ∈ sd_set d k v ↔ (k' = k ∧ v' = v) ∨ (k' ≠ k ∧ (k', v') ∈ d).
Proof.
  induction d as [|[k1 v1] d IH]; simpl; [set_solver|].
  intros [Hs Hlt]%sd_sorted_cons. assert (∀ v2, (k1, v2) ∉ d) as H1.
  { intros v2 Hin. specialize (Hlt _ _ Hin). lia. }
  destruct (Z.ltb_spec k k1); [|destruct (Z.eqb_spec k k1)].
  - assert (k' = k → (k', v') ∉ (k1, v1) :: d).
    { intros -> [?|Hin]%elem_of_cons; [simplify_eq; lia|]. specialize (Hlt _ _ Hin). lia. }
    rewrite elem_of_cons. destruct (decide (k' = k)); naive_solver.
  - subst. rewrite !elem_of_cons. destruct (decide (k' = k1)); naive_solver.
  - rewrite !elem_of_cons, IH by done. destruct (decide (k' = k)); naive_solver lia.
Qed.

Lemma sd_set_sorted d k v : sd_sorted d → sd_sorted (sd_set d k v).
Proof.
  induction d as [|[k1 v1] d IH]; simpl; [by intros; constructor; [constructor|]|].
  intros Hd. pose proof Hd as [Hs Hlt]%sd_sorted_cons.
  destruct (Z.ltb_spec k k1); [|destruct (Z.eqb_spec k k1)].
  - apply sd_sorted_cons. split; [done|]. intros k' v' [?|Hin]%elem_of_cons; [by simplify_eq|].
    specialize (Hlt _ _ Hin). lia.
  - subst. by apply sd_sorted_cons.
  - apply sd_sorted_cons. split; [by apply IH|].
    intros k' v' [[-> ->]|[_ Hin]]%sd_set_elem; [lia|by eapply Hlt|done].
Qed.

Lemma sd_del_elem d k k' v' :
  sd_sorted d → (k', v') ∈ sd_del d k ↔ k' ≠ k ∧ (k', v') ∈ d.
Proof.
  induction d as [|[k1 v1] d IH]; simpl; [set_solver|].
  intros [Hs Hlt]%sd_sorted_cons. destruct (Z.eqb_spec k k1) as [->|Hne].
  - rewrite elem_of_cons. split; [|naive_solver]. intros Hin. specialize (Hlt _ _ Hin).
    split; [lia|by right].
  - rewrite !elem_of_cons, IH by done. naive_solver.
Qed.

Lemma sd_del_sorted d k : sd_sorted d → sd_sorted (sd_del d k).
Proof.
  induction d as [|[k1 v1] d IH]; simpl; [done|].
  intros [Hs Hlt]%sd_sorted_cons. destruct (Z.eqb k k1); [done|].
  apply sd_sorted_cons. split; [by apply IH|].
  intros k' v' [_ Hin]%sd_del_elem; [by eapply Hlt|done].
Qed.

Lemma islice_bisect_elem d k k' v' :
  sd_sorted d → (k', v') ∈ islice d (bisect_right d k) ↔ (k < k')%Z ∧ (k', v') ∈ d.
Proof.
  unfold islice. induction d as [|[k1 v1] d IH]; simpl; [set_solver|].
  intros [Hs Hlt]%sd_sorted_cons. destruct (Z.leb_spec k1 k); simpl.
  - rewrite IH, elem_of_cons by done. split; [naive_solver|].
    intros [? [?|?]]; [simplify_eq; lia|done].
  - rewrite elem_of_cons. split; [|naive_solver]. intros [?|Hin]; [simplify_eq; naive_solver|].
    specialize (Hlt _ _ Hin). split; [lia|by right].
Qed.

Lemma peekitem_max d k v :
  sd_sorted d → peekitem d = Some (k, v) → (k, v) ∈ d ∧ ∀ k' v', (k', v') ∈ d → (k' ≤ k)%Z.
Proof.
  unfold peekitem. induction d as [|[k1 v1] d IH]; [done|].
  intros [Hs Hlt]%sd_sorted_cons Hl. destruct d as [|kv d].
  - simpl in Hl. simplify_eq. split; [by left|].
    intros k' v' ?%list_elem_of_singleton. by simplify_eq.
  - destruct (IH Hs Hl) as [Hin Hmax]. split; [by right|].
    intros k' v' [?|Hin']%elem_of_cons; [|by eapply Hmax]. simplify_eq.
    specialize (Hlt _ _ Hin). lia.
Qed.

Lemma islice_sorted d n : sd_sorted d → sd_sorted (islice d n).
Proof.
  unfold islice. revert n. induction d as [|[k v] d IH]; intros [|n] Hd; simpl; try done.
  apply IH. by apply sd_sorted_cons in Hd as [? _].
Qed.
End SortedDictLemmas.
