(* ===== verification/StreamChangeCacheProps.v ===== *)
(** The stream change cache never misses a change. *)
From S2P Require Import Prelude StreamChangeCache.

(** ** Invariant *)

(** The two maps are in sync, and hold only changes after the earliest known
    position. *)
Record maps_ok (m : list (Z * gset string)) (keys : gmap string Z) (p : Z) : Prop := {
  mo_sorted : sd_sorted m;
  mo_sync : ∀ e q, keys !! e = Some q ↔ ∃ s, (q, s) ∈ m ∧ e ∈ s;
  mo_nonempty : ∀ q s, (q, s) ∈ m → s ≠ ∅;
  mo_above : ∀ q s, (q, s) ∈ m → (p < q)%Z
}.

Record cache_ok (c : cache) : Prop := {
  co_maps : maps_ok (_cache c) (_entity_to_key c) (_earliest_known_stream_pos c);
  co_size : length (_cache c) ≤ _max_size c
}.

(** ** Abstract specification: the history of reported changes *)
Inductive change :=
  | Changed (entity : string) (pos : Z)
  | AllChanged (pos : Z).

(** [entity] changed after [pos]. *)
Definition changed_after (h : list change) (entity : string) (pos : Z) : Prop :=
  ∃ q, (pos < q)%Z ∧ (Changed entity q ∈ h ∨ AllChanged q ∈ h).

(** The cache knows, of every entity, its latest change after [p]. *)
Definition knows_latest (keys : gmap string Z) (p : Z) (h : list change) : Prop :=
  (∀ q, AllChanged q ∈ h → (q ≤ p)%Z) ∧
  ∀ e q, keys !! e = Some q ↔
    (p < q)%Z ∧ Changed e q ∈ h ∧ ∀ q', Changed e q' ∈ h → (q' ≤ q)%Z.

Definition refines (c : cache) (h : list change) : Prop :=
  cache_ok c ∧ knows_latest (_entity_to_key c) (_earliest_known_stream_pos c) h.

(** ** Eviction *)
Lemma pop_entities_lookup keys (r : gset string) e :
  pop_entities keys r !! e = if decide (e ∈ r) then None else keys !! e.
Proof.
  unfold pop_entities.
  assert (∀ l, foldr delete keys l !! e = if decide (e ∈ l) then None else keys !! e) as H.
  { induction l as [|x l IH]; [done|]. simpl.
    destruct (decide (e = x)) as [->|Hne].
    - rewrite lookup_delete_eq. by rewrite decide_True by set_solver.
    - rewrite lookup_delete_ne, IH by done.
      by destruct (decide (e ∈ l)), (decide (e ∈ x :: l)); set_solver. }
  rewrite H. by destruct (decide (e ∈ elements r)), (decide (e ∈ r)); set_solver.
Qed.

Lemma maps_ok_pop k r m keys p :
  maps_ok ((k, r) :: m) keys p → maps_ok m (pop_entities keys r) (Z.max k p).
Proof.
  intros [Hs Hsync Hne Hab]. pose proof Hs as [Hs' Hlt]%sd_sorted_cons. split.
  - done.
  - intros e q. rewrite pop_entities_lookup. case_decide as Hr.
    + split; [done|]. intros (s & Hin & He).
      assert (keys !! e = Some k) as H1 by (apply Hsync; exists r; split; [left|done]).
      assert (keys !! e = Some q) as H2 by (apply Hsync; exists s; split; [by right|done]).
      specialize (Hlt _ _ Hin). simplify_eq. lia.
    + rewrite Hsync. setoid_rewrite elem_of_cons. naive_solver.
  - intros q s Hin. apply (Hne q). by right.
  - intros q s Hin. specialize (Hlt _ _ Hin).
    assert (p < q)%Z by (apply (Hab q s); by right). lia.
Qed.

Lemma knows_latest_pop k r m keys p h :
  maps_ok ((k, r) :: m) keys p → knows_latest keys p h →
  knows_latest (pop_entities keys r) (Z.max k p) h.
Proof.
  intros [Hs Hsync Hne Hab] [Hall Hk]. pose proof Hs as [_ Hlt]%sd_sorted_cons.
  assert (p < k)%Z as Hpk by (apply (Hab k r); left).
  split; [intros q Hq; specialize (Hall q Hq); lia|].
  intros e q. rewrite pop_entities_lookup. case_decide as Hr.
  - assert (keys !! e = Some k) as (_ & _ & Hmax)%Hk by (apply Hsync; exists r; split; [left|done]).
    split; [done|]. intros (? & Hin & _). specialize (Hmax q Hin). lia.
  - rewrite Hk. split; [|naive_solver lia]. intros (Hq & Hin & Hmax). split; [|done].
    assert (keys !! e = Some q) as (s & [?|Hm]%elem_of_cons & He)%Hsync by (by apply Hk);
      [naive_solver|]. specialize (Hlt _ _ Hm). lia.
Qed.

Lemma evict_loop_ok n m keys p h :
  maps_ok m keys p → knows_latest keys p h →
  let '(m', keys', p') := evict_loop n m keys p in
  maps_ok m' keys' p' ∧ knows_latest keys' p' h ∧ length m' ≤ n ∧ (p ≤ p')%Z.
Proof.
  revert keys p. induction m as [|[k r] m IH]; intros keys p Hm Hk; simpl.
  - split_and!; [done..|lia|done].
  - destruct (Nat.ltb_spec n (S (length m))).
    + pose proof (maps_ok_pop _ _ _ _ _ Hm) as Hm'. pose proof (knows_latest_pop _ _ _ _ _ _ Hm Hk) as Hk'.
      specialize (IH _ _ Hm' Hk'). destruct (evict_loop _ _ _ _) as [[m' keys'] p'].
      destruct IH as (? & ? & ? & ?). split_and!; [done..|lia].
    + split_and!; [done..|simpl; lia|done].
Qed.

Lemma evict_refines c h :
  maps_ok (_cache c) (_entity_to_key c) (_earliest_known_stream_pos c) →
  knows_latest (_entity_to_key c) (_earliest_known_stream_pos c) h →
  refines (_evict c) h ∧
  (_earliest_known_stream_pos c ≤ _earliest_known_stream_pos (_evict c))%Z.
Proof.
  intros Hm Hk. unfold _evict. pose proof (evict_loop_ok (_max_size c) _ _ _ _ Hm Hk) as H.
  destruct (evict_loop _ _ _ _) as [[m' keys'] p']. destruct H as (? & ? & ? & ?). done.
Qed.

(** ** Recording a change *)
Lemma remove_entity_ok m keys p entity q :
  maps_ok m keys p → keys !! entity = Some q →
  ∃ m', remove_entity m q entity = Ok m' ∧ maps_ok m' (delete entity keys) p.
Proof.
  intros [Hs Hsync Hne Hab] Hq. pose proof Hq as (s & Hin & He)%Hsync.
  unfold remove_entity. rewrite (proj2 (sd_get_elem _ _ _ Hs) Hin). simpl.
  rewrite bool_decide_eq_false_2 by naive_solver. simpl. eexists. split; [done|].
  assert (∀ q' s', (q', s') ∈ m → entity ∈ s' → q' = q) as Huniq.
  { intros q' s' Hin' He'. assert (keys !! entity = Some q') by (apply Hsync; eauto). congruence. }
  assert (∀ s', (q, s') ∈ m → s' = s) as Hfun.
  { intros s' Hin'%(sd_get_elem _ _ _ Hs). apply (sd_get_elem _ _ _ Hs) in Hin. congruence. }
  case_decide as Hemp; split.
  - by apply sd_del_sorted.
  - intros e q'. setoid_rewrite sd_del_elem; [|done..]. destruct (decide (e = entity)) as [->|Hn].
    + rewrite lookup_delete_eq. split; [done|]. naive_solver.
    + rewrite lookup_delete_ne, Hsync by done. split; [|naive_solver].
      intros (s' & Hin' & He'). exists s'. split; [|done]. split; [|done].
      intros ->. apply Hfun in Hin' as ->. set_solver.
  - intros q' s' [_ Hin']%sd_del_elem; [by eapply Hne|done].
  - intros q' s' [_ Hin']%sd_del_elem; [by eapply Hab|done].
  - by apply sd_set_sorted.
  - intros e q'. setoid_rewrite sd_set_elem; [|done..]. destruct (decide (e = entity)) as [->|Hn].
    + rewrite lookup_delete_eq. split; [done|]. intros (s' & [[-> ->]|[? ?]] & ?); [set_solver|].
      naive_solver.
    + rewrite lookup_delete_ne, Hsync by done. split.
      * intros (s' & Hin' & He'). destruct (decide (q' = q)) as [->|].
        { apply Hfun in Hin' as ->. exists (s ∖ {[entity]}). split; [by left|set_solver]. }
        exists s'. split; [by right|done].
      * intros (s' & [[-> ->]|[? ?]] & ?); [exists s; set_solver|by exists s'].
  - intros q' s' [[-> ->]|[_ Hin']]%sd_set_elem; [done|by eapply Hne|done].
  - intros q' s' [[-> ->]|[_ Hin']]%sd_set_elem; [by eapply Hab|by eapply Hab|done].
Qed.

Lemma add_entity_ok m keys p entity q :
  maps_ok m keys p → keys !! entity = None → (p < q)%Z →
  maps_ok (add_entity m q entity) (<[entity := q]> keys) p.
Proof.
  intros [Hs Hsync Hne Hab] Hnone Hpq. unfold add_entity. split.
  - by apply sd_set_sorted.
  - assert (∀ e', e' ∈ default ∅ (sd_get m q) ↔ ∃ s, (q, s) ∈ m ∧ e' ∈ s) as Hdef.
    { intros e'. destruct (sd_get m q) as [s|] eqn:Hg; simpl.
      - split; [intros; exists s; split; [by apply sd_get_elem|done]|].
        intros (s' & Hin%sd_get_elem & ?); [congruence|done].
      - split; [set_solver|]. intros (s' & Hin%sd_get_elem & ?); [congruence|done]. }
    intros e q'. setoid_rewrite sd_set_elem; [|done..].
    destruct (decide (e = entity)) as [->|Hn].
    + rewrite lookup_insert_eq. split.
      * intros [= ->]. eexists. split; [by left|]. set_solver.
      * intros (s' & [[-> _]|[? Hin]] & He); [done|].
        assert (keys !! entity = Some q') by (apply Hsync; eauto). congruence.
    + rewrite lookup_insert_ne, Hsync by done. split.
      * intros (s' & Hin & He). destruct (decide (q' = q)) as [->|]; [|by exists s'; auto].
        eexists. split; [by left|]. apply elem_of_union. right. apply Hdef. eauto.
      * intros (s' & [[-> ->]|[_ Hin]] & He); [|by eauto].
        apply elem_of_union in He as [?|He]; [set_solver|]. by apply Hdef.
  - intros q' s' [[-> ->]|[_ Hin']]%sd_set_elem; [set_solver|by eapply Hne|done].
  - intros q' s' [[-> ->]|[_ Hin']]%sd_set_elem; [done|by eapply Hab|done].
Qed.

#[local] Instance changed_dec (ch : change) e : Decision (∃ q, ch = Changed e q).
Proof.
  refine (match ch with
          | Changed e' q => match decide (e' = e) with left _ => left _ | right _ => right _ end
          | AllChanged _ => right _
          end); abstract naive_solver.
Defined.

Lemma latest_or_none (h : list change) e :
  (∀ q, Changed e q ∉ h) ∨
  ∃ q', Changed e q' ∈ h ∧ ∀ q, Changed e q ∈ h → (q ≤ q')%Z.
Proof.
  induction h as [|ch h IH]; [left; intros q; apply not_elem_of_nil|].
  assert (∀ q, Changed e q ≠ ch → Changed e q ∈ ch :: h ↔ Changed e q ∈ h) as Hskip
    by set_solver.
  destruct (decide (∃ q, ch = Changed e q)) as [(q1 & ->)|Hno].
  - right. destruct IH as [Hnone|(q' & Hin & Hmax)].
    + exists q1. split; [left|]. intros q [?|?]%elem_of_cons; [by simplify_eq|by destruct (Hnone q)].
    + destruct (decide (q1 ≤ q')%Z).
      * exists q'. split; [by right|]. intros q [?|?]%elem_of_cons; [by simplify_eq|by apply Hmax].
      * exists q1. split; [left|]. intros q [?|Hq]%elem_of_cons; [by simplify_eq|].
        specialize (Hmax _ Hq). lia.
  - assert (∀ q, Changed e q ≠ ch) as Hne by naive_solver.
    destruct IH as [Hnone|(q' & Hin & Hmax)]; [left|right; exists q'; split; [by right|]];
      intros q; rewrite Hskip by done; auto.
Qed.

Lemma latest_exists (h : list change) e q :
  Changed e q ∈ h →
  ∃ q', (q ≤ q')%Z ∧ Changed e q' ∈ h ∧ ∀ q'', Changed e q'' ∈ h → (q'' ≤ q')%Z.
Proof.
  intros Hin. destruct (latest_or_none h e) as [Hnone|(q' & ? & Hmax)]; [by destruct (Hnone q)|].
  exists q'. auto.
Qed.

Lemma knows_latest_newer keys p h entity q :
  knows_latest keys p h → (p < q)%Z → (∀ q', keys !! entity = Some q' → (q' < q)%Z) →
  knows_latest (<[entity := q]> keys) p (Changed entity q :: h).
Proof.
  intros [Hall Hk] Hpq Hnew. split; [intros q' Hq'; apply Hall; set_solver|].
  assert (∀ q', Changed entity q' ∈ h → (q' ≤ q)%Z) as Hle.
  { intros q' Hin. destruct (latest_exists _ _ _ Hin) as (q1 & ? & H1 & Hmax).
    destruct (decide (p < q1)%Z); [|lia].
    assert (q1 < q)%Z by (by apply Hnew, Hk). lia. }
  intros e q1. destruct (decide (e = entity)) as [->|Hne].
  - rewrite lookup_insert_eq. split.
    + intros [= <-]. split_and!; [done|by left|].
      intros q' [?|?]%elem_of_cons; [by simplify_eq|by apply Hle].
    + intros (_ & Hin & Hmax). f_equal. assert (q ≤ q1)%Z by (apply Hmax; left).
      apply elem_of_cons in Hin as [?|Hin]; [congruence|]. specialize (Hle _ Hin). lia.
  - rewrite lookup_insert_ne, Hk by done. setoid_rewrite elem_of_cons. naive_solver.
Qed.

(** A change at or before what the cache already knows adds nothing. *)
Lemma knows_latest_older keys p h entity q :
  knows_latest keys p h → (q ≤ p)%Z ∨ (∃ q', keys !! entity = Some q' ∧ (q ≤ q')%Z) →
  knows_latest keys p (Changed entity q :: h).
Proof.
  intros [Hall Hk] Hold. split; [intros q' Hq'; apply Hall; set_solver|].
  intros e q1. rewrite Hk. setoid_rewrite elem_of_cons. split.
  - intros (Hlt & Hin & Hmax). split_and!; [done|by right|].
    intros q' [?|?]; [|by apply Hmax]. simplify_eq.
    destruct Hold as [?|(q2 & (_ & H2 & _)%Hk & ?)]; [lia|]. specialize (Hmax _ H2). lia.
  - intros (Hlt & [?|Hin] & Hmax); [|by split_and!; auto]. simplify_eq.
    destruct Hold as [?|(q2 & Hq2 & ?)]; [lia|]. pose proof Hq2 as (? & H2 & ?)%Hk.
    assert (q2 ≤ q)%Z by (apply Hmax; by right). assert (q = q2) as -> by lia. by apply Hk.
Qed.

Lemma entity_has_changed_refines c h entity pos :
  refines c h →
  ∃ c', entity_has_changed c entity pos = Ok c' ∧ refines c' (Changed entity pos :: h) ∧
    (_earliest_known_stream_pos c ≤ _earliest_known_stream_pos c')%Z.
Proof.
  intros [[Hm Hsz] Hk]. unfold entity_has_changed.
  destruct (Z.leb_spec pos (_earliest_known_stream_pos c)) as [Hle|Hgt].
  { exists c. split_and!; [done| |done]. split; [done|]. apply knows_latest_older; auto. }
  destruct (_entity_to_key c !! entity) as [q|] eqn:Hq; last first.
  { eexists. split; [done|]. apply (evict_refines (with_maps c _ _ _)); simpl; [by apply add_entity_ok|].
    apply knows_latest_newer; [done..|]. congruence. }
  destruct (Z.leb_spec pos q).
  { exists c. split_and!; [done| |done]. split; [done|]. apply knows_latest_older; eauto. }
  destruct (remove_entity_ok _ _ _ _ _ Hm Hq) as (m' & -> & Hm'). simpl.
  eexists. split; [done|]. apply (evict_refines (with_maps c _ _ _)); simpl.
  - rewrite <- (insert_delete_eq (_entity_to_key c)).
    apply add_entity_ok; [done|by rewrite lookup_delete_eq|done].
  - apply knows_latest_newer; [done..|]. intros. by simplify_eq.
Qed.

(** ** Runs of the cache *)

(** A cache and the changes reported to it since its construction.  A whole-cache
    invalidation carries the position the stream has reached: it is not below the
    earliest known position nor any change reported before.  The code does not
    check this; [invalidation_going_back_misses] shows why it is needed. *)
Inductive reachable (start : Z) : cache → list change → Prop :=
  | reach_init max_size :
      reachable start (mkCache max_size max_size [] ∅ start) []
  | reach_entity c h entity pos c' :
      reachable start c h → entity_has_changed c entity pos = Ok c' →
      reachable start c' (Changed entity pos :: h)
  | reach_all c h pos :
      reachable start c h → (_earliest_known_stream_pos c ≤ pos)%Z →
      (∀ e q, Changed e q ∈ h → (q ≤ pos)%Z) → (∀ q, AllChanged q ∈ h → (q ≤ pos)%Z) →
      reachable start (all_entities_changed c pos) (AllChanged pos :: h)
  | reach_resize c h new_size :
      reachable start c h → reachable start (set_cache_factor c new_size).1 h.

Lemma reachable_refines start c h :
  reachable start c h → refines c h ∧ (start ≤ _earliest_known_stream_pos c)%Z.
Proof.
  induction 1 as [n|c h entity pos c' _ [IH Hst] Hc'|c h pos _ [[[_ _] _] Hst] Hpos Hch Hall|c h n _ [IH Hst]].
  - split; [|done]. split; [split; [split|]|split]; simpl.
    + constructor.
    + intros e q. rewrite lookup_empty. split; [done|]. by intros (s & []%not_elem_of_nil & _).
    + by intros q s []%not_elem_of_nil.
    + by intros q s []%not_elem_of_nil.
    + lia.
    + by intros q []%not_elem_of_nil.
    + intros e q. rewrite lookup_empty. split; [done|]. by intros (_ & []%not_elem_of_nil & _).
  - destruct (entity_has_changed_refines c h entity pos IH) as (c1 & Hc1 & Href & Hle).
    assert (c1 = c') as -> by congruence. split; [done|lia].
  - split; [|simpl; lia]. split; [split; [split|]|split]; simpl.
    + constructor.
    + intros e q. rewrite lookup_empty. split; [done|]. by intros (s & []%not_elem_of_nil & _).
    + by intros q s []%not_elem_of_nil.
    + by intros q s []%not_elem_of_nil.
    + lia.
    + intros q [?|?]%elem_of_cons; [by simplify_eq|by apply Hall].
    + intros e q. rewrite lookup_empty. split; [done|].
      intros (? & [?|Hin]%elem_of_cons & _); [done|]. specialize (Hch _ _ Hin). lia.
  - unfold set_cache_factor. case_bool_decide; simpl; [|done].
    destruct IH as [[Hm Hsz] Hk].
    destruct (evict_refines (mkCache (_original_max_size c) n (_cache c) (_entity_to_key c)
      (_earliest_known_stream_pos c)) h Hm Hk) as [? ?]. split; [done|simpl in *; lia].
Qed.

Lemma knows_latest_changed keys p h e pos :
  knows_latest keys p h → (p ≤ pos)%Z →
  changed_after h e pos ↔ ∃ q, keys !! e = Some q ∧ (pos < q)%Z.
Proof.
  intros [Hall Hk] Hp. split.
  - intros (q & Hq & [Hin|Hin]); [|specialize (Hall _ Hin); lia].
    destruct (latest_exists _ _ _ Hin) as (q' & ? & ? & ?). exists q'. split; [|lia].
    apply Hk. split_and!; [lia|done..].
  - intros (q & (_ & Hin & _)%Hk & Hq). exists q. auto.
Qed.

(** C29: the cache is safe for ever.  In every reachable state its two maps are in
    sync, it holds at most [_max_size] stream positions, all of them after the
    earliest known position, and that position is never before the one the cache
    started at; and recording a change never raises. *)
Theorem stream_change_cache_invariant start c h :
  reachable start c h →
  cache_ok c ∧ (start ≤ _earliest_known_stream_pos c)%Z ∧
  ∀ entity pos, ∃ c', entity_has_changed c entity pos = Ok c'.
Proof.
  intros [Href Hst]%reachable_refines. split_and!; [by destruct Href|done|].
  intros entity pos. destruct (entity_has_changed_refines c h entity pos Href) as (c' & ? & _). eauto.
Qed.

(** C28: no change is missed.  [has_entity_changed] answers [True] for every entity
    that was reported changed after the position, individually or by a
    whole-cache invalidation, however many entries were evicted, provided
    [all_entities_changed] is never called with a position below the earliest
    known one or below a change reported before (it does not check). From the
    earliest known position on, that position included, the answer is exact: at
    the earliest known position itself an unknown entity has not changed, where
    the docstring says the answer is [True]. *)
Theorem has_entity_changed_correct start c h entity pos :
  reachable start c h →
  (changed_after h entity pos → has_entity_changed c entity pos = true) ∧
  ((_earliest_known_stream_pos c ≤ pos)%Z →
   has_entity_changed c entity pos = true ↔ changed_after h entity pos).
Proof.
  intros [[_ Hk] _]%reachable_refines. unfold has_entity_changed.
  destruct (Z.ltb_spec pos (_earliest_known_stream_pos c)) as [|Hle]; [split; [done|lia]|].
  rewrite (knows_latest_changed _ _ _ entity pos Hk Hle).
  destruct (_entity_to_key c !! entity) as [q|]; [|naive_solver].
  rewrite Z.ltb_lt. naive_solver.
Qed.

(** ** Listing the changed entities *)
Lemma StronglySorted_app_intro {A} (R : A → A → Prop) l1 l2 :
  (∀ x y, x ∈ l1 → y ∈ l1 ++ l2 → R x y) → StronglySorted R l2 → StronglySorted R (l1 ++ l2).
Proof.
  intros HR H2. induction l1 as [|x l1 IH]; [done|]. simpl. constructor.
  - apply IH. intros. apply HR; [by right|simpl; by right].
  - apply Forall_forall. intros y Hy. apply HR; [left|simpl; by right].
Qed.

(** The entities of a run of entries, in order. *)
Definition flatten (m : list (Z * gset string)) : list string := '(_, es) ← m; elements es.

Lemma elem_of_flatten m e : e ∈ flatten m ↔ ∃ q s, (q, s) ∈ m ∧ e ∈ s.
Proof.
  unfold flatten. rewrite list_elem_of_bind. split.
  - intros ([q s] & He%elem_of_elements & Hin). eauto.
  - intros (q & s & Hin & He). exists (q, s). split; [by apply elem_of_elements|done].
Qed.

Lemma flatten_ordered m (keys : gmap string Z) :
  sd_sorted m → (∀ q s e, (q, s) ∈ m → e ∈ s → keys !! e = Some q) →
  NoDup (flatten m) ∧
  StronglySorted (λ e1 e2, ∀ q1 q2, keys !! e1 = Some q1 → keys !! e2 = Some q2 → (q1 ≤ q2)%Z)
    (flatten m).
Proof.
  induction m as [|[k s] m IH]; intros Hs Hk; [split; constructor|].
  apply sd_sorted_cons in Hs as [Hs Hlt].
  destruct IH as [Hnd Hss]; [done|intros; eapply Hk; [by right|done]|].
  assert (∀ e, e ∈ elements s → keys !! e = Some k) as Hks.
  { intros e He%elem_of_elements. eapply Hk; [left|done]. }
  assert (∀ e, e ∈ flatten m → ∃ q, keys !! e = Some q ∧ (k < q)%Z) as Hrest.
  { intros e (q & s' & Hin & He)%elem_of_flatten. exists q. split; [|by eapply Hlt].
    eapply Hk; [by right|done]. }
  change (flatten ((k, s) :: m)) with (elements s ++ flatten m). split.
  - apply NoDup_app. split_and!; [apply NoDup_elements| |done].
    intros e He%Hks (q & Hq & ?)%Hrest. simplify_eq. lia.
  - apply StronglySorted_app_intro; [|done]. intros x y Hx%Hks Hy q1 q2 H1 H2.
    simplify_eq. apply elem_of_app in Hy as [Hy%Hks|(q & Hq & ?)%Hrest]; simplify_eq; lia.
Qed.

Lemma changed_in_cache c h e pos :
  refines c h → (_earliest_known_stream_pos c ≤ pos)%Z →
  changed_after h e pos ↔ ∃ q s, (pos < q)%Z ∧ (q, s) ∈ _cache c ∧ e ∈ s.
Proof.
  intros [[[_ Hsync _ _] _] Hk] Hle. rewrite (knows_latest_changed _ _ _ _ _ Hk Hle).
  setoid_rewrite Hsync. naive_solver.
Qed.

Lemma get_all_entities_changed_correct c h pos l :
  refines c h → get_all_entities_changed c pos = Some l →
  NoDup l ∧ (∀ e, e ∈ l ↔ changed_after h e pos) ∧
  StronglySorted (λ e1 e2, ∀ q1 q2, get_max_pos_of_last_change c e1 = Some q1 →
     get_max_pos_of_last_change c e2 = Some q2 → (q1 ≤ q2)%Z) l.
Proof.
  intros Href. pose proof Href as [[[Hs Hsync _ _] _] _]. unfold get_all_entities_changed.
  destruct (Z.ltb_spec pos (_earliest_known_stream_pos c)) as [|Hle]; [done|]. intros [= <-].
  fold (flatten (islice (_cache c) (bisect_right (_cache c) pos))).
  destruct (flatten_ordered (islice (_cache c) (bisect_right (_cache c) pos)) (_entity_to_key c))
    as [Hnd Hss].
  { by apply islice_sorted. }
  { intros q s e [_ Hin]%islice_bisect_elem He; [|done]. apply Hsync. eauto. }
  split_and!; [done| |done]. intros e. rewrite elem_of_flatten, (changed_in_cache c h) by done.
  setoid_rewrite islice_bisect_elem; [|done..]. naive_solver.
Qed.

(** the bulk queries agree with the history.  [get_all_entities_changed] misses
    exactly when the position is too old, and otherwise lists the entities
    changed after it, each once and in the order of their latest changes;
    [get_entities_changed], whichever of its two strategies the size heuristic
    picks, returns a subset of the entities asked about that contains all those
    that changed; [has_any_entity_changed] is true whenever something changed. *)
Theorem bulk_queries_correct start c h pos :
  reachable start c h →
  (get_all_entities_changed c pos = None ↔ (pos < _earliest_known_stream_pos c)%Z) ∧
  (∀ l, get_all_entities_changed c pos = Some l →
     NoDup l ∧ (∀ e, e ∈ l ↔ changed_after h e pos) ∧
     StronglySorted (λ e1 e2, ∀ q1 q2, get_max_pos_of_last_change c e1 = Some q1 →
        get_max_pos_of_last_change c e2 = Some q2 → (q1 ≤ q2)%Z) l) ∧
  (∀ entities perf e, e ∈ get_entities_changed c entities pos perf → e ∈ entities) ∧
  (∀ entities perf e, e ∈ entities → changed_after h e pos →
     e ∈ get_entities_changed c entities pos perf) ∧
  (∀ e, changed_after h e pos → has_any_entity_changed c pos = true).
Proof.
  intros [Href _]%reachable_refines. split_and!.
  - unfold get_all_entities_changed. destruct (Z.ltb_spec pos (_earliest_known_stream_pos c)); [done|].
    split; [done|lia].
  - intros l. by apply get_all_entities_changed_correct.
  - intros entities perf e. unfold get_entities_changed.
    destruct (peekitem _) as [[k ?]|]; [|by intros ?%elem_of_list_to_set].
    destruct (_ <? _)%Z; [by intros ?%elem_of_list_to_set|].
    destruct (_ <? _)%Z; [by intros [_ ?]%elem_of_list_to_set%list_elem_of_filter|].
    destruct (get_all_entities_changed c pos); set_solver.
  - intros entities perf e He Hch. unfold get_entities_changed.
    destruct (peekitem _) as [[k ?]|]; [|by apply elem_of_list_to_set].
    destruct (Z.ltb_spec pos (_earliest_known_stream_pos c)); [by apply elem_of_list_to_set|].
    destruct (_ <? _)%Z.
    + apply elem_of_list_to_set, list_elem_of_filter. split; [|done].
      destruct Href as [_ Hk]. apply (knows_latest_changed _ _ _ e pos Hk) in Hch as (q & -> & ?); done.
    + destruct (get_all_entities_changed c pos) as [l|] eqn:Hl; [|by apply elem_of_list_to_set].
      apply (get_all_entities_changed_correct c h) in Hl as (_ & Hl & _); [|done].
      apply elem_of_intersection. rewrite !elem_of_list_to_set. split; [done|]. by apply Hl.
  - intros e Hch. unfold has_any_entity_changed.
    destruct (Z.ltb_spec pos (_earliest_known_stream_pos c)) as [|Hle]; [done|].
    apply (changed_in_cache c h) in Hch as (q & s & Hq & Hin & _); [|done..].
    destruct (peekitem (_cache c)) as [[k v]|] eqn:Hpk.
    + apply peekitem_max in Hpk as [_ Hmax]; [|apply Href]. specialize (Hmax _ _ Hin).
      apply Z.ltb_lt. lia.
    + unfold peekitem in Hpk. apply last_None in Hpk. rewrite Hpk in Hin.
      by apply not_elem_of_nil in Hin.
Qed.

(** ** The theorems at work: a cache of one position, with an eviction *)
Definition ex_cache : result cache :=
  c ← entity_has_changed (mkCache 1 1 [] ∅ 0) "@a" 5; entity_has_changed c "@b" 7.

Lemma ex_cache_reachable :
  ∃ c, ex_cache = Ok c ∧ _earliest_known_stream_pos c = 5%Z ∧
    reachable 0 c [Changed "@b" 7; Changed "@a" 5].
Proof.
  assert (reachable 0 (mkCache 1 1 [] ∅ 0) []) as H0 by constructor.
  destruct (entity_has_changed (mkCache 1 1 [] ∅ 0) "@a" 5) as [c1|] eqn:H1;
    [|vm_compute in H1; discriminate H1].
  destruct (entity_has_changed c1 "@b" 7) as [c2|] eqn:H2;
    [|vm_compute in H1; injection H1 as <-; vm_compute in H2; discriminate H2].
  exists c2. unfold ex_cache. rewrite H1. split; [exact H2|]. split.
  - vm_compute in H1. injection H1 as <-. vm_compute in H2. injection H2 as <-. reflexivity.
  - eapply reach_entity; [eapply reach_entity|]; eassumption.
Qed.

(** An invalidation with an old position makes the cache miss a change. *)
Example invalidation_going_back_misses :
  match entity_has_changed (mkCache 10 10 [] ∅ 0) "@a" 5 with
  | Ok c => has_entity_changed c "@a" 4 = true ∧ has_entity_changed (all_entities_changed c 3) "@a" 4 = false
  | Raise _ => False
  end.
Proof. vm_compute. done. Qed.

Lemma stream_change_cache_invariant_witness : ∃ c, ex_cache = Ok c ∧ cache_ok c.
Proof.
  destruct ex_cache_reachable as (c & Hc & _ & Hr). exists c.
  exact (conj Hc (proj1 (stream_change_cache_invariant 0 c _ Hr))).
Defined.

Lemma has_entity_changed_correct_witness :
  ∃ c, ex_cache = Ok c ∧ has_entity_changed c "@a" 4 = true.
Proof.
  destruct ex_cache_reachable as (c & Hc & _ & Hr). exists c. split; [exact Hc|].
  refine (proj1 (has_entity_changed_correct 0 c _ "@a" 4 Hr) _).
  exists 5%Z. split; [lia|]. left. right. left.
Defined.

Lemma bulk_queries_correct_witness :
  ∃ c, ex_cache = Ok c ∧ get_all_entities_changed c 4 = None.
Proof.
  destruct ex_cache_reachable as (c & Hc & He & Hr). exists c. split; [exact Hc|].
  refine (proj2 (proj1 (bulk_queries_correct 0 c _ 4 Hr)) _). rewrite He. lia.
Defined.
