(* ===== verification/StreamTokens.v ===== *)
(** Stream tokens: [AbstractMultiWriterStreamToken], [RoomStreamToken],
    [MultiWriterStreamToken] and [StreamToken] of
    [textrp_briij/types/__init__.py].

    [instance_map] is an [immutabledict], compared without regard to order, and
    is modelled by a [gmap].  The two lookups in the [instance_map] table of the
    database are parameters. *)
From S2P Require Import Prelude.
From Stdlib Require Import Ascii.

Definition invalid_token (msg : string) : exn := SynapseError 400 msg "M_UNKNOWN".

(** ** Multi-writer tokens *)
Record mw_token := mkMW {
  stream : Z;
  instance_map : gmap string Z
}.

#[export] Instance mw_token_eq_dec : EqDecision mw_token.
Proof. solve_decision. Defined.

(** The constructor, with the check of [__attrs_post_init__]. *)
Definition mw_new (s : Z) (m : gmap string Z) : result mw_token :=
  if decide (map_Forall (λ _ v, s < v)%Z m) then Ok (mkMW s m) else Raise ValueError.

(** [get_stream_pos_for_instance] *)
Definition pos_for_instance (t : mw_token) (instance_name : string) : Z :=
  default (stream t) (instance_map t !! instance_name).

Definition instances (a b : mw_token) : gset string := dom (instance_map a) ∪ dom (instance_map b).

Definition mw_copy_and_advance (self other : mw_token) : result mw_token :=
  let max_stream := Z.max (stream self) (stream other) in
  let m := set_to_map
             (λ i, (i, Z.max (pos_for_instance self i) (pos_for_instance other i)))
             (instances self other) in
  mw_new max_stream (filter (λ kv, max_stream < kv.2)%Z m).

Definition get_max_stream_pos (t : mw_token) : Z :=
  match (map_to_list (instance_map t)).*2 with
  | [] => stream t
  | v :: vs => foldl Z.max v vs
  end.

Definition mw_is_before_or_eq (self other_token : mw_token) : bool :=
  if (stream other_token <? stream self)%Z then false
  else forallb (λ i, pos_for_instance self i <=? pos_for_instance other_token i)%Z
         (elements (instances self other_token)).

Definition mw_bound_stream_token (t : mw_token) (max_stream : Z) : result mw_token :=
  let min_pos := Z.min (stream t) max_stream in
  mw_new min_pos
    (filter (λ kv, min_pos < kv.2)%Z ((λ s, Z.min s max_stream) <$> instance_map t)).

(** [from_generator]: the generator's current token and its positions. *)
Definition from_generator (min_pos : Z) (positions : gmap string Z) : result mw_token :=
  mw_new min_pos (filter (λ kv, min_pos < kv.2)%Z positions).

(** [is_stream_position_in_range]; the empty string is no instance name. *)
Definition bound_at (t : mw_token) (instance_name : option string) : Z :=
  match instance_name with
  | Some i => if str_nonempty i then pos_for_instance t i else stream t
  | None => stream t
  end.

Definition is_stream_position_in_range (low high : option mw_token) (instance_name : option string)
    (pos : Z) : bool :=
  negb (match low with Some t => (pos <=? bound_at t instance_name)%Z | None => false end) &&
  negb (match high with Some t => (bound_at t instance_name <? pos)%Z | None => false end).

(** ** Room tokens *)
Record room_token := mkRoom {
  rt_base : mw_token;
  topological : option Z
}.

#[export] Instance room_token_eq_dec : EqDecision room_token.
Proof. solve_decision. Defined.

(** [bool(topological)] *)
Definition topological_set (t : option Z) : bool :=
  match t with Some z => negb (z =? 0)%Z | None => false end.

Definition room_new (topo : option Z) (s : Z) (m : gmap string Z) : result room_token :=
  _ ← raise_if (bool_decide (m ≠ ∅) && topological_set topo) ValueError;
  t ← mw_new s m;
  Ok (mkRoom t topo).

Definition room_copy_and_advance (self other : room_token) : result room_token :=
  _ ← raise_if (topological_set (topological self) || topological_set (topological other))
        (PyException "Can't advance topological tokens");
  t ← mw_copy_and_advance (rt_base self) (rt_base other);
  room_new (topological self) (stream t) (instance_map t).

Definition as_historical_tuple (t : room_token) : result (Z * Z) :=
  topo ← of_option (topological t)
           (PyException "Cannot call `RoomStreamToken.as_historical_tuple` on live token");
  Ok (topo, stream (rt_base t)).

Definition room_bound_stream_token (t : room_token) (max_stream : Z) : result room_token :=
  _ ← raise_if (bool_decide (topological t ≠ None)) AssertionError;
  b ← mw_bound_stream_token (rt_base t) max_stream;
  room_new None (stream b) (instance_map b).

Definition room_pos_for_instance (t : room_token) (instance_name : string) : result Z :=
  _ ← raise_if (bool_decide (topological t ≠ None)) AssertionError;
  Ok (pos_for_instance (rt_base t) instance_name).

(** ** Text form *)
Section Text.
(** [store.get_id_for_instance] and [store.get_name_from_instance_id]. *)
Context (get_id_for_instance : string → result Z).
Context (get_name_from_instance_id : Z → result string).

Definition py_int_str (s : string) : result Z := of_option (int_of_string s) ValueError.

(** One [instance.position] part of an [m] token. *)
Definition parse_entry (m : gmap string Z) (part : string) : result (gmap string Z) :=
  if negb (str_nonempty part) then Ok m
  else
    match split_all "." part with
    | [key; value] =>
        instance_id ← py_int_str key;
        pos ← py_int_str value;
        instance_name ← get_name_from_instance_id instance_id;
        Ok (<[instance_name := pos]> m)
    | _ => Raise ValueError
    end.

(** The part of an [m] token after the [m]. *)
Definition parse_map (s : string) : result (Z * gmap string Z) :=
  match split_all "~" s with
  | [] => Raise IndexError
  | part0 :: parts =>
      stream ← py_int_str part0;
      m ← fold_res parse_entry parts ∅;
      Ok (stream, m)
  end.

(** The entries [to_string] writes. *)
Definition print_entries (t : mw_token) : result (list string) :=
  fold_res (λ entries '(name, pos),
    if (pos <=? stream t)%Z then Ok entries
    else
      instance_id ← get_id_for_instance name;
      Ok (entries ++ [pretty instance_id +:+ "." +:+ pretty (pos : Z)]))
    (map_to_list (instance_map t)) [].

(** [m{stream}~{encoded_map}], or the given text without entries. *)
Definition print_with_map (t : mw_token) (plain : string) : result string :=
  if decide (instance_map t = ∅) then Ok plain
  else
    entries ← print_entries t;
    match entries with
    | [] => Ok plain
    | _ => Ok ("m" +:+ pretty (stream t) +:+ "~" +:+ String.concat "~" entries)
    end.

Definition room_parse_body (string : string) : result room_token :=
  match string with
  | String "s"%char s => n ← py_int_str s; room_new None n ∅
  | String "t"%char s =>
      match split_once "-" s with
      | None => topo ← py_int_str s; Raise IndexError
      | Some (p0, p1) =>
          topo ← py_int_str p0;
          n ← py_int_str p1;
          room_new (Some topo) n ∅
      end
  | String "m"%char s => '(n, m) ← parse_map s; room_new None n m
  | _ => Raise ValueError
  end.

(** [RoomStreamToken.parse].  The message of the first refusal is an f-string
    whose format specifier raises [ValueError]. *)
Definition room_parse (string : string) : result room_token :=
  match string with
  | String ("s" | "t" | "m")%char _ =>
      try_except (room_parse_body string)
        (λ _, Raise (invalid_token "Invalid room stream token %r"))
  | _ => Raise ValueError
  end.

Definition parse_stream_token (string : string) : result room_token :=
  match string with
  | String "s"%char s =>
      try_except (n ← py_int_str s; room_new None n ∅)
        (λ _, Raise (invalid_token "Invalid room stream token %r"))
  | _ => Raise (invalid_token "Invalid room stream token %r")
  end.

Definition room_to_string (t : room_token) : result string :=
  match topological t with
  | Some topo => Ok ("t" +:+ pretty topo +:+ "-" +:+ pretty (stream (rt_base t)))
  | None => print_with_map (rt_base t) ("s" +:+ pretty (stream (rt_base t)))
  end.

Definition mw_parse (string : string) : result mw_token :=
  try_except
    (match string with
     | EmptyString => Raise IndexError
     | String c s =>
         if is_digit c then n ← py_int_str string; mw_new n ∅
         else if Ascii.eqb c "m" then '(n, m) ← parse_map s; mw_new n m
         else Raise (invalid_token "Invalid stream token %r")
     end)
    (λ _, Raise (invalid_token "Invalid stream token %r")).

Definition mw_to_string (t : mw_token) : result string := print_with_map t (pretty (stream t)).
End Text.

(** ** The combined token *)
Record StreamToken := mkStreamToken {
  room_key : room_token;
  presence_key : Z;
  typing_key : Z;
  receipt_key : mw_token;
  account_data_key : Z;
  push_rules_key : Z;
  to_device_key : Z;
  device_list_key : mw_token;
  groups_key : Z;
  un_partial_stated_rooms_key : Z;
  thread_subscriptions_key : Z;
  sticky_events_key : Z
}.

Inductive StreamKeyType :=
  | ROOM | PRESENCE | TYPING | RECEIPT | ACCOUNT_DATA | PUSH_RULES | TO_DEVICE | DEVICE_LIST
  | UN_PARTIAL_STATED_ROOMS | THREAD_SUBSCRIPTIONS | STICKY_EVENTS.

#[export] Instance StreamKeyType_eq_dec : EqDecision StreamKeyType.
Proof. solve_decision. Defined.

Definition stream_keys : list StreamKeyType :=
  [ROOM; PRESENCE; TYPING; RECEIPT; ACCOUNT_DATA; PUSH_RULES; TO_DEVICE; DEVICE_LIST;
   UN_PARTIAL_STATED_ROOMS; THREAD_SUBSCRIPTIONS; STICKY_EVENTS].

(** The type of each field, as the overloads of [get_field] declare it. *)
Definition field_type (key : StreamKeyType) : Type :=
  match key with
  | ROOM => room_token
  | RECEIPT | DEVICE_LIST => mw_token
  | _ => Z
  end.

Definition get_field (t : StreamToken) (key : StreamKeyType) : field_type key :=
  match key with
  | ROOM => room_key t
  | PRESENCE => presence_key t
  | TYPING => typing_key t
  | RECEIPT => receipt_key t
  | ACCOUNT_DATA => account_data_key t
  | PUSH_RULES => push_rules_key t
  | TO_DEVICE => to_device_key t
  | DEVICE_LIST => device_list_key t
  | UN_PARTIAL_STATED_ROOMS => un_partial_stated_rooms_key t
  | THREAD_SUBSCRIPTIONS => thread_subscriptions_key t
  | STICKY_EVENTS => sticky_events_key t
  end.

Definition copy_and_replace (t : StreamToken) (key : StreamKeyType) : field_type key → StreamToken :=
  let '(mkStreamToken rk pk tk rcp ad pr td dl g ups ts se) := t in
  match key with
  | ROOM => λ v, mkStreamToken v pk tk rcp ad pr td dl g ups ts se
  | PRESENCE => λ v, mkStreamToken rk v tk rcp ad pr td dl g ups ts se
  | TYPING => λ v, mkStreamToken rk pk v rcp ad pr td dl g ups ts se
  | RECEIPT => λ v, mkStreamToken rk pk tk v ad pr td dl g ups ts se
  | ACCOUNT_DATA => λ v, mkStreamToken rk pk tk rcp v pr td dl g ups ts se
  | PUSH_RULES => λ v, mkStreamToken rk pk tk rcp ad v td dl g ups ts se
  | TO_DEVICE => λ v, mkStreamToken rk pk tk rcp ad pr v dl g ups ts se
  | DEVICE_LIST => λ v, mkStreamToken rk pk tk rcp ad pr td v g ups ts se
  | UN_PARTIAL_STATED_ROOMS => λ v, mkStreamToken rk pk tk rcp ad pr td dl g v ts se
  | THREAD_SUBSCRIPTIONS => λ v, mkStreamToken rk pk tk rcp ad pr td dl g ups v se
  | STICKY_EVENTS => λ v, mkStreamToken rk pk tk rcp ad pr td dl g ups ts v
  end.

(** The plain integer keys: replace the value only by a larger one. *)
Definition advance_int (t : StreamToken) (old_id new_id : Z) (new_token : StreamToken)
    : result StreamToken :=
  Ok (if (old_id <? new_id)%Z then new_token else t).

Definition copy_and_advance (t : StreamToken) (key : StreamKeyType)
    : field_type key → result StreamToken :=
  match key with
  | ROOM => λ v, k ← room_copy_and_advance (room_key t) v; Ok (copy_and_replace t ROOM k)
  | RECEIPT => λ v, k ← mw_copy_and_advance (receipt_key t) v; Ok (copy_and_replace t RECEIPT k)
  | DEVICE_LIST => λ v,
      k ← mw_copy_and_advance (device_list_key t) v; Ok (copy_and_replace t DEVICE_LIST k)
  | PRESENCE => λ v, advance_int t (presence_key t) v (copy_and_replace t PRESENCE v)
  | TYPING => λ v, advance_int t (typing_key t) v (copy_and_replace t TYPING v)
  | ACCOUNT_DATA => λ v, advance_int t (account_data_key t) v (copy_and_replace t ACCOUNT_DATA v)
  | PUSH_RULES => λ v, advance_int t (push_rules_key t) v (copy_and_replace t PUSH_RULES v)
  | TO_DEVICE => λ v, advance_int t (to_device_key t) v (copy_and_replace t TO_DEVICE v)
  | UN_PARTIAL_STATED_ROOMS => λ v,
      advance_int t (un_partial_stated_rooms_key t) v (copy_and_replace t UN_PARTIAL_STATED_ROOMS v)
  | THREAD_SUBSCRIPTIONS => λ v,
      advance_int t (thread_subscriptions_key t) v (copy_and_replace t THREAD_SUBSCRIPTIONS v)
  | STICKY_EVENTS => λ v, advance_int t (sticky_events_key t) v (copy_and_replace t STICKY_EVENTS v)
  end.

(** One key of the comparison; the typing stream may reset and is skipped. *)
Definition field_before_or_eq (a b : StreamToken) (key : StreamKeyType) : bool :=
  match key with
  | TYPING => true
  | ROOM => mw_is_before_or_eq (rt_base (room_key a)) (rt_base (room_key b))
  | RECEIPT => mw_is_before_or_eq (receipt_key a) (receipt_key b)
  | DEVICE_LIST => mw_is_before_or_eq (device_list_key a) (device_list_key b)
  | PRESENCE => presence_key a <=? presence_key b
  | ACCOUNT_DATA => account_data_key a <=? account_data_key b
  | PUSH_RULES => push_rules_key a <=? push_rules_key b
  | TO_DEVICE => to_device_key a <=? to_device_key b
  | UN_PARTIAL_STATED_ROOMS => un_partial_stated_rooms_key a <=? un_partial_stated_rooms_key b
  | THREAD_SUBSCRIPTIONS => thread_subscriptions_key a <=? thread_subscriptions_key b
  | STICKY_EVENTS => sticky_events_key a <=? sticky_events_key b
  end%Z.

Definition is_before_or_eq (self other_token : StreamToken) : bool :=
  forallb (field_before_or_eq self other_token) stream_keys.

Section TokenText.
Context (get_id_for_instance : string → result Z).
Context (get_name_from_instance_id : Z → result string).

Definition token_from_keys (keys : list string) : result StreamToken :=
  match keys ++ replicate (12 - length keys) "0" with
  | [room_key; presence_key; typing_key; receipt_key; account_data_key; push_rules_key;
     to_device_key; device_list_key; groups_key; un_partial_stated_rooms_key;
     thread_subscriptions_key; sticky_events_key] =>
      rk ← room_parse get_name_from_instance_id room_key;
      pk ← py_int_str presence_key;
      tk ← py_int_str typing_key;
      rcp ← mw_parse get_name_from_instance_id receipt_key;
      ad ← py_int_str account_data_key;
      pr ← py_int_str push_rules_key;
      td ← py_int_str to_device_key;
      dl ← mw_parse get_name_from_instance_id device_list_key;
      g ← py_int_str groups_key;
      ups ← py_int_str un_partial_stated_rooms_key;
      ts ← py_int_str thread_subscriptions_key;
      se ← py_int_str sticky_events_key;
      Ok (mkStreamToken rk pk tk rcp ad pr td dl g ups ts se)
  | _ => Raise ValueError
  end.

Definition token_from_string (string : string) : result StreamToken :=
  try_except (token_from_keys (split_all "_" string))
    (λ _, Raise (invalid_token "Invalid stream token")).

Definition token_to_string (t : StreamToken) : result string :=
  rk ← room_to_string get_id_for_instance (room_key t);
  rcp ← mw_to_string get_id_for_instance (receipt_key t);
  dl ← mw_to_string get_id_for_instance (device_list_key t);
  Ok (String.concat "_"
        [rk; pretty (presence_key t); pretty (typing_key t); rcp; pretty (account_data_key t);
         pretty (push_rules_key t); pretty (to_device_key t); dl; pretty (groups_key t);
         pretty (un_partial_stated_rooms_key t); pretty (thread_subscriptions_key t);
         pretty (sticky_events_key t)]).
End TokenText.
