(* ===== verification/StreamTokensProps.v ===== *)
(** Stream tokens are vector clocks: order, joins, bounds and text form. *)
From S2P Require Import Prelude StreamTokens.
From Stdlib Require Import Ascii.

(** ** Well-formed tokens: what the constructors accept *)
Definition mw_wf (t : mw_token) : Prop := map_Forall (λ _ v, (stream t < v)%Z) (instance_map t).

Lemma mw_new_ok s m t : mw_new s m = Ok t ↔ t = mkMW s m ∧ mw_wf (mkMW s m).
Proof. unfold mw_new, mw_wf. simpl. case_decide; naive_solver. Qed.

Lemma mw_new_filter s (m : gmap string Z) :
  mw_new s (filter (λ kv, s < kv.2)%Z m) = Ok (mkMW s (filter (λ kv, s < kv.2)%Z m)) ∧
  mw_wf (mkMW s (filter (λ kv, s < kv.2)%Z m)).
Proof.
  assert (mw_wf (mkMW s (filter (λ kv, s < kv.2)%Z m))) as Hwf.
  { intros i v [_ Hv]%map_lookup_filter_Some. done. }
  split; [|done]. by apply mw_new_ok.
Qed.

(** The position of an instance in a token built by dropping the redundant
    entries of [m]. *)
Lemma pos_for_filtered s (m : gmap string Z) i :
  pos_for_instance (mkMW s (filter (λ kv, s < kv.2)%Z m)) i =
  match m !! i with Some v => Z.max s v | None => s end.
Proof.
  unfold pos_for_instance. simpl. rewrite map_lookup_filter.
  destruct (m !! i) as [v|]; simpl; [|done].
  unfold guard. case_decide; simpl; lia.
Qed.

Lemma pos_ge_stream t i : mw_wf t → (stream t ≤ pos_for_instance t i)%Z.
Proof.
  intros Hwf. unfold pos_for_instance. destruct (instance_map t !! i) as [v|] eqn:Hv; simpl; [|lia].
  specialize (Hwf i v Hv). simpl in Hwf. lia.
Qed.

Lemma elem_of_instances a b i :
  i ∉ instances a b → pos_for_instance a i = stream a ∧ pos_for_instance b i = stream b.
Proof.
  unfold instances, pos_for_instance. rewrite not_elem_of_union, !not_elem_of_dom.
  by intros [-> ->].
Qed.

(** ** Joins and bounds *)
Lemma mw_copy_and_advance_ok a b :
  mw_wf a → mw_wf b →
  ∃ t, mw_copy_and_advance a b = Ok t ∧ mw_wf t ∧ stream t = Z.max (stream a) (stream b) ∧
    ∀ i, pos_for_instance t i = Z.max (pos_for_instance a i) (pos_for_instance b i).
Proof.
  intros Ha Hb. unfold mw_copy_and_advance.
  destruct (mw_new_filter (Z.max (stream a) (stream b))
    (set_to_map (λ i, (i, Z.max (pos_for_instance a i) (pos_for_instance b i))) (instances a b)))
    as [-> Hwf].
  eexists. split_and!; [done|done|done|]. intros i. rewrite pos_for_filtered.
  pose proof (pos_ge_stream a i Ha). pose proof (pos_ge_stream b i Hb).
  destruct (set_to_map _ _ !! i) as [v|] eqn:Hv.
  - apply lookup_set_to_map in Hv as (j & _ & [= -> <-]); [lia|]. intros ?? _ _ ?; simpl in *; congruence.
  - destruct (decide (i ∈ instances a b)) as [Hin|Hni%elem_of_instances]; [|lia].
    exfalso. eapply eq_None_ne_Some_1 in Hv. apply Hv. apply lookup_set_to_map.
    + intros ?? _ _ ?; simpl in *; congruence.
    + by exists i.
Qed.

Lemma mw_before_or_eq_iff a b :
  mw_is_before_or_eq a b = true ↔
  (stream a ≤ stream b)%Z ∧ ∀ i, (pos_for_instance a i ≤ pos_for_instance b i)%Z.
Proof.
  unfold mw_is_before_or_eq. destruct (Z.ltb_spec (stream b) (stream a)); [split; [done|lia]|].
  rewrite forallb_forall. setoid_rewrite <- list_elem_of_In. setoid_rewrite Z.leb_le. split.
  - intros Hall. split; [done|]. intros i.
    destruct (decide (i ∈ instances a b)) as [Hin|Hni%elem_of_instances]; [|lia].
    apply Hall. by apply elem_of_elements.
  - intros [_ Hall] i _. apply Hall.
Qed.

(** [copy_and_advance] computes the join of two vector clocks, and
    [is_before_or_eq] is the order it is the join for.  On tokens the
    constructor accepts, advancing succeeds, is at or after both arguments and
    below every other token that is, and puts every writer at the later of its
    two positions; the order is reflexive, transitive and antisymmetric. *)
Theorem mw_token_lattice a b :
  mw_wf a → mw_wf b →
  (∃ t, mw_copy_and_advance a b = Ok t ∧ mw_wf t ∧
     (∀ i, pos_for_instance t i = Z.max (pos_for_instance a i) (pos_for_instance b i)) ∧
     mw_is_before_or_eq a t = true ∧ mw_is_before_or_eq b t = true ∧
     ∀ u, mw_is_before_or_eq a u = true → mw_is_before_or_eq b u = true →
          mw_is_before_or_eq t u = true) ∧
  mw_is_before_or_eq a a = true ∧
  (∀ u, mw_is_before_or_eq a b = true → mw_is_before_or_eq b u = true →
        mw_is_before_or_eq a u = true) ∧
  (mw_is_before_or_eq a b = true → mw_is_before_or_eq b a = true → a = b).
Proof.
  intros Ha Hb. split_and!.
  - destruct (mw_copy_and_advance_ok a b Ha Hb) as (t & Ht & Hwf & Hs & Hp).
    exists t. setoid_rewrite mw_before_or_eq_iff. rewrite Hs. setoid_rewrite Hp.
    split_and!; [done..|lia|intros; lia|lia|intros; lia|].
    intros u [? H1] [? H2]. split; [lia|]. intros i. specialize (H1 i). specialize (H2 i). lia.
  - rewrite mw_before_or_eq_iff. split; intros; lia.
  - setoid_rewrite mw_before_or_eq_iff. intros u [? H1] [? H2]. split; [lia|].
    intros i. specialize (H1 i). specialize (H2 i). lia.
  - rewrite !mw_before_or_eq_iff. intros [? H1] [? H2].
    destruct a as [sa ma], b as [sb mb]. simpl in *. assert (sa = sb) as -> by lia. f_equal.
    apply map_eq. intros i. specialize (H1 i). specialize (H2 i).
    specialize (Ha i). specialize (Hb i). unfold pos_for_instance in *. simpl in *.
    destruct (ma !! i) as [x|], (mb !! i) as [y|]; simpl in *; try done.
    + f_equal. lia.
    + specialize (Ha _ eq_refl). lia.
    + specialize (Hb _ eq_refl). lia.
Qed.

(** [bound_stream_token] caps every writer at the bound, and a position lies
    in the range between two tokens exactly when it is after the writer's
    position in the first and at or before its position in the second; so
    advancing a token past another neither gains nor loses positions. *)
Theorem mw_token_bounds t m :
  mw_wf t →
  (∃ b, mw_bound_stream_token t m = Ok b ∧ mw_wf b ∧
     ∀ i, pos_for_instance b i = Z.min (pos_for_instance t i) m) ∧
  (∀ i, (pos_for_instance t i ≤ get_max_stream_pos t)%Z) ∧
  (∀ low i pos, str_nonempty i = true →
     is_stream_position_in_range (Some low) (Some t) (Some i) pos = true ↔
     (pos_for_instance low i < pos ≤ pos_for_instance t i)%Z).
Proof.
  intros Hwf. split_and!.
  - unfold mw_bound_stream_token.
    destruct (mw_new_filter (Z.min (stream t) m) ((λ s, Z.min s m) <$> instance_map t)) as [-> Hb].
    eexists. split_and!; [done..|]. intros i. rewrite pos_for_filtered, lookup_fmap.
    specialize (Hwf i). unfold pos_for_instance. destruct (instance_map t !! i) as [v|]; simpl; [|lia].
    specialize (Hwf v eq_refl). lia.
  - intros i. unfold get_max_stream_pos, pos_for_instance.
    assert (∀ vs v x, x ∈ v :: vs → (x ≤ foldl Z.max v vs)%Z) as Hmax.
    { induction vs as [|w vs IH]; intros v x Hx; simpl.
      - apply list_elem_of_singleton in Hx. lia.
      - apply elem_of_cons in Hx as [->|[->|Hx]%elem_of_cons].
        + etrans; [|apply IH; left]. lia.
        + etrans; [|apply IH; left]. lia.
        + apply IH. by right. }
    destruct (instance_map t !! i) as [v|] eqn:Hv; simpl.
    + assert (v ∈ (map_to_list (instance_map t)).*2) as Hin.
      { apply list_elem_of_fmap. exists (i, v). split; [done|]. by apply elem_of_map_to_list. }
      destruct ((map_to_list (instance_map t)).*2); [by apply not_elem_of_nil in Hin|]. by apply Hmax.
    + destruct ((map_to_list (instance_map t)).*2) as [|v vs] eqn:Hl; [done|].
      assert (v ∈ (map_to_list (instance_map t)).*2) as Hin by (rewrite Hl; left).
      apply list_elem_of_fmap in Hin as ([j w] & -> & Hin%elem_of_map_to_list).
      specialize (Hwf _ _ Hin). simpl in *. etrans; [|apply Hmax; left]. lia.
  - intros low i pos Hi. unfold is_stream_position_in_range, bound_at. rewrite Hi.
    rewrite andb_true_iff, !negb_true_iff, Z.leb_gt, Z.ltb_ge. lia.
Qed.

(** ** Text form *)

(** [int] accepts what [%d] prints up to 4300 digits. *)
Definition printable (z : Z) : Prop := (Z.abs_N z < 10 ^ 4300)%N.

Lemma py_int_str_pretty z : printable z → py_int_str (pretty z) = Ok z.
Proof. intros Hz. unfold py_int_str. by rewrite int_of_string_pretty. Qed.

Definition dec_char (c : ascii) : bool := is_digit c || Ascii.eqb c "-".

Lemma pretty_dec_chars (z : Z) : str_forall dec_char (pretty z) = true.
Proof.
  assert (∀ n : N, str_forall dec_char (pretty n) = true) as Hn.
  { intros n. eapply str_forall_impl; [|apply pretty_N_digits]. intros c Hc. unfold dec_char. by rewrite Hc. }
  destruct z; [done|apply (Hn (Npos p))|]. change (pretty (Zneg p)) with ("-" +:+ pretty (Npos p)).
  simpl. apply Hn.
Qed.

Lemma str_forall_not_mem P c s : str_forall P s = true → P c = false → str_mem c s = false.
Proof.
  intros Hs Hc. induction s as [|d s IH]; simpl in *; [done|].
  apply andb_true_iff in Hs as [Hd Hs]. rewrite IH by done.
  destruct (Ascii.eqb_spec c d); [congruence|done].
Qed.

Lemma pretty_not_mem c (z : Z) : dec_char c = false → str_mem c (pretty z) = false.
Proof. apply str_forall_not_mem, pretty_dec_chars. Qed.

Lemma split_all_none c s : str_mem c s = false → split_all c s = [s].
Proof.
  induction s as [|d s IH]; simpl; [done|].
  intros [Hd Hs]%orb_false_iff. rewrite Hd, IH by done. done.
Qed.

Lemma split_all_app c s t :
  str_mem c s = false → split_all c (s +:+ String c t) = s :: split_all c t.
Proof.
  induction s as [|d s IH]; simpl.
  - by rewrite Ascii.eqb_refl.
  - intros [Hd Hs]%orb_false_iff. rewrite Hd, IH by done. done.
Qed.

Lemma split_all_concat c l :
  l ≠ [] → Forall (λ s, str_mem c s = false) l →
  split_all c (String.concat (String c "") l) = l.
Proof.
  induction l as [|s [|s' l] IH]; [done|..]; intros _ [Hs Hl]%Forall_cons.
  - by apply split_all_none.
  - change (String.concat (String c "") (s :: s' :: l))
      with (s +:+ String c (String.concat (String c "") (s' :: l))).
    rewrite split_all_app by done. by rewrite IH.
Qed.

Lemma pretty_nonempty (z : Z) : pretty z ≠ "".
Proof.
  destruct z; [done| |done]. intros Hp. destruct (pretty_N_head (Npos p)) as (c & t & Hc & _).
  change (pretty (Zpos p)) with (pretty (Npos p)) in Hp. congruence.
Qed.

Lemma foldl_insert_list_to_map (l : list (string * Z)) (m0 : gmap string Z) :
  NoDup l.*1 → foldl (λ m '(n, p), <[n := p]> m) m0 l = list_to_map l ∪ m0.
Proof.
  revert m0. induction l as [|[n p] l IH]; intros m0; simpl; [by rewrite (left_id_L ∅ (∪))|].
  intros [Hn Hnd]%NoDup_cons. rewrite IH by done. rewrite <- insert_union_l.
  symmetry. apply insert_union_r. by apply not_elem_of_list_to_map_1.
Qed.

Section RoundTrip.
Context (get_id_for_instance : string → result Z).
Context (get_name_from_instance_id : Z → result string).

(** The [instance_map] table gives every instance an ID it can be found by. *)
Definition instance_known (name : string) : Prop :=
  ∃ id, get_id_for_instance name = Ok id ∧ get_name_from_instance_id id = Ok name ∧ printable id.

Definition mw_printable (t : mw_token) : Prop :=
  printable (stream t) ∧ mw_wf t ∧
  map_Forall (λ name pos, instance_known name ∧ printable pos) (instance_map t).

(** The text of one entry. *)
Definition entry_text (np : string * Z) (text : string) : Prop :=
  ∃ id, get_id_for_instance np.1 = Ok id ∧ get_name_from_instance_id id = Ok np.1 ∧
    printable id ∧ printable np.2 ∧ text = pretty id +:+ "." +:+ pretty np.2.

Lemma entry_text_no_tilde np text : entry_text np text → str_mem "~" text = false.
Proof.
  intros (id & _ & _ & _ & _ & ->). rewrite !str_mem_app. simpl.
  by rewrite !pretty_not_mem by done.
Qed.

Lemma parse_entry_text np text m :
  entry_text np text →
  parse_entry get_name_from_instance_id m text = Ok (<[np.1 := np.2]> m).
Proof.
  intros (id & _ & Hname & Hid & Hpos & ->). unfold parse_entry.
  assert (str_nonempty (pretty id +:+ "." +:+ pretty np.2) = true) as ->.
  { destruct (pretty id); done. }
  cbn [negb]. change ("." +:+ pretty np.2) with (String "." (pretty np.2)).
  rewrite split_all_app, split_all_none by (by apply pretty_not_mem).
  rewrite py_int_str_pretty by done. simpl. rewrite py_int_str_pretty by done. simpl.
  by rewrite Hname.
Qed.

Lemma print_entries_ok t :
  mw_printable t →
  ∃ entries, print_entries get_id_for_instance t = Ok entries ∧
    Forall2 entry_text (map_to_list (instance_map t)) entries.
Proof.
  intros (_ & Hwf & Hall). unfold print_entries.
  assert (∀ l acc, (∀ name pos, (name, pos) ∈ l → instance_map t !! name = Some pos) →
    ∃ entries, fold_res (λ entries '(name, pos),
      if (pos <=? stream t)%Z then Ok entries
      else instance_id ← get_id_for_instance name;
           Ok (entries ++ [pretty instance_id +:+ "." +:+ pretty pos])) l acc = Ok (acc ++ entries) ∧
      Forall2 entry_text l entries) as Hgen.
  { induction l as [|[name pos] l IH]; intros acc Hl; simpl.
    { exists []. by rewrite app_nil_r. }
    pose proof (Hl name pos ltac:(left)) as Hlook.
    pose proof (Hwf _ _ Hlook) as Hgt. simpl in Hgt.
    destruct (Hall _ _ Hlook) as [(id & Hid & Hname & Hpid) Hpp].
    destruct (Z.leb_spec pos (stream t)); [lia|]. rewrite Hid. simpl.
    destruct (IH (acc ++ [pretty id +:+ "." +:+ pretty pos])) as (es & Hes & HF).
    { intros. apply Hl. by right. }
    exists ((pretty id +:+ "." +:+ pretty pos) :: es).
    split; [etrans; [exact Hes|]; by rewrite <- app_assoc|]. constructor; [|done]. by exists id. }
  destruct (Hgen (map_to_list (instance_map t)) []) as (es & Hes & HF).
  { intros name pos. by rewrite elem_of_map_to_list. }
  exists es. by rewrite Hes.
Qed.

Lemma parse_entries_ok l entries m0 :
  Forall2 entry_text l entries →
  fold_res (parse_entry get_name_from_instance_id) entries m0 =
  Ok (foldl (λ m '(n, p), <[n := p]> m) m0 l).
Proof.
  intros HF. revert m0. induction HF as [|[n p] e l entries He HF IH]; intros m0; simpl; [done|].
  rewrite (parse_entry_text (n, p)) by done. simpl. apply IH.
Qed.

(** An [m] token is parsed back to the position and the map it was printed
    from. *)
Lemma parse_map_print t entries :
  mw_printable t → entries ≠ [] → Forall2 entry_text (map_to_list (instance_map t)) entries →
  parse_map get_name_from_instance_id (pretty (stream t) +:+ "~" +:+ String.concat "~" entries) =
  Ok (stream t, instance_map t).
Proof.
  intros (Hs & _ & _) Hne HF. unfold parse_map.
  change ("~" +:+ String.concat "~" entries) with (String "~" (String.concat "~" entries)).
  rewrite split_all_app by (by apply pretty_not_mem).
  rewrite split_all_concat; [|done|]; last first.
  { clear -HF. induction HF; constructor; eauto using entry_text_no_tilde. }
  rewrite py_int_str_pretty by done. simpl. rewrite (parse_entries_ok _ _ ∅ HF). simpl.
  rewrite foldl_insert_list_to_map by apply NoDup_fst_map_to_list.
  by rewrite (right_id_L ∅ (∪)), list_to_map_to_list.
Qed.

Lemma print_with_map_cases t plain :
  mw_printable t →
  (instance_map t = ∅ ∧ print_with_map get_id_for_instance t plain = Ok plain) ∨
  ∃ body, print_with_map get_id_for_instance t plain = Ok ("m" +:+ body) ∧
    parse_map get_name_from_instance_id body = Ok (stream t, instance_map t) ∧
    str_mem "_" body = false.
Proof.
  intros Ht. unfold print_with_map. case_decide as Hm; [by left|]. right.
  destruct (print_entries_ok t Ht) as (entries & He & HF). rewrite He. simpl.
  assert (entries ≠ []) as Hne.
  { intros ->. apply Forall2_nil_inv_r in HF. by apply map_to_list_empty_iff in HF. }
  exists (pretty (stream t) +:+ "~" +:+ String.concat "~" entries). split_and!.
  - by destruct entries.
  - by apply parse_map_print.
  - rewrite !str_mem_app, pretty_not_mem by done. simpl. clear -HF.
    induction HF as [|np e l es (id & _ & _ & _ & _ & ->) _ IH]; [done|].
    assert (str_mem "_" (pretty id +:+ "." +:+ pretty np.2) = false) as Hx.
    { rewrite !str_mem_app. simpl. by rewrite !pretty_not_mem by done. }
    destruct es as [|e' es]; [done|].
    set (x := pretty id +:+ "." +:+ pretty np.2) in *.
    change (str_mem "_" (x +:+ String "~" (String.concat "~" (e' :: es))) = false).
    by rewrite str_mem_app, Hx.
Qed.

Lemma mw_new_wf t : mw_wf t → mw_new (stream t) (instance_map t) = Ok t.
Proof. intros Hwf. destruct t. by apply mw_new_ok. Qed.

(** [MultiWriterStreamToken.parse] inverts [to_string]. *)
Lemma mw_text_roundtrip t :
  mw_printable t → (instance_map t = ∅ → (0 ≤ stream t)%Z) →
  ∃ s, mw_to_string get_id_for_instance t = Ok s ∧ str_mem "_" s = false ∧
    mw_parse get_name_from_instance_id s = Ok t.
Proof.
  intros Ht Hpos. pose proof Ht as (Hs & Hwf & _). unfold mw_to_string.
  destruct (print_with_map_cases t (pretty (stream t)) Ht) as [[Hm ->]|(body & -> & Hb & Hu)].
  - eexists. split_and!; [done|by apply pretty_not_mem|]. unfold mw_parse.
    assert (∃ c r, pretty (stream t) = String c r ∧ is_digit c = true) as (c & r & Hp & Hc).
    { specialize (Hpos Hm). destruct (stream t); [by do 2 eexists|apply (pretty_N_head (Npos p))|lia]. }
    pose proof (py_int_str_pretty _ Hs) as Hi. rewrite Hp in *. rewrite Hc, Hi. simpl.
    rewrite <- Hm, mw_new_wf; done.
  - eexists. split_and!; [done|done|]. unfold mw_parse. simpl. rewrite Hb. simpl.
    by rewrite mw_new_wf.
Qed.

Definition room_printable (t : room_token) : Prop :=
  mw_printable (rt_base t) ∧
  match topological t with
  | Some z => (0 ≤ z)%Z ∧ printable z ∧ instance_map (rt_base t) = ∅
  | None => True
  end.

(** [RoomStreamToken.parse] inverts [to_string]. *)
Lemma room_text_roundtrip t :
  room_printable t →
  ∃ s, room_to_string get_id_for_instance t = Ok s ∧ str_mem "_" s = false ∧
    room_parse get_name_from_instance_id s = Ok t.
Proof.
  destruct t as [b topo]. intros [Hb Htopo]. pose proof Hb as (Hs & Hwf & _). simpl in *.
  unfold room_to_string. simpl. destruct topo as [z|].
  - destruct Htopo as (Hz & Hpz & Hm). eexists. split; [done|]. split.
    + simpl. rewrite str_mem_app. simpl. by rewrite !pretty_not_mem by done.
    + unfold room_parse, room_parse_body. simpl.
      assert (str_mem "-" (pretty z) = false) as Hdash.
      { destruct z as [|p|]; [done| |lia]. change (pretty (Zpos p)) with (pretty (Npos p)).
        eapply str_forall_not_mem; [apply pretty_N_digits|done]. }
      rewrite (proj2 (split_once_Some _ _ (pretty z) (pretty (stream b)))) by done.
      rewrite py_int_str_pretty by done. simpl. rewrite py_int_str_pretty by done. simpl.
      unfold room_new. rewrite bool_decide_eq_false_2 by naive_solver. simpl.
      by rewrite <- Hm, mw_new_wf.
  - destruct (print_with_map_cases b (String "s" (pretty (stream b))) Hb) as [[Hm ->]|(body & -> & Hp & Hu)].
    + eexists. split_and!; [done|simpl; by apply pretty_not_mem|].
      unfold room_parse, room_parse_body. simpl. rewrite py_int_str_pretty by done. simpl.
      unfold room_new. rewrite andb_false_r. simpl. by rewrite <- Hm, mw_new_wf.
    + eexists. split_and!; [done|done|]. unfold room_parse, room_parse_body. simpl. rewrite Hp. simpl.
      unfold room_new. rewrite andb_false_r. simpl. by rewrite mw_new_wf.
Qed.

Definition token_printable (t : StreamToken) : Prop :=
  room_printable (room_key t) ∧
  mw_printable (receipt_key t) ∧ (instance_map (receipt_key t) = ∅ → (0 ≤ stream (receipt_key t))%Z) ∧
  mw_printable (device_list_key t) ∧
  (instance_map (device_list_key t) = ∅ → (0 ≤ stream (device_list_key t))%Z) ∧
  Forall printable [presence_key t; typing_key t; account_data_key t; push_rules_key t;
    to_device_key t; groups_key t; un_partial_stated_rooms_key t; thread_subscriptions_key t;
    sticky_events_key t].

(** [StreamToken.from_string] inverts [to_string].  For every token whose
    writers are in the instance table, whose topological part and plain
    positions are not negative and whose numbers have at most 4300 digits, the
    text form exists and parses back to the same token. *)
Theorem stream_token_roundtrip t :
  token_printable t →
  ∃ s, token_to_string get_id_for_instance t = Ok s ∧
    token_from_string get_name_from_instance_id s = Ok t.
Proof.
  intros (Hr & Hrc & Hrc0 & Hdl & Hdl0 & Hz).
  destruct (room_text_roundtrip _ Hr) as (rs & Hrs & Hru & Hrp).
  destruct (mw_text_roundtrip _ Hrc Hrc0) as (cs & Hcs & Hcu & Hcp).
  destruct (mw_text_roundtrip _ Hdl Hdl0) as (ds & Hds & Hdu & Hdp).
  rewrite !Forall_cons in Hz. destruct Hz as (H1 & H2 & H3 & H4 & H5 & H6 & H7 & H8 & H9 & _).
  unfold token_to_string. rewrite Hrs. cbn [mbind result_bind]. rewrite Hcs. cbn [mbind result_bind].
  rewrite Hds. cbn [mbind result_bind]. eexists. split; [done|]. unfold token_from_string.
  rewrite split_all_concat; [|done|].
  - unfold token_from_keys. simpl. rewrite Hrp. cbn [mbind result_bind].
    rewrite !(py_int_str_pretty _ H1), !(py_int_str_pretty _ H2), Hcp, Hdp,
      !(py_int_str_pretty _ H3), !(py_int_str_pretty _ H4), !(py_int_str_pretty _ H5),
      !(py_int_str_pretty _ H6), !(py_int_str_pretty _ H7), !(py_int_str_pretty _ H8),
      !(py_int_str_pretty _ H9). by destruct t.
  - repeat constructor; first [done|by apply pretty_not_mem].
Qed.
End RoundTrip.

(** ** Advancing the combined token *)
Definition token_wf (t : StreamToken) : Prop :=
  mw_wf (rt_base (room_key t)) ∧ mw_wf (receipt_key t) ∧ mw_wf (device_list_key t).

Lemma field_before_or_eq_refl t key : field_before_or_eq t t key = true.
Proof.
  assert (∀ m, mw_is_before_or_eq m m = true) as Hm
    by (intros m; apply mw_before_or_eq_iff; split; intros; lia).
  destruct key; simpl; rewrite ?Hm; try done; apply Z.leb_refl.
Qed.

Lemma get_field_replace t key v : get_field (copy_and_replace t key v) key = v.
Proof. by destruct t, key. Qed.

Lemma get_field_replace_other t key key' v :
  key' ≠ key → get_field (copy_and_replace t key v) key' = get_field t key'.
Proof. by destruct t, key, key'. Qed.

Lemma field_before_replace_other t key key' v :
  key' ≠ key → field_before_or_eq t (copy_and_replace t key v) key' = true.
Proof.
  intros Hne. rewrite <- (field_before_or_eq_refl t key'). by destruct t, key, key'.
Qed.

Lemma replace_advances t key v :
  field_before_or_eq t (copy_and_replace t key v) key = true →
  is_before_or_eq t (copy_and_replace t key v) = true.
Proof.
  intros Hk. unfold is_before_or_eq. apply forallb_forall. intros key' _.
  destruct (decide (key' = key)) as [->|Hne]; [done|]. by apply field_before_replace_other.
Qed.

Lemma is_before_or_eq_refl t : is_before_or_eq t t = true.
Proof. apply forallb_forall. intros. apply field_before_or_eq_refl. Qed.

(** A join is at or after its left argument. *)
Lemma advance_before a b t :
  mw_wf a → mw_wf b → mw_copy_and_advance a b = Ok t →
  mw_is_before_or_eq a t = true ∧
  ∀ i, pos_for_instance t i = Z.max (pos_for_instance a i) (pos_for_instance b i).
Proof.
  intros Ha Hb Ht. destruct (mw_copy_and_advance_ok a b Ha Hb) as (t' & Ht' & _ & Hs & Hp).
  assert (t' = t) as -> by congruence. split; [|done].
  apply mw_before_or_eq_iff. rewrite Hs. setoid_rewrite Hp. split; intros; lia.
Qed.

Lemma room_advance_before a b t :
  mw_wf (rt_base a) → mw_wf (rt_base b) → room_copy_and_advance a b = Ok t →
  mw_is_before_or_eq (rt_base a) (rt_base t) = true ∧
  ∀ i, pos_for_instance (rt_base t) i =
       Z.max (pos_for_instance (rt_base a) i) (pos_for_instance (rt_base b) i).
Proof.
  intros Ha Hb Ht. unfold room_copy_and_advance in Ht. apply bind_ok in Ht as (_ & _ & Ht).
  apply bind_ok in Ht as (m & Hm & Ht). unfold room_new in Ht. apply bind_ok in Ht as (_ & _ & Ht).
  apply bind_ok in Ht as (m' & Hm' & Ht). apply mw_new_ok in Hm' as [Hm' _].
  assert (rt_base t = m) as -> by (destruct m; by simplify_eq/=).
  by apply advance_before.
Qed.

(** An integer key. *)
Lemma advance_int_ok t old v new t' :
  advance_int t old v new = Ok t' →
  (old < v)%Z ∧ t' = new ∨ (v ≤ old)%Z ∧ t' = t.
Proof.
  unfold advance_int. destruct (Z.ltb_spec old v); intros [= <-]; [left|right]; split; done || lia.
Qed.

(** advancing the combined token never moves it back.  [copy_and_advance] on
    any key, when it returns, gives a token at or after the old one that differs
    from it at that key only, where it is the larger of the two values (the join
    of the two vector clocks for the multi-writer streams). *)
Theorem stream_token_advance t key v t' :
  token_wf t →
  match key return field_type key → Prop with
  | ROOM => λ v, mw_wf (rt_base v)
  | RECEIPT | DEVICE_LIST => mw_wf
  | _ => λ _, True
  end v →
  copy_and_advance t key v = Ok t' →
  is_before_or_eq t t' = true ∧
  (∀ key', key' ≠ key → get_field t' key' = get_field t key') ∧
  match key return field_type key → field_type key → field_type key → Prop with
  | ROOM => λ old v new, ∀ i, pos_for_instance (rt_base new) i =
      Z.max (pos_for_instance (rt_base old) i) (pos_for_instance (rt_base v) i)
  | RECEIPT | DEVICE_LIST => λ old v new, ∀ i, pos_for_instance new i =
      Z.max (pos_for_instance old i) (pos_for_instance v i)
  | _ => λ old v new, new = Z.max old v
  end (get_field t key) v (get_field t' key).
Proof.
  intros (Hr & Hrc & Hdl) Hv H.
  destruct key; simpl in Hv, H;
    try (apply advance_int_ok in H as [[Hlt ->]|[Hle ->]];
      [split_and!;
        [apply replace_advances; destruct t; simpl; first [done|apply Z.leb_le; simpl in *; lia]
        |by intros; apply get_field_replace_other|rewrite get_field_replace; simpl; lia]
      |split_and!; [apply is_before_or_eq_refl|done|simpl; lia]]).
  all: apply bind_ok in H as (k & Hk & [= <-]);
    (apply advance_before in Hk || apply room_advance_before in Hk); [|done..];
    destruct Hk as [Hb Hp]; (split_and!; [apply replace_advances; by destruct t
      |by intros; apply get_field_replace_other|by rewrite get_field_replace]).
Qed.

(** ** The theorems at work *)
Definition ex_mw1 : mw_token := mkMW 5 {[ "writer1" := 8%Z ]}.
Definition ex_mw2 : mw_token := mkMW 6 {[ "writer2" := 9%Z ]}.

Lemma ex_mw1_wf : mw_wf ex_mw1.
Proof. apply (bool_decide_unpack _). vm_compute. exact I. Qed.
Lemma ex_mw2_wf : mw_wf ex_mw2.
Proof. apply (bool_decide_unpack _). vm_compute. exact I. Qed.

Lemma mw_token_lattice_witness :
  ∃ t, mw_copy_and_advance ex_mw1 ex_mw2 = Ok t ∧ mw_is_before_or_eq ex_mw1 t = true.
Proof.
  destruct (mw_token_lattice ex_mw1 ex_mw2 ex_mw1_wf ex_mw2_wf) as [(t & Ht & _ & _ & Hb & _) _].
  exists t. exact (conj Ht Hb).
Defined.

Lemma mw_token_bounds_witness : ∃ b, mw_bound_stream_token ex_mw1 6 = Ok b ∧ mw_wf b.
Proof.
  destruct (mw_token_bounds ex_mw1 6 ex_mw1_wf) as [(b & Hb & Hwf & _) _].
  exists b. exact (conj Hb Hwf).
Defined.

(** An instance table with two writers. *)
Definition ex_get_id (name : string) : result Z :=
  if String.eqb name "writer1" then Ok 1%Z
  else if String.eqb name "writer2" then Ok 2%Z else Raise KeyError.
Definition ex_get_name (id : Z) : result string :=
  if (id =? 1)%Z then Ok "writer1" else if (id =? 2)%Z then Ok "writer2" else Raise KeyError.

Definition ex_token : StreamToken :=
  mkStreamToken (mkRoom ex_mw1 None) 1 2 ex_mw2 3 4 5 (mkMW 6 ∅) 7 8 9 10.

Lemma printable_small z : (0 ≤ z < 1000)%Z → printable z.
Proof.
  intros Hz. unfold printable. assert (10 ^ 3 ≤ 10 ^ 4300)%N as Hle
    by (apply N.pow_le_mono_r; lia).
  change (10 ^ 3)%N with 1000%N in Hle. lia.
Qed.

Lemma ex_mw1_printable : mw_printable ex_get_id ex_get_name ex_mw1.
Proof.
  split_and!; [by apply printable_small|apply ex_mw1_wf|].
  apply map_Forall_singleton. split; [exists 1%Z|]; split_and?; try done; by apply printable_small.
Qed.

Lemma ex_mw2_printable : mw_printable ex_get_id ex_get_name ex_mw2.
Proof.
  split_and!; [by apply printable_small|apply ex_mw2_wf|].
  apply map_Forall_singleton. split; [exists 2%Z|]; split_and?; try done; by apply printable_small.
Qed.

Lemma ex_token_printable : token_printable ex_get_id ex_get_name ex_token.
Proof.
  split_and!; [split; [apply ex_mw1_printable|done]|apply ex_mw2_printable|done| |done|].
  - split_and!; [by apply printable_small|apply map_Forall_empty|apply map_Forall_empty].
  - repeat constructor; by apply printable_small.
Qed.

Lemma stream_token_roundtrip_witness :
  ∃ s, token_to_string ex_get_id ex_token = Ok s ∧ token_from_string ex_get_name s = Ok ex_token.
Proof. exact (stream_token_roundtrip ex_get_id ex_get_name ex_token ex_token_printable). Defined.

Lemma stream_token_advance_witness :
  ∃ t, copy_and_advance ex_token RECEIPT ex_mw1 = Ok t ∧ is_before_or_eq ex_token t = true.
Proof.
  destruct (copy_and_advance ex_token RECEIPT ex_mw1) as [t|] eqn:Ht;
    [|vm_compute in Ht; discriminate Ht].
  exists t. split; [reflexivity|].
  refine (proj1 (stream_token_advance ex_token RECEIPT ex_mw1 t _ ex_mw1_wf Ht)).
  split_and!; [exact ex_mw1_wf|exact ex_mw2_wf|apply map_Forall_empty].
Defined.
