(* ===== verification/IdGenerators.v ===== *)
(** Stream ID generators: [MultiWriterIdGenerator] of
    [textrp_briij/storage/util/id_generators.py] and the sequence generators of
    [textrp_briij/storage/util/sequence.py].

    Several worker processes write to a stream.  Each of them draws IDs from one
    database sequence, and keeps a view of how far every writer has got.  The
    record below is the view of one process.  Every method body runs under
    [self._lock], so each definition is one atomic step; a method that releases
    the lock in between is split there.  [SortedList], [SortedSet] and [heapq]
    are modelled by the sorted list (or the set) of their elements. *)
From S2P Require Import Prelude.

(** ** Sorted containers *)

(** [heapq.heappush], [SortedList.add] *)
Fixpoint sorted_insert (x : Z) (l : list Z) : list Z :=
  match l with
  | [] => [x]
  | y :: l' => if (x <=? y)%Z then x :: l else y :: sorted_insert x l'
  end.

(** [SortedList.remove] *)
Fixpoint sorted_remove (x : Z) (l : list Z) : result (list Z) :=
  match l with
  | [] => Raise ValueError
  | y :: l' => if (x =? y)%Z then Ok l' else l'' ← sorted_remove x l'; Ok (y :: l'')
  end.

(** [min(l)] and [max(l)] of a non-empty collection. *)
Definition list_min (l : list Z) : option Z :=
  match l with [] => None | x :: l' => Some (foldl Z.min x l') end.
Definition list_max (l : list Z) : option Z :=
  match l with [] => None | x :: l' => Some (foldl Z.max x l') end.

(** ** The generator *)
Record id_gen := mkIdGen {
  _instance_name : string;
  _writers : list string;
  _positive : bool;
  _current_positions : gmap string Z;
  _unfinished_ids : gset Z;
  _in_flight_fetches : list Z;
  _finished_ids : gset Z;
  _persisted_upto_position : Z;
  _known_persisted_positions : list Z;
  _max_seen_allocated_stream_id : Z;
  _max_position_of_local_instance : Z
}.

Definition _return_factor (g : id_gen) : Z := if _positive g then 1 else -1.

Definition with_positions (g : id_gen) (p : gmap string Z) : id_gen :=
  mkIdGen (_instance_name g) (_writers g) (_positive g) p (_unfinished_ids g)
    (_in_flight_fetches g) (_finished_ids g) (_persisted_upto_position g)
    (_known_persisted_positions g) (_max_seen_allocated_stream_id g)
    (_max_position_of_local_instance g).

Definition with_upto (g : id_gen) (upto : Z) (known : list Z) (max_local : Z) : id_gen :=
  mkIdGen (_instance_name g) (_writers g) (_positive g) (_current_positions g)
    (_unfinished_ids g) (_in_flight_fetches g) (_finished_ids g) upto known
    (_max_seen_allocated_stream_id g) max_local.

Definition with_max_seen (g : id_gen) (m : Z) : id_gen :=
  mkIdGen (_instance_name g) (_writers g) (_positive g) (_current_positions g)
    (_unfinished_ids g) (_in_flight_fetches g) (_finished_ids g) (_persisted_upto_position g)
    (_known_persisted_positions g) m (_max_position_of_local_instance g).

Definition with_ids (g : id_gen) (unfinished : gset Z) (in_flight : list Z) (finished : gset Z)
    : id_gen :=
  mkIdGen (_instance_name g) (_writers g) (_positive g) (_current_positions g)
    unfinished in_flight finished (_persisted_upto_position g)
    (_known_persisted_positions g) (_max_seen_allocated_stream_id g)
    (_max_position_of_local_instance g).

(** [self._unfinished_ids or self._in_flight_fetches] *)
Definition busy (g : id_gen) : bool :=
  bool_decide (_unfinished_ids g ≠ ∅) || bool_decide (_in_flight_fetches g ≠ []).

(** The final loop of [_add_persisted_position]: drop the known positions that
    are passed, and move on over a run without gaps. *)
Fixpoint skip_run (known : list Z) (upto : Z) : list Z * Z :=
  match known with
  | [] => ([], upto)
  | k :: known' =>
      if (k <=? upto)%Z then skip_run known' upto
      else if (k =? upto + 1)%Z then skip_run known' (upto + 1)
      else (known, upto)
  end.

(** The position all writers are known to have reached. *)
Definition min_current (g : id_gen) : Z :=
  let our_current_position := default 0%Z (_current_positions g !! _instance_name g) in
  let others := (filter (λ kv, kv.1 ≠ _instance_name g) (map_to_list (_current_positions g))).*2 in
  let min_curr := default our_current_position (list_min others) in
  if negb (our_current_position =? 0)%Z && busy g
  then Z.min min_curr our_current_position else min_curr.

Definition _add_persisted_position (g : id_gen) (new_id : Z) : id_gen :=
  let known := sorted_insert new_id (_known_persisted_positions g) in
  let upto := Z.max (min_current g) (_persisted_upto_position g) in
  let max_local := Z.max (_max_position_of_local_instance g) upto in
  let max_local :=
    if busy g then max_local else Z.max (_max_seen_allocated_stream_id g) max_local in
  let '(known, upto) := skip_run known upto in
  with_upto g upto known max_local.

(** ** Allocating IDs *)

(** The first locked section of [_load_next_mult_id_txn]: note the largest ID
    seen so far before asking the sequence. *)
Definition begin_fetch (g : id_gen) : Z * id_gen :=
  let current_max := _max_seen_allocated_stream_id g in
  (current_max,
   with_ids g (_unfinished_ids g) (sorted_insert current_max (_in_flight_fetches g))
     (_finished_ids g)).

(** The [finally] block. *)
Definition end_fetch (g : id_gen) (current_max : Z) : result id_gen :=
  l ← sorted_remove current_max (_in_flight_fetches g);
  Ok (with_ids g (_unfinished_ids g) l (_finished_ids g)).

(** The second locked section: [self._unfinished_ids[-1]] raises when the set is
    empty; the set is updated first. *)
Definition register_ids (g : id_gen) (stream_ids : list Z) : result unit * id_gen :=
  let g := with_ids g (list_to_set stream_ids ∪ _unfinished_ids g) (_in_flight_fetches g)
             (_finished_ids g) in
  match list_max (elements (_unfinished_ids g)) with
  | None => (Raise IndexError, g)
  | Some last => (Ok tt, with_max_seen g (Z.max (_max_seen_allocated_stream_id g) last))
  end.

(** [get_next], [get_next_mult], [get_next_txn] and [get_next_mult_txn] refuse a
    process that is not a writer. *)
Definition check_writer (g : id_gen) : result unit :=
  raise_if (bool_decide (_writers g ≠ []) && bool_decide (_instance_name g ∉ _writers g))
    (PyException "Tried to allocate stream ID on non-writer").

(** What the context manager and [get_next_mult_txn] hand out. *)
Definition returned_ids (g : id_gen) (stream_ids : list Z) : list Z :=
  (λ i, i * _return_factor g)%Z <$> stream_ids.

(** ** Finishing IDs *)
Definition min_unfinished (g : id_gen) : option Z :=
  match list_min (elements (_unfinished_ids g)), list_min (_in_flight_fetches g) with
  | Some u, Some f => Some (Z.min u (f + 1))
  | None, Some f => Some (f + 1)%Z
  | Some u, None => Some u
  | None, None => None
  end.

(** The new position, and the finished IDs that are still above it. *)
Definition new_position (g : id_gen) : result (option Z * gset Z) :=
  match min_unfinished g with
  | Some m =>
      Ok (list_max (elements (filter (λ s, s < m)%Z (_finished_ids g))),
          filter (λ s, ¬ s < m)%Z (_finished_ids g))
  | None =>
      new_cur ← of_option (list_max (elements (_finished_ids g))) ValueError;
      Ok (Some new_cur, ∅)
  end.

(** [if new_cur: ...] *)
Definition update_position (g : id_gen) (new_cur : option Z) : id_gen :=
  match new_cur with
  | Some c =>
      if (c =? 0)%Z then g
      else
        let curr := default 0%Z (_current_positions g !! _instance_name g) in
        let g := with_positions g
                   (<[_instance_name g := Z.max curr c]> (_current_positions g)) in
        with_upto g (_persisted_upto_position g) (_known_persisted_positions g)
          (Z.max (Z.max curr c) (_max_position_of_local_instance g))
  | None => g
  end.

Definition _mark_ids_as_finished (g : id_gen) (next_ids : list Z) : result id_gen :=
  let g := with_ids g (_unfinished_ids g ∖ list_to_set next_ids) (_in_flight_fetches g)
             (list_to_set next_ids ∪ _finished_ids g) in
  '(new_cur, finished) ← new_position g;
  let g := with_ids g (_unfinished_ids g) (_in_flight_fetches g) finished in
  let g := update_position g new_cur in
  Ok (foldl _add_persisted_position g next_ids).

(** ** Positions of other writers, from replication *)
Definition advance (g : id_gen) (instance_name : string) (new_id : Z) : id_gen :=
  let new_id := (new_id * _return_factor g)%Z in
  let g := with_positions g
    (<[instance_name := Z.max new_id (default 0%Z (_current_positions g !! instance_name))]>
       (_current_positions g)) in
  let g := with_max_seen g (Z.max (_max_seen_allocated_stream_id g) new_id) in
  _add_persisted_position g new_id.

(** ** Tokens *)
Definition get_persisted_upto_position (g : id_gen) : Z :=
  _return_factor g * _persisted_upto_position g.

Definition get_current_token (g : id_gen) : Z := get_persisted_upto_position g.

Definition get_current_token_for_writer (g : id_gen) (instance_name : string) : Z :=
  if String.eqb (_instance_name g) instance_name
  then (_return_factor g * _max_position_of_local_instance g)%Z
  else
    let pos := default (_persisted_upto_position g) (_current_positions g !! instance_name) in
    (_return_factor g * Z.max pos (_persisted_upto_position g))%Z.

Definition get_minimal_local_current_token (g : id_gen) : Z :=
  _return_factor g *
  default (_persisted_upto_position g) (_current_positions g !! _instance_name g).

Definition get_positions (g : id_gen) : gmap string Z :=
  (λ i, _return_factor g * i)%Z <$> _current_positions g.

(** [_update_stream_positions_table_txn]: the upsert only ever moves a row
    forwards. The table is the part of [stream_positions] of this stream. *)
Definition update_stream_positions_table (g : id_gen) (table : gmap string Z) : gmap string Z :=
  match _writers g with
  | [] => table
  | _ =>
      let pos := get_current_token_for_writer g (_instance_name g) in
      let forwards old := if _positive g then (old <? pos)%Z else (pos <? old)%Z in
      match table !! _instance_name g with
      | None => <[_instance_name g := pos]> table
      | Some old => if forwards old then <[_instance_name g := pos]> table else table
      end
  end.

(** ** Start-up *)

(** What [_load_current_ids] reads: [stream_positions], the sequence's
    [last_value], and the (instance, ID) rows of each table of the stream, all
    with the signs they have in the database. *)
Record stream_db := mkStreamDb {
  db_postgres : bool;
  db_positions : gmap string Z;
  db_last_value : Z;
  db_tables : list (list (string * Z))
}.

(** The state the constructor starts from. *)
Definition blank (instance_name : string) (writers : list string) (positive : bool) : id_gen :=
  mkIdGen instance_name writers positive ∅ ∅ [] ∅ 1 [] 1 1.

Definition loaded_positions (g : id_gen) (db : stream_db) : gmap string Z :=
  let stored : gmap string Z :=
    if decide (_writers g = []) then ∅
    else (λ i, i * _return_factor g)%Z <$> filter (λ kv, kv.1 ∈ _writers g) (db_positions db) in
  if bool_decide (_instance_name g ∈ _writers g) && db_postgres db
  then <[_instance_name g := db_last_value db]> stored else stored.

(** The query for the largest ID in use, on all tables. *)
Definition max_table_id (g : id_gen) (db : stream_db) : Z :=
  foldl (λ m table,
    let agg := list_max ((λ row : string * Z, row.2 * _return_factor g)%Z <$> table) in
    Z.max m (Z.max (default 1%Z agg) 1)) 1%Z (db_tables db).

(** [rows.sort(key=stream_id)] *)
Definition row_le (a b : string * Z) : Prop := (a.2 ≤ b.2)%Z.
#[export] Instance row_le_dec a b : Decision (row_le a b).
Proof. unfold row_le. apply _. Defined.

Definition load_row (g : id_gen) (row : string * Z) : id_gen :=
  let stream_id := (_return_factor g * row.2)%Z in
  let g := _add_persisted_position g stream_id in
  if String.eqb row.1 (_instance_name g)
  then with_positions g (<[row.1 := stream_id]> (_current_positions g)) else g.

Definition later_rows (g : id_gen) (db : stream_db) (min_stream_id : Z) : list (string * Z) :=
  let start := (min_stream_id * _return_factor g)%Z in
  merge_sort row_le
    (filter (λ row : string * Z,
       (if _positive g then start <=? row.2 else row.2 <=? start)%Z = true) (concat (db_tables db))).

(** [setdefault] for every configured writer. *)
Definition default_positions (g : id_gen) : id_gen :=
  foldl (λ g writer,
    match _current_positions g !! writer with
    | Some _ => g
    | None => with_positions g (<[writer := _persisted_upto_position g]> (_current_positions g))
    end) g (_writers g).

Definition _load_current_ids (g : id_gen) (db : stream_db) : id_gen :=
  let g := with_positions g (loaded_positions g db) in
  let g :=
    match list_min (map_to_list (_current_positions g)).*2 with
    | None => with_upto g (max_table_id g db) (_known_persisted_positions g)
                (_max_position_of_local_instance g)
    | Some min_stream_id =>
        foldl load_row
          (with_upto g min_stream_id (_known_persisted_positions g)
             (_max_position_of_local_instance g))
          (later_rows g db min_stream_id)
    end in
  default_positions g.

(** [__init__]; the [DELETE] of stale rows is [prune_positions]. *)
Definition prune_positions (writers : list string) (table : gmap string Z) : gmap string Z :=
  if decide (writers = []) then table else filter (λ kv, kv.1 ∈ writers) table.

Definition init_id_gen (instance_name : string) (writers : list string) (positive : bool)
    (db : stream_db) : id_gen :=
  let g := _load_current_ids (blank instance_name writers positive) db in
  let max_seen :=
    Z.max (default 1%Z (list_max (map_to_list (_current_positions g)).*2))
      (_persisted_upto_position g) in
  let g := with_max_seen g max_seen in
  let g := with_upto g (_persisted_upto_position g) (_known_persisted_positions g) max_seen in
  match writers with
  | [] => with_positions g (<[instance_name := _persisted_upto_position g]> (_current_positions g))
  | _ => g
  end.

(** ** The sequence on SQLite: [LocalSequenceGenerator] *)
Definition local_get_next_mult (first : Z) (current_max_id : option Z) (n : nat) : list Z * option Z :=
  let cur := default first current_max_id in
  ((λ i, cur + 1 + Z.of_nat i)%Z <$> seq 0 n, Some (cur + Z.of_nat n)%Z).

Definition local_get_next_id (first : Z) (current_max_id : option Z) : Z * option Z :=
  let cur := default first current_max_id in ((cur + 1)%Z, Some (cur + 1)%Z).

Definition local_get_max_allocated (first : Z) (current_max_id : option Z) : Z * option Z :=
  let cur := default first current_max_id in (cur, Some cur).
