(* ===== verification/IdGeneratorsProps.v ===== *)
(** Correctness of the stream ID generators: a system of processes that share a
    sequence, and the invariant that no process ever believes an ID to be
    persisted that is still being written. *)
From S2P Require Import Prelude IdGenerators.

(** ** Sorted containers *)
Lemma sorted_insert_perm x l : sorted_insert x l ≡ₚ x :: l.
Proof.
  induction l as [|y l IH]; simpl; [done|]. destruct (_ <=? _)%Z; [done|].
  rewrite IH. apply Permutation_swap.
Qed.

Lemma sorted_remove_perm x l : x ∈ l → ∃ l', sorted_remove x l = Ok l' ∧ l ≡ₚ x :: l'.
Proof.
  induction l as [|y l IH]; simpl; [by intros ?%not_elem_of_nil|].
  destruct (Z.eqb_spec x y) as [->|Hne]; [by exists l|].
  intros [?|(l' & -> & Hp)%IH]%elem_of_cons; [done|]. exists (y :: l'). split; [done|].
  rewrite Hp. apply Permutation_swap.
Qed.

Lemma foldl_min_spec l x : foldl Z.min x l ∈ x :: l ∧ ∀ y, y ∈ x :: l → (foldl Z.min x l ≤ y)%Z.
Proof.
  revert x. induction l as [|z l IH]; intros x; simpl.
  - split; [left|]. by intros y ->%list_elem_of_singleton.
  - destruct (IH (Z.min x z)) as [Hin Hle]. split.
    + apply elem_of_cons in Hin as [->|Hin]; [|by do 2 right].
      destruct (Z.min_spec x z) as [[_ ->]|[_ ->]]; [left|right; left].
    + assert (foldl Z.min (Z.min x z) l ≤ Z.min x z)%Z by (apply Hle; left).
      intros y [->|[->|Hy]%elem_of_cons]%elem_of_cons; [lia|lia|]. apply Hle. by right.
Qed.

Lemma foldl_max_spec l x : foldl Z.max x l ∈ x :: l ∧ ∀ y, y ∈ x :: l → (y ≤ foldl Z.max x l)%Z.
Proof.
  revert x. induction l as [|z l IH]; intros x; simpl.
  - split; [left|]. by intros y ->%list_elem_of_singleton.
  - destruct (IH (Z.max x z)) as [Hin Hle]. split.
    + apply elem_of_cons in Hin as [->|Hin]; [|by do 2 right].
      destruct (Z.max_spec x z) as [[_ ->]|[_ ->]]; [right; left|left].
    + assert (Z.max x z ≤ foldl Z.max (Z.max x z) l)%Z by (apply Hle; left).
      intros y [->|[->|Hy]%elem_of_cons]%elem_of_cons; [lia|lia|]. apply Hle. by right.
Qed.

Lemma list_min_Some l m : list_min l = Some m → m ∈ l ∧ ∀ y, y ∈ l → (m ≤ y)%Z.
Proof. destruct l as [|x l]; simpl; [done|]. intros [= <-]. apply foldl_min_spec. Qed.

Lemma list_max_Some l m : list_max l = Some m → m ∈ l ∧ ∀ y, y ∈ l → (y ≤ m)%Z.
Proof. destruct l as [|x l]; simpl; [done|]. intros [= <-]. apply foldl_max_spec. Qed.

Lemma list_min_None l : list_min l = None ↔ l = [].
Proof. by destruct l. Qed.
Lemma list_max_None l : list_max l = None ↔ l = [].
Proof. by destruct l. Qed.

Lemma factor_square g x : (_return_factor g * (x * _return_factor g) = x)%Z.
Proof. unfold _return_factor. destruct (_positive g); lia. Qed.

Lemma factor_square_l g x : (_return_factor g * x * _return_factor g = x)%Z.
Proof. unfold _return_factor. destruct (_positive g); lia. Qed.

(** ** The ledger

    What really happened: how far the sequence has got, who owns each ID that
    was handed out, and which of those IDs are done (their transaction was
    committed or rolled back, so that their rows will not change any more). *)
Record ledger := mkLedger {
  seq_last : Z;
  owner : gmap Z string;
  finished : gset Z
}.

Definition done (L : ledger) (id : Z) : Prop := id ∈ finished L.
#[export] Instance done_dec L id : Decision (done L id).
Proof. unfold done. apply _. Defined.

(** Every ID of [w] up to [t] is done. *)
Definition safe (L : ledger) (w : string) (t : Z) : Prop :=
  (1 ≤ t ≤ seq_last L)%Z ∧ ∀ id, owner L !! id = Some w → (id ≤ t)%Z → done L id.

(** [t] itself is not being written. *)
Definition settled (L : ledger) (t : Z) : Prop :=
  (1 ≤ t ≤ seq_last L)%Z ∧ ∀ w, owner L !! t = Some w → done L t.

(** Every ID up to [t] is done. *)
Definition all_done (L : ledger) (t : Z) : Prop :=
  (1 ≤ t ≤ seq_last L)%Z ∧ ∀ id w, owner L !! id = Some w → (id ≤ t)%Z → done L id.

(** The ledger only grows; new IDs come from the sequence. *)
Record grows (L L' : ledger) : Prop := {
  grows_seq : (seq_last L ≤ seq_last L')%Z;
  grows_finished : finished L ⊆ finished L';
  grows_owner : owner L ⊆ owner L';
  grows_new : ∀ id w, owner L' !! id = Some w → owner L !! id = Some w ∨ (seq_last L < id)%Z
}.

Lemma safe_mono L L' w t : grows L L' → safe L w t → safe L' w t.
Proof.
  intros [Hs Hf Ho Hn] [Ht Hd]. split; [lia|]. intros id Hid Hle.
  destruct (Hn _ _ Hid) as [Hid'|]; [|lia]. by apply Hf, Hd.
Qed.

Lemma settled_mono L L' t : grows L L' → settled L t → settled L' t.
Proof.
  intros [Hs Hf Ho Hn] [Ht Hd]. split; [lia|]. intros w Hid.
  destruct (Hn _ _ Hid) as [Hid'|]; [|lia]. by eapply Hf, Hd.
Qed.

Lemma all_done_mono L L' t : grows L L' → all_done L t → all_done L' t.
Proof.
  intros [Hs Hf Ho Hn] [Ht Hd]. split; [lia|]. intros id w Hid Hle.
  destruct (Hn _ _ Hid) as [Hid'|]; [|lia]. by eapply Hf, Hd.
Qed.

Lemma all_done_settled L t : all_done L t → settled L t.
Proof. intros [? H]. split; [done|]. intros w Hw. by eapply H. Qed.

Lemma all_done_safe L w t : all_done L t → safe L w t.
Proof. intros [? H]. split; [done|]. intros id Hid Hle. by eapply H. Qed.

Lemma safe_max L w s t : safe L w s → safe L w t → safe L w (Z.max s t).
Proof. destruct (Z.max_spec s t) as [[_ ->]|[_ ->]]; auto. Qed.

Lemma settled_max L s t : settled L s → settled L t → settled L (Z.max s t).
Proof. destruct (Z.max_spec s t) as [[_ ->]|[_ ->]]; auto. Qed.

Lemma skip_run_ok L known upto :
  Forall (settled L) known → all_done L upto →
  let '(known', upto') := skip_run known upto in
  Forall (settled L) known' ∧ all_done L upto' ∧ (upto ≤ upto')%Z.
Proof.
  revert upto. induction known as [|k known IH]; intros upto Hk Hu; simpl; [done|].
  apply Forall_cons in Hk as [Hk Hks].
  destruct (Z.leb_spec k upto); [by apply IH|].
  destruct (Z.eqb_spec k (upto + 1)) as [->|]; [|by rewrite Forall_cons].
  assert (all_done L (upto + 1)) as Hu'.
  { destruct Hk as [Hr Hk], Hu as [_ Hu]. split; [done|]. intros id w Hid Hle.
    destruct (decide (id = upto + 1)%Z) as [->|]; [by eapply Hk|]. eapply Hu; [done|lia]. }
  specialize (IH _ Hks Hu'). destruct (skip_run known (upto + 1)) as [known' upto'].
  destruct IH as (? & ? & ?). split_and!; [done..|lia].
Qed.

(** ** The view of one process *)

(** What [_add_persisted_position] relies on and keeps. *)
Record core_ok (L : ledger) (g : id_gen) : Prop := {
  c_upto : all_done L (_persisted_upto_position g);
  c_pos : ∀ w p, _current_positions g !! w = Some p → safe L w p ∧ settled L p;
  c_known : Forall (settled L) (_known_persisted_positions g);
  c_cover : ∀ id w, owner L !! id = Some w → ¬ done L id → is_Some (_current_positions g !! w);
  c_own : busy g = false → ∀ id, owner L !! id = Some (_instance_name g) → done L id;
  c_busy : busy g = true → is_Some (_current_positions g !! _instance_name g)
}.

Lemma elem_of_other_positions g p :
  p ∈ (filter (λ kv, kv.1 ≠ _instance_name g) (map_to_list (_current_positions g))).*2 ↔
  ∃ w, w ≠ _instance_name g ∧ _current_positions g !! w = Some p.
Proof.
  rewrite list_elem_of_fmap. split.
  - intros ([w p'] & -> & [Hw Hin]%list_elem_of_filter). exists w. split; [done|].
    by apply elem_of_map_to_list.
  - intros (w & Hw & Hp). exists (w, p). split; [done|]. apply list_elem_of_filter.
    split; [done|]. by apply elem_of_map_to_list.
Qed.

Lemma min_current_ok L g :
  core_ok L g → all_done L (Z.max (min_current g) (_persisted_upto_position g)).
Proof.
  intros [Hu Hp _ Hc Hown Hbusy].
  destruct (Z.max_spec (min_current g) (_persisted_upto_position g)) as [[_ ->]|[Hle ->]]; [done|].
  unfold min_current in *.
  set (others := (filter _ (map_to_list _)).*2) in *.
  set (our := default 0%Z _) in *.
  set (mc := default our (list_min others)) in *.
  set (cond := negb (our =? 0)%Z && busy g) in *.
  assert (our = 0%Z ∨ _current_positions g !! _instance_name g = Some our) as Hour.
  { unfold our. destruct (_current_positions g !! _instance_name g); [by right|by left]. }
  assert (our ≤ seq_last L)%Z as Hour_le.
  { destruct Hour as [->|Hour]; [destruct Hu; lia|]. apply Hp in Hour as [[? _] _]. lia. }
  assert (mc ≤ seq_last L)%Z as Hmc.
  { unfold mc. destruct (list_min others) as [m|] eqn:Hm; simpl; [|done].
    apply list_min_Some in Hm as [Hin%elem_of_other_positions _].
    destruct Hin as (w & _ & Hw). apply Hp in Hw as [[? _] _]. lia. }
  split; [destruct Hu; destruct cond; lia|].
  intros id w Hid Hid_le. destruct (decide (done L id)) as [|Hnd]; [done|exfalso].
  destruct (decide (w = _instance_name g)) as [->|Hw].
  - destruct (busy g) eqn:Hb; [|by apply Hnd, Hown].
    destruct (Hbusy eq_refl) as [p Hp'].
    assert (our = p) as Hp0 by (unfold our; by rewrite Hp').
    apply Hp in Hp' as [[Hr Hs] _]. apply Hnd, Hs; [done|].
    assert (cond = true) as Hcond; [|rewrite Hcond in Hid_le; lia].
    unfold cond. rewrite Hp0. destruct (Z.eqb_spec p 0); [lia|done].
  - destruct (Hc _ _ Hid Hnd) as [p Hp']. pose proof (Hp _ _ Hp') as [[_ Hs] _].
    apply Hnd, Hs; [done|]. assert (mc ≤ p)%Z; [|destruct cond; lia].
    assert (p ∈ others) as Hin by (apply elem_of_other_positions; eauto).
    unfold mc. destruct (list_min others) as [m|] eqn:Hm.
    + apply list_min_Some in Hm as [_ Hm]. by apply Hm.
    + apply list_min_None in Hm. rewrite Hm in Hin. by apply not_elem_of_nil in Hin.
Qed.

Lemma add_persisted_core L g new_id :
  core_ok L g → settled L new_id →
  core_ok L (_add_persisted_position g new_id) ∧
  (_persisted_upto_position g ≤ _persisted_upto_position (_add_persisted_position g new_id))%Z.
Proof.
  intros Hg Hnew. pose proof (min_current_ok L g Hg) as Hmin.
  unfold _add_persisted_position.
  assert (Forall (settled L) (sorted_insert new_id (_known_persisted_positions g))) as Hk.
  { rewrite sorted_insert_perm. constructor; [done|apply Hg]. }
  pose proof (skip_run_ok L _ _ Hk Hmin) as Hsk. destruct (skip_run _ _) as [known upto].
  destruct Hsk as (Hk' & Hu' & Hle). split; [|simpl; lia].
  destruct Hg. by split.
Qed.

(** The position the process announces for itself. *)
Definition local_ok (L : ledger) (g : id_gen) : Prop :=
  safe L (_instance_name g) (_max_position_of_local_instance g) ∧
  settled L (_max_position_of_local_instance g).

(** The largest ID seen is settled unless it is one of ours. *)
Definition seen_ok (L : ledger) (g : id_gen) : Prop :=
  (1 ≤ _max_seen_allocated_stream_id g ≤ seq_last L)%Z ∧
  ∀ w, owner L !! _max_seen_allocated_stream_id g = Some w →
    w = _instance_name g ∨ done L (_max_seen_allocated_stream_id g).

Lemma add_persisted_local L g new_id :
  core_ok L g → seen_ok L g → local_ok L g → local_ok L (_add_persisted_position g new_id).
Proof.
  intros Hg [Hr Hseen] [Hsafe Hset]. pose proof (min_current_ok L g Hg) as Hmin.
  unfold _add_persisted_position. destruct (skip_run _ _) as [known upto]. unfold local_ok. simpl.
  set (m := Z.max (min_current g) _) in *.
  assert (safe L (_instance_name g) (Z.max (_max_position_of_local_instance g) m)) as Hs
    by (apply safe_max; [done|by apply all_done_safe]).
  assert (settled L (Z.max (_max_position_of_local_instance g) m)) as Ht
    by (apply settled_max; [done|by apply all_done_settled]).
  destruct (busy g) eqn:Hb; [done|]. pose proof (c_own _ _ Hg Hb) as Hown.
  split; [apply safe_max|apply settled_max]; try done.
  - split; [done|]. intros id Hid _. by apply Hown.
  - split; [done|]. intros w Hw. destruct (Hseen _ Hw) as [->|]; [by apply Hown|done].
Qed.

(** ** Requests for IDs in progress

    The largest ID the process had seen when it asked, and the IDs the sequence
    has answered with, if it has. *)
Abbreviation fetch := (Z * option (list Z))%type.

Definition fetched (f : fetch) : list Z := default [] f.2.

Record gen_ok (writers : list string) (L : ledger) (g : id_gen) (pending : list fetch) : Prop := {
  g_core : core_ok L g;
  g_local : local_ok L g;
  g_seen : seen_ok L g;
  g_writers : ∀ w, w ∈ writers → is_Some (_current_positions g !! w);
  g_mine : ∀ id, owner L !! id = Some (_instance_name g) → ¬ done L id →
    id ∈ _unfinished_ids g ∨ ∃ f, f ∈ pending ∧ id ∈ fetched f;
  g_unfinished : ∀ id, id ∈ _unfinished_ids g → owner L !! id = Some (_instance_name g);
  g_finished : ∀ id, id ∈ _finished_ids g →
    owner L !! id = Some (_instance_name g) ∧ done L id;
  g_flight : _in_flight_fetches g ≡ₚ pending.*1;
  g_pending : ∀ f, f ∈ pending →
    _instance_name g ∈ writers ∧ (f.1 ≤ seq_last L)%Z ∧
    ∀ id, id ∈ fetched f → owner L !! id = Some (_instance_name g) ∧ (f.1 < id)%Z
}.

(** The IDs handed out belong to writers and lie in the range of the sequence. *)
Definition ledger_ok (writers : list string) (L : ledger) : Prop :=
  (1 ≤ seq_last L)%Z ∧ ∀ id w, owner L !! id = Some w → w ∈ writers ∧ (1 ≤ id ≤ seq_last L)%Z.

Lemma busy_false g : busy g = false ↔ _unfinished_ids g = ∅ ∧ _in_flight_fetches g = [].
Proof.
  unfold busy. rewrite orb_false_iff, !bool_decide_eq_false.
  split; intros [H1 H2]; split; try by apply dec_stable. all: by intros ?.
Qed.

Lemma core_of_gen_ok writers L g pending :
  ledger_ok writers L →
  all_done L (_persisted_upto_position g) →
  (∀ w p, _current_positions g !! w = Some p → safe L w p ∧ settled L p) →
  Forall (settled L) (_known_persisted_positions g) →
  (∀ w, w ∈ writers → is_Some (_current_positions g !! w)) →
  (∀ id, owner L !! id = Some (_instance_name g) → ¬ done L id →
    id ∈ _unfinished_ids g ∨ ∃ f, f ∈ pending ∧ id ∈ fetched f) →
  (∀ id, id ∈ _unfinished_ids g → owner L !! id = Some (_instance_name g)) →
  _in_flight_fetches g ≡ₚ pending.*1 →
  (∀ f, f ∈ pending → _instance_name g ∈ writers) →
  core_ok L g.
Proof.
  intros [_ HL] Hu Hp Hk Hw Hm Hun Hfl Hpend. split; [done..| | |].
  - intros id w Hid _. by apply Hw, (HL id w).
  - intros [H1 H2]%busy_false id Hid. destruct (decide (done L id)) as [|Hnd]; [done|].
    rewrite H2 in Hfl. apply Permutation_nil_l in Hfl. symmetry in Hfl.
    apply fmap_nil_inv in Hfl. subst.
    destruct (Hm _ Hid Hnd) as [Hin|(f & []%not_elem_of_nil & _)]. set_solver.
  - intros Hb. apply Hw. destruct (decide (_unfinished_ids g = ∅)) as [He|He].
    + destruct pending as [|f pending]; [|apply (Hpend f); left].
      apply Permutation_nil_r in Hfl.
      by rewrite (proj2 (busy_false g) (conj He Hfl)) in Hb.
    + apply set_choose_L in He as [id Hid%Hun]. by apply (HL id).
Qed.

Lemma add_persisted_ok writers L g pending new_id :
  gen_ok writers L g pending → settled L new_id →
  gen_ok writers L (_add_persisted_position g new_id) pending.
Proof.
  intros Hg Hnew. pose proof (g_core _ _ _ _ Hg) as Hc.
  pose proof (add_persisted_core L g new_id Hc Hnew) as [Hc' _].
  pose proof (add_persisted_local L g new_id Hc (g_seen _ _ _ _ Hg) (g_local _ _ _ _ Hg)) as Hl'.
  split; [done|done|..]; clear Hc' Hl';
    unfold _add_persisted_position; destruct (skip_run _ _); simpl; apply Hg.
Qed.

Lemma add_persisted_fold_ok writers L g pending ids :
  gen_ok writers L g pending → Forall (settled L) ids →
  gen_ok writers L (foldl _add_persisted_position g ids) pending.
Proof.
  intros Hg Hids. revert g Hg. induction Hids as [|id ids Hid _ IH]; intros g Hg; [done|].
  simpl. by apply IH, add_persisted_ok.
Qed.

(** *** The operations of a process *)
Lemma begin_fetch_ok writers L g pending :
  gen_ok writers L g pending → ledger_ok writers L → _instance_name g ∈ writers →
  gen_ok writers L (begin_fetch g).2 ((((begin_fetch g).1, None) : fetch) :: pending).
Proof.
  intros Hg HL Hw. destruct Hg as [Hc Hl Hs Hwr Hm Hun Hfin Hfl Hpend].
  assert (_in_flight_fetches (begin_fetch g).2 ≡ₚ (_max_seen_allocated_stream_id g) :: pending.*1)
    as Hfl' by (simpl; by rewrite sorted_insert_perm, Hfl).
  assert (∀ f : fetch, f ∈ (_max_seen_allocated_stream_id g, None) :: pending →
    _instance_name g ∈ writers ∧ (f.1 ≤ seq_last L)%Z ∧
    ∀ id, id ∈ fetched f → owner L !! id = Some (_instance_name g) ∧ (f.1 < id)%Z) as Hpend'.
  { intros f [->|Hf]%elem_of_cons; [|by apply Hpend]. split; [done|]. destruct Hs as [? _].
    split; [simpl; lia|]. by intros id []%not_elem_of_nil. }
  assert (∀ id, owner L !! id = Some (_instance_name g) → ¬ done L id →
    id ∈ _unfinished_ids g ∨
    ∃ f : fetch, f ∈ (_max_seen_allocated_stream_id g, None) :: pending ∧ id ∈ fetched f) as Hm'.
  { intros id Hid Hnd. destruct (Hm id Hid Hnd) as [?|(f & ? & ?)]; [by left|right].
    exists f. split; [by right|done]. }
  split; try done. by eapply core_of_gen_ok; try done; apply Hc.
Qed.

(** [new_position] gives a position below everything that is in progress. *)
Lemma new_position_safe writers L g pending c rest :
  gen_ok writers L g pending → ledger_ok writers L →
  new_position g = Ok (Some c, rest) →
  safe L (_instance_name g) c ∧ settled L c ∧ ∀ id, id ∈ rest → id ∈ _finished_ids g.
Proof.
  intros Hg [_ HL] Hnew. destruct Hg as [_ _ _ _ Hm _ Hfin Hfl Hpend].
  assert (c ∈ _finished_ids g ∧ (∀ id, id ∈ rest → id ∈ _finished_ids g) ∧
    ∀ m, min_unfinished g = Some m → (c < m)%Z) as (Hc & Hrest & Hlt).
  { unfold new_position in Hnew. destruct (min_unfinished g) as [m|].
    - injection Hnew as Hmax <-. apply list_max_Some in Hmax as [[? ?]%elem_of_elements%elem_of_filter _].
      split_and!; [done|set_solver|]. intros ? [= <-]. done.
    - destruct (list_max _) eqn:Hmax; simplify_eq/=.
      apply list_max_Some in Hmax as [?%elem_of_elements _]. split_and!; [done|set_solver|done]. }
  destruct (Hfin _ Hc) as [Hown Hdone]. pose proof (HL _ _ Hown) as [_ Hr].
  split; [|split; [split; [done|by intros]|done]].
  split; [done|]. intros id Hid Hle. destruct (decide (done L id)) as [|Hnd]; [done|exfalso].
  assert (∃ m, min_unfinished g = Some m ∧ (m ≤ id)%Z) as (m & Hmin & Hmle).
  { unfold min_unfinished. destruct (Hm _ Hid Hnd) as [Hu|(f & Hf & Hif)].
    - destruct (list_min (elements (_unfinished_ids g))) as [u|] eqn:Hu'; last first.
      { apply list_min_None, elements_empty_inv in Hu'. set_solver. }
      apply list_min_Some in Hu' as [_ Hu']. apply elem_of_elements, Hu' in Hu.
      destruct (list_min (_in_flight_fetches g)); eexists; (split; [done|lia]).
    - destruct (Hpend f Hf) as (_ & _ & Hids). destruct (Hids _ Hif) as [_ Hlt'].
      assert (f.1 ∈ _in_flight_fetches g) as Hin by (rewrite Hfl; by apply list_elem_of_fmap_2).
      destruct (list_min (_in_flight_fetches g)) as [u|] eqn:Hu'; last first.
      { apply list_min_None in Hu'. rewrite Hu' in Hin. by apply not_elem_of_nil in Hin. }
      apply list_min_Some in Hu' as [_ Hu']. apply Hu' in Hin.
      destruct (list_min (elements _)); eexists; (split; [done|lia]). }
  specialize (Hlt _ Hmin). lia.
Qed.

Lemma update_position_ok writers L g pending c :
  gen_ok writers L g pending → ledger_ok writers L →
  safe L (_instance_name g) c → settled L c →
  gen_ok writers L (update_position g (Some c)) pending.
Proof.
  intros Hg HL Hsafe Hset. simpl. destruct (Z.eqb_spec c 0); [done|].
  destruct Hg as [Hc [Hl1 Hl2] Hs Hwr Hm Hun Hfin Hfl Hpend].
  set (curr := default 0%Z (_current_positions g !! _instance_name g)).
  assert (safe L (_instance_name g) (Z.max curr c) ∧ settled L (Z.max curr c)) as [Hs' Ht'].
  { unfold curr. destruct (_current_positions g !! _instance_name g) as [p|] eqn:Hp; simpl.
    - apply (c_pos _ _ Hc) in Hp as [? ?]. split; [by apply safe_max|by apply settled_max].
    - destruct Hsafe as [? ?]. by rewrite Z.max_r by lia. }
  assert (∀ w p, <[_instance_name g := Z.max curr c]> (_current_positions g) !! w = Some p →
    safe L w p ∧ settled L p) as Hpos.
  { intros w p [[<- <-]|[_ Hp]]%lookup_insert_Some; [done|by apply (c_pos _ _ Hc)]. }
  assert (∀ w, w ∈ writers →
    is_Some (<[_instance_name g := Z.max curr c]> (_current_positions g) !! w)) as Hwr'.
  { intros w Hw. destruct (decide (w = _instance_name g)) as [->|];
      [by rewrite lookup_insert_eq|rewrite lookup_insert_ne by done; by apply Hwr]. }
  split; try done.
  - eapply core_of_gen_ok; try done; try apply Hc. intros f Hf. by apply (Hpend f).
  - split; simpl; [by apply safe_max|by apply settled_max].
Qed.

(** ** How the ledger changes *)
Definition finish_ids (L : ledger) (ids : list Z) : ledger :=
  mkLedger (seq_last L) (owner L) (list_to_set ids ∪ finished L).

Definition hand_out (L : ledger) (w : string) (ids : list Z) (seq' : Z) : ledger :=
  mkLedger seq' (list_to_map ((λ i, (i, w)) <$> ids) ∪ owner L) (finished L).

Lemma finish_ids_grows L ids : grows L (finish_ids L ids).
Proof. split; simpl; [done|set_solver|done|by left]. Qed.

Lemma hand_out_lookup L w ids seq' id x :
  owner (hand_out L w ids seq') !! id = Some x ↔
  (id ∈ ids ∧ x = w) ∨ (id ∉ ids ∧ owner L !! id = Some x).
Proof.
  simpl. rewrite lookup_union_Some_raw.
  assert (∀ y, (list_to_map ((λ i, (i, w)) <$> ids) : gmap Z string) !! id = Some y ↔
               id ∈ ids ∧ y = w) as Hl.
  { intros y. induction ids as [|i ids IH]; simpl; [set_solver|].
    destruct (decide (i = id)) as [->|Hne].
    - rewrite lookup_insert_eq. set_solver.
    - rewrite lookup_insert_ne, IH, elem_of_cons by done.
      split; [intros [? ?]; auto|]. intros [[?|?] ?]; [congruence|done]. }
  assert ((list_to_map ((λ i, (i, w)) <$> ids) : gmap Z string) !! id = None ↔ id ∉ ids) as Hn.
  { rewrite eq_None_not_Some. unfold is_Some. setoid_rewrite Hl. split.
    - intros H Hin. apply H. by exists w.
    - intros H [y [Hin _]]. done. }
  by rewrite Hl, Hn.
Qed.

Lemma hand_out_grows writers L w ids seq' :
  ledger_ok writers L → (∀ id, id ∈ ids → (seq_last L < id ≤ seq')%Z) → (seq_last L ≤ seq')%Z →
  grows L (hand_out L w ids seq').
Proof.
  intros [_ HL] Hids Hseq. split; [done|done| |].
  - apply map_subseteq_spec. intros id x Hx. apply hand_out_lookup. right. split; [|done].
    intros Hin. apply HL in Hx. apply Hids in Hin. lia.
  - intros id x [[Hin _]|[_ ?]]%hand_out_lookup; [right|by left]. by apply Hids.
Qed.

Lemma hand_out_ok writers L w ids seq' :
  ledger_ok writers L → w ∈ writers → (∀ id, id ∈ ids → (seq_last L < id ≤ seq')%Z) →
  (seq_last L ≤ seq')%Z → ledger_ok writers (hand_out L w ids seq').
Proof.
  intros [? HL] Hw Hids Hseq. split; [simpl; lia|].
  intros id x [[Hin ->]|[_ Hx]]%hand_out_lookup.
  - apply Hids in Hin. split; [done|simpl; lia].
  - apply HL in Hx as [? ?]. split; [done|simpl; lia].
Qed.

Lemma finish_ids_ok writers L ids : ledger_ok writers L → ledger_ok writers (finish_ids L ids).
Proof. done. Qed.

(** ** Processes not involved in a change *)
Lemma gen_ok_grows writers L L' g pending :
  gen_ok writers L g pending → ledger_ok writers L' → grows L L' →
  (∀ id, owner L' !! id = Some (_instance_name g) → owner L !! id = Some (_instance_name g)) →
  gen_ok writers L' g pending.
Proof.
  intros [Hc [Hl1 Hl2] [Hs1 Hs2] Hwr Hm Hun Hfin Hfl Hpend] HL' Hgr Hown.
  pose proof Hgr as [Hseq Hf Ho Hnew].
  assert (∀ id, done L id → done L' id) as Hd by (intros id; apply Hf).
  assert (∀ id w, owner L !! id = Some w → owner L' !! id = Some w) as Ho'
    by (intros; by eapply lookup_weaken).
  split.
  - eapply core_of_gen_ok; try done.
    + eapply all_done_mono; [done|apply Hc].
    + intros w p Hp%(c_pos _ _ Hc). destruct Hp; split; [by eapply safe_mono|by eapply settled_mono].
    + eapply Forall_impl; [apply Hc|]. intros t. by apply settled_mono.
    + intros id Hid Hnd. apply Hm; [by apply Hown|naive_solver].
    + auto.
    + intros f Hf'. by apply (Hpend f).
  - split; [by eapply safe_mono|by eapply settled_mono].
  - split; [lia|]. intros w Hw. destruct (Hnew _ _ Hw) as [Hw'|]; [|lia].
    destruct (Hs2 _ Hw'); auto.
  - done.
  - intros id Hid Hnd. apply Hm; [by apply Hown|naive_solver].
  - auto.
  - intros id [? ?]%Hfin. auto.
  - done.
  - intros f Hf'. destruct (Hpend f Hf') as (? & ? & Hi). split_and!; [done|lia|].
    intros id Hid. destruct (Hi id Hid). auto.
Qed.

Lemma gen_ok_perm writers L g p p' :
  p ≡ₚ p' → gen_ok writers L g p → gen_ok writers L g p'.
Proof.
  intros Hp [Hc Hl Hs Hwr Hm Hun Hfin Hfl Hpend]. split; try done.
  - intros id Hid Hnd. destruct (Hm id Hid Hnd) as [?|(f & ? & ?)]; [by left|right].
    exists f. by rewrite <- Hp.
  - by rewrite <- Hp.
  - intros f Hf. apply Hpend. by rewrite Hp.
Qed.

(** ** The process that changes *)
Lemma nextval_ok writers L g m pending ids seq' :
  gen_ok writers L g (((m, None) : fetch) :: pending) → ledger_ok writers L →
  (∀ id, id ∈ ids → (seq_last L < id ≤ seq')%Z) → (seq_last L ≤ seq')%Z →
  gen_ok writers (hand_out L (_instance_name g) ids seq') g (((m, Some ids) : fetch) :: pending).
Proof.
  intros Hg HL Hids Hseq.
  pose proof (g_pending _ _ _ _ Hg (m, None) ltac:(left)) as (Hw & Hmle & _).
  pose proof (hand_out_grows writers L (_instance_name g) ids seq' HL Hids Hseq) as Hgr.
  pose proof (hand_out_ok writers L (_instance_name g) ids seq' HL Hw Hids Hseq) as HL'.
  set (L' := hand_out L (_instance_name g) ids seq') in *.
  destruct Hg as [Hc [Hl1 Hl2] [Hs1 Hs2] Hwr Hm Hun Hfin Hfl Hpend].
  pose proof Hgr as [_ Hf Ho Hnew].
  assert (∀ id w, owner L !! id = Some w → owner L' !! id = Some w) as Ho'
    by (intros; by eapply lookup_weaken).
  assert (∀ id, owner L' !! id = Some (_instance_name g) → ¬ done L' id →
    id ∈ _unfinished_ids g ∨ ∃ f : fetch, f ∈ (m, Some ids) :: pending ∧ id ∈ fetched f) as Hm'.
  { intros id [[Hin _]|[_ Hid]]%hand_out_lookup Hnd.
    - right. exists (m, Some ids). split; [left|done].
    - destruct (Hm id Hid Hnd) as [?|(f & [->|?]%elem_of_cons & Hif)]; [by left| |].
      + by apply not_elem_of_nil in Hif.
      + right. exists f. split; [by right|done]. }
  assert (∀ f : fetch, f ∈ (m, Some ids) :: pending →
    _instance_name g ∈ writers ∧ (f.1 ≤ seq_last L')%Z ∧
    ∀ id, id ∈ fetched f → owner L' !! id = Some (_instance_name g) ∧ (f.1 < id)%Z) as Hpend'.
  { simpl in Hmle. intros f [->|Hf']%elem_of_cons.
    - split_and!; [done|simpl; lia|]. intros id Hid. split; [apply hand_out_lookup; by left|].
      apply Hids in Hid. simpl. lia.
    - destruct (Hpend f) as (? & ? & Hi); [by right|]. split_and!; [done|simpl; lia|].
      intros id Hid. destruct (Hi id Hid). auto. }
  split; try done.
  - eapply core_of_gen_ok; try done.
    + eapply all_done_mono; [done|apply Hc].
    + intros w p Hp%(c_pos _ _ Hc). destruct Hp; split; [by eapply safe_mono|by eapply settled_mono].
    + eapply Forall_impl; [apply Hc|]. intros t. by apply settled_mono.
    + auto.
  - split; [by eapply safe_mono|by eapply settled_mono].
  - split; [simpl; lia|]. intros w Hw'. destruct (Hnew _ _ Hw') as [Hw''|]; [|lia].
    destruct (Hs2 _ Hw''); [by left|right; by apply Hf].
  - auto.
  - intros id [? ?]%Hfin. split; [auto|by apply Hf].
Qed.

Lemma end_fetch_flight L writers g f pending :
  gen_ok writers L g (f :: pending) →
  ∃ l, sorted_remove f.1 (_in_flight_fetches g) = Ok l ∧ l ≡ₚ pending.*1.
Proof.
  intros Hg. pose proof (g_flight _ _ _ _ Hg) as Hfl.
  destruct (sorted_remove_perm f.1 (_in_flight_fetches g)) as (l & Hl & Hp).
  { rewrite Hfl. left. }
  exists l. split; [done|]. rewrite Hp in Hfl. by apply Permutation_cons_inv in Hfl.
Qed.

(** The IDs of a request are noted as unfinished before the request is
    forgotten. *)
Lemma register_ok writers L g m ids pending r g1 :
  gen_ok writers L g (((m, Some ids) : fetch) :: pending) → ledger_ok writers L →
  register_ids g ids = (r, g1) →
  ∃ g2, end_fetch g1 m = Ok g2 ∧ gen_ok writers L g2 pending.
Proof.
  intros Hg HL Hreg. destruct (end_fetch_flight _ _ _ _ _ Hg) as (l & Hl & Hp). simpl in Hl.
  pose proof (g_pending _ _ _ _ Hg (m, Some ids) ltac:(left)) as (Hw & _ & Hids).
  destruct Hg as [Hc Hloc Hs Hwr Hm Hun Hfin Hfl Hpend].
  set (U := list_to_set ids ∪ _unfinished_ids g).
  assert (∀ id, id ∈ U → owner L !! id = Some (_instance_name g)) as HU.
  { intros id [Hid%elem_of_list_to_set|?]%elem_of_union; [|by apply Hun]. by apply Hids. }
  assert (∀ id, owner L !! id = Some (_instance_name g) → ¬ done L id →
    id ∈ U ∨ ∃ f, f ∈ pending ∧ id ∈ fetched f) as Hm'.
  { intros id Hid Hnd. destruct (Hm id Hid Hnd) as [?|(f & [->|?]%elem_of_cons & Hif)].
    - left. set_solver.
    - left. apply elem_of_union_l. by apply elem_of_list_to_set.
    - right. by exists f. }
  assert (∀ f, f ∈ pending → _instance_name g ∈ writers ∧ (f.1 ≤ seq_last L)%Z ∧
    ∀ id, id ∈ fetched f → owner L !! id = Some (_instance_name g) ∧ (f.1 < id)%Z) as Hpend'
    by (intros f Hf; apply Hpend; by right).
  assert (∀ seen, seen_ok L (with_max_seen g seen) →
    gen_ok writers L (with_max_seen (with_ids g U l (_finished_ids g)) seen) pending) as Hgen.
  { intros seen Hseen. split; try done. eapply core_of_gen_ok; try done; apply Hc. }
  unfold register_ids in Hreg. simpl in Hreg. fold U in Hreg.
  destruct (list_max (elements U)) as [last|] eqn:Hlast; simplify_eq;
    unfold end_fetch; simpl; rewrite Hl; simpl; eexists; (split; [done|]).
  - apply (Hgen (Z.max (_max_seen_allocated_stream_id g) last)). destruct Hs as [Hs1 Hs2].
    apply list_max_Some in Hlast as [Hlast%elem_of_elements%HU _].
    pose proof (proj2 HL _ _ Hlast) as [_ ?]. unfold seen_ok. simpl. split; [lia|].
    destruct (Z.max_spec (_max_seen_allocated_stream_id g) last) as [[_ ->]|[_ ->]]; [|done].
    intros w ?. left. congruence.
  - apply (Hgen (_max_seen_allocated_stream_id g) Hs).
Qed.

(** A request fails: nothing will be written under the IDs it may have got. *)
Lemma lost_ok writers L g f pending :
  gen_ok writers L g (f :: pending) → ledger_ok writers L →
  ∃ g2, end_fetch g f.1 = Ok g2 ∧ gen_ok writers (finish_ids L (fetched f)) g2 pending.
Proof.
  intros Hg HL. destruct (end_fetch_flight _ _ _ _ _ Hg) as (l & Hl & Hp).
  apply (gen_ok_grows writers L (finish_ids L (fetched f))) in Hg; [|done|apply finish_ids_grows|done].
  unfold end_fetch. rewrite Hl. simpl. eexists. split; [done|].
  destruct Hg as [Hc Hloc Hs Hwr Hm Hun Hfin Hfl Hpend].
  assert (∀ id, owner (finish_ids L (fetched f)) !! id = Some (_instance_name g) →
    ¬ done (finish_ids L (fetched f)) id →
    id ∈ _unfinished_ids g ∨ ∃ f, f ∈ pending ∧ id ∈ fetched f) as Hm'.
  { intros id Hid Hnd. destruct (Hm id Hid Hnd) as [?|(f' & [->|?]%elem_of_cons & Hif)];
      [by left| |right; by exists f'].
    destruct Hnd. apply elem_of_union_l. by apply elem_of_list_to_set. }
  assert (∀ f', f' ∈ pending → _instance_name g ∈ writers ∧
    (f'.1 ≤ seq_last (finish_ids L (fetched f)))%Z ∧
    ∀ id, id ∈ fetched f' →
      owner (finish_ids L (fetched f)) !! id = Some (_instance_name g) ∧ (f'.1 < id)%Z) as Hpend'
    by (intros f' Hf; apply Hpend; by right).
  split; try done. eapply core_of_gen_ok; try done; try apply Hc.
  intros f' Hf'. by apply (Hpend' f').
Qed.

Lemma mark_ok writers L g pending ids :
  gen_ok writers L g pending → ledger_ok writers L →
  ids ≠ [] → (∀ id, id ∈ ids → id ∈ _unfinished_ids g) →
  ∃ g', _mark_ids_as_finished g ids = Ok g' ∧ gen_ok writers (finish_ids L ids) g' pending.
Proof.
  intros Hg HL Hne Hids. pose proof (g_unfinished _ _ _ _ Hg) as Hmine.
  apply (gen_ok_grows writers L (finish_ids L ids)) in Hg; [|done|apply finish_ids_grows|done].
  set (L' := finish_ids L ids) in *. assert (ledger_ok writers L') as HL' by done.
  assert (∀ id, id ∈ ids → done L' id) as Hdone.
  { intros id Hid. apply elem_of_union_l. by apply elem_of_list_to_set. }
  assert (Forall (settled L') ids) as Hset.
  { apply Forall_forall. intros id Hid. split; [|intros; by apply Hdone].
    apply (proj2 HL' id (_instance_name g)). by apply Hmine, Hids. }
  unfold _mark_ids_as_finished.
  set (g1 := with_ids g _ _ _).
  assert (gen_ok writers L' g1 pending) as Hg1.
  { destruct Hg as [Hc Hloc Hs Hwr Hm Hun Hfin Hfl Hpend].
    assert (∀ id, owner L' !! id = Some (_instance_name g) → ¬ done L' id →
      id ∈ _unfinished_ids g1 ∨ ∃ f, f ∈ pending ∧ id ∈ fetched f) as Hm'.
    { intros id Hid Hnd. destruct (Hm id Hid Hnd) as [?|?]; [left|by right].
      apply elem_of_difference. split; [done|]. intros Hin%elem_of_list_to_set.
      by apply Hnd, Hdone. }
    assert (∀ id, id ∈ _unfinished_ids g1 → owner L' !! id = Some (_instance_name g)) as Hun'
      by (intros id [? _]%elem_of_difference; by apply Hun).
    split; try done.
    - eapply core_of_gen_ok; try done; try apply Hc. intros f Hf. by apply (Hpend f).
    - intros id [Hid%elem_of_list_to_set|?]%elem_of_union; [|by apply Hfin].
      split; [by apply Hmine, Hids|by apply Hdone]. }
  destruct (new_position g1) as [[new_cur rest]|ex] eqn:Hnew; last first.
  { unfold new_position in Hnew. destruct (min_unfinished g1); [done|].
    destruct (list_max _) eqn:Hmax; [done|]. apply list_max_None, elements_empty_inv in Hmax.
    destruct ids as [|id ids']; [done|]. assert (id ∈ _finished_ids g1); [|set_solver].
    apply elem_of_union_l, elem_of_list_to_set. left. }
  simpl. eexists. split; [done|]. apply add_persisted_fold_ok; [|done].
  assert (∀ r, (∀ id, id ∈ r → id ∈ _finished_ids g1) →
    gen_ok writers L' (with_ids g1 (_unfinished_ids g1) (_in_flight_fetches g1) r) pending) as Hrest.
  { intros r Hr. destruct Hg1 as [Hc Hloc Hs Hwr Hm Hun Hfin Hfl Hpend]. split; try done.
    - eapply core_of_gen_ok; try done; try apply Hc. intros f Hf. by apply (Hpend f).
    - intros id Hid. by apply Hfin, Hr. }
  destruct new_cur as [c|].
  - destruct (new_position_safe writers L' g1 pending c rest Hg1 HL' Hnew) as (H1 & H2 & H3).
    apply update_position_ok; [by apply Hrest|done..].
  - apply Hrest. unfold new_position in Hnew. destruct (min_unfinished g1).
    + injection Hnew as _ <-. set_solver.
    + destruct (list_max _); simplify_eq/=.
Qed.

Lemma advance_ok writers L g pending w t :
  gen_ok writers L g pending → ledger_ok writers L → w ≠ _instance_name g →
  safe L w (t * _return_factor g) → settled L (t * _return_factor g) →
  gen_ok writers L (advance g w t) pending.
Proof.
  intros Hg HL Hw Hsafe Hset. unfold advance. set (p := (t * _return_factor g)%Z) in *.
  apply add_persisted_ok; [|done].
  destruct Hg as [Hc Hloc [Hs1 Hs2] Hwr Hm Hun Hfin Hfl Hpend].
  set (q := Z.max p (default 0%Z (_current_positions g !! w))).
  assert (safe L w q ∧ settled L q) as [Hq1 Hq2].
  { unfold q. destruct (_current_positions g !! w) as [p'|] eqn:Hp'; simpl.
    - apply (c_pos _ _ Hc) in Hp' as [? ?]. split; [by apply safe_max|by apply settled_max].
    - destruct Hsafe as [? ?]. by rewrite Z.max_l by lia. }
  assert (∀ w' p', <[w := q]> (_current_positions g) !! w' = Some p' →
    safe L w' p' ∧ settled L p') as Hpos.
  { intros w' p' [[<- <-]|[_ Hp]]%lookup_insert_Some; [done|by apply (c_pos _ _ Hc)]. }
  assert (∀ w', w' ∈ writers → is_Some (<[w := q]> (_current_positions g) !! w')) as Hwr'.
  { intros w' Hw'. destruct (decide (w' = w)) as [->|];
      [by rewrite lookup_insert_eq|rewrite lookup_insert_ne by done; by apply Hwr]. }
  split; try done.
  - eapply core_of_gen_ok; try done; try apply Hc. intros f Hf. by apply (Hpend f).
  - destruct Hset as [Hr Hset]. split; simpl; [lia|].
    destruct (Z.max_spec (_max_seen_allocated_stream_id g) p) as [[_ ->]|[_ ->]]; [|done].
    intros w' Hw'. right. by eapply Hset.
Qed.

(** ** Start-up *)

(** The database describes the ledger: the recorded positions are safe, the rows
    were written by their owners, and every writer that is writing has recorded
    a position.  A writer that reads the last value of the sequence finds it
    settled. *)
Record db_ok (writers : list string) (n : string) (factor : Z) (L : ledger) (db : stream_db)
    : Prop := {
  d_pos : ∀ w p, db_positions db !! w = Some p → safe L w (p * factor) ∧ settled L (p * factor);
  d_rows : ∀ i x, (i, x) ∈ concat (db_tables db) →
    owner L !! (factor * x)%Z = Some i ∧ done L (factor * x);
  d_cover : ∀ id w, owner L !! id = Some w → ¬ done L id → is_Some (db_positions db !! w);
  d_last : n ∈ writers → db_postgres db = true →
    db_last_value db = seq_last L ∧ settled L (seq_last L)
}.

(** While loading nothing is in progress. *)
Record loading (writers : list string) (n : string) (positive : bool) (L : ledger) (g : id_gen)
    : Prop := {
  l_core : core_ok L g;
  l_name : _instance_name g = n;
  l_writers : _writers g = writers;
  l_positive : _positive g = positive;
  l_idle : _unfinished_ids g = ∅ ∧ _in_flight_fetches g = [] ∧ _finished_ids g = ∅
}.

Lemma add_persisted_same g x :
  let g' := _add_persisted_position g x in
  _instance_name g' = _instance_name g ∧ _writers g' = _writers g ∧ _positive g' = _positive g ∧
  _current_positions g' = _current_positions g ∧
  (_unfinished_ids g', _in_flight_fetches g', _finished_ids g') =
  (_unfinished_ids g, _in_flight_fetches g, _finished_ids g).
Proof. unfold _add_persisted_position. by destruct (skip_run _ _). Qed.

Section Start.
Context (writers : list string) (n : string) (positive : bool) (L : ledger) (db : stream_db).
Context (writers_ne : writers ≠ []) (HL : ledger_ok writers L).
Context (mine_done : ∀ id, owner L !! id = Some n → done L id).
Let factor : Z := if positive then 1 else -1.
Context (Hdb : db_ok writers n factor L db).

Lemma safe_mine t : (1 ≤ t ≤ seq_last L)%Z → safe L n t.
Proof using mine_done. split; [done|]. intros id Hid _. by apply mine_done. Qed.

Lemma loaded_positions_ok w p :
  loaded_positions (blank n writers positive) db !! w = Some p → safe L w p ∧ settled L p.
Proof using mine_done Hdb HL.
  unfold loaded_positions. simpl.
  set (stored := if decide (writers = []) then ∅ else _).
  assert (∀ p, stored !! w = Some p → safe L w p ∧ settled L p) as Hst.
  { intros q. unfold stored. destruct (decide (writers = [])); [by rewrite lookup_empty|].
    rewrite lookup_fmap, fmap_Some. intros (x & Hx & ->).
    apply map_lookup_filter_Some in Hx as [Hx _]. by apply (d_pos _ _ _ _ _ Hdb). }
  destruct (bool_decide (n ∈ writers) && db_postgres db) eqn:Hc; [|apply Hst].
  apply andb_true_iff in Hc as [Hn%bool_decide_eq_true Hpg].
  destruct (d_last _ _ _ _ _ Hdb Hn Hpg) as [-> Hset].
  intros [[<- <-]|[_ ?]]%lookup_insert_Some; [|by apply Hst]. split; [|done].
  apply safe_mine. destruct HL. lia.
Qed.

Lemma loaded_positions_cover id w :
  owner L !! id = Some w → ¬ done L id →
  is_Some (loaded_positions (blank n writers positive) db !! w).
Proof using writers_ne HL Hdb.
  intros Hid Hnd. destruct (d_cover _ _ _ _ _ Hdb id w Hid Hnd) as [p Hp].
  unfold loaded_positions. simpl. destruct (decide (writers = [])); [done|].
  assert (((λ i, i * _return_factor (blank n writers positive))%Z <$>
    filter (λ kv, kv.1 ∈ writers) (db_positions db)) !! w =
    Some (p * _return_factor (blank n writers positive))%Z) as Hst.
  { rewrite lookup_fmap. apply fmap_Some. exists p. split; [|done].
    apply map_lookup_filter_Some. split; [done|]. by apply (proj2 HL id). }
  destruct (_ && _); [|by rewrite Hst].
  destruct (decide (w = n)) as [->|]; [by rewrite lookup_insert_eq|].
  rewrite lookup_insert_ne by done. by rewrite Hst.
Qed.

Lemma row_ok i x :
  (i, x) ∈ concat (db_tables db) →
  settled L (factor * x) ∧ (1 ≤ factor * x ≤ seq_last L)%Z.
Proof using HL Hdb.
  intros [Ho Hd]%(d_rows _ _ _ _ _ Hdb). pose proof (proj2 HL _ _ Ho) as [_ Hr].
  split; [|done]. by split.
Qed.

Lemma max_table_id_range : (1 ≤ max_table_id (blank n writers positive) db ≤ seq_last L)%Z.
Proof using HL Hdb.
  unfold max_table_id. change (_return_factor (blank n writers positive)) with factor.
  set (f := λ (m : Z) (table : list (string * Z)), _).
  assert (∀ tbs m, (∀ i x, (i, x) ∈ concat tbs → (x * factor ≤ seq_last L)%Z) →
    (1 ≤ m ≤ seq_last L)%Z → (1 ≤ foldl f m tbs ≤ seq_last L)%Z) as Hf.
  { induction tbs as [|tb tbs IH]; intros m Hrows Hm; [done|]. simpl.
    apply IH; [intros i x Hx; apply (Hrows i); simpl; apply elem_of_app; by right|].
    unfold f. destruct (list_max _) as [a|] eqn:Ha; simpl; [|lia].
    apply list_max_Some in Ha as [([i x] & -> & Hin)%list_elem_of_fmap _].
    assert (x * factor ≤ seq_last L)%Z; [|simpl; lia].
    apply (Hrows i). simpl. apply elem_of_app. by left. }
  apply Hf; [|destruct HL; lia].
  intros i x Hx. rewrite Z.mul_comm. by apply (row_ok i x).
Qed.

Lemma loading_set_position g w p :
  loading writers n positive L g → safe L w p → settled L p →
  loading writers n positive L (with_positions g (<[w := p]> (_current_positions g))).
Proof using Type.
  intros [[Hu Hpos Hk Hcov Hown Hbusy] Hn Hw Hp Hi] Hs Ht. split; try done.
  split; try done; simpl.
  - intros w' p' [[<- <-]|[_ ?]]%lookup_insert_Some; [done|by apply Hpos].
  - intros id w' Hid Hnd. destruct (decide (w' = w)) as [->|];
      [by rewrite lookup_insert_eq|rewrite lookup_insert_ne by done; by eapply Hcov].
  - intros Hb. destruct (decide (_instance_name g = w)) as [->|];
      [by rewrite lookup_insert_eq|rewrite lookup_insert_ne by done; by apply Hbusy].
Qed.

Lemma load_rows_ok rows g :
  loading writers n positive L g → (∀ r, r ∈ rows → r ∈ concat (db_tables db)) →
  loading writers n positive L (foldl load_row g rows).
Proof using mine_done HL Hdb.
  revert g. induction rows as [|[i x] rows IH]; intros g Hg Hrows; [done|]. simpl.
  apply IH; [|intros r Hr; apply Hrows; by right].
  destruct (row_ok i x) as [Hset Hr]; [apply Hrows; left|].
  assert (_return_factor g = factor) as Hfac
    by (unfold _return_factor, factor; by rewrite (l_positive _ _ _ _ _ Hg)).
  unfold load_row. simpl. rewrite Hfac.
  assert (loading writers n positive L (_add_persisted_position g (factor * x))) as Hg'.
  { destruct Hg as [Hc Hn Hw Hp (Hi1 & Hi2 & Hi3)].
    pose proof (add_persisted_same g (factor * x)) as (E1 & E2 & E3 & E4 & E5).
    injection E5 as E5 E6 E7.
    split; [by apply add_persisted_core|congruence..|split_and!; congruence]. }
  destruct (String.eqb_spec i (_instance_name (_add_persisted_position g (factor * x)))) as [->|];
    [|done].
  rewrite (l_name _ _ _ _ _ Hg'). apply loading_set_position; [done| |done].
  by apply safe_mine.
Qed.

Lemma default_positions_ok ws g :
  loading writers n positive L g →
  let g' := foldl (λ g writer,
    match _current_positions g !! writer with
    | Some _ => g
    | None => with_positions g (<[writer := _persisted_upto_position g]> (_current_positions g))
    end) g ws in
  loading writers n positive L g' ∧
  (∀ w, w ∈ ws ∨ is_Some (_current_positions g !! w) → is_Some (_current_positions g' !! w)).
Proof using Type.
  revert g. induction ws as [|w ws IH]; intros g Hg; simpl.
  { split; [done|]. by intros w [?%not_elem_of_nil|?]. }
  assert (loading writers n positive L
      (match _current_positions g !! w with
       | Some _ => g
       | None => with_positions g (<[w := _persisted_upto_position g]> (_current_positions g))
       end) ∧
    ∀ w', w' = w ∨ is_Some (_current_positions g !! w') →
      is_Some (_current_positions
        (match _current_positions g !! w with
         | Some _ => g
         | None => with_positions g (<[w := _persisted_upto_position g]> (_current_positions g))
         end) !! w')) as [Hg' Hdom].
  { destruct (_current_positions g !! w) as [p|] eqn:Hp.
    - split; [done|]. intros w' [->|?]; [by rewrite Hp|done].
    - pose proof (c_upto _ _ (l_core _ _ _ _ _ Hg)) as Hu. split.
      + apply loading_set_position; [done|by apply all_done_safe|by apply all_done_settled].
      + simpl. intros w' Hw'. destruct (decide (w' = w)) as [->|];
          [by rewrite lookup_insert_eq|rewrite lookup_insert_ne by done; naive_solver]. }
  destruct (IH _ Hg') as [Hl Hd]. split; [done|].
  intros w' [[->|?]%elem_of_cons|?]; apply Hd; [right|by left|right]; apply Hdom; auto.
Qed.

Lemma load_current_ids_ok :
  let g := _load_current_ids (blank n writers positive) db in
  loading writers n positive L g ∧ (∀ w, w ∈ writers → is_Some (_current_positions g !! w)).
Proof using writers_ne mine_done HL Hdb.
  unfold _load_current_ids.
  set (g0 := with_positions _ (loaded_positions _ db)).
  assert (∀ m, all_done L m →
    loading writers n positive L
      (with_upto g0 m (_known_persisted_positions g0) (_max_position_of_local_instance g0))) as Hg0.
  { intros m Hm. split; try done. split; try done; simpl.
    - apply loaded_positions_ok.
    - apply loaded_positions_cover. }
  set (g1 := match list_min _ with Some _ => _ | None => _ end).
  assert (loading writers n positive L g1) as Hg1.
  { unfold g1. destruct (list_min _) as [m|] eqn:Hm.
    - apply load_rows_ok.
      + apply Hg0. apply list_min_Some in Hm as [Hin Hmin].
        assert (∀ w p, _current_positions g0 !! w = Some p → (m ≤ p)%Z) as Hle.
        { intros w p Hp. apply Hmin, list_elem_of_fmap. exists (w, p).
          split; [done|by apply elem_of_map_to_list]. }
        apply list_elem_of_fmap in Hin as ([w p] & Hmp & Hin%elem_of_map_to_list).
        simpl in Hmp. subst p. pose proof (loaded_positions_ok _ _ Hin) as [[Hr _] _].
        split; [done|]. intros id w' Hid Hidle.
        destruct (decide (done L id)) as [|Hnd]; [done|exfalso].
        destruct (loaded_positions_cover id w' Hid Hnd) as [p Hp].
        pose proof (loaded_positions_ok _ _ Hp) as [[_ Hs] _].
        apply Hnd, Hs; [done|]. specialize (Hle _ _ Hp). lia.
      + intros r Hr. unfold later_rows in Hr. rewrite merge_sort_Permutation in Hr.
        by apply list_elem_of_filter in Hr as [_ ?].
    - apply Hg0. split; [apply max_table_id_range|]. intros id w Hid _.
      destruct (decide (done L id)) as [|Hnd]; [done|exfalso].
      destruct (loaded_positions_cover id w Hid Hnd) as [p Hp].
      apply list_min_None, fmap_nil_inv, map_to_list_empty_iff in Hm.
      simpl in Hm. rewrite Hm in Hp. by rewrite lookup_empty in Hp. }
  unfold default_positions. rewrite (l_writers _ _ _ _ _ Hg1).
  destruct (default_positions_ok writers g1 Hg1) as [Hl Hd]. split; [done|]. auto.
Qed.

(** A process that has just started has a correct view. *)
Lemma init_ok : gen_ok writers L (init_id_gen n writers positive db) [].
Proof using writers_ne mine_done HL Hdb.
  unfold init_id_gen. destruct load_current_ids_ok as [Hl Hd].
  set (g := _load_current_ids _ db) in *.
  destruct Hl as [Hc Hn Hw Hp (Hi1 & Hi2 & Hi3)].
  set (m := Z.max _ (_persisted_upto_position g)).
  assert (settled L m) as Hm.
  { apply settled_max; [|apply all_done_settled, Hc].
    destruct (list_max _) as [p|] eqn:Hlm; simpl.
    - apply list_max_Some in Hlm as [([w p'] & -> & Hin%elem_of_map_to_list)%list_elem_of_fmap _].
      by apply (c_pos _ _ Hc) in Hin as [_ ?].
    - apply list_max_None, fmap_nil_inv, map_to_list_empty_iff in Hlm.
      destruct writers as [|w ws]; [done|].
      destruct (Hd w) as [p Hp']; [left|]. by rewrite Hlm, lookup_empty in Hp'. }
  destruct writers as [|w0 ws]; [done|].
  split; simpl; try done.
  - destruct Hc as [Hu Hpos Hk Hcov Hown Hbusy]. split; try done.
  - split; simpl; [|done]. rewrite Hn. apply safe_mine. apply Hm.
  - split; simpl; [apply Hm|]. intros w Hw'. right. by eapply Hm.
  - rewrite Hn. intros id Hid Hnd. by destruct Hnd; apply mine_done.
  - rewrite Hi1. set_solver.
  - rewrite Hi3. set_solver.
  - by rewrite Hi2.
  - by intros f []%not_elem_of_nil.
Qed.
End Start.
