(* ===== verification/IdGeneratorsSystem.v ===== *)
(** Several processes writing to one stream: the step relation of the whole
    system, and the theorems about the positions they report. *)
From S2P Require Import Prelude IdGenerators IdGeneratorsProps.

(** ** The system

    The ledger, the processes that run, their requests for IDs in progress, the
    positions sent over replication, and the [stream_positions] table. *)
Record system := mkSystem {
  s_ledger : ledger;
  s_gens : gmap string id_gen;
  s_fetches : list (string * fetch);
  s_msgs : gset (string * Z);
  s_table : gmap string Z
}.

Definition pending_of (fetches : list (string * fetch)) (n : string) : list fetch :=
  (filter (λ nf, nf.1 = n) fetches).*2.

Definition owned_by (L : ledger) (n : string) : list Z :=
  (filter (λ kv, kv.2 = n) (map_to_list (owner L))).*1.

Section System.
(** The configuration of the stream. [settled_start]: no process starts while
    the last ID of the sequence is being written. *)
Context (writers : list string) (positive postgres settled_start : bool).

Definition sign : Z := if positive then 1 else -1.

(** The rows of the stream's tables are IDs that are done. *)
Definition rows_match (L : ledger) (tables : list (list (string * Z))) : Prop :=
  ∀ i x, (i, x) ∈ concat tables → owner L !! (sign * x)%Z = Some i ∧ done L (sign * x).

Inductive step : system → system → Prop :=
  (** A process starts and reads the database. *)
  | step_start L gens fetches msgs table n tables :
      gens !! n = None →
      (∀ id, owner L !! id = Some n → done L id) →
      pending_of fetches n = [] →
      rows_match L tables →
      (∀ id w, owner L !! id = Some w → ¬ done L id → is_Some (table !! w)) →
      (settled_start = true → settled L (seq_last L)) →
      step (mkSystem L gens fetches msgs table)
        (mkSystem L
           (<[n := init_id_gen n writers positive
                     (mkStreamDb postgres table (seq_last L) tables)]> gens)
           fetches msgs (prune_positions writers table))
  (** A process stops; its transactions are rolled back. *)
  | step_stop L gens fetches msgs table n g :
      gens !! n = Some g →
      step (mkSystem L gens fetches msgs table)
        (mkSystem (finish_ids L (owned_by L n)) (delete n gens)
           (filter (λ nf, nf.1 ≠ n) fetches) msgs table)
  (** The three parts of [_load_next_mult_id_txn], and its failure. *)
  | step_begin L gens fetches msgs table n g :
      gens !! n = Some g → check_writer g = Ok tt →
      step (mkSystem L gens fetches msgs table)
        (mkSystem L (<[n := (begin_fetch g).2]> gens)
           ((n, ((begin_fetch g).1, None)) :: fetches) msgs table)
  | step_nextval L gens fetches msgs table n m rest ids seq' :
      fetches ≡ₚ (n, (m, None)) :: rest →
      (∀ id, id ∈ ids → (seq_last L < id ≤ seq')%Z) → (seq_last L ≤ seq')%Z →
      step (mkSystem L gens fetches msgs table)
        (mkSystem (hand_out L n ids seq') gens ((n, (m, Some ids)) :: rest) msgs table)
  | step_register L gens fetches msgs table n g m ids rest r g1 g2 :
      gens !! n = Some g → fetches ≡ₚ (n, (m, Some ids)) :: rest →
      register_ids g ids = (r, g1) → end_fetch g1 m = Ok g2 →
      step (mkSystem L gens fetches msgs table)
        (mkSystem L (<[n := g2]> gens) rest msgs table)
  | step_lost L gens fetches msgs table n g f rest g2 :
      gens !! n = Some g → fetches ≡ₚ (n, f) :: rest → end_fetch g f.1 = Ok g2 →
      step (mkSystem L gens fetches msgs table)
        (mkSystem (finish_ids L (fetched f)) (<[n := g2]> gens) rest msgs table)
  (** A transaction ends: the context manager is left. *)
  | step_finish L gens fetches msgs table n g ids g' :
      gens !! n = Some g → ids ≠ [] → (∀ id, id ∈ ids → id ∈ _unfinished_ids g) →
      _mark_ids_as_finished g ids = Ok g' →
      step (mkSystem L gens fetches msgs table)
        (mkSystem (finish_ids L ids) (<[n := g']> gens) fetches msgs table)
  (** A process announces its token, or a row it has written. *)
  | step_send L gens fetches msgs table n g t :
      gens !! n = Some g →
      t = get_current_token_for_writer g n ∨
      (owner L !! (sign * t)%Z = Some n ∧ done L (sign * t) ∧
       (sign * t ≤ _max_position_of_local_instance g)%Z) →
      step (mkSystem L gens fetches msgs table)
        (mkSystem L gens fetches ({[ (n, t) ]} ∪ msgs) table)
  (** Another process hears of it, possibly late, out of order or twice. *)
  | step_deliver L gens fetches msgs table n g w t :
      gens !! n = Some g → w ≠ n → (w, t) ∈ msgs →
      step (mkSystem L gens fetches msgs table)
        (mkSystem L (<[n := advance g w t]> gens) fetches msgs table)
  | step_table L gens fetches msgs table n g :
      gens !! n = Some g →
      step (mkSystem L gens fetches msgs table)
        (mkSystem L gens fetches msgs (update_stream_positions_table g table)).

(** The sequence starts after 1, which is taken as persisted. *)
Definition initial : system := mkSystem (mkLedger 1 ∅ ∅) ∅ [] ∅ ∅.

Definition reachable (s : system) : Prop := rtc step initial s.

(** ** The invariant *)
Definition configured (n : string) (g : id_gen) : Prop :=
  _instance_name g = n ∧ _writers g = writers ∧ _positive g = positive.

Record sys_ok (s : system) : Prop := {
  i_ledger : ledger_ok writers (s_ledger s);
  i_config : ∀ n g, s_gens s !! n = Some g → configured n g;
  i_gens : ∀ n g, s_gens s !! n = Some g →
    gen_ok writers (s_ledger s) g (pending_of (s_fetches s) n);
  i_fetches : ∀ n f, (n, f) ∈ s_fetches s → is_Some (s_gens s !! n);
  i_msgs : ∀ w t, (w, t) ∈ s_msgs s →
    safe (s_ledger s) w (t * sign) ∧ settled (s_ledger s) (t * sign);
  i_table : ∀ w p, s_table s !! w = Some p →
    safe (s_ledger s) w (p * sign) ∧ settled (s_ledger s) (p * sign)
}.

Lemma elem_of_pending fetches n f : f ∈ pending_of fetches n ↔ (n, f) ∈ fetches.
Proof.
  unfold pending_of. rewrite list_elem_of_fmap. split.
  - intros ([n' f'] & -> & [Hn Hin]%list_elem_of_filter). simpl in Hn. by subst.
  - intros Hin. exists (n, f). split; [done|]. by apply list_elem_of_filter.
Qed.

Lemma pending_of_perm l l' n : l ≡ₚ l' → pending_of l n ≡ₚ pending_of l' n.
Proof. intros Hp. unfold pending_of. by rewrite Hp. Qed.

Lemma pending_of_cons n n' f l :
  pending_of ((n', f) :: l) n = if decide (n' = n) then f :: pending_of l n else pending_of l n.
Proof. unfold pending_of. rewrite filter_cons. simpl. by destruct (decide _). Qed.

(** A generator step does not change the configuration. *)
Lemma add_persisted_config n g x : configured n g → configured n (_add_persisted_position g x).
Proof.
  pose proof (add_persisted_same g x) as (E1 & E2 & E3 & _). unfold configured.
  by rewrite E1, E2, E3.
Qed.

Lemma add_persisted_fold_config n g ids :
  configured n g → configured n (foldl _add_persisted_position g ids).
Proof.
  revert g. induction ids as [|x ids IH]; intros g Hg; [done|]. by apply IH, add_persisted_config.
Qed.

Lemma mark_config n g ids g' :
  _mark_ids_as_finished g ids = Ok g' → configured n g → configured n g'.
Proof.
  unfold _mark_ids_as_finished. intros ([c rest] & _ & [= <-])%bind_ok Hg.
  apply add_persisted_fold_config. unfold update_position.
  destruct c as [c|]; [|done]. by destruct (c =? 0)%Z.
Qed.

Lemma register_config n g ids r g1 m g2 :
  register_ids g ids = (r, g1) → end_fetch g1 m = Ok g2 → configured n g → configured n g2.
Proof.
  unfold register_ids, end_fetch. intros Hr (l & _ & [= <-])%bind_ok Hg.
  destruct (list_max _); by simplify_eq.
Qed.

Lemma end_fetch_config n g m g2 : end_fetch g m = Ok g2 → configured n g → configured n g2.
Proof. unfold end_fetch. by intros (l & _ & [= <-])%bind_ok Hg. Qed.

Lemma default_positions_config n ws g :
  configured n g →
  configured n (foldl (λ g writer,
    match _current_positions g !! writer with
    | Some _ => g
    | None => with_positions g (<[writer := _persisted_upto_position g]> (_current_positions g))
    end) g ws).
Proof.
  revert g. induction ws as [|w ws IH]; intros g Hg; [done|]. simpl. apply IH.
  by destruct (_current_positions g !! w).
Qed.

Lemma init_config n db : configured n (init_id_gen n writers positive db).
Proof.
  assert (configured n (_load_current_ids (blank n writers positive) db)) as Hl.
  { unfold _load_current_ids. apply default_positions_config.
    destruct (list_min _); [|done].
    set (g0 := with_upto _ _ _ _). assert (configured n g0) as Hg0 by done. revert Hg0.
    generalize g0. induction (later_rows _ _ _) as [|r rows IH]; intros g Hg; [done|]. simpl.
    apply IH. unfold load_row.
    pose proof (add_persisted_config n g (_return_factor g * r.2) Hg) as Hg'.
    destruct (String.eqb _ _); exact Hg'. }
  unfold init_id_gen. destruct (decide (writers = [])) as [Hw|Hw].
  - rewrite Hw in *. exact Hl.
  - destruct writers; [done|exact Hl].
Qed.

Lemma sign_factor n g : configured n g → _return_factor g = sign.
Proof. intros (_ & _ & Hp). unfold _return_factor, sign. by rewrite Hp. Qed.

Lemma sign_square x : (sign * x * sign = x)%Z.
Proof. unfold sign. destruct positive; lia. Qed.

(** The token a process announces for itself. *)
Lemma own_token n g :
  configured n g →
  (get_current_token_for_writer g n * sign = _max_position_of_local_instance g)%Z.
Proof.
  intros Hg. pose proof (sign_factor n g Hg) as Hf. destruct Hg as (Hn & _ & _).
  unfold get_current_token_for_writer. rewrite Hn, String.eqb_refl, Hf. apply sign_square.
Qed.

(** One process changes, with its requests and the ledger; the others see the
    ledger grow. *)
Lemma sys_ok_update s L' n g' fetches' :
  sys_ok s → ledger_ok writers L' → grows (s_ledger s) L' →
  (∀ m id, m ≠ n → owner L' !! id = Some m → owner (s_ledger s) !! id = Some m) →
  configured n g' → gen_ok writers L' g' (pending_of fetches' n) →
  (∀ m, m ≠ n → pending_of fetches' m ≡ₚ pending_of (s_fetches s) m) →
  sys_ok (mkSystem L' (<[n := g']> (s_gens s)) fetches' (s_msgs s) (s_table s)).
Proof.
  intros [Hl Hc Hg Hf Hm Ht] HL' Hgr Hown Hc' Hg' Hp. split; simpl.
  - done.
  - intros m g [[<- <-]|[_ ?]]%lookup_insert_Some; [done|by apply Hc].
  - intros m g [[<- <-]|[Hne Hm']]%lookup_insert_Some; [done|].
    eapply gen_ok_perm; [symmetry; by apply Hp|].
    apply (gen_ok_grows _ (s_ledger s)); [by apply Hg|done..|].
    intros id. destruct (Hc _ _ Hm') as [-> _]. by apply Hown.
  - intros m f Hin. destruct (decide (m = n)) as [->|Hne]; [by rewrite lookup_insert_eq|].
    rewrite lookup_insert_ne by done. apply (Hf m f). apply elem_of_pending.
    rewrite <- Hp by done. by apply elem_of_pending.
  - intros w t Hin. destruct (Hm w t Hin). split; [by eapply safe_mono|by eapply settled_mono].
  - intros w p Hin. destruct (Ht w p Hin). split; [by eapply safe_mono|by eapply settled_mono].
Qed.

Lemma grows_refl L : grows L L.
Proof. split; [lia|done|done|by left]. Qed.

Lemma pending_other_perm l l' n f m :
  l ≡ₚ (n, f) :: l' → m ≠ n → pending_of l' m ≡ₚ pending_of l m.
Proof.
  intros Hp Hne. rewrite (pending_of_perm _ _ _ Hp), pending_of_cons.
  by destruct (decide (n = m)).
Qed.

Lemma pending_self_perm l l' n f :
  l ≡ₚ (n, f) :: l' → pending_of l n ≡ₚ f :: pending_of l' n.
Proof.
  intros Hp. rewrite (pending_of_perm _ _ _ Hp), pending_of_cons. by destruct (decide (n = n)).
Qed.

Lemma owned_by_elem L n id : id ∈ owned_by L n ↔ owner L !! id = Some n.
Proof.
  unfold owned_by. rewrite list_elem_of_fmap. split.
  - intros ([i w] & -> & [Hw Hin]%list_elem_of_filter). simpl in *. subst.
    by apply elem_of_map_to_list.
  - intros Hid. exists (id, n). split; [done|]. apply list_elem_of_filter.
    split; [done|]. by apply elem_of_map_to_list.
Qed.

Context (writers_ne : writers ≠ []) (start_ok : settled_start = true).

Lemma start_preserves s n tables :
  sys_ok s → s_gens s !! n = None →
  (∀ id, owner (s_ledger s) !! id = Some n → done (s_ledger s) id) →
  pending_of (s_fetches s) n = [] → rows_match (s_ledger s) tables →
  (∀ id w, owner (s_ledger s) !! id = Some w → ¬ done (s_ledger s) id →
     is_Some (s_table s !! w)) →
  settled (s_ledger s) (seq_last (s_ledger s)) →
  sys_ok (mkSystem (s_ledger s)
    (<[n := init_id_gen n writers positive
              (mkStreamDb postgres (s_table s) (seq_last (s_ledger s)) tables)]> (s_gens s))
    (s_fetches s) (s_msgs s) (prune_positions writers (s_table s))).
Proof using writers_ne.
  intros Hs Hn Hmine Hpend Hrows Hcov Hset.
  set (db := mkStreamDb _ _ _ _).
  assert (gen_ok writers (s_ledger s) (init_id_gen n writers positive db) []) as Hg.
  { apply init_ok; [done|apply Hs|done|]. split; simpl; [apply Hs|done|done|done]. }
  rewrite <- Hpend in Hg.
  pose proof (sys_ok_update s (s_ledger s) n _ (s_fetches s) Hs (i_ledger _ Hs)
    (grows_refl _) ltac:(done) (init_config n db) Hg ltac:(done)) as [Hl Hc Hg' Hf Hm Ht].
  split; try done. simpl. intros w p Hp. apply (Ht w p). simpl.
  unfold prune_positions in Hp. destruct (decide _); [done|].
  by apply map_lookup_filter_Some in Hp as [? _].
Qed.

Lemma stop_preserves s n g :
  sys_ok s → s_gens s !! n = Some g →
  sys_ok (mkSystem (finish_ids (s_ledger s) (owned_by (s_ledger s) n)) (delete n (s_gens s))
    (filter (λ nf, nf.1 ≠ n) (s_fetches s)) (s_msgs s) (s_table s)).
Proof using Type.
  intros [Hl Hc Hg Hf Hm Ht] Hn. pose proof (finish_ids_grows (s_ledger s)
    (owned_by (s_ledger s) n)) as Hgr. split; simpl.
  - done.
  - intros m g' [_ ?]%lookup_delete_Some. by apply Hc.
  - intros m g' [Hne Hm']%lookup_delete_Some.
    assert (pending_of (filter (λ nf, nf.1 ≠ n) (s_fetches s)) m = pending_of (s_fetches s) m) as ->.
    { unfold pending_of. f_equal. rewrite list_filter_filter. apply list_filter_iff.
      intros [n' f]. simpl. naive_solver. }
    apply (gen_ok_grows _ (s_ledger s)); [by apply Hg|done..].
  - intros m f [Hne Hin]%list_elem_of_filter. simpl in Hne. rewrite lookup_delete_ne by done.
    by eapply Hf.
  - intros w t Hin. destruct (Hm w t Hin). split; [by eapply safe_mono|by eapply settled_mono].
  - intros w p Hin. destruct (Ht w p Hin). split; [by eapply safe_mono|by eapply settled_mono].
Qed.

Lemma nextval_preserves s n m rest ids seq' :
  sys_ok s → s_fetches s ≡ₚ (n, (m, None)) :: rest →
  (∀ id, id ∈ ids → (seq_last (s_ledger s) < id ≤ seq')%Z) → (seq_last (s_ledger s) ≤ seq')%Z →
  sys_ok (mkSystem (hand_out (s_ledger s) n ids seq') (s_gens s) ((n, (m, Some ids)) :: rest)
    (s_msgs s) (s_table s)).
Proof using Type.
  intros Hs Hp Hids Hseq.
  destruct (i_fetches _ Hs n (m, None)) as [g Hg]; [rewrite Hp; left|].
  pose proof (i_config _ Hs _ _ Hg) as Hc. pose proof (i_gens _ Hs _ _ Hg) as Hgen.
  apply (gen_ok_perm _ _ _ _ _ (pending_self_perm _ _ _ _ Hp)) in Hgen.
  pose proof (nextval_ok writers _ g m _ ids seq' Hgen (i_ledger _ Hs) Hids Hseq) as Hgen'.
  pose proof (g_pending _ _ _ _ Hgen (m, None) ltac:(left)) as (Hw & _).
  destruct (proj1 Hc). rewrite <- (insert_id (s_gens s) _ g Hg).
  apply (sys_ok_update s); try done.
  - apply hand_out_ok; [apply Hs|done..].
  - eapply hand_out_grows; [apply Hs|done..].
  - intros m' id Hne [[_ ?]|[_ ?]]%hand_out_lookup; done.
  - rewrite pending_of_cons. by destruct (decide _).
  - intros m' Hne. rewrite pending_of_cons. destruct (decide _); [by subst|].
    by apply (pending_other_perm _ _ _ _ _ Hp).
Qed.

Lemma send_preserves s n g t :
  sys_ok s → s_gens s !! n = Some g →
  t = get_current_token_for_writer g n ∨
  (owner (s_ledger s) !! (sign * t)%Z = Some n ∧ done (s_ledger s) (sign * t) ∧
   (sign * t ≤ _max_position_of_local_instance g)%Z) →
  sys_ok (mkSystem (s_ledger s) (s_gens s) (s_fetches s) ({[ (n, t) ]} ∪ s_msgs s) (s_table s)).
Proof using Type.
  intros Hs Hg Ht. pose proof (i_config _ Hs _ _ Hg) as Hc.
  destruct (g_local _ _ _ _ (i_gens _ Hs _ _ Hg)) as [Hsafe Hset]. rewrite (proj1 Hc) in Hsafe.
  assert (safe (s_ledger s) n (t * sign) ∧ settled (s_ledger s) (t * sign)) as Hok.
  { destruct Ht as [->|(Ho & Hd & Hle)]; [by rewrite (own_token n g Hc)|].
    rewrite Z.mul_comm in Ho, Hd, Hle.
    pose proof (proj2 (i_ledger _ Hs) _ _ Ho) as [_ Hr].
    split; (split; [done|]); [|by intros]. intros id Hid Hidle. apply Hsafe; [done|lia]. }
  destruct Hs. split; try done. simpl. intros w t' [[= -> ->]%elem_of_singleton|?]%elem_of_union; auto.
Qed.

Lemma table_preserves s n g :
  sys_ok s → s_gens s !! n = Some g →
  sys_ok (mkSystem (s_ledger s) (s_gens s) (s_fetches s) (s_msgs s)
    (update_stream_positions_table g (s_table s))).
Proof using Type.
  intros Hs Hg. pose proof (i_config _ Hs _ _ Hg) as Hc.
  destruct (g_local _ _ _ _ (i_gens _ Hs _ _ Hg)) as [Hsafe Hset].
  pose proof (own_token n g Hc) as Htok. rewrite (proj1 Hc) in Hsafe. rewrite <- Htok in Hsafe, Hset.
  destruct Hs as [Hl Hcf Hgs Hf Hm Ht]. split; try done. simpl. intros w p Hp.
  unfold update_stream_positions_table in Hp. rewrite (proj1 Hc) in Hp.
  destruct (_writers g); [by apply Ht|].
  destruct (s_table s !! n); [destruct (if _positive g then _ else _)|];
    try (apply lookup_insert_Some in Hp as [[<- <-]|[_ Hp]]; [done|]); by apply Ht.
Qed.

Lemma step_preserves s s' : step s s' → sys_ok s → sys_ok s'.
Proof using writers_ne start_ok.
  intros Hstep Hs. destruct Hstep.
  - apply (start_preserves (mkSystem L gens fetches msgs table)); auto.
  - by apply (stop_preserves (mkSystem L gens fetches msgs table) n g).
  - pose proof (i_config _ Hs _ _ H) as Hc. pose proof (i_gens _ Hs _ _ H) as Hgen.
    apply (sys_ok_update (mkSystem L gens fetches msgs table)); try done.
    + apply Hs.
    + apply grows_refl.
    + rewrite pending_of_cons. destruct (decide (n = n)); [|done].
      apply begin_fetch_ok; [done|apply Hs|]. unfold check_writer in H0.
      apply raise_if_ok in H0. destruct Hc as (Hn & Hw & _). rewrite Hw in H0.
      apply andb_false_iff in H0 as [H0|H0]; apply bool_decide_eq_false in H0.
      * by destruct (H0 writers_ne).
      * apply dec_stable. exact H0.
    + intros m Hne. rewrite pending_of_cons. by destruct (decide (n = m)).
  - by apply (nextval_preserves (mkSystem L gens fetches msgs table)).
  - pose proof (i_gens _ Hs _ _ H) as Hgen.
    apply (gen_ok_perm _ _ _ _ _ (pending_self_perm _ _ _ _ H0)) in Hgen.
    destruct (register_ok _ _ _ _ _ _ _ _ Hgen (i_ledger _ Hs) H1) as (g2' & Hg2 & Hgen2).
    assert (g2' = g2) as -> by congruence.
    apply (sys_ok_update (mkSystem L gens fetches msgs table)); try done.
    + apply Hs.
    + apply grows_refl.
    + eapply register_config; [done..|]. by apply (i_config _ Hs).
    + intros m' Hne. by apply (pending_other_perm _ _ _ _ _ H0).
  - pose proof (i_gens _ Hs _ _ H) as Hgen.
    apply (gen_ok_perm _ _ _ _ _ (pending_self_perm _ _ _ _ H0)) in Hgen.
    destruct (lost_ok _ _ _ _ _ Hgen (i_ledger _ Hs)) as (g2' & Hg2 & Hgen2).
    assert (g2' = g2) as -> by congruence.
    apply (sys_ok_update (mkSystem L gens fetches msgs table)); try done.
    + apply Hs.
    + apply finish_ids_grows.
    + eapply end_fetch_config; [done|]. by apply (i_config _ Hs).
    + intros m' Hne. by apply (pending_other_perm _ _ _ _ _ H0).
  - pose proof (i_gens _ Hs _ _ H) as Hgen.
    destruct (mark_ok _ _ _ _ ids Hgen (i_ledger _ Hs) H0 H1) as (g2 & Hg2 & Hgen2).
    assert (g2 = g') as -> by congruence.
    apply (sys_ok_update (mkSystem L gens fetches msgs table)); try done.
    + apply Hs.
    + apply finish_ids_grows.
    + eapply mark_config; [done|]. by apply (i_config _ Hs).
  - by apply (send_preserves (mkSystem L gens fetches msgs table) n g).
  - pose proof (i_config _ Hs _ _ H) as Hc. destruct (i_msgs _ Hs w t H1) as [Hsafe Hset].
    apply (sys_ok_update (mkSystem L gens fetches msgs table)); try done.
    + apply Hs.
    + apply grows_refl.
    + unfold advance. apply add_persisted_config. by destruct Hc as (? & ? & ?).
    + apply advance_ok; [by apply (i_gens _ Hs)|apply Hs|by rewrite (proj1 Hc)|..];
        by rewrite (sign_factor n g Hc).
  - by apply (table_preserves (mkSystem L gens fetches msgs table) n g).
Qed.

Lemma reachable_ok s : reachable s → sys_ok s.
Proof using writers_ne start_ok.
  intros Hr. assert (sys_ok initial) as H0.
  { split; simpl.
    - split; [done|]. by intros id w.
    - by intros n g.
    - by intros n g.
    - by intros n f []%not_elem_of_nil.
    - by intros w t.
    - by intros w p. }
  unfold reachable in Hr. revert H0. induction Hr as [s|s1 s2 s3 Hst _ IH]; [done|].
  intros H0. apply IH. by eapply step_preserves.
Qed.
End System.

(** C4: a reported position is never ahead of the writers, provided no process
    starts while the last ID of the sequence is being written.  Processes may
    otherwise start when every writer with an ID in flight has its row in
    [stream_positions]. In every state the system can reach under these two
    conditions on starts, whatever the order of allocations, commits, roll backs,
    stops and deliveries, every ID at or below the position a process reports as
    persisted is done, every ID of a writer at or below the token a process
    reports for that writer is done, and IDs allocated later are larger than both.
    The code does not ensure the first condition, and without it this fails
    ([restart_skips_id_in_flight]). *)
Theorem persisted_position_sound writers positive postgres s n g :
  writers ≠ [] → reachable writers positive postgres true s → s_gens s !! n = Some g →
  (∀ id w, owner (s_ledger s) !! id = Some w →
     (id ≤ sign positive * get_current_token g)%Z → done (s_ledger s) id) ∧
  (∀ id w, owner (s_ledger s) !! id = Some w →
     (id ≤ sign positive * get_current_token_for_writer g w)%Z → done (s_ledger s) id) ∧
  (sign positive * get_current_token g ≤ seq_last (s_ledger s))%Z ∧
  (∀ w, (sign positive * get_current_token_for_writer g w ≤ seq_last (s_ledger s))%Z).
Proof.
  intros Hw Hr Hg.
  pose proof (reachable_ok writers positive postgres true Hw eq_refl s Hr) as Hs.
  pose proof (i_config _ _ _ Hs _ _ Hg) as Hc.
  pose proof (i_gens _ _ _ Hs _ _ Hg) as Hgen.
  pose proof (c_upto _ _ (g_core _ _ _ _ Hgen)) as [Hur Hu].
  assert (sign positive * get_current_token g = _persisted_upto_position g)%Z as Htok.
  { unfold get_current_token, get_persisted_upto_position.
    rewrite (sign_factor writers positive n g Hc). unfold sign. destruct positive; lia. }
  assert (∀ w, safe (s_ledger s) w (sign positive * get_current_token_for_writer g w)) as Hsafe.
  { intros w. unfold get_current_token_for_writer. rewrite (sign_factor writers positive n g Hc).
    rewrite (proj1 Hc). destruct (String.eqb_spec n w) as [->|Hne].
    - replace (_ * _)%Z with (_max_position_of_local_instance g)
        by (unfold sign; destruct positive; lia).
      destruct (g_local _ _ _ _ Hgen) as [H _]. by rewrite (proj1 Hc) in H.
    - replace (_ * _)%Z with (Z.max (default (_persisted_upto_position g)
        (_current_positions g !! w)) (_persisted_upto_position g))
        by (unfold sign; destruct positive; lia).
      apply safe_max; [|by apply all_done_safe]. destruct (_ !! w) as [p|] eqn:Hp.
      + by apply (c_pos _ _ (g_core _ _ _ _ Hgen)).
      + by apply all_done_safe. }
  rewrite Htok. split_and!; [done| |lia|].
  - intros id w Hid Hle. by apply (proj2 (Hsafe w)).
  - intros w. apply Hsafe.
Qed.

(** ** The position is as far as it can be *)
Lemma sorted_insert_sorted x l : StronglySorted Z.le l → StronglySorted Z.le (sorted_insert x l).
Proof.
  induction 1 as [|y l Hs IH Hy]; simpl; [repeat constructor|].
  destruct (Z.leb_spec x y).
  - constructor; [by constructor|]. constructor; [done|]. eapply Forall_impl; [done|]. simpl. lia.
  - constructor; [done|]. rewrite sorted_insert_perm. constructor; [lia|done].
Qed.

Lemma skip_run_spec known upto :
  StronglySorted Z.le known →
  let '(known', upto') := skip_run known upto in
  StronglySorted Z.le known' ∧ (upto ≤ upto')%Z ∧
  (∀ i, (upto < i ≤ upto')%Z → i ∈ known) ∧ (upto' + 1)%Z ∉ known ∧
  (∀ k, k ∈ known' ↔ k ∈ known ∧ (upto' < k)%Z).
Proof.
  intros Hs. revert upto. induction Hs as [|k known Hs IH Hk]; intros upto; simpl.
  { split_and!; [constructor|done|lia|apply not_elem_of_nil|].
    intros k. by split; [intros []%not_elem_of_nil|intros [[]%not_elem_of_nil _]]. }
  rewrite Forall_forall in Hk. destruct (Z.leb_spec k upto).
  - specialize (IH upto). destruct (skip_run known upto) as [known' upto'].
    destruct IH as (H1 & H2 & H3 & H4 & H5). split_and!; [done|done| | |].
    + intros i Hi. right. by apply H3.
    + intros [?|?]%elem_of_cons; [lia|done].
    + intros j. rewrite H5, elem_of_cons. split; [naive_solver|].
      intros [[->|?] ?]; [lia|done].
  - destruct (Z.eqb_spec k (upto + 1)) as [->|Hne].
    + specialize (IH (upto + 1)%Z). destruct (skip_run known (upto + 1)) as [known' upto'].
      destruct IH as (H1 & H2 & H3 & H4 & H5). split_and!; [done|lia| | |].
      * intros i Hi. destruct (decide (i = upto + 1)%Z) as [->|]; [left|right]. apply H3. lia.
      * intros [?|?]%elem_of_cons; [lia|done].
      * intros j. rewrite H5, elem_of_cons. split; [naive_solver|].
        intros [[->|?] ?]; [lia|done].
    + assert (∀ j, j ∈ k :: known → (upto + 1 < j)%Z) as Hall.
      { intros j [->|Hj]%elem_of_cons; [lia|]. specialize (Hk j Hj). lia. }
      split_and!; [by constructor; [|apply Forall_forall]|done|lia| |].
      * intros Hin. specialize (Hall _ Hin). lia.
      * intros j. split; [|naive_solver]. intros Hj. split; [done|].
        specialize (Hall j Hj). lia.
Qed.

(** the position moves as far as the process can know.  Recording a persisted
    ID moves the position to what all writers have reached, never back, and then
    over exactly the run of IDs known to be persisted that follows without a
    gap; the IDs kept for later are the known ones above it. *)
Theorem add_persisted_position_exact g new_id :
  StronglySorted Z.le (_known_persisted_positions g) →
  let g' := _add_persisted_position g new_id in
  let base := Z.max (min_current g) (_persisted_upto_position g) in
  let known := new_id :: _known_persisted_positions g in
  StronglySorted Z.le (_known_persisted_positions g') ∧
  (base ≤ _persisted_upto_position g')%Z ∧
  (∀ i, (base < i ≤ _persisted_upto_position g')%Z → i ∈ known) ∧
  (_persisted_upto_position g' + 1)%Z ∉ known ∧
  (∀ k, k ∈ _known_persisted_positions g' ↔ k ∈ known ∧ (_persisted_upto_position g' < k)%Z).
Proof.
  intros Hs. simpl. unfold _add_persisted_position.
  pose proof (skip_run_spec _ (Z.max (min_current g) (_persisted_upto_position g))
    (sorted_insert_sorted new_id _ Hs)) as H.
  destruct (skip_run _ _) as [known' upto']. simpl.
  setoid_rewrite <- (sorted_insert_perm new_id (_known_persisted_positions g)). done.
Qed.

(** ** A run: two writers and a reader *)
Definition ex_writers : list string := ["a"; "b"].
Abbreviation ex_step strict := (step ex_writers true true strict).

(** [a], [b] and the reader [c] start; [b] records its position, asks for an ID
    and is given 2. *)
Definition ex_start (n : string) (table : gmap string Z) (last : Z) : id_gen :=
  init_id_gen n ex_writers true (mkStreamDb true table last []).

Definition ex_a : id_gen := ex_start "a" ∅ 1.
Definition ex_b : id_gen := ex_start "b" ∅ 1.
Definition ex_c : id_gen := ex_start "c" ∅ 1.
Definition ex_table : gmap string Z := update_stream_positions_table ex_b ∅.
Definition ex_b1 : id_gen := (begin_fetch ex_b).2.
Definition ex_b2 : id_gen := (register_ids ex_b1 [2%Z]).2.
Definition ex_b3 : id_gen := default ex_b2 (match end_fetch ex_b2 1 with Ok g => Some g | _ => None end).
Definition ex_ledger : ledger := hand_out (mkLedger 1 ∅ ∅) "b" [2%Z] 2.

Definition ex_gens : gmap string id_gen := <["b" := ex_b3]> {[ "a" := ex_a; "c" := ex_c ]}.

Definition ex_state : system := mkSystem ex_ledger ex_gens [] ∅ ex_table.

Lemma ex_settled_1 : settled (mkLedger 1 ∅ ∅) 1.
Proof. split; [simpl; lia|]. intros w Hw. discriminate Hw. Qed.

(** A start while no ID has been handed out. *)
Lemma ex_first_start strict gens fetches msgs table n :
  gens !! n = None → pending_of fetches n = [] →
  ex_step strict (mkSystem (mkLedger 1 ∅ ∅) gens fetches msgs table)
    (mkSystem (mkLedger 1 ∅ ∅) (<[n := ex_start n table 1]> gens) fetches msgs
       (prune_positions ex_writers table)).
Proof.
  intros Hn Hp. apply step_start; [done|by intros|done| |by intros|intros _; apply ex_settled_1].
  by intros ? ? []%not_elem_of_nil.
Qed.

Lemma ex_state_reachable strict : reachable ex_writers true true strict ex_state.
Proof.
  unfold reachable, initial.
  eapply rtc_l; [apply (ex_first_start _ _ _ _ _ "a"); by_vm|].
  eapply rtc_l; [apply (ex_first_start _ _ _ _ _ "b"); by_vm|].
  eapply rtc_l; [apply (ex_first_start _ _ _ _ _ "c"); by_vm|].
  eapply rtc_l; [apply (step_table _ _ _ _ _ _ _ _ _ "b" ex_b); by_vm|].
  eapply rtc_l; [apply (step_begin _ _ _ _ _ _ _ _ _ "b" ex_b); by_vm|].
  eapply rtc_l; [apply (step_nextval _ _ _ _ _ _ _ _ _ "b" 1 [] [2%Z] 2);
    [reflexivity|intros ? ->%list_elem_of_singleton; simpl; lia|simpl; lia]|].
  eapply rtc_l; [apply (step_register _ _ _ _ _ _ _ _ _ "b" ex_b1 1 [2%Z] [] (Ok tt) ex_b2 ex_b3);
    [by_vm|reflexivity|by_vm|by_vm]|].
  match goal with |- rtc _ ?s _ => assert (s = ex_state) as ->; [by_vm|] end.
  apply rtc_refl.
Qed.

Lemma persisted_position_sound_witness :
  s_gens ex_state !! "b" = Some ex_b3 ∧ (get_current_token ex_b3 ≤ 2)%Z.
Proof.
  assert (s_gens ex_state !! "b" = Some ex_b3) as Hg by by_vm.
  split; [exact Hg|].
  destruct (persisted_position_sound ex_writers true true ex_state "b" ex_b3
    ltac:(discriminate) (ex_state_reachable true) Hg) as (_ & _ & H & _).
  change (seq_last (s_ledger ex_state)) with 2%Z in H. unfold sign in H. lia.
Defined.

Lemma add_persisted_position_exact_witness :
  (_persisted_upto_position (_add_persisted_position ex_c 2) + 1)%Z ∉
  2%Z :: _known_persisted_positions ex_c.
Proof.
  assert (StronglySorted Z.le (_known_persisted_positions ex_c)) as Hs by constructor.
  destruct (add_persisted_position_exact ex_c 2 Hs) as (_ & _ & _ & H & _). exact H.
Defined.

(** ** Starting while the last ID is in flight

    In the state above [b] is writing ID 2.  Now [a] restarts: it takes the last
    value of the sequence, 2, as its own position and announces it; [c] counts
    the announced position itself as persisted. *)
Definition ex_a2 : id_gen := ex_start "a" ex_table 2.
Definition ex_c2 : id_gen := advance ex_c "a" 2.
Definition ex_bad : system :=
  mkSystem ex_ledger (<["c" := ex_c2]> (<["a" := ex_a2]> ex_gens)) [] {[ ("a", 2%Z) ]} ex_table.

(** Without [settled_start] the soundness of the positions fails: a reader
    reports ID 2 as persisted while its writer is still writing it. *)
Theorem restart_skips_id_in_flight :
  reachable ex_writers true true false ex_bad ∧
  s_gens ex_bad !! "c" = Some ex_c2 ∧ get_current_token ex_c2 = 2%Z ∧
  owner (s_ledger ex_bad) !! 2%Z = Some "b" ∧ ¬ done (s_ledger ex_bad) 2 ∧
  2%Z ∈ _unfinished_ids ex_b3.
Proof.
  split; [|split; [by_vm|split; [by_vm|split; [by_vm|split]]]].
  - unfold reachable. etrans; [apply (ex_state_reachable false)|]. unfold ex_state.
    eapply rtc_l; [apply (step_stop _ _ _ _ _ _ _ _ _ "a" ex_a); by_vm|].
    eapply rtc_l; [apply (step_start _ _ _ _ _ _ _ _ _ "a" []);
      [by_vm| |by_vm|by intros ? ? []%not_elem_of_nil| |done]|].
    + intros id Hid. apply hand_out_lookup in Hid as [[_ [=]]|[_ [=]]].
    + intros id w Hid _. apply hand_out_lookup in Hid as [[_ ->]|[_ [=]]].
      exists 1%Z. by_vm.
    + eapply rtc_l; [apply (step_send _ _ _ _ _ _ _ _ _ "a" ex_a2 2); [by_vm|left; by_vm]|].
      eapply rtc_l; [apply (step_deliver _ _ _ _ _ _ _ _ _ "c" ex_c "a" 2);
        [by_vm|discriminate|apply elem_of_union_l, elem_of_singleton; reflexivity]|].
      match goal with |- rtc _ ?s _ => assert (s = ex_bad) as ->; [by_vm|] end.
      apply rtc_refl.
  - intros H. apply (bool_decide_pack _) in H. vm_compute in H. exact H.
  - apply (bool_decide_unpack _). vm_compute. exact I.
Qed.
