(* ===== verification/WalletAuth.v ===== *)
(** Wallet login, the parts that are functions of their arguments:
    [textrp_briij/auth/xrpl_chain_adapter.py] (what a login proof is),
    [auth/wallet_recovery_envelope.py], [auth/wallet_auth_types.py],
    [config/xrpl_auth.py] and the normalisation of names in
    [auth/xrpl_auth.py].

    A client names a ledger address and is given a challenge; it then proves
    that it controls the address and is logged in as the account linked to it.
    The ledger library and the Ed25519 implementation are the class
    [XrplLib]. *)
From S2P Require Import Prelude Identifiers.
From Stdlib Require Import Ascii.

Definition MISSING_PARAM : string := "M_MISSING_PARAM".
Definition M_FORBIDDEN : string := "M_FORBIDDEN".
Definition INVALID_SIGNATURE : string := "M_INVALID_SIGNATURE".

Definition LOGIN_TYPE : string := "io.briij.login.xrpl".
Definition SESSION_TYPE : string := "xrpl_auth".
Definition SUPPORTED_NETWORKS : list string := ["xrpl"; "xahau"].
Definition chain_id : string := "xrpl".

(** ** Strings by code point *)
Definition str_join (l : list string) : string := String.concat "" l.

Definition is_ascii_str (c : string) : bool :=
  match c with String a _ => (N_of_ascii a <? 128)%N | EmptyString => true end.

Definition bytes_str (l : list N) : string :=
  foldr (λ n s, String (ascii_of_N n) s) EmptyString l.

(** [str.lower] as far as the code below can see it: the ASCII letters, and the
    two other characters with an ASCII letter in their lower case, U+212A (k)
    and U+0130 (i and a combining dot).  Any other code point is mapped to one
    code point that is not ASCII. *)
Definition lower_char (c : string) : string :=
  if is_ascii_str c then str_map ascii_lower c
  else if String.eqb c (bytes_str [226; 132; 170]%N) then "k"
  else if String.eqb c (bytes_str [196; 176]%N) then "i" +:+ bytes_str [204; 135]%N
  else c.

Definition py_lower (s : string) : string := str_join (lower_char <$> str_chars s).

(** What [str.strip()] removes. *)
Definition unicode_spaces : list string :=
  (λ n, bytes_str [n]) <$> [9; 10; 11; 12; 13; 28; 29; 30; 31; 32]%N.

Definition wide_spaces : list string :=
  bytes_str <$>
    [ [194; 133]; [194; 160]; [225; 154; 128];
      [226; 128; 128]; [226; 128; 129]; [226; 128; 130]; [226; 128; 131]; [226; 128; 132];
      [226; 128; 133]; [226; 128; 134]; [226; 128; 135]; [226; 128; 136]; [226; 128; 137];
      [226; 128; 138]; [226; 128; 168]; [226; 128; 169]; [226; 128; 175]; [226; 129; 159];
      [227; 128; 128] ]%N.

Definition is_space_char (c : string) : bool :=
  bool_decide (c ∈ unicode_spaces) || bool_decide (c ∈ wide_spaces).

Fixpoint drop_while (P : string → bool) (l : list string) : list string :=
  match l with
  | [] => []
  | c :: l' => if P c then drop_while P l' else l
  end.

Definition strip_chars (P : string → bool) (l : list string) : list string :=
  reverse (drop_while P (reverse (drop_while P l))).

Definition py_strip (s : string) : string := str_join (strip_chars is_space_char (str_chars s)).

(** [bytes.fromhex]: pairs of digits, with ASCII whitespace between pairs. *)
Definition hex_digit_val (c : ascii) : option N :=
  let n := N_of_ascii c in
  if ((48 <=? n) && (n <=? 57))%N then Some (n - 48)%N
  else if ((65 <=? n) && (n <=? 70))%N then Some (n - 55)%N
  else if ((97 <=? n) && (n <=? 102))%N then Some (n - 87)%N
  else None.

Definition is_hex_space (c : ascii) : bool :=
  let n := N_of_ascii c in (((9 <=? n) && (n <=? 13)) || (n =? 32))%N.

Fixpoint bytes_fromhex (s : string) : result string :=
  match s with
  | EmptyString => Ok EmptyString
  | String c s' =>
      if is_hex_space c then bytes_fromhex s'
      else
        match s' with
        | EmptyString => Raise ValueError
        | String d s'' =>
            match hex_digit_val c, hex_digit_val d with
            | Some h, Some l => r ← bytes_fromhex s''; Ok (String (ascii_of_N (16 * h + l)) r)
            | _, _ => Raise ValueError
            end
        end
  end.

(** [b.hex()] *)
Fixpoint bytes_hex (b : string) : string :=
  match b with
  | EmptyString => EmptyString
  | String c b' =>
      let n := N_of_ascii c in
      String (hex_digit (n / 16)) (String (hex_digit (n mod 16)) (bytes_hex b'))
  end.

(** ** [base64.b64decode(value, validate=True)]

    The strict loop of [binascii.a2b_base64] (CPython 3.11 and later), reduced
    to whether it accepts.  [quad_pos] is the position in the group of four,
    [pads] the padding seen. *)
Definition is_b64_char (c : ascii) : bool := is_alnum c || Ascii.eqb c "+" || Ascii.eqb c "/".

Fixpoint b64_loop (s : string) (quad_pos pads : nat) (padding_started : bool) : bool :=
  match s with
  | EmptyString => bool_decide (quad_pos = 0)
  | String c s' =>
      if Ascii.eqb c "=" then
        if (2 <=? quad_pos) && (4 <=? quad_pos + S pads) then negb (str_nonempty s')
        else b64_loop s' quad_pos (if 2 <=? quad_pos then S pads else pads) true
      else if is_b64_char c then
        if padding_started then false
        else b64_loop s' (if quad_pos =? 3 then 0 else S quad_pos) 0 padding_started
      else false
  end.

Definition b64decode_ok (s : string) : bool :=
  if startswith "=" s then false else b64_loop s 0 0 false.

(** ** The recovery envelope *)
Definition invalid_param (msg : string) : exn := SynapseError 400 msg INVALID_PARAM.

Definition _assert_base64_str (value : json) : result string :=
  match value with
  | JStr s =>
      _ ← raise_if (negb (str_nonempty s)) (invalid_param "Invalid wallet_e2ee_recovery.%s");
      _ ← raise_if (negb (b64decode_ok s))
            (invalid_param "wallet_e2ee_recovery.%s must be base64");
      Ok s
  | _ => Raise (invalid_param "Invalid wallet_e2ee_recovery.%s")
  end.

Definition _assert_string (value : json) : result string :=
  match value with
  | JStr s =>
      _ ← raise_if (negb (str_nonempty s)) (invalid_param "Invalid wallet_e2ee_recovery.%s");
      Ok s
  | _ => Raise (invalid_param "Invalid wallet_e2ee_recovery.%s")
  end.

(** A [bool] is an [int]. *)
Definition _assert_positive_int (value : json) : result json :=
  match value with
  | JBool _ => Ok value
  | JInt z => _ ← raise_if (z <? 0)%Z (invalid_param "Invalid wallet_e2ee_recovery.%s"); Ok value
  | _ => Raise (invalid_param "Invalid wallet_e2ee_recovery.%s")
  end.

(** [d.get(k)] *)
Definition get (d : pydict) (k : string) : json := dict_get_or d k JNull.

Definition _validate_wrap (value : json) : result json :=
  match value with
  | JDict d =>
      _ ← _assert_string (get d "alg");
      _ ← _assert_string (get d "kdf");
      _ ← _assert_base64_str (get d "salt");
      _ ← _assert_base64_str (get d "nonce");
      _ ← _assert_base64_str (get d "ciphertext");
      _ ← match get d "aad" with
          | JNull => Ok EmptyString
          | aad => _assert_base64_str aad
          end;
      match get d "params" with
      | JNull | JDict _ => Ok value
      | _ => Raise (invalid_param "wallet_e2ee_recovery.%s.params must be an object")
      end
  | _ => Raise (invalid_param "wallet_e2ee_recovery.%s must be an object")
  end.

Definition MAX_RECOVERY_ENVELOPE_LENGTH : Z := 16384.
Definition SUPPORTED_RECOVERY_ENVELOPE_VERSION : Z := 1.

Section Envelope.
(** [len(str(envelope))] *)
Context (str_len : pydict → Z).

Definition validate_wallet_recovery_envelope (envelope : json)
    (expected_chain_id expected_account_id : string) : result json :=
  match envelope with
  | JNull => Raise (invalid_param "wallet_e2ee_recovery cannot be null")
  | JDict d =>
      _ ← raise_if (MAX_RECOVERY_ENVELOPE_LENGTH <? str_len d)%Z
            (invalid_param "wallet_e2ee_recovery is too large");
      let envelope_version := get d "envelope_version" in
      _ ← raise_if (negb (scalar_eqb (JInt SUPPORTED_RECOVERY_ENVELOPE_VERSION) envelope_version))
            (invalid_param "Unsupported wallet_e2ee_recovery.envelope_version");
      chain ← _assert_string (get d "chain_id");
      account ← _assert_string (get d "account_id");
      _ ← raise_if (negb (String.eqb chain expected_chain_id) ||
                    negb (String.eqb account expected_account_id))
            (invalid_param "wallet_e2ee_recovery identity does not match authenticated wallet");
      created_at_ms ← _assert_positive_int (get d "created_at_ms");
      key_id ← _assert_string (get d "key_id");
      wallet_wrap ← _validate_wrap (get d "wallet_wrap");
      password_wrap ← _validate_wrap (get d "password_wrap");
      Ok (JDict
        [ ("envelope_version", envelope_version); ("chain_id", JStr chain);
          ("account_id", JStr account); ("created_at_ms", created_at_ms);
          ("key_id", JStr key_id); ("wallet_wrap", wallet_wrap);
          ("password_wrap", password_wrap) ])
  | _ => Raise (invalid_param "wallet_e2ee_recovery must be an object")
  end.
End Envelope.

Definition build_wallet_identity_payload (chain account : string) (public_key : string)
    (network : string) : json :=
  JDict [ ("chain_id", JStr chain); ("account_id", JStr account);
          ("public_key", JStr public_key); ("network", JStr network); ("key_type", JNull) ].

(** ** Dates: [datetime.fromtimestamp(ms / 1000, utc).isoformat()] *)
Definition civil_from_days (days : Z) : Z * Z * Z :=
  (let z := days + 719468 in
   let era := z / 146097 in
   let doe := z - era * 146097 in
   let yoe := (doe - doe / 1460 + doe / 36524 - doe / 146096) / 365 in
   let doy := doe - (365 * yoe + yoe / 4 - yoe / 100) in
   let mp := (5 * doy + 2) / 153 in
   let d := doy - (153 * mp + 2) / 5 + 1 in
   let m := if mp <? 10 then mp + 3 else mp - 9 in
   (yoe + era * 400 + (if m <=? 2 then 1 else 0), m, d))%Z.

Fixpoint str_repeat (c : ascii) (n : nat) : string :=
  match n with 0 => EmptyString | S n => String c (str_repeat c n) end.

Definition pad_zeros (width : nat) (z : Z) : string :=
  let s := pretty z in str_repeat "0" (width - String.length s) +:+ s.

(** A year past 9999 raises. *)
Definition iso_utc (ms : Z) : result string :=
  let secs := (ms / 1000)%Z in
  _ ← raise_if (253402300799 <? secs)%Z ValueError;
  let '(y, m, d) := civil_from_days (secs / 86400) in
  let r := (secs mod 86400)%Z in
  Ok (pad_zeros 4 y +:+ "-" +:+ pad_zeros 2 m +:+ "-" +:+ pad_zeros 2 d +:+ "T" +:+
      pad_zeros 2 (r / 3600) +:+ ":" +:+ pad_zeros 2 (r / 60 mod 60) +:+ ":" +:+
      pad_zeros 2 (r mod 60) +:+ "Z").

(** ** Names *)

(** A character the pattern [[^a-z0-9._=-]] does not match. *)
Definition localpart_char (c : ascii) : bool :=
  is_ascii_lower c || is_digit c || Ascii.eqb c "." || Ascii.eqb c "_" ||
  Ascii.eqb c "=" || Ascii.eqb c "-".

(** [re.sub(r"[^a-z0-9._=-]", "_", c)] on one code point. *)
Definition sub_char (c : string) : string :=
  if is_ascii_str c && str_forall localpart_char c then c else "_".

Definition _sanitize_localpart (value : string) : result string :=
  let sanitized := str_strip (Ascii.eqb "_") (str_join (sub_char <$> str_chars (py_lower value))) in
  _ ← raise_if (negb (str_nonempty sanitized))
        (SynapseError 500 "Unable to derive XRPL-backed Matrix user ID" UNKNOWN);
  Ok sanitized.

Definition _normalize_preferred_localpart (value : json) : result (option string) :=
  match value with
  | JNull => Ok None
  | JStr s =>
      let trimmed := py_strip s in
      _ ← raise_if (negb (str_nonempty trimmed)) (invalid_param "Invalid preferred_localpart");
      Some <$> _sanitize_localpart trimmed
  | _ => Raise (invalid_param "Invalid preferred_localpart")
  end.

(** [x or y] on optional strings. *)
Definition str_or (x y : option string) : option string :=
  match x with Some (String _ _) => x | _ => y end.

Definition _resolve_requested_localpart (preferred_localpart username : json)
    : result (option string) :=
  normalized_preferred ← _normalize_preferred_localpart preferred_localpart;
  normalized_username ← _normalize_preferred_localpart username;
  _ ← raise_if
        (match normalized_preferred, normalized_username with
         | Some p, Some u => negb (String.eqb p u)
         | _, _ => false
         end)
        (invalid_param "preferred_localpart and username must match when both are provided");
  Ok (str_or normalized_preferred normalized_username).

Definition _normalize_display_name (value : json) : result (option string) :=
  match value with
  | JNull => Ok None
  | JStr s => let trimmed := py_strip s in Ok (if str_nonempty trimmed then Some trimmed else None)
  | _ => Raise (invalid_param "Invalid display_name")
  end.

(** ** Configuration *)
Record XrplAuthConfig := mkXrplAuthConfig {
  enabled : bool;
  allow_account_creation : bool;
  xrpl_node_url : string;
  xahau_node_url : string;
  challenge_ttl_seconds : Z;
  challenge_ttl_ms : Z
}.

Definition ConfigError (msg : string) : exn := PyException msg.

Definition config_bool (j : json) (msg : string) : result bool :=
  match j with JBool b => Ok b | _ => Raise (ConfigError msg) end.
Definition config_str (j : json) (msg : string) : result string :=
  match j with JStr s => Ok s | _ => Raise (ConfigError msg) end.
Definition config_int (j : json) (msg : string) : result Z :=
  match j with
  | JInt z => Ok z
  | JBool b => Ok (if b then 1 else 0)%Z
  | _ => Raise (ConfigError msg)
  end.

Definition read_config (config : pydict) : result XrplAuthConfig :=
  let section := get config "xrpl_auth" in
  d ← (if negb (truthy section) then Ok []
       else match section with
            | JDict d => Ok d
            | _ => Raise (ConfigError "xrpl_auth must be a mapping")
            end);
  en ← config_bool (dict_get_or d "enabled" (JBool false)) "xrpl_auth.enabled must be a boolean";
  al ← config_bool (dict_get_or d "allow_account_creation" (JBool true))
         "xrpl_auth.allow_account_creation must be a boolean";
  xu ← config_str (dict_get_or d "xrpl_node_url" (JStr "https://s.altnet.rippletest.net:51234"))
         "xrpl_auth.xrpl_node_url must be a string";
  hu ← config_str (dict_get_or d "xahau_node_url" (JStr "https://xahau-testnet.xrpl-labs.com"))
         "xrpl_auth.xahau_node_url must be a string";
  ttl ← config_int (dict_get_or d "challenge_ttl_seconds" (JInt 300))
          "xrpl_auth.challenge_ttl_seconds must be an integer";
  _ ← raise_if (ttl <=? 0)%Z
        (ConfigError "xrpl_auth.challenge_ttl_seconds must be greater than zero");
  Ok (mkXrplAuthConfig en al xu hu ttl (ttl * 1000)).

(** ** The chain adapter *)

(** A field of a decoded transaction: a JSON value, or [bytes]. *)
Inductive tx_value :=
  | TxJson (j : json)
  | TxBytes (b : string).
Abbreviation tx := (list (string * tx_value)).

Definition tx_truthy (v : tx_value) : bool :=
  match v with TxJson j => truthy j | TxBytes b => str_nonempty b end.

(** [v.hex() if isinstance(v, bytes) else v] *)
Definition tx_hex (v : tx_value) : json :=
  match v with TxJson j => j | TxBytes b => JStr (bytes_hex b) end.

(** The functions of [xrpl-py] and [cryptography] the adapter calls, and
    [str.upper], which depends on the Unicode tables.  [ed25519_verify] is
    [from_public_bytes] followed by [verify]; it raises [ValueError] or
    [SignatureVerifyException] ([InvalidSignature]). *)
Class XrplLib := {
  is_valid_classic_address : string → bool;
  derive_classic_address : string → result string;
  decode_tx_blob : string → result (option tx);
  encode_for_signing : tx → result string;
  is_valid_message : string → string → string → result bool;
  ed25519_verify : string → string → string → result unit;
  str_upper : string → string
}.

Section Adapter.
Context `{XrplLib}.

Definition is_initial_request (login_submission : pydict) : bool :=
  negb (dict_mem login_submission "session") && negb (dict_mem login_submission "signature").

Definition validate_account_id (account_id : json) : result string :=
  match account_id with
  | JStr (String _ _ as a) =>
      _ ← raise_if (negb (is_valid_classic_address a))
            (invalid_param "Invalid XRPL classic address");
      Ok a
  | _ => Raise (SynapseError 400 "Missing address" MISSING_PARAM)
  end.

Definition validate_network (network : json) : result string :=
  match network with
  | JStr (String _ _ as n) =>
      let normalized_network := py_lower n in
      _ ← raise_if (negb (bool_decide (normalized_network ∈ SUPPORTED_NETWORKS)))
            (invalid_param "Unsupported XRPL network");
      Ok normalized_network
  | _ => Raise (SynapseError 400 "Missing network" MISSING_PARAM)
  end.

Definition build_challenge (account_id : string) (issued_at_ms : Z) (nonce : string)
    : result string :=
  issued_at ← iso_utc issued_at_ms;
  Ok ("textrp-briij|" +:+ issued_at +:+ "|nonce:" +:+ nonce +:+ "|" +:+ account_id).

(** The body of the second [try]: whether the transaction carries a valid
    signature.  A key or a signature that is not a string raises. *)
Definition signin_signature_ok (decoded : tx) (signing_pub_key txn_sig : json) : result bool :=
  to_sign_hex ← encode_for_signing decoded;
  to_sign_bytes ← bytes_fromhex to_sign_hex;
  txn_sig_bytes ← match txn_sig with JStr s => bytes_fromhex s | _ => Raise TypeError end;
  match signing_pub_key with
  | JStr k => is_valid_message to_sign_bytes txn_sig_bytes (str_upper k)
  | _ => Raise AttributeError
  end.

Definition _try_verify_signin_tx (signature_hex account_id : string) : option string :=
  match bytes_fromhex signature_hex with
  | Raise _ => None
  | Ok sig_bytes =>
      if (String.length sig_bytes <? 32)%nat then None
      else
        match decode_tx_blob signature_hex with
        | Raise _ | Ok None => None
        | Ok (Some decoded) =>
            match dict_get decoded "Account" with
            | Some (TxJson (JStr tx_account)) =>
                if negb (String.eqb tx_account account_id) then None
                else
                  match dict_get decoded "SigningPubKey", dict_get decoded "TxnSignature" with
                  | Some k, Some g =>
                      if negb (tx_truthy k) || negb (tx_truthy g) then None
                      else
                        match signin_signature_ok decoded (tx_hex k) (tx_hex g), tx_hex k with
                        | Ok true, JStr signing_pub_key => Some signing_pub_key
                        | _, _ => None
                        end
                  | _, _ => None
                  end
            | _ => None
            end
        end
  end.

Definition is_upper_hex (c : ascii) : bool :=
  let n := N_of_ascii c in (((48 <=? n) && (n <=? 57)) || ((65 <=? n) && (n <=? 70)))%N.

(** The 32-byte key in hexadecimal, when the key is an Ed25519 one. *)
Definition ed25519_key_hex (normalized_public_key : string) : option string :=
  if bool_decide (py_len normalized_public_key = 64) &&
     str_forall is_upper_hex normalized_public_key then Some normalized_public_key
  else if startswith "ED" normalized_public_key &&
          bool_decide (py_len normalized_public_key = 66) &&
          str_forall is_upper_hex (str_tail (str_tail normalized_public_key))
       then Some (str_tail (str_tail normalized_public_key))
  else None.

Definition signature_failed : exn :=
  LoginError 403 "XRPL signature verification failed" INVALID_SIGNATURE.

Definition _verify_signature (account_id challenge signature public_key : string) : result unit :=
  signature_bytes ← try_except (bytes_fromhex signature)
    (λ _, Raise (LoginError 403 "XRPL signature must be hexadecimal" INVALID_SIGNATURE));
  let normalized_public_key := str_upper public_key in
  derived_address ← try_except (derive_classic_address normalized_public_key)
    (λ _, Raise (invalid_param "Invalid XRPL public key"));
  _ ← raise_if (negb (String.eqb derived_address account_id))
        (LoginError 403 "XRPL public key does not match the requested address" M_FORBIDDEN);
  let message_bytes := challenge in
  match ed25519_key_hex normalized_public_key with
  | Some key_hex =>
      try_except
        (pub_bytes ← bytes_fromhex key_hex;
         _ ← raise_if (negb (bool_decide (String.length pub_bytes = 32))) signature_failed;
         ed25519_verify pub_bytes signature_bytes message_bytes)
        (λ e, match e with
              | ValueError | SignatureVerifyException => Raise signature_failed
              | _ => Raise e
              end)
  | None =>
      ok ← is_valid_message message_bytes signature_bytes normalized_public_key;
      raise_if (negb ok) signature_failed
  end.

Definition verify_login_proof (account_id challenge signature : string)
    (public_key : option string) : result string :=
  match _try_verify_signin_tx signature account_id with
  | Some signin_public_key => Ok signin_public_key
  | None =>
      match public_key with
      | Some (String _ _ as k) =>
          _ ← _verify_signature account_id challenge signature k;
          Ok k
      | _ => Raise (SynapseError 400 "Missing public_key for XRPL login" MISSING_PARAM)
      end
  end.
End Adapter.
