(* ===== verification/WalletAuthProps.v ===== *)
(** Wallet login: the names and the envelopes it accepts.

    A localpart asked for by a client is normalised once and for all: what comes
    out is a valid Matrix localpart, and normalising it again changes nothing.
    The recovery envelope is accepted exactly when it is well formed and is the
    wallet's own, and every refusal is a client error. *)
From S2P Require Import Prelude Identifiers WalletAuth.
From Stdlib Require Import Ascii.

(** ** Strings of ASCII characters *)
Fixpoint singles (s : string) : list string :=
  match s with EmptyString => [] | String c s' => String c EmptyString :: singles s' end.

Definition is_ascii_char (c : ascii) : bool := (N_of_ascii c <? 128)%N.

Lemma ascii_not_continuation c : is_ascii_char c = true → is_continuation c = false.
Proof. unfold is_ascii_char, is_continuation. rewrite N.ltb_lt, andb_false_iff, N.leb_gt. auto. Qed.

Lemma str_chars_ascii s : str_forall is_ascii_char s = true → str_chars s = singles s.
Proof.
  induction s as [|c s IH]; simpl; [done|]. intros [_ Hs]%andb_true_iff. rewrite (IH Hs).
  destruct s as [|d s]; simpl in *; [done|]. apply andb_true_iff in Hs as [Hd _].
  by rewrite (ascii_not_continuation _ Hd).
Qed.

Lemma str_join_cons x l : str_join (x :: l) = x +:+ str_join l.
Proof. unfold str_join. destruct l; simpl; [by rewrite str_app_nil_r|done]. Qed.

Lemma str_join_singles s : str_join (singles s) = s.
Proof. induction s as [|c s IH]; [done|]. simpl. by rewrite str_join_cons, IH. Qed.

Lemma map_singles (f : string → string) (P : ascii → bool) s :
  (∀ c, P c = true → f (String c EmptyString) = String c EmptyString) →
  str_forall P s = true → str_join (f <$> singles s) = s.
Proof.
  intros Hf. induction s as [|c s IH]; simpl; [done|]. intros [Hc Hs]%andb_true_iff.
  rewrite str_join_cons. rewrite (Hf _ Hc). simpl. f_equal. by apply IH.
Qed.

(** ** Stripping *)
Lemma str_lstrip_forall P Q s : str_forall Q s = true → str_forall Q (str_lstrip P s) = true.
Proof.
  induction s as [|c s IH]; simpl; [done|]. intros HQ. destruct (P c); [|done].
  apply andb_true_iff in HQ as [_ ?]. auto.
Qed.

Lemma str_rstrip_forall P Q s : str_forall Q s = true → str_forall Q (str_rstrip P s) = true.
Proof.
  induction s as [|c s IH]; simpl; [done|]. intros [Hc Hs]%andb_true_iff. specialize (IH Hs).
  destruct (str_rstrip P s); [destruct (P c)|]; simpl in *; rewrite ?Hc; auto.
Qed.

Lemma str_rstrip_end P s c : last_char (str_rstrip P s) = Some c → P c = false.
Proof.
  induction s as [|d s IH]; simpl; [done|].
  destruct (str_rstrip P s) as [|e r]; [|done].
  destruct (P d) eqn:E; simpl; [done|]. by intros [= <-].
Qed.

Lemma str_rstrip_head P s c t : str_rstrip P s = String c t → ∃ t', s = String c t'.
Proof.
  destruct s as [|d s]; simpl; [done|].
  destruct (str_rstrip P s); [destruct (P d)|]; naive_solver.
Qed.

Lemma str_lstrip_head P s c t : str_lstrip P s = String c t → P c = false.
Proof. induction s as [|d s IH]; simpl; [done|]. destruct (P d) eqn:E; naive_solver. Qed.

Lemma str_rstrip_id P s : (∀ c, last_char s = Some c → P c = false) → str_rstrip P s = s.
Proof.
  induction s as [|d s IH]; simpl; [done|]. intros HP. destruct s as [|e s].
  - simpl. by rewrite (HP d eq_refl).
  - rewrite IH; done.
Qed.

Lemma drop_while_none P l : Forall (λ c, P c = false) l → drop_while P l = l.
Proof. destruct 1 as [|c l Hc]; simpl; [done|]. by rewrite Hc. Qed.

Lemma strip_chars_none P l : Forall (λ c, P c = false) l → strip_chars P l = l.
Proof.
  intros HP. unfold strip_chars. rewrite (drop_while_none P l) by done.
  rewrite drop_while_none by by apply Forall_reverse. apply reverse_involutive.
Qed.

(** ** Localparts *)
Record localpart_ok (s : string) : Prop := {
  localpart_nonempty : s ≠ EmptyString;
  localpart_chars : str_forall localpart_char s = true;
  localpart_first : startswith "_" s = false;
  localpart_last : last_char s ≠ Some "_"%char
}.

Lemma localpart_char_facts c :
  localpart_char c = true →
  is_ascii_char c = true ∧ MXID_LOCALPART_ALLOWED_CHARACTERS c = true ∧ c ≠ ":"%char ∧
  is_space_char (String c EmptyString) = false ∧
  lower_char (String c EmptyString) = String c EmptyString ∧
  sub_char (String c EmptyString) = String c EmptyString.
Proof.
  revert c. intros [[] [] [] [] [] [] [] []] Hc; try discriminate Hc;
    split_and!; first [discriminate | by vm_compute].
Qed.

Lemma sub_char_ok c : str_forall localpart_char (sub_char c) = true.
Proof. unfold sub_char. destruct (is_ascii_str c && _) eqn:E; [|done]. by apply andb_true_iff in E as [_ ?]. Qed.

Lemma sub_chars_ok l : str_forall localpart_char (str_join (sub_char <$> l)) = true.
Proof.
  induction l as [|c l IH]; [done|]. simpl. rewrite str_join_cons, str_forall_app, sub_char_ok.
  apply IH.
Qed.

Lemma sanitize_ok value s : _sanitize_localpart value = Ok s → localpart_ok s.
Proof.
  unfold _sanitize_localpart. intros Heq. apply bind_ok in Heq as (u & Hne & [= <-]).
  apply raise_if_ok, negb_false_iff in Hne. revert Hne.
  unfold str_strip. set (x := str_join _). intros Hne. split.
  - by intros Hs; rewrite Hs in Hne.
  - apply str_rstrip_forall, str_lstrip_forall, sub_chars_ok.
  - destruct (str_rstrip _ _) as [|c t] eqn:E; [done|].
    apply str_rstrip_head in E as [t' E]. apply str_lstrip_head in E. cbn [startswith]. by rewrite E.
  - intros E%str_rstrip_end. done.
Qed.

Lemma sanitize_id s : localpart_ok s → _sanitize_localpart s = Ok s.
Proof.
  intros [Hne Hch Hf Hl]. unfold _sanitize_localpart.
  assert (Ha : str_forall is_ascii_char s = true)
    by (revert Hch; apply str_forall_impl; intros c Hc; by apply localpart_char_facts).
  assert (Hlow : py_lower s = s).
  { unfold py_lower. rewrite str_chars_ascii by done. apply (map_singles _ localpart_char); [|done].
    intros c Hc. by apply localpart_char_facts. }
  rewrite Hlow, str_chars_ascii, (map_singles sub_char localpart_char) by
    (done || (intros c Hc; by apply localpart_char_facts)).
  unfold str_strip. assert (Hlf : str_lstrip (Ascii.eqb "_") s = s).
  { destruct s as [|c s]; [done|]. cbn [str_lstrip]. cbn [startswith] in Hf.
    destruct (Ascii.eqb "_" c); [by rewrite andb_true_l in Hf; destruct s|done]. }
  rewrite Hlf, str_rstrip_id.
  - by destruct s.
  - intros c Hc. destruct (Ascii.eqb_spec "_"%char c) as [<-|]; [by destruct Hl|done].
Qed.

Lemma normalize_id s : localpart_ok s → _normalize_preferred_localpart (JStr s) = Ok (Some s).
Proof.
  intros Hs. pose proof Hs as [Hne Hch _ _]. unfold _normalize_preferred_localpart.
  assert (Ha : str_forall is_ascii_char s = true)
    by (revert Hch; apply str_forall_impl; intros c Hc; by apply localpart_char_facts).
  assert (Hst : py_strip s = s).
  { unfold py_strip. rewrite str_chars_ascii, strip_chars_none by
      (done || (clear -Hch; induction s as [|c s IH]; simpl in *; constructor;
                apply andb_true_iff in Hch as [Hc Hs]; [by apply localpart_char_facts|auto])).
    apply str_join_singles. }
  rewrite Hst, (sanitize_id _ Hs). by destruct s.
Qed.

Lemma normalize_ok value s :
  _normalize_preferred_localpart value = Ok (Some s) → localpart_ok s.
Proof.
  destruct value as [| | | |v| |]; simpl; try done. intros Heq.
  apply bind_ok in Heq as (u & _ & Heq).
  destruct (_sanitize_localpart (py_strip v)) as [s'|] eqn:E; [|done].
  injection Heq as <-. by apply sanitize_ok in E.
Qed.

Lemma resolve_ok preferred username s :
  _resolve_requested_localpart preferred username = Ok (Some s) → localpart_ok s.
Proof.
  unfold _resolve_requested_localpart. intros Heq.
  apply bind_ok in Heq as (p & Hp & Heq). apply bind_ok in Heq as (u & Hu & Heq).
  apply bind_ok in Heq as (x & _ & [= Heq]).
  destruct p as [[|c p]|]; simpl in Heq; subst; eauto using normalize_ok.
  injection Heq as <-. eauto using normalize_ok.
Qed.

(** The localpart a client asks for, once accepted, is not empty, has only
    the characters a Matrix localpart may have, neither starts nor ends with an
    underscore, is the localpart of the user ID made with it, and is what
    asking for it again gives. *)
Theorem requested_localpart_valid (preferred_localpart username : json) (s hostname : string) :
  _resolve_requested_localpart preferred_localpart username = Ok (Some s) →
  s ≠ EmptyString ∧ contains_invalid_mxid_characters s = false ∧
  startswith "_" s = false ∧ last_char s ≠ Some "_"%char ∧
  from_string SIGIL.UserID (to_string SIGIL.UserID (mkDSS s hostname)) = Ok (mkDSS s hostname) ∧
  _resolve_requested_localpart (JStr s) JNull = Ok (Some s).
Proof.
  intros Hs%resolve_ok. pose proof Hs as [Hne Hch Hf Hl]. split_and!; try done.
  - unfold contains_invalid_mxid_characters. apply negb_false_iff.
    revert Hch. apply str_forall_impl. intros c Hc. by apply localpart_char_facts.
  - apply from_string_iff. split; [done|]. simpl. clear -Hch.
    induction s as [|c s IH]; [done|]. cbn [str_forall str_mem] in *.
    apply andb_true_iff in Hch as [Hc Hs]. rewrite (IH Hs), orb_false_r.
    destruct (Ascii.eqb_spec ":"%char c) as [<-|]; [done|done].
  - unfold _resolve_requested_localpart. rewrite (normalize_id _ Hs). by destruct s.
Qed.

Lemma requested_localpart_valid_witness :
  _resolve_requested_localpart (JStr " Alice Smith_ ") JNull = Ok (Some "alice_smith") ∧
  contains_invalid_mxid_characters "alice_smith" = false.
Proof.
  assert (Hr : _resolve_requested_localpart (JStr " Alice Smith_ ") JNull = Ok (Some "alice_smith"))
    by by_vm.
  split; [exact Hr|]. apply (requested_localpart_valid _ _ _ "example.org" Hr).
Defined.

(** ** Envelopes *)
Definition nonempty_str (j : json) : Prop := ∃ s, j = JStr s ∧ s ≠ EmptyString.
Definition base64_str (j : json) : Prop := ∃ s, j = JStr s ∧ s ≠ EmptyString ∧ b64decode_ok s = true.

Definition wrap_ok (j : json) : Prop :=
  ∃ d, j = JDict d ∧ nonempty_str (get d "alg") ∧ nonempty_str (get d "kdf") ∧
    base64_str (get d "salt") ∧ base64_str (get d "nonce") ∧ base64_str (get d "ciphertext") ∧
    (get d "aad" = JNull ∨ base64_str (get d "aad")) ∧
    (get d "params" = JNull ∨ ∃ p, get d "params" = JDict p).

(** A non-negative integer; [True] and [False] are integers. *)
Definition nonneg_int (j : json) : Prop :=
  match j with JBool _ => True | JInt z => (0 <= z)%Z | _ => False end.

Record envelope_ok (str_len : pydict → Z) (d : pydict) (chain account : string) : Prop := {
  envelope_small : (str_len d <= MAX_RECOVERY_ENVELOPE_LENGTH)%Z;
  envelope_v1 : scalar_eqb (JInt SUPPORTED_RECOVERY_ENVELOPE_VERSION) (get d "envelope_version") = true;
  envelope_chain : get d "chain_id" = JStr chain ∧ chain ≠ EmptyString;
  envelope_account : get d "account_id" = JStr account ∧ account ≠ EmptyString;
  envelope_created : nonneg_int (get d "created_at_ms");
  envelope_key : nonempty_str (get d "key_id");
  envelope_wallet_wrap : wrap_ok (get d "wallet_wrap");
  envelope_password_wrap : wrap_ok (get d "password_wrap")
}.

(** A check that accepts exactly when [P] holds, returning [x], and otherwise
    refuses with a 400 [M_INVALID_PARAM]. *)
Definition checks {A} (r : result A) (P : Prop) (x : A → Prop) : Prop :=
  match r with
  | Ok y => P ∧ x y
  | Raise e => ¬ P ∧ ∃ msg, e = invalid_param msg
  end.

Lemma checks_bind {A B} (r : result A) (f : A → result B) P Q x y :
  checks r P x → (∀ z, P → x z → checks (f z) Q y) → checks (z ← r; f z) (P ∧ Q) y.
Proof.
  destruct r as [z|e]; simpl.
  - intros [HP Hx] Hf. specialize (Hf z HP Hx). destruct (f z); simpl in *; naive_solver.
  - intros [HP He] _. naive_solver.
Qed.

Lemma checks_iff {A} (r : result A) P Q x : (P ↔ Q) → checks r P x → checks r Q x.
Proof. destruct r; simpl; naive_solver. Qed.

Lemma assert_string_checks j :
  checks (_assert_string j) (nonempty_str j) (λ s, j = JStr s).
Proof.
  unfold nonempty_str. destruct j as [| | | |[|c s]| |]; simpl; split; (naive_solver || by eexists).
Qed.

Lemma assert_base64_checks j :
  checks (_assert_base64_str j) (base64_str j) (λ s, j = JStr s).
Proof.
  unfold base64_str. destruct j as [| | | |[|c s]| |]; try (split; [naive_solver|by eexists]).
  unfold _assert_base64_str. destruct (b64decode_ok (String c s)) eqn:E; simpl.
  - split; [|done]. eexists. by split_and!.
  - split; [|by eexists]. intros (s' & [= <-] & _ & ?). congruence.
Qed.

Lemma assert_positive_int_checks j :
  checks (_assert_positive_int j) (nonneg_int j) (λ y, y = j).
Proof.
  destruct j as [|b|z|m e|s|l|d]; simpl; try (split; [by intros []|by eexists]); [done|].
  destruct (Z.ltb_spec z 0); simpl; (split; [lia|]); [by eexists|done].
Qed.

Lemma optional_base64_checks j :
  checks (match j with JNull => Ok EmptyString | aad => _assert_base64_str aad end)
    (j = JNull ∨ base64_str j) (λ _, True).
Proof.
  pose proof (assert_base64_checks j) as Ha.
  assert (Hj : j = JNull ∨ j ≠ JNull) by (destruct j; auto).
  destruct Hj as [->|Hj]; [by split; [left|]|].
  replace (match j with JNull => Ok EmptyString | aad => _assert_base64_str aad end)
    with (_assert_base64_str j) by by destruct j.
  destruct (_assert_base64_str j); simpl in *; naive_solver.
Qed.

Lemma validate_wrap_checks j : checks (_validate_wrap j) (wrap_ok j) (λ y, y = j).
Proof.
  destruct j as [| | | | | |d]; try (split; [by intros (? & ? & _)|by eexists]).
  unfold _validate_wrap. eapply checks_iff; cycle 1.
  - eapply checks_bind; [apply assert_string_checks|]. intros _ _ _.
    eapply checks_bind; [apply assert_string_checks|]. intros _ _ _.
    eapply checks_bind; [apply assert_base64_checks|]. intros _ _ _.
    eapply checks_bind; [apply assert_base64_checks|]. intros _ _ _.
    eapply checks_bind; [apply assert_base64_checks|]. intros _ _ _.
    eapply (checks_bind _ _ (get d "aad" = JNull ∨ base64_str (get d "aad")) _ (λ _, True)).
    { pose proof (optional_base64_checks (get d "aad")) as Ha. by destruct (get d "aad"). }
    intros _ _ _.
    assert (Hp : checks
      match get d "params" with
      | JNull | JDict _ => Ok (JDict d)
      | _ => Raise (invalid_param "wallet_e2ee_recovery.%s.params must be an object")
      end (get d "params" = JNull ∨ ∃ p, get d "params" = JDict p) (λ y, y = JDict d)).
    { destruct (get d "params"); simpl; split; try done; eauto; naive_solver. }
    exact Hp.
  - unfold wrap_ok. naive_solver.
Qed.

Lemma raise_if_checks b msg (P : Prop) :
  (b = false ↔ P) → checks (raise_if b (invalid_param msg)) P (λ _, True).
Proof. destruct b; simpl; intros HP; split; eauto; naive_solver. Qed.

(** C38: The recovery envelope.  [validate_wallet_recovery_envelope] accepts
    exactly the objects that are small enough, of version 1, for the wallet that
    was authenticated, with both wraps complete and their binary fields in
    base64, and keeps of them the seven known fields; it refuses everything else
    with a 400 [M_INVALID_PARAM], and fails in no other way. *)
Theorem recovery_envelope_exact (str_len : pydict → Z) (envelope : json) (chain account : string) :
  match validate_wallet_recovery_envelope str_len envelope chain account with
  | Ok out => ∃ d, envelope = JDict d ∧ envelope_ok str_len d chain account ∧
      out = JDict ((λ k, (k, get d k)) <$>
        ["envelope_version"; "chain_id"; "account_id"; "created_at_ms"; "key_id";
         "wallet_wrap"; "password_wrap"])
  | Raise e => (¬ ∃ d, envelope = JDict d ∧ envelope_ok str_len d chain account) ∧
      ∃ msg, e = SynapseError 400 msg INVALID_PARAM
  end.
Proof.
  assert (Hc : checks (validate_wallet_recovery_envelope str_len envelope chain account)
    (∃ d, envelope = JDict d ∧ envelope_ok str_len d chain account)
    (λ out, ∃ d, envelope = JDict d ∧ out = JDict ((λ k, (k, get d k)) <$>
        ["envelope_version"; "chain_id"; "account_id"; "created_at_ms"; "key_id";
         "wallet_wrap"; "password_wrap"]))).
  { destruct envelope as [| | | | | |d]; try (split; [naive_solver|by eexists]).
    unfold validate_wallet_recovery_envelope. eapply checks_iff; cycle 1.
    - eapply checks_bind; [apply raise_if_checks, Z.ltb_ge|]. intros _ _ _.
      eapply checks_bind; [apply raise_if_checks, negb_false_iff|]. intros _ _ _.
      eapply checks_bind; [apply assert_string_checks|]. intros c Hc0 Hc.
      eapply checks_bind; [apply assert_string_checks|]. intros a Ha0 Ha.
      eapply checks_bind; [apply (raise_if_checks _ _
        (get d "chain_id" = JStr chain ∧ get d "account_id" = JStr account))|].
      { rewrite Hc, Ha, orb_false_iff, !negb_false_iff, !String.eqb_eq. naive_solver. }
      intros _ _ _.
      eapply checks_bind; [apply assert_positive_int_checks|]. intros t _ ->.
      eapply checks_bind; [apply assert_string_checks|]. intros k _ Hk.
      eapply checks_bind; [apply validate_wrap_checks|]. intros w _ ->.
      eapply (checks_bind _ _ _ True); [apply validate_wrap_checks|]. intros w' _ ->.
      split; [done|]. exists d. split; [done|]. simpl. by rewrite Hc, Ha, Hk.
    - split.
      + intros (? & ? & Hc0 & Ha0 & [Hc Ha] & ? & ? & ? & ? & _). exists d. split; [done|].
        rewrite Hc in Hc0. rewrite Ha in Ha0.
        destruct Hc0 as (? & [= <-] & ?), Ha0 as (? & [= <-] & ?). by split.
      + intros (d' & [= <-] & [? ? [Hc ?] [Ha ?] ? ? ? ?]). unfold nonempty_str.
        split_and!; eauto. }
  destruct (validate_wallet_recovery_envelope _ _ _ _); simpl in *; naive_solver.
Qed.
