(* ===== verification/WalletLogin.v ===== *)
(** Wallet login, the stateful part: [textrp_briij/auth/xrpl_auth.py], the
    session table ([storage/databases/main/session.py]), the wallet links
    ([storage/databases/main/registration.py]) and [_do_xrpl_login] of
    [rest/client/login.py].

    A coroutine is a [prog]: a tree of the calls it awaits, one database
    transaction, clock reading or call of another handler each.  Two requests
    interleave between calls and never inside one.  [handle] gives the calls
    their meaning on a [server]; what the other handlers of the homeserver do is
    the class [Services]. *)
From S2P Require Import Prelude Identifiers WalletAuth.
From Stdlib Require Import Ascii.

(** ** Coroutines *)

(** A row of [briij_wallet_links], under its key (address, network). *)
Record wallet_link := mkLink {
  wl_user_id : string;
  wl_public_key : option string;
  wl_linked_at : Z
}.

#[export] Instance wallet_link_eq_dec : EqDecision wallet_link.
Proof. solve_decision. Defined.

Inductive call :=
  | TimeMsec
  | RandomString (length : nat)
  | InsertSession (session_type session_id : string) (value : json) (expiry_time_ms : Z)
  | SelectSession (session_type session_id : string) (ts : Z)
  | ConsumeSession (session_type session_id : string) (ts : Z)
  | DeleteExpired (ts : Z)
  | SelectLink (wallet_address network : string)
  | SelectLinks (user_id : string)
  | UpsertLink (wallet_address network : string) (link : wallet_link)
  | Ratelimit (key : string * string)
  | CheckUsername (localpart : string)
  | CheckUserExists (user_id : string)
  | RegisterUser (localpart : string) (default_display_name : option string)
  | AddAccountData (user_id account_data_type : string) (content : json)
  | CompleteLogin (user_id : string) (login_submission : pydict).

(** What a call answers.  [InsertSession]: whether the row went in, [false]
    being an [IntegrityError]. *)
Definition answer (c : call) : Type :=
  match c with
  | TimeMsec => Z
  | RandomString _ => string
  | InsertSession _ _ _ _ => bool
  | SelectSession _ _ _ | ConsumeSession _ _ _ => option json
  | DeleteExpired _ | UpsertLink _ _ _ => unit
  | SelectLink _ _ => option wallet_link
  | SelectLinks _ => list (string * string * wallet_link)
  | Ratelimit _ | CheckUsername _ | AddAccountData _ _ _ => result unit
  | CheckUserExists _ => result (option string)
  | RegisterUser _ _ => result string
  | CompleteLogin _ _ => result json
  end.

Inductive prog (A : Type) :=
  | Done (r : result A)
  | Call (c : call) (k : answer c → prog A).
Arguments Done {_} _.
Arguments Call {_} _ _.

Fixpoint prog_bind {A B} (p : prog A) (f : A → prog B) : prog B :=
  match p with
  | Done (Ok x) => f x
  | Done (Raise e) => Done (Raise e)
  | Call c k => Call c (λ b, prog_bind (k b) f)
  end.

#[export] Instance prog_mret : MRet prog := λ A x, Done (Ok x).

Declare Scope prog_scope.
Delimit Scope prog_scope with prog.
Notation "'let!' x := p 'in' q" := (prog_bind p (λ x, q))
  (at level 200, x pattern, p at level 100, q at level 200) : prog_scope.
Notation "'do!' p 'in' q" := (prog_bind p (λ _, q))
  (at level 200, p at level 100, q at level 200) : prog_scope.
Open Scope prog_scope.

(** Code that does not await, and [await]. *)
Definition lift {A} (r : result A) : prog A := Done r.
Definition await (c : call) : prog (answer c) := Call c (λ b, Done (Ok b)).

(** ** The session store *)

(** The [while] loop of [create_session]: [attempts] are left. *)
Fixpoint create_session_loop (attempts : nat) (session_type : string) (value : json)
    (expiry_ms : Z) : prog string :=
  match attempts with
  | 0 => lift (Raise (StoreError 500 "Couldn't generate a session ID."))
  | S attempts' =>
      let! session_id := await (RandomString 24) in
      let! now := await TimeMsec in
      let! inserted := await (InsertSession session_type session_id value (now + expiry_ms)%Z) in
      if inserted then mret session_id
      else create_session_loop attempts' session_type value expiry_ms
  end.

Definition create_session (session_type : string) (value : json) (expiry_ms : Z) : prog string :=
  create_session_loop 5 session_type value expiry_ms.

Definition get_session (session_type session_id : string) : prog json :=
  let! ts := await TimeMsec in
  let! row := await (SelectSession session_type session_id ts) in
  lift (of_option row (StoreError 404 "No session")).

Definition consume_session (session_type session_id : string) : prog json :=
  let! ts := await TimeMsec in
  let! row := await (ConsumeSession session_type session_id ts) in
  lift (of_option row (StoreError 404 "No session")).

Definition _delete_expired_sessions : prog unit :=
  let! ts := await TimeMsec in
  await (DeleteExpired ts).

(** ** [XrplAuth] *)
Record XrplChallengeSession := mkSession {
  cs_address : string;
  cs_network : string;
  cs_challenge : string;
  cs_nonce : string;
  cs_issued_at_ms : Z;
  cs_preferred_localpart : option string;
  cs_display_name : option string
}.

Definition json_opt_str (o : option string) : json :=
  match o with Some s => JStr s | None => JNull end.

Definition session_json (cs : XrplChallengeSession) : json :=
  JDict [ ("address", JStr (cs_address cs)); ("network", JStr (cs_network cs));
          ("challenge", JStr (cs_challenge cs)); ("nonce", JStr (cs_nonce cs));
          ("issued_at_ms", JInt (cs_issued_at_ms cs));
          ("preferred_localpart", json_opt_str (cs_preferred_localpart cs));
          ("display_name", json_opt_str (cs_display_name cs)) ].

(** [None] or a string; anything else is refused. *)
Definition opt_str (j : json) : option (option string) :=
  match j with JNull => Some None | JStr s => Some (Some s) | _ => None end.

Definition bad_payload : exn := SynapseError 500 "Invalid XRPL login session payload" UNKNOWN.

(** The checks of [_consume_challenge_session] on the stored value. *)
Definition parse_session (session : json) : result XrplChallengeSession :=
  match session with
  | JDict d =>
      match get d "address", get d "network", get d "challenge", get d "nonce",
            opt_str (get d "preferred_localpart"), opt_str (get d "display_name") with
      | JStr address, JStr network, JStr challenge, JStr nonce, Some lp, Some dn =>
          match get d "issued_at_ms" with
          | JInt z => Ok (mkSession address network challenge nonce z lp dn)
          | JBool b => Ok (mkSession address network challenge nonce (if b then 1 else 0)%Z lp dn)
          | _ => Raise bad_payload
          end
      | _, _, _, _, _, _ => Raise bad_payload
      end
  | _ => Raise (SynapseError 500 "Invalid XRPL login session data" UNKNOWN)
  end.

(** [try: p except StoreError: raise e]; the other exceptions go on. *)
Fixpoint except_store_error {A} (p : prog A) (e : exn) : prog A :=
  match p with
  | Done (Raise (StoreError _ _)) => Done (Raise e)
  | Done r => Done r
  | Call c k => Call c (λ b, except_store_error (k b) e)
  end.

Section XrplAuth.
Context `{XrplLib} (str_len : pydict → Z) (config : XrplAuthConfig) (hostname : string).

Definition _build_challenge_session (address network : string)
    (preferred_localpart display_name : option string) : prog XrplChallengeSession :=
  let! issued_at_ms := await TimeMsec in
  let! nonce := await (RandomString 32) in
  let! challenge := lift (build_challenge address issued_at_ms nonce) in
  mret (mkSession address network challenge nonce issued_at_ms preferred_localpart display_name).

Definition issue_challenge (address network preferred_localpart username display_name : json)
    : prog json :=
  let! normalized_address := lift (validate_account_id address) in
  let! normalized_network := lift (validate_network network) in
  let! normalized_localpart := lift (_resolve_requested_localpart preferred_localpart username) in
  let! normalized_display_name := lift (_normalize_display_name display_name) in
  let! limited := await (Ratelimit (normalized_network, normalized_address)) in
  do! lift limited in
  let! challenge_session := _build_challenge_session normalized_address normalized_network
                        normalized_localpart normalized_display_name in
  let! session_id := create_session SESSION_TYPE (session_json challenge_session)
                 (challenge_ttl_ms config) in
  mret (JDict [("session", JStr session_id); ("challenge", JStr (cs_challenge challenge_session))]).

Definition _consume_challenge_session (session_id : string) : prog XrplChallengeSession :=
  let! session := except_store_error (consume_session SESSION_TYPE session_id)
              (LoginError 403 "Invalid or expired XRPL login session" M_FORBIDDEN) in
  lift (parse_session session).

Definition _validate_consumed_session (challenge_session : XrplChallengeSession)
    (address : string) (network : json) : prog unit :=
  let! normalized_network := lift (match network with
                             | JNull => Ok (cs_network challenge_session)
                             | n => validate_network n
                             end) in
  do! lift (raise_if (negb (String.eqb (cs_address challenge_session) address))
        (LoginError 403 "XRPL login address does not match the issued challenge" M_FORBIDDEN)) in
  do! lift (raise_if (negb (String.eqb (cs_network challenge_session) normalized_network))
        (LoginError 403 "XRPL login network does not match the issued challenge" M_FORBIDDEN)) in
  let! now_ms := await TimeMsec in
  do! lift (raise_if (cs_issued_at_ms challenge_session + challenge_ttl_ms config <? now_ms)%Z
        (LoginError 403 "XRPL login challenge has expired" M_FORBIDDEN)) in
  lift (raise_if
    (negb (substring_of ("nonce:" +:+ cs_nonce challenge_session) (cs_challenge challenge_session)))
    (SynapseError 500 "XRPL login challenge is malformed" UNKNOWN)).

Definition _is_localpart_available (localpart : string) : prog bool :=
  let user_id := to_string SIGIL.UserID (mkDSS localpart hostname) in
  let! answer := await (CheckUserExists user_id) in
  let! existing := lift answer in
  mret (match existing with None => true | Some _ => false end).

(** [for suffix in range(suffix, suffix + n)] *)
Fixpoint allocate_suffix (n suffix : nat) (base_localpart : string) : prog string :=
  match n with
  | 0 => lift (Raise (SynapseError 500 "Unable to allocate an XRPL-backed Matrix user ID" UNKNOWN))
  | S n' =>
      let candidate := base_localpart +:+ "_" +:+ pretty (N.of_nat suffix) in
      let! available := _is_localpart_available candidate in
      if available then mret candidate else allocate_suffix n' (S suffix) base_localpart
  end.

Definition _allocate_localpart (base_localpart : string) : prog string :=
  let! available := _is_localpart_available base_localpart in
  if available then mret base_localpart else allocate_suffix 98 2 base_localpart.

Definition _allocate_preferred_localpart (preferred_localpart : option string)
    : prog (option string) :=
  match preferred_localpart with
  | None => mret None
  | Some lp =>
      let! checked := await (CheckUsername lp) in
      do! lift checked in
      mret (Some lp)
  end.

(** [s[-n:]] *)
Definition last_chars (n : nat) (s : string) : string :=
  let cs := str_chars s in str_join (drop (length cs - n) cs).

Definition _register_wallet_user (address network : string)
    (preferred_localpart display_name : option string) : prog string :=
  let! preferred := _allocate_preferred_localpart preferred_localpart in
  let! localpart := match preferred with
              | Some lp => mret lp
              | None =>
                  let! base_localpart := lift (_sanitize_localpart
                    ("wallet_" +:+ network +:+ "_" +:+ last_chars 12 address)) in
                  _allocate_localpart base_localpart
              end in
  let! registered := await (RegisterUser localpart display_name) in
  lift registered.

Definition _validate_existing_wallet_link_preferences (user_id : string)
    (challenge_session : XrplChallengeSession) : result unit :=
  match cs_preferred_localpart challenge_session with
  | None => Ok tt
  | Some preferred_localpart =>
      linked ← from_string SIGIL.UserID user_id;
      raise_if (negb (String.eqb (localpart linked) preferred_localpart))
        (LoginError 403
          "This wallet is already linked to %s; requested username does not match." M_FORBIDDEN)
  end.

Definition WALLET_IDENTITY_ACCOUNT_DATA_TYPE : string := "org.textrp.wallet.identity".
Definition WALLET_E2EE_RECOVERY_ACCOUNT_DATA_TYPE : string := "org.textrp.wallet.e2ee_recovery.v1".
Definition XRPL_WALLET_ACCOUNT_DATA_TYPE : string := "org.textrp.xrpl.wallet".

Definition add_account_data_for_user (user_id ty : string) (content : json) : prog unit :=
  let! added := await (AddAccountData user_id ty content) in
  lift added.

(** The account of a verified wallet: the linked one, or a new one. *)
Definition wallet_user (challenge_session : XrplChallengeSession) (normalized_address : string)
    (link : option wallet_link) : prog string :=
  match link with
  | Some l =>
      do! lift (_validate_existing_wallet_link_preferences (wl_user_id l) challenge_session) in
      mret (wl_user_id l)
  | None =>
      do! lift (raise_if (negb (allow_account_creation config))
            (LoginError 403 "This wallet is not linked to a Matrix account" M_FORBIDDEN)) in
      _register_wallet_user normalized_address (cs_network challenge_session)
        (cs_preferred_localpart challenge_session) (cs_display_name challenge_session)
  end.

(** What [complete_auth] records once the account is known. *)
Definition record_wallet (user_id address network public_key : string)
    (login_submission : pydict) : prog unit :=
  let! linked_at := await TimeMsec in
  do! await (UpsertLink address network (mkLink user_id (Some public_key) linked_at)) in
  do! add_account_data_for_user user_id XRPL_WALLET_ACCOUNT_DATA_TYPE
        (JDict [("address", JStr address); ("network", JStr network);
                ("public_key", JStr public_key)]) in
  do! add_account_data_for_user user_id WALLET_IDENTITY_ACCOUNT_DATA_TYPE
        (build_wallet_identity_payload chain_id address public_key network) in
  if dict_mem login_submission "wallet_e2ee_recovery" then
    let! envelope := lift (validate_wallet_recovery_envelope str_len
      (get login_submission "wallet_e2ee_recovery") chain_id address) in
    add_account_data_for_user user_id WALLET_E2EE_RECOVERY_ACCOUNT_DATA_TYPE envelope
  else mret tt.

(** The arguments of the submission: session, signature and optional key. *)
Definition login_arguments (login_submission : pydict)
    : result (string * string * option string) :=
  match get login_submission "session" with
  | JStr (String _ _ as session_id) =>
      match get login_submission "signature" with
      | JStr (String _ _ as signature) =>
          match get login_submission "public_key" with
          | JNull => Ok (session_id, signature, None)
          | JStr k => Ok (session_id, signature, Some k)
          | _ => Raise (invalid_param "Invalid public_key")
          end
      | _ => Raise (SynapseError 400 "Missing signature" MISSING_PARAM)
      end
  | _ => Raise (SynapseError 400 "Missing session" MISSING_PARAM)
  end.

Definition complete_auth (login_submission : pydict) : prog string :=
  let! (session_id, signature, public_key) := lift (login_arguments login_submission) in
  let! normalized_address := lift (validate_account_id (get login_submission "address")) in
  let! challenge_session := _consume_challenge_session session_id in
  do! _validate_consumed_session challenge_session normalized_address
        (get login_submission "network") in
  let! link := await (SelectLink normalized_address (cs_network challenge_session)) in
  let supplied := str_or public_key (match link with Some l => wl_public_key l | None => None end) in
  let! resolved_public_key := lift (verify_login_proof normalized_address
                                (cs_challenge challenge_session) signature supplied) in
  let! user_id := wallet_user challenge_session normalized_address link in
  do! record_wallet user_id normalized_address (cs_network challenge_session)
        resolved_public_key login_submission in
  mret user_id.

(** [_do_xrpl_login]: the status and the body of the response. *)
Definition _do_xrpl_login (login_submission : pydict) : prog (Z * json) :=
  do! lift (raise_if (negb (enabled config)) (SynapseError 400 "Unknown login type %s" UNKNOWN)) in
  if is_initial_request login_submission then
    let! challenge := issue_challenge (get login_submission "address") (get login_submission "network")
      (get login_submission "preferred_localpart") (get login_submission "username")
      (get login_submission "display_name") in
    mret (401%Z, challenge)
  else
    let! canonical_user_id := complete_auth login_submission in
    let! completed := await (CompleteLogin canonical_user_id login_submission) in
    let! result := lift completed in
    mret (200%Z, result).
End XrplAuth.

(** ** The server *)

(** What the rest of the homeserver answers, on a state of its own, and the
    source of randomness: [random_string] draws letters. *)
Class Services (R : Type) := {
  random_string : nat → R → string * R;
  ratelimit : string * string → R → result unit * R;
  check_username : string → R → result unit * R;
  check_user_exists : string → R → result (option string) * R;
  register_user : string → option string → R → result string * R;
  add_account_data : string → string → json → R → result unit * R;
  complete_login : string → pydict → R → result json * R
}.

Definition is_letter (c : ascii) : bool := is_ascii_lower c || is_ascii_upper c.

Class ServicesLaws (R : Type) `{Services R} := {
  random_string_letters : ∀ n w,
    String.length (random_string n w).1 = n ∧ str_forall is_letter (random_string n w).1 = true
}.

Section Server.
Context {R : Type} `{Services R}.

Record server := mkServer {
  sessions : gmap (string * string) (json * Z);
  links : gmap (string * string) wallet_link;
  now : Z;
  world : R
}.

Definition set_sessions (m : gmap (string * string) (json * Z)) (s : server) : server :=
  mkServer m (links s) (now s) (world s).
Definition set_links (m : gmap (string * string) wallet_link) (s : server) : server :=
  mkServer (sessions s) m (now s) (world s).
Definition set_now (t : Z) (s : server) : server := mkServer (sessions s) (links s) t (world s).
Definition set_world (w : R) (s : server) : server := mkServer (sessions s) (links s) (now s) w.

(** [SELECT value ... AND expiry_time_ms > ts] *)
Definition select_session (session_type session_id : string) (ts : Z) (s : server) : option json :=
  '(value, expiry_time_ms) ← sessions s !! (session_type, session_id);
  if (ts <? expiry_time_ms)%Z then Some value else None.

(** [INSERT INTO sessions]; the pair of type and ID is unique. *)
Definition insert_session (session_type session_id : string) (value : json) (expiry_time_ms : Z)
    (s : server) : bool * server :=
  match sessions s !! (session_type, session_id) with
  | Some _ => (false, s)
  | None =>
      (true, set_sessions (<[(session_type, session_id) := (value, expiry_time_ms)]> (sessions s)) s)
  end.

(** The transaction [_consume_session]: select, then delete what was found. *)
Definition _consume_session (session_type session_id : string) (ts : Z) (s : server)
    : option json * server :=
  match select_session session_type session_id ts s with
  | None => (None, s)
  | Some value => (Some value, set_sessions (delete (session_type, session_id) (sessions s)) s)
  end.

(** [DELETE FROM sessions WHERE expiry_time_ms <= ts] *)
Definition _delete_expired_sessions_txn (ts : Z) (s : server) : server :=
  set_sessions (filter (λ '(_, (_, expiry)), ¬ (expiry <= ts)%Z) (sessions s)) s.

Definition with_world {A} (f : R → A * R) (s : server) : A * server :=
  let '(x, w) := f (world s) in (x, set_world w s).

Definition get_wallet_links_by_user (user_id : string) (s : server)
    : list (string * string * wallet_link) :=
  filter (λ '(_, l), wl_user_id l = user_id) (map_to_list (links s)).

Definition upsert_wallet_link (wallet_address network : string) (l : wallet_link) (s : server)
    : server := set_links (<[(wallet_address, network) := l]> (links s)) s.

Definition get_wallet_link_by_address (wallet_address network : string) (s : server)
    : option wallet_link := links s !! (wallet_address, network).

Definition handle (c : call) (s : server) : answer c * server :=
  match c return answer c * server with
  | TimeMsec => (now s, s)
  | RandomString n => with_world (random_string n) s
  | InsertSession ty sid value expiry => insert_session ty sid value expiry s
  | SelectSession ty sid ts => (select_session ty sid ts s, s)
  | ConsumeSession ty sid ts => _consume_session ty sid ts s
  | DeleteExpired ts => (tt, _delete_expired_sessions_txn ts s)
  | SelectLink a n => (get_wallet_link_by_address a n s, s)
  | SelectLinks u => (get_wallet_links_by_user u s, s)
  | UpsertLink a n l => (tt, upsert_wallet_link a n l s)
  | Ratelimit k => with_world (ratelimit k) s
  | CheckUsername lp => with_world (check_username lp) s
  | CheckUserExists u => with_world (check_user_exists u) s
  | RegisterUser lp dn => with_world (register_user lp dn) s
  | AddAccountData u ty v => with_world (add_account_data u ty v) s
  | CompleteLogin u sub => with_world (complete_login u sub) s
  end.

(** A coroutine run alone. *)
Fixpoint run {A} (p : prog A) (s : server) : result A * server :=
  match p with
  | Done r => (r, s)
  | Call c k => let '(b, s') := handle c s in run (k b) s'
  end.
End Server.
Arguments server : clear implicits.
