(* ===== verification/WalletLoginProps.v ===== *)
(** Wallet login: the requests of many clients interleaved.

    [leads p tr q] is what a coroutine [p] may have become, [q], after the calls
    and answers [tr]; the lemmas on it follow the structure of the programs.  A
    [state] is a server and the requests it was sent, each with what it has
    done so far, and [step] lets any of them make its next call.  The invariant
    [state_ok] ties the session table to the requests that filled it; from it
    follow the theorems on who gets logged in. *)
From S2P Require Import Prelude Identifiers WalletAuth WalletLogin.
From Stdlib Require Import Ascii.

(** ** Paths through a coroutine *)
Inductive event := Ev (c : call) (b : answer c).

Fixpoint leads {A} (p : prog A) (tr : list event) (q : prog A) : Prop :=
  match p with
  | Done r => tr = [] ∧ q = Done r
  | Call c k => (tr = [] ∧ q = Call c k) ∨ ∃ b tr', tr = Ev c b :: tr' ∧ leads (k b) tr' q
  end.

Lemma leads_refl {A} (p : prog A) : leads p [] p.
Proof. destruct p; simpl; auto. Qed.

Lemma leads_snoc {A} (p q : prog A) tr :
  leads p tr q →
  match q with Done _ => True | Call c k => ∀ b, leads p (tr ++ [Ev c b]) (k b) end.
Proof.
  revert tr. induction p as [r|c k IH]; simpl; intros tr.
  - by intros [-> ->].
  - intros [[-> ->]|(b & tr' & -> & Hl)].
    + intros b. right. exists b, []. split; [done|apply leads_refl].
    + specialize (IH _ _ Hl). destruct q as [|c' k']; [done|].
      intros b'. right. exists b, (tr' ++ [Ev c' b']). split; [done|apply IH].
Qed.

Lemma leads_lift {A} (r : result A) tr x :
  leads (lift r) tr (Done (Ok x)) ↔ tr = [] ∧ r = Ok x.
Proof. simpl. naive_solver. Qed.

Lemma leads_ret {A} (y : A) tr x :
  leads (mret y) tr (Done (Ok x)) ↔ tr = [] ∧ y = x.
Proof. simpl. naive_solver. Qed.

Lemma leads_await c tr b : leads (await c) tr (Done (Ok b)) ↔ tr = [Ev c b].
Proof.
  simpl. split.
  - intros [[_ ?]|(b' & tr' & -> & -> & ?)]; congruence.
  - intros ->. right. by exists b, [].
Qed.

Lemma leads_bind {A B} (p : prog A) (f : A → prog B) tr y :
  leads (prog_bind p f) tr (Done (Ok y)) ↔
  ∃ x tr1 tr2, tr = tr1 ++ tr2 ∧ leads p tr1 (Done (Ok x)) ∧ leads (f x) tr2 (Done (Ok y)).
Proof.
  revert tr. induction p as [[x|e]|c k IH]; intros tr; simpl.
  - split; [intros Hl; by exists x, [], tr|].
    intros (x' & tr1 & tr2 & -> & [-> [= ->]] & Hl). done.
  - naive_solver.
  - split.
    + intros [[_ ?]|(b & tr' & -> & Hl)]; [done|].
      apply IH in Hl as (x & tr1 & tr2 & -> & ? & ?).
      exists x, (Ev c b :: tr1), tr2. naive_solver.
    + intros (x & tr1 & tr2 & -> & [[_ ?]|(b & tr' & -> & Hl)] & Hf); [done|].
      right. exists b, (tr' ++ tr2). split; [done|]. apply IH. eauto 10.
Qed.

Lemma leads_except {A} (p : prog A) e tr x :
  (∀ c m, e ≠ StoreError c m) →
  leads (except_store_error p e) tr (Done (Ok x)) → leads p tr (Done (Ok x)).
Proof.
  intros He. revert tr. induction p as [r|c k IH]; intros tr; simpl.
  - destruct r as [?|[]]; simpl; naive_solver.
  - intros [[_ ?]|(b & tr' & -> & Hl)]; [done|]. eauto 10.
Qed.

(** [always P past p]: every call [p] may make satisfies [P], which is told the
    calls before it, the call with its answer and what is left to do. *)
Fixpoint always {A} (P : list event → event → prog A → Prop) (past : list event)
    (p : prog A) : Prop :=
  match p with
  | Done _ => True
  | Call c k => ∀ b, P past (Ev c b) (k b) ∧ always P (past ++ [Ev c b]) (k b)
  end.

Lemma always_leads {A} P past (p q : prog A) tr :
  always P past p → leads p tr q →
  ∀ pre ev post, tr = pre ++ ev :: post → ∃ k, P (past ++ pre) ev k ∧ leads k post q.
Proof.
  revert past tr. induction p as [r|c k IH]; intros past tr Hal; simpl.
  - intros [-> _] pre ?? Heq. by destruct pre.
  - intros [[-> _]|(b & tr' & -> & Hl)] pre ev post Heq; [by destruct pre|].
    destruct (Hal b) as [HP Hnext]. destruct pre as [|ev' pre]; simpl in Heq.
    + injection Heq as <- <-. exists (k b). rewrite app_nil_r. eauto.
    + injection Heq as <- ->. destruct (IH b _ _ Hnext Hl _ _ _ eq_refl) as (k' & ? & ?).
      exists k'. by rewrite <- app_assoc in *.
Qed.

(** [never Q p]: no call [p] may make satisfies [Q]. *)
Fixpoint never {A} (Q : call → bool) (p : prog A) : Prop :=
  match p with
  | Done _ => True
  | Call c k => Q c = false ∧ ∀ b, never Q (k b)
  end.

Lemma never_bind {A B} Q (p : prog A) (f : A → prog B) :
  never Q p → (∀ x, never Q (f x)) → never Q (prog_bind p f).
Proof.
  induction p as [[x|e]|c k IH]; simpl; [by auto|done|]. intros [? ?] ?. split; [done|]. auto.
Qed.

Lemma never_except {A} Q (p : prog A) e : never Q p → never Q (except_store_error p e).
Proof.
  induction p as [[x|[]]|c k IH]; simpl; try done. intros [? ?]. split; [done|]. auto.
Qed.

Lemma never_lift {A} Q (r : result A) : never Q (lift r).
Proof. done. Qed.

Lemma never_await Q c : Q c = false → never Q (await c).
Proof. done. Qed.

Lemma never_always {A} Q P past (p : prog A) :
  never Q p → (∀ past c b k, Q c = false → P past (Ev c b) k) → always P past p.
Proof.
  intros Hn HP. revert past Hn. induction p as [r|c k IH]; simpl; [done|].
  intros past [Hc Hk] b. auto.
Qed.

Create HintDb prog.
#[export] Hint Resolve never_lift never_await : prog.

Ltac never_step :=
  first [ exact I | solve [auto with prog nocore] | apply never_bind | apply never_except
        | progress simpl; split; [done|]; intros ? | case_match ].
Ltac solve_never := repeat (intros; never_step).

Definition is_insert (c : call) : bool :=
  match c with InsertSession _ _ _ _ => true | _ => false end.

(** ** What the requests do *)
Section Requests.
Context `{XrplLib} (str_len : pydict → Z) (config : XrplAuthConfig) (hostname : string).

Lemma allocate_suffix_no_insert n suffix base :
  never is_insert (allocate_suffix hostname n suffix base).
Proof.
  revert suffix. induction n as [|n IH]; intros suffix; simpl; [done|].
  split; [done|]. intros [o|e]; simpl; [|done]. destruct o; simpl; auto.
Qed.

#[local] Hint Resolve allocate_suffix_no_insert : prog.

Lemma complete_auth_no_insert sub : never is_insert (complete_auth str_len config hostname sub).
Proof.
  unfold complete_auth, _consume_challenge_session, _validate_consumed_session, wallet_user,
    record_wallet, _register_wallet_user, _allocate_preferred_localpart, _allocate_localpart,
    _is_localpart_available, add_account_data_for_user, consume_session.
  solve_never.
Qed.

(** [req] is an initial request whose normalised arguments are those of [cs],
    and [past] are calls that gave its time and its nonce. *)
Record issued (req : pydict) (past : list event) (cs : XrplChallengeSession) : Prop := {
  issued_initial : is_initial_request req = true;
  issued_address : validate_account_id (get req "address") = Ok (cs_address cs);
  issued_network : validate_network (get req "network") = Ok (cs_network cs);
  issued_localpart : _resolve_requested_localpart (get req "preferred_localpart")
    (get req "username") = Ok (cs_preferred_localpart cs);
  issued_challenge :
    build_challenge (cs_address cs) (cs_issued_at_ms cs) (cs_nonce cs) = Ok (cs_challenge cs);
  issued_time : Ev TimeMsec (cs_issued_at_ms cs) ∈ past;
  issued_nonce : Ev (RandomString 32) (cs_nonce cs) ∈ past
}.

Definition issue_response (sid : string) (cs : XrplChallengeSession) : Z * json :=
  (401%Z, JDict [("session", JStr sid); ("challenge", JStr (cs_challenge cs))]).

(** Every row a request inserts is its own challenge session, and the request
    is over once the row is in. *)
Definition insert_ok (req : pydict) (past : list event) (ev : event) (k : prog (Z * json)) : Prop :=
  match ev with
  | Ev c b =>
      match c return answer c → Prop with
      | InsertSession ty sid v expiry => λ inserted,
          ∃ cs t, ty = SESSION_TYPE ∧ v = session_json cs ∧ issued req past cs ∧
                  Ev TimeMsec t ∈ past ∧ expiry = (t + challenge_ttl_ms config)%Z ∧
                  (inserted = true → k = Done (Ok (issue_response sid cs)))
      | _ => λ _, True
      end b
  end.

Lemma create_session_inserts req past cs attempts :
  issued req past cs →
  always (insert_ok req) past
    (let! ch :=
       (let! sid := create_session_loop attempts SESSION_TYPE (session_json cs)
                      (challenge_ttl_ms config) in
        mret (JDict [("session", JStr sid); ("challenge", JStr (cs_challenge cs))])) in
     mret (401%Z, ch)).
Proof.
  intros Hi. revert past Hi. induction attempts as [|n IH]; intros past Hi; simpl; [done|].
  intros sid. split; [done|]. intros t. split; [done|].
  assert (Hi' : issued req ((past ++ [Ev (RandomString 24) sid]) ++ [Ev TimeMsec t]) cs).
  { destruct Hi. split; try done; rewrite !elem_of_app; auto. }
  intros [|]; simpl.
  - split; [|done]. exists cs, t. split_and!; try done.
    apply elem_of_app. right. by apply list_elem_of_singleton.
  - split.
    + exists cs, t. split_and!; try done.
      apply elem_of_app. right. by apply list_elem_of_singleton.
    + apply IH. destruct Hi'. split; try done; rewrite elem_of_app; auto.
Qed.

Lemma login_inserts req : always (insert_ok req) [] (_do_xrpl_login str_len config hostname req).
Proof.
  unfold _do_xrpl_login. destruct (enabled config); simpl; [|done].
  destruct (is_initial_request req) eqn:Hinit.
  - unfold issue_challenge, create_session. generalize 5 as attempts. intros attempts.
    destruct (validate_account_id _) as [a|] eqn:Ha; simpl; [|done].
    destruct (validate_network _) as [n|] eqn:Hn; simpl; [|done].
    destruct (_resolve_requested_localpart _ _) as [lp|] eqn:Hlp; simpl; [|done].
    destruct (_normalize_display_name _) as [dn|] eqn:Hdn; simpl; [|done].
    intros [[]|e]; (split; [done|]); simpl; [|done].
    intros t. split; [done|]. intros nonce. split; [done|].
    destruct (build_challenge a t nonce) as [ch|] eqn:Hch; simpl; [|done].
    set (cs := mkSession a n ch nonce t lp dn).
    apply create_session_inserts. split; try done; set_solver.
  - apply (never_always is_insert).
    + apply never_bind; [apply complete_auth_no_insert|]. intros u. simpl. split; [done|].
      by intros [].
    + by intros ? [].
Qed.

(** What a request that was answered with status 200 has done. *)
Record logged_in (req : pydict) (tr : list event) (sid signature : string) (pk : option string)
    (cs : XrplChallengeSession) (link : option wallet_link) (key user : string) (body : json)
    : Prop := {
  logged_in_arguments : login_arguments req = Ok (sid, signature, pk);
  logged_in_address : validate_account_id (get req "address") = Ok (cs_address cs);
  logged_in_network : get req "network" = JNull ∨
    validate_network (get req "network") = Ok (cs_network cs);
  logged_in_session : ∃ ts v,
    Ev (ConsumeSession SESSION_TYPE sid ts) (Some v) ∈ tr ∧ parse_session v = Ok cs;
  logged_in_fresh : ∃ t, Ev TimeMsec t ∈ tr ∧ (t <= cs_issued_at_ms cs + challenge_ttl_ms config)%Z;
  logged_in_link : Ev (SelectLink (cs_address cs) (cs_network cs)) link ∈ tr;
  logged_in_proof : verify_login_proof (cs_address cs) (cs_challenge cs) signature
    (str_or pk (match link with Some l => wl_public_key l | None => None end)) = Ok key;
  logged_in_user :
    match link with
    | Some l => user = wl_user_id l ∧ _validate_existing_wallet_link_preferences user cs = Ok tt
    | None => allow_account_creation config = true ∧
              ∃ lp, Ev (RegisterUser lp (cs_display_name cs)) (Ok user) ∈ tr
    end;
  logged_in_recorded : ∃ t,
    Ev (UpsertLink (cs_address cs) (cs_network cs) (mkLink user (Some key) t)) tt ∈ tr;
  logged_in_response : Ev (CompleteLogin user req) (Ok body) ∈ tr
}.

Ltac path_step :=
  match goal with
  | Hl : leads (prog_bind _ _) _ (Done (Ok _)) |- _ =>
      apply leads_bind in Hl as (? & ? & ? & -> & ? & ?)
  | Hl : leads (lift _) _ (Done (Ok _)) |- _ => apply leads_lift in Hl as [-> ?]
  | Hl : leads (mret _) _ (Done (Ok _)) |- _ => apply leads_ret in Hl as [-> ?]
  | Hl : leads (await _) _ (Done (Ok _)) |- _ => apply leads_await in Hl as ->
  | Hr : raise_if _ _ = Ok _ |- _ => apply raise_if_ok in Hr
  | Hr : of_option _ _ = Ok _ |- _ => apply of_option_ok in Hr
  | Hb : negb _ = false |- _ => apply negb_false_iff in Hb
  | Hb : String.eqb _ _ = true |- _ => apply String.eqb_eq in Hb
  end.
Ltac path_inv := repeat path_step; simplify_eq.

Lemma consume_path sid tr cs :
  leads (_consume_challenge_session sid) tr (Done (Ok cs)) →
  ∃ ts v, tr = [Ev TimeMsec ts; Ev (ConsumeSession SESSION_TYPE sid ts) (Some v)] ∧
          parse_session v = Ok cs.
Proof.
  unfold _consume_challenge_session. intros Hl. path_inv.
  match goal with H : leads (except_store_error _ _) _ _ |- _ =>
    apply leads_except in H; [|done]; unfold consume_session in H end.
  path_inv. eauto.
Qed.

Lemma validate_path cs addr net tr :
  leads (_validate_consumed_session config cs addr net) tr (Done (Ok tt)) →
  cs_address cs = addr ∧ (net = JNull ∨ validate_network net = Ok (cs_network cs)) ∧
  ∃ t, tr = [Ev TimeMsec t] ∧ (t <= cs_issued_at_ms cs + challenge_ttl_ms config)%Z.
Proof.
  unfold _validate_consumed_session. intros Hl. path_inv.
  split_and!; [done| |eexists; split; [done|lia]].
  destruct net; naive_solver.
Qed.

Lemma register_path addr net lp dn tr user :
  leads (_register_wallet_user hostname addr net lp dn) tr (Done (Ok user)) →
  ∃ lp', Ev (RegisterUser lp' dn) (Ok user) ∈ tr.
Proof.
  unfold _register_wallet_user. intros Hl.
  apply leads_bind in Hl as (pref & tr1 & tr2 & -> & _ & Hl).
  apply leads_bind in Hl as (lp' & tr3 & tr4 & -> & _ & Hl). path_inv.
  exists lp'. set_solver.
Qed.

Lemma wallet_user_path cs addr link tr user :
  leads (wallet_user config hostname cs addr link) tr (Done (Ok user)) →
  match link with
  | Some l => user = wl_user_id l ∧ _validate_existing_wallet_link_preferences user cs = Ok tt
  | None => allow_account_creation config = true ∧
            ∃ lp, Ev (RegisterUser lp (cs_display_name cs)) (Ok user) ∈ tr
  end.
Proof.
  unfold wallet_user. destruct link as [l|]; intros Hl; path_inv.
  - match goal with u : () |- _ => by destruct u end.
  - split; [done|]. eapply register_path; eauto.
Qed.

Lemma record_path user addr net key sub tr :
  leads (record_wallet str_len user addr net key sub) tr (Done (Ok tt)) →
  ∃ t, Ev (UpsertLink addr net (mkLink user (Some key) t)) tt ∈ tr.
Proof.
  unfold record_wallet. intros Hl. apply leads_bind in Hl as (t & tr1 & tr2 & -> & _ & Hl).
  apply leads_bind in Hl as ([] & tr3 & tr4 & -> & Hu & _). apply leads_await in Hu as ->.
  exists t. set_solver.
Qed.

Lemma login_path req tr body :
  leads (_do_xrpl_login str_len config hostname req) tr (Done (Ok (200%Z, body))) →
  ∃ sid signature pk cs link key user, logged_in req tr sid signature pk cs link key user body.
Proof.
  unfold _do_xrpl_login. intros Hl. path_step. path_step.
  destruct (is_initial_request req); [path_inv|].
  apply leads_bind in H1 as (user & tr1 & tr2 & -> & Hauth & Hl).
  unfold complete_auth in Hauth.
  apply leads_bind in Hauth as ([[sid signature] pk] & ta & tb & -> & Hargs & Hauth).
  apply leads_bind in Hauth as (addr & tc & td & -> & Haddr & Hauth).
  apply leads_bind in Hauth as (cs & te & tf & -> & Hcs & Hauth).
  apply leads_bind in Hauth as ([] & tg & th & -> & Hval & Hauth).
  apply leads_bind in Hauth as (link & ti & tj & -> & Hlink & Hauth).
  apply leads_bind in Hauth as (key & tk & tl & -> & Hkey & Hauth).
  apply leads_bind in Hauth as (user' & tm & tn & -> & Huser & Hauth).
  apply leads_bind in Hauth as ([] & to & tp & -> & Hrec & Hauth).
  apply consume_path in Hcs as (ts & v & -> & Hparse).
  apply validate_path in Hval as (<- & Hnet & t & -> & Hfresh).
  apply wallet_user_path in Huser. apply record_path in Hrec as [la Hrec]. path_inv.
  exists sid, signature, pk, cs, link, key, user. split; try done.
  - exists ts, v. set_solver.
  - exists t. set_solver.
  - set_solver.
  - destruct link; [done|]. destruct Huser as [? [lp ?]]. split; [done|]. exists lp. set_solver.
  - exists la. set_solver.
  - set_solver.
Qed.
End Requests.
