(* ===== verification/WalletLoginSystem.v ===== *)
(** Wallet login: many requests on one server.

    A [state] is a server and the requests it was sent, each with the calls it
    has made; [step] lets any of them make its next call, time pass, the rest of
    the homeserver act, and expired sessions be deleted.  The invariant
    [state_ok] ties the session table to the requests that filled it; from it
    follow the theorems on who gets logged in. *)
From S2P Require Import Prelude Identifiers WalletAuth WalletLogin WalletLoginProps.
From Stdlib Require Import Ascii.

(** ** Events *)
Definition insert_of (ev : event) : option (string * string * json * Z * bool) :=
  match ev with
  | Ev c b =>
      match c return answer c → option (string * string * json * Z * bool) with
      | InsertSession ty sid v e => λ b, Some (ty, sid, v, e, b)
      | _ => λ _, None
      end b
  end.

Definition consume_of (ev : event) : option (string * string * Z * option json) :=
  match ev with
  | Ev c b =>
      match c return answer c → option (string * string * Z * option json) with
      | ConsumeSession ty sid ts => λ b, Some (ty, sid, ts, b)
      | _ => λ _, None
      end b
  end.

Definition random_of (ev : event) : option (nat * string) :=
  match ev with
  | Ev c b =>
      match c return answer c → option (nat * string) with
      | RandomString n => λ b, Some (n, b)
      | _ => λ _, None
      end b
  end.

(** The session [sid] was put into the table, taken out of it. *)
Definition inserted (sid : string) (ev : event) : bool :=
  match insert_of ev with
  | Some (ty, sid', _, _, true) => String.eqb ty SESSION_TYPE && String.eqb sid' sid
  | _ => false
  end.

Definition consumed (sid : string) (ev : event) : bool :=
  match consume_of ev with
  | Some (ty, sid', _, Some _) => String.eqb ty SESSION_TYPE && String.eqb sid' sid
  | _ => false
  end.

Section System.
Context {R : Type} `{!Services R, !ServicesLaws R, XrplLib}.
Context (str_len : pydict → Z) (config : XrplAuthConfig) (hostname : string).

Record request := mkRequest {
  submission : pydict;
  local : list event;
  rest : prog (Z * json)
}.

Record state := mkState { srv : server R; requests : list request }.

Definition start (req : pydict) : request :=
  mkRequest req [] (_do_xrpl_login str_len config hostname req).

Inductive step : state → state → Prop :=
  | step_arrive s rs req : step (mkState s rs) (mkState s (rs ++ [start req]))
  | step_run s rs i t c k :
      rs !! i = Some t → rest t = Call c k →
      step (mkState s rs)
           (mkState (handle c s).2
             (<[i := mkRequest (submission t) (local t ++ [Ev c (handle c s).1])
                       (k (handle c s).1)]> rs))
  | step_tick s rs t : (now s <= t)%Z → step (mkState s rs) (mkState (set_now t s) rs)
  | step_world s rs w : step (mkState s rs) (mkState (set_world w s) rs)
  | step_delete_expired s rs ts :
      (ts <= now s)%Z → step (mkState s rs) (mkState (handle (DeleteExpired ts) s).2 rs)
  | step_other_sessions s rs m :
      (∀ sid, m !! (SESSION_TYPE, sid) = sessions s !! (SESSION_TYPE, sid)) →
      step (mkState s rs) (mkState (set_sessions m s) rs).

Definition initial (st : state) : Prop :=
  (∀ sid, sessions (srv st) !! (SESSION_TYPE, sid) = None) ∧ requests st = [].

Definition reachable (st : state) : Prop := ∃ st0, initial st0 ∧ rtc step st0 st.

(** ** What has happened *)
Fixpoint count (P : event → bool) (l : list event) : nat :=
  match l with [] => 0 | ev :: l' => (if P ev then 1 else 0) + count P l' end.

Lemma count_snoc P l ev : count P (l ++ [ev]) = count P l + (if P ev then 1 else 0).
Proof. induction l as [|x l IH]; simpl; lia. Qed.

Lemma count_pos P l ev : ev ∈ l → P ev = true → 1 ≤ count P l.
Proof. induction 1 as [|? ? ? ? IH]; simpl; intros HP; [rewrite HP; lia|]. specialize (IH HP). lia. Qed.

Definition happened (rs : list request) (ev : event) : Prop := ∃ t, t ∈ rs ∧ ev ∈ local t.

Definition occurrences (P : event → bool) (rs : list request) : nat :=
  sum_list ((λ t, count P (local t)) <$> rs).

Lemma happened_arrive rs req ev : happened (rs ++ [start req]) ev ↔ happened rs ev.
Proof.
  unfold happened. split.
  - intros (t & [Ht|Ht]%elem_of_app & Hev); [by eauto|].
    apply list_elem_of_singleton in Ht as ->. by apply not_elem_of_nil in Hev.
  - intros (t & Ht & Hev). exists t. rewrite elem_of_app. auto.
Qed.

Lemma happened_run rs i t ev k ev' :
  rs !! i = Some t →
  happened (<[i := mkRequest (submission t) (local t ++ [ev]) k]> rs) ev' ↔
  happened rs ev' ∨ ev' = ev.
Proof.
  intros Hi. pose proof (lookup_lt_Some _ _ _ Hi). unfold happened. split.
  - intros (t' & [j Hj]%list_elem_of_lookup & Hev).
    destruct (decide (i = j)) as [<-|Hne].
    + rewrite list_lookup_insert_eq in Hj by done. injection Hj as <-. simpl in Hev.
      apply elem_of_app in Hev as [Hev|Hev]; [|set_solver].
      left. exists t. split; [by eapply list_elem_of_lookup_2|done].
    + rewrite list_lookup_insert_ne in Hj by done. left. exists t'.
      split; [by eapply list_elem_of_lookup_2|done].
  - intros [(t' & Ht' & Hev)|He]; [|subst ev'].
    + apply list_elem_of_lookup in Ht' as [j Hj]. destruct (decide (i = j)) as [<-|Hne].
      * rewrite Hi in Hj. injection Hj as <-. eexists. split.
        { eapply list_elem_of_lookup_2. by apply list_lookup_insert_eq. }
        simpl. set_solver.
      * exists t'. split; [|done]. eapply (list_elem_of_lookup_2 _ j).
        by rewrite list_lookup_insert_ne.
    + eexists. split; [eapply list_elem_of_lookup_2; by apply list_lookup_insert_eq|].
      simpl. set_solver.
Qed.

Lemma occurrences_arrive P rs req : occurrences P (rs ++ [start req]) = occurrences P rs.
Proof. unfold occurrences. induction rs as [|t rs IH]; [done|]. simpl. f_equal. apply IH. Qed.

Lemma occurrences_run P rs i t ev k :
  rs !! i = Some t →
  occurrences P (<[i := mkRequest (submission t) (local t ++ [ev]) k]> rs) =
  occurrences P rs + (if P ev then 1 else 0).
Proof.
  revert i. induction rs as [|t' rs IH]; intros [|i] Hi; simplify_eq/=; unfold occurrences in *; simpl.
  - rewrite count_snoc. lia.
  - rewrite <- Nat.add_assoc. f_equal. by apply (IH i).
Qed.

(** ** The invariant *)
Definition present (s : server R) (sid : string) : nat :=
  match sessions s !! (SESSION_TYPE, sid) with Some _ => 1 | None => 0 end.

Record state_ok (st : state) : Prop := {
  ok_leads : ∀ t, t ∈ requests st →
    leads (_do_xrpl_login str_len config hostname (submission t)) (local t) (rest t);
  ok_random : ∀ ev n r, happened (requests st) ev → random_of ev = Some (n, r) →
    String.length r = n ∧ str_forall is_letter r = true;
  ok_rows : ∀ sid v e, sessions (srv st) !! (SESSION_TYPE, sid) = Some (v, e) →
    happened (requests st) (Ev (InsertSession SESSION_TYPE sid v e) true);
  ok_consumed : ∀ ev sid ts v, happened (requests st) ev →
    consume_of ev = Some (SESSION_TYPE, sid, ts, Some v) →
    ∃ e, happened (requests st) (Ev (InsertSession SESSION_TYPE sid v e) true) ∧ (ts < e)%Z;
  ok_count : ∀ sid,
    occurrences (consumed sid) (requests st) + present (srv st) sid ≤
    occurrences (inserted sid) (requests st)
}.

Lemma initial_ok st : initial st → state_ok st.
Proof.
  intros [Hs Hr]. split; rewrite ?Hr.
  - by intros t ?%not_elem_of_nil.
  - intros ??? (t & ?%not_elem_of_nil & _). done.
  - intros sid v e. by rewrite Hs.
  - intros ???? (t & ?%not_elem_of_nil & _). done.
  - intros sid. unfold present. by rewrite Hs.
Qed.

(** A change that adds no row of our type keeps the invariant. *)
Lemma fewer_sessions_ok s s' rs :
  (∀ sid row, sessions s' !! (SESSION_TYPE, sid) = Some row →
     sessions s !! (SESSION_TYPE, sid) = Some row) →
  state_ok (mkState s rs) → state_ok (mkState s' rs).
Proof.
  intros Hs [Hl Hr Hrow Hc Hn]. simpl in *. split; simpl; try done; [by eauto|].
  intros sid. specialize (Hn sid). unfold present in *.
  destruct (sessions s' !! (SESSION_TYPE, sid)) as [row|] eqn:E; [|lia].
  rewrite (Hs _ _ E) in Hn. lia.
Qed.

Lemma arrive_ok s rs req : state_ok (mkState s rs) → state_ok (mkState s (rs ++ [start req])).
Proof.
  intros [Hl Hr Hrow Hc Hn]. simpl in *. split; simpl.
  - intros t [?| ->%list_elem_of_singleton]%elem_of_app; [by auto|]. apply leads_refl.
  - intros ???. rewrite happened_arrive. apply Hr.
  - intros ???. rewrite happened_arrive. apply Hrow.
  - intros ????. rewrite happened_arrive. intros H1 H2.
    destruct (Hc _ _ _ _ H1 H2) as (e & ? & ?). exists e. by rewrite happened_arrive.
  - intros sid. rewrite !occurrences_arrive. apply Hn.
Qed.

Lemma select_session_some ty sid ts (s : server R) v :
  select_session ty sid ts s = Some v →
  ∃ e, sessions s !! (ty, sid) = Some (v, e) ∧ (ts < e)%Z.
Proof.
  unfold select_session. destruct (sessions s !! (ty, sid)) as [[v' e]|]; simpl; [|done].
  destruct (Z.ltb_spec ts e); [|done]. intros [= ->]. eauto.
Qed.

Lemma with_world_sessions {A} (f : R → A * R) (s : server R) :
  sessions (with_world f s).2 = sessions s.
Proof. unfold with_world. by destruct (f (world s)). Qed.

(** What one call does to the session table, and the event it leaves. *)
Lemma handle_random c (s : server R) n r :
  random_of (Ev c (handle c s).1) = Some (n, r) →
  String.length r = n ∧ str_forall is_letter r = true.
Proof.
  destruct c; simpl; try done. unfold with_world. intros Heq.
  pose proof (random_string_letters length (world s)) as Hl.
  destruct (random_string length (world s)); simpl in *. by simplify_eq.
Qed.

Lemma handle_rows c (s : server R) sid v e :
  sessions (handle c s).2 !! (SESSION_TYPE, sid) = Some (v, e) →
  sessions s !! (SESSION_TYPE, sid) = Some (v, e) ∨
  Ev c (handle c s).1 = Ev (InsertSession SESSION_TYPE sid v e) true.
Proof.
  destruct c as [| |ty sid' v' e'| |ty sid' ts|ts| | | | | | | | |];
    simpl; rewrite ?with_world_sessions; auto.
  - unfold insert_session. destruct (sessions s !! (ty, sid')) as [row|]; simpl; [by auto|].
    rewrite lookup_insert_Some. intros [[[= -> ->] [= -> ->]]|[_ ?]]; auto.
  - unfold _consume_session. destruct (select_session ty sid' ts s); simpl; [|by auto].
    rewrite lookup_delete_Some. naive_solver.
  - rewrite map_lookup_filter_Some. naive_solver.
Qed.

Lemma handle_consume c (s : server R) sid ts v :
  consume_of (Ev c (handle c s).1) = Some (SESSION_TYPE, sid, ts, Some v) →
  ∃ e, sessions s !! (SESSION_TYPE, sid) = Some (v, e) ∧ (ts < e)%Z.
Proof.
  destruct c as [| | | |ty sid' ts'| | | | | | | | | |]; simpl; try done.
  unfold _consume_session. destruct (select_session ty sid' ts' s) as [v'|] eqn:E; simpl; [|done].
  intros [= -> -> -> ->]. by apply select_session_some.
Qed.

Lemma handle_count c (s : server R) sid :
  (if consumed sid (Ev c (handle c s).1) then 1 else 0) + present (handle c s).2 sid ≤
  present s sid + (if inserted sid (Ev c (handle c s).1) then 1 else 0).
Proof.
  unfold present.
  destruct c as [| |ty sid' v' e'| |ty sid' ts|ts| | | | | | | | |];
    simpl; rewrite ?with_world_sessions; try lia.
  - unfold inserted, insert_session. destruct (sessions s !! (ty, sid')) as [row|] eqn:E; simpl; [lia|].
    destruct (decide ((ty, sid') = (SESSION_TYPE, sid))) as [[= -> ->]|Hne].
    + rewrite lookup_insert_eq, E, !String.eqb_refl. simpl. lia.
    + rewrite lookup_insert_ne by done. lia.
  - unfold consumed, _consume_session. destruct (select_session ty sid' ts s) as [v|] eqn:E; simpl; [|lia].
    apply select_session_some in E as (e & E & _).
    destruct (decide ((ty, sid') = (SESSION_TYPE, sid))) as [[= -> ->]|Hne].
    + rewrite lookup_delete_eq, E, !String.eqb_refl. simpl. lia.
    + rewrite lookup_delete_ne by done.
      destruct (String.eqb_spec ty SESSION_TYPE), (String.eqb_spec sid' sid); simpl; try lia.
      congruence.
  - destruct (filter _ _ !! _) as [[v e]|] eqn:E; [|lia].
    apply map_lookup_filter_Some in E as [-> _]. lia.
Qed.

Lemma run_ok s rs i t c k :
  rs !! i = Some t → rest t = Call c k → state_ok (mkState s rs) →
  state_ok (mkState (handle c s).2
    (<[i := mkRequest (submission t) (local t ++ [Ev c (handle c s).1]) (k (handle c s).1)]> rs)).
Proof.
  intros Hi Hk [Hl Hr Hrow Hc Hn]. simpl in *. split; simpl.
  - intros t' [j Hj]%list_elem_of_lookup.
    apply list_lookup_insert_Some in Hj as [(<- & <- & _)|[_ Hj]].
    + simpl. pose proof (leads_snoc _ _ _ (Hl t (list_elem_of_lookup_2 _ _ _ Hi))) as Hs.
      rewrite Hk in Hs. apply Hs.
    + apply Hl. by eapply list_elem_of_lookup_2.
  - intros ev n r. rewrite happened_run by done. intros [?| ->]; [by apply Hr|].
    apply handle_random.
  - intros sid v e Hrow'. rewrite happened_run by done.
    apply handle_rows in Hrow' as [?|?]; auto.
  - intros ev sid ts v. rewrite happened_run by done. intros [Hh| ->] Hev.
    + destruct (Hc _ _ _ _ Hh Hev) as (e & ? & ?). exists e. rewrite happened_run by done. auto.
    + apply handle_consume in Hev as (e & ? & ?). exists e. rewrite happened_run by done. auto.
  - intros sid. rewrite !occurrences_run by done.
    pose proof (handle_count c s sid). specialize (Hn sid). lia.
Qed.

Lemma step_ok st st' : step st st' → state_ok st → state_ok st'.
Proof.
  destruct 1 as [s rs req|s rs i t c k Hi Hk|s rs t _|s rs w|s rs ts _|s rs m Hm].
  - apply arrive_ok.
  - by apply run_ok.
  - by apply fewer_sessions_ok.
  - by apply fewer_sessions_ok.
  - apply fewer_sessions_ok. simpl. intros sid row [? _]%map_lookup_filter_Some. done.
  - apply fewer_sessions_ok. simpl. intros sid row. by rewrite Hm.
Qed.

Lemma login_reachable_ok st : reachable st → state_ok st.
Proof.
  intros (st0 & Hi & Hsteps). apply initial_ok in Hi. revert Hi.
  induction Hsteps; eauto using step_ok.
Qed.

(** ** Schedules

    A schedule says which request moves next; it is how the examples below reach
    their states. *)
Inductive action := Arrive (req : pydict) | Run (i : nat) | Tick (ms : nat).

Definition exec1 (st : state) (a : action) : state :=
  let 'mkState s rs := st in
  match a with
  | Arrive req => mkState s (rs ++ [start req])
  | Run i =>
      match rs !! i with
      | Some (mkRequest req l (Call c k)) =>
          let r := handle c s in
          mkState r.2 (<[i := mkRequest req (l ++ [Ev c r.1]) (k r.1)]> rs)
      | _ => st
      end
  | Tick ms => mkState (set_now (now s + Z.of_nat ms) s) rs
  end.

Definition exec (st : state) (l : list action) : state := foldl exec1 st l.

Lemma exec1_steps st a : rtc step st (exec1 st a).
Proof.
  destruct st as [s rs], a as [req|i|ms]; simpl.
  - apply rtc_once. constructor.
  - destruct (rs !! i) as [[req l [r|c k]]|] eqn:Hi; try apply rtc_refl.
    apply rtc_once. by apply (step_run s rs i (mkRequest req l (Call c k))).
  - apply rtc_once. constructor. lia.
Qed.

Lemma exec_reachable st l : initial st → reachable (exec st l).
Proof.
  intros Hi. exists st. split; [done|]. clear Hi. revert st.
  induction l as [|a l IH]; intros st; simpl; [apply rtc_refl|].
  etrans; [apply exec1_steps|apply IH].
Qed.
End System.
Arguments state : clear implicits.
