(* ===== verification/WalletLoginSafety.v ===== *)
(** Wallet login: the theorems.

    Who gets logged in, and how often a challenge can be used, whatever the
    requests and however they interleave; what the session table holds; what
    proves control of a wallet; and, by concrete schedules, what the protocol
    does not guarantee. *)
From S2P Require Import Prelude Identifiers WalletAuth WalletAuthProps.
From S2P Require Import WalletLogin WalletLoginProps WalletLoginSystem.
From Stdlib Require Import Ascii.

(** ** Proofs of control *)
Section Proofs.
Context `{XrplLib}.

(** [signature] is a signed transaction of [address], signed with [key]. *)
Definition signin_signed (address signature key : string) : Prop :=
  ∃ sig_bytes decoded k g,
    bytes_fromhex signature = Ok sig_bytes ∧ 32 ≤ String.length sig_bytes ∧
    decode_tx_blob signature = Ok (Some decoded) ∧
    dict_get decoded "Account" = Some (TxJson (JStr address)) ∧
    dict_get decoded "SigningPubKey" = Some k ∧ tx_truthy k = true ∧ tx_hex k = JStr key ∧
    dict_get decoded "TxnSignature" = Some g ∧ tx_truthy g = true ∧
    signin_signature_ok decoded (JStr key) (tx_hex g) = Ok true.

(** [signature] is a signature of [challenge] with [key], the key of [address]. *)
Definition challenge_signed (address challenge signature key : string) : Prop :=
  derive_classic_address (str_upper key) = Ok address ∧
  ∃ sig_bytes, bytes_fromhex signature = Ok sig_bytes ∧
    match ed25519_key_hex (str_upper key) with
    | Some key_hex => ∃ pub_bytes, bytes_fromhex key_hex = Ok pub_bytes ∧
        String.length pub_bytes = 32 ∧ ed25519_verify pub_bytes sig_bytes challenge = Ok tt
    | None => is_valid_message challenge sig_bytes (str_upper key) = Ok true
    end.

Lemma try_verify_signin_tx_spec signature address key :
  _try_verify_signin_tx signature address = Some key ↔ signin_signed address signature key.
Proof.
  unfold _try_verify_signin_tx, signin_signed. split.
  - intros Heq. repeat case_match; simplify_eq.
    repeat match goal with
    | H : negb _ = false |- _ => apply negb_false_iff in H
    | H : String.eqb _ _ = true |- _ => apply String.eqb_eq in H; subst
    | H : _ || _ = false |- _ => apply orb_false_iff in H as [? ?]
    | H : (_ <? _)%nat = false |- _ => apply Nat.ltb_ge in H
    end.
    eexists _, _, _, _. split_and!; done.
  - intros (sb & d & k & g & -> & Hlen & -> & -> & -> & Hk & Hkey & -> & Hg & Hok).
    apply Nat.ltb_ge in Hlen as ->. rewrite String.eqb_refl, Hk, Hg. simpl.
    by rewrite Hkey, Hok.
Qed.

Lemma verify_signature_spec address challenge signature key :
  _verify_signature address challenge signature key = Ok tt ↔
  challenge_signed address challenge signature key.
Proof.
  unfold _verify_signature, challenge_signed.
  destruct (bytes_fromhex signature) as [sb|] eqn:Hsb; simpl; [|naive_solver].
  destruct (derive_classic_address _) as [a|]; simpl; [|naive_solver].
  destruct (String.eqb_spec a address) as [->|Hne]; simpl; [|naive_solver].
  destruct (ed25519_key_hex _) as [kh|].
  - destruct (bytes_fromhex kh) as [pb|ex]; simpl;
      [|split; [by destruct ex|intros (_ & ? & _ & ? & ? & _); congruence]].
    case_bool_decide; simpl;
      [|split; [done|intros (_ & ? & _ & ? & ? & ? & _); congruence]].
    destruct (ed25519_verify pb sb challenge) as [[]|ex] eqn:E; simpl.
    + split; [|done]. intros _. split; [done|]. exists sb. split; [done|]. by exists pb.
    + split; [by destruct ex|]. intros (_ & ? & ? & ? & ? & _ & ?). congruence.
  - destruct (is_valid_message _ _ _) as [[|]|] eqn:E; simpl.
    + split; [|done]. intros _. split; [done|]. by exists sb.
    + split; [done|]. intros (_ & ? & ? & ?). congruence.
    + split; [done|]. intros (_ & ? & ? & ?). congruence.
Qed.

(** What a login proof is: [verify_login_proof] accepts exactly when the
    signature is a signed transaction of the address, in which case the key is
    the one the transaction names, or, when it is not one, when the supplied
    key is not empty, is the key of the address and the signature is one of the
    challenge with it. *)
Theorem verify_login_proof_exact address challenge signature public_key key :
  verify_login_proof address challenge signature public_key = Ok key ↔
  signin_signed address signature key ∨
  (¬ ∃ k, signin_signed address signature k) ∧
    public_key = Some key ∧ key ≠ EmptyString ∧ challenge_signed address challenge signature key.
Proof.
  unfold verify_login_proof. setoid_rewrite <- try_verify_signin_tx_spec.
  rewrite <- verify_signature_spec.
  destruct (_try_verify_signin_tx signature address) as [k|].
  { split; [intros [= ->]; by left|]. intros [[= ->]|[Hn _]]; [done|]. destruct Hn. eauto. }
  destruct public_key as [[|c k]|].
  - split; [done|]. intros [?|(_ & [= <-] & ? & _)]; done.
  - destruct (_verify_signature address challenge signature (String c k)) as [[]|ex] eqn:E; simpl.
    + split; [|intros [?|(_ & [= <-] & _)]; done]. intros [= <-]. right.
      split_and!; try done. by intros [? ?].
    + split; [done|]. intros [?|(_ & [= <-] & _ & ?)]; congruence.
  - split; [done|]. intros [?|(_ & ? & _)]; done.
Qed.

(** The transaction is not tied to the challenge: once accepted, it is accepted
    for every other challenge of the address. *)
Lemma signin_ignores_challenge address challenge signature public_key key :
  _try_verify_signin_tx signature address = Some key →
  verify_login_proof address challenge signature public_key = Ok key.
Proof. unfold verify_login_proof. by intros ->. Qed.
End Proofs.

(** ** Runs *)
Section Runs.
Context {R : Type} `{!Services R, !ServicesLaws R, XrplLib}.
Context (str_len : pydict → Z) (config : XrplAuthConfig) (hostname : string).
#[local] Abbreviation reachable := (reachable (R:=R) str_len config hostname).

(** The request was answered with status 200, for the session [sid]. *)
Definition completed (sid : string) (t : request) : bool :=
  match rest t with
  | Done (Ok (status, _)) =>
      (status =? 200)%Z &&
      match login_arguments (submission t) with
      | Ok (sid', _, _) => String.eqb sid' sid
      | Raise _ => false
      end
  | _ => false
  end.

(** The request was answered with status 401 and the session [sid]. *)
Definition was_issued (sid : string) (t : request) : bool :=
  match rest t with
  | Done (Ok (status, JDict d)) => (status =? 401)%Z && json_is_str (get d "session") sid
  | _ => false
  end.

Lemma count_first P l :
  count P l = 0 ∨ ∃ pre ev post, l = pre ++ ev :: post ∧ P ev = true ∧ count P pre = 0.
Proof.
  induction l as [|x l IH]; [by left|]. simpl. destruct (P x) eqn:E.
  - right. by exists [], x, l.
  - destruct IH as [IH|(pre & ev & post & -> & ? & ?)]; [by left|].
    right. exists (x :: pre), ev, post. simpl. by rewrite E.
Qed.

Lemma inserted_event sid ev :
  inserted sid ev = true → ∃ v e, ev = Ev (InsertSession SESSION_TYPE sid v e) true.
Proof.
  destruct ev as [[] b]; try done. unfold inserted. simpl in *. destruct b; [|done].
  intros [->%String.eqb_eq ->%String.eqb_eq]%andb_true_iff. eauto.
Qed.

(** A row in the table was put there by a request that is over, and was
    answered with its session. *)
Lemma insert_done req tr q sid v e pre post :
  leads (_do_xrpl_login str_len config hostname req) tr q →
  tr = pre ++ Ev (InsertSession SESSION_TYPE sid v e) true :: post →
  ∃ cs t, v = session_json cs ∧ issued req pre cs ∧ Ev TimeMsec t ∈ pre ∧
    e = (t + challenge_ttl_ms config)%Z ∧ post = [] ∧ q = Done (Ok (issue_response sid cs)).
Proof.
  intros Hl Htr.
  destruct (always_leads _ _ _ _ _ (login_inserts str_len config hostname req) Hl _ _ _ Htr)
    as (k & (cs & t & _ & -> & Hi & Ht & -> & Hk) & Hq).
  rewrite (Hk eq_refl) in Hq. destruct Hq as [-> ->]. exists cs, t. by split_and!.
Qed.

Lemma json_is_str_refl s : json_is_str (JStr s) s = true.
Proof. simpl. apply String.eqb_refl. Qed.

Lemma inserts_once req tr q sid :
  leads (_do_xrpl_login str_len config hostname req) tr q →
  count (inserted sid) tr ≤ if was_issued sid (mkRequest req tr q) then 1 else 0.
Proof.
  intros Hl. destruct (count_first (inserted sid) tr) as [->|(pre & ev & post & Htr & Hev & Hc)];
    [lia|].
  destruct (inserted_event _ _ Hev) as (v & e & ->).
  destruct (insert_done _ _ _ _ _ _ _ _ Hl Htr) as (cs & t & -> & _ & _ & _ & -> & ->).
  unfold was_issued. simpl. rewrite String.eqb_refl. subst tr. rewrite count_snoc, Hc.
  destruct (inserted _ _); lia.
Qed.

Lemma completed_consumes req tr q sid :
  leads (_do_xrpl_login str_len config hostname req) tr q →
  (if completed sid (mkRequest req tr q) then 1 else 0) ≤ count (consumed sid) tr.
Proof.
  intros Hl. destruct (completed sid _) eqn:Hc; [|lia]. unfold completed in Hc. simpl in Hc.
  destruct q as [[[z body]|]|]; try done. apply andb_true_iff in Hc as [->%Z.eqb_eq Hc].
  apply login_path in Hl as (sid' & sg & pk & cs & link & key & user &
    [Hargs _ _ (ts & v & Hev & _) _ _ _ _ _ _]).
  rewrite Hargs in Hc. apply String.eqb_eq in Hc as ->.
  eapply count_pos; [exact Hev|]. unfold consumed. simpl. by rewrite String.eqb_refl.
Qed.

(** The number of requests that satisfy [P]. *)
Definition how_many (P : request → bool) (rs : list request) : nat :=
  sum_list ((λ t, if P t then 1 else 0) <$> rs).

Lemma sum_list_le {A} (f g : A → nat) l :
  (∀ x, x ∈ l → f x ≤ g x) → sum_list (f <$> l) ≤ sum_list (g <$> l).
Proof.
  induction l as [|x l IH]; intros Hle; simpl; [lia|].
  assert (f x ≤ g x) by (apply Hle; set_solver).
  assert (sum_list (f <$> l) ≤ sum_list (g <$> l)) by (apply IH; intros; apply Hle; set_solver).
  unfold fmap in *. lia.
Qed.

(** C35: A challenge is used at most once.  Whatever the requests and however they
    interleave, the number of requests logged in with a session is at most the
    number of times that session was handed out. *)
Theorem session_single_use (st : state R) sid :
  reachable st →
  how_many (completed sid) (requests st) ≤ how_many (was_issued sid) (requests st).
Proof.
  intros Hr%login_reachable_ok. trans (occurrences (consumed sid) (requests st)).
  - apply sum_list_le. intros [req tr q] Ht.
    apply completed_consumes, (ok_leads _ _ _ _ Hr _ Ht).
  - pose proof (ok_count _ _ _ _ Hr sid) as Hn.
    trans (occurrences (inserted sid) (requests st)); [lia|].
    apply sum_list_le. intros [req tr q] Ht. apply inserts_once, (ok_leads _ _ _ _ Hr _ Ht).
Qed.

Lemma parse_session_json cs : parse_session (session_json cs) = Ok cs.
Proof. by destruct cs as [a n ch no t [lp|] [dn|]]. Qed.

Lemma issued_mono req past past' cs : past ⊆ past' → issued req past cs → issued req past' cs.
Proof. intros Hsub []. split; auto. Qed.

(** The request behind an inserted row. *)
Lemma inserted_by (st : state R) sid v e :
  state_ok str_len config hostname st →
  happened (requests st) (Ev (InsertSession SESSION_TYPE sid v e) true) →
  ∃ issuer cs t, issuer ∈ requests st ∧ v = session_json cs ∧
    rest issuer = Done (Ok (issue_response sid cs)) ∧
    issued (submission issuer) (local issuer) cs ∧
    Ev TimeMsec t ∈ local issuer ∧ e = (t + challenge_ttl_ms config)%Z.
Proof.
  intros Hok (issuer & Hin & (pre & post & Htr)%list_elem_of_split).
  destruct (insert_done _ _ _ _ _ _ _ _ (ok_leads _ _ _ _ Hok _ Hin) Htr)
    as (cs & t & -> & Hi & Ht & -> & -> & Hrest).
  exists issuer, cs, t. rewrite Htr. split_and!; try done; [|by apply elem_of_app; left].
  eapply issued_mono; [|exact Hi]. intros ev ?. apply elem_of_app. by left.
Qed.

(** C3: Who gets logged in.  When a request was answered with status 200, the
    session it names was handed out to a request for the same address, in a
    challenge that is not expired; the account is the one the address was linked
    to, or one registered by this very request when there was no link; and the
    signature was checked: unless it is itself a signed transaction that names the
    address, it is a signature of that challenge with a key whose address is the
    address. A signed transaction is accepted with any key and for any challenge,
    so in that case the login proves no control of the address
    ([signin_accepts_any_key]). *)
Theorem login_sound (st : state R) t body :
  reachable st → t ∈ requests st → rest t = Done (Ok (200%Z, body)) →
  ∃ sid signature pk cs link key user issuer,
    logged_in config (submission t) (local t) sid signature pk cs link key user body ∧
    issuer ∈ requests st ∧ rest issuer = Done (Ok (issue_response sid cs)) ∧
    issued (submission issuer) (local issuer) cs ∧
    ((¬ ∃ k, signin_signed (cs_address cs) signature k) ∧
     challenge_signed (cs_address cs) (cs_challenge cs) signature key ∨
     signin_signed (cs_address cs) signature key).
Proof.
  intros Hok%login_reachable_ok Ht Hrest. pose proof (ok_leads _ _ _ _ Hok _ Ht) as Hl.
  rewrite Hrest in Hl.
  apply login_path in Hl as (sid & sg & pk & cs & link & key & user & Hin).
  pose proof Hin as [_ _ _ (ts & v & Hev & Hparse) _ _ Hproof _ _ _].
  destruct (ok_consumed _ _ _ _ Hok (Ev (ConsumeSession SESSION_TYPE sid ts) (Some v)) sid ts v)
    as (e & Hins & _); [by exists t|done|].
  destruct (inserted_by _ _ _ _ Hok Hins) as (issuer & cs' & t' & ? & -> & ? & ? & _ & _).
  rewrite parse_session_json in Hparse. injection Hparse as ->.
  exists sid, sg, pk, cs, link, key, user, issuer. split_and!; try done.
  apply verify_login_proof_exact in Hproof as [?|(? & _ & _ & ?)]; [by right|by left].
Qed.

Lemma startswith_app p s : startswith p (p +:+ s) = true.
Proof. induction p as [|c p IH]; simpl; [done|]. by rewrite Ascii.eqb_refl. Qed.

Lemma substring_app p a b : substring_of p (a +:+ p +:+ b) = true.
Proof.
  induction a as [|c a IH]; simpl.
  - destruct (p +:+ b) eqn:E; cbn [substring_of]; rewrite <- E, startswith_app; done.
  - rewrite IH. apply orb_true_r.
Qed.

Lemma challenge_has_nonce a t nonce ch :
  build_challenge a t nonce = Ok ch → substring_of ("nonce:" +:+ nonce) ch = true.
Proof.
  unfold build_challenge. intros Heq. apply bind_ok in Heq as (d & _ & [= <-]).
  pose proof (substring_app ("nonce:" +:+ nonce) ("textrp-briij|" +:+ d +:+ "|") ("|" +:+ a)) as Hs.
  rewrite !str_app_assoc in Hs. exact Hs.
Qed.

Lemma validate_network_supported j n : validate_network j = Ok n → n ∈ SUPPORTED_NETWORKS.
Proof.
  destruct j as [| | | |[|c s]| |]; simpl; try done. intros Heq.
  apply bind_ok in Heq as (u & Hs & [= <-]). apply raise_if_ok, negb_false_iff in Hs.
  by apply bool_decide_eq_true in Hs.
Qed.

Lemma validate_account_id_valid j a :
  validate_account_id j = Ok a → j = JStr a ∧ is_valid_classic_address a = true.
Proof.
  destruct j as [| | | |[|c s]| |]; simpl; try done. intros Heq.
  apply bind_ok in Heq as (u & Hs & [= <-]). by apply raise_if_ok, negb_false_iff in Hs.
Qed.

Lemma happened_random (st : state R) t n r :
  state_ok str_len config hostname st → t ∈ requests st → Ev (RandomString n) r ∈ local t →
  String.length r = n ∧ str_forall is_letter r = true.
Proof. intros Hok Ht Hev. apply (ok_random _ _ _ _ Hok (Ev (RandomString n) r)); [by exists t|done]. Qed.

(** C36: The session table is well typed.  In every reachable state each row of
    type [xrpl_auth] reads back as a challenge session for a valid address and a
    supported network, with a nonce of 32 letters that occurs in the challenge
    and a valid localpart, if any: the 500 errors of
    [_consume_challenge_session] and [_validate_consumed_session] for malformed
    sessions cannot occur. *)
Theorem session_rows_typed (st : state R) sid v e :
  reachable st → sessions (srv st) !! (SESSION_TYPE, sid) = Some (v, e) →
  ∃ cs, parse_session v = Ok cs ∧
    is_valid_classic_address (cs_address cs) = true ∧ cs_network cs ∈ SUPPORTED_NETWORKS ∧
    String.length (cs_nonce cs) = 32 ∧ str_forall is_letter (cs_nonce cs) = true ∧
    substring_of ("nonce:" +:+ cs_nonce cs) (cs_challenge cs) = true ∧
    (∀ lp, cs_preferred_localpart cs = Some lp → localpart_ok lp).
Proof.
  intros Hok%login_reachable_ok Hrow%(ok_rows _ _ _ _ Hok).
  destruct (inserted_by _ _ _ _ Hok Hrow) as 
    (t & cs & t' & Ht & -> & _ & [_ Haddr Hnet Hlp Hch _ Hnonce] & _ & _).
  exists cs. rewrite parse_session_json.
  destruct (happened_random _ _ _ _ Hok Ht Hnonce).
  destruct (validate_account_id_valid _ _ Haddr).
  split_and!; eauto using validate_network_supported, challenge_has_nonce.
  intros lp Hlp'. rewrite Hlp' in Hlp. by eapply resolve_ok.
Qed.
End Runs.
