(* ===== verification/WalletLoginLive.v ===== *)
(** Wallet login: an honest client gets in.

    The runs here are of one request at a time.  A client that was handed a
    challenge and signs it in time is logged in as the account its wallet is
    linked to, and the server then records the login. *)
From S2P Require Import Prelude Identifiers WalletAuth WalletAuthProps.
From S2P Require Import WalletLogin WalletLoginProps WalletLoginSystem WalletLoginSafety.
From Stdlib Require Import Ascii.

Section Live.
Context {R : Type} `{!Services R, XrplLib}.
Context (str_len : pydict → Z) (config : XrplAuthConfig) (hostname : string).

Lemma run_bind {A B} (p : prog A) (f : A → prog B) (s : server R) :
  run (prog_bind p f) s =
  match run p s with
  | (Ok x, s') => run (f x) s'
  | (Raise e, s') => (Raise e, s')
  end.
Proof.
  revert s. induction p as [[x|e]|c k IH]; intros s; simpl; [done|done|].
  destruct (handle c s) as [b s']. apply IH.
Qed.

Lemma with_world_eq {A} (f : R → A * R) (s : server R) :
  with_world f s = ((f (world s)).1, set_world (f (world s)).2 s).
Proof. unfold with_world. by destruct (f (world s)). Qed.

Lemma set_world_twice w w' (s : server R) : set_world w (set_world w' s) = set_world w s.
Proof. done. Qed.

(** A session that could be created is in the table, and nothing else changed. *)
Lemma run_create_session attempts ty v ttl (s s' : server R) sid :
  run (create_session_loop attempts ty v ttl) s = (Ok sid, s') →
  ∃ w, s' = set_sessions (<[(ty, sid) := (v, (now s + ttl)%Z)]> (sessions s)) (set_world w s) ∧
       sessions s !! (ty, sid) = None.
Proof.
  revert s. induction attempts as [|n IH]; intros s; [done|]. simpl.
  rewrite with_world_eq. simpl. set (r := (random_string 24 (world s)).1). unfold insert_session.
  simpl.
  destruct (sessions s !! (ty, r)) as [row|] eqn:E; simpl.
  - intros (w & -> & ?)%IH. by exists w.
  - intros [= <- <-]. by eexists.
Qed.

Lemma run_issue req (s s1 : server R) sid ch :
  run (_do_xrpl_login str_len config hostname req) s =
    (Ok (401%Z, JDict [("session", JStr sid); ("challenge", JStr ch)]), s1) →
  ∃ cs w, cs_challenge cs = ch ∧ cs_issued_at_ms cs = now s ∧
    enabled config = true ∧
    validate_account_id (get req "address") = Ok (cs_address cs) ∧
    validate_network (get req "network") = Ok (cs_network cs) ∧
    _resolve_requested_localpart (get req "preferred_localpart") (get req "username") =
      Ok (cs_preferred_localpart cs) ∧
    substring_of ("nonce:" +:+ cs_nonce cs) ch = true ∧
    s1 = set_sessions (<[(SESSION_TYPE, sid) := (session_json cs,
           (now s + challenge_ttl_ms config)%Z)]> (sessions s)) (set_world w s).
Proof.
  unfold _do_xrpl_login. rewrite run_bind. destruct (enabled config); simpl; [|done].
  destruct (is_initial_request req).
  2: { rewrite run_bind. destruct (run (complete_auth _ _ _ _) s) as [[u|] s']; [|done].
       simpl. rewrite with_world_eq. by destruct (complete_login _ _ _).1. }
  rewrite run_bind. unfold issue_challenge, create_session. generalize 5. intros attempts.
  destruct (validate_account_id _) as [a|] eqn:Ha; simpl; [|done].
  destruct (validate_network _) as [n|] eqn:Hn; simpl; [|done].
  destruct (_resolve_requested_localpart _ _) as [lp|] eqn:Hlp; simpl; [|done].
  destruct (_normalize_display_name _) as [dn|]; simpl; [|done].
  rewrite with_world_eq. destruct (ratelimit _ _).1 as [u|]; simpl; [|done].
  rewrite with_world_eq. simpl. set (nonce := (random_string 32 _).1).
  destruct (build_challenge a (now s) nonce) as [ch'|] eqn:Hch; simpl; [|done].
  rewrite run_bind. set (cs := mkSession a n ch' nonce (now s) lp dn).
  destruct (run (create_session_loop _ _ _ _) _) as [[sid'|] s'] eqn:Hrun; simpl; [|done].
  intros [= -> <- ->]. apply run_create_session in Hrun as (w & -> & _). exists cs, w.
  split_and!; try done. by eapply challenge_has_nonce.
Qed.

Lemma login_arguments_not_initial sub sid sg pk :
  login_arguments sub = Ok (sid, sg, pk) → is_initial_request sub = false.
Proof.
  unfold login_arguments, is_initial_request, get, dict_get_or, dict_mem.
  destruct (dict_get sub "session"); done.
Qed.

Context (Hdata : ∀ u ty v (w : R), (add_account_data u ty v w).1 = Ok tt).
Context (Hlogin : ∀ u sub (w : R), ∃ body, (complete_login u sub w).1 = Ok body).

(** The stages of [complete_auth]. *)
Lemma run_consume sid (s : server R) cs e :
  sessions s !! (SESSION_TYPE, sid) = Some (session_json cs, e) → (now s < e)%Z →
  run (_consume_challenge_session sid) s =
    (Ok cs, set_sessions (delete (SESSION_TYPE, sid) (sessions s)) s).
Proof.
  intros Hrow Hexp. unfold _consume_challenge_session. rewrite run_bind.
  cbn [run consume_session except_store_error prog_bind await handle].
  unfold _consume_session, select_session.
  rewrite Hrow. simpl. apply Z.ltb_lt in Hexp as ->. cbn -[parse_session session_json].
  by rewrite parse_session_json.
Qed.

Lemma run_validate (s : server R) cs :
  (now s <= cs_issued_at_ms cs + challenge_ttl_ms config)%Z →
  substring_of ("nonce:" +:+ cs_nonce cs) (cs_challenge cs) = true →
  run (_validate_consumed_session config cs (cs_address cs) JNull) s = (Ok tt, s).
Proof.
  intros Hfresh Hnonce. unfold _validate_consumed_session. cbn [prog_bind lift].
  rewrite !String.eqb_refl. cbn [negb raise_if prog_bind lift await run handle].
  apply Z.ltb_ge in Hfresh as ->. cbn [raise_if prog_bind lift run]. by rewrite Hnonce.
Qed.

Lemma run_add_account_data u ty v (s : server R) :
  ∃ w, run (add_account_data_for_user u ty v) s = (Ok tt, set_world w s).
Proof.
  unfold add_account_data_for_user. rewrite run_bind. cbn [run await handle].
  rewrite with_world_eq. simpl. rewrite Hdata. by eexists.
Qed.

Lemma run_record user addr net key sub (s : server R) :
  dict_mem sub "wallet_e2ee_recovery" = false →
  ∃ w, run (record_wallet str_len user addr net key sub) s =
    (Ok tt, set_world w (upsert_wallet_link addr net (mkLink user (Some key) (now s)) s)).
Proof.
  intros Hrec. unfold record_wallet. rewrite Hrec, !run_bind. cbn [run await handle].
  rewrite run_bind. cbn [run await handle]. rewrite run_bind.
  edestruct run_add_account_data as [w ->]. rewrite run_bind.
  edestruct run_add_account_data as [w' ->]. by exists w'.
Qed.

Lemma run_complete sub (s : server R) sid sg pk cs e l key :
  enabled config = true →
  login_arguments sub = Ok (sid, sg, pk) →
  validate_account_id (get sub "address") = Ok (cs_address cs) →
  get sub "network" = JNull →
  dict_mem sub "wallet_e2ee_recovery" = false →
  sessions s !! (SESSION_TYPE, sid) = Some (session_json cs, e) → (now s < e)%Z →
  (now s <= cs_issued_at_ms cs + challenge_ttl_ms config)%Z →
  substring_of ("nonce:" +:+ cs_nonce cs) (cs_challenge cs) = true →
  links s !! (cs_address cs, cs_network cs) = Some l →
  _validate_existing_wallet_link_preferences (wl_user_id l) cs = Ok tt →
  verify_login_proof (cs_address cs) (cs_challenge cs) sg (str_or pk (wl_public_key l)) = Ok key →
  ∃ body s', run (_do_xrpl_login str_len config hostname sub) s = (Ok (200%Z, body), s') ∧
    (∃ w, complete_login (wl_user_id l) sub w = (Ok body, world s')) ∧
    sessions s' = delete (SESSION_TYPE, sid) (sessions s) ∧
    links s' = <[(cs_address cs, cs_network cs) :=
                 mkLink (wl_user_id l) (Some key) (now s)]> (links s).
Proof.
  intros Hen Hargs Haddr Hnet Hrec Hrow Hexp Hfresh Hnonce Hlink Hpref Hproof.
  unfold _do_xrpl_login. rewrite Hen, (login_arguments_not_initial _ _ _ _ Hargs).
  rewrite !run_bind. cbn [run lift raise_if negb]. rewrite run_bind.
  unfold complete_auth. rewrite run_bind, Hargs. cbn [run lift].
  rewrite run_bind, Haddr. cbn [run lift].
  rewrite run_bind, (run_consume _ _ _ _ Hrow Hexp), run_bind, Hnet, run_validate by done.
  rewrite run_bind. cbn [run await handle]. unfold get_wallet_link_by_address. simpl links.
  rewrite Hlink, run_bind, Hproof. cbn [run lift].
  rewrite run_bind. unfold wallet_user. rewrite run_bind, Hpref. cbn [run lift mret prog_mret].
  rewrite run_bind. edestruct run_record as [w ->]; [done|]. cbn [run mret prog_mret].
  rewrite run_bind. cbn [run await handle]. rewrite with_world_eq.
  edestruct (Hlogin (wl_user_id l) sub) as [body Hb]. rewrite run_bind. cbn [run lift fst snd].
  rewrite Hb. do 2 eexists. split; [done|]. split; [|done]. eexists.
  rewrite (surjective_pairing (complete_login _ _ _)). by rewrite Hb.
Qed.

(** C37: An honest login succeeds, with no other request in between.  A request
    that was handed a session and a challenge for a wallet that is linked to an
    account, without asking for a name, is followed within the lifetime of the
    challenge by one for the same address with a proof that is valid for that
    challenge, that names no network and brings no recovery envelope, while
    storing account data and completing a login succeed: the answer is what
    completing the login of the linked account returns, that account stays the
    linked one, with the key of the proof, and the session is gone. *)
Theorem honest_login_completes req sub (s s1 : server R) sid ch sg pk (delay : Z) l address network key :
  run (_do_xrpl_login str_len config hostname req) s =
    (Ok (401%Z, JDict [("session", JStr sid); ("challenge", JStr ch)]), s1) →
  (0 <= delay < challenge_ttl_ms config)%Z →
  get req "preferred_localpart" = JNull → get req "username" = JNull →
  validate_account_id (get req "address") = Ok address →
  validate_network (get req "network") = Ok network →
  links s !! (address, network) = Some l →
  login_arguments sub = Ok (sid, sg, pk) →
  get sub "address" = get req "address" → get sub "network" = JNull →
  dict_mem sub "wallet_e2ee_recovery" = false →
  verify_login_proof address ch sg (str_or pk (wl_public_key l)) = Ok key →
  ∃ body s2,
    run (_do_xrpl_login str_len config hostname sub) (set_now (now s1 + delay) s1) =
      (Ok (200%Z, body), s2) ∧
    (∃ w, complete_login (wl_user_id l) sub w = (Ok body, world s2)) ∧
    sessions s2 !! (SESSION_TYPE, sid) = None ∧
    links s2 = <[(address, network) := mkLink (wl_user_id l) (Some key) (now s + delay)]> (links s).
Proof.
  intros Hissue Hdelay Hp Hu Haddr Hnet Hlink Hargs Hsa Hsn Hrec Hproof.
  apply run_issue in Hissue as
    (cs & w & <- & Hissued & Hen & Haddr' & Hnet' & Hlp & Hnonce & ->).
  rewrite Haddr in Haddr'. rewrite Hnet in Hnet'. injection Haddr' as ->. injection Hnet' as ->.
  rewrite Hp, Hu in Hlp. injection Hlp as Hlp.
  edestruct (run_complete sub) with (s := set_now (now s + delay)
      (set_sessions (<[(SESSION_TYPE, sid) := (session_json cs,
           (now s + challenge_ttl_ms config)%Z)]> (sessions s)) (set_world w s))) (cs := cs)
    as (body & s2 & Hrun & Hlog & Hs & Hl); eauto.
  - by rewrite Hsa.
  - apply lookup_insert_eq.
  - simpl. lia.
  - simpl. lia.
  - unfold _validate_existing_wallet_link_preferences. by rewrite <- Hlp.
  - exists body, s2. split_and!; [exact Hrun|exact Hlog| |exact Hl]. rewrite Hs. apply lookup_delete_eq.
Qed.
End Live.
