(* ===== verification/WalletLoginExamples.v ===== *)
(** Wallet login: concrete runs.

    A small ledger library and a small homeserver, on which the theorems on
    wallet login are applied; and two runs that show what the protocol does not
    guarantee. *)
From S2P Require Import Prelude Identifiers WalletAuth WalletAuthProps.
From S2P Require Import WalletLogin WalletLoginProps WalletLoginSystem WalletLoginSafety WalletLoginLive.
From Stdlib Require Import Ascii.

Module Example.

(** A signed transaction of [rALICE], signed with the key [MALLORY]. *)
Definition blob : string := str_repeat "0" 64.
Definition blob_tx : tx :=
  [("Account", TxJson (JStr "rALICE")); ("SigningPubKey", TxJson (JStr "MALLORY"));
   ("TxnSignature", TxJson (JStr "00"))].

(** The key [K] has the address [rK], and a signature is the message itself. *)
#[export] Instance ledger : XrplLib := {
  is_valid_classic_address a := startswith "r" a;
  derive_classic_address k := Ok (String "r" k);
  decode_tx_blob b := if String.eqb b blob then Ok (Some blob_tx) else Raise ValueError;
  encode_for_signing _ := Ok "00";
  is_valid_message message signature _ := Ok (String.eqb message signature);
  ed25519_verify _ signature message :=
    if String.eqb message signature then Ok tt else Raise SignatureVerifyException;
  str_upper := str_map ascii_upper
}.

Record accounts := mkAccounts { users : list string; seed : N }.

Definition letter (n : N) : ascii := ascii_of_N (97 + n mod 26).

#[export] Instance homeserver : Services accounts := {
  random_string n w := (str_repeat (letter (seed w)) n, mkAccounts (users w) (seed w + 1));
  ratelimit _ w := (Ok tt, w);
  check_username _ w := (Ok tt, w);
  check_user_exists u w := (Ok (if bool_decide (u ∈ users w) then Some u else None), w);
  register_user lp _ w :=
    let u := to_string SIGIL.UserID (mkDSS lp "hs") in
    if bool_decide (u ∈ users w) then (Raise (SynapseError 400 "User ID already taken." UNKNOWN), w)
    else (Ok u, mkAccounts (u :: users w) (seed w));
  add_account_data _ _ _ w := (Ok tt, w);
  complete_login u _ w := (Ok (JDict [("user_id", JStr u)]), w)
}.

Lemma letter_is_letter n : is_letter (letter n) = true.
Proof.
  unfold letter. assert (Hm : (n mod 26 < 26)%N) by by apply N.mod_lt.
  unfold is_letter, is_ascii_lower. rewrite N_ascii_embedding by lia.
  apply orb_true_iff. left. apply andb_true_iff. rewrite !N.leb_le.
  revert Hm. generalize (n mod 26)%N. intros m Hm. lia.
Qed.

#[export] Instance homeserver_laws : ServicesLaws accounts.
Proof.
  split. intros n w. simpl. pose proof (letter_is_letter (seed w)) as Hl.
  induction n as [|n [IH1 IH2]]; [done|]. cbn [str_repeat String.length str_forall].
  by rewrite IH1, Hl, IH2.
Qed.

Definition config : XrplAuthConfig := mkXrplAuthConfig true true "" "" 300 300000.
Definition start_server (l : gmap (string * string) wallet_link) : server accounts :=
  mkServer ∅ l 1700000000000 (mkAccounts [] 0).
Definition init (l : gmap (string * string) wallet_link) : state accounts :=
  mkState (start_server l) [].

Definition ask : pydict := [("address", JStr "rALICE"); ("network", JStr "XRPL")].
(** The challenge issued with the nonce of letters [c]. *)
Definition challenge (c : ascii) : string :=
  "textrp-briij|2023-11-14T22:13:20Z|nonce:" +:+ str_repeat c 32 +:+ "|rALICE".
Definition prove (c : ascii) (signature : string) : pydict :=
  [("session", JStr (str_repeat c 24)); ("address", JStr "rALICE");
   ("signature", JStr signature); ("public_key", JStr "alice")].

Definition run_schedule (l : gmap (string * string) wallet_link) (acts : list action)
    : state accounts := exec (λ _, 0%Z) config "hs" (init l) acts.

Lemma run_schedule_reachable l acts :
  reachable (λ _, 0%Z) config "hs" (run_schedule l acts).
Proof. apply exec_reachable. by split. Qed.

(** A first login, and a second attempt with the same session. *)
Definition first_login : state accounts :=
  run_schedule ∅
    (Arrive ask :: repeat (Run 0) 7 ++
     Arrive (prove "b" (bytes_hex (challenge "a"))) :: repeat (Run 1) 20 ++
     Arrive (prove "b" (bytes_hex (challenge "a"))) :: repeat (Run 2) 20).

Definition alice_body : json := JDict [("user_id", JStr "@wallet_xrpl_ralice:hs")].

Lemma session_single_use_witness :
  how_many (completed (str_repeat "b" 24)) (requests first_login) = 1 ∧
  how_many (completed (str_repeat "b" 24)) (requests first_login) ≤
  how_many (was_issued (str_repeat "b" 24)) (requests first_login).
Proof.
  split; [by_vm|]. apply (session_single_use (λ _, 0%Z) config "hs").
  apply run_schedule_reachable.
Defined.

Definition second_request : request :=
  default (mkRequest [] [] (Done (Raise ValueError))) (requests first_login !! 1).

Lemma login_sound_witness :
  ∃ sid signature pk cs link key user issuer,
    logged_in config (submission second_request) (local second_request)
      sid signature pk cs link key user alice_body ∧
    issuer ∈ requests first_login ∧ rest issuer = Done (Ok (issue_response sid cs)) ∧
    issued (submission issuer) (local issuer) cs ∧
    ((¬ ∃ k, signin_signed (cs_address cs) signature k) ∧
     challenge_signed (cs_address cs) (cs_challenge cs) signature key ∨
     signin_signed (cs_address cs) signature key).
Proof.
  apply (login_sound (λ _, 0%Z) config "hs" first_login second_request alice_body).
  - apply run_schedule_reachable.
  - apply (list_elem_of_lookup_2 _ 1). by_vm.
  - by_vm.
Defined.

(** The challenge before it is used. *)
Definition challenged : state accounts := run_schedule ∅ (Arrive ask :: repeat (Run 0) 7).

Lemma session_rows_typed_witness :
  ∃ v e, sessions (srv challenged) !! (SESSION_TYPE, str_repeat "b" 24) = Some (v, e) ∧
  ∃ cs, parse_session v = Ok cs ∧
    is_valid_classic_address (cs_address cs) = true ∧ cs_network cs ∈ SUPPORTED_NETWORKS ∧
    String.length (cs_nonce cs) = 32 ∧ str_forall is_letter (cs_nonce cs) = true ∧
    substring_of ("nonce:" +:+ cs_nonce cs) (cs_challenge cs) = true ∧
    (∀ lp, cs_preferred_localpart cs = Some lp → localpart_ok lp).
Proof.
  destruct (sessions (srv challenged) !! (SESSION_TYPE, str_repeat "b" 24)) as [[v e]|] eqn:E.
  - exists v, e. split; [done|].
    exact (session_rows_typed (λ _, 0%Z) config "hs" challenged _ v e
             (run_schedule_reachable _ _) E).
  - exfalso. revert E. vm_compute. discriminate.
Defined.

Definition linked : gmap (string * string) wallet_link :=
  {[ ("rALICE", "xrpl") := mkLink "@alice:hs" None 0 ]}.

Lemma honest_login_completes_witness :
  ∃ s1 body s2,
    run (_do_xrpl_login (λ _, 0%Z) config "hs" (prove "b" (bytes_hex (challenge "a"))))
        (set_now (now s1 + 1000) s1) = (Ok (200%Z, body), s2) ∧
    (∃ w : accounts, complete_login "@alice:hs" (prove "b" (bytes_hex (challenge "a"))) w =
       (Ok body, world s2)) ∧
    sessions s2 !! (SESSION_TYPE, str_repeat "b" 24) = None ∧
    links s2 = <[("rALICE", "xrpl") := mkLink "@alice:hs" (Some "alice") (1700000000000 + 1000)]>
                 linked.
Proof.
  eexists.
  eapply (honest_login_completes (λ _, 0%Z) config "hs") with
    (req := ask) (s := start_server linked) (ch := challenge "a")
    (sg := bytes_hex (challenge "a")) (pk := Some "alice") (delay := 1000%Z)
    (address := "rALICE") (network := "xrpl") (l := mkLink "@alice:hs" None 0) (key := "alice");
    first [ by intros | by intros; eexists | by_vm | (simpl; lia) | idtac ].
Defined.

(** ** What the protocol does not guarantee *)

(** A transaction signed with any key is accepted for any account it names: the
    key is not compared with the account, and nothing ties the transaction to
    the challenge.  Here [MALLORY]'s transaction logs in as [alice], twice, on two
    challenges, and becomes the key of the wallet. *)
Definition mallory_run : state accounts :=
  run_schedule linked
    (Arrive ask :: repeat (Run 0) 7 ++ Arrive (prove "b" blob) :: repeat (Run 1) 20 ++
     Arrive ask :: repeat (Run 2) 7 ++ Arrive (prove "d" blob) :: repeat (Run 3) 20).

Theorem signin_accepts_any_key :
  derive_classic_address "MALLORY" ≠ Ok "rALICE" ∧
  reachable (λ _, 0%Z) config "hs" mallory_run ∧
  (rest <$> requests mallory_run !! 1) =
    Some (Done (Ok (200%Z, JDict [("user_id", JStr "@alice:hs")]))) ∧
  (rest <$> requests mallory_run !! 3) =
    Some (Done (Ok (200%Z, JDict [("user_id", JStr "@alice:hs")]))) ∧
  wl_public_key <$> links (srv mallory_run) !! ("rALICE", "xrpl") = Some (Some "MALLORY").
Proof. split_and!; [done|apply run_schedule_reachable|by_vm|by_vm|by_vm]. Qed.

(** Two first logins of one wallet at the same time: both find no link, each
    registers an account, and the link keeps only the second. *)
Definition racing_logins : state accounts :=
  run_schedule ∅
    (Arrive ask :: repeat (Run 0) 7 ++ Arrive ask :: repeat (Run 1) 7 ++
     Arrive (prove "b" (bytes_hex (challenge "a"))) ::
     Arrive (prove "d" (bytes_hex (challenge "c"))) ::
     repeat (Run 2) 4 ++ repeat (Run 3) 4 ++ repeat (Run 2) 20 ++ repeat (Run 3) 20).

Theorem concurrent_first_logins_split_wallet :
  reachable (λ _, 0%Z) config "hs" racing_logins ∧
  (rest <$> requests racing_logins !! 2) =
    Some (Done (Ok (200%Z, JDict [("user_id", JStr "@wallet_xrpl_ralice:hs")]))) ∧
  (rest <$> requests racing_logins !! 3) =
    Some (Done (Ok (200%Z, JDict [("user_id", JStr "@wallet_xrpl_ralice_2:hs")]))) ∧
  wl_user_id <$> links (srv racing_logins) !! ("rALICE", "xrpl") = Some "@wallet_xrpl_ralice_2:hs".
Proof. split_and!; [apply run_schedule_reachable|by_vm|by_vm|by_vm]. Qed.
End Example.
