(* ===== verification/TopoSort.v ===== *)
(** [lexicographical_topological_sort] of [textrp_briij/state/v2.py].

    The graph maps each node to the set of nodes it references.  The heap holds
    the pairs [(key(node), node)]; it is modelled by the list of its nodes and
    the order [le] of those pairs, and [heappop] takes a least one. *)
From S2P Require Import Prelude.

Abbreviation graph := (gmap string (gset string)).

Section Kahn.
Context (le : string → string → bool).

(** [heapq.heappop]: a least element, and the others. *)
Fixpoint pop_min (x : string) (heap : list string) : string * list string :=
  match heap with
  | [] => (x, [])
  | y :: heap' =>
      if le x y then let '(m, r) := pop_min x heap' in (m, y :: r)
      else let '(m, r) := pop_min y heap' in (m, x :: r)
  end.

(** [reverse_graph]: for each node, the nodes that reference it. *)
Definition referrers (g : graph) (n : string) : gset string :=
  dom (filter (λ kv, n ∈ kv.2) g).

Definition reverse_graph (g : graph) : graph :=
  set_to_map (λ n, (n, referrers g n)) (dom g ∪ ⋃ (map_to_list g).*2).

(** The nodes with no outgoing edges. *)
Definition zero_outdegree (g : graph) : list string :=
  (filter (λ kv : string * gset string, kv.2 = ∅) (map_to_list g)).*1.

(** The inner loop: one parent of the node that was output. *)
Definition discard_edge (node : string) (st : graph * list string) (parent : string)
    : result (graph * list string) :=
  let '(outdegree_map, heap) := st in
  out ← of_option (outdegree_map !! parent) KeyError;
  let out := out ∖ {[node]} in
  Ok (<[parent := out]> outdegree_map, if decide (out = ∅) then parent :: heap else heap).

(** The [while] loop, which outputs one node per turn. [None]: out of fuel. *)
Fixpoint kahn_loop (fuel : nat) (rev outdegree_map : graph) (heap : list string)
    : option (result (list string)) :=
  match heap with
  | [] => Some (Ok [])
  | x :: heap' =>
      match fuel with
      | 0 => None
      | S fuel =>
          let '(node, heap) := pop_min x heap' in
          match
            (parents ← of_option (rev !! node) KeyError;
             fold_res (discard_edge node) (elements (parents : gset string)) (outdegree_map, heap))
          with
          | Raise e => Some (Raise e)
          | Ok (outdegree_map, heap) =>
              rest ← kahn_loop fuel rev outdegree_map heap;
              Some (match rest with Ok l => Ok (node :: l) | Raise e => Raise e end)
          end
      end
  end.

(** Every node is output at most once, so the number of nodes is fuel enough. *)
Definition lexicographical_topological_sort (g : graph) : option (result (list string)) :=
  kahn_loop (size g) (reverse_graph g) g (zero_outdegree g).

(** * Correctness *)

(** The nodes whose references have all been output. *)
Definition ready (g : graph) (done : list string) (n : string) : Prop :=
  n ∉ done ∧ ∃ es, g !! n = Some es ∧ ∀ x, x ∈ es → x ∈ done.

(** What the loop knows after the output [done]. *)
Record kahn_inv (g : graph) (done : list string) (outdegree_map : graph) (heap : list string)
    : Prop := {
  ki_out : ∀ n, outdegree_map !! n = (λ es, es ∖ list_to_set done) <$> g !! n;
  ki_heap : ∀ n, n ∈ heap ↔ ready g done n;
  ki_nodup : NoDup heap;
  ki_done : NoDup done;
  ki_closed : ∀ n, n ∈ done → ∃ es, g !! n = Some es ∧ ∀ x, x ∈ es → x ∈ done
}.

Context (le_total : ∀ x y, le x y = true ∨ le y x = true).
Context (le_trans : ∀ x y z, le x y = true → le y z = true → le x z = true).

Lemma pop_min_spec x heap m r :
  pop_min x heap = (m, r) →
  x :: heap ≡ₚ m :: r ∧ ∀ y, y ∈ x :: heap → le m y = true.
Proof.
  assert (∀ z, le z z = true) as le_refl by (intros z; destruct (le_total z z); done).
  revert x m r. induction heap as [|y heap IH]; intros x m r; simpl.
  - intros [= <- <-]. split; [done|]. intros y Hy%list_elem_of_singleton. by subst.
  - destruct (le x y) eqn:Hxy.
    + destruct (pop_min x heap) as [m' r'] eqn:Hp. intros [= <- <-].
      destruct (IH _ _ _ Hp) as [Hperm Hmin]. split.
      { etrans; [apply Permutation_swap|]. rewrite Hperm. apply Permutation_swap. }
      intros z [->|[->|Hz]%elem_of_cons]%elem_of_cons;
        [apply Hmin; left|eapply le_trans; [apply Hmin; left|done]|apply Hmin; by right].
    + assert (le y x = true) as Hyx by (destruct (le_total x y); congruence).
      destruct (pop_min y heap) as [m' r'] eqn:Hp. intros [= <- <-].
      destruct (IH _ _ _ Hp) as [Hperm Hmin]. split.
      { rewrite Hperm. apply Permutation_swap. }
      intros z [->|[->|Hz]%elem_of_cons]%elem_of_cons;
        [eapply le_trans; [apply Hmin; left|done]|apply Hmin; left|apply Hmin; by right].
Qed.

Lemma elem_of_referrers g n p : p ∈ referrers g n ↔ ∃ es, g !! p = Some es ∧ n ∈ es.
Proof.
  unfold referrers. rewrite elem_of_dom. split.
  - intros [es [? ?]%map_lookup_filter_Some]. eauto.
  - intros (es & ? & ?). exists es. by apply map_lookup_filter_Some.
Qed.

Lemma reverse_graph_lookup g n : is_Some (g !! n) → reverse_graph g !! n = Some (referrers g n).
Proof.
  intros Hn. unfold reverse_graph. apply lookup_set_to_map.
  - intros ?? _ _ ?; simpl in *; congruence.
  - exists n. split; [|done]. apply elem_of_union. left. by apply elem_of_dom.
Qed.

(** The inner loop removes [node] from every parent, and pushes the parents it
    was the last reference of. *)
Lemma discard_edges_ok node ps out heap :
  NoDup ps → (∀ p, p ∈ ps → is_Some (out !! p)) →
  ∃ out' heap', fold_res (discard_edge node) ps (out, heap) = Ok (out', heap') ∧
    (∀ n, out' !! n = if decide (n ∈ ps) then (λ es, es ∖ {[node]}) <$> out !! n else out !! n) ∧
    (∃ new, heap' = new ++ heap ∧ NoDup new ∧
       ∀ n, n ∈ new ↔ n ∈ ps ∧ ∃ es, out !! n = Some es ∧ es ∖ {[node]} = ∅).
Proof.
  revert out heap. induction ps as [|p ps IH]; intros out heap Hnd Hsome.
  - exists out, heap. split_and!; [done|done|]. exists []. split_and!; [done|constructor|set_solver].
  - apply NoDup_cons in Hnd as [Hp Hnd]. destruct (Hsome p ltac:(left)) as [es Hes].
    simpl. rewrite Hes. simpl.
    destruct (IH (<[p := es ∖ {[node]}]> out)
      (if decide (es ∖ {[node]} = ∅) then p :: heap else heap)) as (out' & heap' & Hf & Hout & new & Hh & Hnew & Hin).
    { done. }
    { intros q Hq. rewrite lookup_insert_ne by set_solver. apply Hsome. by right. }
    exists out', heap'. split_and!; [done| |].
    + intros n. rewrite Hout. destruct (decide (n = p)) as [->|Hne].
      * rewrite (decide_False (P := p ∈ ps)), (decide_True (P := p ∈ p :: ps)) by set_solver.
        by rewrite lookup_insert_eq, Hes.
      * rewrite lookup_insert_ne by done.
        destruct (decide (n ∈ ps)), (decide (n ∈ p :: ps)); try done; set_solver.
    + exists (new ++ if decide (es ∖ {[node]} = ∅) then [p] else []). split_and!.
      * rewrite Hh. case_decide; by rewrite <- app_assoc.
      * apply NoDup_app. split_and!; [done| |case_decide; [apply NoDup_singleton|constructor]].
        intros n [Hn _]%Hin. case_decide; set_solver.
      * intros n. rewrite elem_of_app, Hin. destruct (decide (n = p)) as [->|Hne].
        -- rewrite lookup_insert_eq. case_decide; set_solver.
        -- rewrite lookup_insert_ne by done. case_decide; set_solver.
Qed.

(** ** Abstract specification

    A sort after the output [done]: output a least node among the ready ones
    until there is none. *)
Inductive lex_topo (g : graph) : list string → list string → Prop :=
  | lex_topo_nil done : (∀ m, ¬ ready g done m) → lex_topo g done []
  | lex_topo_cons done n l :
      ready g done n → (∀ m, ready g done m → le n m = true) →
      lex_topo g (done ++ [n]) l → lex_topo g done (n :: l).

Lemma kahn_inv_step g done out x heap0 node heap :
  kahn_inv g done out (x :: heap0) → pop_min x heap0 = (node, heap) →
  ready g done node ∧ (∀ m, ready g done m → le node m = true) ∧
  ∃ out' heap',
    fold_res (discard_edge node) (elements (referrers g node)) (out, heap) = Ok (out', heap') ∧
    kahn_inv g (done ++ [node]) out' heap'.
Proof.
  intros [Hout Hheap Hnd Hdnd Hclosed] [Hperm Hmin]%pop_min_spec.
  assert (ready g done node) as Hready by (apply Hheap; rewrite Hperm; left).
  split; [done|]. split; [intros m Hm; apply Hmin; by apply Hheap|].
  destruct Hready as (Hnew & es0 & Hg & Hes0).
  destruct (discard_edges_ok node (elements (referrers g node)) out heap)
    as (out' & heap' & Hf & Hout' & new & -> & Hnnd & Hnin).
  { apply NoDup_elements. }
  { intros p Hp%elem_of_elements%elem_of_referrers. destruct Hp as (es & Hp & _).
    rewrite Hout, Hp. by eexists. }
  exists out', (new ++ heap). split; [done|].
  rewrite Hperm in Hnd. apply NoDup_cons in Hnd as [Hnh Hnd].
  assert (∀ n, n ∈ heap ↔ n ≠ node ∧ ready g done n) as Hh.
  { intros n. rewrite <- Hheap, Hperm, elem_of_cons. naive_solver. }
  assert (∀ n, n ∈ new ↔ ∃ es, g !! n = Some es ∧ node ∈ es ∧ ∀ y, y ∈ es → y ∈ done ++ [node]) as Hn1.
  { intros n. rewrite Hnin, elem_of_elements, elem_of_referrers, Hout.
    assert (∀ es : gset string, es ∖ list_to_set done ∖ {[node]} = ∅ ↔
            ∀ y, y ∈ es → y ∈ done ++ [node]) as Hemp.
    { intros es. rewrite elem_of_equiv_empty_L. setoid_rewrite elem_of_difference.
      setoid_rewrite elem_of_difference. setoid_rewrite elem_of_list_to_set.
      setoid_rewrite elem_of_app. setoid_rewrite elem_of_singleton. setoid_rewrite list_elem_of_singleton.
      split; [|naive_solver]. intros H y Hy. destruct (decide (y ∈ done)); [by left|].
      destruct (decide (y = node)); [by right|]. by destruct (H y). }
    destruct (g !! n) as [es|]; simpl; [|naive_solver]. setoid_rewrite <- Hemp. naive_solver. }
  split.
  - intros n. rewrite Hout', Hout. case_decide as Hn; destruct (g !! n) as [es|] eqn:Hgn; simpl; try done.
    + f_equal. rewrite list_to_set_app_L. set_solver.
    + f_equal. rewrite list_to_set_app_L. assert (node ∉ es); [|set_solver]. intros Hin. apply Hn.
      apply elem_of_elements, elem_of_referrers. eauto.
  - intros n. rewrite elem_of_app, Hh, Hn1. unfold ready. rewrite elem_of_app, list_elem_of_singleton. split.
    + intros [(es & He & Hin & Hall)|(Hne & Hnd' & es & He & Hall)].
      * split; [|by eauto]. intros [Hd| ->].
        -- destruct (Hclosed n Hd) as (es' & He' & Hcl). simplify_eq. by apply Hnew, Hcl.
        -- simplify_eq. by apply Hnew, Hes0.
      * split; [tauto|]. exists es. split; [done|]. intros y Hy. apply elem_of_app. left. auto.
    + intros [Hno (es & He & Hall)]. destruct (decide (node ∈ es)); [left; eauto|]. right.
      split; [tauto|]. split; [tauto|]. exists es. split; [done|]. intros y Hy.
      apply Hall in Hy as Hy'. apply elem_of_app in Hy' as [?| ->%list_elem_of_singleton]; done.
  - apply NoDup_app. split_and!; [done| |done]. intros n (es & He & Hin & _)%Hn1 [_ Hr]%Hh.
    destruct Hr as (_ & es' & He' & Hall). simplify_eq. by apply Hnew, Hall.
  - apply NoDup_app. split_and!; [done| |apply NoDup_singleton].
    intros n Hn ->%list_elem_of_singleton. done.
  - intros n [Hn| ->%list_elem_of_singleton]%elem_of_app.
    + destruct (Hclosed n Hn) as (es & He & Hcl). exists es. split; [done|].
      intros y Hy. apply elem_of_app. left. auto.
    + exists es0. split; [done|]. intros y Hy. apply elem_of_app. left. auto.
Qed.

Lemma kahn_loop_ok fuel g output out heap :
  kahn_inv g output out heap → size g ≤ fuel + length output →
  ∃ l, kahn_loop fuel (reverse_graph g) out heap = Some (Ok l) ∧ lex_topo g output l.
Proof.
  revert output out heap. induction fuel as [|fuel IH]; intros output out [|x heap0] Hinv Hfuel.
  1, 3: exists []; split; [done|]; constructor; intros m Hm; apply (ki_heap _ _ _ _ Hinv) in Hm;
      by apply not_elem_of_nil in Hm.
  - exfalso. assert (ready g output x) as (Hx & es & Hg & _) by (apply (ki_heap _ _ _ _ Hinv); left).
    assert (length (x :: output) ≤ length (elements (dom g))) as Hle.
    { apply submseteq_length, NoDup_submseteq.
      - apply NoDup_cons. split; [done|apply Hinv].
      - intros y [->|Hy]%elem_of_cons; apply elem_of_elements, elem_of_dom; [by exists es|].
        destruct (ki_closed _ _ _ _ Hinv y Hy) as (es' & ? & _). by exists es'. }
    rewrite <- size_dom in Hfuel. unfold size, set_size in Hfuel. simpl in *. lia.
  - simpl. destruct (pop_min x heap0) as [node heap] eqn:Hp.
    destruct (kahn_inv_step _ _ _ _ _ _ _ Hinv Hp) as (Hr & Hmin & out' & heap' & Hf & Hinv').
    rewrite reverse_graph_lookup by (destruct Hr as (_ & es & ? & _); by exists es). simpl.
    rewrite Hf. destruct (IH _ _ _ Hinv') as (l & Hl & Hlex).
    { rewrite length_app. simpl. lia. }
    rewrite Hl. simpl. exists (node :: l). split; [done|]. by constructor.
Qed.

Lemma kahn_inv_init g : kahn_inv g [] g (zero_outdegree g).
Proof using Type.
  clear le le_total le_trans.
  assert (∀ n, n ∈ zero_outdegree g ↔ g !! n = Some ∅) as Hz.
  { intros n. unfold zero_outdegree. rewrite list_elem_of_fmap. split.
    - intros ([n' es] & -> & [Hes Hin]%list_elem_of_filter). simpl in *. subst.
      by apply elem_of_map_to_list.
    - intros Hn. exists (n, ∅). split; [done|]. apply list_elem_of_filter.
      split; [done|]. by apply elem_of_map_to_list. }
  split.
  - intros n. destruct (g !! n) as [es|]; simpl; [|done]. f_equal. set_solver.
  - intros n. rewrite Hz. unfold ready. split.
    + intros Hn. split; [apply not_elem_of_nil|]. exists ∅. set_solver.
    + intros (_ & es & Hn & Hes). rewrite Hn. f_equal. apply elem_of_equiv_empty_L.
      intros x Hx. by apply Hes, not_elem_of_nil in Hx.
  - unfold zero_outdegree. apply (sublist_NoDup _ ((map_to_list g).*1)); [apply NoDup_fst_map_to_list|].
    apply fmap_sublist, sublist_filter.
  - constructor.
  - by intros n []%not_elem_of_nil.
Qed.

(** ** Consequences of the specification *)
Lemma lex_topo_order g done l :
  lex_topo g done l → NoDup done →
  NoDup (done ++ l) ∧
  (∀ n, n ∈ l → is_Some (g !! n)) ∧
  (∀ l1 n l2, l = l1 ++ n :: l2 → ∃ es, g !! n = Some es ∧ ∀ x, x ∈ es → x ∈ done ++ l1) ∧
  (∀ m, ¬ ready g (done ++ l) m).
Proof.
  induction 1 as [done Hno|done n l (Hn & es & Hg & Hes) Hmin Hl IH]; intros Hnd.
  - rewrite app_nil_r. split_and!; [done|by intros n []%not_elem_of_nil| |done].
    intros [|??] ?? ?; simplify_eq.
  - destruct IH as (IH1 & IH2 & IH3 & IH4).
    { apply NoDup_app. split_and!; [done| |apply NoDup_singleton].
      intros y Hy ->%list_elem_of_singleton. done. }
    rewrite <- app_assoc in IH1, IH4. simpl in IH1, IH4. split_and!; [done| | |done].
    + intros y [->|Hy]%elem_of_cons; [by exists es|by apply IH2].
    + intros [|y l1] n' l2 Heq; simplify_eq/=.
      * exists es. split; [done|]. intros x Hx. rewrite app_nil_r. auto.
      * destruct (IH3 l1 n' l2 eq_refl) as (es' & ? & Hx). exists es'. split; [done|].
        intros x Hxx. specialize (Hx x Hxx). rewrite <- app_assoc in Hx. done.
Qed.

(** Each node is a least one of those that were ready when it was output. *)
Lemma lex_topo_least g done l l1 n l2 :
  lex_topo g done l → l = l1 ++ n :: l2 → ∀ m, ready g (done ++ l1) m → le n m = true.
Proof.
  intros Hl. revert l1. induction Hl as [|done n' l Hn Hmin Hl IH]; intros [|y l1] Heq; simplify_eq/=.
  - by rewrite app_nil_r.
  - replace (done ++ y :: l1) with ((done ++ [y]) ++ l1) by (by rewrite <- app_assoc). by apply IH.
Qed.

(** The graph is closed under references and has no cycles: [rank] decreases
    along every edge. *)
Definition acyclic (g : graph) (rank : string → nat) : Prop :=
  ∀ n es x, g !! n = Some es → x ∈ es → is_Some (g !! x) ∧ rank x < rank n.

Lemma lex_topo_complete g rank l :
  acyclic g rank → lex_topo g [] l → ∀ n, n ∈ l ↔ is_Some (g !! n).
Proof.
  intros Hac Hl. destruct (lex_topo_order _ _ _ Hl ltac:(constructor)) as (_ & Hin & _ & Hno).
  simpl in Hno. intros n. split; [apply Hin|].
  remember (rank n) as r eqn:Hr. revert n Hr.
  induction (lt_wf r) as [r _ IH]. intros n -> [es Hn].
  destruct (decide (n ∈ l)) as [|Hni]; [done|]. destruct (Hno n). split; [done|].
  exists es. split; [done|]. intros x Hx. destruct (Hac n es x Hn Hx) as [Hsx Hlt].
  by apply (IH (rank x)).
Qed.

(** With an antisymmetric order the sort is unique, so it does not depend on the
    order in which the dictionaries and sets are iterated. *)
Lemma lex_topo_unique g output l l' :
  (∀ x y, le x y = true → le y x = true → x = y) →
  lex_topo g output l → lex_topo g output l' → l = l'.
Proof.
  intros Hanti Hl. revert l'. induction Hl as [output Hno|output n l Hn Hmin Hl IH]; intros l' Hl'.
  - inversion Hl' as [|? m ? Hm]; subst; [done|]. by destruct (Hno m).
  - inversion Hl' as [? Hno|? m l1 Hm Hmin' Hl1]; subst; [by destruct (Hno n)|].
    assert (n = m) as -> by (apply Hanti; auto). f_equal. by apply IH.
Qed.
End Kahn.

(** C10: the sort at the heart of state resolution.  On every graph the loop ends
    within its fuel and raises nothing; it outputs no node twice, and every node
    after all the nodes it references; at each step it outputs a least one of
    the nodes that are ready.  On a graph that is closed under references and
    acyclic it outputs every node, and if the heap order is antisymmetric the
    result is the only list with these properties. *)
Theorem lexicographical_topological_sort_correct (le : string → string → bool) (g : graph) :
  (∀ x y, le x y = true ∨ le y x = true) →
  (∀ x y z, le x y = true → le y z = true → le x z = true) →
  ∃ l, lexicographical_topological_sort le g = Some (Ok l) ∧ lex_topo le g [] l ∧ NoDup l ∧
    (∀ l1 n l2, l = l1 ++ n :: l2 → ∃ es, g !! n = Some es ∧ ∀ x, x ∈ es → x ∈ l1) ∧
    (∀ rank, acyclic g rank → l ≡ₚ elements (dom g)) ∧
    ((∀ x y, le x y = true → le y x = true → x = y) → ∀ l', lex_topo le g [] l' → l' = l).
Proof.
  intros Htot Htrans. unfold lexicographical_topological_sort.
  destruct (kahn_loop_ok le Htot Htrans (size g) g [] g (zero_outdegree g)) as (l & Hl & Hlex).
  { by apply kahn_inv_init. }
  { simpl. lia. }
  destruct (lex_topo_order le g [] l Hlex ltac:(constructor)) as (Hnd & _ & Hord & _).
  exists l. split_and!; [done..| |].
  - intros rank Hac. apply NoDup_Permutation; [done|apply NoDup_elements|].
    intros n. by rewrite (lex_topo_complete le g rank), elem_of_elements, elem_of_dom.
  - intros Hanti l' Hl'. by eapply lex_topo_unique.
Qed.

Lemma lexicographical_topological_sort_correct_witness :
  ∃ l, lexicographical_topological_sort String.leb {[ "b" := {["a"]}; "a" := ∅; "c" := {["a"]} ]} =
    Some (Ok l) ∧ NoDup l.
Proof.
  destruct (lexicographical_topological_sort_correct String.leb
    {[ "b" := {["a"]}; "a" := ∅; "c" := {["a"]} ]}) as (l & Hl & _ & Hnd & _).
  - intros x y. destruct (String.leb_total x y); [left|right]; assumption.
  - exact string_leb_trans.
  - exists l. exact (conj Hl Hnd).
Defined.
