(* ===== verification/StateRes.v ===== *)
(** State resolution v2 and v2.1: [textrp_briij/state/v2.py].

    The functions share the dictionary [event_map], which [_get_event] fills from
    the store as it goes; they are written in a monad that threads it. The
    awaits that only yield to the reactor are left out. *)
From S2P Require Import Prelude RoomVersions Identifiers Events EventAuth TopoSort.

(** ** The monad: state [event_map], exceptions, and fuel

    [None] means that a loop ran out of fuel. *)
Definition M (A : Type) : Type := gmap string event → option (result (A * gmap string event)).

#[export] Instance M_ret : MRet M := λ A x em, Some (Ok (x, em)).
#[export] Instance M_bind : MBind M := λ A B f m em,
  match m em with
  | None => None
  | Some (Raise e) => Some (Raise e)
  | Some (Ok (x, em')) => f x em'
  end.

Definition m_lift {A} (r : result A) : M A := λ em,
  Some (match r with Ok x => Ok (x, em) | Raise e => Raise e end).
Definition m_raise {A} (e : exn) : M A := λ _, Some (Raise e).
Definition m_get : M (gmap string event) := λ em, Some (Ok (em, em)).
Definition m_put (em : gmap string event) : M unit := λ _, Some (Ok (tt, em)).
Definition out_of_fuel {A} : M A := λ _, None.

Fixpoint m_fold {A S} (f : S → A → M S) (l : list A) (s : S) : M S :=
  match l with
  | [] => mret s
  | x :: l' => s' ← f s x; m_fold f l' s'
  end.

(** ** Separating the state *)
Definition event_ids_at (state_sets : list (StateMap string)) (key : StateKey)
    : gset (option string) :=
  list_to_set ((λ s : StateMap string, s !! key) <$> state_sets).

Definition all_keys (state_sets : list (StateMap string)) : gset StateKey :=
  ⋃ ((λ s : StateMap string, dom s) <$> state_sets).

Definition unconflicted_at (state_sets : list (StateMap string)) (key : StateKey) : option string :=
  match elements (event_ids_at state_sets key) with
  | [event_id] => event_id
  | _ => None
  end.

Definition conflicted_at (state_sets : list (StateMap string)) (key : StateKey)
    : option (gset string) :=
  let event_ids := event_ids_at state_sets key in
  if decide (size event_ids = 1) then None
  else Some (list_to_set (omap id (elements event_ids))).

Definition _seperate (state_sets : list (StateMap string))
    : StateMap string * StateMap (gset string) :=
  let keys := elements (all_keys state_sets) in
  (list_to_map (omap (λ k, (λ v, (k, v)) <$> unconflicted_at state_sets k) keys),
   list_to_map (omap (λ k, (λ v, (k, v)) <$> conflicted_at state_sets k) keys)).

(** ** Events *)

(** [(ev.type, ev.state_key) == key] *)
Definition is_at (ev : event) (key : StateKey) : result bool :=
  sk ← state_key ev;
  Ok (bool_decide ((ev_type ev, sk) = key)).

Definition POWER_KEY : StateKey := (EventTypes.PowerLevels, "").
Definition JOIN_RULES_KEY : StateKey := (EventTypes.JoinRules, "").

Definition _is_power_event (e : event) : result bool :=
  sk ← state_key e;
  if bool_decide ((ev_type e, sk) ∈ [POWER_KEY; JOIN_RULES_KEY; CREATE_KEY]) then Ok true
  else if String.eqb (ev_type e) EventTypes.Member then
    ms ← membership e;
    Ok ((json_is_str ms "leave" || json_is_str ms "ban") && negb (String.eqb (ev_sender e) sk))
  else Ok false.

Section StateRes.
Context (valid_ipv6 : string → bool).
Context (verify_signed_json : pydict → string → string → json → result unit).
(** [state_res_store.get_events(ids, allow_rejected=True)] *)
Context (get_events : list string → gmap string event).

Definition get_event_opt (rid event_id : string) : M (option event) :=
  em ← m_get;
  _ ← (if decide (em !! event_id = None) then m_put (get_events [event_id] ∪ em) else mret tt);
  em ← m_get;
  match em !! event_id with
  | None => mret None
  | Some e =>
      r ← m_lift (room_id e);
      if String.eqb r rid then mret (Some e)
      else m_raise (PyException "In state res for room %s, event %s is in %s")
  end.

(** [_get_event] without [allow_none]. *)
Definition _get_event (rid event_id : string) : M event :=
  e ← get_event_opt rid event_id;
  match e with
  | Some e => mret e
  | None => m_raise (PyException "Unknown event %s")
  end.

(** The first auth event at [key], in the order of the list. *)
Fixpoint find_auth_event (rid : string) (key : StateKey) (auth_ids : list string)
    : M (option (string * event)) :=
  match auth_ids with
  | [] => mret None
  | aid :: rest =>
      aev ← get_event_opt rid aid;
      match aev with
      | None => find_auth_event rid key rest
      | Some aev =>
          here ← m_lift (is_at aev key);
          if (here : bool) then mret (Some (aid, aev)) else find_auth_event rid key rest
      end
  end.

(** The first loop of [_get_power_level_for_sender]: the last power levels and
    create events among the auth events. *)
Definition find_pl_and_create (rid : string) (auth_ids : list string)
    : M (option event * option event) :=
  m_fold (λ '(pl, create) aid,
    aev ← get_event_opt rid aid;
    match aev with
    | None => mret (pl, create)
    | Some aev =>
        is_pl ← m_lift (is_at aev POWER_KEY);
        is_create ← m_lift (is_at aev CREATE_KEY);
        mret (if (is_pl : bool) then Some aev else pl,
              if (is_create : bool) then Some aev else create)
    end) auth_ids (None, None).

(** The level the power levels event gives [sender]. *)
Definition level_from_pl (pl : event) (sender : string) : result Z :=
  users ← mapping_of (dict_get_or (ev_content pl) "users" (JDict []));
  match dict_get_none users sender with
  | Some level => py_int level
  | None =>
      match dict_get_or (ev_content pl) "users_default" (JInt 0) with
      | JNull => Ok 0%Z
      | level => py_int level
      end
  end.

(** Without a power levels event: 100 for the creator of the room. *)
Definition creator_default_level (rid : string) (auth_ids : list string) (e : event) : M Z :=
  found ← find_auth_event rid CREATE_KEY auth_ids;
  match found with
  | None => mret 0%Z
  | Some (_, aev) =>
      let creator :=
        if implicit_room_creator (ev_room_version e) then JStr (ev_sender aev)
        else dict_get_or (ev_content aev) "creator" JNull in
      mret (if json_is_str creator (ev_sender e) then 100 else 0)%Z
  end.

Definition _get_power_level_for_sender (rid event_id : string) : M Z :=
  e ← _get_event rid event_id;
  auth_ids ← m_lift (auth_event_ids e);
  '(pl, create) ← find_pl_and_create rid auth_ids;
  _ ← m_lift (raise_if (negb (String.eqb (ev_type e) EventTypes.Create) &&
                        bool_decide ((create : option event) = None)) AssertionError);
  creator_power ←
    match create with
    | Some c =>
        if msc4289_creator_power_enabled (ev_room_version c)
        then m_lift (is_creator c (ev_sender e)) else mret false
    | None => mret false
    end;
  if (creator_power : bool) then mret CREATOR_POWER_LEVEL
  else
    match pl with
    | Some pl => m_lift (level_from_pl pl (ev_sender e))
    | None => creator_default_level rid auth_ids e
    end.

(** ** Reverse topological power ordering *)

(** [graph.setdefault(n, set())] *)
Definition graph_touch (g : graph) (n : string) : graph :=
  match g !! n with Some _ => g | None => <[n := ∅]> g end.
Definition graph_add (g : graph) (n x : string) : graph :=
  <[n := {[x]} ∪ default ∅ (g !! n)]> g.

(** The inner loop over the auth events of [eid]; the stack grows at its head. *)
Definition add_auth_edges (full_conflicted_set : gset string) (eid : string)
    (auth_ids : list string) (st : graph * list string) : graph * list string :=
  foldl (λ '(g, stack) aid,
    if decide (aid ∈ full_conflicted_set)
    then (graph_add g eid aid, if decide (g !! aid = None) then aid :: stack else stack)
    else (g, stack)) st auth_ids.

Fixpoint add_chain_loop (fuel : nat) (rid : string) (full_conflicted_set : gset string)
    (g : graph) (stack : list string) : M graph :=
  match stack with
  | [] => mret g
  | eid :: stack =>
      match fuel with
      | 0 => out_of_fuel
      | S fuel =>
          e ← _get_event rid eid;
          auth_ids ← m_lift (auth_event_ids e);
          let '(g, stack) :=
            add_auth_edges full_conflicted_set eid auth_ids (graph_touch g eid, stack) in
          add_chain_loop fuel rid full_conflicted_set g stack
      end
  end.

Definition _add_event_and_auth_chain_to_graph (fuel : nat) (rid : string)
    (full_conflicted_set : gset string) (g : graph) (event_id : string) : M graph :=
  add_chain_loop fuel rid full_conflicted_set g [event_id].

(** Order on the sort keys: [-power_level], [origin_server_ts], [event_id]. *)
Definition key_le (a b : Z * Z * string) : bool :=
  let '(a1, a2, a3) := a in
  let '(b1, b2, b3) := b in
  if (a1 <? b1)%Z then true else if (b1 <? a1)%Z then false
  else if (a2 <? b2)%Z then true else if (b2 <? a2)%Z then false
  else String.leb a3 b3.

Definition _get_power_order (em : gmap string event) (event_to_pl : gmap string Z) (event_id : string)
    : Z * Z * string :=
  (- default 0 (event_to_pl !! event_id),
   default 0 (ev_origin_server_ts <$> em !! event_id), event_id)%Z.

Definition _reverse_topological_power_sort (fuel : nat) (rid : string) (event_ids : list string)
    (full_conflicted_set : gset string) : M (list string) :=
  g ← m_fold (_add_event_and_auth_chain_to_graph fuel rid full_conflicted_set) event_ids ∅;
  event_to_pl ← m_fold (λ pls event_id,
      pl ← _get_power_level_for_sender rid event_id;
      mret (<[event_id := pl]> pls)) (map_to_list (g : graph)).*1 (∅ : gmap string Z);
  em ← m_get;
  _ ← m_lift (raise_if (bool_decide (¬ dom g ⊆ dom em)) KeyError);
  let le a b := key_le (_get_power_order em event_to_pl a) (_get_power_order em event_to_pl b) in
  match lexicographical_topological_sort le g with
  | None => out_of_fuel
  | Some r => m_lift r
  end.

(** ** Iterative auth checks *)

(** [event_map[event_id]] *)
Definition event_map_index (event_id : string) : M event :=
  em ← m_get;
  m_lift (of_option (em !! event_id) KeyError).

(** The auth events of [e] that are known and were not rejected. *)
Definition own_auth_events (rid : string) (auth_ids : list string) : M (StateMap event) :=
  m_fold (λ auth_events aid,
    ev ← get_event_opt rid aid;
    match ev with
    | None => mret auth_events
    | Some ev =>
        match ev_rejected_reason ev with
        | Some _ => mret auth_events
        | None => sk ← m_lift (state_key ev); mret (<[(ev_type ev, sk) := ev]> auth_events)
        end
    end) auth_ids (∅ : StateMap event).

(** Replace them by the resolved state, where it has an entry. *)
Definition override_auth_events (rid : string) (resolved_state : StateMap string)
    (keys : list StateKey) (auth_events : StateMap event) : M (StateMap event) :=
  m_fold (λ auth_events key,
    match resolved_state !! key with
    | None => mret auth_events
    | Some ev_id =>
        ev ← _get_event rid ev_id;
        match ev_rejected_reason ev with
        | Some _ => mret auth_events
        | None => ev ← event_map_index ev_id; mret (<[key := ev]> auth_events)
        end
    end) keys auth_events.

(** One event of [_iterative_auth_checks]. The rules may set the redaction
    re-check mark of the event, which lives in [event_map]. *)
Definition auth_check_step (rid : string) (room_version : RoomVersion)
    (resolved_state : StateMap string) (event_id : string) : M (StateMap string) :=
  e ← event_map_index event_id;
  auth_ids ← m_lift (auth_event_ids e);
  auth_events ← own_auth_events rid auth_ids;
  keys ← m_lift (auth_types_for_event room_version e);
  auth_events ← override_auth_events rid resolved_state (elements (keys : gset StateKey)) auth_events;
  match ev_rejected_reason e with
  | Some _ => mret resolved_state
  | None =>
      match check_state_dependent_auth_rules valid_ipv6 verify_signed_json e
              (map_to_list (auth_events : StateMap event)).*2 with
      | Ok e' =>
          em ← m_get;
          _ ← m_put (<[event_id := e']> em);
          sk ← m_lift (state_key e);
          mret (<[(ev_type e, sk) := event_id]> resolved_state)
      | Raise ex => if is_auth_error ex then mret resolved_state else m_raise ex
      end
  end.

Definition _iterative_auth_checks (rid : string) (room_version : RoomVersion)
    (event_ids : list string) (base_state : StateMap string) : M (StateMap string) :=
  m_fold (auth_check_step rid room_version) event_ids base_state.

(** ** Mainline ordering *)

(** The chain of power levels events from [pl] back. *)
Fixpoint mainline_loop (fuel : nat) (rid : string) (pl : option string) : M (list string) :=
  match pl with
  | None => mret []
  | Some pl =>
      if negb (str_nonempty pl) then mret []
      else
        match fuel with
        | 0 => out_of_fuel
        | S fuel =>
            pl_ev ← _get_event rid pl;
            auth_ids ← m_lift (auth_event_ids pl_ev);
            next ← find_auth_event rid POWER_KEY auth_ids;
            rest ← mainline_loop fuel rid (fst <$> next);
            mret (pl :: rest)
        end
  end.

(** [{ev_id: i + 1 for i, ev_id in enumerate(reversed(mainline))}] *)
Definition mainline_map (mainline : list string) : gmap string Z :=
  foldl (λ m '(i, ev_id), <[ev_id := (Z.of_nat i + 1)%Z]> m) ∅ (imap pair (reverse mainline)).

Fixpoint mainline_depth_loop (fuel : nat) (rid : string) (mm : gmap string Z) (tmp_event : option event)
    : M Z :=
  match tmp_event with
  | None => mret 0%Z
  | Some ev =>
      match mm !! event_id ev with
      | Some depth => mret depth
      | None =>
          match fuel with
          | 0 => out_of_fuel
          | S fuel =>
              auth_ids ← m_lift (auth_event_ids ev);
              next ← find_auth_event rid POWER_KEY auth_ids;
              mainline_depth_loop fuel rid mm (snd <$> next)
          end
      end
  end.

Definition _get_mainline_depth_for_event (fuel : nat) (mm : gmap string Z) (e : event) : M Z :=
  rid ← m_lift (room_id e);
  mainline_depth_loop fuel rid mm (Some e).

Definition order_key (order_map : gmap string (Z * Z * string)) (ev_id : string) : Z * Z * string :=
  default (0, 0, ev_id)%Z (order_map !! ev_id).

Definition order_rel (order_map : gmap string (Z * Z * string)) (a b : string) : Prop :=
  key_le (order_key order_map a) (order_key order_map b) = true.

#[export] Instance order_rel_dec order_map : RelDecision (order_rel order_map).
Proof. intros a b. unfold order_rel. apply _. Defined.

Definition _mainline_sort (fuel : nat) (rid : string) (event_ids : list string)
    (resolved_power_event_id : option string) : M (list string) :=
  match event_ids with
  | [] => mret []
  | _ =>
      mainline ← mainline_loop fuel rid resolved_power_event_id;
      let mm := mainline_map mainline in
      order_map ← m_fold (λ om ev_id,
          e ← event_map_index ev_id;
          depth ← _get_mainline_depth_for_event fuel mm e;
          mret (<[ev_id := (depth, ev_origin_server_ts e, ev_id)]> om)) event_ids
        (∅ : gmap string (Z * Z * string));
      mret (merge_sort (order_rel order_map) event_ids)
  end.

(** ** Auth chain difference *)

(** [d.setdefault(k, set()).add(v)] *)
Definition set_add (d : gmap string (gset string)) (k v : string) : gmap string (gset string) :=
  <[k := {[v]} ∪ default ∅ (d !! k)]> d.

(** The graph traversal from one unpersisted event: the IDs it reaches, and the
    forward links. *)
Fixpoint chain_search (fuel : nat) (unpersisted_events : gmap string event)
    (chain : gset string) (event_to_next_event : gmap string (gset string)) (to_search : list event)
    : M (gset string * gmap string (gset string)) :=
  match to_search with
  | [] => mret (chain, event_to_next_event)
  | next_event :: to_search =>
      match fuel with
      | 0 => out_of_fuel
      | S fuel =>
          auth_ids ← m_lift (auth_event_ids next_event);
          let '(chain, links, to_search) :=
            foldl (λ '(chain, links, to_search) auth_id,
              ({[auth_id]} ∪ chain, set_add links auth_id (event_id next_event),
               match unpersisted_events !! auth_id with
               | Some auth_event => auth_event :: to_search
               | None => to_search
               end)) (chain, event_to_next_event, to_search) auth_ids in
          chain_search fuel unpersisted_events chain links to_search
      end
  end.

(** [events_to_auth_chain] and [event_to_next_event]. *)
Definition auth_chains (fuel : nat) (unpersisted_events : gmap string event)
    : M (gmap string (gset string) * gmap string (gset string)) :=
  m_fold (λ '(chains, links) (e : event),
    '(chain, links) ← chain_search fuel unpersisted_events {[event_id e]} links [e];
    mret (<[event_id e := chain]> chains, links))
    (map_to_list unpersisted_events).*2 (∅, ∅).

(** One state set: the persisted IDs to pass to the store, and the unpersisted
    ones it reaches. *)
Definition split_state_set (unpersisted_events : gmap string event)
    (events_to_auth_chain : gmap string (gset string)) (state_set : StateMap string)
    : gset string * gset string :=
  foldl (λ '(set_ids, unpersisted_ids) event_id,
    match events_to_auth_chain !! event_id with
    | Some event_chain =>
        (filter (λ e, e ∉ dom unpersisted_events) event_chain ∪ set_ids,
         filter (λ e, e ∈ dom unpersisted_events) event_chain ∪ unpersisted_ids)
    | None => ({[event_id]} ∪ set_ids, unpersisted_ids)
    end) (∅, ∅) (map_to_list state_set).*2.

(** The conflicted events that are unpersisted, and the persisted events they
    reach. *)
Definition split_conflicted (unpersisted_events : gmap string event)
    (events_to_auth_chain : gmap string (gset string)) (conflicted_state : gset string)
    : gset string * gset string :=
  foldl (λ '(uce, backwards) conflicted_event_id,
    match events_to_auth_chain !! conflicted_event_id with
    | Some event_chain =>
        ({[conflicted_event_id]} ∪ uce,
         filter (λ e, e ∉ dom unpersisted_events) event_chain ∪ backwards)
    | None => (uce, backwards)
    end) (∅, ∅) (elements conflicted_state).

(** [l[0].union( *l[1:]) - l[0].intersection( *l[1:])] *)
Definition union_minus_intersection (l : list (gset string)) : result (gset string) :=
  match l with
  | [] => Raise IndexError
  | s :: rest => Ok (foldl (∪) s rest ∖ foldl (∩) s rest)
  end.

(** Everything reachable forwards from [search_queue]. *)
Fixpoint forward_search (fuel : nat) (links : gmap string (gset string))
    (forwards search_queue : gset string) : M (gset string) :=
  match elements search_queue with
  | [] => mret forwards
  | frontier_event :: _ =>
      match fuel with
      | 0 => out_of_fuel
      | S fuel =>
          forward_search fuel links ({[frontier_event]} ∪ forwards)
            (default ∅ (links !! frontier_event) ∪ (search_queue ∖ {[frontier_event]}))
      end
  end.

(** The unpersisted part of the conflicted subgraph. *)
Definition expand_subgraph (fuel : nat) (chains links : gmap string (gset string))
    (conflicted_state : option (gset string)) (uce backwards subgraph : gset string)
    : M (gset string) :=
  let subgraph := default ∅ conflicted_state ∪ subgraph in
  let subgraph_frontier := subgraph ∩ backwards in
  forwards ← forward_search fuel links ∅ (subgraph_frontier ∪ uce);
  let backwards_conflicted_set : gset string :=
    ⋃ ((λ e, default ∅ (chains !! e)) <$> elements uce) in
  mret (backwards_conflicted_set ∩ forwards ∪ subgraph).

(** [state_res_store.get_auth_chain_difference]: the auth difference and the
    conflicted subgraph. *)
Context (get_auth_chain_difference :
  string → list (gset string) → option (gset string) → gset string →
  gset string * option (gset string)).

Definition _get_auth_chain_difference (fuel : nat) (rid : string)
    (state_sets : list (StateMap string)) (unpersisted_events : gmap string event)
    (conflicted_state : option (gset string)) : M (gset string) :=
  '(chains, links) ← auth_chains fuel unpersisted_events;
  let persisted := bool_decide (unpersisted_events = ∅) in
  let split := split_state_set unpersisted_events chains <$> state_sets in
  let state_sets_ids :=
    if persisted then (λ s : StateMap string, list_to_set (map_to_list s).*2) <$> state_sets
    else split.*1 in
  unpersisted_part ←
    (if persisted then mret ∅ else m_lift (union_minus_intersection split.*2));
  let '(uce, backwards) :=
    if persisted then (∅, ∅)
    else split_conflicted unpersisted_events chains (default ∅ conflicted_state) in
  let conflicted_ids := (λ c : gset string, c ∖ uce) <$> conflicted_state in
  let '(auth_difference, subgraph) :=
    get_auth_chain_difference rid state_sets_ids conflicted_ids backwards in
  let auth_difference := (unpersisted_part : gset string) ∪ auth_difference in
  subgraph ←
    match conflicted_state, subgraph with
    | Some _, Some sg =>
        if persisted then mret (Some sg)
        else sg ← expand_subgraph fuel chains links conflicted_ids uce backwards sg; mret (Some sg)
    | _, _ => mret subgraph
    end;
  mret (default ∅ subgraph ∪ auth_difference).

(** ** Resolution *)
Definition check_rooms (rid : string) (evs : list event) : result unit :=
  for_each (λ e, r ← room_id e;
    raise_if (negb (String.eqb r rid))
      (PyException "Attempting to state-resolve for room %s with event %s which is in %s")) evs.

(** The IDs in the list whose event is a power event. *)
Definition select_power_events (ids : list string) : M (list string) :=
  m_fold (λ acc eid,
    e ← event_map_index eid;
    b ← m_lift (_is_power_event e);
    mret (if (b : bool) then acc ++ [eid] else acc)) ids [].

Definition state_res_v21 (room_version : RoomVersion) : bool :=
  match state_res room_version with StateResolutionVersions.SR_V2_1 => true | _ => false end.

(** The part after the full conflicted set is known. *)
Definition resolve_conflicted (fuel : nat) (rid : string) (room_version : RoomVersion)
    (unconflicted_state : StateMap string) (full_conflicted_set : gset string)
    : M (StateMap string) :=
  power_events ← select_power_events (elements full_conflicted_set);
  sorted_power_events ←
    _reverse_topological_power_sort fuel rid power_events full_conflicted_set;
  let base_state := if state_res_v21 room_version then ∅ else unconflicted_state in
  resolved_state ← _iterative_auth_checks rid room_version sorted_power_events base_state;
  let leftover_events :=
    filter (λ ev_id, ev_id ∉ sorted_power_events) (elements full_conflicted_set) in
  leftover_events ←
    _mainline_sort fuel rid leftover_events ((resolved_state : StateMap string) !! POWER_KEY);
  resolved_state ← _iterative_auth_checks rid room_version leftover_events resolved_state;
  mret (unconflicted_state ∪ resolved_state).

Definition resolve_events_with_store (fuel : nat) (rid : string) (room_version : RoomVersion)
    (state_sets : list (StateMap string)) : M (StateMap string) :=
  let '(unconflicted_state, conflicted_state) := _seperate state_sets in
  if decide (conflicted_state = ∅) then mret unconflicted_state
  else
    let conflicted_ids : gset string := ⋃ (map_to_list conflicted_state).*2 in
    event_map ← m_get;
    auth_diff ← _get_auth_chain_difference fuel rid state_sets event_map
                  (if state_res_v21 room_version then Some conflicted_ids else None);
    let full_conflicted_set := conflicted_ids ∪ auth_diff in
    em ← m_get;
    _ ← m_put (get_events (filter (λ eid, em !! eid = None) (elements full_conflicted_set)) ∪ em);
    em ← m_get;
    _ ← m_lift (check_rooms rid (map_to_list em).*2);
    resolve_conflicted fuel rid room_version unconflicted_state
      (filter (λ eid, eid ∈ dom em) full_conflicted_set).
End StateRes.
