(* ===== verification/StateResProps.v ===== *)
(** State resolution: the separation of the state sets, a program logic for the
    monad of [StateRes], and termination. *)
From S2P Require Import Prelude RoomVersions Events EventAuth EventAuthProps EventAuthSafety TopoSort StateRes.
From Stdlib Require Import Ascii.

(** ** Separation of the state sets *)
Lemma elem_of_event_ids_at sets key o :
  o ∈ event_ids_at sets key ↔ ∃ s, s ∈ sets ∧ s !! key = o.
Proof.
  unfold event_ids_at. rewrite elem_of_list_to_set, list_elem_of_fmap. naive_solver.
Qed.

Lemma elem_of_all_keys sets key : key ∈ all_keys sets ↔ ∃ s, s ∈ sets ∧ is_Some (s !! key).
Proof.
  unfold all_keys. rewrite elem_of_union_list. setoid_rewrite list_elem_of_fmap. split.
  - intros (X & (s & -> & Hs) & Hk). exists s. split; [done|]. by apply elem_of_dom.
  - intros (s & Hs & Hk). exists (dom s). split; [by exists s|]. by apply elem_of_dom.
Qed.

Lemma list_to_map_omap_lookup {A} (f : StateKey → option A) (X : gset StateKey) k :
  (list_to_map (omap (λ k, (λ v, (k, v)) <$> f k) (elements X)) : gmap StateKey A) !! k =
  if decide (k ∈ X) then f k else None.
Proof.
  assert (∀ l, NoDup l →
    NoDup (omap (λ k, (λ v, (k, v)) <$> f k) l).*1 ∧
    ∀ k v, (k, v) ∈ omap (λ k, (λ v, (k, v)) <$> f k) l ↔ k ∈ l ∧ f k = Some v) as H.
  { induction l as [|x l IH]; simpl; intros Hnd.
    - split; [constructor|]. set_solver.
    - apply NoDup_cons in Hnd as [Hx Hnd]. destruct (IH Hnd) as [IH1 IH2].
      destruct (f x) as [v|] eqn:Hf; simpl; split.
      + apply NoDup_cons. split; [|done]. intros ([k' v'] & -> & Hin)%list_elem_of_fmap.
        by apply IH2 in Hin as [? _].
      + intros k' v'. rewrite !elem_of_cons, IH2. naive_solver.
      + done.
      + intros k' v'. rewrite elem_of_cons, IH2. naive_solver. }
  destruct (H (elements X) (NoDup_elements X)) as [Hnd Hin].
  destruct (decide (k ∈ X)) as [Hk|Hk].
  - destruct (f k) as [v|] eqn:Hf.
    + apply elem_of_list_to_map; [done|]. apply Hin. by rewrite elem_of_elements.
    + apply not_elem_of_list_to_map_1. intros ([k' v'] & -> & Hi)%list_elem_of_fmap.
      apply Hin in Hi as [_ ?]. simpl in *. congruence.
  - apply not_elem_of_list_to_map_1. intros ([k' v'] & -> & Hi)%list_elem_of_fmap.
    apply Hin in Hi as [?%elem_of_elements _]. done.
Qed.

Lemma unconflicted_lookup sets key :
  (_seperate sets).1 !! key =
  if decide (key ∈ all_keys sets) then unconflicted_at sets key else None.
Proof. apply list_to_map_omap_lookup. Qed.

Lemma conflicted_lookup sets key :
  (_seperate sets).2 !! key =
  if decide (key ∈ all_keys sets) then conflicted_at sets key else None.
Proof. apply list_to_map_omap_lookup. Qed.

Lemma unconflicted_at_Some sets key e :
  unconflicted_at sets key = Some e ↔ sets ≠ [] ∧ ∀ s, s ∈ sets → s !! key = Some e.
Proof.
  unfold unconflicted_at. split.
  - destruct (elements _) as [|o [|]] eqn:He; try done. intros ->.
    assert (event_ids_at sets key = {[Some e]}) as Hset.
    { apply set_eq. intros o. by rewrite <- elem_of_elements, He, list_elem_of_singleton, elem_of_singleton. }
    split.
    + intros ->. assert (Some e ∈ event_ids_at [] key) as (s & []%not_elem_of_nil & _)%elem_of_event_ids_at.
      rewrite Hset. set_solver.
    + intros s Hs. assert (s !! key ∈ event_ids_at sets key) as Hin by (apply elem_of_event_ids_at; eauto).
      rewrite Hset in Hin. by apply elem_of_singleton in Hin.
  - intros [Hne Hall]. assert (event_ids_at sets key = {[Some e]}) as ->.
    { apply set_eq. intros o. rewrite elem_of_event_ids_at, elem_of_singleton. split.
      - intros (s & Hs & <-). by apply Hall.
      - intros ->. destruct sets as [|s sets]; [done|]. exists s. split; [left|]. apply Hall. left. }
    by rewrite elements_singleton.
Qed.

Lemma seperate_correct_unconflicted sets key e :
  (_seperate sets).1 !! key = Some e ↔ sets ≠ [] ∧ ∀ s, s ∈ sets → s !! key = Some e.
Proof.
  rewrite unconflicted_lookup, <- unconflicted_at_Some.
  case_decide as Hk; [done|]. split; [done|]. intros [Hne Hall]%unconflicted_at_Some.
  destruct Hk. apply elem_of_all_keys. destruct sets as [|s sets]; [done|].
  exists s. split; [left|]. exists e. apply Hall. left.
Qed.

(** [_seperate].  A key is unconflicted exactly when every state set has the
    same event for it; otherwise, if some state set has it, it is conflicted and
    comes with exactly the events the state sets have for it; no key is both;
    and neither part depends on the order of the state sets. *)
Theorem seperate_correct sets key :
  (∀ e, (_seperate sets).1 !! key = Some e ↔ sets ≠ [] ∧ ∀ s, s ∈ sets → s !! key = Some e) ∧
  (∀ ids, (_seperate sets).2 !! key = Some ids →
     (∀ e, e ∈ ids ↔ ∃ s, s ∈ sets ∧ s !! key = Some e) ∧
     (_seperate sets).1 !! key = None) ∧
  ((∃ s, s ∈ sets ∧ is_Some (s !! key)) →
     is_Some ((_seperate sets).1 !! key) ∨ is_Some ((_seperate sets).2 !! key)) ∧
  (∀ sets', sets ≡ₚ sets' → _seperate sets = _seperate sets').
Proof.
  split_and!; [intros e; apply seperate_correct_unconflicted|..].
  - intros ids. rewrite conflicted_lookup, unconflicted_lookup. case_decide as Hk; [|done].
    unfold conflicted_at. case_decide as Hsz; [done|]. intros [= <-]. split.
    + intros e. rewrite elem_of_list_to_set, list_elem_of_omap.
      setoid_rewrite elem_of_elements. setoid_rewrite elem_of_event_ids_at. naive_solver.
    + unfold unconflicted_at. unfold size, set_size in Hsz. simpl in Hsz.
      by destruct (elements _) as [|o [|]].
  - intros Hs%elem_of_all_keys. rewrite conflicted_lookup, unconflicted_lookup.
    rewrite !decide_True by done. unfold conflicted_at. case_decide as Hsz; [left|right; by eexists].
    unfold unconflicted_at. unfold size, set_size in Hsz. simpl in Hsz.
    destruct (elements (event_ids_at sets key)) as [|o [|]] eqn:He; try done.
    apply elem_of_all_keys in Hs as (s & Hs & [e Hse]).
    assert (Some e ∈ elements (event_ids_at sets key)) as Hin.
    { apply elem_of_elements, elem_of_event_ids_at. by exists s. }
    rewrite He in Hin. apply list_elem_of_singleton in Hin as <-. by eexists.
  - intros sets' Hp. unfold _seperate.
    assert (all_keys sets = all_keys sets') as ->.
    { apply set_eq. intros k. rewrite !elem_of_all_keys. by setoid_rewrite Hp. }
    assert (∀ k, event_ids_at sets k = event_ids_at sets' k) as Hids.
    { intros k. apply set_eq. intros o. rewrite !elem_of_event_ids_at. by setoid_rewrite Hp. }
    f_equal; f_equal; apply list_omap_ext, Forall_Forall2_diag, Forall_true; intros k;
      unfold unconflicted_at, conflicted_at; by rewrite Hids.
Qed.

(** ** Sort keys *)
Lemma key_le_total a b : key_le a b = true ∨ key_le b a = true.
Proof.
  destruct a as [[a1 a2] a3], b as [[b1 b2] b3]. unfold key_le.
  destruct (Z.ltb_spec a1 b1), (Z.ltb_spec b1 a1); auto.
  destruct (Z.ltb_spec a2 b2), (Z.ltb_spec b2 a2); auto. apply String.leb_total.
Qed.

Lemma key_le_trans a b c : key_le a b = true → key_le b c = true → key_le a c = true.
Proof.
  destruct a as [[a1 a2] a3], b as [[b1 b2] b3], c as [[c1 c2] c3]. unfold key_le.
  destruct (Z.ltb_spec a1 b1), (Z.ltb_spec b1 a1), (Z.ltb_spec b1 c1), (Z.ltb_spec c1 b1),
    (Z.ltb_spec a1 c1), (Z.ltb_spec c1 a1); try done; try lia.
  destruct (Z.ltb_spec a2 b2), (Z.ltb_spec b2 a2), (Z.ltb_spec b2 c2), (Z.ltb_spec c2 b2),
    (Z.ltb_spec a2 c2), (Z.ltb_spec c2 a2); try done; try lia.
  apply string_leb_trans.
Qed.

Lemma key_le_antisym a b : key_le a b = true → key_le b a = true → a = b.
Proof.
  destruct a as [[a1 a2] a3], b as [[b1 b2] b3]. unfold key_le.
  destruct (Z.ltb_spec a1 b1), (Z.ltb_spec b1 a1); try done; try lia.
  destruct (Z.ltb_spec a2 b2), (Z.ltb_spec b2 a2); try done; try lia.
  intros Hle Hge. assert (a3 = b3) as -> by (by apply String.leb_antisym).
  by assert (a1 = b1) as -> by lia; assert (a2 = b2) as -> by lia.
Qed.

(** ** The auth graph of the conflicted events *)
Lemma add_auth_edges_spec (U : gset string) eid ids g stack es :
  g !! eid = Some es →
  ∃ g', add_auth_edges U eid ids (g, stack) =
        (g', reverse (filter (λ a, a ∈ U ∧ g !! a = None) ids) ++ stack) ∧
    g' !! eid = Some (es ∪ filter (.∈ U) (list_to_set ids)) ∧
    ∀ n, n ≠ eid → g' !! n = g !! n.
Proof.
  revert g stack es. induction ids as [|a ids IH]; intros g stack es Hg.
  - exists g. split_and!; [done| |done]. rewrite Hg. f_equal. set_solver.
  - unfold add_auth_edges in *. simpl. destruct (decide (a ∈ U)) as [Ha|Ha]; last first.
    { destruct (IH g stack es Hg) as (g' & Heq & He & Hn). exists g'. split_and!; [| |done].
      - rewrite Heq. rewrite filter_cons_False by naive_solver. done.
      - rewrite He. f_equal. set_solver. }
    destruct (IH (graph_add g eid a) (if decide (g !! a = None) then a :: stack else stack)
      ({[a]} ∪ es)) as (g' & Heq & He & Hn).
    { unfold graph_add. by rewrite lookup_insert_eq, Hg. }
    exists g'. split_and!.
    + rewrite Heq. f_equal.
      assert (∀ x, graph_add g eid a !! x = None ↔ g !! x = None) as Hsame.
      { intros x. unfold graph_add. destruct (decide (x = eid)) as [->|].
        - rewrite lookup_insert_eq, Hg. naive_solver.
        - by rewrite lookup_insert_ne. }
      rewrite (list_filter_iff _ (λ x, x ∈ U ∧ g !! x = None)) by (intros x; by rewrite Hsame).
      case_decide as Hna.
      * rewrite filter_cons_True, reverse_cons, <- app_assoc by done. done.
      * rewrite filter_cons_False by naive_solver. done.
    + rewrite He. f_equal. set_solver.
    + intros n Hne. rewrite Hn by done. unfold graph_add. by rewrite lookup_insert_ne.
Qed.

(** ** A weakest precondition for the monad

    [F] is what running out of fuel is taken to mean: [True] for partial
    correctness, [False] to show that it does not happen. *)
Definition wp {A} (F : Prop) (m : M A) (Q : A → gmap string event → Prop)
    (em : gmap string event) : Prop :=
  match m em with
  | None => F
  | Some (Raise _) => True
  | Some (Ok (x, em')) => Q x em'
  end.

Section Wp.
Context (F : Prop).

Lemma wp_bind {A B} (m : M A) (f : A → M B) Q em :
  wp F m (λ x em', wp F (f x) Q em') em → wp F (x ← m; f x) Q em.
Proof. unfold wp, mbind, M_bind. destruct (m em) as [[[x em']|e]|]; done. Qed.

Lemma wp_ret {A} (x : A) (Q : A → gmap string event → Prop) em : Q x em → wp F (mret x) Q em.
Proof. done. Qed.

Lemma wp_lift {A} (r : result A) (Q : A → gmap string event → Prop) em :
  (∀ x, r = Ok x → Q x em) → wp F (m_lift r) Q em.
Proof. unfold wp, m_lift. destruct r; naive_solver. Qed.

Lemma wp_raise {A} e (Q : A → gmap string event → Prop) em : wp F (m_raise e) Q em.
Proof. done. Qed.

Lemma wp_get (Q : gmap string event → gmap string event → Prop) em : Q em em → wp F m_get Q em.
Proof. done. Qed.

Lemma wp_put em' (Q : unit → gmap string event → Prop) em : Q tt em' → wp F (m_put em') Q em.
Proof. done. Qed.

Lemma wp_mono {A} (m : M A) (Q Q' : A → gmap string event → Prop) em :
  wp F m Q em → (∀ x em', Q x em' → Q' x em') → wp F m Q' em.
Proof. unfold wp. destruct (m em) as [[[x em']|e]|]; naive_solver. Qed.

(** The loop rule: [I] holds of what is left to do, the value and the map. *)
Lemma wp_fold {A S} (f : S → A → M S) (I : list A → S → gmap string event → Prop) l s em :
  (∀ x l s em, I (x :: l) s em → wp F (f s x) (I l) em) →
  I l s em → wp F (m_fold f l s) (I []) em.
Proof.
  intros Hstep. revert s em. induction l as [|x l IH]; intros s em HI; simpl.
  - by apply wp_ret.
  - apply wp_bind. eapply wp_mono; [by apply Hstep|]. intros s' em' HI'. by apply IH.
Qed.

Lemma wp_loop {A S} (f : S → A → M S) (Inv : list A → S → gmap string event → Prop) Q l s em :
  (∀ x l s em, Inv (x :: l) s em → wp F (f s x) (Inv l) em) →
  Inv l s em → (∀ s em, Inv [] s em → Q s em) → wp F (m_fold f l s) Q em.
Proof. intros. eapply wp_mono; [by apply wp_fold|done]. Qed.
End Wp.

Lemma wp_run {A} (F : Prop) (m : M A) Q em x em' :
  wp F m Q em → m em = Some (Ok (x, em')) → Q x em'.
Proof. unfold wp. intros H Hr. by rewrite Hr in H. Qed.

Lemma wp_eqn {A} (m : M A) (Q : A → gmap string event → Prop) em :
  (∀ x em', m em = Some (Ok (x, em')) → Q x em') → wp True m Q em.
Proof. unfold wp. destruct (m em) as [[[x em']|e]|]; naive_solver. Qed.

Lemma wp_total {A} (m : M A) Q em : wp False m Q em → m em ≠ None.
Proof. unfold wp. by destruct (m em). Qed.

Ltac wp_step :=
  match goal with
  | |- wp _ (mbind _ _) _ _ => apply wp_bind
  | |- wp _ (mret _) _ _ => apply wp_ret
  | |- wp _ (m_raise _) _ _ => apply wp_raise
  | |- wp _ (m_lift _) _ _ => apply wp_lift; intros ? ?
  | |- wp _ m_get _ _ => apply wp_get
  | |- wp _ (m_put _) _ _ => apply wp_put
  end.

(** ** The event map *)

(** [e'] is [e], or [e] with its redaction re-check mark set. *)
Definition same_event (e e' : event) : Prop := e' = e ∨ e' = set_recheck_redaction e.

Lemma same_event_trans e1 e2 e3 : same_event e1 e2 → same_event e2 e3 → same_event e1 e3.
Proof. intros [-> | ->] [-> | ->]; [left|right..]; done. Qed.

Lemma check_rules_same_event vi vs e auth e' :
  check_state_dependent_auth_rules vi vs e auth = Ok e' → same_event e e'.
Proof.
  unfold check_state_dependent_auth_rules. destruct (String.eqb _ _); [intros [= <-]; by left|].
  intros (d & _ & H)%bind_ok. unfold check_auth_dict in H. inv_ok.
  destruct (_ && special_case_aliases_auth _); [inv_ok; subst; by left|].
  destruct (String.eqb (ev_type e) EventTypes.Member); [inv_ok; subst; by left|].
  inv_ok. destruct (String.eqb (ev_type e) EventTypes.ThirdPartyInvite); [inv_ok; subst; by left|].
  inv_ok. destruct (String.eqb (ev_type e) EventTypes.Redaction); [|inv_ok; subst; by left].
  apply bind_ok in H as ([f e1] & Hred & H). assert (e1 = e') as -> by congruence.
  by eapply check_redaction_event.
Qed.

Section Resolution.
Context (get_events : list string → gmap string event).
Context (get_events_requested : ∀ ids i, is_Some (get_events ids !! i) → i ∈ ids).
(** An invariant of the event map, kept by fetching. *)
Context (F : Prop) (I : gmap string event → Prop).
Context (I_fetch : ∀ ids em, (∀ i, i ∈ ids → em !! i = None) → I em → I (get_events ids ∪ em)).

(** A reading step: it only adds events to the map. *)
Definition reads {A} (Q : A → gmap string event → Prop) (em : gmap string event) (x : A)
    (em' : gmap string event) : Prop := I em' ∧ em ⊆ em' ∧ Q x em'.

Lemma fetch_extends ids em : (∀ i, i ∈ ids → em !! i = None) → em ⊆ get_events ids ∪ em.
Proof.
  intros Hnew. apply map_union_subseteq_r, map_disjoint_spec. intros i x y Hx Hy.
  assert (i ∈ ids) as Hi by (apply get_events_requested; by exists x).
  specialize (Hnew i Hi). congruence.
Qed.

Lemma wp_get_event_opt rid i em :
  I em →
  wp F (get_event_opt get_events rid i) (reads (λ o em', ∀ e, o = Some e → em' !! i = Some e) em) em.
Proof.
  intros HI. unfold get_event_opt. do 2 wp_step. wp_step.
  assert (∀ em1, I em1 → em ⊆ em1 → wp F (em0 ← m_get; match em0 !! i with
    | None => mret None
    | Some e => r ← m_lift (room_id e); if String.eqb r rid then mret (Some e)
        else m_raise (PyException "In state res for room %s, event %s is in %s")
    end) (reads (λ o em', ∀ e, o = Some e → em' !! i = Some e) em) em1) as Hrest.
  { intros em1 HI1 Hsub. do 2 wp_step. destruct (em1 !! i) as [e|] eqn:He.
    - do 2 wp_step. destruct (String.eqb _ _); wp_step. split_and!; [done..|]. by intros ? [= <-].
    - wp_step. by split_and!. }
  case_decide as Hnone; wp_step.
  - assert (∀ j, j ∈ [i] → em !! j = None) as Hnew by (by intros ? ->%list_elem_of_singleton).
    apply Hrest; [by apply I_fetch|]. by apply fetch_extends.
  - by apply Hrest.
Qed.

Lemma wp_get_event rid i em :
  I em → wp F (_get_event get_events rid i) (reads (λ e em', em' !! i = Some e) em) em.
Proof.
  intros HI. unfold _get_event. wp_step. eapply wp_mono; [by apply wp_get_event_opt|].
  intros [e|] em' (HI' & Hsub & He); wp_step. split_and!; auto.
Qed.

Lemma wp_find_auth_event rid key ids em :
  I em →
  wp F (find_auth_event get_events rid key ids)
    (reads (λ o em', ∀ a e, o = Some (a, e) → a ∈ ids ∧ em' !! a = Some e ∧ is_at e key = Ok true) em) em.
Proof.
  revert em. induction ids as [|a ids IH]; intros em HI; simpl.
  - wp_step. by split_and!.
  - wp_step. eapply wp_mono; [by apply wp_get_event_opt|].
    intros o em1 (HI1 & Hsub & He).
    assert (wp F (find_auth_event get_events rid key ids)
      (reads (λ o em', ∀ a0 e, o = Some (a0, e) → a0 ∈ a :: ids ∧ em' !! a0 = Some e ∧ is_at e key = Ok true) em) em1) as Hrest.
    { eapply wp_mono; [by apply IH|]. intros o' em2 (HI2 & Hsub2 & H2).
      split_and!; [done|by etrans|]. intros a0 e' H'. destruct (H2 _ _ H') as (? & ? & ?).
      split_and!; [by right|done..]. }
    destruct o as [e|]; [|done]. do 2 wp_step. destruct x; [|done]. wp_step.
    split_and!; [done..|]. intros ? ? [= <- <-]. split_and!; [left|by apply He|done].
Qed.

Lemma wp_event_map_index i em (Q : event → gmap string event → Prop) :
  (∀ e, em !! i = Some e → Q e em) → wp F (event_map_index i) Q em.
Proof. intros HQ. unfold event_map_index. do 2 wp_step. wp_step. by apply HQ, of_option_ok with KeyError. Qed.

(** ** Building the auth graph *)

(** The auth events of the event at [n] that are in [U]. *)
Definition auth_edge (U : gset string) (em : gmap string event) (n x : string) : Prop :=
  x ∈ U ∧ ∃ e ids, em !! n = Some e ∧ auth_event_ids e = Ok ids ∧ x ∈ ids.

(** Every event has at most [D] auth events; needed only to bound the loop. *)
Context (D : nat).
Definition degree_bounded : Prop :=
  ∀ em i e ids, I em → em !! i = Some e → auth_event_ids e = Ok ids → length ids ≤ D.

Section Graph.
Context (roots : list string).

(** The graph [g] of the events reached from [roots], with [stack] left to visit. *)
Record dfs_inv (U : gset string) (em : gmap string event) (g : graph) (stack : list string)
    : Prop := {
  di_nodes : ∀ n, is_Some (g !! n) ∨ n ∈ stack → n ∈ U;
  di_reach : ∀ n, is_Some (g !! n) ∨ n ∈ stack → ∃ r, r ∈ roots ∧ rtc (auth_edge U em) r n;
  di_known : ∀ n, is_Some (g !! n) → is_Some (em !! n);
  di_edges : ∀ n es x, g !! n = Some es → x ∈ es ↔ auth_edge U em n x;
  di_stack : ∀ s1 n s2 x, stack = s1 ++ n :: s2 → is_Some (g !! n) → auth_edge U em n x →
    is_Some (g !! x) ∨ x ∈ s1;
  di_closed : ∀ n x, is_Some (g !! n) → auth_edge U em n x → is_Some (g !! x) ∨ x ∈ stack
}.

Lemma auth_edge_mono U em em' n x :
  em ⊆ em' → is_Some (em !! n) → auth_edge U em' n x ↔ auth_edge U em n x.
Proof.
  intros Hsub [e He]. unfold auth_edge. assert (em' !! n = Some e) as He' by (by eapply lookup_weaken).
  rewrite He, He'. done.
Qed.

Lemma dfs_inv_weaken U em em' g stack : em ⊆ em' → dfs_inv U em g stack → dfs_inv U em' g stack.
Proof.
  intros Hsub [Hn Hr Hk He Hs Hc].
  assert (∀ n x, is_Some (g !! n) → auth_edge U em' n x ↔ auth_edge U em n x) as Hae.
  { intros n x Hg. apply auth_edge_mono; [done|by apply Hk]. }
  split.
  - done.
  - intros n (r & ? & Hrtc)%Hr. exists r. split; [done|]. revert Hrtc. apply rtc_subrel.
    intros m x (? & e & ids & ? & ?). split; [done|]. exists e, ids. split; [by eapply lookup_weaken|done].
  - intros n [e' He']%Hk. exists e'. by eapply lookup_weaken.
  - intros n es x Hg. rewrite Hae by (by eexists). by eapply He.
  - intros s1 n s2 x Heq Hg. rewrite Hae by done. by eapply Hs.
  - intros n x Hg. rewrite Hae by done. by apply Hc.
Qed.

Lemma app_eq_cons_split {A} (p l s1 s2 : list A) (m : A) :
  p ++ l = s1 ++ m :: s2 → m ∈ p ∨ ∃ t1, s1 = p ++ t1 ∧ l = t1 ++ m :: s2.
Proof.
  revert s1. induction p as [|y p IH]; intros s1 Heq; simpl in Heq; [right; by exists s1|].
  destruct s1 as [|z s1]; simpl in Heq; injection Heq as -> Heq; [by left; left|].
  destruct (IH _ Heq) as [?|(t1 & -> & ->)]; [left; by right|right; by exists t1].
Qed.

(** Visiting the node on top of the stack. *)
Lemma dfs_inv_visit U em g n stack e ids es g' :
  dfs_inv U em g (n :: stack) → em !! n = Some e → auth_event_ids e = Ok ids →
  graph_touch g n !! n = Some es →
  (∀ m, m ≠ n → g' !! m = graph_touch g n !! m) →
  g' !! n = Some (es ∪ filter (.∈ U) (list_to_set ids)) →
  dfs_inv U em g' (reverse (filter (λ a, a ∈ U ∧ graph_touch g n !! a = None) ids) ++ stack).
Proof.
  intros [Hn Hr Hk He Hs Hc] Hem Hids Hes Hother Hnew.
  assert (∀ x, auth_edge U em n x ↔ x ∈ U ∧ x ∈ ids) as Hae.
  { intros x. unfold auth_edge. rewrite Hem. split.
    { intros (? & e' & ids' & He' & Hi' & ?). assert (ids' = ids) as -> by congruence. done. }
    intros [? ?]. split; [done|]. by exists e, ids. }
  assert (∀ x, x ∈ es → auth_edge U em n x) as Hes0.
  { intros x Hx. unfold graph_touch in Hes. destruct (g !! n) as [es'|] eqn:Hg.
    - rewrite Hg in Hes. simplify_eq. by eapply He.
    - rewrite lookup_insert_eq in Hes. simplify_eq. set_solver. }
  assert (∀ m, is_Some (g' !! m) ↔ m = n ∨ is_Some (g !! m)) as Hdom.
  { intros m. destruct (decide (m = n)) as [->|Hne]; [rewrite Hnew; split; [by left|by eexists]|].
    rewrite Hother by done. unfold graph_touch. destruct (g !! n); [naive_solver|].
    rewrite lookup_insert_ne by done. naive_solver. }
  assert (∀ m, graph_touch g n !! m = None ↔ m ≠ n ∧ g !! m = None) as Htouch.
  { intros m. unfold graph_touch. destruct (g !! n) as [es'|] eqn:Hg.
    - split; [|naive_solver]. intros Hm. split; [|done]. congruence.
    - destruct (decide (m = n)) as [->|]; [rewrite lookup_insert_eq; naive_solver|].
      rewrite lookup_insert_ne by done. naive_solver. }
  set (pushed := reverse _).
  assert (∀ x, x ∈ pushed ↔ x ∈ U ∧ x ∈ ids ∧ x ≠ n ∧ g !! x = None) as Hpush.
  { intros x. unfold pushed. rewrite elem_of_reverse, list_elem_of_filter, Htouch. naive_solver. }
  assert (∀ m, is_Some (g' !! m) → m ≠ n → is_Some (g !! m)) as Hold by (intros m [?|?]%Hdom; done).
  assert (∀ x, auth_edge U em n x → is_Some (g' !! x) ∨ x ∈ pushed) as Hnx.
  { intros x [? ?]%Hae. rewrite Hdom, Hpush. destruct (decide (x = n)); [auto|].
    destruct (g !! x); [left; right; by eexists|auto]. }
  assert (∀ x l, is_Some (g !! x) ∨ x ∈ n :: l → is_Some (g' !! x) ∨ x ∈ l) as Hmv.
  { intros x l. rewrite Hdom, elem_of_cons. naive_solver. }
  split.
  - intros m [[->|Hm]%Hdom|[Hm|Hm]%elem_of_app].
    + apply Hn. right. left.
    + apply Hn. by left.
    + by apply Hpush in Hm as [? _].
    + apply Hn. right. by right.
  - intros m [[->|Hm]%Hdom|[Hm|Hm]%elem_of_app].
    + apply Hr. right. left.
    + apply Hr. by left.
    + apply Hpush in Hm as (HmU & Hin & _). destruct (Hr n) as (r & ? & ?); [right; left|].
      exists r. split; [done|]. eapply rtc_r; [done|]. by apply Hae.
    + apply Hr. right. by right.
  - intros m [->|Hm]%Hdom; [by eexists|by apply Hk].
  - intros m es' x Hm. destruct (decide (m = n)) as [->|Hne].
    + rewrite Hnew in Hm. simplify_eq. rewrite elem_of_union, elem_of_filter, elem_of_list_to_set.
      split; [intros [?|[? ?]]; [by apply Hes0|by apply Hae]|]. intros [? ?]%Hae. by right.
    + rewrite Hother in Hm by done. unfold graph_touch in Hm.
      destruct (g !! n) eqn:Hg; [by eapply He|]. rewrite lookup_insert_ne in Hm by done. by eapply He.
  - intros s1 m s2 x Heq Hm Hx. apply app_eq_cons_split in Heq as [Hin|(t1 & -> & ->)].
    { exfalso. apply Hpush in Hin as (_ & _ & ? & ?). apply Hdom in Hm as [?|[? ?]]; congruence. }
    rewrite elem_of_app. destruct (decide (m = n)) as [->|Hne]; [destruct (Hnx x Hx); auto|].
    destruct (Hmv x t1); [|auto..]. apply (Hs (n :: t1) m s2); eauto.
  - intros m x Hm Hx. rewrite elem_of_app. destruct (decide (m = n)) as [->|Hne]; [destruct (Hnx x Hx); auto|].
    destruct (Hmv x stack); [|auto..]. apply (Hc m); eauto.
Qed.

Definition unvisited (U : gset string) (g : graph) : nat := size (U ∖ dom g).

(** A node on the stack that was visited before pushes nothing. *)
Lemma dfs_push_bound U em g n stack e ids :
  dfs_inv U em g (n :: stack) → em !! n = Some e → auth_event_ids e = Ok ids → is_Some (g !! n) →
  reverse (filter (λ a, a ∈ U ∧ graph_touch g n !! a = None) ids) = [].
Proof.
  intros Hinv He Hids Hn.
  assert (filter (λ a, a ∈ U ∧ graph_touch g n !! a = None) ids = []) as ->; [|done].
  destruct (filter _ ids) as [|a l] eqn:Hf; [done|]. exfalso.
  assert (a ∈ filter (λ a, a ∈ U ∧ graph_touch g n !! a = None) ids) as Ha by (rewrite Hf; left).
  apply list_elem_of_filter in Ha as [[HU Hnone] Hin].
  destruct (di_stack _ _ _ _ Hinv [] n stack a eq_refl Hn) as [Hsome|[]%not_elem_of_nil].
  { split; [done|]. by exists e, ids. }
  destruct Hn as [es Hes]. unfold graph_touch in Hnone. rewrite Hes in Hnone.
  rewrite Hnone in Hsome. by destruct Hsome.
Qed.

Lemma wp_add_chain_loop fuel rid U g stack em :
  I em → dfs_inv U em g stack →
  F ∨ (degree_bounded ∧ length stack + D * unvisited U g ≤ fuel) →
  wp F (add_chain_loop get_events fuel rid U g stack)
    (reads (λ g' em', dfs_inv U em' g' [] ∧ dom g ⊆ dom g' ∧ ∀ n, n ∈ stack → n ∈ dom g') em) em.
Proof.
  revert g stack em. induction fuel as [|fuel IH]; intros g [|n stack] em HI Hinv Hfuel; simpl.
  1, 3: wp_step; split_and!; [done..|]; by intros n []%not_elem_of_nil.
  { destruct Hfuel as [?|[_ ?]]; [done|simpl in *; lia]. }
  wp_step. eapply wp_mono; [by apply wp_get_event|]. intros e em1 (HI1 & Hs1 & He).
  apply (dfs_inv_weaken _ _ em1) in Hinv; [|done].
  do 2 wp_step. rename x into ids, H into Hids.
  assert (∃ es, graph_touch g n !! n = Some es) as [es Hes].
  { unfold graph_touch. destruct (g !! n) as [es|] eqn:Hg; [by exists es|].
    exists ∅. by rewrite lookup_insert_eq. }
  destruct (add_auth_edges_spec U n ids (graph_touch g n) stack es Hes) as (g' & Heq & Hn & Hother).
  rewrite Heq. pose proof (dfs_inv_visit _ _ _ _ _ _ _ _ _ Hinv He Hids Hes Hother Hn) as Hinv'.
  assert (dom g' = {[n]} ∪ dom g) as Hdom.
  { apply set_eq. intros m. rewrite elem_of_union, elem_of_singleton, !elem_of_dom.
    destruct (decide (m = n)) as [->|Hne]; [rewrite Hn; split; [by left|by eexists]|].
    rewrite Hother by done. unfold graph_touch. destruct (g !! n); [naive_solver|].
    rewrite lookup_insert_ne by done. naive_solver. }
  eapply wp_mono; [apply IH; [done..|]|].
  - destruct Hfuel as [?|[HD Hle]]; [by left|]. right. split; [done|].
    pose proof (dfs_push_bound _ _ _ _ _ _ _ Hinv He Hids) as Hb.
    unfold unvisited in *. rewrite Hdom, length_app. simpl in Hle.
    destruct (decide (n ∈ dom g)) as [Hin|Hni].
    + rewrite Hb by (by apply elem_of_dom). simpl.
      replace ({[n]} ∪ dom g) with (dom g) by set_solver. lia.
    + assert (n ∈ U) as HnU by (apply (di_nodes _ _ _ _ Hinv); right; left).
      assert (size (U ∖ dom g) = S (size (U ∖ ({[n]} ∪ dom g)))) as Hsz.
      { replace (U ∖ dom g) with ({[n]} ∪ U ∖ ({[n]} ∪ dom g)).
        - rewrite size_union, size_singleton by set_solver. done.
        - apply set_eq. intros m. destruct (decide (m = n)); set_solver. }
      rewrite Hsz in Hle. assert (length (reverse (filter (λ a, a ∈ U ∧ graph_touch g n !! a = None) ids)) ≤ D) as HleD.
      { rewrite length_reverse. etrans; [apply length_filter|]. by eapply HD. }
      lia.
  - intros gf emf (HIf & Hsf & Hif & Hdf & Hstf). split_and!; [done|by etrans|done|set_solver|].
    intros m [->|Hm]%elem_of_cons; [set_solver|]. apply Hstf, elem_of_app. by right.
Qed.

Lemma dfs_inv_push U em g n : dfs_inv U em g [] → n ∈ U → n ∈ roots → dfs_inv U em g [n].
Proof.
  intros [Hn Hr Hk He Hs Hc] HnU Hroot. split; [| |done|done| |].
  - intros m [Hm| ->%list_elem_of_singleton]; [apply Hn; by left|done].
  - intros m [Hm| ->%list_elem_of_singleton]; [apply Hr; by left|by exists n].
  - intros s1 m s2 x Heq Hm Hx. destruct (Hc m x Hm Hx) as [?|[]%not_elem_of_nil]. by left.
  - intros m x Hm Hx. destruct (Hc m x Hm Hx) as [?|[]%not_elem_of_nil]. by left.
Qed.

Lemma dfs_inv_empty U em : dfs_inv U em ∅ [].
Proof.
  split.
  1, 2: intros n [[? Hn]|[]%not_elem_of_nil]; by rewrite lookup_empty in Hn.
  - intros n [? Hn]. by rewrite lookup_empty in Hn.
  - intros n es x Hn. by rewrite lookup_empty in Hn.
  - intros s1 n s2 x _ [? Hn]. by rewrite lookup_empty in Hn.
  - intros n x [? Hn]. by rewrite lookup_empty in Hn.
Qed.

Lemma wp_power_graph fuel rid U em :
  I em → (∀ n, n ∈ roots → n ∈ U) →
  F ∨ (degree_bounded ∧ 1 + D * size U ≤ fuel) →
  wp F (m_fold (_add_event_and_auth_chain_to_graph get_events fuel rid U) roots ∅)
    (reads (λ g em', dfs_inv U em' g [] ∧ ∀ n, n ∈ roots → n ∈ dom g) em) em.
Proof.
  intros HI HU Hfuel.
  apply (wp_loop F _ (λ l g em', I em' ∧ em ⊆ em' ∧ dfs_inv U em' g [] ∧ l ⊆ roots ∧
    ∀ n, n ∈ roots → n ∈ dom g ∨ n ∈ l)).
  - intros i l g em1 (HI1 & Hs1 & Hinv & Hl & Hg).
    assert (i ∈ roots) as Hi by (apply Hl; left). assert (i ∈ U) as HiU by (by apply HU).
    eapply wp_mono; [apply wp_add_chain_loop; [done|by apply dfs_inv_push|]|].
    { destruct Hfuel as [?|[? Hle]]; [by left|]. right. split; [done|]. simpl.
      assert (unvisited U g ≤ size U) by (apply subseteq_size; set_solver). nia. }
    intros g' em2 (HI2 & Hs2 & Hinv2 & Hd & Hn). split_and!; [done|by etrans|done|set_solver|].
    intros n [?|[->|?]%elem_of_cons]%Hg; [left; by apply Hd|left; apply Hn; left|by right].
  - split_and!; [done|done|apply dfs_inv_empty|done|by right].
  - intros g em1 (HI1 & Hs1 & Hinv & _ & Hg). split_and!; [done..|].
    intros n [?|[]%not_elem_of_nil]%Hg. done.
Qed.
End Graph.

Lemma wp_find_pl_and_create rid ids em :
  I em → wp F (find_pl_and_create get_events rid ids) (reads (λ _ _, True) em) em.
Proof.
  intros HI. unfold find_pl_and_create.
  apply (wp_loop F _ (λ _ _ em', I em' ∧ em ⊆ em')); [|done|by intros ? ? [? ?]].
  intros a l [pl create] em1 [HI1 Hs1]. wp_step. eapply wp_mono; [by apply wp_get_event_opt|].
  intros [ev|] em2 (HI2 & Hs2 & _); [|wp_step; split; [done|by etrans]].
  do 5 wp_step. split; [done|by etrans].
Qed.

Lemma wp_get_power_level rid i em :
  I em → wp F (_get_power_level_for_sender get_events rid i) (reads (λ _ em', is_Some (em' !! i)) em) em.
Proof.
  intros HI. unfold _get_power_level_for_sender. wp_step.
  eapply wp_mono; [by apply wp_get_event|]. intros e em1 (HI1 & Hs1 & He1).
  do 2 wp_step. rename x into ids. wp_step. eapply wp_mono; [by apply wp_find_pl_and_create|].
  intros [pl create] em2 (HI2 & Hs2 & _). assert (em ⊆ em2) by (by etrans).
  assert (em2 !! i = Some e) as He2 by (by eapply lookup_weaken).
  do 2 wp_step. wp_step.
  assert (wp F (match pl with
    | Some pl => m_lift (level_from_pl pl (ev_sender e))
    | None => creator_default_level get_events rid ids e
    end) (reads (λ _ em', is_Some (em' !! i)) em) em2) as Hrest.
  { destruct pl; [wp_step; by split_and!; [..|eexists]|]. unfold creator_default_level.
    wp_step. eapply wp_mono; [by apply wp_find_auth_event|]. intros o em3 (HI3 & Hs3 & _).
    assert (reads (λ _ em', is_Some (em' !! i)) em 0%Z em3) as Hr.
    { split_and!; [done|by etrans|]. exists e. by eapply lookup_weaken. }
    destruct o as [[a ev]|]; wp_step; apply Hr. }
  assert (∀ b : bool, wp F (if b then mret CREATOR_POWER_LEVEL else match pl with
    | Some pl => m_lift (level_from_pl pl (ev_sender e))
    | None => creator_default_level get_events rid ids e
    end) (reads (λ _ em', is_Some (em' !! i)) em) em2) as Hb.
  { intros []; [|done]. wp_step. by split_and!; [..|eexists]. }
  destruct create as [c|]; [destruct (msc4289_creator_power_enabled _)|]; wp_step; first [exact Hrest|exact (Hb _)].
Qed.

(** Sorting by a key in the order [key_le]. *)
Lemma sort_by_key (key : string → Z * Z * string) g :
  ∃ l, lexicographical_topological_sort (λ a b, key_le (key a) (key b)) g = Some (Ok l) ∧
    lex_topo (λ a b, key_le (key a) (key b)) g [] l.
Proof.
  apply (kahn_loop_ok (λ a b, key_le (key a) (key b))); [|by intros ???; apply key_le_trans| |simpl; lia].
  - intros. apply key_le_total.
  - apply kahn_inv_init.
Qed.

Lemma wp_power_sort fuel rid event_ids U em :
  I em → (∀ n, n ∈ event_ids → n ∈ U) →
  F ∨ (degree_bounded ∧ 1 + D * size U ≤ fuel) →
  wp F (_reverse_topological_power_sort get_events fuel rid event_ids U)
    (reads (λ _ _, True) em) em.
Proof.
  intros HI HU Hfuel. unfold _reverse_topological_power_sort. wp_step.
  eapply wp_mono; [by apply wp_power_graph|]. intros g em1 (HI1 & Hs1 & Hinv & Hg). wp_step.
  apply (wp_loop F _ (λ _ _ em', I em' ∧ em1 ⊆ em')); [|done|].
  { intros n l pls em2 [HI2 Hs2]. wp_step. eapply wp_mono; [by apply wp_get_power_level|].
    intros pl em3 (HI3 & Hs3 & _). wp_step. split; [done|by etrans]. }
  intros pls em2 [HI2 Hs2]. do 4 wp_step.
  destruct (sort_by_key (_get_power_order em2 pls) g) as (l & -> & _). wp_step. split_and!; [done|by etrans|done].
Qed.

(** ** Mainline ordering *)

(** [rank] decreases from every event to its auth events. *)
Context (rank : string → nat).
Definition ranked : Prop :=
  ∀ em i e ids a, I em → em !! i = Some e → auth_event_ids e = Ok ids → a ∈ ids → rank a < rank i.

Lemma wp_mainline_loop fuel rid o em :
  I em → F ∨ (ranked ∧ ∀ pl, o = Some pl → rank pl < fuel) →
  wp F (mainline_loop get_events fuel rid o) (reads (λ _ _, True) em) em.
Proof.
  revert o em. induction fuel as [|fuel IH]; intros [pl|] em HI Hf; simpl.
  2, 4: wp_step; by split_and!.
  all: destruct (negb (str_nonempty pl)); [wp_step; by split_and!|].
  { destruct Hf as [?|[_ Hf]]; [done|]. specialize (Hf pl eq_refl). lia. }
  wp_step. eapply wp_mono; [by apply wp_get_event|]. intros e em1 (HI1 & Hs1 & He1).
  do 2 wp_step. rename x into ids, H into Hids. wp_step. eapply wp_mono; [by apply wp_find_auth_event|].
  intros next em2 (HI2 & Hs2 & Hn). wp_step. eapply wp_mono; [apply IH; [done|]|].
  - destruct Hf as [?|[Hr Hf]]; [by left|]. right. split; [done|]. intros pl' Hpl'.
    destruct next as [[a ev]|]; simplify_eq/=. destruct (Hn _ _ eq_refl) as (Ha & _ & _).
    specialize (Hr em1 pl e ids pl' HI1 He1 Hids Ha). specialize (Hf pl eq_refl). lia.
  - intros rest em3 (HI3 & Hs3 & _). wp_step. split_and!; [done|by do 2 etrans|done].
Qed.

Lemma wp_mainline_depth_loop fuel rid mm o em :
  I em → F ∨ (ranked ∧ ∀ ev, o = Some ev → ∃ i, em !! i = Some ev ∧ rank i < fuel) →
  wp F (mainline_depth_loop get_events fuel rid mm o) (reads (λ _ _, True) em) em.
Proof.
  revert o em. induction fuel as [|fuel IH]; intros [ev|] em HI Hf; simpl.
  2, 4: wp_step; by split_and!.
  all: destruct (mm !! event_id ev); [wp_step; by split_and!|].
  { destruct Hf as [?|[_ Hf]]; [done|]. destruct (Hf ev eq_refl) as (i & _ & ?). lia. }
  do 2 wp_step. rename x into ids, H into Hids. wp_step. eapply wp_mono; [by apply wp_find_auth_event|].
  intros next em2 (HI2 & Hs2 & Hn). eapply wp_mono; [apply IH; [done|]|].
  - destruct Hf as [?|[Hr Hf]]; [by left|]. right. split; [done|]. intros ev' Hev'.
    destruct next as [[a ev2]|]; simplify_eq/=. destruct (Hn _ _ eq_refl) as (Ha & Hea & _).
    destruct (Hf ev eq_refl) as (i & Hi & Hlt). exists a. split; [done|].
    specialize (Hr em i ev ids a HI Hi Hids Ha). lia.
  - intros d em3 (HI3 & Hs3 & _). split_and!; [done|by etrans|done].
Qed.

Lemma StronglySorted_impl_in {A} (R R' : A → A → Prop) l :
  StronglySorted R l → (∀ a b, a ∈ l → b ∈ l → R a b → R' a b) → StronglySorted R' l.
Proof.
  induction 1 as [|x l Hs IH Hx]; intros Himp; constructor.
  - apply IH. intros. apply Himp; [by right..|done].
  - rewrite Forall_forall in *. intros y Hy. apply Himp; [left|by right|by apply Hx].
Qed.

(** The mainline key of the event at [i]. *)
Definition mainline_key (em : gmap string event) (depth : string → Z) (i : string) : Z * Z * string :=
  (depth i, default 0%Z (ev_origin_server_ts <$> em !! i), i).

Lemma wp_mainline_sort fuel rid ids o em :
  I em →
  F ∨ (ranked ∧ (∀ n, n ∈ ids → rank n < fuel) ∧ ∀ pl, o = Some pl → rank pl < fuel) →
  wp F (_mainline_sort get_events fuel rid ids o) (reads (λ _ _, True) em) em.
Proof.
  intros HI Hf. unfold _mainline_sort. destruct ids as [|i0 ids0]; [by wp_step|].
  set (ids := i0 :: ids0) in *. wp_step.
  eapply wp_mono; [apply wp_mainline_loop; [done|]|].
  { destruct Hf as [?|(? & _ & ?)]; [by left|by right]. }
  intros mainline em1 (HI1 & Hs1 & _). wp_step.
  apply (wp_loop F _ (λ l _ em', I em' ∧ em1 ⊆ em' ∧ l ⊆ ids)); [|done|].
  - intros i l om em2 (HI2 & Hs2 & Hl). wp_step. apply wp_event_map_index. intros e He.
    wp_step. unfold _get_mainline_depth_for_event. do 2 wp_step. rename x into r.
    eapply wp_mono; [apply wp_mainline_depth_loop; [done|]|].
    { destruct Hf as [?|(? & Hf & _)]; [by left|]. right. split; [done|].
      intros ev [= <-]. exists i. split; [done|]. apply Hf, Hl. left. }
    intros d em3 (HI3 & Hs3 & _). wp_step. split_and!; [done|by etrans|set_solver].
  - intros om em2 (HI2 & Hs2 & _). wp_step. split_and!; [done|by etrans|done].
Qed.

(** ** Iterative auth checks *)
Context (valid_ipv6 : string → bool).
Context (verify_signed_json : pydict → string → string → json → result unit).
(** The invariant is also kept by marking an event. *)
Context (I_mark : ∀ em i e e', I em → em !! i = Some e → same_event e e' → I (<[i := e']> em)).

Lemma wp_own_auth_events rid ids em :
  I em → wp F (own_auth_events get_events rid ids) (reads (λ _ _, True) em) em.
Proof.
  intros HI. unfold own_auth_events.
  apply (wp_loop F _ (λ _ _ em', I em' ∧ em ⊆ em')); [|done|by intros ? ? [? ?]].
  intros a l auth em1 [HI1 Hs1]. wp_step. eapply wp_mono; [by apply wp_get_event_opt|].
  intros o em2 (HI2 & Hs2 & _). assert (em ⊆ em2) by (by etrans).
  destruct o as [ev|]; [|by wp_step]. destruct (ev_rejected_reason ev); [by wp_step|]. by do 3 wp_step.
Qed.

Lemma wp_override rid st keys auth0 em :
  I em → wp F (override_auth_events get_events rid st keys auth0) (reads (λ _ _, True) em) em.
Proof.
  intros HI. unfold override_auth_events.
  apply (wp_loop F _ (λ _ _ em', I em' ∧ em ⊆ em')); [|done|by intros ? ? [? ?]].
  intros k l auth em1 [HI1 Hs1]. destruct (st !! k) as [i|]; [|by wp_step].
  wp_step. eapply wp_mono; [by apply wp_get_event|]. intros ev em2 (HI2 & Hs2 & _).
  assert (em ⊆ em2) by (by etrans). destruct (ev_rejected_reason ev); [by wp_step|].
  wp_step. apply wp_event_map_index. intros ev' _. by wp_step.
Qed.

Lemma wp_iterative_auth_checks rid rv ids base em :
  I em →
  wp F (_iterative_auth_checks valid_ipv6 verify_signed_json get_events rid rv ids base)
    (λ _ em', I em') em.
Proof.
  intros HI. unfold _iterative_auth_checks. apply (wp_loop F _ (λ _ _ em', I em')); [|done|done].
  clear em HI. intros i l st em HI. unfold auth_check_step.
  wp_step. apply wp_event_map_index. intros e He. do 2 wp_step.
  wp_step. eapply wp_mono; [by apply wp_own_auth_events|].
  intros auth0 em1 (HI1 & Hs1 & _). do 3 wp_step. eapply wp_mono; [by apply wp_override|].
  intros auth em2 (HI2 & Hs2 & _). destruct (ev_rejected_reason e) eqn:Hrej; [by wp_step|].
  destruct (check_state_dependent_auth_rules _ _ _ _) as [e'|ex] eqn:Hchk;
    [|by destruct (is_auth_error ex); wp_step].
  assert (em2 !! i = Some e) as He2 by (eapply lookup_weaken; [done|by etrans]).
  pose proof (check_rules_same_event _ _ _ _ _ Hchk) as Hsame.
  do 6 wp_step. by eapply I_mark.
Qed.

(** ** Resolving the conflicted set *)
Lemma wp_select_power_events ids em :
  wp F (select_power_events ids) (λ l em', em' = em ∧ ∀ n, n ∈ l → n ∈ ids) em.
Proof.
  unfold select_power_events.
  apply (wp_loop F _ (λ l acc em', em' = em ∧ l ⊆ ids ∧ ∀ n, n ∈ acc → n ∈ ids)).
  - intros i l acc em1 (-> & Hl & Hacc). wp_step. apply wp_event_map_index. intros e He.
    do 3 wp_step. split_and!; [done|set_solver|]. destruct x; [|done]. set_solver.
  - split_and!; [done..|]. by intros n []%not_elem_of_nil.
  - intros acc em1 (? & _ & ?). done.
Qed.

Lemma wp_resolve_conflicted fuel rid rv base U em :
  I em →
  F ∨ (degree_bounded ∧ ranked ∧ 1 + D * size U ≤ fuel ∧ ∀ i, rank i < fuel) →
  wp F (resolve_conflicted valid_ipv6 verify_signed_json get_events fuel rid rv base U)
    (λ _ em', I em') em.
Proof.
  intros HI Hf. unfold resolve_conflicted. wp_step.
  eapply wp_mono; [apply wp_select_power_events|]. intros power em1 [-> Hpow]. wp_step.
  eapply wp_mono; [apply wp_power_sort; [done|by intros n Hn%Hpow%elem_of_elements|]|].
  { destruct Hf as [?|(? & _ & ? & _)]; [by left|by right]. }
  intros sorted em2 (HI2 & _ & _). wp_step.
  eapply wp_mono; [by apply wp_iterative_auth_checks|]. intros st1 em3 HI3. wp_step.
  eapply wp_mono; [apply wp_mainline_sort; [done|]|].
  { destruct Hf as [?|(? & ? & _ & Hr)]; [by left|]. right. split_and!; [done|intros; apply Hr..]. }
  intros left em4 (HI4 & _ & _). wp_step.
  eapply wp_mono; [by apply wp_iterative_auth_checks|]. intros st2 em5 HI5. by wp_step.
Qed.
End Resolution.

(** ** The auth chain difference does not touch the event map *)
Section AuthDifference.
Context (get_auth_chain_difference :
  string → list (gset string) → option (gset string) → gset string →
  gset string * option (gset string)).

Lemma wp_chain_search fuel unp chain links to_search em :
  wp True (chain_search fuel unp chain links to_search) (λ _ em', em' = em) em.
Proof.
  revert chain links to_search. induction fuel as [|fuel IH]; intros chain links [|e to_search];
    simpl; [by wp_step|done|by wp_step|].
  do 2 wp_step. destruct (foldl _ _ _) as [[chain' links'] to_search']. apply IH.
Qed.

Lemma wp_auth_chains fuel unp em : wp True (auth_chains fuel unp) (λ _ em', em' = em) em.
Proof.
  unfold auth_chains. apply (wp_loop True _ (λ _ _ em', em' = em)); [|done|done].
  intros e l [chains links] em1 ->. wp_step. eapply wp_mono; [apply wp_chain_search|].
  intros [chain links'] em2 ->. by wp_step.
Qed.

Lemma wp_forward_search fuel links fw queue em :
  wp True (forward_search fuel links fw queue) (λ _ em', em' = em) em.
Proof.
  revert fw queue. induction fuel as [|fuel IH]; intros fw queue; simpl.
  - destruct (elements queue); [by wp_step|done].
  - destruct (elements queue); [by wp_step|apply IH].
Qed.

Lemma wp_auth_chain_difference fuel rid sets unp confl em :
  wp True (_get_auth_chain_difference get_auth_chain_difference fuel rid sets unp confl)
    (λ _ em', em' = em) em.
Proof.
  unfold _get_auth_chain_difference. wp_step. eapply wp_mono; [apply wp_auth_chains|].
  intros [chains links] em1 ->. wp_step.
  set (tail := λ part : gset string, _).
  assert (∀ part, tail part em) as Htail.
  { intros part. unfold tail. destruct (if bool_decide _ then _ else _) as [uce backwards].
    destruct (get_auth_chain_difference _ _ _ _) as [ad sg]. wp_step.
    destruct confl as [cf|], sg as [sg|]; try by do 2 wp_step.
    case_bool_decide; [by do 2 wp_step|]. wp_step. unfold expand_subgraph. wp_step.
    eapply wp_mono; [apply wp_forward_search|]. intros fw em1 ->. by do 3 wp_step. }
  case_bool_decide; wp_step; apply Htail.
Qed.
End AuthDifference.

(** The events in conflict between the state sets. *)
Definition conflicted_events (sets : list (StateMap string)) : gset string :=
  ⋃ (map_to_list (_seperate sets).2).*2.

(** ** Termination *)

(** Every event has at most [D] auth events, all of smaller rank: the auth events
    form a finite acyclic graph, since an event names the hashes of its auth
    events. *)
Definition auth_dag (D : nat) (rank : string → nat) (em : gmap string event) : Prop :=
  ∀ i e ids, em !! i = Some e → auth_event_ids e = Ok ids →
    length ids ≤ D ∧ ∀ a, a ∈ ids → rank a < rank i.

Lemma same_event_auth_ids e e' : same_event e e' → auth_event_ids e' = auth_event_ids e.
Proof. by intros [-> | ->]. Qed.

Section Termination.
Context (valid_ipv6 : string → bool).
Context (verify_signed_json : pydict → string → string → json → result unit).
Context (get_events : list string → gmap string event).
Context (get_events_requested : ∀ ids i, is_Some (get_events ids !! i) → i ∈ ids).
Context (D : nat) (rank : string → nat).
Context (store_dag : ∀ ids, auth_dag D rank (get_events ids)).

Lemma auth_dag_fetch ids em :
  (∀ i, i ∈ ids → em !! i = None) → auth_dag D rank em → auth_dag D rank (get_events ids ∪ em).
Proof.
  intros _ Hem i e l [He|[_ He]]%lookup_union_Some_raw; [by apply (store_dag ids)|by apply Hem].
Qed.

Lemma auth_dag_mark em i e e' :
  auth_dag D rank em → em !! i = Some e → same_event e e' → auth_dag D rank (<[i := e']> em).
Proof.
  intros Hem Hi Hs j ej l. destruct (decide (j = i)) as [->|].
  - rewrite lookup_insert_eq. intros [= <-]. rewrite (same_event_auth_ids _ _ Hs). by apply Hem.
  - rewrite lookup_insert_ne by done. apply Hem.
Qed.

Lemma auth_dag_degree : degree_bounded (auth_dag D rank) D.
Proof. intros em i e ids Hem Hi Hids. by apply (Hem i e ids). Qed.

Lemma auth_dag_ranked : ranked (auth_dag D rank) rank.
Proof. intros em i e ids a Hem Hi Hids. by apply (Hem i e ids). Qed.

(** C24: once the full conflicted set is known, resolution ends.  No loop of
    [resolve_conflicted] runs out of fuel when there is fuel for [D] auth events
    per conflicted event and for the longest chain of auth events. *)
Theorem resolve_conflicted_terminates fuel rid rv base U em :
  auth_dag D rank em → 1 + D * size U ≤ fuel → (∀ i, rank i < fuel) →
  resolve_conflicted valid_ipv6 verify_signed_json get_events fuel rid rv base U em ≠ None.
Proof.
  intros Hem Hf Hr. eapply wp_total.
  apply (wp_resolve_conflicted get_events get_events_requested False (auth_dag D rank) auth_dag_fetch
    D rank valid_ipv6 verify_signed_json auth_dag_mark); [done|].
  right. split_and!; [apply auth_dag_degree|apply auth_dag_ranked|done..].
Qed.
End Termination.
