(* ===== verification/StateResCorrect.v ===== *)
(** What state resolution computes, stated on the known events.

    The functions of [StateRes] read events through the dictionary they share
    and fill it from the store. When the store answers every request from the
    same stored events, what they know is the dictionary over the store, a map
    that fetching does not change. The orders, the auth events and the states of
    a resolution are specified here on that map; the theorems show that
    [resolve_events_with_store] computes them. *)
From S2P Require Import Prelude RoomVersions Events EventAuth EventAuthProps TopoSort StateRes StateResProps.

(** ** Auth events of an event *)
Definition at_key (key : StateKey) (e : event) : Prop :=
  (ev_type e, ev_state_key e) = (key.1, Some key.2).

#[export] Instance at_key_dec key e : Decision (at_key key e).
Proof. unfold at_key. apply _. Defined.

(** The known events among [ids], with their IDs. *)
Definition known (V : gmap string event) (ids : list string) : list (string * event) :=
  omap (λ a, (λ e, (a, e)) <$> V !! a) ids.

Definition first_at (V : gmap string event) (key : StateKey) (ids : list string)
    : option (string * event) :=
  head (filter (λ p, at_key key p.2) (known V ids)).

Definition last_at (V : gmap string event) (key : StateKey) (ids : list string) : option event :=
  snd <$> last (filter (λ p, at_key key p.2) (known V ids)).

(** ** The power level of a sender, by the auth events of its event *)
Definition room_creator (rv : RoomVersion) (create : event) : json :=
  if implicit_room_creator rv then JStr (ev_sender create)
  else dict_get_or (ev_content create) "creator" JNull.

(** The creators of the room outrank everyone, in the room versions that say so. *)
Definition privileged_creator (V : gmap string event) (ids : list string) (user : string) (b : bool)
    : Prop :=
  match last_at V CREATE_KEY ids with
  | Some create =>
      if msc4289_creator_power_enabled (ev_room_version create)
      then is_creator create user = Ok b else b = false
  | None => b = false
  end.

(** [n] is the power level of the sender of [e]: by the creation event, by the
    last power levels event, or, where there is none, 100 for the creator of the
    room and 0 for anyone else. *)
Inductive sender_power (V : gmap string event) (e : event) : Z → Prop :=
  | power_of_creator ids :
      auth_event_ids e = Ok ids → privileged_creator V ids (ev_sender e) true →
      sender_power V e CREATOR_POWER_LEVEL
  | power_from_levels ids pl n :
      auth_event_ids e = Ok ids → privileged_creator V ids (ev_sender e) false →
      last_at V POWER_KEY ids = Some pl → level_from_pl pl (ev_sender e) = Ok n →
      sender_power V e n
  | power_of_first ids a create :
      auth_event_ids e = Ok ids → privileged_creator V ids (ev_sender e) false →
      last_at V POWER_KEY ids = None → first_at V CREATE_KEY ids = Some (a, create) →
      room_creator (ev_room_version e) create = JStr (ev_sender e) →
      sender_power V e 100
  | power_of_others ids :
      auth_event_ids e = Ok ids → privileged_creator V ids (ev_sender e) false →
      last_at V POWER_KEY ids = None →
      (∀ a create, first_at V CREATE_KEY ids = Some (a, create) →
         room_creator (ev_room_version e) create ≠ JStr (ev_sender e)) →
      sender_power V e 0.

(** ** Reverse topological power ordering *)

(** [x] is an auth event of [n] in the conflicted set. *)
Definition conflicted_auth (U : gset string) (V : gmap string event) : string → string → Prop :=
  auth_edge U V.

Definition power_key (V : gmap string event) (power : string → Z) (i : string) : Z * Z * string :=
  ((- power i)%Z, default 0%Z (ev_origin_server_ts <$> V !! i), i).

(** [l] orders the events [ids] and their auth chains within [U]: each event
    after its auth events, and among the events whose auth events are all listed
    already, the one whose sender has the greatest power first, then the oldest,
    then the one with the least ID. *)
Record power_ordered (U : gset string) (V : gmap string event) (ids l : list string) : Prop := {
  po_nodup : NoDup l;
  po_chain : ∀ n, n ∈ l → n ∈ U ∧ ∃ r, r ∈ ids ∧ rtc (conflicted_auth U V) r n;
  po_all : (∃ rank : string → nat, ∀ n x, conflicted_auth U V n x → rank x < rank n) →
    ∀ r n, r ∈ ids → rtc (conflicted_auth U V) r n → n ∈ l;
  po_after : ∀ l1 n l2 x, l = l1 ++ n :: l2 → conflicted_auth U V n x → x ∈ l1;
  po_least : ∃ power : string → Z,
    (∀ n, n ∈ l → ∃ e, V !! n = Some e ∧ sender_power V e (power n)) ∧
    ∀ l1 n l2 m, l = l1 ++ n :: l2 → m ∈ l2 → (∀ x, conflicted_auth U V m x → x ∈ l1) →
      key_le (power_key V power n) (power_key V power m) = true
}.

(** ** Mainline ordering *)

(** The power levels event an event was authorised by. *)
Definition pl_parent (V : gmap string event) (e : event) : option (string * event) :=
  match auth_event_ids e with
  | Ok ids => first_at V POWER_KEY ids
  | Raise _ => None
  end.

(** The mainline: the power levels event, the one it was authorised by, and so on. *)
Inductive mainline_from (V : gmap string event) : option string → list string → Prop :=
  | mainline_none : mainline_from V None []
  | mainline_empty_id : mainline_from V (Some "") []
  | mainline_step i e rest :
      i ≠ "" → V !! i = Some e → mainline_from V (fst <$> pl_parent V e) rest →
      mainline_from V (Some i) (i :: rest).

(** The mainline depth of [e]: its distance from the end of the mainline [ml],
    counted from 1, if it is on it; else the depth of the power levels event it
    was authorised by; 0 if there is none. *)
Inductive mainline_depth (V : gmap string event) (ml : list string) (e : event) : Z → Prop :=
  | depth_on pre post :
      ml = pre ++ event_id e :: post → event_id e ∉ pre →
      mainline_depth V ml e (Z.of_nat (S (length post)))
  | depth_off a parent d :
      event_id e ∉ ml → pl_parent V e = Some (a, parent) →
      mainline_depth V ml parent d → mainline_depth V ml e d
  | depth_none : event_id e ∉ ml → pl_parent V e = None → mainline_depth V ml e 0.

Definition mainline_ordered (V : gmap string event) (pl : option string) (ids l : list string)
    : Prop :=
  l ≡ₚ ids ∧
  (ids ≠ [] → ∃ ml depth, mainline_from V pl ml ∧
    (∀ i, i ∈ ids → ∃ e, V !! i = Some e ∧ mainline_depth V ml e (depth i)) ∧
    StronglySorted (λ a b, key_le (mainline_key V depth a) (mainline_key V depth b) = true) l).

(** ** Iterative auth checks *)

(** The event at [i], if it is known and was not rejected. *)
Definition live (V : gmap string event) (i : string) : option event :=
  e ← V !! i;
  match ev_rejected_reason e with Some _ => None | None => Some e end.

(** The auth event at [key] for an event with the auth events [ids]: the one of
    the resolved state, if [key] is one the rules look at; else its own. *)
Definition auth_at (V : gmap string event) (st : StateMap string) (types : gset StateKey)
    (ids : list string) (key : StateKey) : option event :=
  match (if decide (key ∈ types) then st !! key ≫= live V else None) with
  | Some e => Some e
  | None => last (filter (at_key key) (omap (live V) ids))
  end.

Section Checked.
Context (valid_ipv6 : string → bool).
Context (verify_signed_json : pydict → string → string → json → result unit).
Context (rv : RoomVersion).

(** The verdict of the authorization rules on [e] in the state [st]. *)
Definition verdict (V : gmap string event) (st : StateMap string) (e : event) (r : result event)
    : Prop :=
  ∃ ids types (auth : StateMap event),
    auth_event_ids e = Ok ids ∧ auth_types_for_event rv e = Ok types ∧
    (∀ key, auth !! key = auth_at V st types ids key) ∧
    r = check_state_dependent_auth_rules valid_ipv6 verify_signed_json e (map_to_list auth).*2.

(** From the events [V] and the state [st], checking the events of the list in
    turn ends with [V'] and [st']: an event that was not rejected and is
    authorised by the state before it replaces the entry at its key; any other
    event changes nothing. *)
Inductive checked : gmap string event → StateMap string → list string →
    gmap string event → StateMap string → Prop :=
  | checked_nil V st : checked V st [] V st
  | checked_accept V st i e e' sk l V' st' :
      V !! i = Some e → ev_rejected_reason e = None → verdict V st e (Ok e') →
      ev_state_key e = Some sk →
      checked (<[i := e']> V) (<[(ev_type e, sk) := i]> st) l V' st' →
      checked V st (i :: l) V' st'
  | checked_reject V st i e l V' st' :
      V !! i = Some e → ev_rejected_reason e ≠ None →
      checked V st l V' st' → checked V st (i :: l) V' st'
  | checked_refuse V st i e ex l V' st' :
      V !! i = Some e → ev_rejected_reason e = None →
      verdict V st e (Raise ex) → is_auth_error ex = true →
      checked V st l V' st' → checked V st (i :: l) V' st'.
End Checked.

(** ** The whole resolution *)

(** Power levels, join rules and creation, and the events that end the membership
    of another user. *)
Definition power_event (e : event) : Prop :=
  ∃ sk, ev_state_key e = Some sk ∧
    ((ev_type e, sk) = POWER_KEY ∨ (ev_type e, sk) = JOIN_RULES_KEY ∨ (ev_type e, sk) = CREATE_KEY ∨
     ev_type e = EventTypes.Member ∧ ev_sender e ≠ sk ∧
     ∃ ms, dict_get (ev_content e) "membership" = Some (JStr ms) ∧ (ms = "leave" ∨ ms = "ban")).

(** The resolution of the conflicted events [U] over the agreed state [base]:
    first the power events, in power order, then the others, in the mainline
    order of the power levels event resolved so far; the agreed state wins. *)
Definition resolved (valid_ipv6 : string → bool)
    (verify_signed_json : pydict → string → string → json → result unit) (rv : RoomVersion)
    (V : gmap string event) (U : gset string) (base res : StateMap string) : Prop :=
  ∃ power sorted others V1 st1 V2 st2,
    (∀ i, i ∈ power ↔ i ∈ U ∧ ∃ e, V !! i = Some e ∧ power_event e) ∧
    power_ordered U V power sorted ∧
    checked valid_ipv6 verify_signed_json rv V (if state_res_v21 rv then ∅ else base) sorted V1 st1 ∧
    mainline_ordered V1 (st1 !! POWER_KEY) (filter (.∉ sorted) (elements U)) others ∧
    checked valid_ipv6 verify_signed_json rv V1 st1 others V2 st2 ∧
    res = base ∪ st2.

(** * Proofs *)
Section View.
Context (get_events : list string → gmap string event).
Context (store : gmap string event).
Context (get_events_store :
  ∀ ids i, get_events ids !! i = if decide (i ∈ ids) then store !! i else None).

Definition view (em : gmap string event) : gmap string event := em ∪ store.

Lemma view_subseteq em : em ⊆ view em.
Proof. apply map_union_subseteq_l. Qed.

Lemma view_lookup em i e : em !! i = Some e → view em !! i = Some e.
Proof. intros. by apply lookup_union_Some_l. Qed.

Lemma view_fetch ids em : (∀ i, i ∈ ids → em !! i = None) → view (get_events ids ∪ em) = view em.
Proof.
  intros Hnew. apply map_eq. intros i. unfold view.
  rewrite !lookup_union, get_events_store. case_decide as Hi.
  - rewrite (Hnew i Hi). by destruct (store !! i).
  - by destruct (em !! i), (store !! i).
Qed.

Lemma view_mark em i e' : view (<[i := e']> em) = <[i := e']> (view em).
Proof. unfold view. by rewrite insert_union_l. Qed.

(** A step that reads events: it returns [x], and leaves what is known alone. *)
Definition looks {A} (P : A → Prop) (em : gmap string event) (x : A) (em' : gmap string event) : Prop :=
  view em' = view em ∧ em ⊆ em' ∧ P x.

Lemma looks_trans {A B} (P : A → Prop) (Q : B → Prop) em em1 em2 x y :
  looks P em x em1 → looks Q em1 y em2 → looks Q em y em2.
Proof. intros (H1 & H2 & _) (H3 & H4 & ?). split_and!; [congruence|by etrans|done]. Qed.

Lemma wp_view_get_event_opt rid i em :
  wp True (get_event_opt get_events rid i) (looks (λ o, o = view em !! i) em) em.
Proof.
  unfold get_event_opt. do 3 wp_step.
  assert (∀ em1, view em1 = view em → em ⊆ em1 → em1 !! i = view em !! i →
    wp True (em0 ← m_get; match em0 !! i with
    | None => mret None
    | Some e => r ← m_lift (room_id e); if String.eqb r rid then mret (Some e)
        else m_raise (PyException "In state res for room %s, event %s is in %s")
    end) (looks (λ o, o = view em !! i) em) em1) as Hrest.
  { intros em1 Hv Hsub Hi. do 2 wp_step. destruct (em1 !! i) as [e|] eqn:He.
    - do 2 wp_step. destruct (String.eqb _ _); wp_step. by split_and!.
    - wp_step. by split_and!. }
  case_decide as Hnone; wp_step.
  - apply Hrest.
    + apply view_fetch. by intros ? ->%list_elem_of_singleton.
    + apply fetch_extends; [|by intros ? ->%list_elem_of_singleton].
      intros ids j. rewrite get_events_store. case_decide; [done|]. by intros [? ?].
    + unfold view. rewrite !lookup_union, get_events_store, decide_True, Hnone by set_solver.
      by destruct (store !! i).
  - apply Hrest; [done..|]. destruct (em !! i) as [e|] eqn:He; [|done]. symmetry. by apply view_lookup.
Qed.

Lemma wp_view_get_event rid i em :
  wp True (_get_event get_events rid i) (looks (λ e, view em !! i = Some e) em) em.
Proof.
  unfold _get_event. wp_step. eapply wp_mono; [apply wp_view_get_event_opt|].
  intros [e|] em' (? & ? & He); wp_step. by split_and!.
Qed.

Lemma is_at_ok e key b : is_at e key = Ok b → b = bool_decide (at_key key e).
Proof.
  unfold is_at, state_key. intros (sk & Hsk%of_option_ok & [= <-])%bind_ok.
  apply bool_decide_ext. unfold at_key. rewrite Hsk. destruct key. naive_solver.
Qed.

Lemma known_cons V a ids :
  known V (a :: ids) = match V !! a with Some e => (a, e) :: known V ids | None => known V ids end.
Proof. unfold known. simpl. by destruct (V !! a). Qed.

Lemma known_snoc V ids a :
  known V (ids ++ [a]) = known V ids ++ match V !! a with Some e => [(a, e)] | None => [] end.
Proof. unfold known. rewrite omap_app. simpl. by destruct (V !! a). Qed.

Lemma wp_view_find rid key ids em :
  wp True (find_auth_event get_events rid key ids) (looks (λ o, o = first_at (view em) key ids) em) em.
Proof.
  revert em. induction ids as [|a ids IH]; intros em; simpl; [wp_step; by split_and!|].
  wp_step. eapply wp_mono; [apply wp_view_get_event_opt|]. intros o em1 (Hv & Hs & Ho).
  assert (wp True (find_auth_event get_events rid key ids)
    (looks (λ o, o = first_at (view em) key ids) em) em1) as Hrest.
  { eapply wp_mono; [apply IH|]. rewrite Hv. intros o' em2 (? & ? & ?).
    split_and!; [congruence|by etrans|done]. }
  unfold first_at in *. rewrite known_cons, <- Ho. destruct o as [e|]; [|done].
  do 2 wp_step. rename x into b. apply is_at_ok in H as ->. case_bool_decide as Hat.
  - wp_step. split_and!; [done..|]. by rewrite filter_cons_True.
  - by rewrite filter_cons_False.
Qed.

Lemma last_at_snoc V key ids a :
  last_at V key (ids ++ [a]) =
  match V !! a with
  | Some e => if bool_decide (at_key key e) then Some e else last_at V key ids
  | None => last_at V key ids
  end.
Proof.
  unfold last_at. rewrite known_snoc. destruct (V !! a) as [e|]; [|by rewrite app_nil_r].
  rewrite filter_app. case_bool_decide.
  - by rewrite filter_cons_True, filter_nil, last_snoc.
  - by rewrite filter_cons_False, filter_nil, app_nil_r.
Qed.

(** The loop rule for a loop that only reads: [P] holds of the part of the list
    that was done. *)
Lemma wp_view_loop {A S} (f : S → A → M S) (P : list A → S → Prop) l s em :
  P [] s →
  (∀ done x s em1, view em1 = view em → P done s →
     wp True (f s x) (looks (P (done ++ [x])) em1) em1) →
  wp True (m_fold f l s) (looks (P l) em) em.
Proof.
  intros Hnil Hstep.
  apply (wp_loop True _ (λ rest s em1, view em1 = view em ∧ em ⊆ em1 ∧
    ∃ done, l = done ++ rest ∧ P done s)).
  - intros x rest s1 em1 (Hv & Hs & done & -> & HP).
    eapply wp_mono; [by apply (Hstep done)|]. intros s2 em2 (Hv2 & Hs2 & HP2).
    split_and!; [congruence|by etrans|]. exists (done ++ [x]). by rewrite <- app_assoc.
  - split_and!; [done..|]. by exists [].
  - intros s1 em1 (? & ? & done & -> & ?). rewrite app_nil_r. by split_and!.
Qed.

Lemma wp_view_pl_and_create rid ids em :
  wp True (find_pl_and_create get_events rid ids)
    (looks (λ r, r = (last_at (view em) POWER_KEY ids, last_at (view em) CREATE_KEY ids)) em) em.
Proof.
  unfold find_pl_and_create.
  apply (wp_view_loop _ (λ ids r, r = (last_at (view em) POWER_KEY ids, last_at (view em) CREATE_KEY ids)));
    [done|].
  intros done a [pl create] em1 Hv [= -> ->]. wp_step.
  eapply wp_mono; [apply wp_view_get_event_opt|]. intros o em2 (Hv2 & Hs2 & Ho).
  rewrite !last_at_snoc. rewrite Hv in Ho. rewrite <- Ho.
  destruct o as [e|]; [|wp_step; by split_and!].
  do 2 wp_step. rename x into b, H into Hb. do 2 wp_step. rename x into b', H into Hb'. wp_step.
  apply is_at_ok in Hb as ->. apply is_at_ok in Hb' as ->. by split_and!.
Qed.

Lemma wp_view_power_level rid i em :
  wp True (_get_power_level_for_sender get_events rid i)
    (looks (λ n, ∃ e, view em !! i = Some e ∧ sender_power (view em) e n) em) em.
Proof.
  unfold _get_power_level_for_sender. wp_step.
  eapply wp_mono; [apply wp_view_get_event|]. intros e em1 (Hv1 & Hs1 & He).
  do 2 wp_step. rename x into ids, H into Hids. wp_step.
  eapply wp_mono; [apply wp_view_pl_and_create|]. rewrite Hv1.
  intros [pl create] em2 (Hv2 & Hs2 & [= -> ->]). assert (em ⊆ em2) by (by etrans).
  assert (view em2 = view em) by congruence. do 2 wp_step. clear x H1. wp_step.
  set (tail := λ b : bool, if b then mret CREATOR_POWER_LEVEL
    else match last_at (view em) POWER_KEY ids with
      | Some pl => m_lift (level_from_pl pl (ev_sender e))
      | None => creator_default_level get_events rid ids e
      end : M Z).
  assert (∀ b, privileged_creator (view em) ids (ev_sender e) b →
    wp True (tail b) (looks (λ n, ∃ e, view em !! i = Some e ∧ sender_power (view em) e n) em) em2) as Htail.
  { intros [] Hb; unfold tail.
    { wp_step. split_and!; [done..|]. exists e. split; [done|]. by eapply power_of_creator. }
    destruct (last_at _ POWER_KEY ids) as [p|] eqn:Hpl.
    { wp_step. split_and!; [done..|]. exists e. split; [done|]. by eapply power_from_levels. }
    unfold creator_default_level. wp_step. eapply wp_mono; [apply wp_view_find|].
    rewrite Hv2, Hv1. intros o em3 (Hv3 & Hs3 & Ho).
    assert (em ⊆ em3) by (by etrans).
    destruct o as [[a c]|]; wp_step; (split_and!; [congruence|done|]); exists e; split; try done.
    - destruct (json_is_str _ _) eqn:Hj.
      + apply json_is_str_true in Hj. by eapply power_of_first.
      + eapply power_of_others; try done. intros a' c'. rewrite <- Ho. intros [= <- <-] Hc.
        apply json_is_str_true in Hc. unfold room_creator in Hc. congruence.
    - eapply power_of_others; try done. intros a' c'. by rewrite <- Ho. }
  destruct (last_at _ CREATE_KEY ids) as [c|] eqn:Hc; [destruct (msc4289_creator_power_enabled _) eqn:Hm|];
    wp_step; (first [refine (Htail _ _)|refine (Htail false _)]; unfold privileged_creator; rewrite Hc, ?Hm; done).
Qed.

(** ** The power ordering *)
Lemma get_events_asked ids i : is_Some (get_events ids !! i) → i ∈ ids.
Proof. rewrite get_events_store. case_decide; [done|]. by intros [? ?]. Qed.

Lemma wp_view_levels rid ids em :
  wp True (m_fold (λ pls event_id,
      pl ← _get_power_level_for_sender get_events rid event_id;
      mret (<[event_id := pl]> pls)) ids (∅ : gmap string Z))
    (looks (λ pls, ∀ i, i ∈ ids → ∃ e n, view em !! i = Some e ∧ pls !! i = Some n ∧
       sender_power (view em) e n) em) em.
Proof.
  apply (wp_view_loop _ (λ ids (pls : gmap string Z), ∀ i, i ∈ ids → ∃ e n, view em !! i = Some e ∧
    pls !! i = Some n ∧ sender_power (view em) e n)); [by intros i []%not_elem_of_nil|].
  intros done i pls em1 Hv Hpls. wp_step. eapply wp_mono; [apply wp_view_power_level|].
  intros n em2 (Hv2 & Hs2 & e & He & Hn). wp_step. rewrite Hv in He, Hn. split_and!; [done..|].
  intros j. destruct (decide (j = i)) as [->|Hne].
  - intros _. exists e, n. by rewrite lookup_insert_eq.
  - rewrite lookup_insert_ne by done. intros [?|?%list_elem_of_singleton]%elem_of_app; [by apply Hpls|done].
Qed.

(** The sorted graph of the events reached from [ids] is a power ordering. *)
Lemma power_ordered_of_graph U em ids g pls l :
  dfs_inv ids U em g [] → (∀ n, n ∈ ids → n ∈ dom g) →
  (∀ i, i ∈ (map_to_list g).*1 → ∃ e n, view em !! i = Some e ∧ pls !! i = Some n ∧
     sender_power (view em) e n) →
  lex_topo (λ a b, key_le (_get_power_order em pls a) (_get_power_order em pls b)) g [] l →
  power_ordered U (view em) ids l.
Proof.
  intros Hinv Hids Hpls. set (le := λ a b, key_le _ _). intros Hl.
  assert (∀ n x, is_Some (g !! n) → auth_edge U (view em) n x ↔ auth_edge U em n x) as Hedge.
  { intros n x Hn. apply auth_edge_mono; [apply view_subseteq|by apply (di_known _ _ _ _ _ Hinv)]. }
  assert (∀ n x, is_Some (g !! n) → auth_edge U (view em) n x → is_Some (g !! x)) as Hclosed.
  { intros n x Hn Hx%Hedge; [|done].
    by destruct (di_closed _ _ _ _ _ Hinv n x Hn Hx) as [?|[]%not_elem_of_nil]. }
  destruct (lex_topo_order le g [] l Hl ltac:(constructor)) as (Hnd & Hin & Hord & _).
  split; [done|..].
  - intros n Hn%Hin. split; [apply (di_nodes _ _ _ _ _ Hinv); by left|].
    destruct (di_reach _ _ _ _ _ Hinv n) as (r & ? & Hr); [by left|]. exists r. split; [done|].
    revert Hr. apply rtc_subrel. intros m x (? & e & aids & ? & ?). split; [done|]. exists e, aids.
    split; [by apply view_lookup|done].
  - intros [rank Hrank] r n Hr Hrtc.
    assert (is_Some (g !! n)) as Hn.
    { apply Hids, elem_of_dom in Hr. clear Hids. induction Hrtc as [|a b c Hab _ IH]; [done|].
      apply IH. by eapply Hclosed. }
    apply (lex_topo_complete le g rank l); [|done|done].
    intros m es x Hm Hx. apply (di_edges _ _ _ _ _ Hinv m es x Hm) in Hx.
    assert (auth_edge U (view em) m x) as Hx' by (apply Hedge; [by eexists|done]).
    split; [by eapply Hclosed; [by eexists|]|by apply Hrank].
  - intros l1 n l2 x -> Hx. destruct (Hord l1 n l2 eq_refl) as (es & Hes & Hall).
    apply Hall, (di_edges _ _ _ _ _ Hinv n es); [done|]. apply Hedge; [by eexists|done].
  - exists (λ i, default 0%Z (pls !! i)).
    assert (∀ n, n ∈ l → n ∈ (map_to_list g).*1) as Hdom.
    { intros n [es Hes]%Hin. apply list_elem_of_fmap. exists (n, es). split; [done|].
      by apply elem_of_map_to_list. }
    split.
    { intros n Hn. destruct (Hpls n (Hdom n Hn)) as (e & k & He & Hk & Hp). exists e. by rewrite Hk. }
    intros l1 n l2 m Heq Hm Hready.
    assert (∀ i, i ∈ l → _get_power_order em pls i =
      power_key (view em) (λ i, default 0%Z (pls !! i)) i) as Hkey.
    { intros i Hi%Hin%(di_known _ _ _ _ _ Hinv). unfold _get_power_order, power_key.
      destruct Hi as [e He]. by rewrite He, (view_lookup _ _ _ He). }
    rewrite <- !Hkey by (subst l; set_solver).
    apply (lex_topo_least le g [] l l1 n l2 Hl Heq). simpl in *. subst l. rewrite NoDup_app in Hnd.
    destruct Hnd as (_ & Hdisj & _). split.
    + intros Hm1. apply (Hdisj m Hm1). by right.
    + destruct (Hin m) as [es Hes]; [set_solver|]. exists es. split; [done|]. intros x Hx.
      apply Hready, Hedge; [by eexists|]. by apply (di_edges _ _ _ _ _ Hinv m es x Hes).
Qed.

Lemma wp_view_power_sort fuel rid ids U em :
  (∀ n, n ∈ ids → n ∈ U) →
  wp True (_reverse_topological_power_sort get_events fuel rid ids U)
    (looks (power_ordered U (view em) ids) em) em.
Proof.
  intros HU. unfold _reverse_topological_power_sort. wp_step. eapply wp_mono.
  { apply (wp_power_graph get_events get_events_asked True (λ em', view em' = view em)
      ltac:(intros ?? Hnew <-; by apply view_fetch) 0); [done|done|by left]. }
  intros g em1 (Hv1 & Hs1 & Hinv & Hg). wp_step.
  eapply wp_mono; [apply wp_view_levels|]. intros pls em2 (Hv2 & Hs2 & Hpls).
  do 4 wp_step.
  destruct (sort_by_key (_get_power_order em2 pls) g) as (l & -> & Hlex). wp_step. simplify_eq. split_and!; [congruence|by etrans|].
  replace (view em) with (view em2) by congruence.
  eapply power_ordered_of_graph; [by eapply dfs_inv_weaken|done| |done].
  intros i Hi. rewrite Hv2. by apply Hpls.
Qed.

(** ** The mainline ordering *)
Lemma str_nonempty_spec i : str_nonempty i = false ↔ i = "".
Proof. by destruct i. Qed.

Lemma wp_view_mainline fuel rid o em :
  wp True (mainline_loop get_events fuel rid o) (looks (mainline_from (view em) o) em) em.
Proof.
  revert o em. induction fuel as [|fuel IH]; intros [i|] em; simpl.
  2, 4: wp_step; split_and!; [done..|constructor].
  all: destruct (str_nonempty i) eqn:Hi; simpl;
    [|apply str_nonempty_spec in Hi as ->; wp_step; split_and!; [done..|constructor]].
  { done. }
  wp_step. eapply wp_mono; [apply wp_view_get_event|]. intros e em1 (Hv1 & Hs1 & He).
  do 2 wp_step. rename x into ids, H into Hids. wp_step.
  eapply wp_mono; [apply wp_view_find|]. intros next em2 (Hv2 & Hs2 & Hnext). wp_step.
  eapply wp_mono; [apply IH|]. intros rest em3 (Hv3 & Hs3 & Hrest). wp_step.
  split_and!; [congruence|by do 2 (etrans; [done|])|]. apply (mainline_step _ _ e); [|done|].
  - intros Hx. apply str_nonempty_spec in Hx. congruence.
  - unfold pl_parent. rewrite Hids, <- Hv1, <- Hnext. congruence.
Qed.

(** The dictionary of depths: the first position in the mainline, from its end. *)
Lemma mainline_map_spec ml i :
  match mainline_map ml !! i with
  | Some d => ∃ pre post, ml = pre ++ i :: post ∧ i ∉ pre ∧ d = Z.of_nat (S (length post))
  | None => i ∉ ml
  end.
Proof.
  unfold mainline_map. induction ml as [|x ml IH]; [apply not_elem_of_nil|].
  rewrite reverse_cons, imap_app, foldl_app. simpl. rewrite length_reverse, Nat.add_0_r.
  destruct (decide (i = x)) as [->|Hne].
  - rewrite lookup_insert_eq. exists [], ml. split_and!; [done|apply not_elem_of_nil|lia].
  - rewrite lookup_insert_ne by done. destruct (_ !! i) as [d|].
    + destruct IH as (pre & post & -> & Hpre & ->). exists (x :: pre), post.
      split_and!; [done|set_solver|done].
    + set_solver.
Qed.

Lemma wp_view_depth fuel rid ml e em :
  wp True (mainline_depth_loop get_events fuel rid (mainline_map ml) (Some e))
    (looks (mainline_depth (view em) ml e) em) em.
Proof.
  revert e em. induction fuel as [|fuel IH]; intros e em; simpl;
    (pose proof (mainline_map_spec ml (event_id e)) as Hm; destruct (mainline_map ml !! event_id e) as [d|]).
  1, 3: destruct Hm as (pre & post & ? & ? & ->); wp_step; split_and!; [done..|by econstructor].
  { done. }
  do 2 wp_step. rename x into ids, H into Hids. wp_step.
  eapply wp_mono; [apply wp_view_find|]. intros next em1 (Hv1 & Hs1 & Hnext).
  assert (pl_parent (view em) e = next) as Hp by (unfold pl_parent; by rewrite Hids).
  destruct next as [[a parent]|]; simpl.
  - eapply wp_mono; [apply IH|]. intros d em2 (Hv2 & Hs2 & Hd).
    split_and!; [congruence|by etrans|]. rewrite Hv1 in Hd. by eapply depth_off.
  - destruct fuel; simpl; wp_step; (split_and!; [done..|by apply depth_none]).
Qed.

Lemma wp_view_mainline_sort fuel rid ids o em :
  wp True (_mainline_sort get_events fuel rid ids o)
    (looks (mainline_ordered (view em) o ids) em) em.
Proof.
  unfold _mainline_sort. destruct ids as [|i0 ids0]; [wp_step; by split_and!|].
  set (ids := i0 :: ids0) in *. wp_step.
  eapply wp_mono; [apply wp_view_mainline|]. intros ml em1 (Hv1 & Hs1 & Hml). wp_step.
  eapply wp_mono.
  { apply (wp_view_loop _ (λ ids om, ∀ i, i ∈ ids → ∃ e d, view em !! i = Some e ∧
      mainline_depth (view em) ml e d ∧ om !! i = Some (d, ev_origin_server_ts e, i)));
      [by intros i []%not_elem_of_nil|].
    intros done i om em2 Hv2 Hom. wp_step. apply wp_event_map_index. intros e He.
    wp_step. unfold _get_mainline_depth_for_event. do 2 wp_step.
    eapply wp_mono; [apply wp_view_depth|]. intros d em3 (Hv3 & Hs3 & Hd). wp_step.
    split_and!; [done..|]. intros j. destruct (decide (j = i)) as [->|Hne].
    - intros _. exists e, d. apply view_lookup in He. rewrite lookup_insert_eq.
      split_and!; congruence.
    - rewrite lookup_insert_ne by done.
      intros [?|?%list_elem_of_singleton]%elem_of_app; [by apply Hom|done]. }
  intros om em2 (Hv2 & Hs2 & Hom). wp_step. split_and!; [congruence|by etrans|].
  split; [apply merge_sort_Permutation|]. intros _.
  exists ml, (λ i, match om !! i with Some (d, _, _) => d | None => 0%Z end). split_and!; [done| |].
  { intros i (e & d & He & Hd & Ho)%Hom. exists e. by rewrite Ho. }
  assert (Total (order_rel om)) as Htot by (intros a b; apply key_le_total).
  assert (Transitive (order_rel om)) as Htr by (intros a b c; apply key_le_trans).
  eapply StronglySorted_impl_in; [apply (StronglySorted_merge_sort (order_rel om))|].
  assert (∀ i, i ∈ ids → order_key om i = mainline_key (view em)
    (λ i, match om !! i with Some (d, _, _) => d | None => 0%Z end) i) as Hkey.
  { intros i (e & d & He & Hd & Ho)%Hom. unfold order_key, mainline_key. by rewrite Ho, He. }
  intros a b Ha Hb. unfold order_rel.
  by rewrite !Hkey by (by rewrite <- (merge_sort_Permutation (order_rel om))).
Qed.

(** ** The auth checks *)
Context (valid_ipv6 : string → bool).
Context (verify_signed_json : pydict → string → string → json → result unit).

Lemma wp_view_own rid ids em :
  wp True (own_auth_events get_events rid ids)
    (looks (λ auth, ∀ key, auth !! key = last (filter (at_key key) (omap (live (view em)) ids))) em) em.
Proof.
  unfold own_auth_events.
  apply (wp_view_loop _ (λ ids (auth : StateMap event), ∀ key,
    auth !! key = last (filter (at_key key) (omap (live (view em)) ids)))); [done|].
  intros done a auth em1 Hv Hauth. wp_step. eapply wp_mono; [apply wp_view_get_event_opt|].
  intros o em2 (Hv2 & Hs2 & Ho). rewrite Hv in Ho.
  assert (∀ key, auth !! key = last (filter (at_key key) (omap (live (view em)) (done ++ [a]))) ∨
    ∃ e, o = Some e ∧ ev_rejected_reason e = None) as Hkeep.
  { intros key. rewrite omap_app. simpl. unfold live at 2. rewrite <- Ho.
    destruct o as [e|]; simpl; [|left; by rewrite app_nil_r].
    destruct (ev_rejected_reason e) eqn:Hr; [left; by rewrite app_nil_r|right; by exists e]. }
  destruct o as [e|]; [|wp_step; split_and!; [done..|]; intros key; by destruct (Hkeep key) as [?|(? & ? & _)]].
  destruct (ev_rejected_reason e) eqn:Hr.
  { wp_step; split_and!; [done..|]; intros key; destruct (Hkeep key) as [?|(? & [= ->] & ?)]; congruence. }
  do 3 wp_step. rename x into sk, H into Hsk. apply of_option_ok in Hsk.
  split_and!; [done..|]. intros key. rewrite omap_app. simpl. unfold live at 2. rewrite <- Ho. simpl.
  rewrite Hr, filter_app. destruct (decide (key = (ev_type e, sk))) as [->|Hne].
  - rewrite lookup_insert_eq, filter_cons_True, filter_nil, last_snoc; [done|]. unfold at_key. by rewrite Hsk.
  - rewrite lookup_insert_ne, filter_cons_False, filter_nil, app_nil_r; [done| |done].
    unfold at_key. rewrite Hsk. destruct key. simpl. naive_solver.
Qed.

(** [auth0] with the entries of the resolved state at [keys] put over it. *)
Definition overridden (V : gmap string event) (st : StateMap string) (auth0 : StateMap event)
    (keys : list StateKey) (auth : StateMap event) : Prop :=
  ∀ key, auth !! key =
    match (if decide (key ∈ keys) then st !! key ≫= live V else None) with
    | Some e => Some e
    | None => auth0 !! key
    end.

Lemma overridden_snoc V st auth0 keys auth k auth' :
  overridden V st auth0 keys auth → (∀ key, key ≠ k → auth' !! key = auth !! key) →
  auth' !! k = match st !! k ≫= live V with Some e => Some e | None => auth !! k end →
  overridden V st auth0 (keys ++ [k]) auth'.
Proof.
  intros Hauth Hother Hk key. destruct (decide (key = k)) as [->|Hne].
  - rewrite Hk, decide_True by set_solver. destruct (st !! k ≫= live V) eqn:Hl; [done|].
    rewrite Hauth, Hl. by case_decide.
  - rewrite Hother, Hauth by done.
    destruct (decide (key ∈ keys)), (decide (key ∈ keys ++ [k])); try done; set_solver.
Qed.

Lemma wp_view_override (rid : string) st keys auth0 em :
  wp True (override_auth_events get_events rid st keys auth0)
    (looks (overridden (view em) st auth0 keys) em) em.
Proof.
  unfold override_auth_events. apply (wp_view_loop _ (overridden (view em) st auth0)); [done|].
  intros done k auth em1 Hv Hauth. destruct (st !! k) as [i|] eqn:Hst.
  2: { wp_step. split_and!; [done..|]. eapply overridden_snoc; [done..|]. by rewrite Hst. }
  wp_step. eapply wp_mono; [apply wp_view_get_event|]. intros e em2 (Hv2 & Hs2 & He). rewrite Hv in He.
  destruct (ev_rejected_reason e) eqn:Hr.
  { wp_step. split_and!; [done..|]. eapply overridden_snoc; [done..|].
    rewrite Hst. unfold live. simpl. rewrite He. simpl. by rewrite Hr. }
  wp_step. apply wp_event_map_index. intros e' He'. wp_step. split_and!; [done..|].
  assert (e' = e) as -> by (apply view_lookup in He'; congruence).
  eapply overridden_snoc; [done|by intros; apply lookup_insert_ne|].
  rewrite lookup_insert_eq, Hst. unfold live. simpl. rewrite He. simpl. by rewrite Hr.
Qed.

Lemma wp_view_check_step rid rv st i em :
  wp True (auth_check_step valid_ipv6 verify_signed_json get_events rid rv st i)
    (λ st' em', ∀ l V' st'', checked valid_ipv6 verify_signed_json rv (view em') st' l V' st'' →
       checked valid_ipv6 verify_signed_json rv (view em) st (i :: l) V' st'') em.
Proof.
  unfold auth_check_step. wp_step. apply wp_event_map_index. intros e He.
  do 2 wp_step. rename x into ids, H into Hids. wp_step.
  eapply wp_mono; [apply wp_view_own|]. intros auth0 em1 (Hv1 & Hs1 & Hown).
  do 2 wp_step. rename x into types, H into Htypes. wp_step.
  eapply wp_mono; [apply wp_view_override|]. intros auth em2 (Hv2 & Hs2 & Hauth).
  assert (view em2 = view em) as Hv by congruence.
  assert (verdict valid_ipv6 verify_signed_json rv (view em) st e
    (check_state_dependent_auth_rules valid_ipv6 verify_signed_json e (map_to_list auth).*2)) as Hver.
  { exists ids, types, auth. split_and!; [done..| |done]. intros key. rewrite Hauth, Hv1, Hown. unfold auth_at.
    destruct (decide (key ∈ elements types)) as [Hk|Hk]; rewrite elem_of_elements in Hk.
    - by rewrite decide_True.
    - by rewrite decide_False. }
  apply view_lookup in He.
  destruct (ev_rejected_reason e) eqn:Hr.
  { wp_step. intros l V' st'' Hc. rewrite Hv in Hc. eapply checked_reject; [done|congruence|done]. }
  destruct (check_state_dependent_auth_rules _ _ _ _) as [e'|ex].
  - do 4 wp_step. wp_step. wp_step. rename x into sk, H into Hsk. apply of_option_ok in Hsk.
    intros l V' st'' Hc. rewrite view_mark, Hv in Hc. by eapply checked_accept.
  - destruct (is_auth_error ex) eqn:Hex; wp_step. intros l V' st'' Hc. rewrite Hv in Hc.
    by eapply checked_refuse.
Qed.

Lemma wp_view_checks rid rv ids st em :
  wp True (_iterative_auth_checks valid_ipv6 verify_signed_json get_events rid rv ids st)
    (λ st' em', checked valid_ipv6 verify_signed_json rv (view em) st ids (view em') st') em.
Proof.
  unfold _iterative_auth_checks. revert st em. induction ids as [|i ids IH]; intros st em; simpl.
  { wp_step. constructor. }
  wp_step. eapply wp_mono; [apply wp_view_check_step|]. intros st1 em1 Hstep.
  eapply wp_mono; [apply IH|]. intros st2 em2 Hrest. by apply Hstep.
Qed.

(** ** The resolution *)
Lemma is_power_event_ok e b : _is_power_event e = Ok b → b = true ↔ power_event e.
Proof.
  unfold _is_power_event, state_key, power_event. intros (sk & Hsk%of_option_ok & H)%bind_ok.
  rewrite Hsk. case_bool_decide as Hk.
  { injection H as <-. split; [|done]. intros _. exists sk. split; [done|]. set_solver. }
  destruct (String.eqb_spec (ev_type e) EventTypes.Member) as [Hm|Hm]; last first.
  { injection H as <-. split; [done|]. intros (? & [= <-] & ?). set_solver. }
  apply bind_ok in H as (ms & Hms & [= <-]). unfold membership, dict_index in Hms. apply of_option_ok in Hms.
  rewrite andb_true_iff, orb_true_iff, !json_is_str_true, negb_true_iff, String.eqb_neq. split.
  - intros [Hl Hs]. exists sk. split; [done|]. do 3 right. split_and!; [done..|].
    destruct Hl as [-> | ->]; eauto.
  - intros (? & [= <-] & [?|[?|[?|(_ & ? & m & Hm' & Hl)]]]); [set_solver..|].
    rewrite Hms in Hm'. injection Hm' as ->. destruct Hl as [-> | ->]; auto.
Qed.

Lemma wp_view_select ids em :
  wp True (select_power_events ids) (λ l em', em' = em ∧
    ∀ i, i ∈ l ↔ i ∈ ids ∧ ∃ e, view em !! i = Some e ∧ power_event e) em.
Proof.
  unfold select_power_events.
  apply (wp_loop True _ (λ rest acc em', em' = em ∧ ∃ done, ids = done ++ rest ∧
    ∀ i, i ∈ acc ↔ i ∈ done ∧ ∃ e, view em !! i = Some e ∧ power_event e)).
  - intros i rest acc em1 (-> & done & -> & Hacc). wp_step. apply wp_event_map_index. intros e He%view_lookup.
    do 3 wp_step. rename x into b, H into Hb. apply is_power_event_ok in Hb. split; [done|].
    exists (done ++ [i]). split; [by rewrite <- app_assoc|]. intros j.
    destruct b; rewrite ?elem_of_app, ?list_elem_of_singleton, Hacc; naive_solver.
  - split; [done|]. exists []. split; [done|]. set_solver.
  - intros acc em1 (-> & done & -> & Hacc). rewrite app_nil_r. done.
Qed.

Lemma wp_view_resolve fuel rid rv base U em :
  wp True (resolve_conflicted valid_ipv6 verify_signed_json get_events fuel rid rv base U)
    (λ res _, resolved valid_ipv6 verify_signed_json rv (view em) U base res) em.
Proof.
  unfold resolve_conflicted. wp_step. eapply wp_mono; [apply wp_view_select|].
  intros power em1 [-> Hpow]. setoid_rewrite elem_of_elements in Hpow. wp_step.
  eapply wp_mono; [apply wp_view_power_sort; by intros n [? _]%Hpow|].
  intros sorted em2 (Hv2 & _ & Hsort). wp_step.
  eapply wp_mono; [apply wp_view_checks|]. intros st1 em3 Hst1. rewrite Hv2 in Hst1. wp_step.
  eapply wp_mono; [apply wp_view_mainline_sort|]. intros others em4 (Hv4 & _ & Hothers). wp_step.
  eapply wp_mono; [apply wp_view_checks|]. intros st2 em5 Hst2. rewrite Hv4 in Hst2. wp_step.
  exists power, sorted, others, (view em3), st1, (view em5), st2. by split_and!.
Qed.
End View.

(** ** The specifications determine the orders *)
Lemma privileged_creator_functional V ids user b b' :
  privileged_creator V ids user b → privileged_creator V ids user b' → b = b'.
Proof. unfold privileged_creator. repeat case_match; congruence. Qed.

Lemma sender_power_functional V e n n' : sender_power V e n → sender_power V e n' → n = n'.
Proof.
  assert (∀ ids ids', auth_event_ids e = Ok ids → auth_event_ids e = Ok ids' → ids' = ids) as Hids
    by congruence.
  destruct 1, 1; try done;
    repeat match goal with H : auth_event_ids e = Ok ?a, H' : auth_event_ids e = Ok ?b |- _ =>
      pose proof (Hids _ _ H H'); clear H'; subst end;
    repeat match goal with H : privileged_creator _ _ _ ?a, H' : privileged_creator _ _ _ ?b |- _ =>
      pose proof (privileged_creator_functional _ _ _ _ _ H H'); clear H' end;
    try congruence; naive_solver.
Qed.

Lemma mainline_from_functional V o ml ml' : mainline_from V o ml → mainline_from V o ml' → ml = ml'.
Proof.
  intros H. revert ml'. induction H as [| |i e rest Hi He _ IH]; intros ml' H'; inversion H'; subst; try done.
  simplify_eq. f_equal. by apply IH.
Qed.

Lemma first_split_unique {A} (x : A) pre post pre' post' :
  pre ++ x :: post = pre' ++ x :: post' → x ∉ pre → x ∉ pre' → post = post'.
Proof.
  revert pre'. induction pre as [|y pre IH]; intros [|y' pre'] Heq Hp Hp'; simplify_eq/=; try done.
  - set_solver.
  - set_solver.
  - eapply IH; [done|set_solver..].
Qed.

Lemma mainline_depth_functional V ml e d d' :
  mainline_depth V ml e d → mainline_depth V ml e d' → d = d'.
Proof.
  intros H. revert d'. induction H as [e pre post Hml Hpre|e a p d Hn Hp _ IH|e Hn Hp];
    inversion_clear 1 as [pre' post' Hml' Hpre'|a' p' ? Hn' Hp' Hd|Hn' Hp']; subst;
    try (exfalso; set_solver); try congruence.
  - by rewrite (first_split_unique _ _ _ _ _ Hml' Hpre Hpre').
  - apply IH. congruence.
Qed.

Lemma power_ordered_unique U V ids l l' :
  (∃ rank : string → nat, ∀ n x, conflicted_auth U V n x → rank x < rank n) →
  power_ordered U V ids l → power_ordered U V ids l' → l = l'.
Proof.
  intros Hrank Hl Hl'.
  assert (∀ n, n ∈ l ↔ n ∈ l') as Hsame.
  { intros n. split; intros Hn.
    - destruct (po_chain _ _ _ _ Hl n Hn) as (_ & r & ? & ?). by apply (po_all _ _ _ _ Hl' Hrank r).
    - destruct (po_chain _ _ _ _ Hl' n Hn) as (_ & r & ? & ?). by apply (po_all _ _ _ _ Hl Hrank r). }
  destruct Hl as [Hnd _ _ Hafter (pw & Hpw & Hleast)], Hl' as [Hnd' _ _ Hafter' (pw' & Hpw' & Hleast')].
  assert (∀ n, n ∈ l → pw' n = pw n) as Hpower.
  { intros n Hn. destruct (Hpw n Hn) as (e & He & Hp), (Hpw' n) as (e' & He' & Hp'); [by apply Hsame|].
    simplify_eq. by eapply sender_power_functional. }
  assert (∀ p s s', l = p ++ s → l' = p ++ s' → s = s') as Hgen; [|by apply (Hgen [])].
  intros p s. revert p. induction s as [|n s IH]; intros p [|n' s'] Heq Heq'; [done|exfalso..|].
  - assert (n' ∈ l) as Hin by (apply Hsame; set_solver). rewrite Heq, app_nil_r in Hin.
    rewrite Heq', NoDup_app in Hnd'. set_solver.
  - assert (n ∈ l') as Hin by (apply Hsame; set_solver). rewrite Heq', app_nil_r in Hin.
    rewrite Heq, NoDup_app in Hnd. set_solver.
  - assert (n = n') as ->; last first.
    { f_equal. apply (IH (p ++ [n'])); by rewrite <- app_assoc. }
    destruct (decide (n = n')) as [|Hne]; [done|].
    assert (n' ∈ s) as Hn'.
    { assert (n' ∈ l) as Hin by (apply Hsame; set_solver). rewrite Heq' in Hnd'. rewrite Heq in Hin.
      rewrite NoDup_app in Hnd'. set_solver. }
    assert (n ∈ s') as Hn.
    { assert (n ∈ l') as Hin by (apply Hsame; set_solver). rewrite Heq in Hnd. rewrite Heq' in Hin.
      rewrite NoDup_app in Hnd. set_solver. }
    pose proof (Hleast p n s n' Heq Hn' ltac:(intros x; by apply (Hafter' p n' s'))) as Hle.
    pose proof (Hleast' p n' s' n Heq' Hn ltac:(intros x; by apply (Hafter p n s))) as Hge.
    unfold power_key in Hle, Hge. rewrite !Hpower in Hge by set_solver.
    by pose proof (key_le_antisym _ _ Hle Hge) as [= _ _ ?].
Qed.

Lemma mainline_ordered_unique V o ids l l' :
  mainline_ordered V o ids l → mainline_ordered V o ids l' → l = l'.
Proof.
  intros [Hp Hl] [Hp' Hl']. destruct (decide (ids = [])) as [->|Hne].
  { apply Permutation_nil_r in Hp, Hp'. congruence. }
  destruct (Hl Hne) as (ml & depth & Hml & Hd & Hs), (Hl' Hne) as (ml' & depth' & Hml' & Hd' & Hs').
  assert (ml' = ml) as -> by (by eapply mainline_from_functional).
  set (R := λ a b, key_le (mainline_key V depth a) (mainline_key V depth b) = true) in Hs.
  assert (AntiSymm (=) R) as Hanti.
  { intros a b Hab Hba. by pose proof (key_le_antisym _ _ Hab Hba) as [= _ _ ?]. }
  apply (StronglySorted_unique R); [done| |by rewrite Hp, Hp'].
  eapply StronglySorted_impl_in; [exact Hs'|]. intros a b Ha Hb.
  assert (∀ i, i ∈ l' → depth' i = depth i) as Hdd.
  { intros i Hi. rewrite Hp' in Hi. destruct (Hd i Hi) as (e & He & Hx), (Hd' i Hi) as (e' & He' & Hx').
    simplify_eq. by eapply mainline_depth_functional. }
  unfold R, mainline_key. by rewrite !Hdd.
Qed.

Lemma power_ordered_ext U V ids ids' l :
  (∀ i, i ∈ ids ↔ i ∈ ids') → power_ordered U V ids l → power_ordered U V ids' l.
Proof.
  intros Hids [Hnd Hch Hall Haf Hle]. split; [done| | |done..].
  - intros n (? & r & ?%Hids & ?)%Hch. eauto.
  - intros Hr r n ?%Hids. by apply Hall.
Qed.

Lemma verdict_functional vi vs rv V st e r r' :
  verdict vi vs rv V st e r → verdict vi vs rv V st e r' → r = r'.
Proof.
  intros (ids & types & auth & Hi & Ht & Ha & ->) (ids' & types' & auth' & Hi' & Ht' & Ha' & ->).
  assert (ids' = ids) as -> by congruence. assert (types' = types) as -> by congruence.
  assert (auth' = auth) as -> by (apply map_eq; intros k; by rewrite Ha, Ha'). done.
Qed.

Lemma checked_functional vi vs rv V st l V1 st1 V2 st2 :
  checked vi vs rv V st l V1 st1 → checked vi vs rv V st l V2 st2 → V1 = V2 ∧ st1 = st2.
Proof.
  intros H. revert V2 st2. induction H; inversion 1; simplify_eq; try done; auto;
    match goal with H : verdict _ _ _ _ _ _ _, H' : verdict _ _ _ _ _ _ _ |- _ =>
      pose proof (verdict_functional _ _ _ _ _ _ _ _ H H') end; simplify_eq; auto.
Qed.

Lemma resolved_unique vi vs rv V U base res res' :
  (∃ rank : string → nat, ∀ n x, conflicted_auth U V n x → rank x < rank n) →
  resolved vi vs rv V U base res → resolved vi vs rv V U base res' → res = res'.
Proof.
  intros Hr (pw & so & ot & V1 & st1 & V2 & st2 & Hpw & Hso & Hc1 & Hot & Hc2 & ->)
    (pw' & so' & ot' & V1' & st1' & V2' & st2' & Hpw' & Hso' & Hc1' & Hot' & Hc2' & ->).
  apply (power_ordered_ext _ _ _ pw) in Hso'; [|intros i; by rewrite Hpw, Hpw'].
  assert (so' = so) as -> by (by eapply power_ordered_unique).
  destruct (checked_functional _ _ _ _ _ _ _ _ _ _ Hc1 Hc1') as [<- <-].
  assert (ot' = ot) as -> by (by eapply mainline_ordered_unique).
  by destruct (checked_functional _ _ _ _ _ _ _ _ _ _ Hc2 Hc2') as [<- <-].
Qed.

(** ** The theorems *)
Section Correctness.
Context (valid_ipv6 : string → bool).
Context (verify_signed_json : pydict → string → string → json → result unit).
Context (get_events : list string → gmap string event).
Context (store : gmap string event).
(** The store returns the stored events it is asked for. *)
Context (get_events_store :
  ∀ ids i, get_events ids !! i = if decide (i ∈ ids) then store !! i else None).

Lemma known_after_fetch (U : gset string) em :
  filter (λ i, i ∈ dom (get_events (filter (λ i, em !! i = None) (elements U)) ∪ em)) U =
  filter (λ i, is_Some (view store em !! i)) U.
Proof.
  apply set_eq. intros i. rewrite !elem_of_filter. split; intros [Hi HU]; (split; [|done]).
  - apply elem_of_dom in Hi. unfold view. rewrite lookup_union in Hi. rewrite lookup_union.
    rewrite get_events_store in Hi. by destruct (em !! i), (store !! i); case_decide.
  - apply elem_of_dom. unfold view in Hi. rewrite lookup_union in Hi. rewrite lookup_union, get_events_store.
    destruct (em !! i) as [e|] eqn:He; [by case_decide; destruct (store !! i); eexists|].
    rewrite decide_True by (by apply list_elem_of_filter; rewrite elem_of_elements). by destruct (store !! i).
Qed.

(** C1: state resolution computes the resolution the algorithm defines.  Suppose
    the store answers every request from the same stored events. When
    [resolve_events_with_store] returns a state, every entry on which all the
    state sets agree is in it. If no entry is in conflict that is all; otherwise,
    with [U] the known events that are in conflict or in the auth chain
    difference: the power events of [U] and their auth chains within [U], in
    reverse topological power order, are checked in turn, from the agreed state
    (from the empty state in resolution v2.1); the other events of [U], in the
    mainline order of the power levels event resolved so far, are checked next; an
    event is accepted exactly when it was not rejected and passes the
    authorization rules against the auth events that the state resolved before
    it gives, or its own where that state has none; and the result is the last of
    these states under the agreed one. When auth events form no cycle this
    determines the result. *)
Theorem resolve_events_correct get_auth_chain_difference fuel rid rv sets em res em' :
  resolve_events_with_store valid_ipv6 verify_signed_json get_events get_auth_chain_difference
    fuel rid rv sets em = Some (Ok (res, em')) →
  (∀ key v, sets ≠ [] → (∀ s, s ∈ sets → s !! key = Some v) → res !! key = Some v) ∧
  ((_seperate sets).2 = ∅ ∧ res = (_seperate sets).1 ∨
   ∃ auth_diff,
     _get_auth_chain_difference get_auth_chain_difference fuel rid sets em
       (if state_res_v21 rv then Some (conflicted_events sets) else None) em = Some (Ok (auth_diff, em)) ∧
     let V := view store em in
     let U := filter (λ i, is_Some (V !! i)) (conflicted_events sets ∪ auth_diff) in
     resolved valid_ipv6 verify_signed_json rv V U (_seperate sets).1 res ∧
     ∀ (rank : string → nat) res', (∀ n x, conflicted_auth U V n x → rank x < rank n) →
       resolved valid_ipv6 verify_signed_json rv V U (_seperate sets).1 res' → res' = res).
Proof.
  intros Hrun.
  assert (wp True (resolve_events_with_store valid_ipv6 verify_signed_json get_events
    get_auth_chain_difference fuel rid rv sets)
    (λ res _, (_seperate sets).2 = ∅ ∧ res = (_seperate sets).1 ∨
       ∃ auth_diff,
       _get_auth_chain_difference get_auth_chain_difference fuel rid sets em
         (if state_res_v21 rv then Some (conflicted_events sets) else None) em = Some (Ok (auth_diff, em)) ∧
       resolved valid_ipv6 verify_signed_json rv (view store em)
         (filter (λ i, is_Some (view store em !! i)) (conflicted_events sets ∪ auth_diff))
         (_seperate sets).1 res) em) as Hwp.
  { clear Hrun. unfold resolve_events_with_store, conflicted_events.
    destruct (_seperate sets) as [unc conf]. simpl. case_decide; [wp_step; by left|].
    do 3 wp_step. apply wp_eqn. intros ad em1 Hrun.
    pose proof (wp_run _ _ _ _ _ _ (wp_auth_chain_difference _ _ _ _ _ _ _) Hrun) as ->.
    do 8 wp_step. eapply wp_mono; [by apply wp_view_resolve|].
    intros r em2 Hr. right. exists ad. split; [done|].
    rewrite known_after_fetch in Hr. rewrite (view_fetch get_events store get_events_store) in Hr; [done|].
    by intros i [? _]%list_elem_of_filter. }
  pose proof (wp_run _ _ _ _ _ _ Hwp Hrun) as Hres. clear Hwp Hrun. split.
  - intros key v Hne Hall. assert ((_seperate sets).1 !! key = Some v) as Hk.
    { by apply seperate_correct_unconflicted. }
    destruct Hres as [[_ ->]|(ad & _ & (? & ? & ? & ? & ? & ? & ? & _ & _ & _ & _ & _ & ->))]; [done|].
    by apply lookup_union_Some_l.
  - destruct Hres as [?|(ad & Had & Hr)]; [by left|right]. exists ad.
    split; [done|]. split; [done|]. intros rank res' Hrank Hr'.
    eapply resolved_unique; [by exists rank|done..].
Qed.

Context (D : nat) (rank : string → nat).
Context (store_dag : auth_dag D rank store).

Lemma fetched_dag ids : auth_dag D rank (get_events ids).
Proof.
  intros i e l He. rewrite get_events_store in He. case_decide; [|done]. by apply store_dag.
Qed.

Lemma view_dag em : auth_dag D rank em → auth_dag D rank (view store em).
Proof. intros Hem i e l [He|[_ He]]%lookup_union_Some_raw; [by apply Hem|by apply store_dag]. Qed.

Lemma dag_acyclic U V : auth_dag D rank V → ∀ n x, conflicted_auth U V n x → rank x < rank n.
Proof. intros HV n x (_ & e & ids & He & Hids & Hx). by apply (HV n e ids). Qed.

(** C22: the reverse topological power ordering.  With fuel for [D] auth events
    per conflicted event the sort ends. When it returns, it lists, once each,
    exactly the events it was given and the events of their auth chains within
    the full conflicted set: each after its auth events in that set, and, among
    the events whose auth events are all listed already, the one whose sender
    has the greatest power level by its auth events first, then the oldest, then
    the one with the least event ID. No other list is ordered so. *)
Theorem power_sort_correct fuel rid ids U em :
  auth_dag D rank em → (∀ n, n ∈ ids → n ∈ U) → 1 + D * size U ≤ fuel →
  ∃ r, _reverse_topological_power_sort get_events fuel rid ids U em = Some r ∧
    ∀ l em', r = Ok (l, em') →
      power_ordered U (view store em) ids l ∧
      (∀ n, n ∈ l ↔ ∃ i, i ∈ ids ∧ rtc (conflicted_auth U (view store em)) i n) ∧
      ∀ l', power_ordered U (view store em) ids l' → l' = l.
Proof.
  intros Hem HU Hfuel.
  assert (_reverse_topological_power_sort get_events fuel rid ids U em ≠ None) as Hnn.
  { eapply wp_total, (wp_power_sort get_events (get_events_asked get_events store get_events_store) False
      (auth_dag D rank) (auth_dag_fetch get_events D rank fetched_dag) D); [done..|].
    right. split; [apply auth_dag_degree|done]. }
  pose proof (wp_view_power_sort get_events store get_events_store fuel rid ids U em HU) as Hwp.
  unfold wp in Hwp. destruct (_reverse_topological_power_sort _ _ _ _ _ em) as [r|]; [|done].
  exists r. split; [done|]. intros l em' ->. destruct Hwp as (_ & _ & Ho).
  assert (∃ rank : string → nat, ∀ n x, conflicted_auth U (view store em) n x → rank x < rank n) as Hr.
  { exists rank. by apply dag_acyclic, view_dag. }
  split_and!; [done| |intros l' Hl'; by eapply power_ordered_unique].
  intros n. split; [intros Hn; by apply (po_chain _ _ _ _ Ho n Hn)|].
  intros (i & Hi & Hn). by apply (po_all _ _ _ _ Ho Hr i).
Qed.

(** C23: the mainline ordering.  With fuel above every rank the sort ends. When
    it returns, its result is a permutation of the events it was given, in the
    order of mainline depth, then timestamp, then event ID. The mainline is the
    chain of power levels events back from the given one, each the first among
    the auth events of the next; the depth of an event is the distance from the
    end of the mainline of the first event on it among the event itself, the
    power levels event among its auth events, and so on, and 0 if there is none.
    No other list is ordered so. *)
Theorem mainline_sort_correct fuel rid ids pl em :
  auth_dag D rank em → (∀ i, rank i < fuel) →
  ∃ r, _mainline_sort get_events fuel rid ids pl em = Some r ∧
    ∀ l em', r = Ok (l, em') →
      mainline_ordered (view store em) pl ids l ∧
      ∀ l', mainline_ordered (view store em) pl ids l' → l' = l.
Proof.
  intros Hem Hr.
  assert (_mainline_sort get_events fuel rid ids pl em ≠ None) as Hnn.
  { eapply wp_total, (wp_mainline_sort get_events (get_events_asked get_events store get_events_store) False
      (auth_dag D rank) (auth_dag_fetch get_events D rank fetched_dag) rank); [done|].
    right. split_and!; [apply auth_dag_ranked|by intros..]. }
  pose proof (wp_view_mainline_sort get_events store get_events_store fuel rid ids pl em) as Hwp.
  unfold wp in Hwp. destruct (_mainline_sort _ _ _ _ _ em) as [r|]; [|done].
  exists r. split; [done|]. intros l em' ->. destruct Hwp as (_ & _ & Ho).
  split; [done|]. intros l' Hl'. by eapply mainline_ordered_unique.
Qed.
End Correctness.
