(* ===== verification/StateResExamples.v ===== *)
(** A state resolution on a concrete room: two servers disagree on the topic. *)
From S2P Require Import Prelude RoomVersions Identifiers Events EventAuth EventAuthProps.
From S2P Require Import EventAuthExamples TopoSort StateRes StateResProps StateResCorrect.

Definition ex_topic (hash topic : string) (ts : Z) : event :=
  mkEvent RoomVersions.V10 "m.room.topic" ex_alice (Some "") [("topic", JStr topic)]
    (Some "!room:a.org") "" hash [] ["$create"; "$member@alice:a.org"; "$power"] ts
    [] None false [].

Definition ex_store : gmap string event :=
  list_to_map ((λ e, (event_id e, e)) <$>
    (ex_auth_list ++ [ex_topic "topic1" "one" 10; ex_topic "topic2" "two" 20])).

(** [get_events] from a dictionary of stored events. *)
Definition fetch_from (store : gmap string event) (ids : list string) : gmap string event :=
  filter (λ kv, kv.1 ∈ ids) store.

Lemma fetch_from_lookup store ids i e :
  fetch_from store ids !! i = Some e ↔ store !! i = Some e ∧ i ∈ ids.
Proof. unfold fetch_from. by rewrite map_lookup_filter_Some. Qed.

Definition ex_fetch : list string → gmap string event := fetch_from ex_store.

Lemma ex_fetch_requested ids i : is_Some (ex_fetch ids !! i) → i ∈ ids.
Proof. intros [e He]. exact (proj2 (proj1 (fetch_from_lookup ex_store ids i e) He)). Qed.

Lemma ex_fetch_store ids i :
  ex_fetch ids !! i = if decide (i ∈ ids) then ex_store !! i else None.
Proof.
  apply option_eq. intros e. unfold ex_fetch. rewrite fetch_from_lookup. case_decide; naive_solver.
Qed.

Definition ex_no_difference (rid : string) (sets : list (gset string))
    (confl : option (gset string)) (extra : gset string) : gset string * option (gset string) :=
  (∅, None).

Definition ex_state_set (topic : string) : StateMap string :=
  <[("m.room.topic", "") := topic]>
    ((λ e : event, event_id e) <$> ex_auth).

Definition ex_sets : list (StateMap string) := [ex_state_set "$topic1"; ex_state_set "$topic2"].

(** The later topic wins. *)
Definition ex_resolution : option (result (StateMap string * gmap string event)) :=
  resolve_events_with_store no_ipv6 no_signature ex_fetch ex_no_difference 20 "!room:a.org"
    RoomVersions.V10 ex_sets ∅.

Lemma ex_resolution_topic :
  match ex_resolution with
  | Some (Ok (res, _)) => res !! ("m.room.topic", "") = Some "$topic2"
  | _ => False
  end.
Proof. vm_compute. reflexivity. Qed.

(** Ranks of the auth events: creation, membership, power levels, topics. *)
Definition ex_rank (i : string) : nat :=
  if String.eqb i "$create" then 0
  else if startswith "$member" i then 1
  else if String.eqb i "$power" then 2 else 3.

Definition ex_dag_check (i : string) (e : event) : bool :=
  match auth_event_ids e with
  | Ok ids => (length ids <=? 3) && forallb (λ a, ex_rank a <? ex_rank i) ids
  | Raise _ => true
  end.

Lemma ex_store_dag : auth_dag 3 ex_rank ex_store.
Proof.
  intros i e l He Hl.
  assert (map_Forall (λ i e, ex_dag_check i e = true) ex_store) as Hall
    by (apply (bool_decide_unpack _); vm_compute; exact I).
  specialize (Hall i e He). unfold ex_dag_check in Hall. rewrite Hl in Hall.
  apply andb_true_iff in Hall as [Hlen Hr]. split; [by apply Nat.leb_le|].
  intros a Ha. rewrite forallb_forall in Hr. apply Nat.ltb_lt, Hr. by apply list_elem_of_In.
Qed.

Lemma ex_fetch_dag ids : auth_dag 3 ex_rank (ex_fetch ids).
Proof. exact (fetched_dag ex_fetch ex_store ex_fetch_store 3 ex_rank ex_store_dag ids). Qed.

Lemma ex_empty_dag : auth_dag 3 ex_rank ∅.
Proof. intros i e l He. by rewrite lookup_empty in He. Qed.

Lemma ex_rank_bound i : ex_rank i < 20.
Proof. unfold ex_rank. repeat case_match; lia. Qed.

(** ** The theorems at work *)
Lemma seperate_correct_witness :
  is_Some ((_seperate ex_sets).1 !! ("m.room.topic", "")) ∨
  is_Some ((_seperate ex_sets).2 !! ("m.room.topic", "")).
Proof.
  destruct (seperate_correct ex_sets ("m.room.topic", "")) as (_ & _ & H & _). apply H.
  exists (ex_state_set "$topic1"). split; [left|]. exists "$topic1". by_vm.
Defined.

(** Both topics are conflicted; the resolution is the one the specification
    defines, and keeps the creation event. *)
Lemma resolve_events_correct_witness :
  ∃ res em' auth_diff, ex_resolution = Some (Ok (res, em')) ∧ res !! CREATE_KEY = Some "$create" ∧
    resolved no_ipv6 no_signature RoomVersions.V10 (view ex_store ∅)
      (filter (λ i, is_Some (view ex_store ∅ !! i)) (conflicted_events ex_sets ∪ auth_diff))
      (_seperate ex_sets).1 res.
Proof.
  destruct ex_resolution as [[[res em']|]|] eqn:H;
    [|pose proof ex_resolution_topic as Hx; rewrite H in Hx; destruct Hx..].
  destruct (resolve_events_correct no_ipv6 no_signature ex_fetch ex_store ex_fetch_store ex_no_difference
    20 "!room:a.org" RoomVersions.V10 ex_sets ∅ res em' H) as [Hkeep [[Hno _]|(ad & _ & Hres & _)]].
  - exfalso. assert (is_Some ((_seperate ex_sets).2 !! ("m.room.topic", ""))) as Hs.
    { vm_compute. eexists. reflexivity. }
    rewrite Hno, lookup_empty in Hs. destruct Hs. discriminate.
  - exists res, em', ad. split; [reflexivity|]. split; [|exact Hres].
    apply Hkeep; [discriminate|].
    intros s [-> | [-> | []%not_elem_of_nil]%elem_of_cons]%elem_of_cons; by_vm.
Defined.

Definition ex_power_run : option (result (list string * gmap string event)) :=
  _reverse_topological_power_sort ex_fetch 20 "!room:a.org" ["$power"] {[ "$power"; "$create" ]} ∅.

Lemma ex_power_run_list :
  match ex_power_run with Some (Ok (l, _)) => l = ["$create"; "$power"] | _ => False end.
Proof. vm_compute. reflexivity. Qed.

Lemma power_sort_correct_witness :
  power_ordered {[ "$power"; "$create" ]} (view ex_store ∅) ["$power"] ["$create"; "$power"].
Proof.
  destruct (power_sort_correct ex_fetch ex_store ex_fetch_store 3 ex_rank ex_store_dag 20 "!room:a.org"
    ["$power"] {[ "$power"; "$create" ]} ∅ ex_empty_dag) as (r & Hr & Hl).
  - intros n Hn. apply list_elem_of_singleton in Hn as ->. set_solver.
  - vm_compute. lia.
  - pose proof ex_power_run_list as Hx. unfold ex_power_run in Hx. rewrite Hr in Hx.
    destruct r as [[l em']|]; [|destruct Hx]. subst l. exact (proj1 (Hl _ _ eq_refl)).
Defined.

Definition ex_mainline_run : option (result (list string * gmap string event)) :=
  _mainline_sort ex_fetch 20 "!room:a.org" ["$topic2"; "$topic1"] (Some "$power") ex_store.

Lemma ex_mainline_run_list :
  match ex_mainline_run with Some (Ok (l, _)) => l = ["$topic1"; "$topic2"] | _ => False end.
Proof. vm_compute. reflexivity. Qed.

Lemma mainline_sort_correct_witness :
  mainline_ordered (view ex_store ex_store) (Some "$power") ["$topic2"; "$topic1"] ["$topic1"; "$topic2"].
Proof.
  destruct (mainline_sort_correct ex_fetch ex_store ex_fetch_store 3 ex_rank ex_store_dag 20 "!room:a.org"
    ["$topic2"; "$topic1"] (Some "$power") ex_store ex_store_dag ex_rank_bound) as (r & Hr & Hl).
  pose proof ex_mainline_run_list as Hx. unfold ex_mainline_run in Hx. rewrite Hr in Hx.
  destruct r as [[l em']|]; [|destruct Hx]. subst l. exact (proj1 (Hl _ _ eq_refl)).
Defined.

Lemma resolve_conflicted_terminates_witness :
  resolve_conflicted no_ipv6 no_signature ex_fetch 20 "!room:a.org" RoomVersions.V10
    (_seperate ex_sets).1 {[ "$topic1"; "$topic2" ]} ∅ ≠ None.
Proof.
  apply (resolve_conflicted_terminates no_ipv6 no_signature ex_fetch ex_fetch_requested 3 ex_rank
    ex_fetch_dag 20 "!room:a.org" RoomVersions.V10 (_seperate ex_sets).1 {[ "$topic1"; "$topic2" ]} ∅
    ex_empty_dag); [vm_compute; lia|exact ex_rank_bound].
Defined.
