(* ===== verification/WheelTimer.v ===== *)
(** The wheel timer, [textrp_briij/util/wheel_timer.py]: objects that are
    returned once their timers have expired.

    Times are integers in milliseconds.  [int(a / b)] is the quotient truncated
    towards zero; the division is a floating point one, and is exact for every
    time below 2^53.  A [set] of elements is a [gset], so the order inside the
    list [fetch] returns is one of those Python may choose.  Left out: the
    warning about a wheel that nobody reads. *)
From S2P Require Import Prelude.

Section wheel_timer.
Context {T : Type} `{Countable T}.

Record _Entry := mkEntry { end_key : Z; entry_elements : gset T }.

Record WheelTimer := mkWheelTimer { bucket_size : Z; entries : list _Entry }.

(** [WheelTimer(bucket_size)] *)
Definition new_wheel (bucket_size : Z) : WheelTimer := mkWheelTimer bucket_size [].

Definition with_entries (w : WheelTimer) (es : list _Entry) : WheelTimer :=
  mkWheelTimer (bucket_size w) es.

(** [int(t / self.bucket_size.as_millis())] *)
Definition bucket_key (w : WheelTimer) (t : Z) : Z := Z.quot t (bucket_size w).

(** [entry.elements.add(obj)] *)
Definition entry_add (obj : T) (e : _Entry) : _Entry :=
  mkEntry (end_key e) ({[obj]} ∪ entry_elements e).

(** [_Entry(key) for key in range(a, a + n)] *)
Fixpoint fresh_entries (a : Z) (n : nat) : list _Entry :=
  match n with
  | O => []
  | S n' => mkEntry a ∅ :: fresh_entries (a + 1) n'
  end.

(** [es[i].elements.add(obj)] *)
Definition add_at (i : nat) (obj : T) (es : list _Entry) : result (list _Entry) :=
  match es !! i with
  | Some e => Ok (<[i:=entry_add obj e]> es)
  | None => Raise IndexError
  end.

(** The second half of [insert] ([wheel_insert] below): append entries up to the one of [then_key] and
    add the object to the last of them. *)
Definition extend_and_add (w : WheelTimer) (last_key then_key : Z) (obj : T) :
    result WheelTimer :=
  let then_key := Z.max last_key then_key in
  let es := entries w ++ fresh_entries last_key (Z.to_nat (then_key + 1 - last_key)) in
  es' ← add_at (pred (length es)) obj es;
  Ok (with_entries w es').

(** The argument [then] is spelt [then_] here. *)
Definition wheel_insert (w : WheelTimer) (now : Z) (obj : T) (then_ : Z) : result WheelTimer :=
  let then_key := (bucket_key w then_ + 1)%Z in
  let now_key := bucket_key w now in
  match head (entries w), last (entries w) with
  | Some first, Some lst =>
      let min_key := end_key first in
      let max_key := end_key lst in
      if (then_key <=? max_key)%Z then
        es ← add_at (Z.to_nat (Z.max min_key then_key - min_key)) obj (entries w);
        Ok (with_entries w es)
      else extend_and_add w (max_key + 1) then_key obj
  | _, _ => extend_and_add w (now_key + 1) then_key obj
  end.

(** The loop of [fetch]: what is popped, and what stays. *)
Fixpoint pop_due (now_key : Z) (es : list _Entry) : list T * list _Entry :=
  match es with
  | e :: es' =>
      if (end_key e <=? now_key)%Z then
        let '(ret, rest) := pop_due now_key es' in (elements (entry_elements e) ++ ret, rest)
      else ([], es)
  | [] => ([], [])
  end.

Definition wheel_fetch (w : WheelTimer) (now : Z) : list T * WheelTimer :=
  let '(ret, rest) := pop_due (bucket_key w now) (entries w) in
  (ret, with_entries w rest).

(** [__len__] *)
Definition wheel_len (w : WheelTimer) : nat :=
  sum_list_with (λ e, size (entry_elements e)) (entries w).

End wheel_timer.

Arguments _Entry T {_ _}.
Arguments WheelTimer T {_ _}.
