(* ===== verification/WheelTimerProps.v ===== *)
(** What the wheel timer promises: [pending] is its abstract content, the
    operations act on it as on a set of (object, bucket) pairs, and over any
    history of operations an object comes back after its time and at most one
    bucket late. *)
From S2P Require Import Prelude WheelTimer.

Section wheel_timer.
Context {T : Type} `{Countable T}.
Implicit Types (w : WheelTimer T) (es : list (_Entry T)) (x y : T).

(** ** The invariant: consecutive keys *)
Fixpoint contiguous (k : Z) es : Prop :=
  match es with
  | [] => True
  | e :: es' => end_key e = k ∧ contiguous (k + 1) es'
  end.

Definition first_key es : Z := match es with e :: _ => end_key e | [] => 0 end.

Record wheel_ok w : Prop := {
  ok_bucket : (0 < bucket_size w)%Z;
  ok_keys : contiguous (first_key (entries w)) (entries w)
}.

(** The object [x] waits in the bucket [k]. *)
Definition pending_in es x (k : Z) : Prop :=
  ∃ e, e ∈ es ∧ end_key e = k ∧ x ∈ entry_elements e.
Definition pending w x (k : Z) : Prop := pending_in (entries w) x k.

(** The bucket an insertion goes to. *)
Definition slot_of w (now then_ : Z) : Z :=
  Z.max (match entries w with
         | e :: _ => end_key e
         | [] => bucket_key w now + 1
         end) (bucket_key w then_ + 1).

(** ** Lemmas on entries *)
Lemma pending_in_nil x k : pending_in [] x k ↔ False.
Proof. unfold pending_in. set_solver. Qed.

Lemma pending_in_cons e es x k :
  pending_in (e :: es) x k ↔ (end_key e = k ∧ x ∈ entry_elements e) ∨ pending_in es x k.
Proof. unfold pending_in. set_solver. Qed.

Lemma pending_in_app es es' x k :
  pending_in (es ++ es') x k ↔ pending_in es x k ∨ pending_in es' x k.
Proof. unfold pending_in. set_solver. Qed.

Lemma contiguous_app k es es' :
  contiguous k (es ++ es') ↔ contiguous k es ∧ contiguous (k + Z.of_nat (length es)) es'.
Proof.
  revert k. induction es as [|e es IH]; intros k; simpl.
  { rewrite Z.add_0_r. tauto. }
  rewrite IH. replace (k + 1 + Z.of_nat (length es))%Z
    with (k + Z.of_nat (S (length es)))%Z by lia. tauto.
Qed.

Lemma contiguous_lookup k es i e :
  contiguous k es → es !! i = Some e → end_key e = (k + Z.of_nat i)%Z.
Proof.
  revert k i. induction es as [|e' es IH]; intros k [|i] Hc He; simplify_eq/=.
  - destruct Hc; lia.
  - destruct Hc as [_ Hc]. rewrite (IH _ _ Hc He). lia.
Qed.

Lemma contiguous_last k es e :
  contiguous k es → last es = Some e → end_key e = (k + Z.of_nat (length es) - 1)%Z.
Proof.
  rewrite last_lookup. intros Hc He. rewrite (contiguous_lookup _ _ _ _ Hc He).
  apply lookup_lt_Some in He. lia.
Qed.

Lemma contiguous_pending k es x j : contiguous k es → pending_in es x j → (k ≤ j)%Z.
Proof.
  intros Hc (e & [i He]%list_elem_of_lookup & <- & _).
  rewrite (contiguous_lookup _ _ _ _ Hc He). lia.
Qed.

Lemma fresh_entries_contiguous a n : contiguous a (fresh_entries (T:=T) a n).
Proof. revert a. induction n; intros a; simpl; auto. Qed.

Lemma fresh_entries_length a n : length (fresh_entries (T:=T) a n) = n.
Proof. revert a. induction n; intros a; simpl; auto. Qed.

Lemma fresh_entries_pending a n x k : pending_in (fresh_entries a n) x k ↔ False.
Proof.
  revert a. induction n as [|n IH]; intros a; simpl; [apply pending_in_nil|].
  rewrite pending_in_cons, IH. set_solver.
Qed.

(** [add_at] inside the range changes the elements of one entry only. *)
Lemma add_at_spec k es i x :
  contiguous k es → i < length es →
  ∃ es', add_at i x es = Ok es' ∧ contiguous k es' ∧ length es' = length es ∧
    ∀ y j, pending_in es' y j ↔ pending_in es y j ∨ (y = x ∧ j = (k + Z.of_nat i)%Z).
Proof.
  unfold add_at. revert k i. induction es as [|e es IH]; intros k i Hc Hi; simpl in *; [lia|].
  destruct Hc as [He Hc]. destruct i as [|i]; simpl.
  - eexists. split; [done|]. split; [done|]. split; [done|].
    intros y j. rewrite !pending_in_cons. simpl.
    rewrite elem_of_union, elem_of_singleton, Z.add_0_r, He. naive_solver.
  - destruct (IH (k + 1)%Z i Hc ltac:(lia)) as (es' & Ha & Hc' & Hl & Hp).
    destruct (es !! i) as [e'|] eqn:Hi'; [|done]. injection Ha as <-.
    eexists. split; [done|]. split; [done|]. split; [simpl; lia|]. intros y j.
    simpl. rewrite !pending_in_cons, Hp.
    replace (k + 1 + Z.of_nat i)%Z with (k + Z.of_nat (S i))%Z by lia. tauto.
Qed.

Lemma contiguous_first k es : contiguous k es → es ≠ [] → first_key es = k.
Proof. by destruct es; simpl; [|intros []]. Qed.

(** ** What the operations do to the pending objects *)
Lemma extend_and_add_spec w k last_key then_key x :
  wheel_ok w → contiguous k (entries w) →
  last_key = (k + Z.of_nat (length (entries w)))%Z →
  ∃ w', extend_and_add w last_key then_key x = Ok w' ∧ wheel_ok w' ∧
    bucket_size w' = bucket_size w ∧ first_key (entries w') = k ∧
    ∀ y j, pending w' y j ↔ pending w y j ∨ (y = x ∧ j = Z.max last_key then_key).
Proof.
  intros [Hb _] Hk Hlast. unfold extend_and_add. set (m := Z.max last_key then_key).
  set (n := Z.to_nat (m + 1 - last_key)).
  assert (Z.of_nat n = m + 1 - last_key)%Z as Hn by lia.
  set (es := entries w ++ fresh_entries last_key n).
  assert (contiguous k es) as Hc.
  { apply contiguous_app. rewrite <- Hlast. auto using fresh_entries_contiguous. }
  assert (length es = length (entries w) + n) as Hlen
    by (unfold es; rewrite length_app, fresh_entries_length; done).
  destruct (add_at_spec k es (pred (length es)) x Hc ltac:(lia)) as (es' & Ha & Hc' & Hl & Hp).
  exists (with_entries w es'). simpl. rewrite Ha. simpl.
  assert (first_key es' = k) as Hf.
  { apply contiguous_first; [done|]. intros ->. simpl in Hl. lia. }
  split_and!; [done| |done|done|].
  { split; simpl; [done|by rewrite Hf]. }
  intros y j. unfold pending. simpl. rewrite Hp. unfold es at 1.
  rewrite pending_in_app, fresh_entries_pending.
  replace (k + Z.of_nat (pred (length es)))%Z with m by lia. tauto.
Qed.

Lemma wheel_insert_spec w now x then_ :
  wheel_ok w →
  ∃ w', wheel_insert w now x then_ = Ok w' ∧ wheel_ok w' ∧ bucket_size w' = bucket_size w ∧
    first_key (entries w') =
      match entries w with e :: _ => end_key e | [] => (bucket_key w now + 1)%Z end ∧
    ∀ y k, pending w' y k ↔ pending w y k ∨ (y = x ∧ k = slot_of w now then_).
Proof.
  intros Hw. pose proof Hw as [Hb Hc]. unfold wheel_insert, slot_of.
  destruct (entries w) as [|e es] eqn:Hes; cbn [hd_error].
  { apply extend_and_add_spec; [done|by rewrite Hes|by rewrite Hes; simpl; lia]. }
  simpl in Hc. destruct (last (e :: es)) as [l|] eqn:Hl; [|by apply last_None in Hl].
  pose proof (contiguous_last (end_key e) (e :: es) l Hc Hl) as Hkl. simpl in Hkl. cbn [hd_error].
  destruct (Z.leb_spec (bucket_key w then_ + 1) (end_key l)) as [Hle|Hlt].
  - destruct (add_at_spec (end_key e) (e :: es)
      (Z.to_nat (Z.max (end_key e) (bucket_key w then_ + 1) - end_key e)) x Hc)
      as (es' & Ha & Hc' & Hlen & Hp); [simpl; lia|].
    rewrite Ha. simpl. eexists. split; [done|].
    assert (first_key es' = end_key e) as Hf
      by (apply contiguous_first; [done|intros ->; simpl in Hlen; lia]).
    split_and!; [|done|done|].
    { split; simpl; [done|by rewrite Hf]. }
    intros y k. unfold pending. simpl. rewrite Hp, Hes.
    rewrite Z2Nat.id by lia. replace (end_key e + _)%Z
      with (Z.max (end_key e) (bucket_key w then_ + 1))%Z by lia. done.
  - destruct (extend_and_add_spec w (end_key e) (end_key l + 1) (bucket_key w then_ + 1) x)
      as (w' & ? & ? & ? & ? & Hp); [done|by rewrite Hes|rewrite Hes; simpl; lia|].
    exists w'. split_and!; [done..|]. intros y k. rewrite Hp.
    replace (Z.max (end_key l + 1) (bucket_key w then_ + 1))
      with (Z.max (end_key e) (bucket_key w then_ + 1))%Z by lia. done.
Qed.

Lemma pop_due_spec k nk es ret rest :
  contiguous k es → pop_due nk es = (ret, rest) →
  contiguous (first_key rest) rest ∧ (rest ≠ [] → first_key rest ≤ Z.max k (nk + 1))%Z ∧
  (∀ y, y ∈ ret ↔ ∃ j, (j ≤ nk)%Z ∧ pending_in es y j) ∧
  (∀ y j, pending_in rest y j ↔ pending_in es y j ∧ (nk < j)%Z).
Proof.
  revert k ret rest. induction es as [|e es IH]; intros k ret rest Hc Hp; simpl in *.
  { simplify_eq. split_and!; [done|done| |]; intros; setoid_rewrite pending_in_nil; set_solver. }
  destruct Hc as [He Hc]. destruct (Z.leb_spec (end_key e) nk) as [Hle|Hlt].
  - destruct (pop_due nk es) as [ret' rest'] eqn:Hr. simplify_eq.
    destruct (IH _ _ _ Hc eq_refl) as (Hc' & Hf & Hret & Hrest).
    split; [done|]. split; [intros Hne; specialize (Hf Hne); lia|]. split.
    + intros y. rewrite elem_of_app, elem_of_elements, Hret. setoid_rewrite pending_in_cons.
      naive_solver.
    + intros y j. rewrite Hrest, pending_in_cons. naive_solver lia.
  - simplify_eq. split; [done|]. split; [intros; simpl; lia|]. split.
    + intros y. split; [by intros ?%elem_of_nil|].
      intros (j & Hj & [[<- _]|Hp]%pending_in_cons); [lia|].
      pose proof (contiguous_pending _ _ _ _ Hc Hp). lia.
    + intros y j. split; [|naive_solver]. intros Hp. split; [done|].
      apply pending_in_cons in Hp as [[<- _]|Hp]; [done|].
      pose proof (contiguous_pending _ _ _ _ Hc Hp). lia.
Qed.

Lemma wheel_fetch_spec w now ret w' :
  wheel_ok w → wheel_fetch w now = (ret, w') →
  wheel_ok w' ∧ bucket_size w' = bucket_size w ∧
  (entries w' ≠ [] →
   first_key (entries w') ≤ Z.max (first_key (entries w)) (bucket_key w now + 1))%Z ∧
  (∀ y, y ∈ ret ↔ ∃ j, (j ≤ bucket_key w now)%Z ∧ pending w y j) ∧
  (∀ y j, pending w' y j ↔ pending w y j ∧ (bucket_key w now < j)%Z).
Proof.
  intros [Hb Hc] Hf. unfold wheel_fetch in Hf.
  destruct (pop_due (bucket_key w now) (entries w)) as [r rest] eqn:Hp. simplify_eq.
  destruct (pop_due_spec _ _ _ _ _ Hc Hp) as (Hc' & Hk & Hr & Hrest).
  split_and!; [by split|done|done|done|done].
Qed.

Lemma new_wheel_ok bs : (0 < bs)%Z → wheel_ok (new_wheel (T:=T) bs).
Proof. by split. Qed.

Lemma new_wheel_pending bs x k : pending (new_wheel bs) x k ↔ False.
Proof. apply pending_in_nil. Qed.

(** ** Arithmetic of buckets *)
Lemma bucket_key_mono w a b :
  (0 < bucket_size w)%Z → (a ≤ b)%Z → (bucket_key w a ≤ bucket_key w b)%Z.
Proof. intros. by apply Z.quot_le_mono. Qed.

(** The end of a bucket is after every time of the bucket... *)
Lemma bucket_key_late w a b :
  (0 < bucket_size w)%Z → (0 ≤ b)%Z → (bucket_key w a + 1 ≤ bucket_key w b)%Z → (a < b)%Z.
Proof.
  intros Hb H0 Hk. destruct (Z.lt_ge_cases a b) as [|Hba]; [done|].
  pose proof (bucket_key_mono w b a Hb Hba). lia.
Qed.

(** ...and at most a bucket later. *)
Lemma bucket_key_soon w a b :
  (0 < bucket_size w)%Z → (0 ≤ a)%Z → (a + bucket_size w ≤ b)%Z →
  (bucket_key w a + 1 ≤ bucket_key w b)%Z.
Proof.
  intros Hb H0 Hk. unfold bucket_key. rewrite !Z.quot_div_nonneg by lia.
  rewrite <- Z.div_add by lia. apply Z.div_le_mono; lia.
Qed.

(** ** Histories *)
Inductive wheel_op :=
  | OpInsert (now : Z) (obj : T) (then_ : Z)
  | OpFetch (now : Z).

Definition op_time (o : wheel_op) : Z :=
  match o with OpInsert now _ _ => now | OpFetch now => now end.

(** One operation; [outs] has what each operation so far returned. *)
Definition wheel_step (s : WheelTimer T * list (list T)) (o : wheel_op) :
    result (WheelTimer T * list (list T)) :=
  let '(w, outs) := s in
  match o with
  | OpInsert now obj then_ => w' ← wheel_insert w now obj then_; Ok (w', outs ++ [[]])
  | OpFetch now => let '(ret, w') := wheel_fetch w now in Ok (w', outs ++ [ret])
  end.

Definition wheel_run (bs : Z) (ops : list wheel_op) : result (WheelTimer T * list (list T)) :=
  fold_res wheel_step ops (new_wheel bs, []).

(** The clock never goes back. *)
Definition clock_ok (ops : list wheel_op) : Prop :=
  ∀ i j a b, ops !! i = Some a → ops !! j = Some b → i ≤ j →
    (0 ≤ op_time a ≤ op_time b)%Z.

Lemma clock_ok_sorted ops : Sorted Z.le (0%Z :: (op_time <$> ops)) → clock_ok ops.
Proof.
  intros Hs%(Sorted_StronglySorted _). induction ops as [|o ops IH]; [intros ?; done|].
  simpl in Hs. inversion Hs as [|? ? H1 H2]; subst. inversion H1 as [|? ? H3 H4]; subst.
  inversion H2 as [|? ? H5 H6]; subst. rewrite Forall_fmap in H4, H6.
  assert (clock_ok ops) as IH'.
  { apply IH. constructor; [done|by apply Forall_fmap]. }
  intros [|i] [|j] a b Ha Hb Hij; simplify_eq/=; [lia| |lia|eapply IH'; eauto; lia].
  rewrite Forall_lookup in H4. specialize (H4 _ _ Hb). simpl in H4. lia.
Qed.

(** What holds after a history: nothing waits for a bucket before its own, and
    an object that has not come back waits in a bucket that is not too late. *)
Record history_ok (bs : Z) ops w (outs : list (list T)) : Prop := {
  h_ok : wheel_ok w;
  h_bs : bucket_size w = bs;
  h_len : length outs = length ops;
  h_first : entries w ≠ [] →
    ∃ o, last ops = Some o ∧ (first_key (entries w) ≤ bucket_key w (op_time o) + 1)%Z;
  h_pending x k : pending w x k →
    ∃ j t th, ops !! j = Some (OpInsert t x th) ∧ (bucket_key w th + 1 ≤ k)%Z;
  h_early i now ret x : ops !! i = Some (OpFetch now) → outs !! i = Some ret → x ∈ ret →
    ∃ j t th, j < i ∧ ops !! j = Some (OpInsert t x th) ∧ (th < now)%Z;
  h_kept j t x th : ops !! j = Some (OpInsert t x th) →
    (∃ m ret, j < m ∧ outs !! m = Some ret ∧ x ∈ ret) ∨
    (∃ k, pending w x k ∧ k ≤ Z.max (bucket_key w th + 1) (bucket_key w t + 1))%Z;
  h_prompt j i t x th now : j < i → ops !! j = Some (OpInsert t x th) →
    ops !! i = Some (OpFetch now) → (Z.max t th + bs ≤ now)%Z →
    ∃ m ret, j < m ≤ i ∧ outs !! m = Some ret ∧ x ∈ ret
}.

Lemma clock_snoc ops o p :
  clock_ok (ops ++ [o]) → last ops = Some p → (op_time p ≤ op_time o)%Z.
Proof.
  rewrite last_lookup. intros Hclk Hp. pose proof (lookup_lt_Some _ _ _ Hp).
  eapply (Hclk (pred (length ops)) (length ops)); [by apply lookup_app_l_Some| |lia].
  by rewrite lookup_app_r, Nat.sub_diag by lia.
Qed.

Lemma clock_last ops o : clock_ok (ops ++ [o]) → (0 ≤ op_time o)%Z.
Proof.
  intros Hclk. assert ((ops ++ [o]) !! length ops = Some o) as Ho
    by (by rewrite lookup_app_r, Nat.sub_diag by lia).
  by destruct (Hclk _ _ _ _ Ho Ho).
Qed.

Lemma history_first bs ops w outs o :
  history_ok bs ops w outs → clock_ok (ops ++ [o]) → entries w ≠ [] →
  (first_key (entries w) ≤ bucket_key w (op_time o) + 1)%Z.
Proof.
  intros Hh Hclk Hne. destruct (h_first _ _ _ _ Hh Hne) as (p & Hp & Hle).
  pose proof (bucket_key_mono w _ _ (ok_bucket _ (h_ok _ _ _ _ Hh)) (clock_snoc _ _ _ Hclk Hp)).
  lia.
Qed.

Lemma history_insert bs ops w outs now x th :
  history_ok bs ops w outs → clock_ok (ops ++ [OpInsert now x th]) →
  ∃ w', wheel_insert w now x th = Ok w' ∧
    history_ok bs (ops ++ [OpInsert now x th]) w' (outs ++ [[]]).
Proof.
  intros Hh Hclk. pose proof (history_first _ _ _ _ _ Hh Hclk) as Hfirst. simpl in Hfirst.
  destruct Hh as [Hok Hbs Hlen _ Hpend Hearly Hkept Hprompt].
  destruct (wheel_insert_spec w now x th Hok) as (w' & Hi & Hok' & Hb & Hf & Hp).
  exists w'. split; [done|].
  assert (∀ t, bucket_key w' t = bucket_key w t) as Hk by (intros; unfold bucket_key; by rewrite Hb).
  split; [done|by rewrite Hb|by rewrite !length_app, Hlen|..].
  - intros _. rewrite last_snoc. eexists. split; [done|]. rewrite Hf, Hk. simpl.
    destruct (entries w); [lia|by apply Hfirst].
  - intros y k [Hy|[-> ->]]%Hp.
    + destruct (Hpend _ _ Hy) as (j & t & th' & Hj & Hle). exists j, t, th'. rewrite Hk.
      eauto using lookup_app_l_Some.
    + exists (length ops), now, th. rewrite lookup_app_r, Nat.sub_diag by lia. rewrite Hk.
      split; [done|]. unfold slot_of. lia.
  - intros i now' ret y [[Hlt Ho]|[_ ?]]%lookup_snoc_Some Hr Hy; [|done].
    rewrite lookup_app_l in Hr by lia.
    destruct (Hearly _ _ _ _ Ho Hr Hy) as (j & t & th' & ? & ? & ?).
    eauto 9 using lookup_app_l_Some.
  - intros j t y th' [[Hlt Ho]|[-> ?]]%lookup_snoc_Some; simplify_eq.
    + destruct (Hkept _ _ _ _ Ho) as [(m & ret & ? & ? & ?)|(k & ? & ?)].
      * left. eauto 9 using lookup_app_l_Some.
      * right. exists k. rewrite Hp, !Hk. auto.
    + right. exists (slot_of w t th'). rewrite Hp, !Hk. split; [auto|]. unfold slot_of.
      destruct (entries w); [lia|]. specialize (Hfirst ltac:(done)). simpl in Hfirst. lia.
  - intros j i t y th' now' Hji Ho1 [[Hlt Ho]|[_ ?]]%lookup_snoc_Some Hle; [|done].
    rewrite lookup_app_l in Ho1 by lia.
    destruct (Hprompt _ _ _ _ _ _ Hji Ho1 Ho Hle) as (m & ret & ? & ? & ?).
    eauto 9 using lookup_app_l_Some.
Qed.

Lemma history_fetch bs ops w outs now ret w' :
  history_ok bs ops w outs → clock_ok (ops ++ [OpFetch now]) →
  wheel_fetch w now = (ret, w') →
  history_ok bs (ops ++ [OpFetch now]) w' (outs ++ [ret]).
Proof.
  intros Hh Hclk Hfe. pose proof (history_first _ _ _ _ _ Hh Hclk) as Hfirst. simpl in Hfirst.
  pose proof (clock_last _ _ Hclk) as H0. simpl in H0.
  destruct Hh as [Hok Hbs Hlen _ Hpend Hearly Hkept Hprompt].
  pose proof (ok_bucket _ Hok) as Hpos.
  destruct (wheel_fetch_spec _ _ _ _ Hok Hfe) as (Hok' & Hb & Hf & Hr & Hp).
  assert (∀ t, bucket_key w' t = bucket_key w t) as Hk by (intros; unfold bucket_key; by rewrite Hb).
  assert (∀ m r, outs !! m = Some r → (outs ++ [ret]) !! m = Some r) as Houts
    by (intros; by apply lookup_app_l_Some).
  assert ((outs ++ [ret]) !! length ops = Some ret) as Hlast
    by (by rewrite <- Hlen, lookup_app_r, Nat.sub_diag by lia).
  split; [done|by rewrite Hb|by rewrite !length_app, Hlen|..].
  - intros Hne. rewrite last_snoc. eexists. split; [done|]. simpl. rewrite Hk.
    specialize (Hf Hne). destruct (decide (entries w = [])) as [He|He].
    + unfold wheel_fetch in Hfe. rewrite He in Hfe. simpl in Hfe. by simplify_eq.
    + specialize (Hfirst He). lia.
  - intros y k [Hy _]%Hp. destruct (Hpend _ _ Hy) as (j & t & th' & Hj & Hle).
    exists j, t, th'. rewrite Hk. eauto using lookup_app_l_Some.
  - intros i now' r y [[Hlt Ho]|[-> ?]]%lookup_snoc_Some Hr' Hy; simplify_eq.
    + rewrite lookup_app_l in Hr' by lia.
      destruct (Hearly _ _ _ _ Ho Hr' Hy) as (j & t & th' & ? & ? & ?).
      eauto 9 using lookup_app_l_Some.
    + apply Hr in Hy as (k & Hle & Hy).
      destruct (Hpend _ _ Hy) as (j & t & th' & Hj & Hle').
      exists j, t, th'. split_and!; [by eapply lookup_lt_Some|by apply lookup_app_l_Some|].
      apply (bucket_key_late w); [done|done|lia].
  - intros j t y th' [[Hlt Ho]|[_ ?]]%lookup_snoc_Some; [|done].
    destruct (Hkept _ _ _ _ Ho) as [(m & r & ? & ? & ?)|(k & Hy & Hle)]; [left; eauto 9|].
    destruct (Z.le_gt_cases k (bucket_key w now)) as [Hkn|Hkn].
    + left. exists (length ops), ret. split_and!; [done|done|]. apply Hr. eauto.
    + right. exists k. rewrite Hp, !Hk. auto with lia.
  - intros j i t y th' now' Hji Ho1 [[Hlt Ho]|[-> ?]]%lookup_snoc_Some Hle; simplify_eq.
    + rewrite lookup_app_l in Ho1 by lia.
      destruct (Hprompt _ _ _ _ _ _ Hji Ho1 Ho Hle) as (m & r & ? & ? & ?). eauto 9.
    + pose proof (Hclk _ _ _ _ Ho1 Ho1 ltac:(lia)) as Ht. simpl in Ht.
      rewrite lookup_app_l in Ho1 by lia.
      destruct (Hkept _ _ _ _ Ho1) as [(m & r & ? & Hm & ?)|(k & Hy & Hle')].
      * exists m, r. split_and!; [done|apply lookup_lt_Some in Hm; lia|by auto|done].
      * exists (length ops), ret. split_and!; [done|done|done|]. apply Hr. exists k. split; [|done].
        pose proof (bucket_key_soon w (Z.max t th') now' Hpos ltac:(lia) ltac:(lia)).
        pose proof (bucket_key_mono w th' (Z.max t th') Hpos ltac:(lia)).
        pose proof (bucket_key_mono w t (Z.max t th') Hpos ltac:(lia)). lia.
Qed.

Lemma clock_prefix ops o : clock_ok (ops ++ [o]) → clock_ok ops.
Proof. intros Hclk i j a b Ha Hb. eapply Hclk; by apply lookup_app_l_Some. Qed.

Lemma history_run bs ops :
  (0 < bs)%Z → clock_ok ops →
  ∃ w outs, wheel_run bs ops = Ok (w, outs) ∧ history_ok bs ops w outs.
Proof.
  intros Hbs. unfold wheel_run. induction ops as [|o ops IH] using rev_ind; intros Hclk.
  { exists (new_wheel bs), []. split; [done|].
    split; try done. by intros x k ?%new_wheel_pending. }
  destruct (IH (clock_prefix _ _ Hclk)) as (w & outs & Hr & Hh).
  rewrite fold_res_snoc, Hr. destruct o as [now x th|now]; simpl.
  - destruct (history_insert _ _ _ _ _ _ _ Hh Hclk) as (w' & -> & Hh'). simpl. eauto.
  - destruct (wheel_fetch w now) as [ret w'] eqn:Hf. eauto using history_fetch.
Qed.

(** C30: the wheel timer is a timer.  For every history of insertions and fetches
    on a clock that does not go back, no operation raises (the index used by
    [insert] is always in range); an object a fetch returns was inserted before
    and its time is strictly past; and an object inserted at [t] for the time
    [th] has come back by any fetch one bucket after both. *)
Theorem wheel_timer_correct bs ops :
  (0 < bs)%Z → clock_ok ops →
  ∃ w outs, wheel_run bs ops = Ok (w, outs) ∧ length outs = length ops ∧
    (∀ i now ret x, ops !! i = Some (OpFetch now) → outs !! i = Some ret → x ∈ ret →
      ∃ j t th, j < i ∧ ops !! j = Some (OpInsert t x th) ∧ (th < now)%Z) ∧
    (∀ j i t x th now, j < i → ops !! j = Some (OpInsert t x th) →
      ops !! i = Some (OpFetch now) → (Z.max t th + bs ≤ now)%Z →
      ∃ m ret, j < m ≤ i ∧ outs !! m = Some ret ∧ x ∈ ret).
Proof.
  intros Hbs Hclk. destruct (history_run bs ops Hbs Hclk) as (w & outs & Hr & []). eauto 9.
Qed.

End wheel_timer.

(** ** A concrete wheel *)
Definition sample_ops : list (wheel_op (T:=string)) :=
  [OpInsert 12000 "alice" 42000; OpInsert 13000 "bob" 3000; OpFetch 14000; OpFetch 17000;
   OpFetch 43000; OpInsert 44000 "alice" 104000; OpFetch 47000].

Example sample_run :
  snd <$> wheel_run 5000 sample_ops = Ok [[]; []; []; ["bob"]; []; []; ["alice"]].
Proof. by_vm. Qed.

Lemma sample_clock : clock_ok sample_ops.
Proof. apply clock_ok_sorted. repeat constructor; done. Qed.

Lemma wheel_timer_correct_witness :
  ∃ w outs m ret, wheel_run 5000 sample_ops = Ok (w, outs) ∧
    0 < m ≤ 6 ∧ outs !! m = Some ret ∧ "alice" ∈ ret.
Proof.
  destruct (wheel_timer_correct 5000 sample_ops eq_refl sample_clock)
    as (w & outs & Hr & _ & _ & Hp).
  destruct (Hp 0 6 12000%Z "alice" 42000%Z 47000%Z ltac:(lia) eq_refl eq_refl ltac:(lia))
    as (m & ret & Hm & Ho & Hin).
  exists w, outs, m, ret. split; [exact Hr|]. split; [exact Hm|]. split; [exact Ho|exact Hin].
Defined.
