(* ===== verification/Presence.v ===== *)
(** Presence: [textrp_briij/api/presence.py], the presence writer of
    [textrp_briij/handlers/presence.py] and its table
    ([textrp_briij/storage/databases/main/presence.py]).

    Times are milliseconds; a handler takes the values it reads from the clock
    as arguments, [now] for its own reading and [now'] for the one of
    [_update_states].  A handler runs as one step: the awaits inside it are
    database calls, and the linearizer of the external syncs keeps the calls of
    a process apart.  Dictionaries whose order cannot be observed are [gmap]s.
    The table [presence_stream] is the map from a user to its row, since
    [update_presence] deletes the older rows of the users it writes.  What the
    handler sends out (to the notifier and to the federation queue) is appended
    to a log.  Left out: metrics, logging, who is interested in a state, and
    the workers that proxy to the presence writer. *)
From S2P Require Import Prelude Identifiers WheelTimer.
From Stdlib Require Import Ascii.

(** ** A state and exception monad: what was done before an exception stays *)
Definition ST (S A : Type) : Type := S → S * result A.

Definition st_bind {S A B} (m : ST S A) (f : A → ST S B) : ST S B :=
  λ s, match m s with
       | (s', Ok x) => f x s'
       | (s', Raise e) => (s', Raise e)
       end.
Definition st_ret {S A} (x : A) : ST S A := λ s, (s, Ok x).
Definition st_get {S A} (f : S → A) : ST S A := λ s, (s, Ok (f s)).
Definition st_modify {S} (f : S → S) : ST S unit := λ s, (f s, Ok tt).
Definition st_lift {S A} (r : result A) : ST S A := λ s, (s, r).

Declare Scope st_scope.
Delimit Scope st_scope with st.
Notation "'let!' x := p 'in' q" := (st_bind p (λ x, q))
  (at level 200, x pattern, p at level 100, q at level 200) : st_scope.
Notation "'do!' p 'in' q" := (st_bind p (λ _, q))
  (at level 200, p at level 100, q at level 200) : st_scope.
Open Scope st_scope.

Fixpoint st_fold {S A B} (f : B → A → ST S B) (l : list A) (b : B) : ST S B :=
  match l with
  | [] => st_ret b
  | x :: l' => let! b' := f b x in st_fold f l' b'
  end.

(** ** Data *)
Module PresenceState.
Definition OFFLINE : string := "offline".
Definition UNAVAILABLE : string := "unavailable".
Definition ONLINE : string := "online".
Definition BUSY : string := "org.matrix.msc3026.busy".
End PresenceState.

Record UserDevicePresenceState := mkDevice {
  dev_user_id : string;
  dev_device_id : option string;
  dev_state : string;
  dev_last_active_ts : Z;
  dev_last_sync_ts : Z
}.

(** [UserDevicePresenceState.default] *)
Definition device_default (user_id : string) (device_id : option string) :
    UserDevicePresenceState :=
  mkDevice user_id device_id PresenceState.OFFLINE 0 0.

Record UserPresenceState := mkState {
  ups_user_id : string;
  ups_state : string;
  ups_last_active_ts : Z;
  ups_last_federation_update_ts : Z;
  ups_last_user_sync_ts : Z;
  ups_status_msg : option string;
  ups_currently_active : bool
}.

#[export] Instance ups_eq_dec : EqDecision UserPresenceState.
Proof. solve_decision. Defined.

(** [UserPresenceState.default] *)
Definition state_default (user_id : string) : UserPresenceState :=
  mkState user_id PresenceState.OFFLINE 0 0 0 None false.

(** [copy_and_replace], one function per field; the setters of a device are the
    assignments to its attributes. *)
Definition with_state (v : string) (s : UserPresenceState) : UserPresenceState :=
  mkState (ups_user_id s) v (ups_last_active_ts s) (ups_last_federation_update_ts s)
    (ups_last_user_sync_ts s) (ups_status_msg s) (ups_currently_active s).
Definition with_last_active (v : Z) (s : UserPresenceState) : UserPresenceState :=
  mkState (ups_user_id s) (ups_state s) v (ups_last_federation_update_ts s)
    (ups_last_user_sync_ts s) (ups_status_msg s) (ups_currently_active s).
Definition with_federation_update (v : Z) (s : UserPresenceState) : UserPresenceState :=
  mkState (ups_user_id s) (ups_state s) (ups_last_active_ts s) v
    (ups_last_user_sync_ts s) (ups_status_msg s) (ups_currently_active s).
Definition with_user_sync (v : Z) (s : UserPresenceState) : UserPresenceState :=
  mkState (ups_user_id s) (ups_state s) (ups_last_active_ts s)
    (ups_last_federation_update_ts s) v (ups_status_msg s) (ups_currently_active s).
Definition with_status_msg (v : option string) (s : UserPresenceState) : UserPresenceState :=
  mkState (ups_user_id s) (ups_state s) (ups_last_active_ts s)
    (ups_last_federation_update_ts s) (ups_last_user_sync_ts s) v (ups_currently_active s).
Definition with_currently_active (v : bool) (s : UserPresenceState) : UserPresenceState :=
  mkState (ups_user_id s) (ups_state s) (ups_last_active_ts s)
    (ups_last_federation_update_ts s) (ups_last_user_sync_ts s) (ups_status_msg s) v.

Definition dev_set_state (v : string) (d : UserDevicePresenceState) : UserDevicePresenceState :=
  mkDevice (dev_user_id d) (dev_device_id d) v (dev_last_active_ts d) (dev_last_sync_ts d).
Definition dev_set_last_active (v : Z) (d : UserDevicePresenceState) : UserDevicePresenceState :=
  mkDevice (dev_user_id d) (dev_device_id d) (dev_state d) v (dev_last_sync_ts d).
Definition dev_set_last_sync (v : Z) (d : UserDevicePresenceState) : UserDevicePresenceState :=
  mkDevice (dev_user_id d) (dev_device_id d) (dev_state d) (dev_last_active_ts d) v.

(** ** Constants *)
Definition LAST_ACTIVE_GRANULARITY : Z := 60 * 1000.
Definition SYNC_ONLINE_TIMEOUT : Z := 30 * 1000.
Definition BUSY_ONLINE_TIMEOUT : Z := 60 * 60 * 1000.
Definition IDLE_TIMER : Z := 5 * 60 * 1000.
Definition FEDERATION_TIMEOUT : Z := 30 * 60 * 1000.
Definition FEDERATION_PING_INTERVAL : Z := 25 * 60 * 1000.
Definition EXTERNAL_PROCESS_EXPIRY : Z := 5 * 60 * 1000.

(** The default [bucket_size] of a wheel timer. *)
Definition BUCKET_SIZE : Z := 5000.

(** ** Combining the devices of a user *)

(** [PRESENCE_BY_PRIORITY] *)
Definition PRESENCE_BY_PRIORITY (state : string) : result Z :=
  if decide (state = PresenceState.BUSY) then Ok 4%Z
  else if decide (state = PresenceState.ONLINE) then Ok 3%Z
  else if decide (state = PresenceState.UNAVAILABLE) then Ok 2%Z
  else if decide (state = PresenceState.OFFLINE) then Ok 1%Z
  else Raise KeyError.

(** The comparison of the pairs (priority, time). *)
Definition pair_gt (a b : Z * Z) : bool :=
  (b.1 <? a.1)%Z || ((b.1 =? a.1)%Z && (b.2 <? a.2)%Z).

Definition combine_step (acc : string * Z) (device_state : UserDevicePresenceState) :
    result (string * Z) :=
  p ← PRESENCE_BY_PRIORITY (dev_state device_state);
  q ← PRESENCE_BY_PRIORITY acc.1;
  Ok (if pair_gt (p, dev_last_active_ts device_state) (q, acc.2)
      then (dev_state device_state, dev_last_active_ts device_state) else acc).

Definition _combine_device_states (device_states : list UserDevicePresenceState) :
    result string :=
  fst <$> fold_res combine_step device_states (PresenceState.OFFLINE, (-1)%Z).

(** [devices.values()] *)
Notation device_map := (gmap (option string) UserDevicePresenceState).
Definition device_values (ds : device_map) : list UserDevicePresenceState :=
  (map_to_list ds).*2.

(** ** [should_notify] *)
Definition should_notify (old_state new_state : UserPresenceState) : bool :=
  if decide (old_state = new_state) then false
  else if negb (bool_decide (ups_status_msg old_state = ups_status_msg new_state)) then true
  else if negb (bool_decide (ups_state old_state = ups_state new_state)) then true
  else if bool_decide (ups_state old_state = PresenceState.ONLINE) then
    if negb (Bool.eqb (ups_currently_active new_state) (ups_currently_active old_state)) then true
    else if (LAST_ACTIVE_GRANULARITY <?
             ups_last_active_ts new_state - ups_last_active_ts old_state)%Z
    then negb (ups_currently_active new_state)
    else false
  else (LAST_ACTIVE_GRANULARITY <? ups_last_active_ts new_state - ups_last_active_ts old_state)%Z.

(** ** What other servers and clients are sent *)

(** The JSON object of a presence update; an absent key is [None]. *)
Record presence_content := mkContent {
  pc_presence : option string;
  pc_user_id : option string;
  pc_last_active_ago : option Z;
  pc_status_msg : option string;
  pc_currently_active : option bool
}.

Definition format_user_presence_state (state : UserPresenceState) (now : Z)
    (include_user_id : bool) : presence_content :=
  mkContent (Some (ups_state state))
    (if include_user_id then Some (ups_user_id state) else None)
    (if (ups_last_active_ts state =? 0)%Z then None else Some (now - ups_last_active_ts state)%Z)
    (match ups_status_msg state with
     | Some m => if str_nonempty m then Some m else None
     | None => None
     end)
    (if bool_decide (ups_state state = PresenceState.ONLINE)
     then Some (ups_currently_active state) else None).

(** ** Timeouts *)

(** One round of the loop of [handle_timeout] over the devices: the device after
    it, whether it goes offline, and whether it sets [device_changed]. *)
Definition timeout_device (user_id : string) (syncing : gset (string * option string)) (now : Z)
    (device_id : option string) (d : UserDevicePresenceState) :
    UserDevicePresenceState * bool * bool :=
  let idle := bool_decide (dev_state d = PresenceState.ONLINE) &&
              (IDLE_TIMER <? now - dev_last_active_ts d)%Z in
  let d := if idle then dev_set_state PresenceState.UNAVAILABLE d else d in
  let offline :=
    if decide ((user_id, device_id) ∈ syncing) then false
    else
      let sync_or_active := Z.max (dev_last_sync_ts d) (dev_last_active_ts d) in
      let online_timeout :=
        if bool_decide (dev_state d = PresenceState.BUSY)
        then BUSY_ONLINE_TIMEOUT else SYNC_ONLINE_TIMEOUT in
      (online_timeout <? now - sync_or_active)%Z in
  (d, offline, idle || offline).

(** The devices after the loop, without those that went offline. *)
Definition timeout_devices (user_id : string) (syncing : gset (string * option string)) (now : Z)
    (ds : device_map) : device_map :=
  map_imap (λ device_id d,
    let '(d', offline, _) := timeout_device user_id syncing now device_id d in
    if (offline : bool) then None else Some d') ds.

Definition device_changed (user_id : string) (syncing : gset (string * option string)) (now : Z)
    (ds : device_map) : bool :=
  existsb (λ '(device_id, d), (timeout_device user_id syncing now device_id d).2)
    (map_to_list ds).

(** [handle_timeout]: the state it mutates is the dict of the user's devices. *)
Definition handle_timeout (state : UserPresenceState) (is_mine : bool)
    (syncing : gset (string * option string)) (now : Z) :
    ST device_map (option UserPresenceState) :=
  if bool_decide (ups_state state = PresenceState.OFFLINE) then st_ret None
  else if is_mine then
    let user_id := ups_user_id state in
    let! dev_changed := st_get (device_changed user_id syncing now) in
    do! st_modify (timeout_devices user_id syncing now) in
    let! (state, changed) :=
      if (dev_changed : bool) then
        let! ds := st_get device_values in
        let! new_presence := st_lift (_combine_device_states ds) in
        st_ret (if bool_decide (new_presence = ups_state state) then (state, false)
                else (with_state new_presence state, true))
      else st_ret (state, false) in
    let changed := changed || (LAST_ACTIVE_GRANULARITY <? now - ups_last_active_ts state)%Z in
    let changed := changed ||
      (FEDERATION_PING_INTERVAL <? now - ups_last_federation_update_ts state)%Z in
    st_ret (if (changed : bool) then Some state else None)
  else
    st_ret (if (FEDERATION_TIMEOUT <? now - ups_last_federation_update_ts state)%Z
            then Some (with_state PresenceState.OFFLINE state) else None).

(** One round of the loop of [handle_timeouts]: the dicts of devices are shared
    with [user_to_devices]. *)
Definition timeouts_loop (is_mine_fn : string → bool) (syncing : gset (string * option string))
    (now : Z) (changes : gmap string UserPresenceState) (state : UserPresenceState) :
    ST (gmap string device_map) (gmap string UserPresenceState) :=
  let user_id := ups_user_id state in
  let! devices := st_get (λ m, m !! user_id) in
  let '(devices', r) :=
    handle_timeout state (is_mine_fn user_id) syncing now (default ∅ devices) in
  do! st_modify (λ m, if devices is Some _ then <[user_id:=devices']> m else m) in
  let! new_state := st_lift r in
  st_ret (match new_state with
          | Some new_state => <[user_id:=new_state]> changes
          | None => changes
          end).

Definition handle_timeouts (user_states : list UserPresenceState) (is_mine_fn : string → bool)
    (syncing : gset (string * option string)) (now : Z) :
    ST (gmap string device_map) (list UserPresenceState) :=
  let! changes := st_fold (timeouts_loop is_mine_fn syncing now) user_states ∅ in
  st_ret (map_to_list changes).*2.

(** ** [handle_update]: the state it mutates is the wheel timer *)
Definition timer (persist : bool) (now : Z) (user_id : string) (then_ : Z) :
    ST (WheelTimer string) unit :=
  if persist then st_ret tt
  else λ w, match wheel_insert w now user_id then_ with
            | Ok w' => (w', Ok tt)
            | Raise e => (w, Raise e)
            end.

Definition handle_update (prev_state new_state : UserPresenceState) (is_mine : bool) (now : Z)
    (persist : bool) : ST (WheelTimer string) (UserPresenceState * bool * bool) :=
  let user_id := ups_user_id new_state in
  let! (new_state, federation_ping) :=
    if is_mine then
      let! new_state :=
        if bool_decide (ups_state new_state = PresenceState.ONLINE) then
          do! timer persist now user_id (ups_last_active_ts new_state + IDLE_TIMER) in
          let active := (now - ups_last_active_ts new_state <? LAST_ACTIVE_GRANULARITY)%Z in
          let new_state := with_currently_active active new_state in
          do! (if (active : bool)
               then timer persist now user_id
                      (ups_last_active_ts new_state + LAST_ACTIVE_GRANULARITY)
               else st_ret tt) in
          st_ret new_state
        else st_ret new_state in
      let! (new_state, federation_ping) :=
        if negb (bool_decide (ups_state new_state = PresenceState.OFFLINE)) then
          do! timer persist now user_id (ups_last_user_sync_ts new_state + SYNC_ONLINE_TIMEOUT) in
          if (FEDERATION_PING_INTERVAL <? now - ups_last_federation_update_ts new_state)%Z
          then st_ret (with_federation_update now new_state, true)
          else st_ret (new_state, false)
        else st_ret (new_state, false) in
      do! (if bool_decide (ups_state new_state = PresenceState.BUSY)
           then timer persist now user_id (ups_last_user_sync_ts new_state + BUSY_ONLINE_TIMEOUT)
           else st_ret tt) in
      st_ret (new_state, federation_ping)
    else
      do! timer persist now user_id
            (ups_last_federation_update_ts new_state + FEDERATION_TIMEOUT) in
      st_ret (new_state, false) in
  if should_notify prev_state new_state
  then st_ret (with_federation_update now new_state, true, federation_ping)
  else st_ret (new_state, false, federation_ping).

(** ** The presence writer *)

(** What is sent: states persisted and notified about, keep-alives, and the users
    marked in the table of those who get all presence with their next sync. *)
Inductive presence_action :=
  | NotifyStates (states : list UserPresenceState)
  | FederationPing (states : list UserPresenceState)
  | MarkFullPresence (user_ids : list string).

Record presence_config := mkConfig {
  hostname : string;
  _presence_enabled : bool;
  _track_presence : bool;
  msc3026_enabled : bool
}.

Record PresenceHandler := mkHandler {
  user_to_current_state : gmap string UserPresenceState;
  _user_to_device_to_current_state : gmap string device_map;
  wheel_timer : WheelTimer string;
  unpersisted_users_changes : gset string;
  _user_device_to_num_current_syncs : gmap (string * option string) Z;
  external_process_to_current_syncs : gmap string (gset (string * option string));
  external_process_last_updated_ms : gmap string Z;
  presence_stream : gmap string UserPresenceState;
  sent : list presence_action
}.

Definition set_current (f : gmap string UserPresenceState → gmap string UserPresenceState)
    (h : PresenceHandler) : PresenceHandler :=
  mkHandler (f (user_to_current_state h)) (_user_to_device_to_current_state h) (wheel_timer h)
    (unpersisted_users_changes h) (_user_device_to_num_current_syncs h)
    (external_process_to_current_syncs h) (external_process_last_updated_ms h)
    (presence_stream h) (sent h).
Definition set_devices (f : gmap string device_map → gmap string device_map)
    (h : PresenceHandler) : PresenceHandler :=
  mkHandler (user_to_current_state h) (f (_user_to_device_to_current_state h)) (wheel_timer h)
    (unpersisted_users_changes h) (_user_device_to_num_current_syncs h)
    (external_process_to_current_syncs h) (external_process_last_updated_ms h)
    (presence_stream h) (sent h).
Definition set_wheel (w : WheelTimer string) (h : PresenceHandler) : PresenceHandler :=
  mkHandler (user_to_current_state h) (_user_to_device_to_current_state h) w
    (unpersisted_users_changes h) (_user_device_to_num_current_syncs h)
    (external_process_to_current_syncs h) (external_process_last_updated_ms h)
    (presence_stream h) (sent h).
Definition set_unpersisted (f : gset string → gset string) (h : PresenceHandler) :
    PresenceHandler :=
  mkHandler (user_to_current_state h) (_user_to_device_to_current_state h) (wheel_timer h)
    (f (unpersisted_users_changes h)) (_user_device_to_num_current_syncs h)
    (external_process_to_current_syncs h) (external_process_last_updated_ms h)
    (presence_stream h) (sent h).
Definition set_num_syncs (f : gmap (string * option string) Z → gmap (string * option string) Z)
    (h : PresenceHandler) : PresenceHandler :=
  mkHandler (user_to_current_state h) (_user_to_device_to_current_state h) (wheel_timer h)
    (unpersisted_users_changes h) (f (_user_device_to_num_current_syncs h))
    (external_process_to_current_syncs h) (external_process_last_updated_ms h)
    (presence_stream h) (sent h).
Definition set_external (syncs : gmap string (gset (string * option string)))
    (updated : gmap string Z) (h : PresenceHandler) : PresenceHandler :=
  mkHandler (user_to_current_state h) (_user_to_device_to_current_state h) (wheel_timer h)
    (unpersisted_users_changes h) (_user_device_to_num_current_syncs h)
    syncs updated (presence_stream h) (sent h).
Definition set_stream (f : gmap string UserPresenceState → gmap string UserPresenceState)
    (h : PresenceHandler) : PresenceHandler :=
  mkHandler (user_to_current_state h) (_user_to_device_to_current_state h) (wheel_timer h)
    (unpersisted_users_changes h) (_user_device_to_num_current_syncs h)
    (external_process_to_current_syncs h) (external_process_last_updated_ms h)
    (f (presence_stream h)) (sent h).
Definition send (a : presence_action) (h : PresenceHandler) : PresenceHandler :=
  mkHandler (user_to_current_state h) (_user_to_device_to_current_state h) (wheel_timer h)
    (unpersisted_users_changes h) (_user_device_to_num_current_syncs h)
    (external_process_to_current_syncs h) (external_process_last_updated_ms h)
    (presence_stream h) (sent h ++ [a]).

(** Run code that mutates one of the objects of the handler. *)
Definition on_wheel {A} (m : ST (WheelTimer string) A) : ST PresenceHandler A :=
  λ h, let '(w, r) := m (wheel_timer h) in (set_wheel w h, r).
Definition on_devices {A} (m : ST (gmap string device_map) A) : ST PresenceHandler A :=
  λ h, let '(ds, r) := m (_user_to_device_to_current_state h) in (set_devices (λ _, ds) h, r).

(** A Python dict with string keys, in insertion order. *)
Fixpoint assoc_set {V} (k : string) (v : V) (d : list (string * V)) : list (string * V) :=
  match d with
  | [] => [(k, v)]
  | (k', v') :: d' => if String.eqb k k' then (k', v) :: d' else (k', v') :: assoc_set k v d'
  end.

(** [HomeServer.is_mine_id] *)
Definition is_mine_id (c : presence_config) (user_id : string) : bool :=
  match split_once ":"%char user_id with
  | Some (_, domain) => String.eqb domain (hostname c)
  | None => false
  end.

(** [VALID_PRESENCE] *)
Definition VALID_PRESENCE (c : presence_config) : list string :=
  [PresenceState.ONLINE; PresenceState.UNAVAILABLE; PresenceState.OFFLINE] ++
  (if msc3026_enabled c then [PresenceState.BUSY] else []).

(** [PresenceStore.update_presence], [get_presence_for_users] *)
Definition update_presence (presence_states : list UserPresenceState) : ST PresenceHandler unit :=
  st_modify (set_stream (λ t, foldl (λ t s, <[ups_user_id s:=s]> t) t presence_states)).

Definition get_presence_for_users (user_ids : list string)
    (t : gmap string UserPresenceState) : gmap string UserPresenceState :=
  filter (λ '(u, _), u ∈ user_ids) t.

(** ** Reading the current states *)

(** The loop over [missing]. *)
Definition fill_missing (res states : gmap string UserPresenceState) (missing : list string) :
    ST PresenceHandler (gmap string UserPresenceState) :=
  st_fold (λ states user_id,
    match res !! user_id with
    | Some _ => st_ret states
    | None =>
        do! st_modify (set_current (<[user_id:=state_default user_id]>)) in
        st_ret (<[user_id:=state_default user_id]> states)
    end) missing states.

Definition current_state_for_users (user_ids : list string) :
    ST PresenceHandler (gmap string UserPresenceState) :=
  let! cur := st_get user_to_current_state in
  let states : gmap string UserPresenceState := filter (λ '(u, _), u ∈ user_ids) cur in
  let missing := filter (λ u, cur !! u = None) user_ids in
  if missing is [] then st_ret states
  else
    let! t := st_get presence_stream in
    let res := get_presence_for_users missing t in
    fill_missing res (res ∪ states) missing.

Definition current_state_for_user (user_id : string) : ST PresenceHandler UserPresenceState :=
  let! res := current_state_for_users [user_id] in
  st_lift (of_option (res !! user_id) KeyError).

(** [BasePresenceHandler.get_states], [get_state] *)
Definition get_states (target_user_ids : list string) :
    ST PresenceHandler (list UserPresenceState) :=
  let! updates_d := current_state_for_users target_user_ids in
  let updates := (map_to_list updates_d).*2 in
  let known : gset string := list_to_set (ups_user_id <$> updates) in
  st_ret (updates ++ (state_default <$> elements ((list_to_set target_user_ids : gset string) ∖ known))).

Definition get_state (target_user : string) : ST PresenceHandler UserPresenceState :=
  let! results := get_states [target_user] in
  st_lift (of_option (head results) IndexError).

(** ** [_update_states] *)

(** The changes to notify about and the keep-alives, by user. *)
Definition pending_changes : Type :=
  list (string * UserPresenceState) * list (string * UserPresenceState).

(** One round of the loop over [new_states]. *)
Definition update_one (c : presence_config) (force_notify : bool) (now : Z)
    (acc : pending_changes) (new_state : UserPresenceState) : ST PresenceHandler pending_changes :=
  let user_id := ups_user_id new_state in
  let! cur := st_get user_to_current_state in
  let prev_state := default (state_default user_id) (cur !! user_id) in
  let! (new_state, notify, should_ping) :=
    on_wheel (handle_update prev_state new_state (is_mine_id c user_id) now
                (negb (_track_presence c))) in
  do! st_modify (set_current (<[user_id:=new_state]>)) in
  let '(to_notify, to_federation_ping) := acc in
  st_ret (if force_notify || notify then (assoc_set user_id new_state to_notify, to_federation_ping)
          else if (should_ping : bool)
          then (to_notify, assoc_set user_id new_state to_federation_ping)
          else acc).

(** [_persist_and_notify] *)
Definition _persist_and_notify (states : list UserPresenceState) : ST PresenceHandler unit :=
  do! update_presence states in
  st_modify (send (NotifyStates states)).

(** Only the last presence change of each user is handled. *)
Definition last_states (new_states : list UserPresenceState) : list UserPresenceState :=
  (foldl (λ d s, assoc_set (ups_user_id s) s d) [] new_states).*2.

Definition _update_states (c : presence_config) (new_states : list UserPresenceState)
    (force_notify : bool) (now : Z) : ST PresenceHandler unit :=
  if negb (_presence_enabled c) then st_ret tt
  else
    let new_states := last_states new_states in
    let! (to_notify, to_federation_ping) := st_fold (update_one c force_notify now) new_states ([], []) in
    do! (if to_notify is [] then st_ret tt else _persist_and_notify to_notify.*2) in
    do! st_modify (set_unpersisted (λ u,
          (u ∪ list_to_set (ups_user_id <$> new_states)) ∖ list_to_set to_notify.*1)) in
    let to_federation_ping := filter (λ p, p.1 ∉ to_notify.*1) to_federation_ping in
    if to_federation_ping is [] then st_ret tt
    else st_modify (send (FederationPing to_federation_ping.*2)).

(** ** Start-up *)
Definition startup_user (c : presence_config) (now : Z) (h : PresenceHandler)
    (state : UserPresenceState) : result PresenceHandler :=
  let user_id := ups_user_id state in
  let h := set_devices (<[user_id:={[None := mkDevice user_id None (ups_state state)
             (ups_last_active_ts state) (ups_last_user_sync_ts state)]}]>) h in
  w ← wheel_insert (wheel_timer h) now user_id (ups_last_active_ts state + IDLE_TIMER);
  w ← wheel_insert w now user_id (ups_last_user_sync_ts state + SYNC_ONLINE_TIMEOUT);
  w ← wheel_insert w now user_id
        (ups_last_federation_update_ts state +
         (if is_mine_id c user_id then FEDERATION_PING_INTERVAL else FEDERATION_TIMEOUT));
  Ok (set_wheel w h).

(** [PresenceHandler.__init__] on the table [t]: the rows that are not offline are
    loaded, as [_get_active_presence] selects them. *)
Definition init_handler (c : presence_config) (now : Z) (t : gmap string UserPresenceState) :
    result PresenceHandler :=
  let active_presence :=
    filter (λ s, ups_state s ≠ PresenceState.OFFLINE) (map_to_list t).*2 in
  let cur := foldl (λ m s, <[ups_user_id s:=s]> m) ∅ active_presence in
  let h := mkHandler cur ∅ (new_wheel BUCKET_SIZE) ∅ ∅ ∅ ∅ t [] in
  if _track_presence c then fold_res (startup_user c now) (map_to_list cur).*2 h else Ok h.

(** ** Persisting *)
Definition states_of (cur : gmap string UserPresenceState) (us : gset string) :
    result (list UserPresenceState) :=
  fold_res (λ l u, s ← of_option (cur !! u) KeyError; Ok (l ++ [s])) (elements us) [].

Definition _persist_unpersisted_changes : ST PresenceHandler unit :=
  let! unpersisted := st_get unpersisted_users_changes in
  do! st_modify (set_unpersisted (λ _, ∅)) in
  if decide (unpersisted = ∅) then st_ret tt
  else
    let! cur := st_get user_to_current_state in
    let! states := st_lift (states_of cur unpersisted) in
    update_presence states.

Definition _on_shutdown (db_running : bool) : ST PresenceHandler unit :=
  if negb db_running then st_ret tt
  else
    let! unpersisted := st_get unpersisted_users_changes in
    if decide (unpersisted = ∅) then st_ret tt
    else
      let! cur := st_get user_to_current_state in
      let! states := st_lift (states_of cur unpersisted) in
      update_presence states.

(** ** The timer loop *)

(** [expired_process_ids], as the set of them. *)
Definition expired_processes (now : Z) (updated : gmap string Z) : gset string :=
  dom (filter (λ '(_, last_update), (EXTERNAL_PROCESS_EXPIRY < now - last_update)%Z) updated).

(** The users and devices that are syncing, here or on another process. *)
Definition syncing_user_devices (h : PresenceHandler) : gset (string * option string) :=
  dom (filter (λ '(_, count), count ≠ 0%Z) (_user_device_to_num_current_syncs h)) ∪
  ⋃ (map_to_list (external_process_to_current_syncs h)).*2.

Definition _handle_timeouts (c : presence_config) (now now' : Z) : ST PresenceHandler unit :=
  let! due := on_wheel (λ w, let '(due, w') := wheel_fetch w now in (w', Ok due)) in
  let! (syncs, updated) := st_get (λ h,
    (external_process_to_current_syncs h, external_process_last_updated_ms h)) in
  let expired := expired_processes now updated in
  let orphans : gset (string * option string) :=
    ⋃ (map_to_list (filter (λ '(p, _), p ∈ expired) syncs)).*2 in
  let users_to_check : gset string := list_to_set due ∪ set_map fst orphans in
  do! st_modify (set_external (filter (λ '(p, _), p ∉ expired) syncs)
                   (filter (λ '(p, _), p ∉ expired) updated)) in
  let! cur := st_get user_to_current_state in
  let states := (λ u, default (state_default u) (cur !! u)) <$> elements users_to_check in
  let! syncing := st_get syncing_user_devices in
  let! changes := on_devices (handle_timeouts states (is_mine_id c) syncing now) in
  _update_states c changes false now'.

(** ** The handlers *)

(** [setdefault] of a device, then assignments to its attributes: the new dicts. *)
Definition update_device (user_id : string) (device_id : option string)
    (f : UserDevicePresenceState → UserDevicePresenceState) : ST PresenceHandler unit :=
  st_modify (set_devices (λ m,
    let devices := default ∅ (m !! user_id) in
    let device_state := default (device_default user_id device_id) (devices !! device_id) in
    <[user_id:=<[device_id:=f device_state]> devices]> m)).

(** [devices.values()] of a user *)
Definition user_devices (user_id : string) : ST PresenceHandler (list UserDevicePresenceState) :=
  st_get (λ h, device_values (default ∅ (_user_to_device_to_current_state h !! user_id))).

Definition bump_presence_active_time (c : presence_config) (now now' : Z) (user_id : string)
    (device_id : option string) : ST PresenceHandler unit :=
  if negb (_track_presence c) then st_ret tt
  else
    do! update_device user_id device_id (λ d,
          let d := dev_set_last_active now d in
          if bool_decide (dev_state d = PresenceState.UNAVAILABLE)
          then dev_set_state PresenceState.ONLINE d else d) in
    let! prev_state := current_state_for_user user_id in
    let! devices := user_devices user_id in
    let! presence := st_lift (_combine_device_states devices) in
    _update_states c [with_state presence (with_last_active now prev_state)] false now'.

Definition set_state (c : presence_config) (now now' : Z) (user_id : string)
    (device_id : option string) (presence : string) (status_msg : option string)
    (force_notify is_sync : bool) : ST PresenceHandler unit :=
  do! st_lift (raise_if (negb (bool_decide (presence ∈ VALID_PRESENCE c)))
                 (SynapseError 400 "Invalid presence state" UNKNOWN)) in
  if negb (_track_presence c) then st_ret tt
  else
    let! prev_state := current_state_for_user user_id in
    let presence :=
      if bool_decide (ups_state prev_state = PresenceState.BUSY) && is_sync
      then PresenceState.BUSY else presence in
    do! update_device user_id device_id (λ d,
          let d := dev_set_last_active now (dev_set_state presence d) in
          if is_sync then dev_set_last_sync now d else d) in
    let! devices := user_devices user_id in
    let! presence := st_lift (_combine_device_states devices) in
    let new_state := with_state presence prev_state in
    let new_state :=
      if bool_decide (presence = PresenceState.ONLINE) || bool_decide (presence = PresenceState.BUSY)
      then with_last_active now new_state else new_state in
    let new_state :=
      if is_sync then with_user_sync now new_state else with_status_msg status_msg new_state in
    _update_states c [new_state] force_notify now'.

(** [send_full_presence_to_users]: the dict given to [set_state] has the status
    message under the key [status_message], where [set_state] does not look. *)
Definition send_full_presence_to_users (c : presence_config) (now now' : Z)
    (user_ids : list string) : ST PresenceHandler unit :=
  match user_ids with
  | [] => st_lift (Raise (PyException
            "send_full_presence_to_users must be called with at least one user"))
  | user_id :: _ =>
      do! st_modify (send (MarkFullPresence user_ids)) in
      let! u := st_lift (from_string SIGIL.UserID user_id) in
      let! current_presence_state := get_state (to_string SIGIL.UserID u) in
      set_state c now now' (to_string SIGIL.UserID u) None (ups_state current_presence_state)
        None true false
  end.

(** [user_syncing] up to the context manager it returns: whether that is the one
    that calls [_end]. *)
Definition user_syncing (c : presence_config) (now now' : Z) (user_id : string)
    (device_id : option string) (affect_presence : bool) (presence_state : string) :
    ST PresenceHandler bool :=
  if negb affect_presence || negb (_track_presence c) then st_ret false
  else
    do! st_modify (set_num_syncs (λ m,
          <[(user_id, device_id):=(default 0 (m !! (user_id, device_id)) + 1)%Z]> m)) in
    let! u := st_lift (from_string SIGIL.UserID user_id) in
    do! set_state c now now' (to_string SIGIL.UserID u) device_id presence_state None false true in
    st_ret true.

(** [_end], when the sync is over; its exceptions are logged. *)
Definition user_sync_end (c : presence_config) (now now' : Z) (user_id : string)
    (device_id : option string) : ST PresenceHandler unit :=
  λ h,
  let '(h', _) :=
    (let! n := st_get (λ h, _user_device_to_num_current_syncs h !! (user_id, device_id)) in
     let! n := st_lift (of_option n KeyError) in
     do! st_modify (set_num_syncs (<[(user_id, device_id):=(n - 1)%Z]>)) in
     let! prev_state := current_state_for_user user_id in
     _update_states c [with_user_sync now prev_state] false now') h in
  (h', Ok tt).

(** [update_external_syncs_row]: [now''] is the clock at the end. *)
Definition update_external_syncs_row (c : presence_config) (now' now'' : Z) (process_id : string)
    (user_id : string) (device_id : option string) (is_syncing : bool) (sync_time_msec : Z) :
    ST PresenceHandler unit :=
  let! prev_state := current_state_for_user user_id in
  let! (syncs, updated) := st_get (λ h,
    (external_process_to_current_syncs h, external_process_last_updated_ms h)) in
  let process_presence := default ∅ (syncs !! process_id) in
  do! st_modify (set_external (<[process_id:=process_presence]> syncs) updated) in
  do! (if bool_decide ((user_id, device_id) ∈ process_presence) then
         if is_syncing then st_ret tt
         else
           do! update_device user_id device_id (dev_set_last_sync sync_time_msec) in
           do! _update_states c [with_user_sync sync_time_msec prev_state] false now' in
           st_modify (set_external
             (<[process_id:=process_presence ∖ {[(user_id, device_id)]}]> syncs) updated)
       else
         if is_syncing then
           st_modify (set_external
             (<[process_id:=process_presence ∪ {[(user_id, device_id)]}]> syncs) updated)
         else st_ret tt) in
  st_modify (λ h, set_external (external_process_to_current_syncs h)
    (<[process_id:=now'']> (external_process_last_updated_ms h)) h).

Definition update_external_syncs_clear (c : presence_config) (now now' : Z)
    (process_id : string) : ST PresenceHandler unit :=
  let! syncs := st_get external_process_to_current_syncs in
  let process_presence := default ∅ (syncs !! process_id) in
  do! st_modify (λ h, set_external (delete process_id syncs)
                        (external_process_last_updated_ms h) h) in
  do! st_fold (λ _ p, update_device p.1 p.2 (dev_set_last_sync now)) (elements process_presence) tt in
  let updated_users : gset string := set_map fst process_presence in
  let! prev_states := current_state_for_users (elements updated_users) in
  do! _update_states c (with_user_sync now <$> (map_to_list prev_states).*2) false now' in
  st_modify (λ h, set_external (external_process_to_current_syncs h)
    (delete process_id (external_process_last_updated_ms h)) h).

(** One round of the loop of [incoming_presence] over the pushes. *)
Definition incoming_push (now : Z) (origin : string) (updates : list UserPresenceState)
    (push : presence_content) : ST PresenceHandler (list UserPresenceState) :=
  match pc_user_id push with
  | None | Some "" => st_ret updates
  | Some user_id =>
      let! domain := st_lift (get_domain_from_id user_id) in
      if negb (String.eqb domain origin) then st_ret updates
      else
        match pc_presence push with
        | None | Some "" => st_ret updates
        | Some presence_state =>
            let! prev_state := current_state_for_user user_id in
            let s := with_federation_update now (with_state presence_state prev_state) in
            let s := match pc_last_active_ago push with
                     | Some last_active_ago => with_last_active (now - last_active_ago) s
                     | None => s
                     end in
            let s := with_status_msg (pc_status_msg push) s in
            let s := with_currently_active (default false (pc_currently_active push)) s in
            st_ret (updates ++ [s])
        end
  end.

Definition incoming_presence (c : presence_config) (now now' : Z) (origin : string)
    (push : list presence_content) : ST PresenceHandler unit :=
  if negb (_track_presence c) then st_ret tt
  else
    let! updates := st_fold (incoming_push now origin) push [] in
    if updates is [] then st_ret tt else _update_states c updates false now'.
