(* ===== verification/PresenceProps.v ===== *)
(** The pure parts of presence: the combination of a user's devices, what a
    timeout does to devices and users, and the timers an update sets. *)
From S2P Require Import Prelude Identifiers WheelTimer WheelTimerProps Presence.

(** ** Combining devices *)
Definition valid_state (s : string) : Prop :=
  s ∈ [PresenceState.BUSY; PresenceState.ONLINE; PresenceState.UNAVAILABLE; PresenceState.OFFLINE].

#[export] Instance valid_state_dec s : Decision (valid_state s).
Proof. apply _. Defined.

Definition prio (s : string) : Z :=
  match PRESENCE_BY_PRIORITY s with Ok p => p | Raise _ => 0 end.

Lemma priority_valid s :
  PRESENCE_BY_PRIORITY s = if decide (valid_state s) then Ok (prio s) else Raise KeyError.
Proof.
  unfold prio, PRESENCE_BY_PRIORITY.
  repeat case_decide; subst; try done; exfalso; unfold valid_state in *; set_solver.
Qed.

Lemma valid_state_cases s :
  valid_state s ↔ s = PresenceState.BUSY ∨ s = PresenceState.ONLINE ∨
    s = PresenceState.UNAVAILABLE ∨ s = PresenceState.OFFLINE.
Proof. unfold valid_state. set_solver. Qed.

Lemma prio_inj s t : valid_state s → valid_state t → prio s = prio t → s = t.
Proof.
  rewrite !valid_state_cases. intros [->|[->|[->| ->]]] [->|[->|[->| ->]]] Hp; done.
Qed.

Lemma prio_offline s : valid_state s → (prio PresenceState.OFFLINE ≤ prio s)%Z.
Proof. rewrite valid_state_cases. by intros [->|[->|[->| ->]]]. Qed.

(** [s] is the state of highest priority among those of the devices [ds], offline
    when there are none. *)
Definition top_state (ds : list UserDevicePresenceState) (s : string) : Prop :=
  valid_state s ∧
  (s = PresenceState.OFFLINE ∨ ∃ d, d ∈ ds ∧ dev_state d = s) ∧
  ∀ d, d ∈ ds → valid_state (dev_state d) ∧ (prio (dev_state d) ≤ prio s)%Z.

Lemma combine_step_valid p t d :
  valid_state p → valid_state (dev_state d) →
  ∃ q u, combine_step (p, t) d = Ok (q, u) ∧ valid_state q ∧ (prio p ≤ prio q)%Z ∧
    (prio (dev_state d) ≤ prio q)%Z ∧ (q = p ∨ dev_state d = q).
Proof.
  intros Hp Hd. unfold combine_step. simpl.
  rewrite !priority_valid, !decide_True by done. simpl. unfold pair_gt. simpl.
  destruct (Z.ltb_spec (prio p) (prio (dev_state d))); simpl; [|destruct (_ && _) eqn:Ht];
    eexists _, _; (split; [done|]).
  - split_and!; [done|lia|lia|by right].
  - apply andb_true_iff in Ht as [Ht%Z.eqb_eq _]. split_and!; [done|lia|lia|by right].
  - split_and!; [done|lia|lia|by left].
Qed.

Lemma combine_step_invalid p t d :
  ¬ valid_state (dev_state d) → combine_step (p, t) d = Raise KeyError.
Proof. intros Hd. unfold combine_step. rewrite (priority_valid (dev_state d)). by case_decide. Qed.

Lemma combine_fold ds p t :
  valid_state p →
  if decide (Forall (λ d, valid_state (dev_state d)) ds) then
    ∃ p' t', fold_res combine_step ds (p, t) = Ok (p', t') ∧ valid_state p' ∧
      (prio p ≤ prio p')%Z ∧ (p' = p ∨ ∃ d, d ∈ ds ∧ dev_state d = p') ∧
      ∀ d, d ∈ ds → (prio (dev_state d) ≤ prio p')%Z
  else fold_res combine_step ds (p, t) = Raise KeyError.
Proof.
  revert p t. induction ds as [|d ds IH]; intros p t Hp; cbn [fold_res].
  { rewrite decide_True by done. exists p, t. split_and!; [done|done|lia|by left|set_solver]. }
  destruct (decide (valid_state (dev_state d))) as [Hd|Hd]; last first.
  { rewrite combine_step_invalid by done. rewrite decide_False; [done|].
    by intros [? _]%Forall_cons. }
  destruct (combine_step_valid p t d Hp Hd) as (q & u & -> & Hq & H1 & H2 & H3).
  cbn [mbind result_bind]. specialize (IH q u Hq).
  destruct (decide (Forall _ (d :: ds))) as [Hv|Hv].
  - apply Forall_cons in Hv as [_ Hv]. rewrite decide_True in IH by done.
    destruct IH as (p' & t' & Hf & ? & ? & Hin & Hall). exists p', t'.
    split_and!; [done|done|lia| |].
    + destruct Hin as [->|(d' & ? & ?)]; [|set_solver]. destruct H3 as [->|H3]; [by left|].
      right. exists d. set_solver.
    + intros d' [->|?]%elem_of_cons; [lia|auto].
  - rewrite decide_False in IH; [done|]. intros Hv'. by apply Hv, Forall_cons.
Qed.

Lemma top_state_unique ds s t : top_state ds s → top_state ds t → s = t.
Proof.
  intros (Hs & Hs' & Hsd) (Ht & Ht' & Htd). apply prio_inj; [done|done|].
  pose proof (prio_offline s Hs). pose proof (prio_offline t Ht).
  destruct Hs' as [->|(d & Hd & <-)], Ht' as [->|(d' & Hd' & <-)].
  - lia.
  - pose proof (proj2 (Hsd d' Hd')). lia.
  - pose proof (proj2 (Htd d Hd)). lia.
  - pose proof (proj2 (Hsd d' Hd')). pose proof (proj2 (Htd d Hd)). lia.
Qed.

Lemma combine_ok ds :
  Forall (λ d, valid_state (dev_state d)) ds →
  ∃ s, _combine_device_states ds = Ok s ∧ top_state ds s.
Proof.
  intros Hv. assert (valid_state PresenceState.OFFLINE) as Ho by (unfold valid_state; set_solver).
  pose proof (combine_fold ds PresenceState.OFFLINE (-1)%Z Ho) as Hf.
  rewrite decide_True in Hf by done. destruct Hf as (p & t & Hf & ? & ? & ? & ?).
  exists p. unfold _combine_device_states. rewrite Hf. split; [done|].
  split; [done|]. split; [done|]. intros d Hd. rewrite Forall_forall in Hv. auto.
Qed.

Lemma combine_iff ds s : _combine_device_states ds = Ok s ↔ top_state ds s.
Proof.
  split.
  - intros Hc. destruct (decide (Forall (λ d, valid_state (dev_state d)) ds)) as [Hv|Hv].
    + destruct (combine_ok ds Hv) as (s' & Hs' & Ht). by replace s with s' by congruence.
    + assert (valid_state PresenceState.OFFLINE) as Ho by (unfold valid_state; set_solver).
      pose proof (combine_fold ds PresenceState.OFFLINE (-1)%Z Ho) as Hf.
      rewrite decide_False in Hf by done. unfold _combine_device_states in Hc.
      by rewrite Hf in Hc.
  - intros Ht. destruct (combine_ok ds) as (s' & Hs' & Ht').
    { rewrite Forall_forall. intros d Hd. by apply Ht. }
    by rewrite Hs', (top_state_unique _ _ _ Ht Ht').
Qed.

Lemma combine_error ds e :
  _combine_device_states ds = Raise e ↔
    e = KeyError ∧ ∃ d, d ∈ ds ∧ ¬ valid_state (dev_state d).
Proof.
  assert (valid_state PresenceState.OFFLINE) as Ho by (unfold valid_state; set_solver).
  pose proof (combine_fold ds PresenceState.OFFLINE (-1)%Z Ho) as Hf.
  unfold _combine_device_states. case_decide as Hv.
  - destruct Hf as (p & t & -> & _). split; [done|]. intros (_ & d & Hd & Hn).
    rewrite Forall_forall in Hv. by destruct Hn; apply Hv.
  - rewrite Hf. simpl. split; [|by intros [-> _]]. intros [= <-]. split; [done|].
    apply not_Forall_Exists, Exists_exists in Hv; [naive_solver|apply _].
Qed.

(** [_combine_device_states] shows the state of highest priority (busy, then
    online, then unavailable, then offline) among the devices, and offline when
    there are none.  The result depends on the states of the devices only: the
    time a device was last active, by which the code breaks ties, and the order
    of the devices never change it.  The only error is a device whose state has
    no priority. *)
Theorem combine_device_states_correct ds :
  (∀ s, _combine_device_states ds = Ok s ↔ top_state ds s) ∧
  (∀ e, _combine_device_states ds = Raise e ↔
    e = KeyError ∧ ∃ d, d ∈ ds ∧ ¬ valid_state (dev_state d)) ∧
  (∀ ds', (∀ s, s ∈ dev_state <$> ds' ↔ s ∈ dev_state <$> ds) →
    _combine_device_states ds' = _combine_device_states ds).
Proof.
  split; [apply combine_iff|]. split; [apply combine_error|]. intros ds' Hds.
  assert (∀ s d, d ∈ ds → dev_state d = s → ∃ d', d' ∈ ds' ∧ dev_state d' = s) as H1.
  { intros s d Hd <-. pose proof (proj2 (Hds (dev_state d)) (list_elem_of_fmap_2 _ _ _ Hd)) as
      (d' & ? & ?)%list_elem_of_fmap. eauto. }
  assert (∀ s d, d ∈ ds' → dev_state d = s → ∃ d', d' ∈ ds ∧ dev_state d' = s) as H2.
  { intros s d Hd <-. pose proof (proj1 (Hds (dev_state d)) (list_elem_of_fmap_2 _ _ _ Hd)) as
      (d' & ? & ?)%list_elem_of_fmap. eauto. }
  destruct (_combine_device_states ds) as [s|e] eqn:Hc.
  - apply combine_iff in Hc as (Hv & Hs & Hall). apply combine_iff. split; [done|]. split.
    + destruct Hs as [|(d & Hd & Hs)]; [by left|right; eauto].
    + intros d Hd. destruct (H2 _ d Hd eq_refl) as (d' & Hd' & <-). by apply Hall.
  - apply combine_error in Hc as (-> & d & Hd & Hn). apply combine_error. split; [done|].
    destruct (H1 _ d Hd eq_refl) as (d' & Hd' & He). exists d'. by rewrite He.
Qed.

(** ** What a timeout does to the devices *)
Section devices.
Context (u : string) (syncing : gset (string * option string)) (now : Z).

Lemma timeout_device_spec id d d' off chg :
  timeout_device u syncing now id d = (d', off, chg) →
  (d' = d ∨ (dev_state d = PresenceState.ONLINE ∧ (IDLE_TIMER < now - dev_last_active_ts d)%Z ∧
             d' = dev_set_state PresenceState.UNAVAILABLE d)) ∧
  (chg = false → d' = d ∧ off = false) ∧
  ((IDLE_TIMER < now - dev_last_active_ts d)%Z → dev_state d' ≠ PresenceState.ONLINE) ∧
  (off = true ↔ (u, id) ∉ syncing ∧
    ((if decide (dev_state d = PresenceState.BUSY) then BUSY_ONLINE_TIMEOUT else SYNC_ONLINE_TIMEOUT)
     < now - Z.max (dev_last_sync_ts d) (dev_last_active_ts d))%Z).
Proof.
  unfold timeout_device. intros [= <- <- <-].
  destruct (bool_decide_reflect (dev_state d = PresenceState.ONLINE)) as [Ho|Ho]; simpl;
    [destruct (Z.ltb_spec IDLE_TIMER (now - dev_last_active_ts d)); simpl|];
    rewrite ?Ho; case_decide; repeat case_bool_decide; simpl; rewrite ?Z.ltb_lt;
    repeat case_decide; split_and!; auto; naive_solver lia.
Qed.

Lemma timeout_devices_lookup ds id d' :
  timeout_devices u syncing now ds !! id = Some d' ↔
  ∃ d chg, ds !! id = Some d ∧ timeout_device u syncing now id d = (d', false, chg).
Proof.
  unfold timeout_devices. rewrite map_lookup_imap.
  destruct (ds !! id) as [d|]; cbn [mbind option_bind]; [|by split; [|intros (? & ? & ? & ?)]].
  destruct (timeout_device u syncing now id d) as [[d1 off] chg] eqn:Ht. split.
  - destruct off; intros ?; simplify_eq; eauto.
  - intros (d0 & chg' & [= <-] & Ht'). rewrite Ht in Ht'. by simplify_eq.
Qed.

Lemma device_changed_false ds :
  device_changed u syncing now ds = false → timeout_devices u syncing now ds = ds.
Proof.
  intros Hc. apply map_eq. intros id. unfold timeout_devices. rewrite map_lookup_imap.
  destruct (ds !! id) as [d|] eqn:Hd; [|done]. cbn [mbind option_bind].
  destruct (timeout_device u syncing now id d) as [[d' off] chg] eqn:Ht.
  assert (chg = false) as ->.
  { destruct chg; [|done]. rewrite <- Hc. symmetry. unfold device_changed.
    apply existsb_exists. exists (id, d). rewrite Ht. split; [|done].
    by apply list_elem_of_In, elem_of_map_to_list. }
  by destruct (timeout_device_spec _ _ _ _ _ Ht) as (_ & [-> ->] & _).
Qed.

End devices.

(** A property of all devices of a user. *)
Definition all_devices (P : UserDevicePresenceState → Prop) (ds : device_map) : Prop :=
  ∀ id d, ds !! id = Some d → P d.

Definition valid_devices : device_map → Prop := all_devices (λ d, valid_state (dev_state d)).

Lemma elem_of_device_values ds d : d ∈ device_values ds ↔ ∃ id, ds !! id = Some d.
Proof.
  unfold device_values. rewrite list_elem_of_fmap. split.
  - intros ([id d'] & -> & Hd%elem_of_map_to_list). eauto.
  - intros [id Hd]. exists (id, d). split; [done|]. by apply elem_of_map_to_list.
Qed.

Lemma valid_devices_Forall ds :
  valid_devices ds ↔ Forall (λ d, valid_state (dev_state d)) (device_values ds).
Proof.
  rewrite Forall_forall. setoid_rewrite elem_of_device_values.
  unfold valid_devices, all_devices. naive_solver.
Qed.

Lemma timeout_devices_all (P : UserDevicePresenceState → Prop) u syncing now ds :
  (∀ d, P d → P (dev_set_state PresenceState.UNAVAILABLE d)) →
  all_devices P ds → all_devices P (timeout_devices u syncing now ds).
Proof.
  intros HP Hall id d' (d & chg & Hd & Ht)%timeout_devices_lookup. specialize (Hall _ _ Hd).
  destruct (timeout_device_spec _ _ _ _ _ _ _ _ Ht) as ([->|(_ & _ & ->)] & _); auto.
Qed.

Lemma timeout_valid u syncing now ds :
  valid_devices ds → valid_devices (timeout_devices u syncing now ds).
Proof. apply timeout_devices_all. intros d _. unfold valid_state. simpl. set_solver. Qed.

(** The state shown for a user never rises by a timeout. *)
Lemma timeout_top u syncing now ds s s' :
  top_state (device_values ds) s →
  top_state (device_values (timeout_devices u syncing now ds)) s' → (prio s' ≤ prio s)%Z.
Proof.
  intros (Hv & _ & Hall) (_ & [->|(d' & Hd' & <-)] & _); [by apply prio_offline|].
  apply elem_of_device_values in Hd' as [id (d & chg & Hd & Ht)%timeout_devices_lookup].
  destruct (Hall d) as [_ Hle]; [apply elem_of_device_values; eauto|].
  destruct (timeout_device_spec _ _ _ _ _ _ _ _ Ht) as ([->|(Ho & _ & ->)] & _); [done|].
  rewrite Ho in Hle. etrans; [|exact Hle]. done.
Qed.

(** ** [handle_timeout] of a local user *)
Lemma with_state_id s : with_state (ups_state s) s = s.
Proof. by destruct s. Qed.

(** Something has to be sent or stored at [now], besides a change of the state. *)
Definition refresh_due (now : Z) (s : UserPresenceState) : Prop :=
  (LAST_ACTIVE_GRANULARITY < now - ups_last_active_ts s)%Z ∨
  (FEDERATION_PING_INTERVAL < now - ups_last_federation_update_ts s)%Z.
#[export] Instance refresh_due_dec now s : Decision (refresh_due now s).
Proof. apply _. Defined.

Lemma refresh_if {A} now s (x y : A) :
  (if (LAST_ACTIVE_GRANULARITY <? now - ups_last_active_ts s)%Z ||
      (FEDERATION_PING_INTERVAL <? now - ups_last_federation_update_ts s)%Z then x else y) =
  if decide (refresh_due now s) then x else y.
Proof.
  case_decide as Hr; unfold refresh_due in Hr;
    destruct (Z.ltb_spec LAST_ACTIVE_GRANULARITY (now - ups_last_active_ts s)),
      (Z.ltb_spec FEDERATION_PING_INTERVAL (now - ups_last_federation_update_ts s)); simpl;
    (done || lia).
Qed.

Lemma handle_timeout_local st syncing now ds :
  ups_state st ≠ PresenceState.OFFLINE → top_state (device_values ds) (ups_state st) →
  ∃ s', handle_timeout st true syncing now ds =
      (timeout_devices (ups_user_id st) syncing now ds,
       Ok (if decide (s' ≠ ups_state st ∨ refresh_due now st)
           then Some (with_state s' st) else None)) ∧
    top_state (device_values (timeout_devices (ups_user_id st) syncing now ds)) s' ∧
    (prio s' ≤ prio (ups_state st))%Z.
Proof.
  intros Hoff Htop.
  set (ds' := timeout_devices (ups_user_id st) syncing now ds).
  destruct (combine_ok (device_values ds')) as (s' & Hc & Htop').
  { apply valid_devices_Forall, timeout_valid, valid_devices_Forall.
    apply Forall_forall. intros d Hd. by apply Htop. }
  exists s'. split; [|eauto using timeout_top]. unfold handle_timeout.
  rewrite bool_decide_false by done.
  unfold st_bind, st_get, st_modify, st_lift, st_ret. fold ds'.
  destruct (device_changed (ups_user_id st) syncing now ds) eqn:Hch.
  - rewrite Hc. case_bool_decide as Heq; simpl.
    + subst s'. rewrite with_state_id, refresh_if. do 2 f_equal.
      repeat case_decide; naive_solver.
    + by rewrite decide_True by auto.
  - assert (s' = ups_state st) as ->.
    { eapply top_state_unique; [exact Htop'|]. unfold ds'. by rewrite device_changed_false. }
    simpl. rewrite with_state_id, refresh_if. do 2 f_equal. repeat case_decide; naive_solver.
Qed.

(** A remote user that has not been heard of for the timeout goes offline. *)
Lemma handle_timeout_remote st syncing now ds :
  ups_state st ≠ PresenceState.OFFLINE →
  handle_timeout st false syncing now ds =
    (ds, Ok (if decide (FEDERATION_TIMEOUT < now - ups_last_federation_update_ts st)%Z
             then Some (with_state PresenceState.OFFLINE st) else None)).
Proof.
  intros Hoff. unfold handle_timeout. rewrite bool_decide_false by done. unfold st_ret.
  destruct (Z.ltb_spec FEDERATION_TIMEOUT (now - ups_last_federation_update_ts st));
    case_decide; (done || lia).
Qed.

Lemma handle_timeout_offline st m syncing now ds :
  ups_state st = PresenceState.OFFLINE → handle_timeout st m syncing now ds = (ds, Ok None).
Proof. intros Hoff. unfold handle_timeout. by rewrite bool_decide_true. Qed.

(** ** Timers *)
Definition key (t : Z) : Z := Z.quot t BUCKET_SIZE.

Lemma key_mono a b : (a ≤ b)%Z → (key a ≤ key b)%Z.
Proof. intros. by apply Z.quot_le_mono. Qed.

Lemma key_soon a b : (0 ≤ a)%Z → (a + BUCKET_SIZE ≤ b)%Z → (key a + 1 ≤ key b)%Z.
Proof. apply (bucket_key_soon (T:=string) (new_wheel BUCKET_SIZE)). done. Qed.

Lemma key_late a b : (0 ≤ b)%Z → (key a + 1 ≤ key b)%Z → (a < b)%Z.
Proof. apply (bucket_key_late (T:=string) (new_wheel BUCKET_SIZE)). done. Qed.

(** A wheel in use at the time [t]. *)
Record wheel_at (t : Z) (w : WheelTimer string) : Prop := {
  wa_ok : wheel_ok w;
  wa_size : bucket_size w = BUCKET_SIZE;
  wa_first : entries w ≠ [] → (first_key (entries w) ≤ key t + 1)%Z
}.

(** From [w] to [w'] timers of [u] for the times [ths] were set, at the time [t]. *)
Record timers_set (t : Z) (u : string) (ths : list Z) (w w' : WheelTimer string) : Prop := {
  ts_wheel : wheel_at t w';
  ts_kept x k : pending w x k → pending w' x k;
  ts_only x k : pending w' x k → pending w x k ∨ x = u;
  ts_set th : th ∈ ths → ∃ k, pending w' u k ∧ (key th + 1 ≤ k ≤ Z.max (key th) (key t) + 1)%Z
}.

Lemma wheel_at_mono t t' w : wheel_at t w → (t ≤ t')%Z → wheel_at t' w.
Proof. intros [? ? Hf] Hle%key_mono. split; [done..|]. intros Hne. specialize (Hf Hne). lia. Qed.

Lemma timers_set_nil t u w : wheel_at t w → timers_set t u [] w w.
Proof. split; [done|auto|auto|set_solver]. Qed.

Lemma timers_set_app t u ths ths' w w1 w2 :
  timers_set t u ths w w1 → timers_set t u ths' w1 w2 → timers_set t u (ths ++ ths') w w2.
Proof.
  intros [? K1 O1 S1] [? K2 O2 S2]. split; [done|auto| |].
  - intros x k [Hp|?]%O2; auto.
  - intros th [Hth|Hth]%elem_of_app; [destruct (S1 _ Hth) as (k & ? & ?)|]; eauto.
Qed.

Lemma timer_spec t u th w :
  wheel_at t w → ∃ w', timer false t u th w = (w', Ok tt) ∧ timers_set t u [th] w w'.
Proof.
  intros [Hok Hsz Hf]. unfold timer.
  destruct (wheel_insert_spec w t u th Hok) as (w' & -> & Hok' & Hb & Hfk & Hp).
  exists w'. split; [done|].
  assert (∀ x, bucket_key w x = key x) as Hk by (intros; unfold bucket_key; by rewrite Hsz).
  assert (match entries w with [] => bucket_key w t + 1 | e :: _ => end_key e end ≤ key t + 1)%Z as Hle.
  { rewrite Hk. destruct (entries w); [lia|by apply Hf]. }
  split.
  - split; [done|by rewrite Hb|]. intros _. rewrite Hfk. done.
  - intros x k ?. apply Hp. auto.
  - intros x k [?|[-> _]]%Hp; auto.
  - intros th' ->%list_elem_of_singleton. exists (slot_of w t th). rewrite Hp. split; [auto|].
    unfold slot_of. rewrite (Hk th). lia.
Qed.

(** The timers [handle_update] sets. *)
Definition update_timers (is_mine : bool) (now : Z) (s : UserPresenceState) : list Z :=
  if is_mine then
    (if bool_decide (ups_state s = PresenceState.ONLINE) then
       [(ups_last_active_ts s + IDLE_TIMER)%Z] ++
       (if (now - ups_last_active_ts s <? LAST_ACTIVE_GRANULARITY)%Z
        then [(ups_last_active_ts s + LAST_ACTIVE_GRANULARITY)%Z] else [])
     else []) ++
    (if bool_decide (ups_state s = PresenceState.OFFLINE) then []
     else [(ups_last_user_sync_ts s + SYNC_ONLINE_TIMEOUT)%Z]) ++
    (if bool_decide (ups_state s = PresenceState.BUSY)
     then [(ups_last_user_sync_ts s + BUSY_ONLINE_TIMEOUT)%Z] else [])
  else [(ups_last_federation_update_ts s + FEDERATION_TIMEOUT)%Z].

(** The state it computes before it decides about notifications. *)
Definition refreshed (is_mine : bool) (now : Z) (s : UserPresenceState) : UserPresenceState :=
  if is_mine then
    let s := if bool_decide (ups_state s = PresenceState.ONLINE)
             then with_currently_active (now - ups_last_active_ts s <? LAST_ACTIVE_GRANULARITY)%Z s
             else s in
    if negb (bool_decide (ups_state s = PresenceState.OFFLINE)) &&
       (FEDERATION_PING_INTERVAL <? now - ups_last_federation_update_ts s)%Z
    then with_federation_update now s else s
  else s.

Definition ping_due (is_mine : bool) (now : Z) (s : UserPresenceState) : bool :=
  is_mine && negb (bool_decide (ups_state s = PresenceState.OFFLINE)) &&
  (FEDERATION_PING_INTERVAL <? now - ups_last_federation_update_ts s)%Z.

(** What [handle_update] returns. *)
Definition update_result (prev new : UserPresenceState) (is_mine : bool) (now : Z) :
    UserPresenceState * bool * bool :=
  let s := refreshed is_mine now new in
  if should_notify prev s
  then (with_federation_update now s, true, ping_due is_mine now new)
  else (s, false, ping_due is_mine now new).

(** The timers of the wheel, one call after the other. *)
Lemma timers_set_snoc t u ths th w w1 :
  timers_set t u ths w w1 →
  ∃ w2, timer false t u th w1 = (w2, Ok tt) ∧ timers_set t u (ths ++ [th]) w w2.
Proof.
  intros Hs. destruct (timer_spec t u th w1 (ts_wheel _ _ _ _ _ Hs)) as (w2 & ? & ?).
  eauto using timers_set_app.
Qed.

#[local] Arguments timer : simpl never.

Ltac run_timer Hs :=
  let w := fresh "w" in let Ht := fresh "Ht" in let Hs' := fresh "Hs" in
  cbv beta zeta;
  lazymatch goal with
  | |- context [timer false ?t ?u ?th ?w0] =>
      destruct (timers_set_snoc _ _ _ th _ _ Hs) as (w & Ht & Hs');
      rewrite Ht; clear Ht Hs; rename Hs' into Hs
  end.

Lemma handle_update_spec prev new is_mine now w :
  wheel_at now w →
  ∃ w', handle_update prev new is_mine now false w =
      (w', Ok (update_result prev new is_mine now)) ∧
    timers_set now (ups_user_id new) (update_timers is_mine now new) w w'.
Proof.
  intros Hw. pose proof (timers_set_nil now (ups_user_id new) w Hw) as Hs.
  unfold handle_update, update_result, refreshed, update_timers, ping_due, st_bind, st_ret.
  destruct is_mine; [|run_timer Hs; eexists; split; [|exact Hs]; by destruct (should_notify _ _)].
  destruct (bool_decide_reflect (ups_state new = PresenceState.ONLINE)) as [Ho|Ho].
  - run_timer Hs. simpl. rewrite Ho. simpl.
    destruct (_ <? LAST_ACTIVE_GRANULARITY)%Z; [run_timer Hs|]; simpl; rewrite Ho; simpl;
      run_timer Hs; simpl; destruct (FEDERATION_PING_INTERVAL <? _)%Z; simpl; rewrite ?Ho; simpl;
      eexists; (split; [|exact Hs]); by destruct (should_notify _ _).
  - destruct (bool_decide_reflect (ups_state new = PresenceState.OFFLINE)) as [Hf|Hf]; simpl.
    + rewrite Hf. simpl. eexists; (split; [|exact Hs]); by destruct (should_notify _ _).
    + run_timer Hs. destruct (FEDERATION_PING_INTERVAL <? _)%Z; simpl;
      destruct (bool_decide_reflect (ups_state new = PresenceState.BUSY)) as [Hb|Hb]; simpl;
      try run_timer Hs; eexists; (split; [|exact Hs]); by destruct (should_notify _ _).
Qed.
