(* ===== verification/PresenceSystem.v ===== *)
(** The presence writer as a system: every handler is a step, at times read from
    a clock that does not go back.  [presence_inv] is the invariant: the state
    shown for a local user is that of its devices, and a user shown as online
    has a timer that has not fired yet. *)
From S2P Require Import Prelude Identifiers WheelTimer WheelTimerProps Presence PresenceProps.

(** ** [last_states] *)
Lemma assoc_set_keys {V} k (v : V) d x : x ∈ (assoc_set k v d).*1 ↔ x = k ∨ x ∈ d.*1.
Proof.
  induction d as [|[k' v'] d IH]; simpl; [set_solver|].
  destruct (String.eqb_spec k k') as [->|]; simpl; set_solver.
Qed.

Lemma assoc_set_nodup {V} k (v : V) d : NoDup d.*1 → NoDup (assoc_set k v d).*1.
Proof.
  induction d as [|[k' v'] d IH]; simpl; [intros; apply NoDup_singleton|].
  intros [Hk Hd]%NoDup_cons. destruct (String.eqb_spec k k') as [->|Hne]; simpl.
  - by constructor.
  - constructor; [|by apply IH]. rewrite assoc_set_keys. naive_solver.
Qed.

Lemma assoc_set_elem {V} k (v : V) d p : p ∈ assoc_set k v d → p = (k, v) ∨ p ∈ d.
Proof.
  induction d as [|[k' v'] d IH]; simpl; [set_solver|].
  destruct (String.eqb_spec k k') as [->|]; set_solver.
Qed.

Lemma last_states_spec l :
  NoDup (ups_user_id <$> last_states l) ∧
  (∀ s, s ∈ last_states l → s ∈ l) ∧
  (∀ s, s ∈ l → ups_user_id s ∈ ups_user_id <$> last_states l).
Proof.
  unfold last_states. set (d := foldl _ _ _).
  assert (NoDup d.*1 ∧ (∀ p, p ∈ d → p.1 = ups_user_id p.2 ∧ p.2 ∈ l) ∧
          (∀ s, s ∈ l → ups_user_id s ∈ d.*1)) as (Hd & Hp & Hs).
  { subst d. induction l as [|s l IH] using rev_ind; [split_and!; [constructor|set_solver|set_solver]|].
    rewrite foldl_app. simpl. destruct IH as (H1 & H2 & H3). split_and!.
    - by apply assoc_set_nodup.
    - intros p [->|Hp]%assoc_set_elem; simpl; [set_solver|]. destruct (H2 p Hp). set_solver.
    - intros s' [Hs|Hs]%elem_of_app; apply assoc_set_keys; [right; auto|]. set_solver. }
  assert (ups_user_id <$> d.*2 = d.*1) as He.
  { rewrite <- list_fmap_compose. apply list_fmap_ext. intros i p Hi. simpl.
    symmetry. apply Hp. by eapply list_elem_of_lookup_2. }
  rewrite He. split_and!; [done| |done].
  intros s (p & -> & Hps)%list_elem_of_fmap. by apply Hp.
Qed.

(** Rows written by [update_presence] are among the states given. *)
Lemma update_rows_lookup states (t : gmap string UserPresenceState) u r :
  foldl (λ t s, <[ups_user_id s:=s]> t) t states !! u = Some r →
  t !! u = Some r ∨ (r ∈ states ∧ ups_user_id r = u).
Proof.
  revert t. induction states as [|s states IH]; intros t; simpl; [auto|].
  intros [Hr|[? ?]]%IH; [|set_solver]. apply lookup_insert_Some in Hr as [[<- <-]|[_ ?]]; set_solver.
Qed.

(** ** [_update_states] *)
Section update.
Context (c : presence_config).
Hypothesis Henabled : _presence_enabled c = true.
Hypothesis Htrack : _track_presence c = true.

(** The fields [_update_states] does not touch. *)
Definition same_rest (h h' : PresenceHandler) : Prop :=
  _user_to_device_to_current_state h' = _user_to_device_to_current_state h ∧
  _user_device_to_num_current_syncs h' = _user_device_to_num_current_syncs h ∧
  external_process_to_current_syncs h' = external_process_to_current_syncs h ∧
  external_process_last_updated_ms h' = external_process_last_updated_ms h.

(** Everything [_update_states] does to the states of the users and their timers
    when it is given the distinct states [news] at the time [t]. *)
Record updated (t : Z) (news : list UserPresenceState) (h h' : PresenceHandler) : Prop := {
  up_rest : same_rest h h';
  up_wheel : wheel_at t (wheel_timer h');
  up_kept x k : pending (wheel_timer h) x k → pending (wheel_timer h') x k;
  up_other u : u ∉ ups_user_id <$> news →
    user_to_current_state h' !! u = user_to_current_state h !! u;
  up_new s : s ∈ news → ∃ prev,
    user_to_current_state h' !! ups_user_id s =
      Some (update_result prev s (is_mine_id c (ups_user_id s)) t).1.1;
  up_timers s th : s ∈ news → th ∈ update_timers (is_mine_id c (ups_user_id s)) t s →
    ∃ k, pending (wheel_timer h') (ups_user_id s) k ∧
      (key th + 1 ≤ k ≤ Z.max (key th) (key t) + 1)%Z
}.

Lemma update_result_id prev s m t :
  ups_user_id (update_result prev s m t).1.1 = ups_user_id s.
Proof.
  unfold update_result, refreshed. destruct m; repeat case_match; simplify_eq/=; try done;
    repeat case_match; done.
Qed.

Lemma update_one_spec force t acc s h :
  wheel_at t (wheel_timer h) →
  ∃ h' acc', update_one c force t acc s h = (h', Ok acc') ∧ updated t [s] h h' ∧
    presence_stream h' = presence_stream h ∧
    (∀ u x, (u, x) ∈ acc'.1 → (u, x) ∈ acc.1 ∨
       (u = ups_user_id s ∧ user_to_current_state h' !! u = Some x)).
Proof.
  intros Hw.
  pose (prev := default (state_default (ups_user_id s))
                  (user_to_current_state h !! ups_user_id s)).
  destruct (handle_update_spec prev s (is_mine_id c (ups_user_id s)) t (wheel_timer h) Hw)
    as (w' & Hu & [Hw' Hk Ho Hs]).
  unfold update_one, st_bind, st_get, on_wheel, st_modify, st_ret. rewrite Htrack. simpl.
  fold prev. rewrite Hu. destruct (update_result prev s (is_mine_id c (ups_user_id s)) t)
    as [[s' notify] ping] eqn:Hr. destruct acc as [to_notify to_ping].
  eexists _, _. split; [done|]. split; [split; simpl|split; [done|]].
  - done.
  - done.
  - auto.
  - intros u Hne. apply lookup_insert_ne. set_solver.
  - intros s0 ->%list_elem_of_singleton. exists prev. by rewrite lookup_insert_eq, Hr.
  - intros s0 th ->%list_elem_of_singleton. apply Hs.
  - simpl. intros u x Hin. rewrite lookup_insert_Some.
    destruct (force || notify); [|by destruct ping; left]. simpl in Hin.
    apply assoc_set_elem in Hin as [[= -> ->]|]; auto.
Qed.

Lemma updated_app t l l' h h1 h2 :
  updated t l h h1 → updated t l' h1 h2 →
  (∀ s, s ∈ l → ups_user_id s ∉ ups_user_id <$> l') → updated t (l ++ l') h h2.
Proof.
  intros [R1 W1 K1 O1 N1 T1] [R2 W2 K2 O2 N2 T2] Hdisj. split.
  - unfold same_rest in *. naive_solver congruence.
  - done.
  - auto.
  - intros u Hu. rewrite fmap_app in Hu. rewrite O2, O1 by set_solver. done.
  - intros s [Hs|Hs]%elem_of_app; [|auto]. rewrite O2 by auto. auto.
  - intros s th [Hs|Hs]%elem_of_app Hth; [|eauto].
    destruct (T1 s th Hs Hth) as (k & ? & ?). eauto.
Qed.

Lemma update_loop_spec force t news acc h :
  wheel_at t (wheel_timer h) → NoDup (ups_user_id <$> news) →
  ∃ h' acc', st_fold (update_one c force t) news acc h = (h', Ok acc') ∧ updated t news h h' ∧
    presence_stream h' = presence_stream h ∧
    (∀ u x, (u, x) ∈ acc'.1 → (u, x) ∈ acc.1 ∨
       (u ∈ ups_user_id <$> news ∧ user_to_current_state h' !! u = Some x)).
Proof.
  revert acc h. induction news as [|s news IH]; intros acc h Hw Hnd; simpl.
  { eexists _, _. split; [done|]. split; [|auto].
    split; [done|done|auto|auto|set_solver|set_solver]. }
  apply NoDup_cons in Hnd as [Hs Hnd].
  destruct (update_one_spec force t acc s h Hw) as (h1 & acc1 & H1 & U1 & P1 & A1).
  destruct (IH acc1 h1 (up_wheel _ _ _ _ U1) Hnd) as (h2 & acc2 & H2 & U2 & P2 & A2).
  unfold st_bind. rewrite H1. eexists _, _. split; [exact H2|]. split_and!.
  - apply (updated_app t [s] news _ h1); [done|done|]. by intros s0 ->%list_elem_of_singleton.
  - congruence.
  - intros u x [Hin|[Hu Hx]]%A2; [|set_solver]. apply A1 in Hin as [|[-> Hx]]; [auto|].
    right. split; [set_solver|]. by rewrite (up_other _ _ _ _ U2).
Qed.

Theorem update_states_spec force t news h :
  wheel_at t (wheel_timer h) →
  ∃ h', _update_states c news force t h = (h', Ok tt) ∧ updated t (last_states news) h h' ∧
    (∀ u r, presence_stream h' !! u = Some r →
       presence_stream h !! u = Some r ∨ user_to_current_state h' !! u = Some r).
Proof.
  intros Hw. destruct (last_states_spec news) as (Hnd & _).
  unfold _update_states. rewrite Henabled. cbn [negb].
  destruct (update_loop_spec force t (last_states news) ([], []) h Hw Hnd)
    as (h1 & [to_notify to_ping] & Hl & U & P & A). simpl in A.
  assert (∀ s, s ∈ to_notify.*2 → user_to_current_state h1 !! ups_user_id s = Some s) as Hcur.
  { intros s ([u x] & -> & Hin)%list_elem_of_fmap. destruct (A _ _ Hin) as [?|[Hu Hx]]; [set_solver|].
    simpl. replace (ups_user_id x) with u; [done|].
    apply list_elem_of_fmap in Hu as (s0 & -> & Hs0).
    destruct (up_new _ _ _ _ U s0 Hs0) as [prev Hp]. rewrite Hx in Hp. injection Hp as ->.
    by rewrite update_result_id. }
  unfold st_bind. rewrite Hl.
  assert (∀ h2, updated t (last_states news) h h2 → ∀ f, updated t (last_states news) h (set_unpersisted f h2)) as Hun
    by (intros h2 [] f; by split).
  assert (∀ h2, updated t (last_states news) h h2 → ∀ f, updated t (last_states news) h (set_stream f h2)) as Hst
    by (intros h2 [] f; by split).
  assert (∀ h2, updated t (last_states news) h h2 → ∀ f, updated t (last_states news) h (send f h2)) as Hse
    by (intros h2 [] f; by split).
  assert (∃ h2, (if to_notify is [] then st_ret tt else _persist_and_notify to_notify.*2) h1 = (h2, Ok tt) ∧
     updated t (last_states news) h h2 ∧ user_to_current_state h2 = user_to_current_state h1 ∧
     (∀ u r, presence_stream h2 !! u = Some r →
       presence_stream h !! u = Some r ∨ user_to_current_state h1 !! u = Some r)) as (h2 & -> & U2 & C2 & P2).
  { destruct to_notify as [|p to_notify].
    - exists h1. split_and!; [done|done|done|]. intros u r. rewrite P. auto.
    - eexists. split; [reflexivity|]. split; [by apply Hse, Hst|]. split; [done|].
      intros u r [Hr|[Hr <-]]%update_rows_lookup; [rewrite P in Hr; auto|]. auto. }
  unfold st_modify. simpl.
  destruct (filter _ to_ping); eexists; (split; [reflexivity|]); simpl; rewrite C2; auto.
Qed.
End update.

(** ** The invariant *)
Definition devices_of (h : PresenceHandler) (u : string) : device_map :=
  default ∅ (_user_to_device_to_current_state h !! u).

Definition awake (s : string) : Prop := s = PresenceState.ONLINE ∨ s = PresenceState.BUSY.

(** The state [st] shown at [t] for a local user with the devices [ds]. *)
Record state_ok (t : Z) (ds : device_map) (st : UserPresenceState) : Prop := {
  so_active : (0 ≤ ups_last_active_ts st ≤ t)%Z;
  so_top : top_state (device_values ds) (ups_state st);
  so_recent : awake (ups_state st) →
    all_devices (λ d, (dev_last_active_ts d ≤ ups_last_active_ts st)%Z) ds
}.

(** A timer of [u] for the time [th] that has not fired at [t]. *)
Definition has_timer (t : Z) (w : WheelTimer string) (u : string) (th : Z) : Prop :=
  ∃ k, pending w u k ∧ (key th + 1 ≤ k ≤ Z.max (key th) (key t) + 1)%Z.

(** The time up to which a user is waited for: a local user shown as online
    until it is idle, a remote one until it has to be heard of again. *)
Definition deadline (is_mine : bool) (st : UserPresenceState) : option Z :=
  if is_mine then
    if decide (ups_state st = PresenceState.ONLINE)
    then Some (ups_last_active_ts st + IDLE_TIMER)%Z else None
  else
    if decide (ups_state st = PresenceState.OFFLINE) then None
    else Some (ups_last_federation_update_ts st + FEDERATION_TIMEOUT)%Z.

(** The times a device was seen lie in the past. *)
Definition devices_ok (t : Z) (ds : device_map) : Prop :=
  valid_devices ds ∧ all_devices (λ d, (0 ≤ dev_last_active_ts d ≤ t)%Z) ds.

Section invariant.
Context (c : presence_config).

(** The invariant at the time [t] for the users outside [U]; [remote] says
    whether the timers of remote users are part of it. *)
Record inv_except (remote : bool) (U : list string) (t : Z) (h : PresenceHandler) : Prop := {
  inv_time : (0 ≤ t)%Z;
  inv_wheel : wheel_at t (wheel_timer h);
  inv_ids u st : user_to_current_state h !! u = Some st → ups_user_id st = u;
  inv_devices u : is_mine_id c u = true → devices_ok t (devices_of h u);
  inv_state u st : u ∉ U → is_mine_id c u = true → user_to_current_state h !! u = Some st →
    state_ok t (devices_of h u) st;
  inv_timer u st th : u ∉ U → (is_mine_id c u = true ∨ remote = true) →
    user_to_current_state h !! u = Some st → deadline (is_mine_id c u) st = Some th →
    has_timer t (wheel_timer h) u th;
  inv_rows u st : presence_stream h !! u = Some st → ups_user_id st = u ∧
    (is_mine_id c u = true → (0 ≤ ups_last_active_ts st ≤ t)%Z ∧ valid_state (ups_state st)) ∧
    (user_to_current_state h !! u = None → ups_state st = PresenceState.OFFLINE);
  inv_current u st : u ∈ U → user_to_current_state h !! u = Some st → is_mine_id c u = true →
    (0 ≤ ups_last_active_ts st ≤ t)%Z;
  inv_external p S u id : external_process_to_current_syncs h !! p = Some S → (u, id) ∈ S →
    is_mine_id c u = true;
  inv_unknown u : u ∉ U → is_mine_id c u = true → user_to_current_state h !! u = None →
    top_state (device_values (devices_of h u)) PresenceState.OFFLINE
}.

Definition presence_inv (remote : bool) (t : Z) (h : PresenceHandler) : Prop :=
  inv_except remote [] t h.

Lemma has_timer_mono t t' w u th : has_timer t w u th → (t ≤ t')%Z → has_timer t' w u th.
Proof. intros (k & ? & ?) Hle%key_mono. exists k. split; [done|]. lia. Qed.

Lemma state_ok_mono t t' ds st : state_ok t ds st → (t ≤ t')%Z → state_ok t' ds st.
Proof. intros [Ha ? ?] Hle. split; [lia|done|done]. Qed.

Lemma inv_mono remote U t t' h : inv_except remote U t h → (t ≤ t')%Z → inv_except remote U t' h.
Proof.
  intros [] Hle. split; eauto using wheel_at_mono, has_timer_mono, state_ok_mono; [lia|..].
  - intros u Hu. destruct (inv_devices0 u Hu) as [? Hd]. split; [done|].
    intros id d Hid. specialize (Hd _ _ Hid). simpl in *. lia.
  - intros u st Hr. destruct (inv_rows0 u st Hr) as (? & Ha & ?). split_and!; [done| |done].
    intros Hm. destruct (Ha Hm). split; [lia|done].
  - intros u st Hu Hst Hm. specialize (inv_current0 u st Hu Hst Hm). lia.
Qed.

(** What [handle_update] keeps of a state. *)
Lemma update_result_fields prev s m t :
  let s' := (update_result prev s m t).1.1 in
  ups_state s' = ups_state s ∧ ups_last_active_ts s' = ups_last_active_ts s ∧
  ups_last_user_sync_ts s' = ups_last_user_sync_ts s ∧ ups_status_msg s' = ups_status_msg s ∧
  (ups_last_federation_update_ts s' = ups_last_federation_update_ts s ∨
   ups_last_federation_update_ts s' = t).
Proof.
  unfold update_result, refreshed. destruct m; repeat case_match; simplify_eq/=; auto 9;
    repeat case_match; simpl; auto 9.
Qed.

(** A state to be stored: what it needs to satisfy the invariant.  The time of the
    last federation update may be changed to [t] after the timer was set; for
    remote users it has to be in the bucket of [t] already. *)
Definition news_ok (remote : bool) (t : Z) (h : PresenceHandler) (s : UserPresenceState) : Prop :=
  (is_mine_id c (ups_user_id s) = true → state_ok t (devices_of h (ups_user_id s)) s) ∧
  (is_mine_id c (ups_user_id s) = false → remote = true → ups_state s ≠ PresenceState.OFFLINE →
   key (ups_last_federation_update_ts s + FEDERATION_TIMEOUT) = key (t + FEDERATION_TIMEOUT)).

Lemma state_ok_valid t ds s : state_ok t ds s → valid_state (ups_state s).
Proof.
  intros [_ Ht _]. apply Ht.
Qed.

Lemma state_ok_fields t ds s s' :
  state_ok t ds s → ups_state s' = ups_state s → ups_last_active_ts s' = ups_last_active_ts s →
  state_ok t ds s'.
Proof. intros [A T R] Hs Ha. split; rewrite ?Hs, ?Ha; auto. Qed.

Hypothesis Henabled : _presence_enabled c = true.
Hypothesis Htrack : _track_presence c = true.

Lemma updated_timer remote t news h h' s prev th :
  updated c t news h h' → s ∈ news → news_ok remote t h s →
  (is_mine_id c (ups_user_id s) = true ∨ remote = true) →
  deadline (is_mine_id c (ups_user_id s))
    (update_result prev s (is_mine_id c (ups_user_id s)) t).1.1 = Some th →
  has_timer t (wheel_timer h') (ups_user_id s) th.
Proof.
  intros U Hs [_ Hr] Hmr. unfold deadline.
  destruct (update_result_fields prev s (is_mine_id c (ups_user_id s)) t) as (-> & -> & _ & _ & Hf).
  pose proof (up_timers _ _ _ _ _ U s) as Ht. unfold update_timers in Ht.
  destruct (is_mine_id c (ups_user_id s)).
  - case_decide as Ho; [|done]. intros [= <-]. apply Ht; [done|].
    rewrite bool_decide_true by done. set_solver.
  - case_decide as Ho; [done|]. intros [= <-]. destruct Hmr as [|Hmr]; [done|].
    specialize (Hr eq_refl Hmr Ho).
    destruct (Ht (ups_last_federation_update_ts s + FEDERATION_TIMEOUT)%Z Hs) as (k & Hk & Hb);
      [set_solver|]. exists k. split; [done|]. destruct Hf as [-> | ->]; lia.
Qed.

(** Where the states in memory come from after [_update_states]. *)
Lemma updated_current (U : list string) t news h h' :
  updated c t (last_states news) h h' → (∀ u, u ∈ U → u ∈ ups_user_id <$> news) →
  ∀ u st, user_to_current_state h' !! u = Some st →
    (∃ s prev, s ∈ last_states news ∧ u = ups_user_id s ∧
       st = (update_result prev s (is_mine_id c u) t).1.1) ∨
    (u ∉ U ∧ user_to_current_state h !! u = Some st).
Proof.
  intros Hup HU u st Hst. destruct (last_states_spec news) as (_ & _ & Hcov).
  destruct (decide (u ∈ ups_user_id <$> last_states news)) as [Hin|Hin].
  - left. apply list_elem_of_fmap in Hin as (s & -> & Hs).
    destruct (up_new _ _ _ _ _ Hup s Hs) as [prev Hp]. rewrite Hst in Hp.
    injection Hp as ->. eauto.
  - right. rewrite (up_other _ _ _ _ _ Hup) in Hst by done. split; [|done]. intros HuU.
    apply HU, list_elem_of_fmap in HuU as (s & -> & Hs). by apply Hin, Hcov.
Qed.

(** [_update_states] establishes the invariant for the users it is given. *)
Lemma update_states_inv remote U force t news h :
  inv_except remote U t h →
  (∀ u, u ∈ U → u ∈ ups_user_id <$> news) →
  (∀ s, s ∈ news → news_ok remote t h s) →
  ∃ h', _update_states c news force t h = (h', Ok tt) ∧ presence_inv remote t h' ∧
    updated c t (last_states news) h h'.
Proof.
  intros Hinv HU Hnews.
  destruct (update_states_spec c Henabled Htrack force t news h (inv_wheel _ _ _ _ Hinv))
    as (h' & Hu & Hup & Hrows).
  destruct (last_states_spec news) as (_ & Hsub & Hcov).
  exists h'. split_and!; [done| |done].
  pose proof (up_rest _ _ _ _ _ Hup) as (Hd & _ & He & _).
  assert (∀ u, devices_of h' u = devices_of h u) as Hdev
    by (intros; unfold devices_of; by rewrite Hd).
  pose proof (updated_current U t news h h' Hup HU) as Hcase.
  destruct Hinv as [H0 Hw Hids Hdevs Hstate Htimer Hro Hcu Hex Hun].
  assert (∀ u st, is_mine_id c u = true → user_to_current_state h' !! u = Some st →
    state_ok t (devices_of h' u) st) as Hstate'.
  { intros u st Hm [(s & prev & Hs & -> & ->)|[? ?]]%Hcase; rewrite Hdev; [|auto].
    destruct (update_result_fields prev s (is_mine_id c (ups_user_id s)) t) as (? & ? & _).
    eapply state_ok_fields; [|done|done]. by apply Hnews; auto. }
  split.
  - done.
  - apply Hup.
  - intros u st [(s & prev & ? & -> & ->)|[_ ?]]%Hcase; [apply update_result_id|auto].
  - intros u. rewrite Hdev. auto.
  - auto.
  - intros u st th _ Hmr [(s & prev & Hs & -> & ->)|[? ?]]%Hcase Hdl; [eauto using updated_timer|].
    destruct (Htimer u st th) as (k & Hk & ?); [done..|]. exists k.
    split; [by apply (up_kept _ _ _ _ _ Hup)|done].
  - intros u st Hrow. pose proof (Hrows _ _ Hrow) as [Hold|Hcur].
    + destruct (Hro _ _ Hold) as (? & ? & Hn). split_and!; [done|done|]. intros Hnone. apply Hn.
      destruct (decide (u ∈ ups_user_id <$> last_states news)) as [Hin|Hin].
      * apply list_elem_of_fmap in Hin as (s & -> & Hs).
        destruct (up_new _ _ _ _ _ Hup s Hs) as [prev Hp]. congruence.
      * by rewrite (up_other _ _ _ _ _ Hup) in Hnone.
    + split_and!; [|intros Hm|by rewrite Hcur].
      * apply Hcase in Hcur as [(s & prev & ? & -> & ->)|[_ ?]]; [apply update_result_id|auto].
      * pose proof (Hstate' _ _ Hm Hcur) as Hok. split; [apply Hok|by eapply state_ok_valid].
  - set_solver.
  - rewrite He. exact Hex.
  - intros u _ Hm Hnone. rewrite Hdev.
    destruct (decide (u ∈ ups_user_id <$> last_states news)) as [Hin|Hin].
    + apply list_elem_of_fmap in Hin as (s & -> & Hs).
      destruct (up_new _ _ _ _ _ Hup s Hs) as [prev Hp]. congruence.
    + rewrite (up_other _ _ _ _ _ Hup) in Hnone by done. apply Hun; [|done..]. intros HuU.
      apply HU, list_elem_of_fmap in HuU as (s & -> & Hs). by apply Hin, Hcov.
Qed.

End invariant.

(** ** Reading the current states *)
Section reading.
Context (c : presence_config).

(** Reading may add default states for unknown users, and nothing else. *)
Record reads (h h' : PresenceHandler) : Prop := {
  rd_rest : same_rest h h';
  rd_wheel : wheel_timer h' = wheel_timer h;
  rd_rows : presence_stream h' = presence_stream h;
  rd_current u : user_to_current_state h' !! u = user_to_current_state h !! u ∨
    (user_to_current_state h !! u = None ∧
     user_to_current_state h' !! u = Some (state_default u))
}.

Lemma reads_refl h : reads h h.
Proof. split; auto. unfold same_rest; auto. Qed.

Lemma reads_trans h h1 h2 : reads h h1 → reads h1 h2 → reads h h2.
Proof.
  intros [R1 W1 P1 C1] [R2 W2 P2 C2]. split; [|congruence|congruence|].
  - unfold same_rest in *. naive_solver congruence.
  - intros u. destruct (C2 u) as [E2|[E2 E2']], (C1 u) as [E1|[E1 E1']];
      rewrite E2 || rewrite E2'; rewrite ?E1, ?E1'; auto; right; split; congruence.
Qed.

Lemma reads_devices h h' u : reads h h' → devices_of h' u = devices_of h u.
Proof. intros [[Hd _] _ _ _]. unfold devices_of. by rewrite Hd. Qed.

Lemma reads_inv remote U t h h' : reads h h' → inv_except c remote U t h → inv_except c remote U t h'.
Proof.
  intros Hr [H0 Hw Hids Hdevs Hstate Htimer Hro Hcu Hex Hun].
  pose proof (λ u, reads_devices h h' u Hr) as Hd. destruct Hr as [(_ & _ & HE & _) HW HP HC].
  split; rewrite ?HW, ?HP, ?HE; try done.
  - intros u st. destruct (HC u) as [->|[_ ->]]; [auto|by intros [= <-]].
  - intros u. rewrite Hd. auto.
  - intros u st Hu Hm. rewrite Hd. destruct (HC u) as [->|[Hno ->]]; [auto|].
    intros [= <-]. split; simpl; [lia| |by intros []]. by apply Hun.
  - intros u st th Hu Hm. destruct (HC u) as [->|[_ ->]]; [eauto|].
    intros [= <-]. unfold deadline. by destruct (is_mine_id c u); rewrite ?decide_True by done.
  - intros u st Hrow. destruct (Hro u st Hrow) as (? & ? & Hn). split_and!; [done|done|].
    destruct (HC u) as [->|[_ ->]]; auto. done.
  - intros u st Hu. destruct (HC u) as [->|[_ ->]]; [eauto|]. intros [= <-] _. simpl. lia.
  - intros u Hu Hm. rewrite Hd. destruct (HC u) as [->|[_ ->]]; [auto|done].
Qed.

Lemma fill_missing_spec res states missing h :
  (∀ u, u ∈ missing → res !! u = None → user_to_current_state h !! u = None ∨
     user_to_current_state h !! u = Some (state_default u)) →
  ∃ h' states', fill_missing res states missing h = (h', Ok states') ∧ reads h h' ∧
    ∀ u, states' !! u = if decide (u ∈ missing ∧ res !! u = None)
                        then Some (state_default u) else states !! u.
Proof.
  unfold fill_missing. revert states h. induction missing as [|v missing IH]; intros states h Hm; cbn [st_fold].
  { eexists _, _. split; [done|]. split; [apply reads_refl|]. intros u.
    rewrite decide_False by set_solver. done. }
  destruct (res !! v) as [r|] eqn:Hv.
  - destruct (IH states h) as (h' & states' & Hf & Hr & Hs); [set_solver|].
    unfold st_bind, st_ret at 1. eexists _, _. split; [exact Hf|]. split; [done|].
    intros u. rewrite Hs. repeat case_decide; try done; exfalso.
    + set_solver.
    + destruct (decide (u = v)); [naive_solver|set_solver].
  - set (h1 := set_current (<[v:=state_default v]>) h).
    assert (reads h h1) as Hr1.
    { split; [done|done|done|]. intros u. simpl. destruct (decide (u = v)) as [->|].
      - rewrite lookup_insert_eq. destruct (Hm v) as [->| ->]; auto; set_solver.
      - rewrite lookup_insert_ne by done. auto. }
    destruct (IH (<[v:=state_default v]> states) h1) as (h' & states' & Hf & Hr & Hs).
    { intros u Hu Hn. simpl. destruct (decide (u = v)) as [->|];
        [rewrite lookup_insert_eq|rewrite lookup_insert_ne by done]; [auto|]. apply Hm; set_solver. }
    unfold st_bind, st_ret, st_modify. eexists _, _. split; [exact Hf|].
    split; [by eapply reads_trans|]. intros u. rewrite Hs.
    destruct (decide (u = v)) as [->|].
    + rewrite (decide_True (P:=v ∈ v :: _ ∧ _)) by set_solver. case_decide; [done|].
      apply lookup_insert_eq.
    + rewrite lookup_insert_ne by done. repeat case_decide; try done; exfalso; set_solver.
Qed.

(** What is read for [u]: the state in memory, or that of a user that is offline. *)
Definition read_state (t : Z) (h : PresenceHandler) (u : string) (st : UserPresenceState) : Prop :=
  ups_user_id st = u ∧
  (user_to_current_state h !! u = Some st ∨
   (user_to_current_state h !! u = None ∧ ups_state st = PresenceState.OFFLINE ∧
    (is_mine_id c u = true → (0 ≤ ups_last_active_ts st ≤ t)%Z))).

Lemma current_states_spec remote U t h us :
  inv_except c remote U t h →
  ∃ h' res, current_state_for_users us h = (h', Ok res) ∧ reads h h' ∧
    (∀ u, u ∈ us → is_Some (res !! u)) ∧
    (∀ u st, res !! u = Some st → u ∈ us ∧ read_state t h u st).
Proof.
  intros Hinv. unfold current_state_for_users, st_bind, st_get, st_ret.
  set (missing := filter _ us). set (states := filter _ (user_to_current_state h)).
  assert (∀ u, u ∈ missing ↔ user_to_current_state h !! u = None ∧ u ∈ us) as Hmis
    by (intros; unfold missing; by rewrite list_elem_of_filter).
  assert (∀ u st, states !! u = Some st ↔ user_to_current_state h !! u = Some st ∧ u ∈ us) as Hst
    by (intros; unfold states; by rewrite map_lookup_filter_Some).
  destruct missing as [|m0 ms] eqn:Hms.
  { eexists _, _. split; [done|]. split; [apply reads_refl|]. split.
    - intros u Hu. destruct (user_to_current_state h !! u) as [st|] eqn:Hc.
      + exists st. by apply Hst.
      + exfalso. assert (u ∈ []) as ?%not_elem_of_nil; [|done]. by apply Hmis.
    - intros u st [Hc Hu]%Hst. split; [done|]. split; [by apply (inv_ids _ _ _ _ _ Hinv)|auto]. }
  rewrite <- Hms in *. clear m0 ms Hms. set (res := get_presence_for_users _ _).
  assert (∀ u st, res !! u = Some st ↔ presence_stream h !! u = Some st ∧ u ∈ missing) as Hres
    by (intros; unfold res, get_presence_for_users; by rewrite map_lookup_filter_Some).
  destruct (fill_missing_spec res (res ∪ states) missing h) as (h' & states' & Hf & Hr & Hs).
  { intros u [? _]%Hmis _. auto. }
  exists h', states'. split; [done|]. split; [done|]. split.
  - intros u Hu. rewrite Hs. case_decide as Hd; [done|].
    destruct (user_to_current_state h !! u) as [st|] eqn:Hc.
    + exists st. apply lookup_union_Some_raw. right. split; [|by apply Hst].
      apply eq_None_not_Some. intros [r [_ [Hn _]%Hmis]%Hres]. congruence.
    + destruct (res !! u) as [r|] eqn:Hru.
      * exists r. by apply lookup_union_Some_raw; left.
      * destruct Hd. split; [by apply Hmis|done].
  - intros u st. rewrite Hs. case_decide as Hd.
    + intros [= <-]. destruct Hd as [[Hn Hu]%Hmis _]. split; [done|]. split; [done|]. right.
      pose proof (inv_time _ _ _ _ _ Hinv). split_and!; [done|done|simpl; lia].
    + intros [[Hrow Hm]%Hres|[_ [Hc Hu]%Hst]]%lookup_union_Some_raw.
      * apply Hmis in Hm as [Hn Hu]. destruct (inv_rows _ _ _ _ _ Hinv u st Hrow) as (? & Ha & ?).
        split; [done|]. split; [done|]. right. split_and!; [done|auto|apply Ha].
      * split; [done|]. split; [by apply (inv_ids _ _ _ _ _ Hinv)|auto].
Qed.

Lemma current_state_spec remote U t h u :
  inv_except c remote U t h →
  ∃ h' st, current_state_for_user u h = (h', Ok st) ∧ reads h h' ∧ read_state t h u st.
Proof.
  intros Hinv. destruct (current_states_spec _ _ _ _ [u] Hinv) as (h' & res & Hc & Hr & Hs & Hrs).
  destruct (Hs u) as [st Hst]; [set_solver|]. exists h', st.
  unfold current_state_for_user, st_bind, st_lift. rewrite Hc, Hst. split; [done|].
  split; [done|]. by apply (Hrs u st).
Qed.

End reading.
