(* ===== verification/PresenceSteps.v ===== *)
(** Every handler of the presence writer keeps the invariant of [PresenceSystem];
    the handlers as steps, and the states they reach from start-up. *)
From S2P Require Import Prelude Identifiers WheelTimer WheelTimerProps Presence PresenceProps PresenceSystem.

(** ** Devices *)
Lemma top_state_map ds s :
  top_state (device_values ds) s ↔ valid_state s ∧
    (s = PresenceState.OFFLINE ∨ ∃ id d, ds !! id = Some d ∧ dev_state d = s) ∧
    all_devices (λ d, valid_state (dev_state d) ∧ (prio (dev_state d) ≤ prio s)%Z) ds.
Proof.
  unfold top_state, all_devices. setoid_rewrite elem_of_device_values. naive_solver.
Qed.

Lemma all_devices_insert (P : UserDevicePresenceState → Prop) id d ds :
  P d → all_devices P ds → all_devices P (<[id:=d]> ds).
Proof. intros Hd Hds id' d' [[_ <-]|[_ ?]]%lookup_insert_Some; eauto. Qed.

Section steps.
Context (c : presence_config).

Definition device_at (u : string) (id : option string) (ds : device_map) : UserDevicePresenceState :=
  default (device_default u id) (ds !! id).

Lemma top_state_sync u id ts ds s :
  top_state (device_values ds) s →
  top_state (device_values (<[id:=dev_set_last_sync ts (device_at u id ds)]> ds)) s.
Proof.
  rewrite !top_state_map. intros (Hv & Hin & Hall). split; [done|]. split.
  - destruct Hin as [|(id' & d & Hd & <-)]; [by left|right].
    destruct (decide (id' = id)) as [->|Hne'].
    + exists id, (dev_set_last_sync ts (device_at u id ds)). rewrite lookup_insert_eq.
      unfold device_at. rewrite Hd. done.
    + exists id', d. by rewrite lookup_insert_ne.
  - apply all_devices_insert; [|done]. unfold device_at. destruct (ds !! id) as [d|] eqn:Hd; simpl.
    + apply (Hall id d Hd).
    + split; [unfold valid_state; set_solver|by apply prio_offline].
Qed.

(** Setting the time of the last sync of a device changes no state shown. *)
Lemma state_ok_sync t u id ts ds st :
  state_ok t ds st → state_ok t (<[id:=dev_set_last_sync ts (device_at u id ds)]> ds) st.
Proof.
  intros [Ha Ht Hr]. split; [done|by apply top_state_sync|].
  intros Hw. apply all_devices_insert; [|auto]. unfold device_at.
    destruct (ds !! id) as [d|] eqn:Hd; simpl; [apply (Hr Hw id d Hd)|lia].
Qed.

Lemma device_at_ok t u id ds :
  (0 ≤ t)%Z → devices_ok t ds →
  valid_state (dev_state (device_at u id ds)) ∧ (0 ≤ dev_last_active_ts (device_at u id ds) ≤ t)%Z.
Proof.
  intros Ht [Hv Hd]. unfold device_at. destruct (ds !! id) as [d|] eqn:Hi; simpl.
  - split; [by apply (Hv id d)|by apply (Hd id d)].
  - split; [unfold valid_state; set_solver|lia].
Qed.

Lemma devices_ok_insert t id d ds :
  devices_ok t ds → valid_state (dev_state d) → (0 ≤ dev_last_active_ts d ≤ t)%Z →
  devices_ok t (<[id:=d]> ds).
Proof. intros [? ?] ? ?. split; by apply all_devices_insert. Qed.

(** Only the devices of [u] differ, which are [ds] now. *)
Record devices_set (u : string) (ds : device_map) (h h' : PresenceHandler) : Prop := {
  dset_current : user_to_current_state h' = user_to_current_state h;
  dset_wheel : wheel_timer h' = wheel_timer h;
  dset_rows : presence_stream h' = presence_stream h;
  dset_syncs : _user_device_to_num_current_syncs h' = _user_device_to_num_current_syncs h;
  dset_external : external_process_to_current_syncs h' = external_process_to_current_syncs h;
  dset_updated : external_process_last_updated_ms h' = external_process_last_updated_ms h;
  dset_devices v : devices_of h' v = if decide (v = u) then ds else devices_of h v
}.

Lemma update_device_spec u id f h :
  ∃ h', update_device u id f h = (h', Ok tt) ∧
    devices_set u (<[id:=f (device_at u id (devices_of h u))]> (devices_of h u)) h h'.
Proof.
  eexists. split; [reflexivity|]. split; try done. intros v. unfold devices_of. simpl.
  case_decide as Hv; [subst; by rewrite lookup_insert_eq|by rewrite lookup_insert_ne].
Qed.

(** The invariant but for [u], after its devices changed. *)
Lemma devices_set_inv remote U t u ds h h' :
  inv_except c remote U t h → devices_set u ds h h' →
  (is_mine_id c u = true → devices_ok t ds) → inv_except c remote (u :: U) t h'.
Proof.
  intros [H0 Hw Hids Hdevs Hstate Htimer Hro Hcu Hex Hun] [EC EW ER ES EE EU ED] Hds.
  split; rewrite ?EC, ?EW, ?ER, ?EE; try done.
  - intros v Hv. rewrite ED. case_decide; subst; auto.
  - intros v st Hv Hm Hst. rewrite ED. rewrite decide_False by set_solver.
    apply Hstate; [set_solver|done|done].
  - intros v st th Hv. apply Htimer. set_solver.
  - intros v st Hv Hst Hm. destruct (decide (v ∈ U)); [by apply (Hcu v)|].
    by apply (so_active t (devices_of h v)), (Hstate v st).
  - intros v Hv Hm Hn. rewrite ED. rewrite decide_False by set_solver. apply Hun; [set_solver|done..].
Qed.

(** ...and for [u] too when the state shown for it still fits. *)
Lemma devices_set_inv_same remote U t u ds h h' :
  inv_except c remote U t h → devices_set u ds h h' →
  (is_mine_id c u = true → devices_ok t ds) →
  (∀ st, state_ok t (devices_of h u) st → state_ok t ds st) →
  (∀ s, top_state (device_values (devices_of h u)) s → top_state (device_values ds) s) →
  inv_except c remote U t h'.
Proof.
  intros Hinv Hset Hds Hsame Htop.
  pose proof (devices_set_inv remote U t u ds h h' Hinv Hset Hds) as Hinv'.
  destruct Hinv' as [H0 Hw Hids Hdevs _ _ Hro _ Hex _].
  destruct Hinv as [_ _ _ _ Hstate Htimer _ Hcu _ Hun], Hset as [EC EW ER ES EE EU ED].
  split; try done; rewrite ?EC, ?EW; try done.
  - intros v st Hv Hm Hst. rewrite ED. case_decide; subst; auto.
  - intros v Hv Hm Hn. rewrite ED. case_decide; subst; auto.
Qed.

Lemma read_state_ok remote t h h' u st :
  presence_inv c remote t h → is_mine_id c u = true → reads h h' → read_state c t h u st →
  state_ok t (devices_of h' u) st.
Proof.
  intros Hinv Hm Hr. rewrite (reads_devices _ _ _ Hr). intros (_ & [Hc|(Hn & Ho & Ha)]); [by apply (inv_state _ _ _ _ _ Hinv u st); [set_solver|..]|].
  split; [auto|rewrite Ho; by apply (inv_unknown _ _ _ _ _ Hinv); [set_solver|..]|].
  rewrite Ho. by intros [|].
Qed.

Lemma read_state_active remote U t h u st :
  inv_except c remote U t h → is_mine_id c u = true → read_state c t h u st →
  (0 ≤ ups_last_active_ts st ≤ t)%Z.
Proof.
  intros Hinv Hm (_ & [Hc|(_ & _ & Ha)]); [|auto].
  destruct (decide (u ∈ U)); [by apply (inv_current _ _ _ _ _ Hinv u st)|].
  by apply (so_active t (devices_of h u)), (inv_state _ _ _ _ _ Hinv u st).
Qed.

Hypothesis Henabled : _presence_enabled c = true.
Hypothesis Htrack : _track_presence c = true.

(** ** The end of the handlers that set the state of one local user *)
Lemma finish_inv remote now now' u h :
  inv_except c remote [u] now h → is_mine_id c u = true → (now ≤ now')%Z →
  ∃ presence, _combine_device_states (device_values (devices_of h u)) = Ok presence ∧
    ∀ s force, ups_user_id s = u → ups_state s = presence → (0 ≤ ups_last_active_ts s ≤ now)%Z →
      (awake presence → ups_last_active_ts s = now) →
      ∃ h', _update_states c [s] force now' h = (h', Ok tt) ∧ presence_inv c remote now' h' ∧
        updated c now' (last_states [s]) h h'.
Proof.
  intros Hinv Hm Hle. destruct (inv_devices _ _ _ _ _ Hinv u Hm) as [Hv Hd].
  destruct (combine_ok (device_values (devices_of h u))) as (presence & Hc & Ht);
    [by apply valid_devices_Forall|].
  exists presence. split; [done|]. intros s force Hu Hs Ha Haw.
  apply (update_states_inv c Henabled Htrack remote [u]); [by eapply inv_mono| |].
  - intros v ->%list_elem_of_singleton. simpl. rewrite Hu. set_solver.
  - intros s' ->%list_elem_of_singleton. split; rewrite Hu; [intros _|congruence].
    split; rewrite ?Hs; [lia|done|]. intros Hw. rewrite (Haw Hw).
    intros id d Hid. specialize (Hd id d Hid). simpl in *. lia.
Qed.

(** A single state that fits the devices. *)
Lemma resend_inv remote t now' h u s :
  presence_inv c remote t h → is_mine_id c u = true → ups_user_id s = u →
  state_ok t (devices_of h u) s → (t ≤ now')%Z →
  ∃ h', _update_states c [s] false now' h = (h', Ok tt) ∧ presence_inv c remote now' h' ∧
    updated c now' (last_states [s]) h h'.
Proof.
  intros Hinv Hm Hu Hs Hle. apply (update_states_inv c Henabled Htrack remote []).
  - by eapply inv_mono.
  - set_solver.
  - intros s' ->%list_elem_of_singleton. split; rewrite Hu; [|congruence].
    intros _. by eapply state_ok_mono.
Qed.

(** ** The handlers *)

(** [bump_presence_active_time] *)
Lemma bump_inv remote t now now' u id h :
  presence_inv c remote t h → is_mine_id c u = true → (t ≤ now ≤ now')%Z →
  ∃ h', bump_presence_active_time c now now' u id h = (h', Ok tt) ∧ presence_inv c remote now' h'.
Proof.
  intros Hinv Hm [Hle Hle']. pose proof (inv_mono _ _ _ _ _ _ Hinv Hle) as Hinv0.
  pose proof (inv_time _ _ _ _ _ Hinv0) as H0.
  unfold bump_presence_active_time. rewrite Htrack. cbn [negb]. unfold st_bind at 1.
  match goal with |- context [update_device u id ?g] => set (f := g) end.
  destruct (update_device_spec u id f h) as (h1 & -> & Hset).
  assert (inv_except c remote [u] now h1) as Hinv1.
  { eapply devices_set_inv; [done..|]. intros _.
    pose proof (inv_devices _ _ _ _ _ Hinv0 u Hm) as Hds.
    destruct (device_at_ok now u id _ H0 Hds) as [Hv _].
    apply devices_ok_insert; [done| |]; subst f; simpl; case_bool_decide; simpl; try done; try lia.
    unfold valid_state. set_solver. }
  destruct (current_state_spec c _ _ _ _ u Hinv1) as (h2 & st & Hc & Hr & Hst).
  pose proof (reads_inv _ _ _ _ _ _ Hr Hinv1) as Hinv2.
  unfold st_bind. rewrite Hc. unfold user_devices, st_get, st_lift.
  destruct (finish_inv remote now now' u h2 Hinv2 Hm Hle') as (presence & Hp & Hfin).
  fold (devices_of h2 u). rewrite Hp.
  destruct (Hfin (with_state presence (with_last_active now st)) false) as (h' & ? & ? & _);
    [by apply Hst|done|simpl; lia|done|eauto].
Qed.

(** [set_state] *)
Lemma set_state_inv remote t now now' u id presence status force is_sync h :
  presence_inv c remote t h → is_mine_id c u = true → (t ≤ now ≤ now')%Z →
  ∃ h', set_state c now now' u id presence status force is_sync h =
      (h', if bool_decide (presence ∈ VALID_PRESENCE c) then Ok tt
           else Raise (SynapseError 400 "Invalid presence state" UNKNOWN)) ∧
    presence_inv c remote now' h'.
Proof.
  intros Hinv Hm [Hle Hle']. pose proof (inv_mono _ _ _ _ _ _ Hinv Hle) as Hinv0.
  pose proof (inv_time _ _ _ _ _ Hinv0) as H0.
  unfold set_state, st_bind at 1, st_lift at 1.
  case_bool_decide as Hvalid; simpl; last first.
  { eexists. split; [done|]. eapply inv_mono; [exact Hinv0|done]. }
  rewrite Htrack. cbn [negb].
  destruct (current_state_spec c _ _ _ _ u Hinv0) as (h1 & st & Hc & Hr & Hst).
  pose proof (reads_inv _ _ _ _ _ _ Hr Hinv0) as Hinv1.
  unfold st_bind. rewrite Hc. set (p := if _ && is_sync then _ else presence).
  match goal with |- context [update_device u id ?g] => set (f := g) end. destruct (update_device_spec u id f h1) as (h2 & -> & Hset).
  assert (valid_state p) as Hp.
  { subst p. destruct (_ && is_sync); [unfold valid_state; set_solver|].
    unfold VALID_PRESENCE in Hvalid. unfold valid_state. destruct (msc3026_enabled c); set_solver. }
  assert (inv_except c remote [u] now h2) as Hinv2.
  { eapply devices_set_inv; [done..|]. intros _.
    pose proof (inv_devices _ _ _ _ _ Hinv1 u Hm) as Hds.
    apply devices_ok_insert; [done| |]; subst f; simpl; destruct is_sync; simpl; (done || lia). }
  unfold user_devices, st_get, st_lift. fold (devices_of h2 u).
  destruct (finish_inv remote now now' u h2 Hinv2 Hm Hle') as (q & -> & Hfin).
  pose proof (read_state_active _ _ _ _ _ _ Hinv0 Hm Hst) as Ha. destruct Hst as [Hu _].
  match goal with |- context [_update_states c [?s]] => set (ns := s) end.
  destruct (Hfin ns force) as (h' & ? & ? & _); [..|eauto]; subst ns;
    destruct is_sync; simpl; repeat case_bool_decide; simpl; try done; try lia; unfold awake; naive_solver.
Qed.

Lemma inv_num_syncs remote U t f h :
  inv_except c remote U t h → inv_except c remote U t (set_num_syncs f h).
Proof. by intros []. Qed.

Lemma inv_set_external remote U t syncs updated h :
  inv_except c remote U t h →
  (∀ p S u id, syncs !! p = Some S → (u, id) ∈ S → is_mine_id c u = true) →
  inv_except c remote U t (set_external syncs updated h).
Proof. intros [] Hs. by split. Qed.

(** [user_syncing] *)
Lemma user_syncing_inv remote t now now' u id affect presence h :
  presence_inv c remote t h → is_mine_id c u = true → (t ≤ now ≤ now')%Z →
  presence_inv c remote now' (user_syncing c now now' u id affect presence h).1.
Proof.
  intros Hinv Hm Hle. unfold user_syncing. rewrite Htrack.
  destruct affect; cbn [negb orb]; [|eapply inv_mono; [done|lia]].
  unfold st_bind, st_modify, st_lift. match goal with |- context [set_num_syncs ?f h] => set (g := f) end.
  pose proof (inv_num_syncs _ _ _ g _ Hinv) as Hinv1.
  destruct (from_string SIGIL.UserID u) as [d|e] eqn:Hu; [|eapply inv_mono; [exact Hinv1|lia]].
  apply from_string_iff in Hu as [<- _].
  destruct (set_state_inv remote t now now' u id presence None false true _ Hinv1 Hm Hle)
    as (h' & -> & Hinv'). by case_bool_decide.
Qed.

(** [send_full_presence_to_users] *)
Lemma get_state_spec remote U t h u :
  inv_except c remote U t h →
  ∃ h' st, get_state u h = (h', Ok st) ∧ reads h h' ∧ read_state c t h u st.
Proof.
  intros Hinv. destruct (current_states_spec c _ _ _ _ [u] Hinv) as (h' & res & Hc & Hr & Hs & Hrs).
  destruct (Hs u) as [st Hst]; [set_solver|].
  assert (res = {[u := st]}) as ->.
  { apply map_eq. intros v. destruct (decide (v = u)) as [->|Hne];
      [by rewrite lookup_singleton_eq|]. rewrite lookup_singleton_ne by done.
    apply eq_None_not_Some. intros [st' Hst']. apply Hrs in Hst' as [Hv _]. set_solver. }
  exists h', st. destruct (Hrs u st Hst) as [_ Hread]. split; [|done].
  unfold get_state, get_states, st_bind, st_lift, st_ret. rewrite Hc, map_to_list_singleton. simpl.
  done.
Qed.

Lemma full_presence_inv remote t now now' us h :
  presence_inv c remote t h → Forall (λ u, is_mine_id c u = true) us → (t ≤ now ≤ now')%Z →
  presence_inv c remote now' (send_full_presence_to_users c now now' us h).1.
Proof.
  intros Hinv Hus Hle. destruct us as [|u us]; simpl; [eapply inv_mono; [done|lia]|].
  apply Forall_cons in Hus as [Hm _]. unfold st_bind, st_modify, st_lift.
  set (h0 := send _ h). assert (presence_inv c remote t h0) as Hinv0 by (by destruct Hinv).
  destruct (from_string SIGIL.UserID u) as [d|e] eqn:Hu; [|eapply inv_mono; [exact Hinv0|lia]].
  apply from_string_iff in Hu as [<- _].
  destruct (get_state_spec _ _ _ _ u Hinv0) as (h1 & st & -> & Hr & _).
  destruct (set_state_inv remote t now now' u None (ups_state st) None true false h1
    (reads_inv _ _ _ _ _ _ Hr Hinv0) Hm Hle) as (h' & -> & ?). done.
Qed.

(** [_end] *)
Lemma user_sync_end_inv remote t now now' u id h :
  presence_inv c remote t h → is_mine_id c u = true → (t ≤ now ≤ now')%Z →
  presence_inv c remote now' (user_sync_end c now now' u id h).1.
Proof.
  intros Hinv Hm Hle. unfold user_sync_end, st_bind, st_get, st_lift, st_modify.
  destruct (_user_device_to_num_current_syncs h !! (u, id)) as [n|]; simpl;
    [|eapply inv_mono; [exact Hinv|lia]].
  match goal with |- context [set_num_syncs ?f h] => set (g := f) end.
  pose proof (inv_num_syncs _ _ _ g _ Hinv) as Hinv1.
  destruct (current_state_spec c _ _ _ _ u Hinv1) as (h1 & st & -> & Hr & Hst).
  pose proof (read_state_ok _ _ _ _ _ _ Hinv1 Hm Hr Hst) as Hok.
  destruct (resend_inv remote t now' h1 u (with_user_sync now st))
    as (h' & -> & ? & _); [by eapply reads_inv|done|by apply Hst| |lia|done].
  by eapply state_ok_fields.
Qed.

(** The end of a sync on another process, for the device. *)
Lemma sync_device_inv remote t u id ts h :
  presence_inv c remote t h → is_mine_id c u = true →
  ∃ h', update_device u id (dev_set_last_sync ts) h = (h', Ok tt) ∧
    devices_set u (<[id:=dev_set_last_sync ts (device_at u id (devices_of h u))]> (devices_of h u)) h h' ∧
    presence_inv c remote t h'.
Proof.
  intros Hinv Hm. destruct (update_device_spec u id (dev_set_last_sync ts) h) as (h' & Hu & Hset).
  exists h'. split_and!; [done|done|].
  eapply (devices_set_inv_same _ [] t u); [exact Hinv|exact Hset| |intros st'; apply state_ok_sync|intros s'; apply top_state_sync].
  intros _. pose proof (inv_devices _ _ _ _ _ Hinv u Hm) as Hds.
  destruct (device_at_ok t u id _ (inv_time _ _ _ _ _ Hinv) Hds). by apply devices_ok_insert.
Qed.

(** [update_external_syncs_row] *)
Lemma external_row_inv remote t now' now'' p u id is_syncing ts h :
  presence_inv c remote t h → is_mine_id c u = true → (t ≤ now' ≤ now'')%Z →
  ∃ h', update_external_syncs_row c now' now'' p u id is_syncing ts h = (h', Ok tt) ∧
    presence_inv c remote now'' h' ∧
    let s := default ∅ (external_process_to_current_syncs h !! p) in
    external_process_to_current_syncs h' =
      <[p:=if is_syncing then s ∪ {[(u, id)]} else s ∖ {[(u, id)]}]>
        (external_process_to_current_syncs h) ∧
    external_process_last_updated_ms h' !! p = Some now''.
Proof.
  intros Hinv Hm Hle. unfold update_external_syncs_row, st_bind, st_get.
  destruct (current_state_spec c _ _ _ _ u Hinv) as (h1 & st & -> & Hr & Hst).
  pose proof (reads_inv _ _ _ _ _ _ Hr Hinv) as Hinv1.
  pose proof (read_state_ok _ _ _ _ _ _ Hinv Hm Hr Hst) as Hok.
  destruct (rd_rest _ _ Hr) as (_ & _ & HE & _). rewrite <- HE.
  set (syncs := external_process_to_current_syncs h1). set (pp := default ∅ (syncs !! p)).
  assert (∀ u' id', (u', id') ∈ pp → is_mine_id c u' = true) as Hpp.
  { intros u' id'. subst pp. destruct (syncs !! p) as [pp|] eqn:Hp; simpl; [|set_solver].
    by apply (inv_external _ _ _ _ _ Hinv1 p pp). }
  assert (∀ h' pp' upd, presence_inv c remote now' h' →
    (∀ u' id', (u', id') ∈ pp' → is_mine_id c u' = true) →
    presence_inv c remote now'' (set_external (<[p:=pp']> syncs) upd h')) as Hend.
  { intros h' pp' upd Hh' Hpp'. apply inv_set_external; [eapply inv_mono; [exact Hh'|lia]|].
    intros p' S0 u' id' [[_ <-]|[_ Hp']]%lookup_insert_Some; [apply Hpp'|].
    by apply (inv_external _ _ _ _ _ Hinv1 p' S0). }
  pose proof (inv_mono _ _ _ _ _ _ Hinv1 (proj1 Hle)) as Hinv1'.
  unfold st_modify, st_ret.
  case_bool_decide as Hin; destruct is_syncing.
  1, 3, 4: eexists; split; [done|]; split; [apply (Hend h1); [done|set_solver]|];
    (split; [|apply lookup_insert_eq]); simpl; do 2 f_equal; set_solver.
  set (h2 := set_external (<[p:=pp]> syncs) (external_process_last_updated_ms h1) h1).
  assert (presence_inv c remote t h2) as Hinv2.
  { apply inv_set_external; [done|]. intros p' S0 u' id' [[_ <-]|[_ Hp']]%lookup_insert_Some;
      [apply Hpp|]. by apply (inv_external _ _ _ _ _ Hinv1 p' S0). }
  destruct (sync_device_inv remote t u id ts h2 Hinv2 Hm) as (h3 & -> & Hset & Hinv3).
  destruct (resend_inv remote t now' h3 u (with_user_sync ts st)) as (h4 & -> & Hinv4 & _);
    [done|done|by apply Hst| |lia|].
  - rewrite (dset_devices _ _ _ _ Hset), decide_True by done.
    eapply state_ok_fields; [by apply state_ok_sync|done|done].
  - eexists. split; [done|]. split; [apply (Hend h4); [done|set_solver]|].
    split; [done|apply lookup_insert_eq].
Qed.

(** [update_external_syncs_clear] *)
Lemma sync_devices_inv remote t ts l h :
  presence_inv c remote t h → (∀ p, p ∈ l → is_mine_id c p.1 = true) →
  ∃ h', st_fold (λ _ p, update_device p.1 p.2 (dev_set_last_sync ts)) l tt h = (h', Ok tt) ∧
    presence_inv c remote t h'.
Proof.
  revert h. induction l as [|[u id] l IH]; intros h Hinv Hl; cbn [st_fold]; [by eexists|].
  destruct (sync_device_inv remote t u id ts h Hinv) as (h1 & H1 & _ & Hinv1);
    [by apply (Hl (u, id)); left|].
  unfold st_bind. cbn [fst snd]. rewrite H1. apply IH; [done|]. intros p Hp. apply Hl. by right.
Qed.

Lemma external_clear_inv remote t now now' p h :
  presence_inv c remote t h → (t ≤ now ≤ now')%Z →
  ∃ h', update_external_syncs_clear c now now' p h = (h', Ok tt) ∧ presence_inv c remote now' h'.
Proof.
  intros Hinv Hle. unfold update_external_syncs_clear, st_bind, st_get, st_modify.
  set (syncs := external_process_to_current_syncs h). set (pp := default ∅ (syncs !! p)).
  assert (∀ q, q ∈ pp → is_mine_id c q.1 = true) as Hpp.
  { intros [u' id']. subst pp. destruct (syncs !! p) as [pp|] eqn:Hp; simpl; [|set_solver].
    by apply (inv_external _ _ _ _ _ Hinv p pp). }
  match goal with |- context [st_fold _ _ _ ?g] => set (h1 := g) end.
  assert (presence_inv c remote t h1) as Hinv1.
  { apply inv_set_external; [done|]. intros p' S0 u' id' [_ Hp']%lookup_delete_Some.
    by apply (inv_external _ _ _ _ _ Hinv p' S0). }
  destruct (sync_devices_inv remote t now (elements pp) h1 Hinv1) as (h2 & -> & Hinv2).
  { intros q Hq%elem_of_elements. auto. }
  set (us := elements _).
  destruct (current_states_spec c _ _ _ _ us Hinv2) as (h3 & res & -> & Hr & _ & Hres).
  destruct (update_states_inv c Henabled Htrack remote [] false now'
    (with_user_sync now <$> (map_to_list res).*2) h3) as (h4 & -> & Hinv4 & _).
  - eapply inv_mono; [by eapply reads_inv|lia].
  - set_solver.
  - intros s (st & -> & ([u st'] & -> & Hin%elem_of_map_to_list)%list_elem_of_fmap)%list_elem_of_fmap.
    destruct (Hres _ _ Hin) as [Hu Hst]. simpl. pose proof (proj1 Hst) as Hid. 
    assert (is_mine_id c u = true) as Hm.
    { apply elem_of_elements, elem_of_map in Hu as (q & -> & Hq). auto. }
    split; simpl; rewrite Hid; [intros _|congruence].
    apply (state_ok_mono t); [|lia].
    by apply (state_ok_fields _ _ st'); [exact (read_state_ok _ _ _ _ _ _ Hinv2 Hm Hr Hst)|..].
  - eexists. split; [done|]. apply inv_set_external; [done|]. apply Hinv4.
Qed.

(** [incoming_presence] *)
Definition from_remote (now : Z) (s : UserPresenceState) : Prop :=
  is_mine_id c (ups_user_id s) = false ∧ ups_last_federation_update_ts s = now.

Lemma domain_not_mine u d :
  get_domain_from_id u = Ok d → d ≠ hostname c → is_mine_id c u = false.
Proof.
  unfold get_domain_from_id, is_mine_id. destruct (split_once _ u) as [[? d']|]; [|done].
  intros [= ->] Hne. by apply String.eqb_neq.
Qed.

Local Ltac keep :=
  eexists _, _; split; [reflexivity|]; split; [apply reads_refl|done].

Lemma incoming_push_spec remote U t now origin updates push h :
  inv_except c remote U t h → origin ≠ hostname c → Forall (from_remote now) updates →
  ∃ h' r, incoming_push now origin updates push h = (h', r) ∧ reads h h' ∧
    ∀ l, r = Ok l → Forall (from_remote now) l.
Proof.
  intros Hinv Ho Hl. unfold incoming_push.
  assert (∀ l, Ok updates = Ok l → Forall (from_remote now) l) as Hkeep by (by intros l [= <-]).
  destruct (pc_user_id push) as [[|a u0]|]; [by keep| |by keep].
  set (u := String a u0). unfold st_bind, st_lift.
  destruct (get_domain_from_id u) as [d|e] eqn:Hd; [|by keep].
  destruct (String.eqb_spec d origin) as [->|Hne]; cbn [negb]; [|by keep].
  destruct (pc_presence push) as [[|b q0]|]; [by keep| |by keep].
  destruct (current_state_spec c _ _ _ _ u Hinv) as (h1 & st & -> & Hr & [Hu _]).
  eexists _, _. split; [reflexivity|]. split; [done|]. intros l [= <-].
  apply Forall_app. split; [done|]. apply Forall_singleton.
  destruct (pc_last_active_ago push); (split; [|done]); simpl; rewrite Hu; by eapply domain_not_mine.
Qed.

Lemma incoming_loop_spec remote U t now origin pushes updates h :
  inv_except c remote U t h → origin ≠ hostname c → Forall (from_remote now) updates →
  ∃ h' r, st_fold (incoming_push now origin) pushes updates h = (h', r) ∧ reads h h' ∧
    ∀ l, r = Ok l → Forall (from_remote now) l.
Proof.
  revert updates h. induction pushes as [|push pushes IH]; intros updates h Hinv Ho Hl; cbn [st_fold].
  { eexists _, _. split; [done|]. split; [apply reads_refl|]. by intros l [= <-]. }
  destruct (incoming_push_spec _ _ _ _ _ updates push h Hinv Ho Hl) as (h1 & r & Hp & Hr & Hr').
  unfold st_bind. rewrite Hp. destruct r as [l|e]; [|by eexists _, _].
  destruct (IH l h1) as (h2 & r2 & Hp2 & Hr2 & Hr2'); [by eapply reads_inv|done|auto|].
  eexists _, _. split; [exact Hp2|]. split; [by eapply reads_trans|done].
Qed.

Lemma incoming_inv (remote : bool) t now now' origin pushes h :
  presence_inv c remote t h → origin ≠ hostname c → (t ≤ now ≤ now')%Z →
  (remote = true → key (now + FEDERATION_TIMEOUT) = key (now' + FEDERATION_TIMEOUT)) →
  presence_inv c remote now' (incoming_presence c now now' origin pushes h).1.
Proof.
  intros Hinv Ho Hle Hkey. unfold incoming_presence. rewrite Htrack. cbn [negb]. unfold st_bind.
  destruct (incoming_loop_spec _ _ _ now origin pushes [] h Hinv Ho) as (h1 & r & -> & Hr & Hl); [done|].
  assert (presence_inv c remote now' h1) as Hinv1
    by (eapply inv_mono; [by eapply reads_inv|lia]).
  destruct r as [[|s l]|e]; [done| |done]. specialize (Hl _ eq_refl).
  destruct (update_states_inv c Henabled Htrack remote [] false now' (s :: l) h1 Hinv1)
    as (h2 & -> & ? & _); [set_solver| |done].
  rewrite Forall_forall in Hl. intros s' Hs'. destruct (Hl s' Hs') as [Hm Hf].
  split; [congruence|]. intros _ Hrem _. rewrite Hf. auto.
Qed.

(** [_persist_unpersisted_changes] *)
Lemma states_of_elem cur us l : states_of cur us = Ok l → ∀ s, s ∈ l → ∃ u, cur !! u = Some s.
Proof.
  unfold states_of. generalize (elements us). intros us'. clear us.
  assert (∀ acc, (∀ s, s ∈ acc → ∃ u, cur !! u = Some s) →
    fold_res (λ l u, s ← of_option (cur !! u) KeyError; Ok (l ++ [s])) us' acc = Ok l →
    ∀ s, s ∈ l → ∃ u, cur !! u = Some s) as Hgen; [|intros Hl; by apply (Hgen []); [set_solver|]].
  induction us' as [|u us' IH]; intros acc Hacc; simpl; [by intros [= <-]|].
  destruct (cur !! u) as [s0|] eqn:Hu; simpl; [|done]. apply IH.
  intros s [?| ->%list_elem_of_singleton]%elem_of_app; eauto.
Qed.

Lemma rows_inv remote t h states :
  presence_inv c remote t h → (∀ s, s ∈ states → ∃ u, user_to_current_state h !! u = Some s) →
  presence_inv c remote t (update_presence states h).1.
Proof.
  intros [H0 Hw Hids Hdevs Hstate Htimer Hro Hcu Hex Hun] Hs. split; try done. simpl.
  intros u st [Hr|[Hin Hid]]%update_rows_lookup; [by apply Hro|].
  destruct (Hs st Hin) as [v Hv]. assert (u = v) as -> by (rewrite <- Hid; auto).
  split_and!; [done| |by rewrite Hv]. intros Hm.
  pose proof (Hstate v st ltac:(set_solver) Hm Hv) as Hok.
  split; [apply Hok|by eapply state_ok_valid].
Qed.

Lemma persist_inv remote t h :
  presence_inv c remote t h → presence_inv c remote t (_persist_unpersisted_changes h).1.
Proof.
  intros Hinv. unfold _persist_unpersisted_changes, st_bind, st_get, st_modify, st_lift, st_ret.
  set (h1 := set_unpersisted _ h). assert (presence_inv c remote t h1) as Hinv1 by (by destruct Hinv).
  case_decide; [done|]. destruct (states_of _ _) as [l|] eqn:Hl; [|done].
  apply rows_inv; [done|]. intros s Hs. by eapply states_of_elem.
Qed.

End steps.
