(* ===== verification/PresenceTick.v ===== *)
(** The timer loop [_handle_timeouts]: it never raises, keeps the invariant, and
    treats exactly the users whose timers fired (or whose process expired). *)
From S2P Require Import Prelude Identifiers WheelTimer WheelTimerProps Presence PresenceProps PresenceSystem PresenceSteps.

(** ** [handle_timeouts] on distinct users *)
Section timeouts.
Context (mine : string → bool) (syncing : gset (string * option string)) (now : Z).

Definition timeout_of (m : gmap string device_map) (st : UserPresenceState) :
    device_map * result (option UserPresenceState) :=
  handle_timeout st (mine (ups_user_id st)) syncing now (default ∅ (m !! ups_user_id st)).

Lemma timeouts_loop_spec states changes m :
  NoDup (ups_user_id <$> states) →
  (∀ st, st ∈ states → is_ok (timeout_of m st).2 = true) →
  (∀ st, st ∈ states → changes !! ups_user_id st = None) →
  ∃ m' changes', st_fold (timeouts_loop mine syncing now) states changes m = (m', Ok changes') ∧
    (∀ st, st ∈ states → m' !! ups_user_id st = (λ _, (timeout_of m st).1) <$> m !! ups_user_id st) ∧
    (∀ u, u ∉ ups_user_id <$> states → m' !! u = m !! u) ∧
    (∀ u ns, changes' !! u = Some ns ↔ changes !! u = Some ns ∨
       ∃ st, st ∈ states ∧ ups_user_id st = u ∧ (timeout_of m st).2 = Ok (Some ns)).
Proof.
  revert changes m. induction states as [|st states IH]; intros changes m Hnd Hok Hch; cbn [st_fold].
  { eexists _, _. split; [done|]. split_and!; [set_solver|done|set_solver]. }
  apply NoDup_cons in Hnd as [Hst Hnd].
  pose (u := ups_user_id st). pose (m1 := if m !! u is Some _ then <[u:=(timeout_of m st).1]> m else m).
  assert (∀ v, v ≠ u → m1 !! v = m !! v) as Hm1.
  { intros v Hv. unfold m1. destruct (m !! u); [by rewrite lookup_insert_ne|done]. }
  assert (m1 !! u = (λ _, (timeout_of m st).1) <$> m !! u) as Hm1u.
  { unfold m1. destruct (m !! u) eqn:Hu; simpl; [by rewrite lookup_insert_eq|done]. }
  assert (∀ st', st' ∈ states → ups_user_id st' ≠ u) as Hne.
  { intros st' Hst' He. apply Hst, list_elem_of_fmap. exists st'. split; [by subst u|done]. }
  assert (∀ st', st' ∈ states → timeout_of m1 st' = timeout_of m st') as Hto.
  { intros st' Hst'. unfold timeout_of. by rewrite Hm1 by auto. }
  pose proof (Hok st ltac:(by left)) as Hst_ok.
  destruct (timeout_of m st) as [ds' r] eqn:Hr. cbn [fst snd] in *.
  destruct r as [o|e]; [|done].
  pose (changes1 := match o with Some ns => <[u:=ns]> changes | None => changes end).
  destruct (IH changes1 m1) as (m2 & changes2 & Hf & H1 & H2 & H3); [done|..].
  { intros st' Hst'. rewrite Hto by done. apply Hok. by right. }
  { intros st' Hst'. unfold changes1. destruct o; [rewrite lookup_insert_ne by (symmetry; auto)|];
      apply Hch; by right. }
  exists m2, changes2. split.
  { unfold st_bind at 1, timeouts_loop at 1. unfold st_bind, st_get, st_modify, st_lift, st_ret.
    unfold timeout_of in Hr. rewrite Hr. exact Hf. }
  split_and!.
  - intros st' [->|Hst']%elem_of_cons.
    + rewrite H2 by done. rewrite Hr. exact Hm1u.
    + rewrite H1, Hto, Hm1 by auto. done.
  - intros v [Hv Hv']%not_elem_of_cons. by rewrite H2, Hm1.
  - intros v ns. rewrite H3. split.
    + intros [Hc|(st' & Hst' & <- & Hs)].
      * unfold changes1 in Hc. destruct o as [ns0|]; [|by left].
        apply lookup_insert_Some in Hc as [[<- <-]|[_ ?]]; [|by left].
        right. exists st. rewrite Hr. split_and!; [by left|done|done].
      * right. exists st'. rewrite <- Hto by done. split_and!; [by right|done|done].
    + intros [Hc|(st' & [->|Hst']%elem_of_cons & <- & Hs)].
      * left. unfold changes1. destruct o; [|done]. rewrite lookup_insert_ne; [done|].
        intros <-. unfold u in Hc. rewrite Hch in Hc by (by left). done.
      * left. rewrite Hr in Hs. cbn [snd] in Hs. injection Hs as ->. unfold changes1, u.
        by rewrite lookup_insert_eq.
      * right. exists st'. rewrite Hto by done. done.
Qed.

Lemma handle_timeouts_spec states m :
  NoDup (ups_user_id <$> states) →
  (∀ st, st ∈ states → is_ok (timeout_of m st).2 = true) →
  ∃ m' changes, handle_timeouts states mine syncing now m = (m', Ok changes) ∧
    (∀ st, st ∈ states → m' !! ups_user_id st = (λ _, (timeout_of m st).1) <$> m !! ups_user_id st) ∧
    (∀ u, u ∉ ups_user_id <$> states → m' !! u = m !! u) ∧
    (∀ ns, ns ∈ changes ↔ ∃ st, st ∈ states ∧ (timeout_of m st).2 = Ok (Some ns)).
Proof.
  intros Hnd Hok.
  destruct (timeouts_loop_spec states ∅ m Hnd Hok) as (m' & ch & Hf & H1 & H2 & H3); [done|].
  exists m', (map_to_list ch).*2. split.
  { unfold handle_timeouts, st_bind at 1. rewrite Hf. done. }
  split_and!; [done|done|]. intros ns. rewrite list_elem_of_fmap. split.
  - intros ([u ns'] & -> & [?|(st & ? & _ & ?)]%elem_of_map_to_list%H3); [done|eauto].
  - intros (st & Hst & Hs). exists (ups_user_id st, ns). split; [done|].
    apply elem_of_map_to_list, H3. eauto 9.
Qed.
End timeouts.

(** ** One user *)

(** What [handle_timeout] does to a user: [o] is the new state, if there is one. *)
Inductive user_timeout (syncing : gset (string * option string)) (now : Z) (mine : bool)
    (st : UserPresenceState) (ds : device_map) : device_map → option UserPresenceState → Prop :=
  | timeout_offline : ups_state st = PresenceState.OFFLINE →
      user_timeout syncing now mine st ds ds None
  | timeout_local s' : mine = true → ups_state st ≠ PresenceState.OFFLINE →
      top_state (device_values (timeout_devices (ups_user_id st) syncing now ds)) s' →
      (prio s' ≤ prio (ups_state st))%Z →
      user_timeout syncing now mine st ds (timeout_devices (ups_user_id st) syncing now ds)
        (if decide (s' ≠ ups_state st ∨ refresh_due now st) then Some (with_state s' st) else None)
  | timeout_remote : mine = false → ups_state st ≠ PresenceState.OFFLINE →
      user_timeout syncing now mine st ds ds
        (if decide (FEDERATION_TIMEOUT < now - ups_last_federation_update_ts st)%Z
         then Some (with_state PresenceState.OFFLINE st) else None).

Lemma handle_timeout_user syncing now mine st ds :
  (mine = true → ups_state st ≠ PresenceState.OFFLINE → top_state (device_values ds) (ups_state st)) →
  ∃ ds' o, handle_timeout st mine syncing now ds = (ds', Ok o) ∧
    user_timeout syncing now mine st ds ds' o.
Proof.
  intros Htop. destruct (decide (ups_state st = PresenceState.OFFLINE)) as [Ho|Ho].
  { rewrite handle_timeout_offline by done. eexists _, _. split; [done|]. by constructor. }
  destruct mine.
  - destruct (handle_timeout_local st syncing now ds Ho (Htop eq_refl Ho)) as (s' & -> & ? & ?).
    eexists _, _. split; [done|]. by constructor.
  - rewrite handle_timeout_remote by done. eexists _, _. split; [done|]. by constructor.
Qed.

Lemma user_timeout_id syncing now mine st ds ds' ns :
  user_timeout syncing now mine st ds ds' (Some ns) → ups_user_id ns = ups_user_id st.
Proof. inversion 1; repeat case_decide; by simplify_eq/=. Qed.

Lemma user_timeout_no_devices syncing now mine st ds' o :
  user_timeout syncing now mine st ∅ ds' o → ds' = ∅.
Proof. inversion 1; subst; done. Qed.

(** ** The loop *)
Section tick.
Context (c : presence_config).
Hypothesis Henabled : _presence_enabled c = true.
Hypothesis Htrack : _track_presence c = true.

(** The parts of [_handle_timeouts] before the timeouts are handled. *)
Definition expired_of (now : Z) (h : PresenceHandler) : gset string :=
  expired_processes now (external_process_last_updated_ms h).
Definition after_expiry (now : Z) (h : PresenceHandler) : PresenceHandler :=
  set_external (filter (λ '(p, _), p ∉ expired_of now h) (external_process_to_current_syncs h))
    (filter (λ '(p, _), p ∉ expired_of now h) (external_process_last_updated_ms h))
    (set_wheel (wheel_fetch (wheel_timer h) now).2 h).
Definition users_to_check (now : Z) (h : PresenceHandler) : gset string :=
  list_to_set (wheel_fetch (wheel_timer h) now).1 ∪
  set_map fst (⋃ (map_to_list (filter (λ '(p, _), p ∈ expired_of now h)
                                 (external_process_to_current_syncs h))).*2 :
                 gset (string * option string)).

Definition state_of (h : PresenceHandler) (u : string) : UserPresenceState :=
  default (state_default u) (user_to_current_state h !! u).

Lemma handle_timeouts_eq now now' h :
  _handle_timeouts c now now' h =
  (let! changes := on_devices (handle_timeouts (state_of h <$> elements (users_to_check now h))
      (is_mine_id c) (syncing_user_devices (after_expiry now h)) now) in
   _update_states c changes false now') (after_expiry now h).
Proof.
  unfold _handle_timeouts, after_expiry, users_to_check, expired_of, on_wheel.
  unfold st_bind, st_get, st_modify.
  destruct (wheel_fetch (wheel_timer h) now) as [due w']. reflexivity.
Qed.

Lemma state_of_id remote U t h u : inv_except c remote U t h → ups_user_id (state_of h u) = u.
Proof.
  intros Hinv. unfold state_of. destruct (user_to_current_state h !! u) as [st|] eqn:Hc; [|done].
  by apply (inv_ids _ _ _ _ _ Hinv).
Qed.

Lemma state_of_top remote t h u :
  presence_inv c remote t h → is_mine_id c u = true →
  top_state (device_values (devices_of h u)) (ups_state (state_of h u)).
Proof.
  intros Hinv Hm. unfold state_of. destruct (user_to_current_state h !! u) as [st|] eqn:Hc;
    [|by apply (inv_unknown _ _ _ _ _ Hinv); [set_solver|..]].
  by apply (so_top _ _ _ (inv_state _ _ _ _ _ Hinv u st (not_elem_of_nil u) Hm Hc)).
Qed.

(** Everything a run of the loop at [now] does; [now'] is the time of the updates. *)
Record ticked (now now' : Z) (h h' : PresenceHandler) : Prop := {
  tk_fired u k : pending (wheel_timer h) u k → (k ≤ key now)%Z → u ∈ users_to_check now h;
  tk_kept u k : pending (wheel_timer h) u k → (key now < k)%Z → pending (wheel_timer h') u k;
  tk_other u : u ∉ users_to_check now h →
    user_to_current_state h' !! u = user_to_current_state h !! u ∧ devices_of h' u = devices_of h u;
  tk_checked u : u ∈ users_to_check now h → ∃ o,
    user_timeout (syncing_user_devices (after_expiry now h)) now (is_mine_id c u) (state_of h u)
      (devices_of h u) (devices_of h' u) o ∧
    match o with
    | None => user_to_current_state h' !! u = user_to_current_state h !! u
    | Some ns => (∃ prev, user_to_current_state h' !! u =
                    Some (update_result prev ns (is_mine_id c u) now').1.1) ∧
        ∀ th, th ∈ update_timers (is_mine_id c u) now' ns →
          has_timer now' (wheel_timer h') u th
    end;
  tk_syncing : syncing_user_devices h' = syncing_user_devices (after_expiry now h)
}.

(** The state after the timeouts and before the updates: every checked user went
    through [user_timeout], and [changes] has the new states. *)
Record timed_out (now : Z) (h h3 : PresenceHandler) (changes : list UserPresenceState) : Prop := {
  to_rest : user_to_current_state h3 = user_to_current_state h ∧
    presence_stream h3 = presence_stream h ∧
    wheel_timer h3 = (wheel_fetch (wheel_timer h) now).2 ∧
    external_process_to_current_syncs h3 =
      external_process_to_current_syncs (after_expiry now h) ∧
    syncing_user_devices h3 = syncing_user_devices (after_expiry now h);
  to_other u : u ∉ users_to_check now h → devices_of h3 u = devices_of h u;
  to_checked u : u ∈ users_to_check now h → ∃ o,
    user_timeout (syncing_user_devices (after_expiry now h)) now (is_mine_id c u) (state_of h u)
      (devices_of h u) (devices_of h3 u) o ∧
    ∀ ns, o = Some ns ↔ ns ∈ changes ∧ ups_user_id ns = u;
  to_changes ns : ns ∈ changes → ups_user_id ns ∈ users_to_check now h
}.

Lemma timeouts_run remote t now h :
  presence_inv c remote t h →
  ∃ h3 changes, on_devices (handle_timeouts (state_of h <$> elements (users_to_check now h))
      (is_mine_id c) (syncing_user_devices (after_expiry now h)) now) (after_expiry now h) =
    (h3, Ok changes) ∧ timed_out now h h3 changes.
Proof.
  intros Hinv. set (syn := syncing_user_devices _). set (us := users_to_check now h).
  assert (ups_user_id <$> (state_of h <$> elements us) = elements us) as Hids.
  { rewrite <- list_fmap_compose. rewrite <- (list_fmap_id (elements us)) at 2.
    apply list_fmap_ext. intros i u _. by eapply state_of_id. }
  pose (m := _user_to_device_to_current_state h).
  assert (∀ u, ∃ ds' o, timeout_of (is_mine_id c) syn now m (state_of h u) = (ds', Ok o) ∧
    user_timeout syn now (is_mine_id c u) (state_of h u) (devices_of h u) ds' o) as Hto.
  { intros u. unfold timeout_of. rewrite (state_of_id _ _ _ _ u Hinv).
    apply handle_timeout_user. intros Hm _. by apply (state_of_top _ _ _ _ Hinv). }
  destruct (handle_timeouts_spec (is_mine_id c) syn now (state_of h <$> elements us) m)
    as (m' & changes & Hh & H1 & H2 & H3).
  { rewrite Hids. apply NoDup_elements. }
  { intros st (u & -> & _)%list_elem_of_fmap. by destruct (Hto u) as (? & ? & -> & _). }
  exists (set_devices (λ _, m') (after_expiry now h)), changes.
  split; [unfold on_devices; change (_user_to_device_to_current_state (after_expiry now h)) with m;
    by rewrite Hh|].
  assert (∀ u, u ∈ us → state_of h u ∈ state_of h <$> elements us) as Hin.
  { intros u Hu. apply list_elem_of_fmap. exists u. split; [done|]. by apply elem_of_elements. }
  split; [done| | |].
  - intros u Hu. unfold devices_of. simpl. rewrite H2; [done|].
    rewrite Hids. by rewrite elem_of_elements.
  - intros u Hu. destruct (Hto u) as (ds' & o & Ht & Hut). exists o. split.
    + pose proof (H1 _ (Hin u Hu)) as Hm'. rewrite (state_of_id _ _ _ _ u Hinv), Ht in Hm'.
      assert (devices_of (set_devices (λ _, m') (after_expiry now h)) u = ds') as ->; [|done].
      unfold devices_of. simpl. rewrite Hm'. unfold devices_of in Hut. fold m in Hut.
      destruct (m !! u); [done|]. simpl in *. by apply user_timeout_no_devices in Hut.
    + intros ns. rewrite H3. split.
      * intros ->. split; [exists (state_of h u); rewrite Ht; auto|].
        rewrite (user_timeout_id _ _ _ _ _ _ _ Hut). by eapply state_of_id.
      * intros [(st & (v & -> & Hv)%list_elem_of_fmap & Hs) Hid].
        destruct (Hto v) as (ds2 & o2 & Ht2 & Hut2). rewrite Ht2 in Hs. cbn [snd] in Hs.
        injection Hs as ->. assert (v = u) as ->; [|congruence].
        by rewrite <- (state_of_id _ _ _ _ v Hinv), <- (user_timeout_id _ _ _ _ _ _ _ Hut2).
  - intros ns (st & (v & -> & Hv)%list_elem_of_fmap & Hs)%H3.
    destruct (Hto v) as (ds2 & o2 & Ht2 & Hut2). rewrite Ht2 in Hs. cbn [snd] in Hs.
    injection Hs as ->. rewrite (user_timeout_id _ _ _ _ _ _ _ Hut2), (state_of_id _ _ _ _ v Hinv).
    by apply elem_of_elements.
Qed.

(** ** The invariant after the timeouts *)
Lemma wheel_fetch_at remote U t now h :
  inv_except c remote U t h → (t ≤ now)%Z →
  wheel_at now (wheel_fetch (wheel_timer h) now).2 ∧
  (∀ u k, pending (wheel_timer h) u k → (k ≤ key now)%Z → u ∈ (wheel_fetch (wheel_timer h) now).1) ∧
  (∀ u k, pending (wheel_fetch (wheel_timer h) now).2 u k ↔
     pending (wheel_timer h) u k ∧ (key now < k)%Z).
Proof.
  intros Hinv Hle. destruct (inv_wheel _ _ _ _ _ Hinv) as [Hok Hsz Hf].
  destruct (wheel_fetch (wheel_timer h) now) as [due w'] eqn:Hfe.
  destruct (wheel_fetch_spec _ _ _ _ Hok Hfe) as (Hok' & Hb & Hfk & Hr & Hp).
  assert (∀ x, bucket_key (wheel_timer h) x = key x) as Hk
    by (intros; unfold bucket_key; by rewrite Hsz).
  pose proof (key_mono _ _ Hle) as Hkey. setoid_rewrite Hk in Hr. setoid_rewrite Hk in Hp.
  rewrite Hk in Hfk. simpl. split_and!.
  - split; [done|by rewrite Hb|]. intros Hne. specialize (Hfk Hne).
    destruct (decide (entries (wheel_timer h) = [])) as [He|He]; [|specialize (Hf He); lia].
    unfold wheel_fetch in Hfe. rewrite He in Hfe. simpl in Hfe. by simplify_eq.
  - intros u k Hpe Hle'. apply Hr. eauto.
  - done.
Qed.

Lemma timeout_devices_ok t u syn now ds : devices_ok t ds → devices_ok t (timeout_devices u syn now ds).
Proof. intros [? ?]. split; [by apply timeout_valid|by apply timeout_devices_all]. Qed.

(** The state of a local user after the timeouts, changed or not, fits the devices. *)
Lemma user_timeout_ok t syn now st ds ds' o :
  user_timeout syn now true st ds ds' o → state_ok t ds st →
  state_ok t ds' (default st o).
Proof.
  intros Hut [Ha Ht Hr]. inversion Hut as [Ho|s' _ Ho Htop Hle|]; subst; [done| |done].
  assert (state_ok t (timeout_devices (ups_user_id st) syn now ds) (with_state s' st)) as Hok.
  { split; simpl; [done|done|]. intros Haw. apply timeout_devices_all; [done|]. apply Hr.
    destruct Ht as (Hv & _). apply valid_state_cases in Hv.
    destruct Hv as [Hb|[Hon|[Hun|Hoff]]]; [by right|by left| |done]. exfalso.
    rewrite Hun in Hle. by destruct Haw as [-> | ->]. }
  case_decide as Hd; [done|]. simpl.
  assert (s' = ups_state st) as -> by (destruct (decide (s' = ups_state st)); naive_solver).
  by rewrite with_state_id in Hok.
Qed.

(** A user that stays as it is has time left. *)
Lemma user_timeout_deadline syn now mine st ds ds' th :
  user_timeout syn now mine st ds ds' None → deadline mine st = Some th → (now ≤ th)%Z.
Proof.
  unfold deadline. intros Hut. inversion Hut as [Ho|s' Hm Ho Htop Hle Hd|Hm Ho Hd]; subst.
  - destruct mine; case_decide as Hx; try done. by rewrite Ho in Hx.
  - destruct (decide (ups_state st = PresenceState.ONLINE)); [|done]. intros [= <-].
    repeat case_decide; try done. unfold refresh_due, LAST_ACTIVE_GRANULARITY, IDLE_TIMER in *. lia.
  - rewrite decide_False by done. intros [= <-]. case_decide; [done|].
    unfold FEDERATION_TIMEOUT in *. lia.
Qed.

Lemma due_checked now h u : u ∈ (wheel_fetch (wheel_timer h) now).1 → u ∈ users_to_check now h.
Proof. intros Hu. unfold users_to_check. set_solver. Qed.

Lemma state_of_some h u st : user_to_current_state h !! u = Some st → state_of h u = st.
Proof. intros Hc. unfold state_of. by rewrite Hc. Qed.

Lemma state_of_ok remote t h u :
  presence_inv c remote t h → is_mine_id c u = true → state_ok t (devices_of h u) (state_of h u).
Proof.
  intros Hinv Hm. unfold state_of. destruct (user_to_current_state h !! u) as [st|] eqn:Hc.
  - by apply (inv_state _ _ _ _ _ Hinv u st); [set_solver|..].
  - pose proof (inv_time _ _ _ _ _ Hinv). split; [simpl; lia| |by intros [|]].
    by apply (inv_unknown _ _ _ _ _ Hinv); [set_solver|..].
Qed.

Lemma timed_out_unchanged now h h3 changes u :
  timed_out now h h3 changes → u ∈ users_to_check now h → u ∉ ups_user_id <$> changes →
  user_timeout (syncing_user_devices (after_expiry now h)) now (is_mine_id c u) (state_of h u)
    (devices_of h u) (devices_of h3 u) None.
Proof.
  intros Hto Hu Hn. destruct (to_checked _ _ _ _ Hto u Hu) as ([ns|] & Hut & Ho); [|done].
  destruct (proj1 (Ho ns) eq_refl) as [Hns <-]. destruct Hn. by apply list_elem_of_fmap_2.
Qed.

Lemma timed_out_inv remote t now h h3 changes :
  presence_inv c remote t h → (t ≤ now)%Z → timed_out now h h3 changes →
  inv_except c remote (ups_user_id <$> changes) now h3.
Proof.
  intros Hinv Hle Hto.
  destruct (wheel_fetch_at _ _ _ _ _ Hinv Hle) as (Hw & Hfire & Hkept).
  destruct (to_rest _ _ _ _ Hto) as (EC & ER & EW & EE & _).
  pose proof (inv_mono _ _ _ _ _ _ Hinv Hle) as Hinv'.
  split; rewrite ?EC, ?ER, ?EW; try (by apply Hinv').
  - done.
  - intros u Hm. pose proof (inv_devices _ _ _ _ _ Hinv' u Hm) as Hd.
    destruct (decide (u ∈ users_to_check now h)) as [Hu|Hu]; [|by rewrite (to_other _ _ _ _ Hto)].
    destruct (to_checked _ _ _ _ Hto u Hu) as (o & Hut & _).
    inversion Hut; auto using timeout_devices_ok.
  - intros u st Hn Hm Hc. pose proof (state_of_ok _ _ _ _ Hinv' Hm) as Hok.
    destruct (decide (u ∈ users_to_check now h)) as [Hu|Hu].
    + pose proof (timed_out_unchanged _ _ _ _ _ Hto Hu Hn) as Hut.
      rewrite Hm, (state_of_some _ _ _ Hc) in *. exact (user_timeout_ok _ _ _ _ _ _ _ Hut Hok).
    + rewrite (to_other _ _ _ _ Hto) by done. by rewrite <- (state_of_some _ _ _ Hc).
  - intros u st th Hn Hmr Hc Hd.
    destruct (inv_timer _ _ _ _ _ Hinv' u st th ltac:(set_solver) Hmr Hc Hd) as (k & Hk & Hb).
    exists k. split; [|done]. apply Hkept. split; [done|].
    destruct (decide (key now < k)%Z) as [|Hlt]; [done|].
    assert (u ∈ users_to_check now h) as Hu.
    { apply due_checked. eapply Hfire; [done|lia]. }
    pose proof (timed_out_unchanged _ _ _ _ _ Hto Hu Hn) as Hut.
    rewrite (state_of_some _ _ _ Hc) in Hut.
    pose proof (key_mono _ _ (user_timeout_deadline _ _ _ _ _ _ _ Hut Hd)). lia.
  - intros u st Hu Hc Hm. pose proof (state_of_ok _ _ _ _ Hinv' Hm) as [Ha _ _].
    by rewrite (state_of_some _ _ _ Hc) in Ha.
  - rewrite EE. intros p S u id [Hp _]%map_lookup_filter_Some.
    exact (inv_external _ _ _ _ _ Hinv p S u id Hp).
  - intros u _ Hm Hno. assert (devices_of h3 u = devices_of h u) as ->.
    { destruct (decide (u ∈ users_to_check now h)) as [Hu|Hu]; [|by apply (to_other _ _ _ _ Hto)].
      destruct (to_checked _ _ _ _ Hto u Hu) as (o & Hut & _). unfold state_of in Hut. rewrite Hno in Hut.
      by inversion Hut. }
    apply (inv_unknown _ _ _ _ _ Hinv); [set_solver|done..].
Qed.

Lemma timed_out_news remote t now now' h h3 changes ns :
  presence_inv c remote t h → (t ≤ now')%Z → timed_out now h h3 changes → ns ∈ changes →
  news_ok c remote now' h3 ns.
Proof.
  intros Hinv Hle Hto Hns. pose proof (to_changes _ _ _ _ Hto ns Hns) as Hu.
  destruct (to_checked _ _ _ _ Hto _ Hu) as (o & Hut & Ho).
  assert (o = Some ns) as -> by (by apply Ho). split.
  - intros Hm. rewrite Hm in Hut.
    apply (state_ok_mono t); [|lia].
    exact (user_timeout_ok _ _ _ _ _ _ _ Hut (state_of_ok _ _ _ _ Hinv Hm)).
  - intros Hm _ Hoff. rewrite Hm in Hut. inversion Hut as [| |? ? Hx Hd]; [done|].
    case_decide; [|done]. injection Hd as Heq. apply (f_equal ups_state) in Heq. simpl in Heq.
    congruence.
Qed.

(** [_handle_timeouts] never raises, keeps the invariant, and does what [ticked] says. *)
Theorem tick_spec remote t now now' h :
  presence_inv c remote t h → (t ≤ now ≤ now')%Z →
  ∃ h', _handle_timeouts c now now' h = (h', Ok tt) ∧ presence_inv c remote now' h' ∧
    ticked now now' h h'.
Proof.
  intros Hinv [Hle Hle']. rewrite handle_timeouts_eq.
  destruct (timeouts_run remote t now h Hinv) as (h3 & changes & Hrun & Hto).
  unfold st_bind. rewrite Hrun.
  pose proof (timed_out_inv _ _ _ _ _ _ Hinv Hle Hto) as Hinv3.
  destruct (update_states_inv c Henabled Htrack remote _ false now' changes h3
    (inv_mono _ _ _ _ _ _ Hinv3 Hle')) as (h' & Hu & Hinv' & Hup); [done| |].
  { intros ns Hns. eapply timed_out_news; [done|lia|done|done]. }
  exists h'. split_and!; [done|done|].
  destruct (wheel_fetch_at _ _ _ _ _ Hinv Hle) as (_ & Hfire & Hkept).
  destruct (to_rest _ _ _ _ Hto) as (EC & _ & EW & _ & ES).
  destruct (up_rest _ _ _ _ _ Hup) as (ED & EN & EE & _).
  destruct (last_states_spec changes) as (_ & Hsub & Hcov).
  assert (∀ u, u ∉ ups_user_id <$> changes → u ∉ ups_user_id <$> last_states changes) as Hnl.
  { intros u Hn (ns & -> & Hns)%list_elem_of_fmap. apply Hn, list_elem_of_fmap_2. auto. }
  assert (∀ u, devices_of h' u = devices_of h3 u) as Hdev
    by (intros; unfold devices_of; by rewrite ED).
  split.
  - intros u k Hp Hk. apply due_checked. by eapply Hfire.
  - intros u k Hp Hk. apply (up_kept _ _ _ _ _ Hup). rewrite EW. by apply Hkept.
  - intros u Hn. rewrite Hdev, (to_other _ _ _ _ Hto) by done. split; [|done].
    rewrite (up_other _ _ _ _ _ Hup), EC; [done|]. apply Hnl.
    intros (ns & -> & Hns)%list_elem_of_fmap. by apply Hn, (to_changes _ _ _ _ Hto).
  - intros u Hin. destruct (to_checked _ _ _ _ Hto u Hin) as (o & Hut & Ho). exists o.
    rewrite Hdev. split; [done|]. destruct o as [ns|].
    + destruct (proj1 (Ho ns) eq_refl) as [Hns Hid]. pose proof (Hcov ns Hns) as
        (ns' & Hid' & Hns')%list_elem_of_fmap.
      assert (ns' = ns) as ->.
      { assert (Some ns = Some ns') as Heq; [|by injection Heq].
        apply Ho. split; [by apply Hsub|congruence]. }
      split; [destruct (up_new _ _ _ _ _ Hup ns Hns') as [prev Hp]; exists prev; by rewrite Hid in Hp|].
      intros th Hth. pose proof (up_timers _ _ _ _ _ Hup ns th Hns') as Ht. rewrite Hid in Ht. exact (Ht Hth).
    + rewrite (up_other _ _ _ _ _ Hup), EC; [done|]. apply Hnl.
      intros (ns & -> & Hns)%list_elem_of_fmap. discriminate (proj2 (Ho ns) (conj Hns eq_refl)).
  - rewrite <- ES. unfold syncing_user_devices. by rewrite EN, EE.
Qed.


(** The loop leaves a user alone that is offline. *)
Lemma offline_stays now now' h h' u st :
  ticked now now' h h' → user_to_current_state h !! u = Some st →
  ups_state st = PresenceState.OFFLINE → user_to_current_state h' !! u = Some st.
Proof.
  intros [_ _ Hot Hch _] Hst Hoff. destruct (decide (u ∈ users_to_check now h)) as [Hu|Hu].
  - destruct (Hch u Hu) as (o & Hut & Ho). rewrite (state_of_some _ _ _ Hst) in Hut.
    assert (o = None) as -> by (by inversion Hut). by rewrite Ho.
  - by destruct (Hot u Hu) as [-> _].
Qed.

End tick.
