(* ===== verification/PresenceLive.v ===== *)
(** Histories of the presence writer: start-up, every handler, restarts.  The
    invariant holds throughout, so users that stop interacting are timed out;
    and runs in which they are not. *)
From S2P Require Import Prelude Identifiers WheelTimer WheelTimerProps Presence PresenceProps PresenceSystem PresenceSteps PresenceTick.

(** ** Start-up *)

(** The rows of the table: what a writer stores. *)
Definition rows_ok (c : presence_config) (t : Z) (rows : gmap string UserPresenceState) : Prop :=
  ∀ u st, rows !! u = Some st → ups_user_id st = u ∧
    (is_mine_id c u = true → (0 ≤ ups_last_active_ts st ≤ t)%Z ∧ valid_state (ups_state st)).

Section startup.
Context (c : presence_config).

Definition pseudo_device (st : UserPresenceState) : device_map :=
  {[None := mkDevice (ups_user_id st) None (ups_state st)
              (ups_last_active_ts st) (ups_last_user_sync_ts st)]}.

(** The timers set at start-up. *)
Definition startup_timers (st : UserPresenceState) : list Z :=
  [ups_last_active_ts st + IDLE_TIMER; ups_last_user_sync_ts st + SYNC_ONLINE_TIMEOUT;
   ups_last_federation_update_ts st +
   (if is_mine_id c (ups_user_id st) then FEDERATION_PING_INTERVAL else FEDERATION_TIMEOUT)]%Z.

Lemma timers_insert t u ths th w w1 :
  timers_set t u ths w w1 →
  ∃ w2, wheel_insert w1 t u th = Ok w2 ∧ timers_set t u (ths ++ [th]) w w2.
Proof.
  intros Hs. destruct (timers_set_snoc t u ths th w w1 Hs) as (w2 & Ht & Hs2). exists w2.
  split; [|done]. unfold timer in Ht. destruct (wheel_insert w1 t u th); by simplify_eq.
Qed.

Lemma startup_user_spec now h st :
  wheel_at now (wheel_timer h) →
  ∃ h', startup_user c now h st = Ok h' ∧
    timers_set now (ups_user_id st) (startup_timers st) (wheel_timer h) (wheel_timer h') ∧
    h' = set_wheel (wheel_timer h') (set_devices (<[ups_user_id st:=pseudo_device st]>) h).
Proof.
  intros Hw. pose proof (timers_set_nil now (ups_user_id st) _ Hw) as H0.
  unfold startup_user. simpl.
  destruct (timers_insert _ _ _ (ups_last_active_ts st + IDLE_TIMER) _ _ H0) as (w1 & -> & H1). simpl.
  destruct (timers_insert _ _ _ (ups_last_user_sync_ts st + SYNC_ONLINE_TIMEOUT) _ _ H1)
    as (w2 & -> & H2). simpl.
  destruct (timers_insert _ _ _ (ups_last_federation_update_ts st +
     (if is_mine_id c (ups_user_id st) then FEDERATION_PING_INTERVAL else FEDERATION_TIMEOUT))
     _ _ H2) as (w3 & -> & H3). simpl.
  eexists. split; [done|]. split; [exact H3|done].
Qed.

Lemma startup_loop now l h :
  wheel_at now (wheel_timer h) → NoDup (ups_user_id <$> l) →
  ∃ h', fold_res (startup_user c now) l h = Ok h' ∧ wheel_at now (wheel_timer h') ∧
    (∀ u k, pending (wheel_timer h) u k → pending (wheel_timer h') u k) ∧
    (∀ st th, st ∈ l → th ∈ startup_timers st → has_timer now (wheel_timer h') (ups_user_id st) th) ∧
    (∀ st, st ∈ l → devices_of h' (ups_user_id st) = pseudo_device st) ∧
    (∀ u, u ∉ ups_user_id <$> l → devices_of h' u = devices_of h u) ∧
    user_to_current_state h' = user_to_current_state h ∧ presence_stream h' = presence_stream h ∧
    external_process_to_current_syncs h' = external_process_to_current_syncs h.
Proof.
  revert h. induction l as [|st l IH]; intros h Hw Hnd; cbn [fold_res].
  { exists h. split_and!; try done; set_solver. }
  apply NoDup_cons in Hnd as [Hst Hnd].
  destruct (startup_user_spec now h st Hw) as (h1 & -> & [Hw1 Hk1 _ Ht1] & E1). cbn [mbind result_bind].
  destruct (IH h1 Hw1 Hnd) as (h2 & -> & Hw2 & Hk2 & Ht2 & Hd2 & Ho2 & EC & ER & EE).
  assert (∀ u, devices_of h1 u = if decide (u = ups_user_id st) then pseudo_device st else devices_of h u) as Hd1.
  { intros u. rewrite E1. unfold devices_of. simpl. case_decide; subst;
      [by rewrite lookup_insert_eq|by rewrite lookup_insert_ne]. }
  exists h2. split_and!; [done|done|auto| | | | | |].
  - intros st' th [->|Hin]%elem_of_cons Hth; [|eauto].
    destruct (Ht1 th Hth) as (k & ? & ?). exists k. auto.
  - intros st' [->|Hin]%elem_of_cons; [|auto]. by rewrite Ho2, Hd1, decide_True by done.
  - intros u [Hne Hn]%not_elem_of_cons. by rewrite Ho2, Hd1, decide_False by done.
  - rewrite EC, E1. done.
  - rewrite ER, E1. done.
  - rewrite EE, E1. done.
Qed.

(** The states loaded at start-up. *)
Definition loaded (rows : gmap string UserPresenceState) : gmap string UserPresenceState :=
  foldl (λ m s, <[ups_user_id s:=s]> m) ∅
    (filter (λ s, ups_state s ≠ PresenceState.OFFLINE) (map_to_list rows).*2).

Lemma loaded_lookup rows u st :
  (∀ u st, rows !! u = Some st → ups_user_id st = u) →
  loaded rows !! u = Some st ↔ rows !! u = Some st ∧ ups_state st ≠ PresenceState.OFFLINE.
Proof.
  intros Hid. unfold loaded. set (l := filter _ _).
  assert (∀ s, s ∈ l ↔ rows !! ups_user_id s = Some s ∧ ups_state s ≠ PresenceState.OFFLINE) as Hl.
  { intros s. unfold l. rewrite list_elem_of_filter, list_elem_of_fmap. split.
    - intros [? ([v s'] & -> & Hin%elem_of_map_to_list)]. simpl in *. by rewrite (Hid _ _ Hin).
    - intros [Hr ?]. split; [done|]. exists (ups_user_id s, s). split; [done|].
      by apply elem_of_map_to_list. }
  clearbody l. split.
  - intros [?|[Hin Hu]]%update_rows_lookup; [done|]. apply Hl in Hin as [Hr ?]. by rewrite Hu in Hr.
  - intros [Hr Hs]. assert (st ∈ l) as Hin by (apply Hl; by rewrite (Hid _ _ Hr)).
    assert (∀ s, s ∈ l → ups_user_id s = u → s = st) as Huniq.
    { intros s [Hr' _]%Hl <-. congruence. }
    pose proof (Hid _ _ Hr) as Hu. clear Hl Hr Hs Hid rows.
    assert (∀ (m : gmap string UserPresenceState), (st ∈ l ∨ m !! u = Some st) →
      foldl (λ m s, <[ups_user_id s:=s]> m) m l !! u = Some st) as Hgen; [|apply Hgen; auto].
    clear Hin. induction l as [|s l IH]; intros m Hm; simpl; [by destruct Hm as [?%not_elem_of_nil|]|].
    apply IH; [intros s' Hs'; apply Huniq; by right|].
    destruct (decide (ups_user_id s = u)) as [He|He].
    + right. rewrite (Huniq s ltac:(by left) He), Hu. apply lookup_insert_eq.
    + destruct Hm as [[->|?]%elem_of_cons|?]; [done|by left|right; by rewrite lookup_insert_ne].
Qed.

Lemma pseudo_device_ok t st :
  (0 ≤ ups_last_active_ts st ≤ t)%Z → valid_state (ups_state st) →
  devices_ok t (pseudo_device st) ∧ state_ok t (pseudo_device st) st.
Proof.
  intros Ha Hv. assert (∀ P : UserDevicePresenceState → Prop, P (mkDevice (ups_user_id st) None
    (ups_state st) (ups_last_active_ts st) (ups_last_user_sync_ts st)) → all_devices P (pseudo_device st)) as Hall.
  { intros P HP id d Hd. unfold pseudo_device in Hd. by apply lookup_singleton_Some in Hd as [_ <-]. }
  split; [split; by apply Hall|]. split; [done| |].
  - apply top_state_map. split; [done|]. split; [|apply Hall; done].
    right. eexists None, _. unfold pseudo_device. by rewrite lookup_singleton_eq.
  - intros _. apply Hall. simpl. lia.
Qed.

Hypothesis Htrack : _track_presence c = true.

(** A writer starts, and in a good state. *)
Lemma init_inv now rows :
  rows_ok c now rows → (0 ≤ now)%Z →
  ∃ h, init_handler c now rows = Ok h ∧ presence_inv c true now h.
Proof.
  intros Hrows H0. unfold init_handler. rewrite Htrack. fold (loaded rows).
  set (h0 := mkHandler _ _ _ _ _ _ _ _ _).
  assert (∀ u st, loaded rows !! u = Some st ↔
    rows !! u = Some st ∧ ups_state st ≠ PresenceState.OFFLINE) as Hload.
  { intros u st. apply loaded_lookup. intros v st' Hr. by apply Hrows. }
  assert (∀ u st, loaded rows !! u = Some st → ups_user_id st = u) as Hids.
  { intros u st [Hr _]%Hload. by apply Hrows. }
  assert (ups_user_id <$> (map_to_list (loaded rows)).*2 = (map_to_list (loaded rows)).*1) as Hfst.
  { rewrite <- list_fmap_compose. apply list_fmap_ext. intros i [u st] Hi. simpl.
    apply Hids, elem_of_map_to_list. by eapply list_elem_of_lookup_2. }
  assert (∀ u st, loaded rows !! u = Some st → st ∈ (map_to_list (loaded rows)).*2) as Hin.
  { intros u st Hl. apply list_elem_of_fmap. exists (u, st). split; [done|]. by apply elem_of_map_to_list. }
  destruct (startup_loop now (map_to_list (loaded rows)).*2 h0)
    as (h & -> & Hw & _ & Ht & Hd & Ho & EC & ER & EE).
  { split; [by apply new_wheel_ok|done|done]. }
  { rewrite Hfst. apply NoDup_fst_map_to_list. }
  exists h. split; [done|]. simpl in EC, ER, EE.
  assert (∀ u st, loaded rows !! u = Some st → devices_of h u = pseudo_device st) as Hdev.
  { intros u st Hl. by rewrite <- (Hids _ _ Hl), (Hd _ (Hin _ _ Hl)). }
  split; rewrite ?EC, ?ER, ?EE; try done.
  - intros u Hm. destruct (loaded rows !! u) as [st|] eqn:Hl.
    + rewrite (Hdev _ _ Hl). apply Hload in Hl as [Hr _]. destruct (Hrows u st Hr) as [_ Hok].
      destruct (Hok Hm). by apply pseudo_device_ok.
    + rewrite Ho; [by split|]. rewrite Hfst. intros ([v st] & -> & Hv%elem_of_map_to_list)%list_elem_of_fmap.
      simpl in *. congruence.
  - intros u st _ Hm Hl. rewrite (Hdev _ _ Hl). apply Hload in Hl as [Hr _].
    destruct (Hrows u st Hr) as [_ Hok]. destruct (Hok Hm). by apply pseudo_device_ok.
  - intros u st th _ _ Hl Hdl. pose proof (Ht st th (Hin _ _ Hl)) as Hth.
    rewrite (Hids _ _ Hl) in Hth. apply Hth. unfold startup_timers, deadline in *.
    rewrite (Hids _ _ Hl). destruct (is_mine_id c u); case_decide; simplify_eq; set_solver.
  - intros u st Hr. destruct (Hrows u st Hr) as [? ?]. split_and!; [done|done|].
    intros Hn. destruct (decide (ups_state st = PresenceState.OFFLINE)); [done|].
    assert (loaded rows !! u = Some st) as ?; [by apply Hload|congruence].
  - intros u st Hu. by apply not_elem_of_nil in Hu.
  - intros u _ Hm Hn. rewrite Ho; [by apply top_state_map; split_and!; [unfold valid_state; set_solver|left|]|].
    rewrite Hfst. intros ([v st] & -> & Hv%elem_of_map_to_list)%list_elem_of_fmap. simpl in *. congruence.
Qed.
End startup.

(** ** Steps *)
Inductive presence_op :=
  | OpTick (now now' : Z)
  | OpBump (now now' : Z) (u : string) (id : option string)
  | OpSetState (now now' : Z) (u : string) (id : option string) (presence : string)
      (status_msg : option string) (force_notify is_sync : bool)
  | OpSyncStart (now now' : Z) (u : string) (id : option string) (affect_presence : bool)
      (presence : string)
  | OpSyncEnd (now now' : Z) (u : string) (id : option string)
  | OpExternalRow (now now' : Z) (p u : string) (id : option string) (is_syncing : bool)
      (sync_time_msec : Z)
  | OpExternalClear (now now' : Z) (p : string)
  | OpIncoming (now now' : Z) (origin : string) (push : list presence_content)
  | OpFullPresence (now now' : Z) (us : list string)
  | OpRead (us : list string)
  | OpPersist
  | OpRestart (now : Z).

(** The readings of the clock in a step that starts at [t]. *)
Definition op_times (t : Z) (o : presence_op) : Z * Z :=
  match o with
  | OpTick now now' | OpBump now now' _ _ | OpSetState now now' _ _ _ _ _ _
  | OpSyncStart now now' _ _ _ _ | OpSyncEnd now now' _ _ | OpExternalRow now now' _ _ _ _ _
  | OpExternalClear now now' _ | OpIncoming now now' _ _
  | OpFullPresence now now' _ => (now, now')
  | OpRead _ | OpPersist => (t, t)
  | OpRestart now => (now, now)
  end.

(** The handler after a step; a restarted one starts from the table. *)
Definition run_op (c : presence_config) (o : presence_op) (h : PresenceHandler) : PresenceHandler :=
  match o with
  | OpTick now now' => (_handle_timeouts c now now' h).1
  | OpBump now now' u id => (bump_presence_active_time c now now' u id h).1
  | OpSetState now now' u id presence status_msg force_notify is_sync =>
      (set_state c now now' u id presence status_msg force_notify is_sync h).1
  | OpSyncStart now now' u id affect presence =>
      (user_syncing c now now' u id affect presence h).1
  | OpSyncEnd now now' u id => (user_sync_end c now now' u id h).1
  | OpExternalRow now now' p u id is_syncing ts =>
      (update_external_syncs_row c now now' p u id is_syncing ts h).1
  | OpExternalClear now now' p => (update_external_syncs_clear c now now' p h).1
  | OpIncoming now now' origin push => (incoming_presence c now now' origin push h).1
  | OpFullPresence now now' us => (send_full_presence_to_users c now now' us h).1
  | OpRead us => (current_state_for_users us h).1
  | OpPersist => (_persist_unpersisted_changes h).1
  | OpRestart now => match init_handler c now (presence_stream h) with Ok h' => h' | Raise _ => h end
  end.

(** The handlers that set the presence of a user are called for local users, the
    federation one for updates of other servers.  With [remote], the two readings
    of the clock in [incoming_presence] also fall into the same bucket of the
    wheel (after the timeout). *)
Definition op_ok (c : presence_config) (remote : bool) (t : Z) (o : presence_op) : Prop :=
  (t ≤ (op_times t o).1 ≤ (op_times t o).2)%Z ∧
  match o with
  | OpBump _ _ u _ | OpSetState _ _ u _ _ _ _ _ | OpSyncStart _ _ u _ _ _ | OpSyncEnd _ _ u _
  | OpExternalRow _ _ _ u _ _ _ => is_mine_id c u = true
  | OpIncoming now now' origin _ => origin ≠ hostname c ∧
      (remote = true → key (now + FEDERATION_TIMEOUT) = key (now' + FEDERATION_TIMEOUT))
  | OpFullPresence _ _ us => Forall (λ u, is_mine_id c u = true) us
  | _ => True
  end.

Inductive reachable (c : presence_config) (remote : bool) : Z → PresenceHandler → Prop :=
  | reach_init now rows h :
      rows_ok c now rows → (0 ≤ now)%Z → init_handler c now rows = Ok h → reachable c remote now h
  | reach_step t h o :
      reachable c remote t h → op_ok c remote t o →
      reachable c remote (op_times t o).2 (run_op c o h).

Section reach.
Context (c : presence_config).
Hypothesis Henabled : _presence_enabled c = true.
Hypothesis Htrack : _track_presence c = true.

Lemma inv_weaken_remote remote t h : presence_inv c true t h → presence_inv c remote t h.
Proof. intros []. split; auto. intros u st th Hu _. by apply inv_timer; auto. Qed.

Lemma restart_inv remote t now h :
  presence_inv c remote t h → (t ≤ now)%Z →
  presence_inv c remote now
    (match init_handler c now (presence_stream h) with Ok h' => h' | Raise _ => h end).
Proof.
  intros Hinv Hle. destruct (init_inv c Htrack now (presence_stream h)) as (h' & -> & Hinv').
  - intros u st Hr. destruct (inv_rows _ _ _ _ _ Hinv u st Hr) as (? & Hok & _).
    split; [done|]. intros Hm. destruct (Hok Hm). split; [lia|done].
  - pose proof (inv_time _ _ _ _ _ Hinv). lia.
  - by apply inv_weaken_remote.
Qed.

Lemma step_inv remote t h o :
  presence_inv c remote t h → op_ok c remote t o →
  presence_inv c remote (op_times t o).2 (run_op c o h).
Proof.
  intros Hinv [Ht Ho]. destruct o as [| | | | | | | |? ? us|us| |]; simpl in *.
  - destruct (tick_spec c Henabled Htrack remote t now now' h Hinv Ht) as (h' & -> & ? & _). done.
  - destruct (bump_inv c Henabled Htrack remote t now now' u id h Hinv Ho Ht) as (h' & -> & ?). done.
  - destruct (set_state_inv c Henabled Htrack remote t now now' u id presence status_msg
      force_notify is_sync h Hinv Ho Ht) as (h' & -> & ?). done.
  - by apply (user_syncing_inv c Henabled Htrack remote t).
  - by apply (user_sync_end_inv c Henabled Htrack remote t).
  - destruct (external_row_inv c Henabled Htrack remote t now now' p u id is_syncing sync_time_msec h
      Hinv Ho Ht) as (h' & -> & ? & _). done.
  - destruct (external_clear_inv c Henabled Htrack remote t now now' p h Hinv Ht) as (h' & -> & ?). done.
  - destruct Ho. by apply (incoming_inv c Henabled Htrack remote t).
  - by apply (full_presence_inv c Henabled Htrack remote t).
  - destruct (current_states_spec c _ _ _ _ us Hinv) as (h' & res & -> & Hr & _).
    by eapply reads_inv.
  - by apply persist_inv.
  - apply (restart_inv remote t); [done|lia].
Qed.

Lemma reachable_inv remote t h : reachable c remote t h → presence_inv c remote t h.
Proof.
  induction 1 as [now rows h Hr H0 Hi|t h o _ IH Ho]; [|by apply step_inv].
  destruct (init_inv c Htrack now rows Hr H0) as (h' & Hi' & Hinv).
  apply inv_weaken_remote. by rewrite Hi in Hi'; injection Hi' as ->.
Qed.
End reach.
