(* ===== verification/PresenceOffline.v ===== *)
(** Users go offline: the theorems about presence over whole histories, and the
    runs in which a user is never looked at again. *)
From S2P Require Import Prelude Identifiers WheelTimer WheelTimerProps Presence PresenceProps PresenceSystem PresenceSteps PresenceTick PresenceLive.

(** ** Only the timer loop takes timers away *)
Definition wheel_grows (w w' : WheelTimer string) : Prop :=
  wheel_ok w → wheel_ok w' ∧ ∀ u k, pending w u k → pending w' u k.

Definition grows {A} (m : ST PresenceHandler A) : Prop :=
  ∀ h, wheel_grows (wheel_timer h) (wheel_timer (m h).1).
Definition wgrows {A} (m : ST (WheelTimer string) A) : Prop := ∀ w, wheel_grows w (m w).1.

Lemma wheel_grows_trans w w1 w2 : wheel_grows w w1 → wheel_grows w1 w2 → wheel_grows w w2.
Proof. intros H1 H2 Hw. destruct (H1 Hw) as [Hw1 ?], (H2 Hw1) as [? ?]. auto. Qed.

Lemma grows_bind {A B} (m : ST PresenceHandler A) (f : A → ST PresenceHandler B) :
  grows m → (∀ x, grows (f x)) → grows (st_bind m f).
Proof.
  intros Hm Hf h. unfold st_bind. specialize (Hm h). destruct (m h) as [h1 [x|e]]; [|done].
  eapply wheel_grows_trans; [exact Hm|apply Hf].
Qed.

Lemma wgrows_bind {A B} (m : ST (WheelTimer string) A) (f : A → ST (WheelTimer string) B) :
  wgrows m → (∀ x, wgrows (f x)) → wgrows (st_bind m f).
Proof.
  intros Hm Hf h. unfold st_bind. specialize (Hm h). destruct (m h) as [h1 [x|e]]; [|done].
  eapply wheel_grows_trans; [exact Hm|apply Hf].
Qed.

Lemma grows_id {A} (m : ST PresenceHandler A) :
  (∀ h, wheel_timer (m h).1 = wheel_timer h) → grows m.
Proof. intros Hm h. rewrite Hm. intros ?; auto. Qed.

Lemma wgrows_ret {A} (x : A) : wgrows (st_ret x).
Proof. intros w ?; auto. Qed.

Lemma wgrows_timer persist now u th : wgrows (timer persist now u th).
Proof.
  intros w Hw. unfold timer. destruct persist; [auto|].
  destruct (wheel_insert_spec w now u th Hw) as (w' & -> & ? & _ & _ & Hp). split; [done|].
  intros v k ?. apply Hp. auto.
Qed.

Lemma grows_on_wheel {A} (m : ST (WheelTimer string) A) : wgrows m → grows (on_wheel m).
Proof. intros Hm h. unfold on_wheel. specialize (Hm (wheel_timer h)). by destruct (m (wheel_timer h)). Qed.

Lemma grows_fold {A B} (f : B → A → ST PresenceHandler B) l b :
  (∀ b x, grows (f b x)) → grows (st_fold f l b).
Proof.
  intros Hf. revert b. induction l as [|x l IH]; intros b; simpl; [by apply grows_id|].
  apply grows_bind; auto.
Qed.

Lemma grows_handle_update prev new m now persist : wgrows (handle_update prev new m now persist).
Proof.
  unfold handle_update.
  repeat (first [apply wgrows_ret | apply wgrows_timer | apply wgrows_bind; intros | case_match]).
Qed.

Lemma grows_update_presence states : grows (update_presence states).
Proof. by apply grows_id. Qed.

Create HintDb grows.
#[local] Hint Resolve grows_handle_update grows_update_presence : grows.

Local Ltac grow :=
  lazymatch goal with
  | |- grows (st_bind _ _) => apply grows_bind; [grow|intros; grow]
  | |- grows (st_fold _ _ _) => apply grows_fold; intros; grow
  | |- grows (on_wheel _) => apply grows_on_wheel; solve [auto with grows nocore]
  | |- grows (match _ with _ => _ end) => case_match; grow
  | |- grows (let _ := _ in _) => cbv zeta; grow
  | |- _ => first [solve [auto with grows nocore] | by apply grows_id]
  end.

Lemma grows_update_states c news force now : grows (_update_states c news force now).
Proof. unfold _update_states, update_one, _persist_and_notify. grow. Qed.

Lemma grows_current_states us : grows (current_state_for_users us).
Proof. unfold current_state_for_users, fill_missing. grow. Qed.

#[local] Hint Resolve grows_current_states : grows.

Lemma grows_current_state u : grows (current_state_for_user u).
Proof. unfold current_state_for_user. grow. Qed.

Lemma grows_update_device u id f : grows (update_device u id f).
Proof. by apply grows_id. Qed.

#[local] Hint Resolve grows_update_states grows_current_state grows_update_device : grows.

Lemma grows_bump c now now' u id : grows (bump_presence_active_time c now now' u id).
Proof. unfold bump_presence_active_time. grow. Qed.

Lemma grows_set_state c now now' u id p s f i : grows (set_state c now now' u id p s f i).
Proof. unfold set_state. grow. Qed.
#[local] Hint Resolve grows_set_state : grows.

Lemma grows_full_presence c now now' us : grows (send_full_presence_to_users c now now' us).
Proof. unfold send_full_presence_to_users, get_state, get_states. grow. Qed.

Lemma grows_user_syncing c now now' u id a p : grows (user_syncing c now now' u id a p).
Proof. unfold user_syncing. grow. Qed.

Lemma grows_user_sync_end c now now' u id : grows (user_sync_end c now now' u id).
Proof.
  intros h. unfold user_sync_end.
  match goal with |- context [st_bind ?m ?f h] => assert (grows (st_bind m f)) as Hg by grow end.
  specialize (Hg h). by destruct (st_bind _ _ h).
Qed.

Lemma grows_external_row c now now' p u id b ts : grows (update_external_syncs_row c now now' p u id b ts).
Proof. unfold update_external_syncs_row. grow. Qed.

Lemma grows_external_clear c now now' p : grows (update_external_syncs_clear c now now' p).
Proof. unfold update_external_syncs_clear. grow. Qed.

Lemma grows_incoming c now now' o ps : grows (incoming_presence c now now' o ps).
Proof. unfold incoming_presence, incoming_push. grow. Qed.

Lemma grows_persist : grows _persist_unpersisted_changes.
Proof. unfold _persist_unpersisted_changes. grow. Qed.

(** The steps that neither run the timer loop nor restart the writer. *)
Definition ordinary (o : presence_op) : Prop :=
  match o with OpTick _ _ | OpRestart _ => False | _ => True end.

Lemma ordinary_grows c o h :
  ordinary o → wheel_grows (wheel_timer h) (wheel_timer (run_op c o h)).
Proof.
  destruct o; intros Ho; try done; simpl.
  - apply grows_bump.
  - apply grows_set_state.
  - apply grows_user_syncing.
  - apply grows_user_sync_end.
  - apply grows_external_row.
  - apply grows_external_clear.
  - apply grows_incoming.
  - apply grows_full_presence.
  - apply grows_current_states.
  - apply grows_persist.
Qed.

(** ** A quiet user *)

(** No request of the user is syncing. *)
Definition silent (h : PresenceHandler) (u : string) : Prop :=
  ∀ id, (u, id) ∉ syncing_user_devices h.

(** A stretch of history in which the user [u] does nothing: the timer loop runs,
    and anything else leaves the state and the devices of [u] alone. *)
Inductive quiet (c : presence_config) (u : string) (t0 : Z) (h0 : PresenceHandler) :
    Z → PresenceHandler → Prop :=
  | quiet_start : silent h0 u → quiet c u t0 h0 t0 h0
  | quiet_tick t h now now' : quiet c u t0 h0 t h → (t ≤ now ≤ now')%Z →
      quiet c u t0 h0 now' (run_op c (OpTick now now') h)
  | quiet_other t h o : quiet c u t0 h0 t h → op_ok c false t o → ordinary o →
      user_to_current_state (run_op c o h) !! u = user_to_current_state h !! u →
      devices_of (run_op c o h) u = devices_of h u → silent (run_op c o h) u →
      quiet c u t0 h0 (op_times t o).2 (run_op c o h).

Section offline.
Context (c : presence_config).
Hypothesis Henabled : _presence_enabled c = true.
Hypothesis Htrack : _track_presence c = true.

Lemma expiry_silent now h u : silent h u → silent (after_expiry now h) u.
Proof.
  unfold silent, syncing_user_devices, after_expiry. simpl. intros Hs id. specialize (Hs id).
  rewrite not_elem_of_union in Hs |- *. destruct Hs as [? Hs]. split; [done|].
  rewrite elem_of_union_list in Hs |- *. intros (X & HX & Hin). apply Hs. exists X. split; [|done].
  apply list_elem_of_fmap in HX as ([p Y] & -> & [Hp _]%elem_of_map_to_list%map_lookup_filter_Some).
  apply list_elem_of_fmap. exists (p, Y). split; [done|]. by apply elem_of_map_to_list.
Qed.

(** What is known of a quiet user: the times of its state and its devices stay,
    and until it is offline it is waiting for a timer that will do something. *)
Record watched (u : string) (la ls seen : Z) (t : Z) (h : PresenceHandler) : Prop := {
  wt_silent : silent h u;
  wt_seen : all_devices (λ d, (Z.max (dev_last_sync_ts d) (dev_last_active_ts d) ≤ seen)%Z)
              (devices_of h u);
  wt_state : ∃ st, user_to_current_state h !! u = Some st ∧
    (ups_state st ≠ PresenceState.OFFLINE →
     (prio (ups_state st) ≤ prio PresenceState.ONLINE)%Z ∧
     ups_last_active_ts st = la ∧ ups_last_user_sync_ts st = ls ∧
     ∃ k, pending (wheel_timer h) u k ∧
       (k ≤ Z.max (Z.max (key (la + IDLE_TIMER)) (key (ls + SYNC_ONLINE_TIMEOUT))) (key t) + 1)%Z ∧
       ((la + LAST_ACTIVE_GRANULARITY < t)%Z ∨ (key (la + IDLE_TIMER) + 1 ≤ k)%Z))
}.

Lemma watched_start remote t h u st seen :
  presence_inv c remote t h → is_mine_id c u = true → silent h u →
  user_to_current_state h !! u = Some st → ups_state st = PresenceState.ONLINE →
  all_devices (λ d, (Z.max (dev_last_sync_ts d) (dev_last_active_ts d) ≤ seen)%Z) (devices_of h u) →
  watched u (ups_last_active_ts st) (ups_last_user_sync_ts st) seen t h.
Proof.
  intros Hinv Hm Hs Hst Ho Hseen. split; [done|done|]. exists st. split; [done|]. intros _.
  rewrite Ho. split_and!; [done|done|done|].
  destruct (inv_timer _ _ _ _ _ Hinv u st (ups_last_active_ts st + IDLE_TIMER)) as (k & Hk & Hb);
    [set_solver|by left|done|by unfold deadline; rewrite Hm, decide_True|].
  exists k. split; [done|]. split; [lia|right; lia].
Qed.

(** A timer of a watched user that fires finds something to do. *)
Lemma fired_refresh la k now :
  (0 ≤ now)%Z → (k ≤ key now)%Z →
  ((la + LAST_ACTIVE_GRANULARITY < now)%Z ∨ (key (la + IDLE_TIMER) + 1 ≤ k)%Z) →
  (la + LAST_ACTIVE_GRANULARITY < now)%Z.
Proof.
  intros H0 Hk [Hlt|Hk']; [done|].
  pose proof (key_late (la + IDLE_TIMER) now H0 ltac:(lia)).
  unfold LAST_ACTIVE_GRANULARITY, IDLE_TIMER in *. lia.
Qed.

Lemma watched_tick remote t h u la ls seen now now' :
  presence_inv c remote t h → is_mine_id c u = true → watched u la ls seen t h →
  (t ≤ now ≤ now')%Z → watched u la ls seen now' (run_op c (OpTick now now') h).
Proof.
  intros Hinv Hm [Hs Hseen (st & Hst & Hw)] Hle. pose proof (inv_time _ _ _ _ _ Hinv) as H0. simpl.
  destruct (tick_spec c Henabled Htrack remote t now now' h Hinv Hle) as (h' & -> & _ & Htk).
  pose proof Htk as [Hf Hk Hot Hch Hsy].
  pose proof (expiry_silent now h u Hs) as Hs'. simpl. split.
  { unfold silent. rewrite Hsy. exact Hs'. }
  { destruct (decide (u ∈ users_to_check now h)) as [Hu|Hu]; [|by destruct (Hot u Hu) as [_ ->]].
    destruct (Hch u Hu) as (o & Hut & _). inversion Hut; [done| |done].
    by apply timeout_devices_all. }
  assert (∀ x, (x ≤ key t → x ≤ key now')%Z) as Hkt.
  { intros x Hx. pose proof (key_mono t now' ltac:(lia)). lia. }
  destruct (decide (u ∈ users_to_check now h)) as [Hu|Hu]; last first.
  { destruct (Hot u Hu) as [-> _]. exists st. split; [done|]. intros Hne.
    destruct (Hw Hne) as (? & ? & ? & k & Hp & Hb & Hor). split_and!; [done..|]. exists k.
    assert (key now < k)%Z as Hlt.
    { destruct (decide (key now < k)%Z) as [|Hn]; [done|]. destruct Hu. apply (Hf u k Hp). lia. }
    pose proof (key_mono t now' ltac:(lia)). split; [by apply Hk|]. split; [lia|].
    destruct Hor; [left; lia|by right]. }
  destruct (Hch u Hu) as (o & Hut & Ho). rewrite (state_of_some _ _ _ Hst), Hm in Hut.
  destruct (decide (ups_state st = PresenceState.OFFLINE)) as [Hoff|Hon].
  { exists st. split; [|done]. by eapply offline_stays. }
  destruct (Hw Hon) as (Hpr & Ha & Hls & k & Hp & Hb & Hor).
  assert (((la + LAST_ACTIVE_GRANULARITY < now)%Z ∨ (key (la + IDLE_TIMER) + 1 ≤ k)%Z)) as Hor'
    by (destruct Hor; [left; lia|by right]).
  pose proof (key_mono t now' ltac:(lia)) as Hkm.
  assert ((key now < k)%Z → pending (wheel_timer h') u k ∧
    (k ≤ Z.max (Z.max (key (la + IDLE_TIMER)) (key (ls + SYNC_ONLINE_TIMEOUT))) (key now') + 1)%Z ∧
    ((la + LAST_ACTIVE_GRANULARITY < now')%Z ∨ (key (la + IDLE_TIMER) + 1 ≤ k)%Z)) as Hlater.
  { intros Hlt. split; [by apply Hk|]. split; [lia|]. destruct Hor'; [left; lia|by right]. }
  inversion Hut as [|s' _ _ Htop Hle' Hds Ho'|]; [done| |done]. subst o.
  destruct (decide (key now < k)%Z) as [Hlt|Hge].
  - case_decide.
    + destruct Ho as [(prev & ->) _]. eexists. split; [done|].
      destruct (update_result_fields prev (with_state s' st) (is_mine_id c u) now')
        as (-> & -> & -> & _). simpl. intros _. split_and!; [lia|done|done|eauto].
    + rewrite Ho. exists st. split; [done|]. intros _. split_and!; [done..|eauto].
  - pose proof (fired_refresh la k now ltac:(lia) ltac:(lia) Hor') as Hr.
    rewrite decide_True in Ho by (right; left; lia).
    destruct Ho as [(prev & ->) Htim]. eexists. split; [done|].
    destruct (update_result_fields prev (with_state s' st) (is_mine_id c u) now')
      as (-> & -> & -> & _). simpl. intros Hne'. split_and!; [lia|done|done|].
    destruct (Htim (ls + SYNC_ONLINE_TIMEOUT)%Z) as (k' & Hp' & Hb').
    { unfold update_timers. rewrite Hm. simpl. rewrite (bool_decide_false (s' = PresenceState.OFFLINE)) by done.
      rewrite <- Hls. set_solver. }
    exists k'. split; [done|]. split; [lia|left; lia].
Qed.

Lemma quiet_watched t0 h0 u la ls seen t h :
  is_mine_id c u = true → presence_inv c false t0 h0 → watched u la ls seen t0 h0 →
  quiet c u t0 h0 t h → presence_inv c false t h ∧ watched u la ls seen t h.
Proof.
  intros Hm Hinv0 Hw0. induction 1 as [|t h now now' Hq IH Hle|t h o Hq IH Hop Hord Hc Hd Hs]; [done|..].
  - destruct IH as [Hinv Hw]. split; [|by eapply watched_tick].
    by apply (step_inv c Henabled Htrack false t h (OpTick now now')).
  - destruct IH as [Hinv [_ Hseen (st & Hst & Hw)]].
    split; [by apply (step_inv c Henabled Htrack)|].
    split; [done|by rewrite Hd|]. rewrite Hc. exists st. split; [done|]. intros Hne.
    destruct (Hw Hne) as (? & ? & ? & k & Hk & Hb & Hor). split_and!; [done..|]. exists k.
    destruct (ordinary_grows c o h Hord (wa_ok _ _ (inv_wheel _ _ _ _ _ Hinv))) as [_ Hkeep].
    destruct Hop as [Ht _]. pose proof (key_mono t (op_times t o).2 ltac:(lia)).
    split; [auto|]. split; [lia|]. destruct Hor; [left; lia|by right].
Qed.

(** When all devices have timed out, no device is left. *)
Lemma all_timed_out u syn now ds :
  (∀ id, (u, id) ∉ syn) →
  all_devices (λ d, dev_state d ≠ PresenceState.BUSY ∧
    (Z.max (dev_last_sync_ts d) (dev_last_active_ts d) + SYNC_ONLINE_TIMEOUT < now)%Z) ds →
  timeout_devices u syn now ds = ∅.
Proof.
  intros Hs Hd. apply map_empty. intros id. apply eq_None_not_Some.
  intros [d' (d & chg & Hid & Ht)%timeout_devices_lookup].
  destruct (timeout_device_spec _ _ _ _ _ _ _ _ Ht) as (_ & _ & _ & Hoff).
  destruct (Hd id d Hid) as [Hb Hlt]. rewrite decide_False in Hoff by done.
  assert (false = true); [|done]. apply Hoff. split; [done|lia].
Qed.

Lemma watched_offline remote t h u la ls seen now now' :
  presence_inv c remote t h → is_mine_id c u = true → watched u la ls seen t h →
  (t ≤ now ≤ now')%Z →
  (Z.max (Z.max (la + IDLE_TIMER) (ls + SYNC_ONLINE_TIMEOUT)) t + BUCKET_SIZE ≤ now)%Z →
  (seen + SYNC_ONLINE_TIMEOUT < now)%Z →
  ∃ h' st', _handle_timeouts c now now' h = (h', Ok tt) ∧
    user_to_current_state h' !! u = Some st' ∧ ups_state st' = PresenceState.OFFLINE.
Proof.
  intros Hinv Hm [Hs Hseen (st & Hst & Hw)] Hle Hdue Hold.
  pose proof (inv_time _ _ _ _ _ Hinv) as H0.
  destruct (tick_spec c Henabled Htrack remote t now now' h Hinv Hle) as (h' & Hrun & _ & Htk).
  pose proof Htk as [Hf _ _ Hch _].
  destruct (decide (ups_state st = PresenceState.OFFLINE)) as [Hoff|Hon].
  - exists h', st. eauto using offline_stays.
  - destruct (Hw Hon) as (Hpr & Ha & Hls & k & Hp & Hb & Hor).
    pose proof (key_soon (Z.max (Z.max (la + IDLE_TIMER) (ls + SYNC_ONLINE_TIMEOUT)) t) now
      ltac:(lia) Hdue) as Hkey.
    pose proof (key_mono (la + IDLE_TIMER) (Z.max (Z.max (la + IDLE_TIMER) (ls + SYNC_ONLINE_TIMEOUT)) t) ltac:(lia)).
    pose proof (key_mono (ls + SYNC_ONLINE_TIMEOUT) (Z.max (Z.max (la + IDLE_TIMER) (ls + SYNC_ONLINE_TIMEOUT)) t) ltac:(lia)).
    pose proof (key_mono t (Z.max (Z.max (la + IDLE_TIMER) (ls + SYNC_ONLINE_TIMEOUT)) t) ltac:(lia)).
    assert (k ≤ key now)%Z as Hk by lia.
    destruct (Hch u (Hf u k Hp Hk)) as (o & Hut & Ho). rewrite (state_of_some _ _ _ Hst), Hm in Hut.
    pose proof (inv_ids _ _ _ _ _ Hinv u st Hst) as Hid.
    pose proof (inv_state _ _ _ _ _ Hinv u st (not_elem_of_nil u) Hm Hst) as Hok.
    destruct (so_top _ _ _ Hok) as (_ & _ & Hall).
    inversion Hut as [|s' _ _ Htop Hle' Hds Ho'|]; [done| |done]. subst o.
    rewrite decide_True in Ho by (right; left; unfold LAST_ACTIVE_GRANULARITY, IDLE_TIMER, BUCKET_SIZE in *; lia).
    destruct Ho as [(prev & Hc') _]. eexists h', _. split; [done|]. split; [exact Hc'|].
    destruct (update_result_fields prev (with_state s' st) (is_mine_id c u) now') as (-> & _). simpl.
    rewrite Hid, all_timed_out in Htop.
    + destruct Htop as (_ & [?|(d & Hd & _)] & _); [done|]. by apply elem_of_device_values in Hd as [? ?].
    + by apply expiry_silent.
    + intros id d Hid'. destruct (Hall d) as [_ Hpd]; [apply elem_of_device_values; eauto|].
      specialize (Hseen id d Hid'). simpl in Hseen. split; [|lia]. intros Hbusy.
      rewrite Hbusy in Hpd. assert (prio PresenceState.BUSY ≤ prio PresenceState.ONLINE)%Z by lia. done.
Qed.

End offline.

(** ** The theorems *)

(** C14: in every state the presence writer reaches, however requests, federation
    traffic, timer runs and restarts follow each other, the presence shown for
    every local user, offline included, is the combination of the presences of
    its devices; the devices of a local user without a state in memory, which is
    shown as offline, combine to offline; so a device never has a state without
    a priority; and the timer loop never raises. A handler is one step: other
    requests do not run while it waits for the database. *)
Theorem shown_presence_invariant c t h :
  _presence_enabled c = true → _track_presence c = true → reachable c false t h →
  (∀ u st, is_mine_id c u = true → user_to_current_state h !! u = Some st →
     ups_user_id st = u ∧
     _combine_device_states (device_values (devices_of h u)) = Ok (ups_state st)) ∧
  (∀ u, is_mine_id c u = true → user_to_current_state h !! u = None →
     _combine_device_states (device_values (devices_of h u)) = Ok PresenceState.OFFLINE) ∧
  (∀ now now', (t ≤ now ≤ now')%Z → (_handle_timeouts c now now' h).2 = Ok tt).
Proof.
  intros He Ht Hr. pose proof (reachable_inv c He Ht false t h Hr) as Hinv. split_and!.
  - intros u st Hm Hst. split; [by apply (inv_ids _ _ _ _ _ Hinv)|].
    apply combine_iff. by apply (so_top _ _ _ (inv_state _ _ _ _ _ Hinv u st (not_elem_of_nil u) Hm Hst)).
  - intros u Hm Hn. apply combine_iff. by apply (inv_unknown _ _ _ _ _ Hinv u (not_elem_of_nil u)).
  - intros now now' Hle. by destruct (tick_spec c He Ht false t now now' h Hinv Hle) as (h' & -> & _).
Qed.

(** C15: a local user shown as online who stops using the server is eventually
    shown as offline.  Start in any reachable state in which no device of the
    user is syncing, let any history pass in which the timer loop runs at any
    times and nothing else touches the user: a run of the loop that is one bucket
    of the wheel after the last step, the idle timeout and the sync timeout, and
    after the last sign of life of every device plus the sync timeout, leaves the
    user offline. *)
Theorem quiet_user_goes_offline c t0 h0 u st seen t h now now' :
  _presence_enabled c = true → _track_presence c = true → reachable c false t0 h0 →
  is_mine_id c u = true → user_to_current_state h0 !! u = Some st →
  ups_state st = PresenceState.ONLINE →
  (∀ id d, devices_of h0 u !! id = Some d →
     (Z.max (dev_last_sync_ts d) (dev_last_active_ts d) ≤ seen)%Z) →
  quiet c u t0 h0 t h → (t ≤ now ≤ now')%Z →
  (Z.max (Z.max (ups_last_active_ts st + IDLE_TIMER)
                (ups_last_user_sync_ts st + SYNC_ONLINE_TIMEOUT)) t + BUCKET_SIZE ≤ now)%Z →
  (seen + SYNC_ONLINE_TIMEOUT < now)%Z →
  ∃ h' st', _handle_timeouts c now now' h = (h', Ok tt) ∧
    user_to_current_state h' !! u = Some st' ∧ ups_state st' = PresenceState.OFFLINE.
Proof.
  intros He Ht Hr Hm Hst Ho Hseen Hq Hle Hdue Hold.
  pose proof (reachable_inv c He Ht false t0 h0 Hr) as Hinv0.
  assert (silent h0 u → watched u (ups_last_active_ts st) (ups_last_user_sync_ts st) seen t0 h0) as Hw0
    by (intros Hs; by eapply watched_start).
  assert (silent h0 u) as Hs0 by (clear -Hq; by induction Hq).
  destruct (quiet_watched c He Ht t0 h0 u _ _ seen t h Hm Hinv0 (Hw0 Hs0) Hq) as [Hinv Hw].
  by eapply (watched_offline c He Ht).
Qed.

(** C33: a user of another server that has not been heard of is eventually shown as
    offline.  This needs the two readings of the clock during every
    [incoming_presence] to fall into the same bucket of the wheel. *)
Theorem lost_server_users_go_offline c t h u st now now' :
  _presence_enabled c = true → _track_presence c = true → reachable c true t h →
  is_mine_id c u = false → user_to_current_state h !! u = Some st → (t ≤ now ≤ now')%Z →
  (Z.max (ups_last_federation_update_ts st + FEDERATION_TIMEOUT) t + BUCKET_SIZE ≤ now)%Z →
  ∃ h' st', _handle_timeouts c now now' h = (h', Ok tt) ∧
    user_to_current_state h' !! u = Some st' ∧ ups_state st' = PresenceState.OFFLINE.
Proof.
  intros He Ht Hr Hm Hst Hle Hdue. pose proof (reachable_inv c He Ht true t h Hr) as Hinv.
  pose proof (inv_time _ _ _ _ _ Hinv) as H0. set (dl := (ups_last_federation_update_ts st + FEDERATION_TIMEOUT)%Z) in *.
  destruct (tick_spec c He Ht true t now now' h Hinv Hle) as (h' & Hrun & _ & Htk).
  pose proof Htk as [Hf _ _ Hch _].
  destruct (decide (ups_state st = PresenceState.OFFLINE)) as [Hoff|Hon].
  - exists h', st. eauto using offline_stays.
  - destruct (inv_timer _ _ _ _ _ Hinv u st dl (not_elem_of_nil u)) as (k & Hk & Hb); [by right|done| |].
    { unfold deadline. by rewrite Hm, decide_False. }
    pose proof (key_soon (Z.max dl t) now ltac:(lia) Hdue).
    pose proof (key_mono dl (Z.max dl t) ltac:(lia)). pose proof (key_mono t (Z.max dl t) ltac:(lia)).
    destruct (Hch u (Hf u k Hk ltac:(lia))) as (o & Hut & Ho). rewrite (state_of_some _ _ _ Hst), Hm in Hut.
    inversion Hut as [| |_ _ Hds Ho']; [done|done|]. subst o.
    rewrite decide_True in Ho by (unfold BUCKET_SIZE in *; lia).
    destruct Ho as [(prev & Hc') _]. eexists h', _. split; [done|]. split; [exact Hc'|].
    by destruct (update_result_fields prev (with_state PresenceState.OFFLINE st) (is_mine_id c u) now') as (-> & _).
Qed.
