(* ===== verification/PresenceExamples.v ===== *)
(** Federation: what one server says about a user is what the other one shows.
    Concrete histories of the presence writer, and the runs in which a user is
    never timed out. *)
From S2P Require Import Prelude Identifiers WheelTimer WheelTimerProps Presence PresenceProps PresenceSystem PresenceSteps PresenceTick PresenceLive PresenceOffline.

(** ** Federation *)
Lemma update_result_remote prev s t :
  (update_result prev s false t).1.1 = s ∨
  (update_result prev s false t).1.1 = with_federation_update t s.
Proof. unfold update_result, refreshed. destruct (should_notify prev s); auto. Qed.

(** C34: presence crosses federation unchanged.  When a server formats the state of
    one of its users and another server handles it while the clocks agree, the
    other server shows the same presence, status message and time of last
    activity (when they are set), and the same activity flag for users that are
    online. *)
Theorem presence_federation_roundtrip c t h origin now now' st :
  _presence_enabled c = true → _track_presence c = true → reachable c false t h →
  (t ≤ now ≤ now')%Z → origin ≠ hostname c → get_domain_from_id (ups_user_id st) = Ok origin →
  ups_user_id st ≠ "" → ups_state st ≠ "" →
  ∃ h' st', incoming_presence c now now' origin [format_user_presence_state st now true] h =
      (h', Ok tt) ∧
    user_to_current_state h' !! ups_user_id st = Some st' ∧
    ups_user_id st' = ups_user_id st ∧ ups_state st' = ups_state st ∧
    (ups_last_active_ts st ≠ 0%Z → ups_last_active_ts st' = ups_last_active_ts st) ∧
    (ups_status_msg st ≠ Some "" → ups_status_msg st' = ups_status_msg st) ∧
    ups_currently_active st' =
      (bool_decide (ups_state st = PresenceState.ONLINE) && ups_currently_active st).
Proof.
  intros He Ht Hreach Hle Ho Hdom Hu Hs.
  pose proof (reachable_inv c He Ht false t h Hreach) as Hinv.
  unfold incoming_presence. rewrite Ht. cbn [negb st_fold].
  unfold incoming_push, format_user_presence_state. cbn [pc_user_id pc_presence].
  destruct (ups_user_id st) as [|a0 u0] eqn:Hid; [done|]. rewrite <- Hid in *.
  destruct (ups_state st) as [|b0 p0] eqn:Hst; [done|]. rewrite <- Hst in *.
  unfold st_bind, st_lift. rewrite Hdom, String.eqb_refl. cbn [negb].
  destruct (current_state_spec c _ _ _ _ (ups_user_id st) Hinv) as (h1 & prev & -> & Hr & [Hpu _]).
  unfold st_ret. cbn [app].
  match goal with |- context [_update_states c [?x]] => set (s := x) end.
  assert (ups_user_id s = ups_user_id st) as Hsid.
  { unfold s. cbn. by destruct (ups_last_active_ts st =? 0)%Z. }
  destruct (update_states_spec c He Ht false now' [s] h1) as (h2 & -> & Hup & _).
  { apply (inv_wheel c false [] now'). eapply inv_mono; [by eapply reads_inv|lia]. }
  destruct (up_new _ _ _ _ _ Hup s) as [prev' Hnew]; [by left|]. rewrite Hsid in Hnew.
  rewrite (domain_not_mine c _ _ Hdom Ho) in Hnew.
  eexists h2, _. split; [done|]. split; [exact Hnew|].
  assert (ups_state s = ups_state st ∧
    (ups_last_active_ts st ≠ 0%Z → ups_last_active_ts s = ups_last_active_ts st) ∧
    (ups_status_msg st ≠ Some "" → ups_status_msg s = ups_status_msg st) ∧
    ups_currently_active s =
      (bool_decide (ups_state st = PresenceState.ONLINE) && ups_currently_active st)) as Hs'.
  { unfold s. cbn. destruct (Z.eqb_spec (ups_last_active_ts st) 0); cbn; split_and!; try done.
    - by destruct (ups_status_msg st) as [[|]|].
    - by case_bool_decide.
    - intros _. lia.
    - by destruct (ups_status_msg st) as [[|]|].
    - by case_bool_decide. }
  destruct Hs' as (? & ? & ? & ?).
  destruct (update_result_remote prev' s now') as [-> | ->]; done.
Qed.

(** ** Runs *)
Definition run_ops (c : presence_config) (os : list presence_op) (h : PresenceHandler) : PresenceHandler :=
  foldl (λ h o, run_op c o h) h os.

Definition sample_config : presence_config := mkConfig "hs" true true true.

(** The writer after a start with an empty table. *)
Definition fresh_handler : PresenceHandler :=
  mkHandler ∅ ∅ (new_wheel BUCKET_SIZE) ∅ ∅ ∅ ∅ ∅ [].

Definition T0 : Z := 1700000000000.
Definition alice : string := "@alice:hs".

Definition show (h : PresenceHandler) (u : string) : option string :=
  ups_state <$> user_to_current_state h !! u.

Lemma fresh_reachable c remote :
  _track_presence c = true → reachable c remote T0 fresh_handler.
Proof.
  intros Ht. apply (reach_init c remote T0 ∅); [by intros u st|done|]. unfold init_handler.
  by rewrite Ht.
Qed.

(** A sync, its end, and the timer loop every five seconds: alice is online, and
    offline two minutes later. *)
Definition sample_history : list presence_op :=
  [OpSyncStart T0 T0 alice (Some "PHONE") true PresenceState.ONLINE;
   OpSyncEnd (T0 + 10000) (T0 + 10000) alice (Some "PHONE")].

Definition ticks (n : nat) : list presence_op :=
  (λ i, let t := (T0 + 10000 + 5000 * Z.of_nat i)%Z in OpTick t t) <$> seq 1 n.

Example sample_online :
  show (run_ops sample_config sample_history fresh_handler) alice = Some PresenceState.ONLINE.
Proof. by_vm. Qed.

Example sample_offline :
  show (run_ops sample_config (sample_history ++ ticks 24) fresh_handler) alice =
  Some PresenceState.OFFLINE.
Proof. by_vm. Qed.

(** The wire format of a presence update. *)
Example sample_format :
  format_user_presence_state (mkState alice PresenceState.ONLINE T0 0 0 (Some "hi") true)
    (T0 + 1500) true =
  mkContent (Some "online") (Some alice) (Some 1500%Z) (Some "hi") (Some true).
Proof. by_vm. Qed.

(** ** Users that are never looked at again *)

(** With no timer and no external sync left, the timer loop does nothing. *)
Definition unwatched (h : PresenceHandler) : Prop :=
  entries (wheel_timer h) = [] ∧ external_process_to_current_syncs h = ∅.

Lemma unwatched_tick c now now' h :
  unwatched h → unwatched (run_op c (OpTick now now') h) ∧
  user_to_current_state (run_op c (OpTick now now') h) = user_to_current_state h.
Proof.
  intros [Hw He]. simpl. rewrite handle_timeouts_eq.
  assert (wheel_fetch (wheel_timer h) now = ([], wheel_timer h)) as Hf.
  { unfold wheel_fetch. rewrite Hw. simpl. destruct (wheel_timer h); simpl in *. by subst. }
  assert (users_to_check now h = ∅) as Hu.
  { unfold users_to_check. rewrite Hf, He. rewrite map_filter_empty. done. }
  assert (entries (wheel_timer (after_expiry now h)) = []) as Hw'
    by (unfold after_expiry; rewrite Hf; done).
  assert (external_process_to_current_syncs (after_expiry now h) = ∅) as He'
    by (unfold after_expiry; simpl; by rewrite He, map_filter_empty).
  assert (user_to_current_state (after_expiry now h) = user_to_current_state h) as Hc' by done.
  rewrite Hu. rewrite elements_empty. unfold st_bind. simpl.
  unfold _update_states. destruct (_presence_enabled c); simpl; by rewrite ?Hc'.
Qed.

Lemma unwatched_forever c os h :
  unwatched h → Forall (λ o, ∃ now now', o = OpTick now now') os →
  user_to_current_state (run_ops c os h) = user_to_current_state h.
Proof.
  unfold run_ops. intros Hh Hos. revert h Hh.
  induction Hos as [|o os (now & now' & ->) _ IH]; intros h Hh; simpl; [done|].
  destruct (unwatched_tick c now now' h Hh) as [Hh' <-]. by apply IH.
Qed.

Lemma stuck c pre os h u :
  unwatched (run_ops c pre h) → Forall (λ o, ∃ now now', o = OpTick now now') os →
  show (run_ops c (pre ++ os) h) u = show (run_ops c pre h) u.
Proof.
  intros Hw Hos. unfold show. replace (run_ops c (pre ++ os) h) with (run_ops c os (run_ops c pre h))
    by (unfold run_ops; by rewrite foldl_app). by rewrite unwatched_forever.
Qed.

(** A user sets their presence to busy without syncing, as the client API allows
    when the option is on.  Both timers are computed from the last sync, long ago,
    and fire at once; the device was just active, so nothing changes, and no timer
    is left: the user is busy forever, although a busy device is meant to time out
    after an hour. *)
Definition busy_history : list presence_op :=
  [OpSetState T0 T0 alice (Some "LAPTOP") PresenceState.BUSY None false false;
   OpTick (T0 + 5000) (T0 + 5000)].

Theorem busy_user_never_times_out os :
  Forall (λ o, ∃ now now', o = OpTick now now') os →
  show (run_ops sample_config (busy_history ++ os) fresh_handler) alice = Some PresenceState.BUSY.
Proof.
  intros Hos. rewrite stuck; [by_vm|split; by_vm|done].
Qed.

(** The same happens to a user shown as unavailable when another of their devices,
    one that does not sync, is active just afterwards. *)
Definition unavailable_history : list presence_op :=
  [OpSetState T0 T0 alice (Some "LAPTOP") PresenceState.UNAVAILABLE None false false;
   OpBump (T0 + 1000) (T0 + 1000) alice (Some "BOT");
   OpTick (T0 + 5000) (T0 + 5000)].

Theorem unavailable_user_never_times_out os :
  Forall (λ o, ∃ now now', o = OpTick now now') os →
  show (run_ops sample_config (unavailable_history ++ os) fresh_handler) alice =
  Some PresenceState.UNAVAILABLE.
Proof.
  intros Hos. rewrite stuck; [by_vm|split; by_vm|done].
Qed.

(** An update from another server is handled with two readings of the clock, two
    milliseconds apart: the timer is set from the first, the time of the update is
    then replaced by the second.  The timer fires within those milliseconds of the
    timeout, and the user of a server that has gone is online forever. *)
Definition lost_server_history : list presence_op :=
  [OpIncoming (T0 + 4999) (T0 + 5001) "other"
     [mkContent (Some PresenceState.ONLINE) (Some "@bob:other") (Some 0%Z) None (Some true)];
   OpTick (T0 + 1805000) (T0 + 1805000)].

Theorem lost_server_user_stays_online os :
  Forall (λ o, ∃ now now', o = OpTick now now') os →
  show (run_ops sample_config (lost_server_history ++ os) fresh_handler) "@bob:other" =
  Some PresenceState.ONLINE.
Proof.
  intros Hos. rewrite stuck; [by_vm|split; by_vm|done].
Qed.

(** Sending full presence to a user erases their status message. *)
Example full_presence_erases_status :
  let h := run_ops sample_config
    [OpSetState T0 T0 alice (Some "PHONE") PresenceState.ONLINE (Some "hi") false false] fresh_handler in
  ups_status_msg <$> user_to_current_state h !! alice = Some (Some "hi") ∧
  ups_status_msg <$> user_to_current_state
    (run_op sample_config (OpFullPresence (T0 + 1) (T0 + 1) [alice]) h) !! alice = Some None.
Proof. split; by_vm. Qed.

(** The end of a sync in the same process is recorded for the user but not for the
    device, whose [last_sync_ts] keeps the time the sync began. *)
Example sync_end_not_on_device :
  let h := run_ops sample_config sample_history fresh_handler in
  ups_last_user_sync_ts <$> user_to_current_state h !! alice = Some (T0 + 10000)%Z ∧
  dev_last_sync_ts <$> devices_of h alice !! Some "PHONE" = Some T0.
Proof. split; by_vm. Qed.

(** So a user whose sync lasted half a minute is offline at the next run of the
    timer loop, four seconds after the sync ended instead of thirty. *)
Example offline_right_after_sync :
  show (run_ops sample_config
    [OpSyncStart T0 T0 alice (Some "PHONE") true PresenceState.ONLINE;
     OpSyncEnd (T0 + 31000) (T0 + 31000) alice (Some "PHONE");
     OpTick (T0 + 35000) (T0 + 35000)] fresh_handler) alice = Some PresenceState.OFFLINE.
Proof. by_vm. Qed.

(** ** Witnesses *)

(** Closed inequalities between times. *)
Local Ltac by_times := vm_compute; repeat split; discriminate.

Lemma run_ops_reachable c remote os t h t' :
  reachable c remote t h →
  foldl (λ t o, (op_times t o).2) t os = t' →
  (∀ i o, os !! i = Some o → op_ok c remote (foldl (λ t o, (op_times t o).2) t (take i os)) o) →
  reachable c remote t' (run_ops c os h).
Proof.
  revert t h. induction os as [|o os IH]; intros t h Hr Ht Hok; simpl in *; [by subst|].
  apply (IH (op_times t o).2); [|done|].
  - apply reach_step; [done|]. exact (Hok 0 o eq_refl).
  - intros i o' Hi. exact (Hok (S i) o' Hi).
Qed.

Definition alice_online : PresenceHandler := run_ops sample_config sample_history fresh_handler.

Lemma alice_online_reachable : reachable sample_config false (T0 + 10000) alice_online.
Proof.
  apply (run_ops_reachable _ _ _ T0); [by apply fresh_reachable|done|].
  intros [|[|i]] o [= <-]; (split; [simpl; unfold T0; lia|by_vm]).
Qed.

Lemma shown_presence_invariant_witness :
  show alice_online alice = Some PresenceState.ONLINE ∧
  _combine_device_states (device_values (devices_of alice_online alice)) = Ok PresenceState.ONLINE.
Proof.
  split; [by_vm|].
  destruct (shown_presence_invariant sample_config (T0 + 10000) alice_online eq_refl eq_refl
    alice_online_reachable) as (H & _ & _).
  destruct (user_to_current_state alice_online !! alice) as [st|] eqn:Hst; [|by vm_compute in Hst].
  assert (ups_state st = PresenceState.ONLINE) as Ho.
  { assert (show alice_online alice = Some PresenceState.ONLINE) as Hs by by_vm.
    unfold show in Hs. rewrite Hst in Hs. by injection Hs. }
  rewrite <- Ho. apply (H alice st); [by_vm|done].
Defined.

Lemma quiet_user_goes_offline_witness :
  ∃ h' st', _handle_timeouts sample_config (T0 + 310000) (T0 + 310000)
      (run_op sample_config (OpTick (T0 + 20000) (T0 + 20000)) alice_online) = (h', Ok tt) ∧
    user_to_current_state h' !! alice = Some st' ∧ ups_state st' = PresenceState.OFFLINE.
Proof.
  assert (user_to_current_state alice_online !! alice =
    Some (mkState alice PresenceState.ONLINE T0 T0 (T0 + 10000) None true)) as Hst by by_vm.
  assert (devices_of alice_online alice =
    {[Some "PHONE" := mkDevice alice (Some "PHONE") PresenceState.ONLINE T0 T0]}) as Hd by by_vm.
  assert (syncing_user_devices alice_online = ∅) as Hs by by_vm.
  apply (quiet_user_goes_offline sample_config (T0 + 10000) alice_online alice
    (mkState alice PresenceState.ONLINE T0 T0 (T0 + 10000) None true) T0 (T0 + 20000)
    (run_op sample_config (OpTick (T0 + 20000) (T0 + 20000)) alice_online));
    [reflexivity|reflexivity|exact alice_online_reachable|by_vm|exact Hst|reflexivity| | |
     by_times|by_times|by_times].
  - intros id d. rewrite Hd. intros [_ <-]%lookup_singleton_Some. by_times.
  - apply (quiet_tick _ _ _ _ (T0 + 10000)); [|by_times]. apply quiet_start.
    intros id. rewrite Hs. apply not_elem_of_empty.
Defined.

Definition bob_online : PresenceHandler :=
  run_ops sample_config
    [OpIncoming T0 (T0 + 2) "other"
       [mkContent (Some PresenceState.ONLINE) (Some "@bob:other") (Some 0%Z) None (Some true)]]
    fresh_handler.

Lemma lost_server_users_go_offline_witness :
  ∃ h' st', _handle_timeouts sample_config (T0 + 1810000) (T0 + 1810000) bob_online = (h', Ok tt) ∧
    user_to_current_state h' !! "@bob:other" = Some st' ∧ ups_state st' = PresenceState.OFFLINE.
Proof.
  apply (lost_server_users_go_offline sample_config (T0 + 2) bob_online "@bob:other"
    (mkState "@bob:other" PresenceState.ONLINE T0 (T0 + 2) 0 None true));
    [reflexivity|reflexivity| |by_vm|by_vm|by_times|by_times].
  apply (run_ops_reachable _ _ _ T0); [by apply fresh_reachable|done|].
  intros [|i] o [= <-]. split; [simpl; unfold T0; lia|]. split; [done|]. intros _. by_vm.
Defined.

Lemma presence_federation_roundtrip_witness :
  ∃ h' st', incoming_presence sample_config T0 (T0 + 2) "other"
      [format_user_presence_state (mkState "@bob:other" PresenceState.ONLINE (T0 - 500) 7 8
         (Some "hi") true) T0 true] fresh_handler = (h', Ok tt) ∧
    user_to_current_state h' !! "@bob:other" = Some st' ∧ ups_status_msg st' = Some "hi".
Proof.
  destruct (presence_federation_roundtrip sample_config T0 fresh_handler "other" T0 (T0 + 2)
    (mkState "@bob:other" PresenceState.ONLINE (T0 - 500) 7 8 (Some "hi") true))
    as (h' & st' & H1 & H2 & _ & _ & _ & H3 & _);
    [reflexivity|reflexivity|by apply fresh_reachable|by_times|done|reflexivity|done|done|].
  exists h', st'. split; [exact H1|]. split; [exact H2|]. by apply H3.
Defined.
