(* ===== verification/PresenceQueue.v ===== *)
(** The queue of presence updates for other federation senders,
    [PresenceFederationQueue] of [textrp_briij/handlers/presence.py].

    The stream IDs of the entries are consecutive and the entries are in the order
    of their times; [get_replication_rows] and [_clear_queue] rely on it to find
    positions by counting and by bisection.  What is handed to the federation
    sender of this process is appended to a log.  Left out: the HTTP request a
    worker makes to the writer in [get_replication_rows], and the notifier. *)
From S2P Require Import Prelude.

Record queue_entry := mkEntryQ {
  q_ts : Z;
  q_stream_id : Z;
  q_destinations : list string;
  q_user_ids : gset string
}.

Record PresenceFederationQueue := mkQueue {
  q_instance_name : string;
  _queue_presence_updates : bool;
  _presence_writer : bool;
  (** whether this process sends federation traffic *)
  _federation : bool;
  _queue : list queue_entry;
  _next_id : Z;
  _current_tokens : gmap string Z;
  (** the users and destinations given to the federation sender *)
  forwarded : list (list string * list string)
}.

Definition _KEEP_ITEMS_IN_QUEUE_FOR_MS : Z := 5 * 60 * 1000.

(** [__init__]; [only_sender] says that this is the only federation sender. *)
Definition new_queue (instance_name : string) (presence_writer federation only_sender : bool) :
    PresenceFederationQueue :=
  mkQueue instance_name (negb (federation && only_sender)) presence_writer federation [] 1 ∅ [].

Definition set_queue (l : list queue_entry) (q : PresenceFederationQueue) : PresenceFederationQueue :=
  mkQueue (q_instance_name q) (_queue_presence_updates q) (_presence_writer q) (_federation q) l
    (_next_id q) (_current_tokens q) (forwarded q).

(** ** [bisect] *)

(** An entry against the 1-tuple [(x,)]: the longer tuple is greater on a tie. *)
Definition one_tuple_lt (x : Z) (e : queue_entry) : bool := (x <=? q_ts e)%Z.

(** [bisect_right] between [lo] and [hi], by bisection. *)
Fixpoint bisect_loop (fuel : nat) (x : Z) (l : list queue_entry) (lo hi : nat) : nat :=
  match fuel with
  | O => lo
  | S fuel' =>
      if (lo <? hi)%nat then
        let mid := Nat.div2 (lo + hi) in
        match l !! mid with
        | Some e => if one_tuple_lt x e then bisect_loop fuel' x l lo mid
                    else bisect_loop fuel' x l (S mid) hi
        | None => lo
        end
      else lo
  end.

Definition bisect (l : list queue_entry) (x : Z) : nat :=
  bisect_loop (S (length l)) x l 0 (length l).

Definition _clear_queue (now : Z) (q : PresenceFederationQueue) : PresenceFederationQueue :=
  let clear_before := (now - _KEEP_ITEMS_IN_QUEUE_FOR_MS)%Z in
  set_queue (drop (bisect (_queue q) clear_before) (_queue q)) q.

(** ** Sending *)
Definition forward (users destinations : list string) (q : PresenceFederationQueue) :
    PresenceFederationQueue :=
  mkQueue (q_instance_name q) (_queue_presence_updates q) (_presence_writer q) (_federation q)
    (_queue q) (_next_id q) (_current_tokens q) (forwarded q ++ [(users, destinations)]).

(** The states are given by their users. *)
Definition send_presence_to_destinations (now : Z) (users destinations : list string)
    (q : PresenceFederationQueue) : result PresenceFederationQueue :=
  if negb (_presence_writer q) then Raise AssertionError
  else if bool_decide (users = []) || bool_decide (destinations = []) then Ok q
  else
    let q := if _federation q then forward users destinations q else q in
    if negb (_queue_presence_updates q) then Ok q
    else Ok (mkQueue (q_instance_name q) (_queue_presence_updates q) (_presence_writer q)
               (_federation q)
               (_queue q ++ [mkEntryQ now (_next_id q) destinations (list_to_set users)])
               (_next_id q + 1) (_current_tokens q) (forwarded q)).

Definition get_current_token (instance_name : string) (q : PresenceFederationQueue) : Z :=
  if decide (instance_name = q_instance_name q) then (_next_id q - 1)%Z
  else default 0%Z (_current_tokens q !! instance_name).

(** ** [get_replication_rows], on the process that has the queue *)

(** [l[i:]] *)
Definition slice_from {A} (i : Z) (l : list A) : list A :=
  if (i <? 0)%Z then drop (Z.to_nat (Z.of_nat (length l) + i)) l else drop (Z.to_nat i) l.

Notation queue_row := (Z * (string * string))%type.

(** The rows of an entry. *)
Definition entry_rows (e : queue_entry) : list queue_row :=
  d ← q_destinations e; (λ u, (q_stream_id e, (d, u))) <$> elements (q_user_ids e).

(** The loop: [to_send] and [new_id] so far. *)
Fixpoint rows_loop (from_token upto_token target_row_count : Z) (l : list queue_entry)
    (to_send : list queue_row) (new_id : Z) : list queue_row * Z * bool :=
  match l with
  | [] => (to_send, new_id, false)
  | e :: l' =>
      if (q_stream_id e <=? from_token)%Z
      then rows_loop from_token upto_token target_row_count l' to_send new_id
      else if (upto_token <? q_stream_id e)%Z then (to_send, new_id, false)
      else
        let to_send := to_send ++ entry_rows e in
        if (target_row_count <? Z.of_nat (length to_send))%Z then (to_send, q_stream_id e, true)
        else rows_loop from_token upto_token target_row_count l' to_send (q_stream_id e)
  end.

Definition get_replication_rows (from_token upto_token target_row_count : Z)
    (q : PresenceFederationQueue) : list queue_row * Z * bool :=
  if (from_token =? _next_id q - 1)%Z then ([], upto_token, false)
  else
    let start_idx := Z.max (from_token + 1 - _next_id q) (- Z.of_nat (length (_queue q))) in
    rows_loop from_token upto_token target_row_count (slice_from start_idx (_queue q)) [] upto_token.

(** ** [process_replication_rows] of the stream, with rows (destination, user) *)
Definition add_host (m : gmap string (gset string)) (row : string * string) : gmap string (gset string) :=
  <[row.1 := default ∅ (m !! row.1) ∪ {[row.2]}]> m.

Definition process_replication_rows (instance_name : string) (token : Z)
    (rows : list (string * string)) (q : PresenceFederationQueue) : PresenceFederationQueue :=
  let q := mkQueue (q_instance_name q) (_queue_presence_updates q) (_presence_writer q)
             (_federation q) (_queue q) (_next_id q) (<[instance_name:=token]> (_current_tokens q))
             (forwarded q) in
  if negb (_federation q) then q
  else
    let hosts_to_users := foldl add_host ∅ rows in
    foldl (λ q p, forward (elements p.2) [p.1] q) q (map_to_list hosts_to_users).
