(* ===== verification/PresenceQueueProps.v ===== *)
(** The presence federation queue serves exactly the updates of the last minutes:
    bisection and counting find the right entries, a reader that asks until the
    answer is complete gets every row once, and a reader that is not too far
    behind has missed nothing of what was ever queued. *)
From S2P Require Import Prelude PresenceQueue.

(** ** The invariant *)
Record queue_ok (q : PresenceFederationQueue) : Prop := {
  qo_ids i e : _queue q !! i = Some e →
    q_stream_id e = (_next_id q - Z.of_nat (length (_queue q)) + Z.of_nat i)%Z;
  qo_times i j e e' : i ≤ j → _queue q !! i = Some e → _queue q !! j = Some e' →
    (q_ts e ≤ q_ts e')%Z;
  qo_first : (Z.of_nat (length (_queue q)) < _next_id q)%Z
}.

(** ** Bisection *)
Lemma bisect_loop_spec x l fuel lo hi :
  (∀ i j e e', i ≤ j → l !! i = Some e → l !! j = Some e' → (q_ts e ≤ q_ts e')%Z) →
  lo ≤ hi ≤ length l → hi - lo < fuel →
  (∀ i e, i < lo → l !! i = Some e → (q_ts e < x)%Z) →
  (∀ i e, hi ≤ i → l !! i = Some e → (x ≤ q_ts e)%Z) →
  ∀ i e, l !! i = Some e → (i < bisect_loop fuel x l lo hi ↔ (q_ts e < x)%Z).
Proof.
  intros Hs. revert lo hi. induction fuel as [|fuel IH]; intros lo hi Hb Hf Hlo Hhi i e Hi; [lia|].
  simpl. destruct (Nat.ltb_spec lo hi) as [Hlt|Hge]; last first.
  { split; [intros; by eapply Hlo|]. intros Hx. destruct (decide (i < lo)) as [|Hn]; [done|].
    pose proof (Hhi i e ltac:(lia) Hi). lia. }
  assert (lo ≤ Nat.div2 (lo + hi) < hi) as Hmid.
  { rewrite Nat.div2_div. split; [apply Nat.div_le_lower_bound|apply Nat.div_lt_upper_bound]; lia. }
  set (mid := Nat.div2 (lo + hi)) in *.
  destruct (l !! mid) as [em|] eqn:Hm; [|apply lookup_ge_None in Hm; lia].
  unfold one_tuple_lt. destruct (Z.leb_spec x (q_ts em)).
  - apply IH; [lia|lia|done| |done]. intros j ej Hj Hej. pose proof (Hs mid j em ej ltac:(lia) Hm Hej). lia.
  - apply IH; [lia|lia| |done|done]. intros j ej Hj Hej. pose proof (Hs j mid ej em ltac:(lia) Hej Hm). lia.
Qed.

Lemma bisect_spec q x i e :
  queue_ok q → _queue q !! i = Some e → (i < bisect (_queue q) x ↔ (q_ts e < x)%Z).
Proof.
  intros Hq. apply bisect_loop_spec; [apply Hq|lia|lia|lia|].
  intros j ej Hj Hej. apply lookup_lt_Some in Hej. lia.
Qed.

Lemma bisect_loop_le fuel x l lo hi : lo ≤ hi → bisect_loop fuel x l lo hi ≤ hi.
Proof.
  revert lo hi. induction fuel as [|fuel IH]; intros lo hi Hle; simpl; [done|].
  destruct (Nat.ltb_spec lo hi) as [Hlt|]; [|done].
  assert (lo ≤ Nat.div2 (lo + hi) < hi) as Hmid.
  { rewrite Nat.div2_div. split; [apply Nat.div_le_lower_bound|apply Nat.div_lt_upper_bound]; lia. }
  destruct (l !! _); [|lia]. destruct (one_tuple_lt x q).
  - etrans; [apply IH|]; lia.
  - apply IH. lia.
Qed.

(** [_clear_queue] drops exactly the entries older than five minutes. *)
Lemma clear_queue_spec q now :
  queue_ok q →
  queue_ok (_clear_queue now q) ∧
  ∀ e, e ∈ _queue (_clear_queue now q) ↔
    e ∈ _queue q ∧ (now - _KEEP_ITEMS_IN_QUEUE_FOR_MS ≤ q_ts e)%Z.
Proof.
  intros Hq. unfold _clear_queue. simpl. set (x := (now - _KEEP_ITEMS_IN_QUEUE_FOR_MS)%Z).
  set (n := bisect (_queue q) x).
  assert (n ≤ length (_queue q)) as Hn by (apply bisect_loop_le; lia). split.
  - destruct Hq as [Hid Ht Hf]. split; simpl; rewrite ?length_drop.
    + intros i e. rewrite lookup_drop. intros Hi. rewrite (Hid _ _ Hi). lia.
    + intros i j e e' Hij. rewrite !lookup_drop. apply Ht. lia.
    + lia.
  - intros e. rewrite !list_elem_of_lookup. setoid_rewrite lookup_drop. split.
    + intros [i Hi]. split; [eauto|]. destruct (bisect_spec q x _ e Hq Hi) as [_ Hb]. fold n in Hb.
      destruct (Z.lt_ge_cases (q_ts e) x) as [Hlt|]; [|done]. specialize (Hb Hlt). lia.
    + intros [[i Hi] Hx]. destruct (bisect_spec q x _ e Hq Hi) as [Hb _]. fold n in Hb.
      exists (i - n). rewrite Nat.add_sub_assoc, Nat.add_comm, Nat.add_sub; [done|].
      destruct (decide (i < n)) as [Hlt|]; [|lia]. specialize (Hb Hlt). lia.
Qed.

(** ** Reading *)

(** The rows of the entries with an ID in the range. *)
Definition rows_between (from_token upto_token : Z) (l : list queue_entry) : list queue_row :=
  l ≫= λ e, if decide (from_token < q_stream_id e ≤ upto_token)%Z then entry_rows e else [].

(** The IDs of the entries increase. *)
Definition increasing (l : list queue_entry) : Prop :=
  StronglySorted Z.lt (q_stream_id <$> l).

Lemma rows_between_none f u l :
  Forall (λ e, ¬ (f < q_stream_id e ≤ u)%Z) l → rows_between f u l = [].
Proof. induction 1; simpl; [done|]. by rewrite decide_False by done. Qed.

Lemma rows_between_app f u l l' : rows_between f u (l ++ l') = rows_between f u l ++ rows_between f u l'.
Proof. apply bind_app. Qed.

Lemma increasing_cons e l :
  increasing (e :: l) → increasing l ∧ Forall (λ e', (q_stream_id e < q_stream_id e')%Z) l.
Proof. unfold increasing. simpl. inversion 1; subst. split; [done|].
  change (Forall (Z.lt (q_stream_id e) ∘ q_stream_id) l). by apply Forall_fmap.
Qed.

Lemma rows_loop_spec f u n l acc new rows nid lim :
  increasing l → rows_loop f u n l acc new = (rows, nid, lim) →
  if lim then (∃ e, e ∈ l ∧ q_stream_id e = nid) ∧ (f < nid ≤ u)%Z ∧
              rows = acc ++ rows_between f nid l ∧ (n < Z.of_nat (length rows))%Z
  else rows = acc ++ rows_between f u l.
Proof.
  revert acc new. induction l as [|e l IH]; intros acc new Hinc Hr; simpl in Hr.
  { simplify_eq/=. by rewrite app_nil_r. }
  apply increasing_cons in Hinc as [Hinc Hall].
  destruct (Z.leb_spec (q_stream_id e) f) as [Hf|Hf].
  { specialize (IH _ _ Hinc Hr). destruct lim; simpl; rewrite decide_False by lia; simpl.
    - destruct IH as ((e' & ? & ?) & ? & ? & ?). split_and!; [|lia|lia|done|done].
      exists e'. split; [by right|done].
    - done. }
  destruct (Z.ltb_spec u (q_stream_id e)) as [Hu|Hu].
  { simplify_eq. simpl. rewrite decide_False by lia. simpl. rewrite rows_between_none; [by rewrite app_nil_r|].
    eapply Forall_impl; [exact Hall|]. simpl. lia. }
  destruct (Z.ltb_spec n (Z.of_nat (length (acc ++ entry_rows e)))) as [Hn|Hn].
  { simplify_eq. split; [exists e; split; [by left|done]|]. split; [lia|]. split; [|done]. simpl.
    rewrite decide_True by lia. rewrite rows_between_none; [by rewrite app_nil_r|].
    eapply Forall_impl; [exact Hall|]. simpl. lia. }
  specialize (IH _ _ Hinc Hr). destruct lim; simpl.
  - destruct IH as ((e' & He' & Hid) & Hb & -> & ?).
    rewrite Forall_forall in Hall. pose proof (Hall e' He').
    rewrite decide_True by lia. split_and!; [|lia|lia|by rewrite app_assoc|done].
    exists e'. split; [by right|done].
  - rewrite decide_True by lia. by rewrite IH, app_assoc.
Qed.

Lemma queue_increasing q : queue_ok q → increasing (_queue q).
Proof.
  intros [Hid _ _]. unfold increasing. revert Hid. generalize (_next_id q - Z.of_nat (length (_queue q)))%Z.
  intros a. generalize (_queue q). intros l. revert a. induction l as [|e l IH]; intros a Hid; simpl; [constructor|].
  constructor.
  - apply (IH (a + 1)%Z). intros i e' Hi. rewrite (Hid (S i) e' Hi). lia.
  - apply Forall_fmap, Forall_lookup. intros i e' Hi. simpl.
    rewrite (Hid 0 e eq_refl), (Hid (S i) e' Hi). lia.
Qed.

Lemma increasing_drop n l : increasing l → increasing (drop n l).
Proof.
  unfold increasing. revert l. induction n as [|n IH]; intros l; [done|].
  destruct l as [|e l]; [done|]. simpl. inversion 1. auto.
Qed.

(** Counting back from the end finds the first entry after [from_token]. *)
Lemma slice_rows q f u :
  queue_ok q → f ≠ (_next_id q - 1)%Z →
  ∃ n, slice_from (Z.max (f + 1 - _next_id q) (- Z.of_nat (length (_queue q)))) (_queue q) =
       drop n (_queue q) ∧
    rows_between f u (drop n (_queue q)) = rows_between f u (_queue q).
Proof.
  intros [Hid _ _] Hf. unfold slice_from. set (i := Z.max _ _). destruct (Z.ltb_spec i 0) as [Hi|Hi].
  all: eexists; split; [reflexivity|].
  all: match goal with |- rows_between _ _ (drop ?n ?l) = _ =>
         transitivity (rows_between f u (take n l ++ drop n l)); [|by rewrite take_drop];
         rewrite rows_between_app, (rows_between_none _ _ (take n l)); [done|] end.
  all: apply Forall_lookup; intros j e [Hj Hlt]%lookup_take_Some; rewrite (Hid j e Hj); lia.
Qed.

Lemma get_rows_spec q f u n rows nid lim :
  queue_ok q → get_replication_rows f u n q = (rows, nid, lim) →
  if lim then (f < nid ≤ u)%Z ∧ (∃ e, e ∈ _queue q ∧ q_stream_id e = nid) ∧
              rows = rows_between f nid (_queue q) ∧ (n < Z.of_nat (length rows))%Z
  else rows = rows_between f u (_queue q).
Proof.
  intros Hq. unfold get_replication_rows. destruct (Z.eqb_spec f (_next_id q - 1)) as [->|Hne].
  { intros. simplify_eq. symmetry. apply rows_between_none, Forall_lookup. intros i e Hi.
    rewrite (qo_ids _ Hq _ _ Hi). apply lookup_lt_Some in Hi. lia. }
  destruct (slice_rows q f u Hq Hne) as (k & Hs & Hu). rewrite Hs. intros Hr.
  pose proof (rows_loop_spec _ _ _ _ _ _ _ _ _ (increasing_drop k _ (queue_increasing _ Hq)) Hr) as Hspec.
  destruct lim; simpl in Hspec; [|congruence].
  destruct Hspec as ((e & He & Hid) & ? & -> & ?). split_and!; [lia|lia| | |done].
  - exists e. split; [|done]. apply list_elem_of_lookup in He as [i Hi]. rewrite lookup_drop in Hi.
    by eapply list_elem_of_lookup_2.
  - destruct (slice_rows q f nid Hq Hne) as (k' & Hs' & Hu'). rewrite Hs in Hs'. congruence.
Qed.

(** ** A reader that asks until the answer is complete *)

(** [None] when the fuel runs out. *)
Fixpoint catch_up (fuel : nat) (from_token upto_token target_row_count : Z)
    (q : PresenceFederationQueue) : option (list queue_row) :=
  match fuel with
  | O => None
  | S fuel' =>
      let '(rows, new_id, limited) := get_replication_rows from_token upto_token target_row_count q in
      if (limited : bool)
      then rest ← catch_up fuel' new_id upto_token target_row_count q; Some (rows ++ rest)
      else Some rows
  end.

Lemma rows_between_split f m u l :
  increasing l → (f ≤ m ≤ u)%Z → rows_between f u l = rows_between f m l ++ rows_between m u l.
Proof.
  intros Hinc Hm. induction l as [|e l IH]; [done|]. apply increasing_cons in Hinc as [Hinc Hall].
  simpl. rewrite (IH Hinc). destruct (decide (q_stream_id e ≤ m)%Z) as [Hle|Hgt].
  - rewrite (decide_False (P:=(m < _ ≤ _)%Z)) by lia. simpl. rewrite app_assoc. f_equal.
    by repeat case_decide; try lia.
  - rewrite (decide_False (P:=(f < _ ≤ m)%Z)) by lia.
    rewrite (rows_between_none f m l); [|eapply Forall_impl; [exact Hall|simpl; lia]]. simpl.
    f_equal. by repeat case_decide; try lia.
Qed.

(** The number of entries after an ID. *)
Definition entries_after (f : Z) (l : list queue_entry) : nat :=
  length (filter (λ e, (f < q_stream_id e)%Z) l).

Lemma entries_after_lt f m l e :
  (f < m)%Z → e ∈ l → q_stream_id e = m → entries_after m l < entries_after f l.
Proof.
  intros Hfm He Hm. unfold entries_after. induction l as [|e' l IH]; [by apply not_elem_of_nil in He|].
  rewrite !filter_cons. apply elem_of_cons in He as [->|He].
  - rewrite decide_False, decide_True by lia. simpl. apply Nat.lt_succ_r.
    clear IH. induction l as [|e1 l IH]; [done|]. rewrite !filter_cons.
    repeat case_decide; simpl; lia.
  - specialize (IH He). repeat case_decide; simpl; lia.
Qed.

Lemma catch_up_spec q u n fuel f :
  queue_ok q → entries_after f (_queue q) < fuel →
  catch_up fuel f u n q = Some (rows_between f u (_queue q)).
Proof.
  intros Hq. revert f. induction fuel as [|fuel IH]; intros f Hfuel; [lia|]. simpl.
  destruct (get_replication_rows f u n q) as [[rows nid] lim] eqn:Hg.
  pose proof (get_rows_spec _ _ _ _ _ _ _ Hq Hg) as Hs. destruct lim; [|by rewrite Hs].
  destruct Hs as (Hb & (e & He & Hid) & -> & _).
  rewrite IH; [|pose proof (entries_after_lt f nid (_queue q) e ltac:(lia) He Hid); lia].
  simpl. rewrite (rows_between_split f nid u); [done|by apply queue_increasing|lia].
Qed.

(** ** Histories *)
Inductive queue_op :=
  | QSend (now : Z) (users destinations : list string)
  | QClear (now : Z).

Definition queue_time (o : queue_op) : Z := match o with QSend now _ _ | QClear now => now end.

(** One operation, and the entries ever queued. *)
Definition queue_step (s : PresenceFederationQueue * list queue_entry) (o : queue_op) :
    result (PresenceFederationQueue * list queue_entry) :=
  let '(q, hist) := s in
  match o with
  | QSend now users destinations =>
      q' ← send_presence_to_destinations now users destinations q;
      Ok (q', if bool_decide (users = []) || bool_decide (destinations = []) then hist
              else hist ++ [mkEntryQ now (_next_id q) destinations (list_to_set users)])
  | QClear now => Ok (_clear_queue now q, hist)
  end.

Inductive queue_run (q0 : PresenceFederationQueue) :
    list queue_op → PresenceFederationQueue → list queue_entry → Prop :=
  | run_nil : queue_run q0 [] q0 []
  | run_snoc os o q hist q' hist' : queue_run q0 os q hist →
      (∀ o', o' ∈ os → (queue_time o' ≤ queue_time o)%Z) →
      queue_step (q, hist) o = Ok (q', hist') → queue_run q0 (os ++ [o]) q' hist'.

(** What holds of a queue with the history [hist] at the time [t]. *)
Record history_ok (t : Z) (q : PresenceFederationQueue) (hist : list queue_entry) : Prop := {
  ho_ok : queue_ok q;
  ho_flags : _presence_writer q = true ∧ _queue_presence_updates q = true;
  ho_suffix : ∃ old, hist = old ++ _queue q ∧
    Forall (λ e, (q_ts e < t - _KEEP_ITEMS_IN_QUEUE_FOR_MS)%Z) old;
  ho_past e : e ∈ hist → (q_ts e ≤ t)%Z
}.

Lemma send_ok now users dests q :
  queue_ok q → (∀ e, e ∈ _queue q → (q_ts e ≤ now)%Z) →
  queue_ok (mkQueue (q_instance_name q) (_queue_presence_updates q) (_presence_writer q)
    (_federation q) (_queue q ++ [mkEntryQ now (_next_id q) dests (list_to_set users)])
    (_next_id q + 1) (_current_tokens q) (forwarded q)).
Proof.
  intros [Hid Ht Hf] Hnow. split; simpl; rewrite ?length_app; simpl.
  - intros i e [[Hlt Hi]|[-> <-]]%lookup_snoc_Some; [rewrite (Hid _ _ Hi); lia|simpl; lia].
  - intros i j e e' Hij [[Hi He]|[-> <-]]%lookup_snoc_Some [[Hj He']|[-> <-]]%lookup_snoc_Some.
    + exact (Ht i j e e' Hij He He').
    + simpl. apply Hnow. by eapply list_elem_of_lookup_2.
    + lia.
    + done.
  - lia.
Qed.

Lemma queue_run_ok q0 os q hist t :
  queue_run q0 os q hist → _queue q0 = [] → _next_id q0 = 1%Z → _presence_writer q0 = true →
  _queue_presence_updates q0 = true → (∀ o, o ∈ os → (queue_time o ≤ t)%Z) → history_ok t q hist.
Proof.
  intros Hrun H1 H2 H3 H4. revert t. induction Hrun as [|os o q hist q' hist' Hrun IH Hclk Hstep]; intros t Ht.
  { split; [|done| |set_solver].
    - split; rewrite ?H1, ?H2; simpl; [done|done|lia].
    - exists []. by rewrite H1. }
  assert (queue_time o ≤ t)%Z as Hto by (apply Ht, elem_of_app; right; by left).
  destruct (IH (queue_time o)) as [Hok [Hw Hqu] (old & Hh & Hold) Hpast]; [auto|].
  destruct o as [now users dests|now]; simpl in Hstep, Hto, Hold, Hpast.
  - unfold send_presence_to_destinations in Hstep. rewrite Hw in Hstep. simpl in Hstep.
    destruct (_ || _) eqn:Hempty.
    + simplify_eq/=. split; [done|done| |].
      * exists old. split; [done|]. eapply Forall_impl; [exact Hold|]. simpl. lia.
      * intros e He. pose proof (Hpast e He). lia.
    + set (q1 := if _federation q then _ else q) in Hstep.
      assert (_queue q1 = _queue q ∧ _next_id q1 = _next_id q ∧ _presence_writer q1 = true ∧
        _queue_presence_updates q1 = true) as (E1 & E2 & E3 & E4)
        by (unfold q1; by destruct (_federation q)).
      rewrite E4 in Hstep. simpl in Hstep. injection Hstep as <- <-.
      assert (queue_ok q1) as Hok1 by (destruct Hok; split; rewrite ?E1, ?E2; done).
      split; simpl.
      * rewrite <- E4. apply send_ok; [done|]. rewrite E1. intros e He. apply Hpast. rewrite Hh.
        apply elem_of_app. by right.
      * done.
      * exists old. rewrite Hh, E1, E2, <- app_assoc. split; [done|].
        eapply Forall_impl; [exact Hold|]. simpl. lia.
      * intros e [He|He]%elem_of_app; [pose proof (Hpast e He); lia|].
        apply list_elem_of_singleton in He as ->. done.
  - simplify_eq/=. destruct (clear_queue_spec q now Hok) as [Hok' Hin]. split; [done|done| |].
    + unfold _clear_queue. simpl. set (n := bisect _ _).
      exists (old ++ take n (_queue q)). split; [by rewrite <- app_assoc, take_drop|].
      apply Forall_app. split; [eapply Forall_impl; [exact Hold|simpl; lia]|].
      apply Forall_lookup. intros i e [Hi Hlt]%lookup_take_Some.
      pose proof (proj1 (bisect_spec q (now - _KEEP_ITEMS_IN_QUEUE_FOR_MS) i e Hok Hi) Hlt). lia.
    + intros e He. pose proof (Hpast e He). lia.
Qed.

(** C31: a federation sender that catches up from the queue within the five minutes
    entries are kept misses no update and gets none twice: for every history of
    sends and clean-ups of the writer's queue, when everything queued after the
    position [f] of the reader is recent, asking from [f] until the answer is not
    limited ends and yields exactly the rows of the entries ever queued with an
    ID in the range, whatever the size of an answer. *)
Theorem presence_queue_catch_up instance federation os q hist t f u n :
  queue_run (new_queue instance true federation false) os q hist →
  (∀ o, o ∈ os → (queue_time o ≤ t)%Z) →
  (∀ e, e ∈ hist → (f < q_stream_id e)%Z → (t - _KEEP_ITEMS_IN_QUEUE_FOR_MS ≤ q_ts e)%Z) →
  catch_up (S (length (_queue q))) f u n q = Some (rows_between f u hist).
Proof.
  intros Hrun Ht Hrecent.
  destruct (queue_run_ok _ _ _ _ t Hrun) as [Hok _ (old & -> & Hold) _]; [done|done|done|by destruct federation|done|].
  rewrite catch_up_spec; [|done|].
  - f_equal. rewrite rows_between_app, (rows_between_none f u old); [done|].
    apply Forall_forall. intros e He. rewrite Forall_forall in Hold. pose proof (Hold e He) as Hlt. simpl in Hlt.
    intros [Hf _]. pose proof (Hrecent e ltac:(apply elem_of_app; by left) Hf). lia.
  - apply Nat.lt_succ_r. unfold entries_after. apply length_filter.
Qed.

(** ** A concrete queue *)
Definition sample_queue_ops : list queue_op :=
  [QSend 1000 ["@a:hs"] ["x"; "y"]; QSend 2000 ["@b:hs"] ["x"]; QClear 301500; QSend 302000 ["@a:hs"] ["z"]].

Lemma presence_queue_catch_up_witness :
  ∃ q hist, queue_run (new_queue "main" true false false) sample_queue_ops q hist ∧
    length (_queue q) = 2 ∧
    catch_up 3 1 3 0 q = Some [(2%Z, ("x", "@b:hs")); (3%Z, ("z", "@a:hs"))].
Proof.
  pose (e1 := mkEntryQ 1000 1 ["x"; "y"] {["@a:hs"]}).
  pose (e2 := mkEntryQ 2000 2 ["x"] {["@b:hs"]}). pose (e3 := mkEntryQ 302000 3 ["z"] {["@a:hs"]}).
  pose (q := mkQueue "main" true true false [e2; e3] 4 ∅ []).
  assert (queue_run (new_queue "main" true false false) sample_queue_ops q [e1; e2; e3]) as Hrun.
  { pose (q1 := mkQueue "main" true true false [e1] 2 ∅ []).
    pose (q2 := mkQueue "main" true true false [e1; e2] 3 ∅ []).
    pose (q3 := mkQueue "main" true true false [e2] 3 ∅ []).
    apply (run_snoc _ (take 3 sample_queue_ops) _ q3 [e1; e2]); [|set_solver by (simpl; lia)|by_vm].
    apply (run_snoc _ (take 2 sample_queue_ops) _ q2 [e1; e2]); [|set_solver by (simpl; lia)|by_vm].
    apply (run_snoc _ (take 1 sample_queue_ops) _ q1 [e1]); [|set_solver by (simpl; lia)|by_vm].
    apply (run_snoc _ [] _ (new_queue "main" true false false) []); [apply run_nil|set_solver|by_vm]. }
  exists q, [e1; e2; e3]. split; [exact Hrun|]. split; [reflexivity|].
  change (catch_up 3) with (catch_up (S (length (_queue q)))).
  rewrite (presence_queue_catch_up "main" false sample_queue_ops q [e1; e2; e3] 302000 1 3 0 Hrun).
  - reflexivity.
  - intros o Ho. unfold sample_queue_ops in Ho. set_solver by (simpl; lia).
  - intros e He. unfold _KEEP_ITEMS_IN_QUEUE_FOR_MS.
    repeat (apply elem_of_cons in He as [->|He]); simpl; try lia. by apply not_elem_of_nil in He.
Defined.
