(* ===== verification/PresenceWorker.v ===== *)
(** Syncs on workers: [WorkerPresenceHandler] of
    [textrp_briij/handlers/presence.py], and what the presence writer knows of
    them.

    A worker tells the writer when the first sync of a device starts and, with a
    delay, when its last one has ended; the commands are a log here, in the order
    they are sent.  Presence is tracked (otherwise nothing is sent).  The call of
    [set_state] on the writer and the handling of the presence stream are not
    part of this model. *)
From S2P Require Import Prelude Identifiers WheelTimer WheelTimerProps Presence PresenceProps PresenceSystem PresenceSteps PresenceTick PresenceLive.

Notation user_device := (string * option string)%type.

(** The [USER_SYNC] command, without the instance. *)
Record user_sync := mkUserSync { us_device : user_device; us_is_syncing : bool; us_last_sync_ms : Z }.

Record WorkerPresenceHandler := mkWorker {
  wk_num_current_syncs : gmap user_device Z;
  _user_devices_going_offline : gmap user_device Z;
  wk_commands : list user_sync
}.

Definition new_worker : WorkerPresenceHandler := mkWorker ∅ ∅ [].

(** [UPDATE_SYNCING_USERS.as_millis()] *)
Definition UPDATE_SYNCING_USERS : Z := 10 * 1000.

Definition send_user_sync (p : user_device) (is_syncing : bool) (last_sync_ms : Z)
    (w : WorkerPresenceHandler) : WorkerPresenceHandler :=
  mkWorker (wk_num_current_syncs w) (_user_devices_going_offline w)
    (wk_commands w ++ [mkUserSync p is_syncing last_sync_ms]).

Definition set_going_offline (f : gmap user_device Z → gmap user_device Z)
    (w : WorkerPresenceHandler) : WorkerPresenceHandler :=
  mkWorker (wk_num_current_syncs w) (f (_user_devices_going_offline w)) (wk_commands w).

Definition mark_as_coming_online (now : Z) (p : user_device) (w : WorkerPresenceHandler) :
    WorkerPresenceHandler :=
  let going_offline := _user_devices_going_offline w !! p in
  let w := set_going_offline (delete p) w in
  match going_offline with
  | Some t => if (t =? 0)%Z then send_user_sync p true now w else w
  | None => send_user_sync p true now w
  end.

Definition mark_as_going_offline (now : Z) (p : user_device) (w : WorkerPresenceHandler) :
    WorkerPresenceHandler :=
  set_going_offline (<[p:=now]>) w.

(** One round of the loop of [send_stop_syncing]. *)
Definition stop_one (now : Z) (w : WorkerPresenceHandler) (x : user_device * Z) : WorkerPresenceHandler :=
  if (UPDATE_SYNCING_USERS <? now - x.2)%Z
  then send_user_sync x.1 false x.2 (set_going_offline (delete x.1) w) else w.

Definition send_stop_syncing (now : Z) (w : WorkerPresenceHandler) : WorkerPresenceHandler :=
  foldl (stop_one now) w (map_to_list (_user_devices_going_offline w)).

(** [user_syncing], after the call of [set_state]. *)
Definition worker_user_syncing (now : Z) (p : user_device) (w : WorkerPresenceHandler) :
    WorkerPresenceHandler :=
  let n := (default 0 (wk_num_current_syncs w !! p) + 1)%Z in
  let w := mkWorker (<[p:=n]> (wk_num_current_syncs w)) (_user_devices_going_offline w) (wk_commands w) in
  if (n =? 1)%Z then mark_as_coming_online now p w else w.

(** [_end] *)
Definition worker_end (now : Z) (p : user_device) (w : WorkerPresenceHandler) : WorkerPresenceHandler :=
  match wk_num_current_syncs w !! p with
  | Some n =>
      let n := (n - 1)%Z in
      let w := mkWorker (<[p:=n]> (wk_num_current_syncs w)) (_user_devices_going_offline w) (wk_commands w) in
      if (n =? 0)%Z then mark_as_going_offline now p w else w
  | None => w
  end.

Definition get_currently_syncing_users_for_replication (w : WorkerPresenceHandler) : list user_device :=
  (filter (λ x, (0 < x.2)%Z) (map_to_list (wk_num_current_syncs w))).*1.

(** ** What the writer makes of the commands *)
Definition apply_sync (s : gset user_device) (x : user_sync) : gset user_device :=
  if us_is_syncing x then s ∪ {[us_device x]} else s ∖ {[us_device x]}.

(** The writer handles the command [x] of the process [p]. *)
Definition command_op (p : string) (now now' : Z) (x : user_sync) : presence_op :=
  OpExternalRow now now' p (us_device x).1 (us_device x).2 (us_is_syncing x) (us_last_sync_ms x).

(** Steps of the writer that are not about the process [p]; a restart forgets
    every process. *)
Definition not_about (p : string) (o : presence_op) : Prop :=
  match o with
  | OpExternalRow _ _ q _ _ _ _ | OpExternalClear _ _ q => q ≠ p
  | OpRestart _ => False
  | _ => True
  end.

(** The writer, from the state [h0] at [t0], has handled the commands [l] of the
    process [p], in order and at any times, the last one at [last], and is in the
    state [h] at [t]. Anything else may happen in between: requests, federation
    traffic, other processes, and runs of the timer loop at most five minutes
    after the last command. *)
Inductive heard (c : presence_config) (p : string) (t0 : Z) (h0 : PresenceHandler) :
    Z → option Z → list user_sync → PresenceHandler → Prop :=
  | heard_start : heard c p t0 h0 t0 None [] h0
  | heard_command t last l h x now now' :
      heard c p t0 h0 t last l h → (t ≤ now ≤ now')%Z → is_mine_id c (us_device x).1 = true →
      heard c p t0 h0 now' (Some now') (l ++ [x]) (run_op c (command_op p now now' x) h)
  | heard_step t last l h o :
      heard c p t0 h0 t last l h → op_ok c false t o → not_about p o →
      (∀ now now' tl, o = OpTick now now' → last = Some tl → (now - tl ≤ EXTERNAL_PROCESS_EXPIRY)%Z) →
      heard c p t0 h0 (op_times t o).2 last l (run_op c o h).

(** ** Histories of a worker *)
Inductive worker_op :=
  | WStart (now : Z) (p : user_device)
  | WEnd (now : Z) (p : user_device)
  | WStop (now : Z).

Definition run_worker_op (w : WorkerPresenceHandler) (o : worker_op) : WorkerPresenceHandler :=
  match o with
  | WStart now p => worker_user_syncing now p w
  | WEnd now p => worker_end now p w
  | WStop now => send_stop_syncing now w
  end.

(** A sync ends once, after it started. *)
Inductive worker_run : list worker_op → WorkerPresenceHandler → Prop :=
  | wrun_nil : worker_run [] new_worker
  | wrun_snoc os w o : worker_run os w →
      match o with
      | WEnd _ p => (0 < default 0 (wk_num_current_syncs w !! p))%Z
      | _ => True
      end → worker_run (os ++ [o]) (run_worker_op w o).

(** The syncs of a device that are in flight in a history. *)
Definition in_flight (p : user_device) (os : list worker_op) : Z :=
  foldr (λ o n, match o with
                | WStart _ p' => if decide (p' = p) then n + 1 else n
                | WEnd _ p' => if decide (p' = p) then n - 1 else n
                | WStop _ => n
                end)%Z 0%Z os.

(** The invariant: the writer has the devices with a sync in flight and those it
    has not been told about yet. *)
Record worker_ok (w : WorkerPresenceHandler) : Prop := {
  wo_count p n : wk_num_current_syncs w !! p = Some n → (0 ≤ n)%Z;
  wo_going p t : _user_devices_going_offline w !! p = Some t →
    default 0%Z (wk_num_current_syncs w !! p) = 0%Z;
  wo_writer p : p ∈ foldl apply_sync ∅ (wk_commands w) ↔
    (0 < default 0 (wk_num_current_syncs w !! p))%Z ∨ is_Some (_user_devices_going_offline w !! p)
}.
