(* ===== verification/PresenceWorkerProps.v ===== *)
(** A worker and the presence writer agree: the writer has exactly the devices
    with a sync in flight on the worker and those that stopped a moment ago; and
    a run in which it forgets them. *)
From S2P Require Import Prelude Identifiers WheelTimer WheelTimerProps Presence PresenceProps PresenceSystem PresenceSteps PresenceTick PresenceLive PresenceExamples PresenceWorker.

(** ** The operations keep the invariant *)
Lemma apply_snoc l x : foldl apply_sync ∅ (l ++ [x]) = apply_sync (foldl apply_sync ∅ l) x.
Proof. by rewrite foldl_app. Qed.

Lemma elem_of_apply s x p :
  p ∈ apply_sync s x ↔ if us_is_syncing x then p = us_device x ∨ p ∈ s else p ≠ us_device x ∧ p ∈ s.
Proof. unfold apply_sync. destruct (us_is_syncing x); set_solver. Qed.

Lemma start_ok now p w : worker_ok w → worker_ok (worker_user_syncing now p w).
Proof.
  intros [Hc Hg Hw]. unfold worker_user_syncing.
  set (n := default 0%Z (wk_num_current_syncs w !! p)).
  assert (0 ≤ n)%Z as Hn by (subst n; destruct (wk_num_current_syncs w !! p) eqn:Hp; simpl; eauto; lia).
  assert (∀ q m, <[p:=(n + 1)%Z]> (wk_num_current_syncs w) !! q = Some m → (0 ≤ m)%Z) as Hc'.
  { intros q m [[_ <-]|[_ ?]]%lookup_insert_Some; [lia|eauto]. }
  assert (∀ q, default 0%Z (<[p:=(n + 1)%Z]> (wk_num_current_syncs w) !! q) =
    if decide (q = p) then (n + 1)%Z else default 0%Z (wk_num_current_syncs w !! q)) as Hd.
  { intros q. case_decide; subst; [by rewrite lookup_insert_eq|by rewrite lookup_insert_ne]. }
  destruct (Z.eqb_spec (n + 1) 1) as [H1|H1].
  - assert (n = 0%Z) as Hn0 by lia. unfold mark_as_coming_online. simpl.
    assert (∀ q, (0 < default 0 (<[p:=(n + 1)%Z]> (wk_num_current_syncs w) !! q))%Z ∨
      is_Some (delete p (_user_devices_going_offline w) !! q) ↔
      q = p ∨ q ∈ foldl apply_sync ∅ (wk_commands w)) as Hset.
    { intros q. rewrite Hd, Hw. case_decide as Hq; subst.
      - split; [by left|left; lia].
      - rewrite lookup_delete_ne by done. naive_solver. }
    assert (∀ q t, delete p (_user_devices_going_offline w) !! q = Some t →
      default 0%Z (<[p:=(n + 1)%Z]> (wk_num_current_syncs w) !! q) = 0%Z) as Hg'.
    { intros q t [? Ht]%lookup_delete_Some. rewrite Hd, decide_False by done. eauto. }
    assert (worker_ok (send_user_sync p true now (set_going_offline (delete p)
      (mkWorker (<[p:=(n + 1)%Z]> (wk_num_current_syncs w)) (_user_devices_going_offline w)
        (wk_commands w))))) as Hsend.
    { split; simpl; [done|done|]. intros q. rewrite apply_snoc, elem_of_apply. simpl.
      by rewrite Hset. }
    destruct (_user_devices_going_offline w !! p) as [t|] eqn:Hp; [|done].
    destruct (t =? 0)%Z; [done|]. split; simpl; [done|done|]. intros q. rewrite Hset, Hw. split; [auto|].
    intros [->|?]; [right; eauto|done].
  - split; simpl; [done| |].
    + intros q t Ht. rewrite Hd. case_decide; [subst|eauto]. pose proof (Hg _ _ Ht). lia.
    + intros q. rewrite Hw, Hd. case_decide; subst; [|done]. fold n. split; intros _; left; lia.
Qed.

Lemma end_ok now p w :
  worker_ok w → (0 < default 0 (wk_num_current_syncs w !! p))%Z → worker_ok (worker_end now p w).
Proof.
  intros [Hc Hg Hw] Hpos. unfold worker_end.
  destruct (wk_num_current_syncs w !! p) as [n|] eqn:Hp; simpl in Hpos; [|lia].
  assert (∀ q m, <[p:=(n - 1)%Z]> (wk_num_current_syncs w) !! q = Some m → (0 ≤ m)%Z) as Hc'.
  { intros q m [[_ <-]|[_ ?]]%lookup_insert_Some; [lia|eauto]. }
  assert (∀ q, default 0%Z (<[p:=(n - 1)%Z]> (wk_num_current_syncs w) !! q) =
    if decide (q = p) then (n - 1)%Z else default 0%Z (wk_num_current_syncs w !! q)) as Hd.
  { intros q. case_decide; subst; [by rewrite lookup_insert_eq|by rewrite lookup_insert_ne]. }
  destruct (Z.eqb_spec (n - 1) 0) as [H1|H1]; split; simpl; try done.
  - intros q t [[<- _]|[? Ht]]%lookup_insert_Some; rewrite Hd; [by rewrite decide_True|].
    rewrite decide_False by done. eauto.
  - intros q. rewrite Hw, Hd. case_decide; subst.
    + rewrite Hp, lookup_insert_eq. simpl. split; intros _; [right; eauto|left; lia].
    + by rewrite lookup_insert_ne.
  - intros q t Ht. rewrite Hd. case_decide; [subst|eauto].
    pose proof (Hg _ _ Ht) as H0. rewrite Hp in H0. simpl in H0. lia.
  - intros q. rewrite Hw, Hd. case_decide; subst; [|done]. rewrite Hp. simpl. split; intros _; left; lia.
Qed.

Lemma stop_one_ok now w x :
  worker_ok w → _user_devices_going_offline w !! x.1 = Some x.2 →
  worker_ok (stop_one now w x) ∧ wk_num_current_syncs (stop_one now w x) = wk_num_current_syncs w ∧
  ∀ q, q ≠ x.1 → _user_devices_going_offline (stop_one now w x) !! q = _user_devices_going_offline w !! q.
Proof.
  intros [Hc Hg Hw] Hx. unfold stop_one. destruct (_ <? _)%Z; [|done]. simpl. split; [|split; [done|]].
  - split; simpl; [done| |].
    + intros q t [_ Ht]%lookup_delete_Some. eauto.
    + intros q. rewrite apply_snoc, elem_of_apply. simpl. rewrite Hw.
      destruct (decide (q = x.1)) as [->|Hne].
      * rewrite lookup_delete_eq, (Hg _ _ Hx). split; [by intros []|]. intros [?|[? ?]]; [lia|done].
      * rewrite lookup_delete_ne by done. naive_solver.
  - intros q Hne. by apply lookup_delete_ne.
Qed.

Lemma stop_ok now w : worker_ok w → worker_ok (send_stop_syncing now w).
Proof.
  intros Hw. unfold send_stop_syncing.
  assert (∀ l, NoDup l.*1 → ∀ w, worker_ok w →
    (∀ x, x ∈ l → _user_devices_going_offline w !! x.1 = Some x.2) →
    worker_ok (foldl (stop_one now) w l)) as Hgen.
  { induction l as [|x l IH]; intros Hnd w0 Hw0 Hl; simpl; [done|].
    apply NoDup_cons in Hnd as [Hx Hnd].
    destruct (stop_one_ok now w0 x Hw0 (Hl x ltac:(by left))) as (Hw1 & _ & Hk).
    apply IH; [done|done|]. intros y Hy. rewrite Hk; [apply Hl; by right|].
    intros Heq. apply Hx. rewrite <- Heq. by apply list_elem_of_fmap_2. }
  apply Hgen; [apply NoDup_fst_map_to_list|done|]. intros [q t] Hq. by apply elem_of_map_to_list.
Qed.

Lemma new_worker_ok : worker_ok new_worker.
Proof.
  split; simpl; [done|done|]. intros p. rewrite !lookup_empty. simpl. split; [set_solver|].
  intros [?|[? ?]]; [lia|done].
Qed.

Lemma worker_run_ok os w : worker_run os w → worker_ok w.
Proof.
  induction 1 as [|os w o _ IH Ho]; [apply new_worker_ok|].
  destruct o; simpl in *; auto using start_ok, end_ok, stop_ok.
Qed.

(** The counter of a device is the number of its syncs in flight. *)
Lemma in_flight_snoc p os o :
  in_flight p (os ++ [o]) = (in_flight p os + in_flight p [o])%Z.
Proof.
  unfold in_flight. induction os as [|o' os IH]; simpl; [by destruct o; repeat case_decide|].
  rewrite IH. destruct o'; repeat case_decide; simpl; lia.
Qed.

Lemma stop_counts now w : wk_num_current_syncs (send_stop_syncing now w) = wk_num_current_syncs w.
Proof.
  unfold send_stop_syncing. generalize (map_to_list (_user_devices_going_offline w)). intros l.
  revert w. induction l as [|x l IH]; intros w; simpl; [done|]. rewrite IH. unfold stop_one.
  by destruct (_ <? _)%Z.
Qed.

Lemma start_counts now p w :
  wk_num_current_syncs (worker_user_syncing now p w) =
  <[p:=(default 0 (wk_num_current_syncs w !! p) + 1)%Z]> (wk_num_current_syncs w).
Proof.
  unfold worker_user_syncing, mark_as_coming_online. destruct (_ =? 1)%Z; [|done]. simpl.
  destruct (_user_devices_going_offline w !! p); [by destruct (_ =? 0)%Z|done].
Qed.

Lemma end_counts now p w n :
  wk_num_current_syncs w !! p = Some n →
  wk_num_current_syncs (worker_end now p w) = <[p:=(n - 1)%Z]> (wk_num_current_syncs w).
Proof. intros Hp. unfold worker_end. rewrite Hp. by destruct (_ =? 0)%Z. Qed.

Lemma worker_run_counts os w p :
  worker_run os w → default 0%Z (wk_num_current_syncs w !! p) = in_flight p os.
Proof.
  induction 1 as [|os w o _ IH Ho]; [done|]. rewrite in_flight_snoc, <- IH.
  destruct o as [now q|now q|now]; simpl run_worker_op; unfold in_flight; simpl.
  - rewrite start_counts. case_decide; subst; [by rewrite lookup_insert_eq|].
    rewrite lookup_insert_ne by done. lia.
  - destruct (wk_num_current_syncs w !! q) as [n|] eqn:Hq; simpl in Ho; [|lia].
    rewrite (end_counts _ _ _ _ Hq). case_decide; subst.
    + rewrite lookup_insert_eq, Hq. simpl. lia.
    + rewrite lookup_insert_ne by done. lia.
  - rewrite stop_counts. lia.
Qed.

(** ** What the writer keeps of a process *)
Definition keeps {A} (m : ST PresenceHandler A) : Prop := ∀ h,
  external_process_to_current_syncs (m h).1 = external_process_to_current_syncs h ∧
  external_process_last_updated_ms (m h).1 = external_process_last_updated_ms h.

Lemma keeps_bind {A B} (m : ST PresenceHandler A) (f : A → ST PresenceHandler B) :
  keeps m → (∀ x, keeps (f x)) → keeps (st_bind m f).
Proof.
  intros Hm Hf h. unfold st_bind. specialize (Hm h). destruct (m h) as [h1 [x|e]]; [|done].
  destruct (Hf x h1) as [-> ->]. exact Hm.
Qed.

Lemma keeps_fold {A B} (f : B → A → ST PresenceHandler B) l b :
  (∀ b x, keeps (f b x)) → keeps (st_fold f l b).
Proof.
  intros Hf. revert b. induction l as [|x l IH]; intros b; simpl; [done|]. apply keeps_bind; auto.
Qed.

Lemma keeps_on_wheel {A} (m : ST (WheelTimer string) A) : keeps (on_wheel m).
Proof. intros h. unfold on_wheel. by destruct (m (wheel_timer h)). Qed.

Lemma keeps_on_devices {A} (m : ST (gmap string device_map) A) : keeps (on_devices m).
Proof. intros h. unfold on_devices. by destruct (m (_user_to_device_to_current_state h)). Qed.

Create HintDb keeps.
#[local] Hint Resolve keeps_on_wheel keeps_on_devices : keeps.

Local Ltac keep :=
  lazymatch goal with
  | |- keeps (st_bind _ _) => apply keeps_bind; [keep|intros; keep]
  | |- keeps (st_fold _ _ _) => apply keeps_fold; intros; keep
  | |- keeps (match _ with _ => _ end) => case_match; keep
  | |- keeps (let _ := _ in _) => cbv zeta; keep
  | |- _ => first [solve [auto with keeps nocore] | by intros ?]
  end.

Lemma keeps_update_states c news force now : keeps (_update_states c news force now).
Proof. unfold _update_states, update_one, _persist_and_notify. keep. Qed.

Lemma keeps_current_states us : keeps (current_state_for_users us).
Proof. unfold current_state_for_users, fill_missing. keep. Qed.
#[local] Hint Resolve keeps_update_states keeps_current_states : keeps.

Lemma keeps_current_state u : keeps (current_state_for_user u).
Proof. unfold current_state_for_user. keep. Qed.
#[local] Hint Resolve keeps_current_state : keeps.

Lemma keeps_set_state c now now' u id p s f i : keeps (set_state c now now' u id p s f i).
Proof. unfold set_state. keep. Qed.
#[local] Hint Resolve keeps_set_state : keeps.

Lemma keeps_sync_end c now now' u id : keeps (user_sync_end c now now' u id).
Proof.
  intros h. unfold user_sync_end.
  match goal with |- context [st_bind ?m ?f h] => assert (keeps (st_bind m f)) as Hk by keep end.
  specialize (Hk h). by destruct (st_bind _ _ h).
Qed.

Lemma keeps_incoming c now now' o ps : keeps (incoming_presence c now now' o ps).
Proof. unfold incoming_presence, incoming_push. keep. Qed.

(** What the writer knows of the process [p]. *)
Definition known_of (h : PresenceHandler) (p : string) : option (gset user_device) * option Z :=
  (external_process_to_current_syncs h !! p, external_process_last_updated_ms h !! p).

Lemma keeps_known {A} (m : ST PresenceHandler A) h p : keeps m → known_of (m h).1 p = known_of h p.
Proof. intros Hm. unfold known_of. by destruct (Hm h) as [-> ->]. Qed.

Lemma row_known_of c now now' q u id b ts h p :
  q ≠ p → known_of (update_external_syncs_row c now now' q u id b ts h).1 p = known_of h p.
Proof.
  intros Hne. unfold update_external_syncs_row, st_bind, st_get, st_modify, st_ret.
  pose proof (keeps_current_state u h) as Hk. destruct (current_state_for_user u h) as [h1 [st|e]];
    unfold known_of in *; simpl in Hk |- *; destruct Hk as [<- <-]; [|done].
  case_bool_decide; destruct b; simpl; rewrite ?lookup_insert_ne by done; try done.
  match goal with |- context [_update_states c ?n ?f ?t ?g] =>
    pose proof (keeps_update_states c n f t g) as [E1 E2]; destruct (_update_states c n f t g) as [h2 [?|?]] end;
    simpl in *; rewrite ?E1, ?E2; simpl; rewrite ?lookup_insert_ne by done; done.
Qed.

Lemma clear_known_of c now now' q h p :
  q ≠ p → known_of (update_external_syncs_clear c now now' q h).1 p = known_of h p.
Proof.
  intros Hne. unfold update_external_syncs_clear, st_bind, st_get, st_modify.
  match goal with |- context [st_fold ?f ?l tt ?g] =>
    assert (keeps (st_fold f l tt)) as Hk by keep; specialize (Hk g); destruct (st_fold f l tt g) as [h1 r1] end.
  destruct Hk as [E1 E2]. simpl in E1, E2. unfold known_of.
  destruct r1 as [?|?]; simpl; [|by rewrite E1, E2, lookup_delete_ne].
  match goal with |- context [current_state_for_users ?us h1] =>
    pose proof (keeps_current_states us h1) as [E3 E4]; destruct (current_state_for_users us h1) as [h2 [?|?]] end;
    simpl in *; [|by rewrite E3, E4, E1, E2, lookup_delete_ne].
  match goal with |- context [_update_states c ?n ?f ?t h2] =>
    pose proof (keeps_update_states c n f t h2) as [E5 E6]; destruct (_update_states c n f t h2) as [h3 [?|?]] end;
    simpl in *; rewrite E5, E6, E3, E4, E1, E2; by rewrite ?lookup_delete_ne.
Qed.

Lemma tick_known_of c now now' h p :
  p ∉ expired_of now h → known_of (_handle_timeouts c now now' h).1 p = known_of h p.
Proof.
  intros Hp. rewrite handle_timeouts_eq, keeps_known by keep. unfold known_of, after_expiry. simpl.
  f_equal; apply option_eq; intros x; rewrite map_lookup_filter_Some; naive_solver.
Qed.

(** A step that is not about [p], and no run of the loop that finds it expired,
    changes nothing of it. *)
Lemma step_known_of c o h p :
  not_about p o → (∀ now now', o = OpTick now now' → p ∉ expired_of now h) →
  known_of (run_op c o h) p = known_of h p.
Proof.
  intros Ho Hx. destruct o; simpl in *; try done.
  - by apply tick_known_of, (Hx now now').
  - apply keeps_known. unfold bump_presence_active_time. keep.
  - apply keeps_known. keep.
  - apply keeps_known. unfold user_syncing. keep.
  - apply keeps_known, keeps_sync_end.
  - by apply row_known_of.
  - by apply clear_known_of.
  - apply keeps_known, keeps_incoming.
  - apply keeps_known. unfold send_full_presence_to_users, get_state, get_states. keep.
  - apply keeps_known. keep.
  - apply keeps_known. unfold _persist_unpersisted_changes. keep.
Qed.

(** A process the writer does not know stays unknown. *)
Lemma unknown_step c o h p :
  not_about p o → external_process_to_current_syncs h !! p = None →
  external_process_to_current_syncs (run_op c o h) !! p = None.
Proof.
  intros Ho Hn.
  assert ((∃ now now', o = OpTick now now') ∨ (∀ now now', o ≠ OpTick now now')) as [(now & now' & ->)|Hnt]
    by (destruct o; [left; eauto|right; done..]).
  - simpl. rewrite handle_timeouts_eq.
    match goal with |- context [st_bind ?m ?f ?g] =>
      assert (keeps (st_bind m f)) as Hk by keep; destruct (Hk g) as [E _] end.
    simpl in E |- *. rewrite E. apply map_lookup_filter_None. by left.
  - pose proof (step_known_of c o h p Ho) as Hk.
    assert (known_of (run_op c o h) p = known_of h p) as [= -> _]; [|done].
    apply Hk. intros now now' ->. by destruct (Hnt now now').
Qed.

(** ** The writer *)
Section writer.
Context (c : presence_config).
Hypothesis Henabled : _presence_enabled c = true.
Hypothesis Htrack : _track_presence c = true.

Lemma not_expired now h p :
  (∀ tl, external_process_last_updated_ms h !! p = Some tl → (now - tl ≤ EXTERNAL_PROCESS_EXPIRY)%Z) →
  p ∉ expired_of now h.
Proof.
  intros Hl. unfold expired_of, expired_processes. rewrite elem_of_dom.
  intros [tl [Htl Hx]%map_lookup_filter_Some]. specialize (Hl tl Htl). simpl in Hx. lia.
Qed.

(** The writer has of the process what its commands say, and the time of the last. *)
Lemma heard_known p t0 h0 t last l h :
  presence_inv c false t0 h0 → external_process_to_current_syncs h0 !! p = None →
  heard c p t0 h0 t last l h →
  presence_inv c false t h ∧
  match last with
  | None => l = [] ∧ external_process_to_current_syncs h !! p = None
  | Some tl => known_of h p = (Some (foldl apply_sync ∅ l), Some tl)
  end.
Proof.
  intros Hinv0 Hnone. induction 1 as [|t last l h x now now' _ [Hinv Hk] Hle Hm|t last l h o _ [Hinv Hk] Hok Ho Hx].
  - done.
  - destruct (external_row_inv c Henabled Htrack false t now now' p (us_device x).1 (us_device x).2
      (us_is_syncing x) (us_last_sync_ms x) h Hinv Hm Hle) as (h1 & Hr & Hinv1 & Hs & Hu).
    simpl. rewrite Hr. simpl. split; [done|]. unfold known_of. rewrite Hs, Hu, lookup_insert_eq, foldl_app.
    simpl. f_equal. f_equal. unfold apply_sync. rewrite <- surjective_pairing.
    destruct last as [tl|]; [injection Hk as -> _; done|]. by destruct Hk as [-> ->].
  - split; [by apply (step_inv c Henabled Htrack)|]. destruct last as [tl|].
    + rewrite (step_known_of c o h p Ho); [done|]. intros now now' ->. apply not_expired.
      injection Hk as _ Hl. rewrite Hl. intros ? [= <-]. by eapply Hx.
    + destruct Hk as [-> Hk]. split; [done|]. by apply unknown_step.
Qed.
End writer.
Lemma syncing_external h p s :
  external_process_to_current_syncs h !! p = Some s → s ⊆ syncing_user_devices h.
Proof.
  intros Hp x Hx. unfold syncing_user_devices. apply elem_of_union. right.
  apply elem_of_union_list. exists s. split; [|done]. apply list_elem_of_fmap. exists (p, s).
  split; [done|]. by apply elem_of_map_to_list.
Qed.

(** C32: syncs on a worker and the presence writer.  Take any history of syncs on a
    worker, and a presence writer that did not know the process and has by now
    handled all the commands it sent, in order and at any times, with any requests,
    federation traffic, other processes and timer runs in between, provided the
    writer does not restart, nobody clears the process, and no timer run comes
    more than five minutes after the last command handled. Then a device with a
    sync in flight on the worker is one the writer counts as syncing, and the
    writer has no other device of the worker than those and the ones whose last
    sync has ended without the writer having been told yet. A worker whose devices
    keep syncing sends no commands, so the five minutes do pass in practice
    ([busy_worker_is_quiet], [syncing_user_shown_offline]). *)
Theorem worker_syncs_known_to_writer c p t0 h0 t last h os w :
  _presence_enabled c = true → _track_presence c = true → reachable c false t0 h0 →
  external_process_to_current_syncs h0 !! p = None → worker_run os w →
  heard c p t0 h0 t last (wk_commands w) h →
  (∀ d, (0 < in_flight d os)%Z → d ∈ syncing_user_devices h) ∧
  (∀ d, d ∈ default ∅ (external_process_to_current_syncs h !! p) ↔
     (0 < in_flight d os)%Z ∨ is_Some (_user_devices_going_offline w !! d)).
Proof.
  intros He Ht Hr Hp Hrun Hh.
  destruct (heard_known c He Ht p t0 h0 t last _ h (reachable_inv c He Ht false t0 h0 Hr) Hp Hh) as [_ Hk].
  assert (default ∅ (external_process_to_current_syncs h !! p) = foldl apply_sync ∅ (wk_commands w)) as Hs.
  { destruct last as [tl|]; [by injection Hk as -> _|]. by destruct Hk as [-> ->]. }
  assert (∀ d, d ∈ default ∅ (external_process_to_current_syncs h !! p) ↔
     (0 < in_flight d os)%Z ∨ is_Some (_user_devices_going_offline w !! d)) as Hset.
  { intros d. rewrite Hs, (wo_writer _ (worker_run_ok _ _ Hrun)), (worker_run_counts _ _ _ Hrun). done. }
  split; [|done]. intros d Hd.
  assert (d ∈ default ∅ (external_process_to_current_syncs h !! p)) as Hin by (apply Hset; by left).
  destruct (external_process_to_current_syncs h !! p) as [s|] eqn:Hps; simpl in Hin; [|set_solver].
  by apply (syncing_external h p s).
Qed.

(** ** Runs *)
Definition phone : user_device := (alice, Some "PHONE").

(** A command at [T0], and a run of the timer loop four minutes later. *)
Lemma worker_syncs_known_to_writer_witness :
  phone ∈ syncing_user_devices
    (run_ops sample_config [command_op "worker1" T0 T0 (mkUserSync phone true T0);
       OpTick (T0 + 240000) (T0 + 240000)] fresh_handler).
Proof.
  assert (worker_run [WStart T0 phone] (worker_user_syncing T0 phone new_worker)) as Hrun.
  { apply (wrun_snoc [] new_worker (WStart T0 phone)); [apply wrun_nil|done]. }
  destruct (worker_syncs_known_to_writer sample_config "worker1" T0 fresh_handler (T0 + 240000) (Some T0)
    (run_ops sample_config [command_op "worker1" T0 T0 (mkUserSync phone true T0);
       OpTick (T0 + 240000) (T0 + 240000)] fresh_handler)
    [WStart T0 phone] (worker_user_syncing T0 phone new_worker)) as [H _];
    [reflexivity|reflexivity|by apply fresh_reachable|reflexivity|exact Hrun| |].
  - apply (heard_step sample_config "worker1" T0 fresh_handler T0 (Some T0) [mkUserSync phone true T0]
      _ (OpTick (T0 + 240000) (T0 + 240000))).
    + apply (heard_command _ _ _ _ T0 None [] fresh_handler (mkUserSync phone true T0) T0 T0);
        [apply heard_start|lia|by_vm].
    + split; [simpl; lia|exact I].
    + exact I.
    + intros now now' tl [= <- _] [= <-]. unfold EXTERNAL_PROCESS_EXPIRY. lia.
  - apply H. reflexivity.
Defined.

(** A phone that syncs all the time, with gaps of a second: the worker says so once. *)
Definition busy_worker : WorkerPresenceHandler :=
  foldl run_worker_op new_worker
    (WStart T0 phone ::
     (seq 1 11 ≫= λ i, let t := (T0 + 30000 * Z.of_nat i)%Z in
        [WEnd (t - 1000) phone; WStop (t - 500); WStart t phone])).

Example busy_worker_is_quiet :
  wk_commands busy_worker = [mkUserSync phone true T0] ∧
  wk_num_current_syncs busy_worker !! phone = Some 1%Z.
Proof. split; by_vm. Qed.

(** The writer hears nothing from the worker for five minutes and drops it.  The
    sync that began at five and a half minutes does not count any more: while it
    is in flight, alice goes offline. *)
Definition writer_with_busy_worker : PresenceHandler :=
  run_ops sample_config
    [OpTick (T0 + 305000) (T0 + 305000);
     OpSetState (T0 + 330000) (T0 + 330000) alice (Some "PHONE") PresenceState.ONLINE None false true;
     OpTick (T0 + 365000) (T0 + 365000)]
    (run_ops sample_config
       (OpSetState T0 T0 alice (Some "PHONE") PresenceState.ONLINE None false true ::
        (command_op "worker1" T0 T0 <$> wk_commands busy_worker)) fresh_handler).

Example syncing_user_shown_offline :
  show writer_with_busy_worker alice = Some PresenceState.OFFLINE ∧
  external_process_to_current_syncs writer_with_busy_worker = ∅.
Proof. split; by_vm. Qed.
