(* ===== verification/Visibility.v ===== *)
(** Who may see an event: [textrp_briij/visibility.py], and the function
    [event_visible_to_server] it calls ([rust/src/events/filter.rs]).

    The functions read a snapshot of the database, [visibility_db]; a call reads
    the clock once.  Log lines are left out. *)
From S2P Require Import Prelude RoomVersions Identifiers Events Redaction StateFilter.
From Stdlib Require Import Ascii.

Module HistoryVisibility.
Definition INVITED : string := "invited".
Definition JOINED : string := "joined".
Definition SHARED : string := "shared".
Definition WORLD_READABLE : string := "world_readable".
End HistoryVisibility.

Definition CallInvite : string := "m.call.invite".
Definition Dummy : string := "org.matrix.dummy_event".
(** [EventUnsignedContentFields.MEMBERSHIP], [STICKY_TTL] *)
Definition UNSIGNED_MEMBERSHIP : string := "membership".
Definition STICKY_TTL : string := "msc4354_sticky_duration_ttl_ms".

Definition VISIBILITY_PRIORITY : list string :=
  [HistoryVisibility.WORLD_READABLE; HistoryVisibility.SHARED; HistoryVisibility.INVITED;
   HistoryVisibility.JOINED].
Definition MEMBERSHIP_PRIORITY : list string :=
  [Membership.JOIN; Membership.INVITE; Membership.KNOCK; Membership.LEAVE; Membership.BAN].
Definition _HISTORY_VIS_KEY : StateKey := (RoomHistoryVisibility, "").

(** ** Data *)

(** An event with the internal metadata the functions read. *)
Record room_event := mkRoomEvent {
  re_event : event;
  re_soft_failed : bool;
  re_policy_server_spammy : bool;
  re_outlier : bool
}.

Record RetentionPolicy := mkRetention { min_lifetime : option Z; max_lifetime : option Z }.

Record AdminClientConfig := mkAdminConfig {
  return_soft_failed_events : bool;
  return_policy_server_spammy_events : bool
}.

(** What is read from the database: the state after each event as event IDs (none
    for outliers), the events, who ignores whom, the erased users, the retention
    policy of each room, the server administrators with their settings, the rooms
    with partial state; and whether MSC4354 is enabled. *)
Record visibility_db := mkVisDb {
  db_state_ids : gmap string (gmap StateKey string);
  db_events : gmap string event;
  db_ignores : gset (string * string);
  db_erased : gset string;
  get_retention_policy_for_room : string → RetentionPolicy;
  db_server_admins : gset string;
  get_admin_client_config_for_user : string → AdminClientConfig;
  db_partial_state_rooms : gset string;
  vis_msc4354_enabled : bool
}.

(** [event.unsigned] *)
Definition unsigned (e : event) : result pydict :=
  mapping_of (dict_get_or (ev_other e) "unsigned" (JDict [])).

Definition set_unsigned (d : pydict) (e : event) : event :=
  mkEvent (ev_room_version e) (ev_type e) (ev_sender e) (ev_state_key e) (ev_content e)
    (ev_dict_room_id e) (ev_v1_event_id e) (ev_ref_hash e) (ev_prev_events e) (ev_auth_events e)
    (ev_origin_server_ts e) (ev_signatures e) (ev_rejected_reason e) (ev_recheck_redaction e)
    (dict_set (ev_other e) "unsigned" (JDict d)).

(** [if x not in l: x = d] *)
Definition known_or (l : list string) (d : string) (x : json) : string :=
  match x with
  | JStr s => if decide (s ∈ l) then s else d
  | _ => d
  end.

(** [l.index(x)] *)
Fixpoint py_index (l : list string) (x : string) : result Z :=
  match l with
  | [] => Raise ValueError
  | y :: l' => if String.eqb x y then Ok 0%Z else i ← py_index l' x; Ok (i + 1)%Z
  end.

(** [event.unsigned.get("prev_content", {}).get(key, None)] *)
Definition prev_content_get (e : event) (key : string) : result json :=
  uns ← unsigned e;
  prev_content ← mapping_of (dict_get_or uns "prev_content" (JDict []));
  Ok (dict_get_or prev_content key JNull).

(** [old] when it comes before [new] in the list, [new] otherwise *)
Definition most_lax (l : list string) (new old : string) : result string :=
  new_priority ← py_index l new;
  old_priority ← py_index l old;
  Ok (if (old_priority <? new_priority)%Z then old else new).

(** [event.type == EventTypes.Member and event.state_key == user_id] *)
Definition is_own_membership (user_id : string) (e : event) : result bool :=
  if String.eqb (ev_type e) EventTypes.Member
  then k ← state_key e; Ok (String.eqb k user_id) else Ok false.

(** ** The checks *)
Record _CheckMembershipReturn := mkMembershipReturn { cm_allowed : bool; cm_joined : bool }.

(** The first half of [_check_membership]: a final answer, or the membership to
    go by. *)
Definition effective_membership (user_id : string) (e : event) (state : gmap StateKey event) :
    result (_CheckMembershipReturn + json) :=
  own ← is_own_membership user_id e;
  if (own : bool) then
    let membership := known_or MEMBERSHIP_PRIORITY "leave" (dict_get_or (ev_content e) "membership" JNull) in
    prev ← prev_content_get e "membership";
    let prev_membership := known_or MEMBERSHIP_PRIORITY "leave" prev in
    if String.eqb membership "leave" &&
       (String.eqb prev_membership "join" || String.eqb prev_membership "invite")
    then Ok (inl (mkMembershipReturn true false))
    else m ← most_lax MEMBERSHIP_PRIORITY membership prev_membership; Ok (inr (JStr m))
  else
    match state !! (EventTypes.Member, user_id) with
    | Some membership_event => m ← membership membership_event; Ok (inr m)
    | None => Ok (inr JNull)
    end.

Definition _check_membership (user_id : string) (e : event) (visibility : string)
    (state : gmap StateKey event) (is_peeking : bool) : result _CheckMembershipReturn :=
  r ← effective_membership user_id e state;
  Ok match r with
     | inl answer => answer
     | inr membership =>
         if json_is_str membership Membership.JOIN then mkMembershipReturn true true
         else if String.eqb visibility HistoryVisibility.JOINED then mkMembershipReturn false false
         else if String.eqb visibility HistoryVisibility.INVITED
         then mkMembershipReturn (json_is_str membership Membership.INVITE) false
         else if String.eqb visibility HistoryVisibility.SHARED && is_peeking
         then mkMembershipReturn false false
         else mkMembershipReturn true false
     end.

Inductive _CheckFilter := MAYBE_ALLOWED | DENIED.

#[export] Instance CheckFilter_eq_dec : EqDecision _CheckFilter.
Proof. solve_decision. Defined.

Definition _check_filter_send_to_client (e : event) (now : Z) (policy : RetentionPolicy)
    (sender_ignored : bool) : _CheckFilter :=
  if String.eqb (ev_type e) Dummy then DENIED
  else if negb (is_state e) && sender_ignored then DENIED
  else if String.eqb (ev_type e) EventTypes.Aliases then DENIED
  else if negb (is_state e) then
    match max_lifetime policy with
    | Some max_lifetime =>
        if (ev_origin_server_ts e <? now - max_lifetime)%Z then DENIED else MAYBE_ALLOWED
    | None => MAYBE_ALLOWED
    end
  else MAYBE_ALLOWED.

Inductive _CheckVisibility := ALLOWED | MAYBE_DENIED.

Definition _check_history_visibility (e : event) (visibility : string) (is_peeking : bool) :
    result _CheckVisibility :=
  visibility ←
    (if String.eqb (ev_type e) RoomHistoryVisibility then
       prev ← prev_content_get e "history_visibility";
       most_lax VISIBILITY_PRIORITY visibility (known_or VISIBILITY_PRIORITY HistoryVisibility.SHARED prev)
     else Ok visibility);
  Ok (if String.eqb visibility HistoryVisibility.SHARED && negb is_peeking then ALLOWED
      else if String.eqb visibility HistoryVisibility.WORLD_READABLE then ALLOWED
      else MAYBE_DENIED).

Definition get_effective_room_visibility_from_state (state : gmap StateKey event) : string :=
  match state !! _HISTORY_VIS_KEY with
  | None => HistoryVisibility.SHARED
  | Some visibility_event =>
      known_or VISIBILITY_PRIORITY HistoryVisibility.SHARED
        (dict_get_or (ev_content visibility_event) "history_visibility"
           (JStr HistoryVisibility.SHARED))
  end.

(** [_check_client_allowed_to_see_event]: nothing, or the event to show, with
    [prune_event] applied where only that may be seen. *)
Definition _check_client_allowed_to_see_event (user_id : string) (e : room_event) (now : Z)
    (filter_send_to_client is_peeking : bool) (always_include_ids : gset string)
    (sender_ignored : bool) (policy : RetentionPolicy) (state : option (gmap StateKey event))
    (sender_erased : bool) : result (option event) :=
  let ev := re_event e in
  if filter_send_to_client &&
     (match _check_filter_send_to_client ev now policy sender_ignored with
      | DENIED => true | MAYBE_ALLOWED => false end)
  then Ok None
  else if decide (event_id ev ∈ always_include_ids) then Ok (Some ev)
  else if re_outlier e then
    own ← is_own_membership user_id ev;
    Ok (if (own : bool) then Some ev else None)
  else
    state ← of_option state (PyException "Missing state for non-outlier event");
    let visibility := get_effective_room_visibility_from_state state in
    lax ← (if sender_erased then Ok MAYBE_DENIED
           else _check_history_visibility ev visibility is_peeking);
    match lax with
    | ALLOWED => Ok (Some ev)
    | MAYBE_DENIED =>
        r ← _check_membership user_id ev visibility state is_peeking;
        if negb (cm_allowed r) then Ok None
        else if sender_erased && negb (cm_joined r) then Some <$> prune_event ev
        else Ok (Some ev)
    end.

(** ** Reading the database *)

(** The events of a state, those that are not found left out. *)
Definition events_of (db : visibility_db) (ids : gmap StateKey string) : gmap StateKey event :=
  omap (λ i, db_events db !! i) ids.

(** [get_state_ids_for_events] *)
Definition get_state_ids_for_events (db : visibility_db) (event_ids : gset string)
    (f : StateFilter) : result (gmap string (gmap StateKey string)) :=
  fold_res (λ m i,
    ids ← of_option (db_state_ids db !! i) (RuntimeError "Unknown or outlier events");
    Ok (<[i:=filter_state f ids]> m)) (elements event_ids) ∅.

(** [get_state_for_events] *)
Definition get_state_for_events (db : visibility_db) (event_ids : gset string)
    (f : StateFilter) : result (gmap string (gmap StateKey event)) :=
  m ← get_state_ids_for_events db event_ids f;
  Ok (fmap (M:=gmap string) (events_of db) m).

(** [store.ignored_users], [store.ignored_by] *)
Definition ignored_users (db : visibility_db) (user_id : string) : gset string :=
  set_map snd (filter (λ p, p.1 = user_id) (db_ignores db)).
Definition ignored_by (db : visibility_db) (user_id : string) : gset string :=
  set_map fst (filter (λ p, p.2 = user_id) (db_ignores db)).

(** ** [filter_and_transform_events_for_client] *)

Definition is_call_invite (e : event) : bool := String.eqb (ev_type e) CallInvite && negb (is_state e).

(** The events that are checked, after the soft-failed ones are left out. *)
Definition events_to_check (db : visibility_db) (user_id : string) (filter_send_to_client : bool)
    (events : list room_event) : list room_event :=
  let config := get_admin_client_config_for_user db user_id in
  if filter_send_to_client && bool_decide (user_id ∈ db_server_admins db) then
    if return_soft_failed_events config then events
    else if return_policy_server_spammy_events config
    then filter (λ e, negb (re_soft_failed e) || re_policy_server_spammy e = true) events
    else filter (λ e, re_soft_failed e = false) events
  else filter (λ e, re_soft_failed e = false) events.

(** [retention_policies]: the variable has no value when [filter_send_to_client]
    is false. *)
Definition retention_policies (db : visibility_db) (filter_send_to_client : bool)
    (events : list room_event) : result (option (gmap string RetentionPolicy)) :=
  if filter_send_to_client then
    m ← fold_res (λ m e,
          rid ← room_id (re_event e);
          Ok (<[rid:=get_retention_policy_for_room db rid]> m)) events ∅;
    Ok (Some m)
  else Ok None.

(** The annotation of an event with what the client is told about it. *)
Definition annotate (db : visibility_db) (now : Z) (user_membership : json) (e : event) :
    result event :=
  uns ← unsigned e;
  let uns := dict_set uns UNSIGNED_MEMBERSHIP user_membership in
  uns ← (if vis_msc4354_enabled db then
           sticky ← sticky_duration e;
           match sticky with
           | Some d =>
               if (d =? 0)%Z then Ok uns
               else
                 let expires_at := (Z.min (ev_origin_server_ts e) now + d)%Z in
                 Ok (if (now <? expires_at)%Z then dict_set uns STICKY_TTL (JInt (expires_at - now))
                     else uns)
           | None => Ok uns
           end
         else Ok uns);
  Ok (set_unsigned uns e).

(** The membership of the user after the event. *)
Definition user_membership_at (user_id : string) (e : event)
    (state_after_event : option (gmap StateKey event)) : result json :=
  own ← is_own_membership user_id e;
  if (own : bool) then membership e
  else
    match state_after_event with
    | Some state =>
        match state !! (EventTypes.Member, user_id) with
        | Some m => membership m
        | None => Ok (JStr Membership.LEAVE)
        end
    | None => Raise (PyException "Missing state for event that is not user's own membership")
    end.

(** Whether an event rings the members of a public room. *)
Definition rings_public_room (e : event) (state_after_event : option (gmap StateKey event)) :
    result bool :=
  if is_call_invite e then
    state ← of_option state_after_event AssertionError;
    Ok match state !! (EventTypes.JoinRules, "") with
       | Some room_join_rules =>
           json_is_str (dict_get_or (ev_content room_join_rules) "join_rule" JNull) JoinRules.PUBLIC
       | None => false
       end
  else Ok false.

(** The inner function [allowed]. *)
Definition allowed (db : visibility_db) (now : Z) (user_id : string)
    (is_peeking filter_send_to_client : bool) (always_include_ids : gset string)
    (event_id_to_state : gmap string (gmap StateKey event))
    (policies : option (gmap string RetentionPolicy)) (e : room_event) :
    result (option room_event) :=
  let ev := re_event e in
  let state_after_event := event_id_to_state !! event_id ev in
  policies ← of_option policies NameError;
  rid ← room_id ev;
  policy ← of_option (policies !! rid) KeyError;
  filtered ← _check_client_allowed_to_see_event user_id e now filter_send_to_client is_peeking
    always_include_ids (bool_decide (ev_sender ev ∈ ignored_users db user_id)) policy
    state_after_event (bool_decide (ev_sender ev ∈ db_erased db));
  match filtered with
  | None => Ok None
  | Some shown =>
      rings ← rings_public_room ev state_after_event;
      if (rings : bool) then Ok None
      else
        user_membership ← user_membership_at user_id ev state_after_event;
        cloned ← annotate db now user_membership shown;
        Ok (Some (mkRoomEvent cloned (re_soft_failed e) (re_policy_server_spammy e) (re_outlier e)))
  end.

(** The types of state that are fetched. *)
Definition client_state_types (user_id : string) (found_call_invite : bool) :
    list (string * option string) :=
  [(RoomHistoryVisibility, Some ""); (EventTypes.Member, Some user_id)] ++
  (if found_call_invite then [(EventTypes.JoinRules, Some "")] else []).

(** [[ev for ev in map(f, events) if ev]] *)
Fixpoint filter_map_res {A B} (f : A → result (option B)) (l : list A) : result (list B) :=
  match l with
  | [] => Ok []
  | x :: l' =>
      r ← f x;
      rest ← filter_map_res f l';
      Ok (match r with Some y => y :: rest | None => rest end)
  end.

Definition filter_and_transform_events_for_client (db : visibility_db) (now : Z)
    (user_id : string) (events : list room_event) (is_peeking : bool)
    (always_include_ids : gset string) (filter_send_to_client : bool) : result (list room_event) :=
  let found_call_invite :=
    existsb (λ e, negb (re_soft_failed e) && is_call_invite (re_event e)) events in
  let events := events_to_check db user_id filter_send_to_client events in
  event_id_to_state ← get_state_for_events db
    (list_to_set ((λ e, event_id (re_event e)) <$> filter (λ e, re_outlier e = false) events))
    (from_types (client_state_types user_id found_call_invite));
  policies ← retention_policies db filter_send_to_client events;
  filter_map_res (allowed db now user_id is_peeking filter_send_to_client always_include_ids
                    event_id_to_state policies) events.

(** ** [filter_event_for_clients_with_state] *)

(** [_get_state_map]: the state before the event, from its context, with the event
    itself. *)
Definition _get_state_map (db : visibility_db) (e : event) (prev_state_ids : gmap StateKey string)
    (f : StateFilter) : gmap StateKey event :=
  let m := events_of db (filter_state f prev_state_ids) in
  match ev_state_key e with
  | Some k => <[(ev_type e, k):=e]> m
  | None => m
  end.

(** The users for whom [f] holds, checked one after the other. *)
Definition filter_users (f : string → result bool) (us : gset string) : result (gset string) :=
  l ← filter_map_res (λ u, b ← f u; Ok (if (b : bool) then Some u else None)) (elements us);
  Ok (list_to_set l).

Definition filter_event_for_clients_with_state (db : visibility_db) (now : Z)
    (user_ids : list string) (e : room_event) (prev_state_ids : gmap StateKey string)
    (is_peeking filter_send_to_client : bool) : result (gset string) :=
  let ev := re_event e in
  if re_soft_failed e then Ok ∅
  else if bool_decide (user_ids = []) then Ok ∅
  else
    allowed_user_ids ←
      (if filter_send_to_client then
         rid ← room_id ev;
         let policy := get_retention_policy_for_room db rid in
         Ok (filter (λ u,
               _check_filter_send_to_client ev now policy (bool_decide (u ∈ ignored_by db (ev_sender ev)))
               = MAYBE_ALLOWED) (list_to_set user_ids : gset string))
       else Ok (list_to_set user_ids : gset string));
    if re_outlier e then
      if String.eqb (ev_type ev) EventTypes.Member then
        k ← state_key ev;
        Ok (if decide (k ∈ allowed_user_ids) then {[k]} else ∅)
      else Ok ∅
    else
      let visibility := get_effective_room_visibility_from_state
        (_get_state_map db ev prev_state_ids (from_types [(RoomHistoryVisibility, Some "")])) in
      lax ← _check_history_visibility ev visibility is_peeking;
      match lax with
      | ALLOWED => Ok allowed_user_ids
      | MAYBE_DENIED =>
          let filter_list :=
            ((λ u, (EventTypes.Member, Some u)) <$> elements allowed_user_ids) ++
            [(RoomHistoryVisibility, Some "")] in
          let state_map := _get_state_map db ev prev_state_ids (from_types filter_list) in
          filter_users (λ u, r ← _check_membership u ev visibility state_map is_peeking;
                             Ok (cm_allowed r)) allowed_user_ids
      end.

(** ** Visibility to servers *)

(** [UserID::try_from] and [server_name] *)
Definition user_server_name (s : string) : result string :=
  if startswith "@" s then snd <$> of_option (split_once ":"%char s) ValueError
  else Raise ValueError.

(** The loop of [event_visible_to_server] over the memberships. *)
Fixpoint visible_by_membership (target_server_name history_visibility : string)
    (memberships : list (string * string)) : result bool :=
  match memberships with
  | [] => Ok false
  | (state_key, membership) :: memberships' =>
      server_name ← user_server_name state_key;
      _ ← raise_if (negb (String.eqb server_name target_server_name)) ValueError;
      if (String.eqb membership Membership.INVITE &&
          String.eqb history_visibility HistoryVisibility.INVITED)
         || String.eqb membership Membership.JOIN
      then Ok true
      else visible_by_membership target_server_name history_visibility memberships'
  end.

Definition event_visible_to_server (sender target_server_name history_visibility : string)
    (erased_senders : gset string) (partial_state_invisible : bool)
    (memberships : list (string * string)) : result bool :=
  if decide (sender ∈ erased_senders) then Ok false
  else if partial_state_invisible then Ok false
  else if negb (String.eqb history_visibility HistoryVisibility.INVITED) &&
          negb (String.eqb history_visibility HistoryVisibility.JOINED) then Ok true
  else visible_by_membership target_server_name history_visibility memberships.

(** [_event_to_history_vis]: one round of the loop. *)
Definition history_vis_of (db : visibility_db) (event_to_state_ids : gmap string (gmap StateKey string))
    (e : room_event) : result string :=
  match event_to_state_ids !! event_id (re_event e) with
  | Some state_ids =>
      match state_ids !! _HISTORY_VIS_KEY with
      | Some visibility_id =>
          if str_nonempty visibility_id then
            vis_event ← of_option (db_events db !! visibility_id) KeyError;
            match dict_get_or (ev_content vis_event) "history_visibility"
                    (JStr HistoryVisibility.SHARED) with
            | JStr vis => Ok vis
            | _ => Raise AssertionError
            end
          else Ok HistoryVisibility.SHARED
      | None => Ok HistoryVisibility.SHARED
      end
  | None => Ok HistoryVisibility.SHARED
  end.

Definition _event_to_history_vis (db : visibility_db) (events : list room_event) :
    result (gmap string string) :=
  event_to_state_ids ← get_state_ids_for_events db
    (list_to_set ((λ e, event_id (re_event e)) <$> filter (λ e, re_outlier e = false) events))
    (from_types [(RoomHistoryVisibility, Some "")]);
  fold_res (λ result_ e,
    vis ← history_vis_of db event_to_state_ids e;
    Ok (<[event_id (re_event e):=vis]> result_)) events ∅.

(** [include] *)
Definition include_state_key (server_name state_key : string) : bool :=
  match split_once ":"%char state_key with
  | Some (_, domain) => String.eqb domain server_name
  | None => false
  end.

(** [event_id_to_state_key] *)
Definition event_id_to_state_key (event_to_state_ids : gmap string (gmap StateKey string)) :
    gmap string StateKey :=
  foldl (λ m key_to_eid,
    foldl (λ m '(key, event_id), <[event_id:=key]> m) m (map_to_list key_to_eid))
    ∅ (map_to_list event_to_state_ids).*2.

(** The memberships of a server in a state, given the events that were fetched. *)
Definition memberships_of (event_map : gmap string event) (key_to_eid : gmap StateKey string) :
    result (list (string * json)) :=
  fold_res (λ l i,
    match event_map !! i with
    | Some m => k ← state_key m; ms ← membership m; Ok (l ++ [(k, ms)])
    | None => Ok l
    end) (map_to_list key_to_eid).*2 [].

Definition _event_to_memberships (db : visibility_db) (events : list room_event)
    (server_name : string) : result (gmap string (list (string * json))) :=
  if bool_decide (events = []) then Ok ∅
  else
    event_to_state_ids ← get_state_ids_for_events db
      (list_to_set ((λ e, event_id (re_event e)) <$> events))
      (from_types [(EventTypes.Member, None)]);
    let wanted := filter (λ '(_, key), include_state_key server_name key.2 = true)
                    (event_id_to_state_key event_to_state_ids) in
    let event_map := filter (λ '(i, _), is_Some (wanted !! i)) (db_events db) in
    fold_res (λ m '(e_id, key_to_eid),
      l ← memberships_of event_map key_to_eid; Ok (<[e_id:=l]> m))
      (map_to_list event_to_state_ids) ∅.

(** The memberships as the arguments of [event_visible_to_server]: strings. *)
Definition membership_strings (l : list (string * json)) : result (list (string * string)) :=
  fold_res (λ acc '(k, m),
    match m with JStr s => Ok (acc ++ [(k, s)]) | _ => Raise TypeError end) l [].

(** The events of other servers in rooms whose state is partial. *)
Definition partial_state_invisible (db : visibility_db) (local_server_name : string)
    (events : list room_event) : result (gset string) :=
  fold_res (λ s e,
    sender_domain ← get_domain_from_id (ev_sender (re_event e));
    if String.eqb sender_domain local_server_name then Ok s
    else
      rid ← room_id (re_event e);
      Ok (if decide (rid ∈ db_partial_state_rooms db) then {[event_id (re_event e)]} ∪ s else s))
    events ∅.

(** One round of the last loop of [filter_events_for_server]. *)
Definition filter_for_server (target_server_name : string) (redact : bool)
    (erased_senders : gset string) (partial : gset string) (vis : gmap string string)
    (memberships : gmap string (list (string * json))) (e : room_event) :
    result (option event) :=
  let ev := re_event e in
  v ← of_option (vis !! event_id ev) KeyError;
  l ← membership_strings (default [] (memberships !! event_id ev));
  visible ← event_visible_to_server (ev_sender ev) target_server_name v erased_senders
    (bool_decide (event_id ev ∈ partial)) l;
  if (visible : bool) then Ok (Some ev)
  else if redact then Some <$> prune_event ev
  else Ok None.

Definition filter_events_for_server (db : visibility_db)
    (target_server_name local_server_name : string) (events : list room_event)
    (redact filter_out_erased_senders filter_out_remote_partial_state_events : bool) :
    result (list event) :=
  let erased_senders := if filter_out_erased_senders then db_erased db else ∅ in
  partial ← (if filter_out_remote_partial_state_events
             then partial_state_invisible db local_server_name events else Ok ∅);
  event_to_history_vis ← _event_to_history_vis db events;
  event_to_memberships ← _event_to_memberships db
    (filter (λ e, match event_to_history_vis !! event_id (re_event e) with
                  | Some v => negb (String.eqb v HistoryVisibility.SHARED) &&
                              negb (String.eqb v HistoryVisibility.WORLD_READABLE)
                  | None => true
                  end = true) events) target_server_name;
  filter_map_res (filter_for_server target_server_name redact erased_senders partial
                    event_to_history_vis event_to_memberships) events.
