(* ===== verification/VisibilityProps.v ===== *)
(** What the visibility checks decide: a specification of who sees an event as a
    table over the user's role at the event and the history visibility, and the
    proof that the filter for clients computes it. *)
From S2P Require Import Prelude RoomVersions Identifiers Events Redaction RedactionProps StateFilter StateFilterProps Visibility.

(** ** Generic lemmas *)
Lemma filter_map_res_omap {A B} (f : A → result (option B)) (g : A → option B) l :
  (∀ x, x ∈ l → f x = Ok (g x)) → filter_map_res f l = Ok (omap g l).
Proof.
  induction l as [|x l IH]; intros Hf; simpl; [done|].
  rewrite Hf, IH by set_solver. simpl. by destruct (g x).
Qed.

Lemma list_filter_all {A} (P : A → Prop) `{!∀ x, Decision (P x)} (l : list A) :
  (∀ x, x ∈ l → P x) → filter P l = l.
Proof.
  induction l as [|x l IH]; intros HP; [done|]. rewrite filter_cons_True by set_solver.
  f_equal. set_solver.
Qed.

Lemma known_or_in l d x : d ∈ l → known_or l d x ∈ l.
Proof. intros Hd. unfold known_or. repeat case_match; done. Qed.

Lemma events_of_lookup db ids k :
  events_of db ids !! k = ids !! k ≫= λ i, db_events db !! i.
Proof. apply lookup_omap. Qed.

(** States that agree on some keys still do after filtering for them. *)
Lemma events_of_filter db f ids k :
  contains f k = true → events_of db (filter_state f ids) !! k = events_of db ids !! k.
Proof. intros Hk. by rewrite !events_of_lookup, filter_state_lookup, Hk. Qed.

Lemma get_state_ids_ok db ids f :
  (∀ i, i ∈ ids → is_Some (db_state_ids db !! i)) →
  ∃ m, get_state_ids_for_events db ids f = Ok m ∧
    ∀ i, m !! i = if decide (i ∈ ids) then filter_state f <$> db_state_ids db !! i else None.
Proof.
  intros Hids. unfold get_state_ids_for_events.
  assert (∀ l (m0 : gmap string (gmap StateKey string)),
    (∀ i, i ∈ l → is_Some (db_state_ids db !! i)) →
    ∃ m, fold_res (λ m i, ids ← of_option (db_state_ids db !! i) (RuntimeError "Unknown or outlier events");
                   Ok (<[i:=filter_state f ids]> m)) l m0 = Ok m ∧
      ∀ i, m !! i = if decide (i ∈ l) then filter_state f <$> db_state_ids db !! i else m0 !! i) as H.
  { induction l as [|j l IH]; intros m0 Hl; cbn [fold_res].
    { exists m0. split; [done|]. intros i. by rewrite decide_False by set_solver. }
    destruct (Hl j ltac:(set_solver)) as [st Hst]. rewrite Hst.
    cbn [of_option mbind result_bind].
    destruct (IH (<[j:=filter_state f st]> m0)) as (m & -> & Hm); [set_solver|].
    exists m. split; [done|]. intros i. rewrite Hm.
    destruct (decide (i ∈ l)); [by rewrite decide_True by set_solver|].
    destruct (decide (i = j)) as [->|Hne].
    - by rewrite decide_True, lookup_insert_eq, Hst by set_solver.
    - by rewrite decide_False, lookup_insert_ne by set_solver. }
  destruct (H (elements ids) ∅) as (m & -> & Hm); [set_solver|].
  exists m. split; [done|]. intros i. rewrite Hm, lookup_empty.
  by destruct (decide (i ∈ ids)); [rewrite decide_True by set_solver|rewrite decide_False by set_solver].
Qed.

(** ** The specification *)

(** The role of a user at an event: for the user's own membership event the better
    of the memberships before and after it, and [Leaving] when the user leaves a
    room it was in or invited to. *)
Inductive role := Joined | Leaving | Invited | Other.

(** A field of the previous content, [JNull] when there is none. *)
Definition prev_field (e : event) (key : string) : json :=
  match prev_content_get e key with Ok j => j | Raise _ => JNull end.

Definition own_membership (u : string) (e : event) : bool :=
  String.eqb (ev_type e) EventTypes.Member && bool_decide (ev_state_key e = Some u).

Definition role_at (u : string) (e : event) (s : gmap StateKey event) : role :=
  if own_membership u e then
    let new := dict_get_or (ev_content e) "membership" JNull in
    let old := prev_field e "membership" in
    let either m := json_is_str new m || json_is_str old m in
    if (json_is_str old Membership.JOIN || json_is_str old Membership.INVITE) &&
       negb (json_is_str new Membership.JOIN || json_is_str new Membership.INVITE ||
             json_is_str new Membership.KNOCK || json_is_str new Membership.BAN)
    then Leaving
    else if either Membership.JOIN then Joined
    else if either Membership.INVITE then Invited
    else Other
  else
    match s !! (EventTypes.Member, u) with
    | Some m =>
        let j := dict_get_or (ev_content m) "membership" JNull in
        if json_is_str j Membership.JOIN then Joined
        else if json_is_str j Membership.INVITE then Invited
        else Other
    | None => Other
    end.

(** Histories that need no membership: world readable, or shared for those who
    are not just peeking.  An event that changes the visibility counts as seen
    under the old one as well. *)
Definition open_to (peeking : bool) (v : string) : bool :=
  String.eqb v HistoryVisibility.WORLD_READABLE ||
  (String.eqb v HistoryVisibility.SHARED && negb peeking).

Definition open_history (e : event) (s : gmap StateKey event) (peeking : bool) : bool :=
  open_to peeking (get_effective_room_visibility_from_state s) ||
  (String.eqb (ev_type e) RoomHistoryVisibility &&
   open_to peeking (known_or VISIBILITY_PRIORITY HistoryVisibility.SHARED
                      (prev_field e "history_visibility"))).

(** What is shown: the event, or its redacted form. *)
Inductive view := Full | Redacted.

Definition client_view (u : string) (e : event) (s : gmap StateKey event) (peeking erased : bool) :
    option view :=
  let visibility := get_effective_room_visibility_from_state s in
  let hidden := if erased then Redacted else Full in
  if negb erased && open_history e s peeking then Some Full
  else
    match role_at u e s with
    | Joined => Some Full
    | Leaving => Some hidden
    | Invited => if open_to peeking visibility || String.eqb visibility HistoryVisibility.INVITED
                 then Some hidden else None
    | Other => if open_to peeking visibility then Some hidden else None
    end.

(** Events that are not sent to clients at all. *)
Definition hidden_from_clients (e : event) (now : Z) (policy : RetentionPolicy) (ignored : bool) : bool :=
  String.eqb (ev_type e) Dummy || String.eqb (ev_type e) EventTypes.Aliases ||
  (negb (is_state e) &&
   (ignored || match max_lifetime policy with
               | Some l => (ev_origin_server_ts e + l <? now)%Z
               | None => false
               end)).

(** ** Well-formed events *)
Record event_ok (e : event) : Prop := {
  eo_room : ∃ rid, room_id e = Ok rid;
  eo_member : ev_type e = EventTypes.Member → is_Some (ev_state_key e) ∧ ∃ m, membership e = Ok m;
  eo_unsigned : ∃ uns pc, unsigned e = Ok uns ∧
    mapping_of (dict_get_or uns "prev_content" (JDict [])) = Ok pc;
  eo_sticky : ∃ d, sticky_duration e = Ok d
}.

(** The member events of a state have a membership. *)
Definition state_ok (s : gmap StateKey event) : Prop :=
  ∀ k m, s !! (EventTypes.Member, k) = Some m → ∃ j, membership m = Ok j.

Lemma prev_content_get_ok e key : event_ok e → prev_content_get e key = Ok (prev_field e key).
Proof.
  intros [_ _ (uns & pc & Hu & Hp) _]. unfold prev_field, prev_content_get. by rewrite Hu; simpl; rewrite Hp.
Qed.

Lemma is_own_membership_ok u e : event_ok e → is_own_membership u e = Ok (own_membership u e).
Proof.
  intros [_ Hm _ _]. unfold is_own_membership, own_membership.
  destruct (String.eqb_spec (ev_type e) EventTypes.Member) as [Ht|]; [|done].
  destruct (Hm Ht) as [[k Hk] _]. unfold state_key. rewrite Hk. simpl. f_equal.
  destruct (String.eqb_spec k u); case_bool_decide; naive_solver.
Qed.

(** ** The checks compute the specification *)

(** A JSON value is one of the names of the list, or counts as the default. *)
Lemma known_or_cases l d j :
  (∃ s, s ∈ l ∧ j = JStr s ∧ known_or l d j = s) ∨
  (known_or l d j = d ∧ ∀ s, s ∈ l → json_is_str j s = false).
Proof.
  destruct j as [| | | |s| |]; try (right; split; [done|intros; done]).
  unfold known_or. destruct (decide (s ∈ l)) as [Hs|Hs].
  - left. by exists s.
  - right. split; [done|]. intros s' Hs'. simpl. apply String.eqb_neq. naive_solver.
Qed.

(** Case analysis on what a membership in JSON is. *)
Local Ltac membership_cases j :=
  let s := fresh "s" in let Hs := fresh "Hs" in let Hj := fresh "Hj" in let Hk := fresh "Hk" in
  destruct (known_or_cases MEMBERSHIP_PRIORITY "leave" j) as [(s & Hs & Hj & Hk)|[Hk Hj]];
  [rewrite Hj in *; clear Hk; unfold MEMBERSHIP_PRIORITY in Hs;
   repeat (apply elem_of_cons in Hs as [->|Hs]); [..|by apply elem_of_nil in Hs]
  |rewrite Hk;
   rewrite ?(Hj Membership.JOIN), ?(Hj Membership.INVITE), ?(Hj Membership.KNOCK),
     ?(Hj Membership.BAN) by set_solver].

Lemma effective_membership_ok u e s :
  event_ok e → state_ok s →
  ∃ r, effective_membership u e s = Ok r ∧
    match r with
    | inl answer => role_at u e s = Leaving ∧ answer = mkMembershipReturn true false
    | inr m => role_at u e s =
        if json_is_str m Membership.JOIN then Joined
        else if json_is_str m Membership.INVITE then Invited else Other
    end.
Proof.
  intros He Hs. unfold effective_membership, role_at. rewrite is_own_membership_ok by done.
  cbn [mbind result_bind]. destruct (own_membership u e).
  - rewrite prev_content_get_ok by done. cbn [mbind result_bind].
    generalize (prev_field e "membership") as old.
    generalize (dict_get_or (ev_content e) "membership" JNull) as new. intros new old.
    membership_cases new; membership_cases old; eexists; split; [reflexivity| |..];
      by vm_compute.
  - destruct (s !! (EventTypes.Member, u)) as [m|] eqn:Hm; [|by eexists].
    destruct (Hs _ _ Hm) as [j Hj]. rewrite Hj. simpl. eexists. split; [done|].
    unfold membership, dict_index in Hj. apply of_option_ok in Hj.
    unfold dict_get_or. by rewrite Hj.
Qed.

Lemma effective_visibility_known s : get_effective_room_visibility_from_state s ∈ VISIBILITY_PRIORITY.
Proof.
  unfold get_effective_room_visibility_from_state. case_match; [apply known_or_in|]; set_solver.
Qed.

(** Case analysis on one of the four visibilities. *)
Local Ltac visibility_cases H :=
  unfold VISIBILITY_PRIORITY in H;
  repeat (apply elem_of_cons in H as [->|H]); [..|by apply elem_of_nil in H].

Lemma check_membership_ok u e v s peeking :
  event_ok e → state_ok s → v ∈ VISIBILITY_PRIORITY →
  _check_membership u e v s peeking =
  Ok match role_at u e s with
     | Joined => mkMembershipReturn true true
     | Leaving => mkMembershipReturn true false
     | Invited => mkMembershipReturn (open_to peeking v || String.eqb v HistoryVisibility.INVITED) false
     | Other => mkMembershipReturn (open_to peeking v) false
     end.
Proof.
  intros He Hs Hv. unfold _check_membership.
  destruct (effective_membership_ok u e s) as (r & -> & Hr); [done..|]. simpl. f_equal.
  destruct r as [answer|m]; [by destruct Hr as [-> ->]|]. rewrite Hr.
  destruct (json_is_str m Membership.JOIN); [done|].
  destruct (json_is_str m Membership.INVITE); visibility_cases Hv; by destruct peeking.
Qed.

Lemma check_history_visibility_ok e s peeking :
  event_ok e →
  _check_history_visibility e (get_effective_room_visibility_from_state s) peeking =
  Ok (if open_history e s peeking then ALLOWED else MAYBE_DENIED).
Proof.
  intros He. unfold _check_history_visibility, open_history.
  pose proof (effective_visibility_known s) as Hv. revert Hv.
  generalize (get_effective_room_visibility_from_state s) as v. intros v Hv.
  destruct (String.eqb_spec (ev_type e) RoomHistoryVisibility) as [_|_].
  - rewrite prev_content_get_ok by done. cbn [mbind result_bind].
    pose proof (known_or_in VISIBILITY_PRIORITY HistoryVisibility.SHARED
                  (prev_field e "history_visibility") ltac:(set_solver)) as Ho. revert Ho.
    generalize (known_or VISIBILITY_PRIORITY HistoryVisibility.SHARED
                  (prev_field e "history_visibility")) as o. intros o Ho.
    visibility_cases Hv; visibility_cases Ho; by destruct peeking.
  - visibility_cases Hv; by destruct peeking.
Qed.

Lemma check_filter_ok e now policy ignored :
  _check_filter_send_to_client e now policy ignored =
  if hidden_from_clients e now policy ignored then DENIED else MAYBE_ALLOWED.
Proof.
  unfold _check_filter_send_to_client, hidden_from_clients.
  destruct (String.eqb (ev_type e) Dummy); [done|]. destruct (String.eqb (ev_type e) EventTypes.Aliases);
    [by destruct (negb (is_state e) && ignored)|].
  destruct (is_state e), ignored; try done. simpl.
  destruct (max_lifetime policy) as [l|]; [|done].
  destruct (Z.ltb_spec (ev_origin_server_ts e) (now - l)), (Z.ltb_spec (ev_origin_server_ts e + l) now);
    (done || lia).
Qed.

(** The redacted form of an event exists. *)
Definition redacted_form (e : event) : event :=
  match prune_event e with Ok p => p | Raise _ => e end.

Lemma unsigned_dict e uns : unsigned e = Ok uns ↔ dict_get_or (ev_other e) "unsigned" (JDict []) = JDict uns.
Proof. unfold unsigned, mapping_of. rewrite of_option_ok. destruct (dict_get_or _ _ _); naive_solver. Qed.

Lemma prune_event_ok e : event_ok e → prune_event e = Ok (redacted_form e).
Proof.
  intros [_ _ (uns & _ & Hu%unsigned_dict & _) _]. unfold redacted_form, prune_event.
  rewrite prune_content_dict. cbn [mbind result_bind]. unfold mapping_of. simpl.
  by rewrite Hu, prune_unsigned_dict.
Qed.

(** What [_check_client_allowed_to_see_event] answers for an event with a known
    state. *)
Definition render (e : event) (v : option view) : option event :=
  match v with
  | Some Full => Some e
  | Some Redacted => Some (redacted_form e)
  | None => None
  end.

Lemma check_client_ok u e now send peeking always ignored policy s erased :
  event_ok (re_event e) → state_ok s → re_outlier e = false →
  send && hidden_from_clients (re_event e) now policy ignored = false →
  event_id (re_event e) ∉ always →
  _check_client_allowed_to_see_event u e now send peeking always ignored policy (Some s) erased =
  Ok (render (re_event e) (client_view u (re_event e) s peeking erased)).
Proof.
  intros He Hs Ho Hh Ha. unfold _check_client_allowed_to_see_event, client_view.
  rewrite check_filter_ok.
  replace (send && _) with false by (by destruct send, (hidden_from_clients _ _ _ _)).
  rewrite decide_False, Ho by done. cbn [of_option mbind result_bind].
  rewrite check_history_visibility_ok by done.
  destruct (negb erased && open_history _ _ _) eqn:Hopen.
  { destruct erased; [done|]. simpl in *. by rewrite Hopen. }
  replace (if erased then Ok MAYBE_DENIED else _) with (Ok MAYBE_DENIED : result _CheckVisibility)
    by (destruct erased; [done|]; simpl in Hopen; by rewrite Hopen).
  cbn [mbind result_bind]. rewrite check_membership_ok by (done || apply effective_visibility_known).
  cbn [mbind result_bind]. rewrite prune_event_ok by done.
  destruct (role_at u (re_event e) s); simpl; repeat case_match; simplify_eq/=; try done;
    destruct erased; done.
Qed.

(** ** Annotating *)
Lemma filter_map_res_spec {A B} (f : A → result (option B)) (sees : A → bool) (R : A → B → Prop) l :
  (∀ x, x ∈ l → ∃ r, f x = Ok r ∧ if sees x then ∃ y, r = Some y ∧ R x y else r = None) →
  ∃ out, filter_map_res f l = Ok out ∧ Forall2 R (filter (λ x, sees x = true) l) out.
Proof.
  induction l as [|x l IH]; intros Hf; [by exists []|].
  destruct (Hf x) as (r & Hr & Hx); [set_solver|]. destruct IH as (out & Ho & HR); [set_solver|].
  cbn [filter_map_res]. rewrite Hr, Ho. cbn [mbind result_bind].
  rewrite filter_cons. destruct (sees x) eqn:Hs.
  - destruct Hx as (y & -> & Hy). rewrite decide_True by done. eexists. split; [done|]. by constructor.
  - subst r. rewrite decide_False by done. by exists out.
Qed.

(** What [prune_event] keeps. *)
Lemma redacted_form_ok e :
  event_ok e →
  event_id (redacted_form e) = event_id e ∧ ev_type (redacted_form e) = ev_type e ∧
  ev_sender (redacted_form e) = ev_sender e ∧ ev_state_key (redacted_form e) = ev_state_key e ∧
  (∃ uns, unsigned (redacted_form e) = Ok uns) ∧ sticky_duration (redacted_form e) = Ok None.
Proof.
  intros He. pose proof (prune_event_ok e He) as Hp. revert Hp. generalize (redacted_form e) as p.
  intros p Hp. destruct He as [_ _ (uns & _ & Hu%unsigned_dict & _) _].
  unfold prune_event in Hp. rewrite prune_content_dict in Hp. cbn [mbind result_bind] in Hp.
  unfold mapping_of in Hp. simpl in Hp. rewrite Hu, prune_unsigned_dict in Hp.
  cbn [mbind result_bind] in Hp. injection Hp as <-. split_and!; try done.
  - eexists. apply unsigned_dict. simpl. unfold dict_get_or. rewrite dict_get_set.
    by rewrite String.eqb_refl.
  - unfold sticky_duration. simpl. rewrite dict_get_set. simpl.
    rewrite (dict_get_filter (is_allowed (ev_room_version e) (JStr (ev_type e)))).
    replace (is_allowed _ _ _) with false; [done|].
    unfold is_allowed, allowed_keys. by destruct (updated_redaction_rules _).
Qed.
