(* ===== verification/VisibilityClients.v ===== *)
(** The filters for clients against the specification: the one for a user and many
    events, the one for an event and many users, and their agreement. *)
From S2P Require Import Prelude RoomVersions Identifiers Events Redaction RedactionProps StateFilter StateFilterProps Visibility VisibilityProps.

(** ** The specification of the filter *)

(** The state after an event. *)
Definition state_at (db : visibility_db) (e : event) : gmap StateKey event :=
  events_of db (default ∅ (db_state_ids db !! event_id e)).

Definition ignores (db : visibility_db) (u sender : string) : bool :=
  bool_decide ((u, sender) ∈ db_ignores db).

(** The retention policy of the event's room. *)
Definition policy_of (db : visibility_db) (e : event) : RetentionPolicy :=
  match room_id e with
  | Ok rid => get_retention_policy_for_room db rid
  | Raise _ => mkRetention None None
  end.

Definition verdict (db : visibility_db) (now : Z) (u : string) (peeking : bool)
    (always : gset string) (e : room_event) : option view :=
  let ev := re_event e in
  if hidden_from_clients ev now (policy_of db ev) (ignores db u (ev_sender ev)) then None
  else if decide (event_id ev ∈ always) then Some Full
  else if re_outlier e then if own_membership u ev then Some Full else None
  else client_view u ev (state_at db ev) peeking (bool_decide (ev_sender ev ∈ db_erased db)).

(** Soft-failed events are shown to administrators who ask for them. *)
Definition soft_failure_shown (db : visibility_db) (u : string) (e : room_event) : bool :=
  let config := get_admin_client_config_for_user db u in
  negb (re_soft_failed e) ||
  (bool_decide (u ∈ db_server_admins db) &&
   (return_soft_failed_events config ||
    (return_policy_server_spammy_events config && re_policy_server_spammy e))).

Definition public_room (s : gmap StateKey event) : bool :=
  match s !! (EventTypes.JoinRules, "") with
  | Some j => json_is_str (dict_get_or (ev_content j) "join_rule" JNull) JoinRules.PUBLIC
  | None => false
  end.

Definition client_sees (db : visibility_db) (now : Z) (u : string) (peeking : bool)
    (always : gset string) (e : room_event) : bool :=
  soft_failure_shown db u e && bool_decide (is_Some (verdict db now u peeking always e)) &&
  negb (is_call_invite (re_event e) && public_room (state_at db (re_event e))).

(** The user's membership after an event. *)
Definition membership_after (db : visibility_db) (u : string) (e : event) : json :=
  if own_membership u e then dict_get_or (ev_content e) "membership" JNull
  else match state_at db e !! (EventTypes.Member, u) with
       | Some m => dict_get_or (ev_content m) "membership" JNull
       | None => JStr Membership.LEAVE
       end.

(** [o] is how [e] is shown: as it is or in its redacted form, annotated with the
    membership. *)
Definition shown_as (db : visibility_db) (now : Z) (u : string) (peeking : bool)
    (always : gset string) (e o : room_event) : Prop :=
  event_id (re_event o) = event_id (re_event e) ∧
  ev_type (re_event o) = ev_type (re_event e) ∧
  ev_sender (re_event o) = ev_sender (re_event e) ∧
  ev_state_key (re_event o) = ev_state_key (re_event e) ∧
  ev_content (re_event o) =
    match verdict db now u peeking always e with
    | Some Redacted => ev_content (redacted_form (re_event e))
    | _ => ev_content (re_event e)
    end ∧
  ∃ uns, unsigned (re_event o) = Ok uns ∧
    dict_get uns UNSIGNED_MEMBERSHIP = Some (membership_after db u (re_event e)).

(** The states in the database are well formed. *)
Definition db_ok (db : visibility_db) : Prop :=
  ∀ i ids, db_state_ids db !! i = Some ids → state_ok (events_of db ids).

(** ** Lemmas *)
Lemma ignored_users_ok db u x : x ∈ ignored_users db u ↔ ignores db u x = true.
Proof.
  unfold ignored_users, ignores. rewrite bool_decide_eq_true, elem_of_map. split.
  - intros ([a b] & -> & [Ha Hp]%elem_of_filter). by simpl in *; subst.
  - intros Hp. exists (u, x). split; [done|]. by apply elem_of_filter.
Qed.

Lemma ignored_by_ok db u x : u ∈ ignored_by db x ↔ ignores db u x = true.
Proof.
  unfold ignored_by, ignores. rewrite bool_decide_eq_true, elem_of_map. split.
  - intros ([a b] & -> & [Ha Hp]%elem_of_filter). by simpl in *; subst.
  - intros Hp. exists (u, x). split; [done|]. by apply elem_of_filter.
Qed.

Lemma ignored_users_bool db u x : bool_decide (x ∈ ignored_users db u) = ignores db u x.
Proof.
  apply eq_bool_prop_intro. rewrite !Is_true_true, bool_decide_eq_true. apply ignored_users_ok.
Qed.

Lemma ignored_by_bool db u x : bool_decide (u ∈ ignored_by db x) = ignores db u x.
Proof.
  apply eq_bool_prop_intro. rewrite !Is_true_true, bool_decide_eq_true. apply ignored_by_ok.
Qed.

Lemma membership_ok e j : membership e = Ok j → dict_get_or (ev_content e) "membership" JNull = j.
Proof. unfold membership, dict_index, dict_get_or. rewrite of_option_ok. by intros ->. Qed.

(** The specification reads two keys of the state. *)
Lemma client_view_ext u e s s' peeking erased :
  s !! _HISTORY_VIS_KEY = s' !! _HISTORY_VIS_KEY →
  s !! (EventTypes.Member, u) = s' !! (EventTypes.Member, u) →
  client_view u e s peeking erased = client_view u e s' peeking erased.
Proof.
  intros Hv Hm. unfold client_view, open_history, role_at, get_effective_room_visibility_from_state.
  by rewrite Hv, Hm.
Qed.

Lemma annotate_ok db now m e :
  (∃ uns, unsigned e = Ok uns) → (∃ d, sticky_duration e = Ok d) →
  ∃ uns, annotate db now m e = Ok (set_unsigned uns e) ∧ dict_get uns UNSIGNED_MEMBERSHIP = Some m.
Proof.
  intros [uns Hu] [d Hd]. unfold annotate. rewrite Hu. cbn [mbind result_bind].
  assert (dict_get (dict_set uns UNSIGNED_MEMBERSHIP m) UNSIGNED_MEMBERSHIP = Some m) as Hm.
  { by rewrite dict_get_set. }
  destruct (vis_msc4354_enabled db); [|by eexists]. rewrite Hd. cbn [mbind result_bind].
  destruct d as [d|]; [|by eexists]. destruct (d =? 0)%Z; [by eexists|]. cbn [mbind result_bind].
  case_match; [|by eexists]. eexists. split; [done|]. by rewrite dict_get_set.
Qed.

Lemma unsigned_set uns e : unsigned (set_unsigned uns e) = Ok uns.
Proof. apply unsigned_dict. simpl. unfold dict_get_or. by rewrite dict_get_set. Qed.

(** ** One event *)
Section one_event.
Context (db : visibility_db) (now : Z) (u : string) (peeking : bool) (always : gset string).
Context (e : room_event) (st : option (gmap StateKey event)).
Context (He : event_ok (re_event e)) (Hdb : db_ok db).
Context (Hout : re_outlier e = true → event_id (re_event e) ∉ always).

(** The state given for the event has the entries the checks read. *)
Definition state_fits : Prop :=
  match st with
  | Some s => re_outlier e = false ∧
      s !! _HISTORY_VIS_KEY = state_at db (re_event e) !! _HISTORY_VIS_KEY ∧
      s !! (EventTypes.Member, u) = state_at db (re_event e) !! (EventTypes.Member, u) ∧
      (is_call_invite (re_event e) = true →
       s !! (EventTypes.JoinRules, "") = state_at db (re_event e) !! (EventTypes.JoinRules, "")) ∧
      (∀ k m, s !! (EventTypes.Member, k) = Some m → ∃ j, membership m = Ok j)
  | None => re_outlier e = true
  end.
Context (Hst : state_fits).

Lemma check_client_verdict :
  _check_client_allowed_to_see_event u e now true peeking always
    (ignores db u (ev_sender (re_event e))) (policy_of db (re_event e)) st
    (bool_decide (ev_sender (re_event e) ∈ db_erased db)) =
  Ok (render (re_event e) (verdict db now u peeking always e)).
Proof using He Hst.
  unfold verdict. destruct (hidden_from_clients _ _ _ _) eqn:Hh.
  { unfold _check_client_allowed_to_see_event. rewrite check_filter_ok, Hh. done. }
  destruct (decide (event_id (re_event e) ∈ always)) as [Ha|Ha].
  { unfold _check_client_allowed_to_see_event. rewrite check_filter_ok, Hh. simpl.
    by rewrite decide_True. }
  unfold state_fits in Hst. destruct st as [s|].
  - destruct Hst as (Ho & Hv & Hm & _ & Hs). rewrite Ho.
    rewrite (client_view_ext _ _ _ s) by done. by apply check_client_ok.
  - rewrite Hst. unfold _check_client_allowed_to_see_event. rewrite check_filter_ok, Hh. simpl.
    rewrite decide_False, Hst, is_own_membership_ok by done. simpl. by case_match.
Qed.

Lemma user_membership_after :
  re_outlier e = false ∨ own_membership u (re_event e) = true →
  user_membership_at u (re_event e) st = Ok (membership_after db u (re_event e)).
Proof using He Hst.
  intros Hcase. unfold user_membership_at, membership_after. rewrite is_own_membership_ok by done.
  simpl. destruct (own_membership u (re_event e)) eqn:Hown.
  - unfold own_membership in Hown. apply andb_true_iff in Hown as [Ht%String.eqb_eq _].
    destruct (eo_member _ He Ht) as [_ [m Hm]]. rewrite Hm. by rewrite (membership_ok _ _ Hm).
  - unfold state_fits in Hst. destruct st as [s|]; [|destruct Hcase; congruence].
    destruct Hst as (_ & _ & Hm & _ & Hs). rewrite <- Hm.
    destruct (s !! (EventTypes.Member, u)) as [m|] eqn:Hsm; [|done].
    destruct (Hs _ _ Hsm) as [j Hj]. rewrite Hj. by rewrite (membership_ok _ _ Hj).
Qed.

(** Showing an event. *)
Lemma annotate_shown m v shown :
  verdict db now u peeking always e = Some v → render (re_event e) (Some v) = Some shown →
  membership_after db u (re_event e) = m →
  ∃ o, annotate db now m shown = Ok o ∧
    shown_as db now u peeking always e
      (mkRoomEvent o (re_soft_failed e) (re_policy_server_spammy e) (re_outlier e)).
Proof using He.
  intros Hv Hr <-. unfold shown_as. rewrite Hv.
  destruct v; simpl in Hr; injection Hr as <-.
  - destruct He as [_ _ (uns & _ & Hu & _) Hd].
    destruct (annotate_ok db now (membership_after db u (re_event e)) (re_event e)) as (uns' & -> & Hm);
      [by eexists|done|].
    eexists. split; [done|]. split_and!; try done. eexists. split; [apply unsigned_set|done].
  - destruct (redacted_form_ok _ He) as (? & ? & ? & ? & Hu & Hd).
    destruct (annotate_ok db now (membership_after db u (re_event e)) (redacted_form (re_event e)))
      as (uns' & -> & Hm); [done|by eexists|].
    eexists. split; [done|]. split_and!; try done. eexists. split; [apply unsigned_set|done].
Qed.

Lemma rings_ok :
  is_Some (verdict db now u peeking always e) →
  rings_public_room (re_event e) st =
  Ok (is_call_invite (re_event e) && public_room (state_at db (re_event e))).
Proof using Hst Hout.
  intros Hv. unfold rings_public_room. destruct (is_call_invite (re_event e)) eqn:Hc; [|done].
  unfold state_fits in Hst. destruct st as [s|].
  - destruct Hst as (_ & _ & _ & Hj & _). simpl. unfold public_room. by rewrite (Hj Hc).
  - exfalso. unfold verdict in Hv. specialize (Hout Hst).
    rewrite decide_False, Hst in Hv by done.
    assert (own_membership u (re_event e) = false) as Hown.
    { unfold is_call_invite in Hc. apply andb_true_iff in Hc as [Ht%String.eqb_eq _].
      unfold own_membership. by rewrite Ht. }
    rewrite Hown in Hv. destruct (hidden_from_clients _ _ _ _); by destruct Hv.
Qed.

Lemma allowed_ok states policies :
  states !! event_id (re_event e) = st →
  (∀ rid, room_id (re_event e) = Ok rid →
     policies !! rid = Some (get_retention_policy_for_room db rid)) →
  ∃ r, allowed db now u peeking true always states (Some policies) e = Ok r ∧
    if bool_decide (is_Some (verdict db now u peeking always e)) &&
       negb (is_call_invite (re_event e) && public_room (state_at db (re_event e)))
    then ∃ o, r = Some o ∧ shown_as db now u peeking always e o else r = None.
Proof using He Hst Hout.
  intros Hs Hpol. unfold allowed. rewrite Hs. cbn [of_option mbind result_bind].
  destruct (eo_room _ He) as [rid Hrid]. rewrite Hrid. cbn [mbind result_bind].
  rewrite (Hpol _ Hrid). cbn [of_option mbind result_bind]. rewrite ignored_users_bool.
  replace (get_retention_policy_for_room db rid) with (policy_of db (re_event e))
    by (unfold policy_of; by rewrite Hrid).
  rewrite check_client_verdict. cbn [mbind result_bind].
  destruct (verdict db now u peeking always e) as [v|] eqn:Hv; [|by eexists].
  rewrite bool_decide_true by done. destruct (render (re_event e) (Some v)) as [shown|] eqn:Hr;
    [|by destruct v].
  rewrite rings_ok by (rewrite Hv; by eexists). cbn [mbind result_bind].
  destruct (is_call_invite (re_event e) && public_room _) eqn:Hring; [by eexists|].
  rewrite user_membership_after.
  - cbn [mbind result_bind]. destruct (annotate_shown _ v shown Hv Hr eq_refl) as (o & -> & Ho).
    simpl. eexists. split; [done|]. by eexists.
  - destruct (re_outlier e) eqn:Ho; [right|by left]. unfold verdict in Hv.
    rewrite decide_False, Ho in Hv by auto. by repeat case_match.
Qed.
End one_event.

(** ** A list of events *)
Lemma events_to_check_ok db u events :
  events_to_check db u true events = filter (λ e, soft_failure_shown db u e = true) events.
Proof.
  unfold events_to_check, soft_failure_shown. rewrite andb_true_l.
  destruct (bool_decide (u ∈ db_server_admins db)); [destruct (return_soft_failed_events _)|].
  - symmetry. apply list_filter_all. intros e _. by destruct (re_soft_failed e).
  - destruct (return_policy_server_spammy_events _); apply list_filter_iff; intros e;
      by destruct (re_soft_failed e).
  - apply list_filter_iff; intros e; by destruct (re_soft_failed e).
Qed.

Lemma retention_policies_ok db events :
  (∀ e, e ∈ events → event_ok (re_event e)) →
  ∃ m, retention_policies db true events = Ok (Some m) ∧
    ∀ e rid, e ∈ events → room_id (re_event e) = Ok rid →
      m !! rid = Some (get_retention_policy_for_room db rid).
Proof.
  intros Hev. unfold retention_policies.
  assert (∀ m0 : gmap string RetentionPolicy,
    (∀ rid p, m0 !! rid = Some p → p = get_retention_policy_for_room db rid) →
    ∃ m, fold_res (λ m e, rid ← room_id (re_event e);
                   Ok (<[rid:=get_retention_policy_for_room db rid]> m)) events m0 = Ok m ∧
      (∀ rid p, m !! rid = Some p → p = get_retention_policy_for_room db rid) ∧
      (∀ rid, is_Some (m0 !! rid) → is_Some (m !! rid)) ∧
      (∀ e rid, e ∈ events → room_id (re_event e) = Ok rid → is_Some (m !! rid))) as H.
  { induction events as [|e l IH]; intros m0 Hm0; cbn [fold_res].
    { exists m0. split_and!; [done..|set_solver]. }
    destruct (eo_room _ (Hev e (list_elem_of_here _ _))) as [rid Hrid]. rewrite Hrid.
    cbn [mbind result_bind].
    destruct (IH (λ x Hx, Hev x (list_elem_of_further _ _ _ Hx)) (<[rid:=get_retention_policy_for_room db rid]> m0))
      as (m & Hf & Hp & Hk & Hl).
    { intros r p [[-> <-]|[? ?]]%lookup_insert_Some; eauto. }
    exists m. split_and!; [done|done| |].
    - intros r Hr. apply Hk. rewrite lookup_insert_is_Some'. by right.
    - intros e' r [->|He']%elem_of_cons Hr; [|by eapply Hl].
      rewrite Hrid in Hr. injection Hr as ->. apply Hk.
      rewrite lookup_insert_is_Some'. by left. }
  destruct (H ∅) as (m & -> & Hp & _ & Hl); [by intros ???%lookup_empty_Some|].
  exists m. split; [done|]. intros e rid He Hr. destruct (Hl e rid He Hr) as [p Hm].
  by rewrite Hm, (Hp _ _ Hm).
Qed.

(** The state fetched for the events of a request has the entries the checks
    read. *)
Lemma fetched_state_fits (db : visibility_db) (u : string) (es : list room_event) (found : bool) (e : room_event) (m : gmap string (gmap StateKey string)) :
  db_ok db →
  (∀ i : string, m !! i =
     if decide (i ∈ (list_to_set ((λ e, event_id (re_event e)) <$> filter (λ e, re_outlier e = false) es) : gset string))
     then filter_state (from_types (client_state_types u found)) <$> db_state_ids db !! i else None) →
  e ∈ es → (∀ e', e' ∈ es → event_id (re_event e') = event_id (re_event e) → e' = e) →
  (re_outlier e = false → is_Some (db_state_ids db !! event_id (re_event e))) →
  (is_call_invite (re_event e) = true → found = true) →
  state_fits db u e ((events_of db <$> m) !! event_id (re_event e)).
Proof.
  intros Hdb Hm He Huniq Hst Hfound. rewrite lookup_fmap, Hm. unfold state_fits.
  destruct (re_outlier e) eqn:Ho.
  - rewrite decide_False; [done|]. rewrite elem_of_list_to_set, list_elem_of_fmap.
    intros (e' & Hid & [Ho' He']%list_elem_of_filter). rewrite (Huniq e') in Ho' by done. congruence.
  - rewrite decide_True.
    2: { rewrite elem_of_list_to_set, list_elem_of_fmap. exists e. by rewrite list_elem_of_filter. }
    destruct (Hst eq_refl) as [ids Hids]. unfold state_at. rewrite Hids. simpl.
    assert (∀ k, contains (from_types (client_state_types u found)) k = true →
      events_of db (filter_state (from_types (client_state_types u found)) ids) !! k =
      events_of db ids !! k) as Hk by (intros; by apply events_of_filter).
    split_and!; [done|apply Hk, from_types_contains; simpl; set_solver..| |].
    + intros Hc. rewrite (Hfound Hc) in *. apply Hk, from_types_contains. simpl. set_solver.
    + intros k x Hx. apply (Hdb _ _ Hids k). rewrite events_of_lookup in *.
      rewrite filter_state_lookup in Hx. by case_match.
Qed.

Lemma client_filter_run db now u events peeking always :
  db_ok db → (∀ e, e ∈ events → event_ok (re_event e)) →
  (∀ e e', e ∈ events → e' ∈ events → event_id (re_event e) = event_id (re_event e') → e = e') →
  (∀ e, e ∈ events → re_outlier e = false → is_Some (db_state_ids db !! event_id (re_event e))) →
  (∀ e, e ∈ events → re_outlier e = true → event_id (re_event e) ∉ always) →
  (∀ e, e ∈ events → is_call_invite (re_event e) = true → re_soft_failed e = false) →
  ∃ out, filter_and_transform_events_for_client db now u events peeking always true = Ok out ∧
    Forall2 (shown_as db now u peeking always)
      (filter (λ e, client_sees db now u peeking always e = true) events) out.
Proof.
  intros Hdb Hev Huniq Hst Hout Hcall. unfold filter_and_transform_events_for_client.
  rewrite events_to_check_ok. set (found := existsb _ events).
  set (es := filter (λ e, soft_failure_shown db u e = true) events).
  assert (∀ e, e ∈ es → e ∈ events) as Hsub by (intros e; unfold es; rewrite list_elem_of_filter; tauto).
  destruct (get_state_ids_ok db
    (list_to_set ((λ e, event_id (re_event e)) <$> filter (λ e, re_outlier e = false) es))
    (from_types (client_state_types u found))) as (m & Hm & Hml).
  { intros i. rewrite elem_of_list_to_set, list_elem_of_fmap.
    intros (e & -> & [Ho He]%list_elem_of_filter). auto. }
  unfold get_state_for_events. rewrite Hm. cbn [mbind result_bind].
  destruct (retention_policies_ok db es) as (pol & -> & Hpol); [auto|]. cbn [mbind result_bind].
  destruct (filter_map_res_spec
    (allowed db now u peeking true always (events_of db <$> m) (Some pol))
    (λ e, bool_decide (is_Some (verdict db now u peeking always e)) &&
          negb (is_call_invite (re_event e) && public_room (state_at db (re_event e))))
    (shown_as db now u peeking always) es) as (out & -> & HR).
  { intros e He. pose proof (Hsub e He) as He'. eapply allowed_ok; [auto|auto| |done|eauto].
    eapply fetched_state_fits; eauto. intros Hc. apply existsb_exists. exists e.
    split; [by apply list_elem_of_In|]. rewrite Hc, (Hcall e) by done. done. }
  exists out. split; [done|]. unfold es in HR. rewrite list_filter_filter in HR.
  erewrite list_filter_iff; [exact HR|]. intros e. unfold client_sees.
  rewrite !andb_true_iff. tauto.
Qed.

(** Without an open history, a user that was neither joined nor invited sees an
    event under no restricted visibility. *)
Lemma client_view_other u e s peeking erased :
  role_at u e s = Other →
  get_effective_room_visibility_from_state s ∈ [HistoryVisibility.JOINED; HistoryVisibility.INVITED] →
  ev_type e ≠ RoomHistoryVisibility → client_view u e s peeking erased = None.
Proof.
  intros Hr Hv Ht%String.eqb_neq. unfold client_view, open_history. rewrite Hr, Ht.
  assert (∀ p, open_to p (get_effective_room_visibility_from_state s) = false) as ->.
  { intros p. apply elem_of_cons in Hv as [->|[->|[]%elem_of_nil]%elem_of_cons]; by destruct p. }
  by rewrite andb_false_r.
Qed.

(** C11: what a client is sent.  For well-formed events the filter never raises, and
    its result is, in order, exactly the events the user may see by the
    specification: not soft failed (unless an administrator asks for those), not
    hidden from clients (ignored sender, retention, internal types), visible by
    the role the user had at the event and the history visibility there, and not
    a call invite in a public room.  Each is shown with its own ID, type, sender
    and state key, with its content or, when the sender's account was erased and
    the user was not joined, the redacted content, and with the membership the
    user had after it.  In particular a user that was neither joined nor invited at
    an event whose history visibility is joined or invited is not sent it. *)
Theorem client_filter_correct db now u events peeking always :
  db_ok db → (∀ e, e ∈ events → event_ok (re_event e)) →
  (∀ e e', e ∈ events → e' ∈ events → event_id (re_event e) = event_id (re_event e') → e = e') →
  (∀ e, e ∈ events → re_outlier e = false → is_Some (db_state_ids db !! event_id (re_event e))) →
  (∀ e, e ∈ events → re_outlier e = true → event_id (re_event e) ∉ always) →
  (∀ e, e ∈ events → is_call_invite (re_event e) = true → re_soft_failed e = false) →
  ∃ out, filter_and_transform_events_for_client db now u events peeking always true = Ok out ∧
    Forall2 (shown_as db now u peeking always)
      (filter (λ e, client_sees db now u peeking always e = true) events) out ∧
    (∀ e o, e ∈ events → o ∈ out → re_outlier e = false → event_id (re_event e) ∉ always →
       ev_type (re_event e) ≠ RoomHistoryVisibility →
       role_at u (re_event e) (state_at db (re_event e)) = Other →
       get_effective_room_visibility_from_state (state_at db (re_event e)) ∈
         [HistoryVisibility.JOINED; HistoryVisibility.INVITED] →
       event_id (re_event o) ≠ event_id (re_event e)).
Proof.
  intros Hdb Hev Huniq Hst Hout Hcall.
  destruct (client_filter_run db now u events peeking always) as (out & Hf & HR); [done..|].
  exists out. split_and!; [done..|]. intros e o He Ho Hno Hna Ht Hrole Hvis Hid.
  apply list_elem_of_lookup in Ho as [i Ho].
  destruct (Forall2_lookup_r _ _ _ _ _ HR Ho) as (e' & [Hs He']%list_elem_of_lookup_2%list_elem_of_filter & Hsh).
  destruct Hsh as (Hid' & _). assert (e' = e) as -> by (apply Huniq; congruence).
  unfold client_sees in Hs. rewrite !andb_true_iff, bool_decide_eq_true in Hs.
  destruct Hs as [[_ Hv] _]. unfold verdict in Hv.
  rewrite decide_False, Hno, client_view_other in Hv by done.
  destruct (hidden_from_clients _ _ _ _); by destruct Hv.
Qed.

(** ** Many users *)

(** The state after an event, from the state before it. *)
Definition with_event (db : visibility_db) (prev : gmap StateKey string) (e : event) :
    gmap StateKey event :=
  match ev_state_key e with
  | Some k => <[(ev_type e, k):=e]> (events_of db prev)
  | None => events_of db prev
  end.

Lemma get_state_map_lookup db e prev f k :
  contains f k = true → _get_state_map db e prev f !! k = with_event db prev e !! k.
Proof.
  intros Hk. unfold _get_state_map, with_event. destruct (ev_state_key e) as [sk|];
    rewrite ?lookup_insert; case_decide || idtac; try done; by apply events_of_filter.
Qed.

Lemma get_state_map_ok db e prev f :
  state_ok (with_event db prev e) → state_ok (_get_state_map db e prev f).
Proof.
  intros Hs k m Hm. apply (Hs k). revert Hm. unfold _get_state_map, with_event.
  assert (∀ k', events_of db (filter_state f prev) !! k' = Some m → events_of db prev !! k' = Some m) as Hsub.
  { intros k'. rewrite !events_of_lookup, filter_state_lookup. by case_match. }
  destruct (ev_state_key e); [|auto]. rewrite !lookup_insert. case_decide; auto.
Qed.

Lemma filter_users_ok f g us :
  (∀ u, u ∈ us → f u = Ok (g u)) →
  ∃ us', filter_users f us = Ok us' ∧ ∀ u, u ∈ us' ↔ u ∈ us ∧ g u = true.
Proof.
  intros Hf. unfold filter_users.
  rewrite (filter_map_res_omap _ (λ u, if g u then Some u else None)).
  2: { intros u Hu%elem_of_elements. by rewrite Hf. }
  simpl. eexists. split; [done|]. intros u. rewrite elem_of_list_to_set, list_elem_of_omap. split.
  - intros (x & Hx%elem_of_elements & Hg). destruct (g x) eqn:Hgx; simplify_eq. done.
  - intros [Hu Hg]. exists u. by rewrite elem_of_elements, Hg.
Qed.

(** Membership in the view of a user without erasure. *)
Lemma client_view_closed u e s peeking :
  open_history e s peeking = false →
  is_Some (client_view u e s peeking false) ↔
  match role_at u e s with
  | Joined | Leaving => True
  | Invited => open_to peeking (get_effective_room_visibility_from_state s) ||
               String.eqb (get_effective_room_visibility_from_state s) HistoryVisibility.INVITED = true
  | Other => open_to peeking (get_effective_room_visibility_from_state s) = true
  end.
Proof.
  intros Ho. unfold client_view. rewrite Ho. simpl.
  destruct (role_at u e s); try (split; [done|by eexists]); case_match; split; done || by eexists.
Qed.

(** The last loop of [filter_event_for_clients_with_state]. *)
Lemma closed_history_users db e prev peeking (au : gset string) :
  event_ok e → state_ok (with_event db prev e) → open_history e (with_event db prev e) peeking = false →
  ∃ us, filter_users (λ u,
      r ← _check_membership u e (get_effective_room_visibility_from_state (with_event db prev e))
            (_get_state_map db e prev (from_types
               (((λ u, (EventTypes.Member, Some u)) <$> elements au) ++ [(RoomHistoryVisibility, Some "")])))
            peeking;
      Ok (cm_allowed r)) au = Ok us ∧
    ∀ u, u ∈ us ↔ u ∈ au ∧ is_Some (client_view u e (with_event db prev e) peeking false).
Proof.
  intros He Hs Hopen. set (s := with_event db prev e) in *. set (fl := _ ++ _).
  set (g := λ u, match role_at u e s with
    | Joined | Leaving => true
    | Invited => open_to peeking (get_effective_room_visibility_from_state s) ||
                 String.eqb (get_effective_room_visibility_from_state s) HistoryVisibility.INVITED
    | Other => open_to peeking (get_effective_room_visibility_from_state s)
    end).
  match goal with |- ∃ us, filter_users ?f au = _ ∧ _ =>
    destruct (filter_users_ok f g au) as (us & Hus & Hin) end.
  - intros u Hu.
    assert (role_at u e (_get_state_map db e prev (from_types fl)) = role_at u e s) as Hrole.
    { unfold role_at, s. rewrite get_state_map_lookup; [done|].
      apply from_types_contains. left. unfold fl. simpl. apply elem_of_app. left.
      apply list_elem_of_fmap. exists u. by rewrite elem_of_elements. }
    rewrite check_membership_ok, Hrole
      by (done || apply effective_visibility_known || by apply get_state_map_ok).
    unfold g. by destruct (role_at u e s).
  - exists us. split; [exact Hus|]. intros u. rewrite Hin, client_view_closed by done. unfold g.
    destruct (role_at u e s); tauto.
Qed.

(** The users left after the checks for sending to clients. *)
Lemma allowed_users_ok db now ev rid (users : list string) u :
  room_id ev = Ok rid →
  u ∈ filter (λ u, _check_filter_send_to_client ev now (get_retention_policy_for_room db rid)
                     (bool_decide (u ∈ ignored_by db (ev_sender ev))) = MAYBE_ALLOWED)
             (list_to_set users : gset string) ↔
  u ∈ users ∧ hidden_from_clients ev now (policy_of db ev) (ignores db u (ev_sender ev)) = false.
Proof.
  intros Hrid. unfold policy_of.
  rewrite Hrid, elem_of_filter, elem_of_list_to_set, check_filter_ok, ignored_by_bool.
  destruct (hidden_from_clients _ _ _ _); naive_solver.
Qed.

Lemma with_state_run db now users e prev peeking :
  event_ok (re_event e) → state_ok (with_event db prev (re_event e)) → re_soft_failed e = false →
  ∃ us, filter_event_for_clients_with_state db now users e prev peeking true = Ok us ∧
    ∀ u, u ∈ us ↔ (u ∈ users ∧
      hidden_from_clients (re_event e) now (policy_of db (re_event e))
        (ignores db u (ev_sender (re_event e))) = false) ∧
      if re_outlier e then own_membership u (re_event e) = true
      else is_Some (client_view u (re_event e) (with_event db prev (re_event e)) peeking false).
Proof.
  intros He Hs Hsoft. unfold filter_event_for_clients_with_state. rewrite Hsoft.
  destruct (decide (users = [])) as [->|Hne].
  { rewrite bool_decide_true by done. exists ∅. split; [done|]. set_solver. }
  rewrite bool_decide_false by done. destruct (eo_room _ He) as [rid Hrid].
  rewrite Hrid. cbn [mbind result_bind]. set (au := filter _ (list_to_set users : gset string)).
  setoid_rewrite <- (allowed_users_ok db now (re_event e) rid users); [|done]. fold au.
  destruct (re_outlier e).
  { destruct (String.eqb_spec (ev_type (re_event e)) EventTypes.Member) as [Ht|Ht].
    - destruct (eo_member _ He Ht) as [[k Hk] _]. unfold state_key, own_membership.
      rewrite Hk, Ht. simpl. eexists. split; [done|]. intros u.
      rewrite bool_decide_eq_true. case_decide; set_solver.
    - exists ∅. split; [done|]. intros u. unfold own_membership. apply String.eqb_neq in Ht. rewrite Ht.
      set_solver. }
  set (s1 := _get_state_map db (re_event e) prev (from_types [(RoomHistoryVisibility, Some "")])).
  assert (get_effective_room_visibility_from_state s1 =
    get_effective_room_visibility_from_state (with_event db prev (re_event e))) as Hv.
  { unfold get_effective_room_visibility_from_state, s1. rewrite get_state_map_lookup; [done|].
    apply from_types_contains. simpl. set_solver. }
  rewrite Hv, check_history_visibility_ok by done. cbn [mbind result_bind].
  destruct (open_history _ _ peeking) eqn:Hopen; [|by apply closed_history_users].
  exists au. split; [done|]. intros u. unfold client_view. rewrite Hopen. simpl. naive_solver.
Qed.

(** Erasure of the sender decides how an event is shown, not whether, but for a
    change of the history visibility. *)
Lemma client_view_erased u e s peeking erased :
  (erased = true → ev_type e ≠ RoomHistoryVisibility) →
  is_Some (client_view u e s peeking erased) ↔ is_Some (client_view u e s peeking false).
Proof.
  intros He. destruct erased; [|done]. specialize (He eq_refl). apply String.eqb_neq in He.
  unfold client_view, open_history. rewrite He. simpl. rewrite orb_false_r.
  destruct (open_to peeking _) eqn:Ho; simpl; destruct (role_at u e s); simpl;
    repeat case_match; split; by intros [? ?].
Qed.

(** C13: the two filters for clients agree, outside three cases.  An event is
    pushed to clients with [filter_event_for_clients_with_state], from the state
    before it, and read back with [filter_and_transform_events_for_client], from
    the state after it: when the stored state after the event is the state before
    it with the event applied, the users of a list to whom the event is pushed
    are exactly those whose own request for it returns it, in full or redacted.
    Excluded, because only the second filter treats them specially, are
    soft-failed events when a server administrator is among the users, call
    invites that are soft failed or in a public room, and changes of the history
    visibility whose sender was erased. *)
Theorem client_filters_agree db now users e prev peeking :
  db_ok db → event_ok (re_event e) →
  (re_soft_failed e = true → ∀ u, u ∈ users → u ∉ db_server_admins db) →
  (is_call_invite (re_event e) = true →
     re_soft_failed e = false ∧ public_room (state_at db (re_event e)) = false) →
  (ev_type (re_event e) = RoomHistoryVisibility → ev_sender (re_event e) ∉ db_erased db) →
  db_events db !! event_id (re_event e) = Some (re_event e) →
  db_state_ids db !! event_id (re_event e) =
    Some (match ev_state_key (re_event e) with
          | Some k => <[(ev_type (re_event e), k):=event_id (re_event e)]> prev
          | None => prev
          end) →
  ∃ us, filter_event_for_clients_with_state db now users e prev peeking true = Ok us ∧
    ∀ u, u ∈ users → ∃ out,
      filter_and_transform_events_for_client db now u [e] peeking ∅ true = Ok out ∧
      (u ∈ us ↔ out ≠ []).
Proof.
  intros Hdb He Hsoft Hcall Her Hstored Hids.
  assert (state_at db (re_event e) = with_event db prev (re_event e)) as Hstate.
  { unfold state_at, with_event. rewrite Hids. simpl. destruct (ev_state_key (re_event e)); [|done].
    unfold events_of. by rewrite omap_insert_Some with (y := re_event e). }
  assert (∃ us, filter_event_for_clients_with_state db now users e prev peeking true = Ok us ∧
    ∀ u, u ∈ users → u ∈ us ↔ client_sees db now u peeking ∅ e = true) as (us & Hus & Hin).
  { destruct (re_soft_failed e) eqn:Hs.
    { unfold filter_event_for_clients_with_state. rewrite Hs. exists ∅. split; [done|]. intros u Hu.
      unfold client_sees, soft_failure_shown. rewrite Hs, bool_decide_false by auto. set_solver. }
    destruct (with_state_run db now users e prev peeking) as (us & Hus & Hin); [done| |done|].
    { rewrite <- Hstate. unfold state_at. rewrite Hids. by apply (Hdb _ _ Hids). }
    exists us. split; [done|]. intros u Hu. rewrite Hin.
    unfold client_sees, verdict, soft_failure_shown. rewrite Hs, Hstate.
    assert (is_call_invite (re_event e) && public_room (with_event db prev (re_event e)) = false) as ->.
    { rewrite <- Hstate. destruct (is_call_invite _); [by apply Hcall|done]. }
    rewrite decide_False by set_solver. simpl. rewrite andb_true_r, bool_decide_eq_true.
    destruct (hidden_from_clients _ _ _ _); [split; [by intros [[_ ?] _]|by intros []]|].
    destruct (re_outlier e).
    { destruct (own_membership u (re_event e)); split; naive_solver. }
    rewrite (client_view_erased _ _ _ _ (bool_decide _)); [naive_solver|].
    intros Hb%bool_decide_eq_true Ht. by apply Her in Ht. }
  exists us. split; [done|]. intros u Hu.
  destruct (client_filter_run db now u [e] peeking ∅) as (out & Hout & HR); [done|..].
  1-5: intros ?; rewrite ?list_elem_of_singleton; try intros ->; try done; try set_solver; intros ?; by apply Hcall.
  exists out. split; [done|]. rewrite Hin by done.
  rewrite filter_cons, filter_nil in HR. destruct (decide (client_sees db now u peeking ∅ e = true)) as [H|H].
  - apply Forall2_cons_inv_l in HR as (o & out' & _ & _ & ->). naive_solver.
  - apply Forall2_nil_inv_l in HR as ->. naive_solver.
Qed.
