(* ===== verification/VisibilityServer.v ===== *)
(** The filter for other servers, [filter_events_for_server], against its
    specification. *)
From S2P Require Import Prelude RoomVersions Identifiers Events Redaction RedactionProps StateFilter StateFilterProps Visibility VisibilityProps VisibilityClients.
From Stdlib Require Import Ascii.

(** ** The specification *)

(** The history visibility at an event, as another server is concerned: the state
    of an outlier is not known, and counts as shared. *)
Definition visibility_at (db : visibility_db) (e : room_event) : string :=
  if re_outlier e then HistoryVisibility.SHARED
  else match state_at db (re_event e) !! _HISTORY_VIS_KEY with
       | Some v => match dict_get_or (ev_content v) "history_visibility" (JStr HistoryVisibility.SHARED) with
                   | JStr s => s
                   | _ => HistoryVisibility.SHARED
                   end
       | None => HistoryVisibility.SHARED
       end.

(** A user of the server is joined in the state, or invited where that counts. *)
Definition server_in_room (target v : string) (s : gmap StateKey event) : Prop :=
  ∃ k l m, s !! (EventTypes.Member, k) = Some m ∧ split_once ":"%char k = Some (l, target) ∧
    (membership m = Ok (JStr Membership.JOIN) ∨
     (membership m = Ok (JStr Membership.INVITE) ∧ v = HistoryVisibility.INVITED)).

Definition server_sees (db : visibility_db) (target local : string)
    (filter_erased filter_partial : bool) (e : room_event) : Prop :=
  let ev := re_event e in let v := visibility_at db e in
  ¬ (filter_erased = true ∧ ev_sender ev ∈ db_erased db) ∧
  ¬ (filter_partial = true ∧ get_domain_from_id (ev_sender ev) ≠ Ok local ∧
     ∃ rid, room_id ev = Ok rid ∧ rid ∈ db_partial_state_rooms db) ∧
  ((v ≠ HistoryVisibility.INVITED ∧ v ≠ HistoryVisibility.JOINED) ∨
   server_in_room target v (state_at db ev)).

(** The states of the database are well formed: the memberships are filed under
    the users they are about, as strings, and the visibility event is there. *)
Record server_db_ok (db : visibility_db) : Prop := {
  so_member : ∀ i ids k x m,
    db_state_ids db !! i = Some ids → ids !! (EventTypes.Member, k) = Some x →
    db_events db !! x = Some m →
    ev_state_key m = Some k ∧ (∃ s, membership m = Ok (JStr s)) ∧
    startswith "@" k = true ∧ is_Some (split_once ":"%char k);
  so_visibility : ∀ i ids x,
    db_state_ids db !! i = Some ids → ids !! _HISTORY_VIS_KEY = Some x →
    x ≠ "" ∧ ∃ v s, db_events db !! x = Some v ∧
      dict_get_or (ev_content v) "history_visibility" (JStr HistoryVisibility.SHARED) = JStr s
}.

(** ** Folds that build maps *)
Lemma fold_res_insert {A V} (f : A → result V) (key : A → string) l (m0 : gmap string V) :
  (∀ x, x ∈ l → is_ok (f x) = true) →
  (∀ x y, x ∈ l → y ∈ l → key x = key y → f x = f y) →
  ∃ m, fold_res (λ m x, v ← f x; Ok (<[key x:=v]> m)) l m0 = Ok m ∧
    (∀ x v, x ∈ l → f x = Ok v → m !! key x = Some v) ∧
    (∀ k, (∀ x, x ∈ l → key x ≠ k) → m !! k = m0 !! k).
Proof.
  revert m0. induction l as [|x l IH]; intros m0 Hok Hkey; cbn [fold_res].
  { exists m0. split_and!; [done|set_solver|done]. }
  pose proof (Hok x (list_elem_of_here _ _)) as Hx. destruct (f x) as [v|] eqn:Hf; [|done].
  cbn [mbind result_bind].
  destruct (IH (<[key x:=v]> m0)) as (m & Hm & Hl & Hk); [set_solver..|].
  exists m. split_and!; [done| |].
  - intros y w [->|Hy]%elem_of_cons Hw; [|by apply Hl]. rewrite Hf in Hw. injection Hw as <-.
    destruct (decide (key x ∈ key <$> l)) as [(z & Hzk & Hz)%list_elem_of_fmap|Hnone].
    + rewrite Hzk. apply Hl; [done|]. rewrite (Hkey z x) by set_solver. done.
    + rewrite Hk; [by rewrite lookup_insert_eq|]. intros z Hz Hzk. apply Hnone. rewrite <- Hzk.
      by apply list_elem_of_fmap_2.
  - intros k Hn. rewrite Hk by set_solver. rewrite lookup_insert_ne; [done|]. apply Hn. set_solver.
Qed.

(** ** The parts of the filter *)
Lemma visible_by_membership_ok target v l :
  (∀ k m, (k, m) ∈ l → user_server_name k = Ok target) →
  visible_by_membership target v l =
  Ok (existsb (λ '(_, m), (String.eqb m Membership.INVITE && String.eqb v HistoryVisibility.INVITED) ||
                          String.eqb m Membership.JOIN) l).
Proof.
  induction l as [|[k m] l IH]; intros Hl; [done|]. cbn [visible_by_membership existsb].
  rewrite (Hl k m) by set_solver. cbn [mbind result_bind]. rewrite String.eqb_refl. simpl.
  destruct ((_ && _) || _); [done|]. simpl. apply IH. set_solver.
Qed.

(** Extending a list with the results for each element. *)
Lemma fold_res_collect {A B} (f : A → result (option B)) l acc :
  (∀ x, x ∈ l → is_ok (f x) = true) →
  ∃ out, fold_res (λ acc x, r ← f x; Ok (match r with Some y => acc ++ [y] | None => acc end)) l acc = Ok out ∧
    ∀ y, y ∈ out ↔ y ∈ acc ∨ ∃ x, x ∈ l ∧ f x = Ok (Some y).
Proof.
  revert acc. induction l as [|x l IH]; intros acc Hok; cbn [fold_res].
  { exists acc. split; [done|]. set_solver. }
  pose proof (Hok x (list_elem_of_here _ _)) as Hx. destruct (f x) as [r|] eqn:Hf; [|done].
  cbn [mbind result_bind].
  edestruct IH as (out & -> & Hout); [set_solver|]. exists out. split; [done|]. intros y.
  rewrite Hout. split.
  - intros [Hy|(x' & Hx' & Hfx)]; [|by right; exists x'; set_solver].
    destruct r as [z|]; [|by left]. apply elem_of_app in Hy as [Hy|Hy%list_elem_of_singleton]; [by left|]. subst y.
    right. exists x. set_solver.
  - intros [Hy|(x' & [->|Hx']%elem_of_cons & Hfx)]; [|left|by right; exists x'].
    + left. destruct r; [apply elem_of_app; by left|done].
    + rewrite Hf in Hfx. injection Hfx as ->. apply elem_of_app. right. by apply list_elem_of_singleton.
Qed.

Lemma fold_res_ext {A B} (f g : B → A → result B) l b :
  (∀ b x, f b x = g b x) → fold_res f l b = fold_res g l b.
Proof.
  intros Hfg. revert b. induction l as [|x l IH]; intros b; [done|]. cbn [fold_res].
  rewrite Hfg. destruct (g b x); [apply IH|done].
Qed.

Lemma memberships_of_ok (event_map : gmap string event) (ids : gmap StateKey string) :
  (∀ key i m, ids !! key = Some i → event_map !! i = Some m →
     is_Some (ev_state_key m) ∧ ∃ s, membership m = Ok (JStr s)) →
  ∃ l l', memberships_of event_map ids = Ok l ∧ membership_strings l = Ok l' ∧
    ∀ k s, (k, s) ∈ l' ↔ ∃ key i m, ids !! key = Some i ∧ event_map !! i = Some m ∧
      ev_state_key m = Some k ∧ membership m = Ok (JStr s).
Proof.
  intros Hok. set (f := λ i, match event_map !! i with
    | Some m => k ← state_key m; ms ← membership m; Ok (Some (k, ms))
    | None => Ok None
    end : result (option (string * json))).
  assert (∀ i, i ∈ (map_to_list ids).*2 → ∃ key, ids !! key = Some i) as Hin.
  { intros i ([key i'] & -> & Hk%elem_of_map_to_list)%list_elem_of_fmap. by exists key. }
  destruct (fold_res_collect f (map_to_list ids).*2 []) as (l & Hl & Hlin).
  { intros i [key Hk]%Hin. unfold f. destruct (event_map !! i) as [m|] eqn:Hm; [|done].
    destruct (Hok _ _ _ Hk Hm) as [[k Hsk] [s Hs]]. unfold state_key. by rewrite Hsk, Hs. }
  assert (memberships_of event_map ids = Ok l) as Hl'.
  { rewrite <- Hl. unfold memberships_of. apply fold_res_ext. intros acc i.
    unfold f. destruct (event_map !! i); [|done]. by destruct (state_key _), (membership _). }
  assert (∀ k j, (k, j) ∈ l ↔ ∃ key i m, ids !! key = Some i ∧ event_map !! i = Some m ∧
    ev_state_key m = Some k ∧ membership m = Ok j) as Hmem. 
  { intros k j. rewrite Hlin. unfold f. split.
    - intros [?%elem_of_nil|(i & [key Hk]%Hin & Hf)]; [done|].
      destruct (event_map !! i) as [m|] eqn:Hm; [|done].
      apply bind_ok in Hf as (k' & Hk'%of_option_ok & Hf). apply bind_ok in Hf as (j' & Hj & [= <- <-]).
      naive_solver.
    - intros (key & i & m & Hk & Hm & Hsk & Hj). right. exists i. split.
      + apply list_elem_of_fmap. exists (key, i). split; [done|]. by apply elem_of_map_to_list.
      + unfold state_key. by rewrite Hm, Hsk, Hj. }
  set (g := λ p : string * json, match p.2 with JStr s => Ok (Some (p.1, s)) | _ => Raise TypeError end).
  destruct (fold_res_collect g l []) as (l' & Hg & Hgin).
  { intros [k j] (key & i & m & Hk & Hm & _ & Hj)%Hmem. destruct (Hok _ _ _ Hk Hm) as [_ [s Hs]].
    unfold g. simpl. rewrite Hs in Hj. by injection Hj as <-. }
  exists l, l'. split_and!; [done| |].
  - rewrite <- Hg. unfold membership_strings. apply fold_res_ext. intros acc [k j].
    unfold g. simpl. by destruct j.
  - intros k s. rewrite Hgin, <- Hmem. unfold g. split.
    + intros [?%elem_of_nil|([k' j] & Hk & Hs)]; [done|]. simpl in Hs. by destruct j; simplify_eq.
    + intros Hk. right. by exists (k, JStr s).
Qed.

(** The keys under which events are filed. *)
Lemma foldl_keys_ok (l : list (StateKey * string)) (m0 : gmap string StateKey) :
  let m := foldl (λ m '(key, i), <[i:=key]> m) m0 l in
  (∀ i key, m !! i = Some key → (key, i) ∈ l ∨ m0 !! i = Some key) ∧
  (∀ i, (∃ key, (key, i) ∈ l) ∨ is_Some (m0 !! i) → is_Some (m !! i)).
Proof.
  revert m0. induction l as [|[k j] l IH]; intros m0 m.
  { split; [by right|]. intros i [[key ?%elem_of_nil]|?]; done. }
  destruct (IH (<[j:=k]> m0)) as [Hin Hsome]. split.
  - intros i key [Hl|Hi]%Hin; [left; by apply list_elem_of_further|].
    apply lookup_insert_Some in Hi as [[-> ->]|[_ Hi]]; [left; apply list_elem_of_here|by right].
  - intros i Hi. apply Hsome. rewrite lookup_insert_is_Some'. 
    destruct Hi as [[key [[= -> ->]|Hl]%elem_of_cons]|Hi]; [right; by left|left; by exists key|right; by right].
Qed.

Lemma event_id_to_state_key_ok m :
  (∀ x key, event_id_to_state_key m !! x = Some key →
     ∃ i ids, m !! i = Some ids ∧ ids !! key = Some x) ∧
  (∀ i ids key x, m !! i = Some ids → ids !! key = Some x →
     is_Some (event_id_to_state_key m !! x)).
Proof.
  unfold event_id_to_state_key.
  assert (∀ (L : list (gmap StateKey string)) (m0 : gmap string StateKey),
    let r := foldl (λ m ids, foldl (λ m '(key, i), <[i:=key]> m) m (map_to_list ids)) m0 L in
    (∀ x key, r !! x = Some key → (∃ ids, ids ∈ L ∧ ids !! key = Some x) ∨ m0 !! x = Some key) ∧
    (∀ x, (∃ ids key, ids ∈ L ∧ ids !! key = Some x) ∨ is_Some (m0 !! x) → is_Some (r !! x))) as H.
  { induction L as [|ids L IH]; intros m0 r.
    { split; [by right|]. intros x [(ids & key & ?%elem_of_nil & _)|?]; done. }
    destruct (foldl_keys_ok (map_to_list ids) m0) as [Hin Hsome].
    destruct (IH (foldl (λ m '(key, i), <[i:=key]> m) m0 (map_to_list ids))) as [Hin' Hsome']. split.
    - intros x key [(ids' & ? & ?)|[Hk%elem_of_map_to_list|?]%Hin]%Hin'; [left|left|by right].
      + exists ids'. split; [by apply list_elem_of_further|done].
      + exists ids. split; [apply list_elem_of_here|done].
    - intros x Hx. apply Hsome'. destruct Hx as [(ids' & key & [->|Hl]%elem_of_cons & Hk)|Hx].
      + right. apply Hsome. left. exists key. by apply elem_of_map_to_list.
      + left. by exists ids', key.
      + right. apply Hsome. by right. }
  destruct (H (map_to_list m).*2 ∅) as [Hin Hsome]. split.
  - intros x key [(ids & ([i ids'] & -> & Hm%elem_of_map_to_list)%list_elem_of_fmap & Hk)|Hx]%Hin.
    + by exists i, ids'.
    + by rewrite lookup_empty in Hx.
  - intros i ids key x Hm Hk. apply Hsome. left. exists ids, key. split; [|done].
    apply list_elem_of_fmap. exists (i, ids). split; [done|]. by apply elem_of_map_to_list.
Qed.

(** The memberships fetched from states that hold member events only. *)
Section fetched.
Context (db : visibility_db) (target : string) (sm : gmap string (gmap StateKey string)).
Context (Hdb : server_db_ok db).
Context (Hsub : ∀ i ids key x, sm !! i = Some ids → ids !! key = Some x →
  ∃ ids', db_state_ids db !! i = Some ids' ∧ ids' !! key = Some x ∧ key.1 = EventTypes.Member).

Definition fetched_members : gmap string event :=
  filter (λ '(i, _), is_Some
    (filter (λ '(_, key), include_state_key target key.2 = true) (event_id_to_state_key sm) !! i))
    (db_events db).

(** An event has one key. *)
Lemma member_key i i' ids ids' key key' x m :
  sm !! i = Some ids → ids !! key = Some x → sm !! i' = Some ids' → ids' !! key' = Some x →
  db_events db !! x = Some m →
  key' = key ∧ ev_state_key m = Some key.2 ∧ (∃ s, membership m = Ok (JStr s)) ∧
  startswith "@" key.2 = true ∧ is_Some (split_once ":"%char key.2).
Proof using Hdb Hsub.
  intros Hi Hk Hi' Hk' Hm.
  destruct (Hsub _ _ _ _ Hi Hk) as (a & Ha & Hak & Ht), (Hsub _ _ _ _ Hi' Hk') as (b & Hb & Hbk & Ht').
  destruct key as [t k], key' as [t' k']. simpl in *. subst t t'.
  destruct (so_member _ Hdb _ _ _ _ _ Ha Hak Hm) as (Hsk & Hrest).
  destruct (so_member _ Hdb _ _ _ _ _ Hb Hbk Hm) as (Hsk' & _).
  split; [by f_equal; congruence|done].
Qed.

Lemma fetched_members_lookup i ids key x m :
  sm !! i = Some ids → ids !! key = Some x →
  fetched_members !! x = Some m ↔ db_events db !! x = Some m ∧ include_state_key target key.2 = true.
Proof using Hdb Hsub.
  intros Hi Hk. unfold fetched_members. rewrite map_lookup_filter_Some.
  destruct (event_id_to_state_key_ok sm) as [H1 H2]. destruct (H2 _ _ _ _ Hi Hk) as [key' Hkey'].
  destruct (H1 _ _ Hkey') as (i' & ids2 & Hi' & Hk').
  split; intros [Hm Hw]; (split; [done|]);
    destruct (member_key _ _ _ _ _ _ _ _ Hi Hk Hi' Hk' Hm) as [-> _].
  - destruct Hw as [y [Hy Hinc]%map_lookup_filter_Some]. rewrite Hkey' in Hy. by injection Hy as <-.
  - exists key. by rewrite map_lookup_filter_Some.
Qed.

Lemma fetched_memberships i ids :
  sm !! i = Some ids →
  ∃ l l', memberships_of fetched_members ids = Ok l ∧ membership_strings l = Ok l' ∧
    ∀ k s, (k, s) ∈ l' ↔ include_state_key target k = true ∧
      ∃ x m, ids !! (EventTypes.Member, k) = Some x ∧ db_events db !! x = Some m ∧
             membership m = Ok (JStr s).
Proof using Hdb Hsub.
  intros Hi. destruct (memberships_of_ok fetched_members ids) as (l & l' & Hl & Hl' & Hin).
  { intros key x m Hk Hm. apply (fetched_members_lookup _ _ _ _ _ Hi Hk) in Hm as [Hm _].
    destruct (member_key _ _ _ _ _ _ _ _ Hi Hk Hi Hk Hm) as (_ & Hsk & Hs & _). by split; [eexists|]. }
  exists l, l'. split_and!; [done..|]. intros k s. rewrite Hin. split.
  - intros (key & x & m & Hk & [Hm Hinc]%(fetched_members_lookup _ _ _ _ _ Hi Hk) & Hsk & Hs).
    destruct (member_key _ _ _ _ _ _ _ _ Hi Hk Hi Hk Hm) as (_ & Hsk' & _).
    rewrite Hsk in Hsk'. injection Hsk' as ->. split; [done|]. exists x, m.
    destruct (Hsub _ _ _ _ Hi Hk) as (_ & _ & _ & Ht). destruct key as [t k]. by simpl in Ht; subst t.
  - intros (Hinc & x & m & Hk & Hm & Hs). exists (EventTypes.Member, k), x, m.
    destruct (member_key _ _ _ _ _ _ _ _ Hi Hk Hi Hk Hm) as (_ & Hsk & _).
    split_and!; [done| |done|done]. by apply (fetched_members_lookup _ _ _ _ _ Hi Hk).
Qed.
End fetched.

(** The memberships of the server at each event. *)
Lemma event_to_memberships_ok db (es : list room_event) target :
  server_db_ok db →
  (∀ e, e ∈ es → is_Some (db_state_ids db !! event_id (re_event e))) →
  ∃ mem, _event_to_memberships db es target = Ok mem ∧
    (∀ i, (∀ e, e ∈ es → event_id (re_event e) ≠ i) → mem !! i = None) ∧
    ∀ e, e ∈ es → ∃ l l', mem !! event_id (re_event e) = Some l ∧ membership_strings l = Ok l' ∧
      ∀ k s, (k, s) ∈ l' ↔ include_state_key target k = true ∧
        ∃ m, state_at db (re_event e) !! (EventTypes.Member, k) = Some m ∧ membership m = Ok (JStr s).
Proof.
  intros Hdb Hes. unfold _event_to_memberships. case_bool_decide as Hnil.
  { subst es. exists ∅. split_and!; [done|by intros; apply lookup_empty|set_solver]. }
  set (idset := list_to_set _ : gset string).
  assert (∀ i, i ∈ idset ↔ ∃ e, e ∈ es ∧ event_id (re_event e) = i) as Hidset.
  { intros i. unfold idset. rewrite elem_of_list_to_set, list_elem_of_fmap. naive_solver. }
  destruct (get_state_ids_ok db idset (from_types [(EventTypes.Member, None)])) as (sm & -> & Hsm).
  { intros i (e & He & <-)%Hidset. auto. }
  cbn [mbind result_bind].
  assert (∀ i ids key x, sm !! i = Some ids → ids !! key = Some x →
    ∃ ids', db_state_ids db !! i = Some ids' ∧ ids' !! key = Some x ∧ key.1 = EventTypes.Member) as Hsub.
  { intros i ids key x Hi Hk. rewrite Hsm in Hi. case_decide; [|done].
    destruct (db_state_ids db !! i) as [ids'|]; [|done]. injection Hi as <-. exists ids'.
    rewrite filter_state_lookup in Hk. destruct (contains _ key) eqn:Hc; [|done].
    apply from_types_contains in Hc. split_and!; [done..|]. set_solver. }
  change (filter _ (db_events db)) with (fetched_members db target sm).
  destruct (fold_res_insert (λ p : string * gmap StateKey string, memberships_of (fetched_members db target sm) p.2)
    fst (map_to_list sm) ∅) as (mem & Hmem & Hval & Hnone).
  { intros [i ids] Hi%elem_of_map_to_list.
    destruct (fetched_memberships db target sm Hdb Hsub i ids Hi) as (l & l' & Hl & _). simpl. by rewrite Hl. }
  { intros [i ids] [i' ids'] Hi%elem_of_map_to_list Hi'%elem_of_map_to_list. simpl. intros ->. by simplify_eq. }
  exists mem. split_and!.
  - rewrite <- Hmem. apply fold_res_ext. by intros m [i ids].
  - intros i Hi. rewrite Hnone; [apply lookup_empty|]. intros [j ids] Hj%elem_of_map_to_list <-.
    rewrite Hsm in Hj. case_decide as Hd; [|done]. apply Hidset in Hd as (e & He & Hid). by eapply Hi.
  - intros e He. destruct (Hes e He) as [ids Hids].
    assert (sm !! event_id (re_event e) = Some (filter_state (from_types [(EventTypes.Member, None)]) ids)) as Hi.
    { rewrite Hsm, decide_True, Hids by (apply Hidset; by exists e). done. }
    destruct (fetched_memberships db target sm Hdb Hsub _ _ Hi) as (l & l' & Hl & Hl' & Hin).
    exists l, l'. split_and!; [|done|].
    + eapply (Hval (event_id (re_event e), filter_state (from_types [(EventTypes.Member, None)]) ids));
        [by apply elem_of_map_to_list|done].
    + intros k s. rewrite Hin. unfold state_at. rewrite Hids. simpl.
      rewrite events_of_lookup, filter_state_lookup.
      replace (contains _ _) with true by (symmetry; apply from_types_contains; simpl; set_solver).
      destruct (ids !! (EventTypes.Member, k)) as [x|]; simpl; naive_solver.
Qed.

(** The history visibility at each event. *)
Lemma event_to_history_vis_ok db (es : list room_event) :
  server_db_ok db →
  (∀ e e', e ∈ es → e' ∈ es → event_id (re_event e) = event_id (re_event e') → e = e') →
  (∀ e, e ∈ es → re_outlier e = false → is_Some (db_state_ids db !! event_id (re_event e))) →
  ∃ vis, _event_to_history_vis db es = Ok vis ∧
    ∀ e, e ∈ es → vis !! event_id (re_event e) = Some (visibility_at db e).
Proof.
  intros Hdb Huniq Hst. unfold _event_to_history_vis. set (idset := list_to_set _ : gset string).
  assert (∀ i, i ∈ idset ↔ ∃ e, e ∈ es ∧ re_outlier e = false ∧ event_id (re_event e) = i) as Hidset.
  { intros i. unfold idset. rewrite elem_of_list_to_set, list_elem_of_fmap.
    setoid_rewrite list_elem_of_filter. naive_solver. }
  destruct (get_state_ids_ok db idset (from_types [(RoomHistoryVisibility, Some "")])) as (sm & -> & Hsm).
  { intros i (e & He & Ho & <-)%Hidset. auto. }
  cbn [mbind result_bind].
  assert (∀ e, e ∈ es → history_vis_of db sm e = Ok (visibility_at db e)) as Hvis.
  { intros e He. unfold history_vis_of, visibility_at. rewrite Hsm. destruct (re_outlier e) eqn:Ho.
    - rewrite decide_False; [done|]. intros (e' & He' & Ho' & Hid)%Hidset.
      rewrite (Huniq e' e) in Ho' by done. congruence.
    - rewrite decide_True by (apply Hidset; by exists e).
      destruct (Hst e He Ho) as [ids Hids]. unfold state_at. rewrite Hids. simpl.
      rewrite filter_state_lookup, events_of_lookup.
      replace (contains _ _) with true by (symmetry; apply from_types_contains; simpl; set_solver).
      destruct (ids !! _HISTORY_VIS_KEY) as [x|] eqn:Hx; [|done].
      destruct (so_visibility _ Hdb _ _ _ Hids Hx) as (Hne & v & s & Hv & Hs). simpl.
      replace (str_nonempty x) with true by (by destruct x). rewrite Hv. simpl. by rewrite Hs. }
  destruct (fold_res_insert (history_vis_of db sm) (λ e, event_id (re_event e)) es ∅)
    as (vis & -> & Hval & _).
  { intros e He. by rewrite Hvis. }
  { intros e e' He He' Hid. by rewrite (Huniq e e'). }
  exists vis. split; [done|]. intros e He. apply Hval; auto.
Qed.

Lemma fold_res_add {A} (f : gset string → A → result (gset string)) (k : A → string) (b : A → bool) l s0 :
  (∀ s x, x ∈ l → f s x = Ok (if b x then {[k x]} ∪ s else s)) →
  ∃ s, fold_res f l s0 = Ok s ∧ ∀ i, i ∈ s ↔ i ∈ s0 ∨ ∃ x, x ∈ l ∧ b x = true ∧ k x = i.
Proof.
  revert s0. induction l as [|x l IH]; intros s0 Hf; cbn [fold_res]; [exists s0; set_solver|].
  rewrite Hf by apply list_elem_of_here. cbn [mbind result_bind].
  edestruct IH as (s & -> & Hs); [intros; apply Hf; by apply list_elem_of_further|].
  exists s. split; [done|]. intros i. rewrite Hs. split.
  - intros [Hi|(y & Hy & Hb & Hk)]; [|right; exists y; split; [by apply list_elem_of_further|done]].
    destruct (b x) eqn:Hb; [|by left]. apply elem_of_union in Hi as [Hi%elem_of_singleton|Hi]; [|by left].
    right. exists x. split; [apply list_elem_of_here|done].
  - intros [Hi|(y & [->|Hy]%elem_of_cons & Hb & Hk)].
    + left. destruct (b x); [apply elem_of_union; by right|done].
    + left. rewrite Hb. apply elem_of_union. left. by apply elem_of_singleton.
    + right. by exists y.
Qed.

(** The events of other servers in rooms with partial state. *)
Definition is_partial_remote (db : visibility_db) (local : string) (e : room_event) : Prop :=
  get_domain_from_id (ev_sender (re_event e)) ≠ Ok local ∧
  ∃ rid, room_id (re_event e) = Ok rid ∧ rid ∈ db_partial_state_rooms db.

Lemma partial_state_invisible_ok db local (es : list room_event) :
  (∀ e, e ∈ es → ∃ d rid, get_domain_from_id (ev_sender (re_event e)) = Ok d ∧ room_id (re_event e) = Ok rid) →
  ∃ s, partial_state_invisible db local es = Ok s ∧
    ∀ i, i ∈ s ↔ ∃ e, e ∈ es ∧ is_partial_remote db local e ∧ event_id (re_event e) = i.
Proof.
  intros Hok. set (b := λ e, match get_domain_from_id (ev_sender (re_event e)), room_id (re_event e) with
    | Ok d, Ok rid => negb (String.eqb d local) && bool_decide (rid ∈ db_partial_state_rooms db)
    | _, _ => false
    end).
  unfold partial_state_invisible. match goal with |- ∃ s, fold_res ?f es _ = _ ∧ _ =>
    destruct (fold_res_add f (λ e, event_id (re_event e)) b es ∅) as (s & Hs & Hin) end.
  2: { exists s. split; [exact Hs|]. intros i. rewrite Hin.
       assert (∀ e, e ∈ es → b e = true ↔ is_partial_remote db local e) as Hb.
       { intros e (d & rid & Hd & Hr)%Hok. unfold b, is_partial_remote. rewrite Hd, Hr.
         destruct (String.eqb_spec d local) as [->|Hne]; simpl; [by split; [|intros [[] _]]|].
         rewrite bool_decide_eq_true. split.
         - intros Hp. split; [congruence|]. by exists rid.
         - by intros [_ (r & [= <-] & Hp)]. }
       split; [intros [?%elem_of_empty|(e & He & Hbe & <-)]; [done|]|intros (e & He & Hbe & <-); right];
         exists e; split_and!; auto; by apply Hb. }
  intros s0 e (d & rid & Hd & Hr)%Hok. unfold b. rewrite Hd, Hr. simpl.
  destruct (String.eqb d local); simpl; [done|]. by case_decide; case_bool_decide.
Qed.

(** ** The theorem *)

(** The result of the filter on a list. *)
Inductive filtered (P : room_event → Prop) (redact : bool) : list room_event → list event → Prop :=
  | filtered_nil : filtered P redact [] []
  | filtered_keep e es out : P e → filtered P redact es out →
      filtered P redact (e :: es) (re_event e :: out)
  | filtered_redact e es out : ¬ P e → redact = true → filtered P redact es out →
      filtered P redact (e :: es) (redacted_form (re_event e) :: out)
  | filtered_drop e es out : ¬ P e → redact = false → filtered P redact es out →
      filtered P redact (e :: es) out.

Lemma filter_map_res_filtered (f : room_event → result (option event)) (P : room_event → Prop) (redact : bool) (es : list room_event) :
  (∀ e, e ∈ es → ∃ b : bool, f e = Ok (if b then Some (re_event e) else if redact
     then Some (redacted_form (re_event e)) else None) ∧ (b = true ↔ P e)) →
  ∃ out, filter_map_res f es = Ok out ∧ filtered P redact es out.
Proof.
  induction es as [|e es IH]; intros Hf; [exists []; split; [done|constructor]|].
  destruct (Hf e) as (b & Hb & HP); [apply list_elem_of_here|].
  destruct IH as (out & Ho & HR); [intros; apply Hf; by apply list_elem_of_further|].
  cbn [filter_map_res]. rewrite Hb, Ho. cbn [mbind result_bind]. eexists. split; [done|].
  destruct b; [apply filtered_keep; [by apply HP|done]|].
  assert (¬ P e) by (intros ?%HP; done). destruct redact; [by apply filtered_redact|by apply filtered_drop].
Qed.

(** What is asked of [event_visible_to_server] about one event. *)
Lemma event_visible_ok (target v : string) (s : gmap StateKey event) (l' : list (string * string))
    (sender : string) (erased : gset string) (partial : bool) :
  (∀ k, include_state_key target k = true → is_Some (s !! (EventTypes.Member, k)) → startswith "@" k = true) →
  (v = HistoryVisibility.INVITED ∨ v = HistoryVisibility.JOINED →
   ∀ k x, (k, x) ∈ l' ↔ include_state_key target k = true ∧
     ∃ m, s !! (EventTypes.Member, k) = Some m ∧ membership m = Ok (JStr x)) →
  ∃ b, event_visible_to_server sender target v erased partial l' = Ok b ∧
    (b = true ↔ sender ∉ erased ∧ partial = false ∧
       ((v ≠ HistoryVisibility.INVITED ∧ v ≠ HistoryVisibility.JOINED) ∨ server_in_room target v s)).
Proof.
  intros Hat Hl. unfold event_visible_to_server.
  destruct (decide (sender ∈ erased)); [exists false; naive_solver|].
  destruct partial; [exists false; naive_solver|].
  destruct (negb (String.eqb v _) && negb (String.eqb v _)) eqn:Hopen.
  { apply andb_true_iff in Hopen as [H1%negb_true_iff%String.eqb_neq H2%negb_true_iff%String.eqb_neq].
    exists true. naive_solver. }
  assert (v = HistoryVisibility.INVITED ∨ v = HistoryVisibility.JOINED) as Hv.
  { destruct (String.eqb_spec v HistoryVisibility.INVITED), (String.eqb_spec v HistoryVisibility.JOINED);
      naive_solver. }
  specialize (Hl Hv). rewrite visible_by_membership_ok.
  2: { intros k x (Hinc & m & Hm & _)%Hl. unfold user_server_name. rewrite Hat by (done || by eexists).
       unfold include_state_key in Hinc. destruct (split_once _ k) as [[l d]|]; [|done].
       apply String.eqb_eq in Hinc. by subst. }
  eexists. split; [done|]. rewrite existsb_exists.
  transitivity (server_in_room target v s); [|naive_solver]. unfold server_in_room. split.
  - intros ([k x] & (Hinc & m & Hm & Hx)%list_elem_of_In%Hl & Hb).
    unfold include_state_key in Hinc. destruct (split_once _ k) as [[l d]|] eqn:Hk; [|done].
    apply String.eqb_eq in Hinc. subst d. exists k, l, m. split_and!; [done..|].
    apply orb_true_iff in Hb as [[Hi%String.eqb_eq Hv'%String.eqb_eq]%andb_true_iff|Hj%String.eqb_eq];
      subst; auto.
  - intros (k & l & m & Hm & Hk & Hx).
    assert (include_state_key target k = true) as Hinc
      by (unfold include_state_key; rewrite Hk; apply String.eqb_refl).
    destruct Hx as [Hx|[Hx ->]].
    + exists (k, Membership.JOIN). split; [|by vm_compute]. apply list_elem_of_In, Hl. eauto.
    + exists (k, Membership.INVITE). split; [|by vm_compute]. apply list_elem_of_In, Hl. eauto.
Qed.

(** The two checks that are optional. *)
Lemma partial_ok db local (events : list room_event) (filter_partial : bool) :
  (∀ e, e ∈ events → event_ok (re_event e) ∧ is_ok (get_domain_from_id (ev_sender (re_event e))) = true) →
  (∀ e e', e ∈ events → e' ∈ events → event_id (re_event e) = event_id (re_event e') → e = e') →
  ∃ partial : gset string,
    (if filter_partial then partial_state_invisible db local events else Ok ∅) = Ok partial ∧
    ∀ e, e ∈ events → event_id (re_event e) ∈ partial ↔ filter_partial = true ∧ is_partial_remote db local e.
Proof.
  intros Hev Huniq.
  destruct filter_partial; [|exists ∅; split; [done|]; intros; rewrite elem_of_empty; naive_solver].
  destruct (partial_state_invisible_ok db local events) as (s & Hs & Hin).
  { intros e [[[rid Hr] _ _ _] Hd]%Hev. destruct (get_domain_from_id _); [by eexists _, _|done]. }
  exists s. split; [done|]. intros e He. rewrite Hin. split.
  - intros (e' & He' & Hp & Hid). by rewrite <- (Huniq e' e).
  - intros [_ Hp]. by exists e.
Qed.

(** The memberships are fetched for the events with a restricted visibility, and
    are right for them. *)
Lemma restricted_memberships_ok db (events : list room_event) target (vis : gmap string string) :
  server_db_ok db →
  (∀ e e', e ∈ events → e' ∈ events → event_id (re_event e) = event_id (re_event e') → e = e') →
  (∀ e, e ∈ events → re_outlier e = false → is_Some (db_state_ids db !! event_id (re_event e))) →
  (∀ e, e ∈ events → vis !! event_id (re_event e) = Some (visibility_at db e)) →
  ∃ mem, _event_to_memberships db
      (filter (λ e, match vis !! event_id (re_event e) with
                    | Some v => negb (String.eqb v HistoryVisibility.SHARED) &&
                                negb (String.eqb v HistoryVisibility.WORLD_READABLE)
                    | None => true
                    end = true) events) target = Ok mem ∧
    ∀ e, e ∈ events → ∃ l', membership_strings (default [] (mem !! event_id (re_event e))) = Ok l' ∧
      (visibility_at db e = HistoryVisibility.INVITED ∨ visibility_at db e = HistoryVisibility.JOINED →
       ∀ k x, (k, x) ∈ l' ↔ include_state_key target k = true ∧
         ∃ m, state_at db (re_event e) !! (EventTypes.Member, k) = Some m ∧ membership m = Ok (JStr x)).
Proof.
  intros Hdb Huniq Hst Hvis. set (restricted := filter _ events).
  assert (∀ e, e ∈ restricted ↔ e ∈ events ∧ (visibility_at db e ≠ HistoryVisibility.SHARED ∧
    visibility_at db e ≠ HistoryVisibility.WORLD_READABLE)) as Hres.
  { intros e. unfold restricted. rewrite list_elem_of_filter. split; [intros [Hr He]|intros (He & H1 & H2)];
      rewrite Hvis in * by done.
    - apply andb_true_iff in Hr as [?%negb_true_iff%String.eqb_neq ?%negb_true_iff%String.eqb_neq]. done.
    - apply String.eqb_neq in H1, H2. by rewrite H1, H2. }
  destruct (event_to_memberships_ok db restricted target) as (mem & -> & Hnone & Hmem); [done| |].
  { intros e (He & Hv & _)%Hres. apply Hst; [done|]. unfold visibility_at in Hv. by destruct (re_outlier e). }
  exists mem. split; [done|]. intros e He.
  destruct (decide (visibility_at db e ≠ HistoryVisibility.SHARED ∧
                    visibility_at db e ≠ HistoryVisibility.WORLD_READABLE)) as [Hv|Hv].
  - destruct (Hmem e) as (l & l' & -> & Hl & Hin); [by apply Hres|]. by exists l'.
  - rewrite Hnone.
    + exists []. split; [done|]. intros [Hi|Hi]; rewrite Hi in Hv; by destruct Hv.
    + intros e' He' Hid. apply Hres in He' as [He' Hv']. rewrite (Huniq e' e) in Hv' by done. done.
Qed.

(** C12: what another server is sent.  For well-formed events the filter never
    raises.  Each event is in the result, in its place, exactly when the server may
    see it: its sender is not erased and its room not joined in part (where those
    checks are asked for), and the history visibility at the event is neither
    invited nor joined, or a user of the server is joined in the state at the
    event, or invited where the visibility is invited.  Every other event is
    replaced by its redacted form, or left out. *)
Theorem server_filter_correct db target local (events : list room_event) redact filter_erased filter_partial :
  server_db_ok db →
  (∀ e, e ∈ events → event_ok (re_event e) ∧ is_ok (get_domain_from_id (ev_sender (re_event e))) = true) →
  (∀ e e', e ∈ events → e' ∈ events → event_id (re_event e) = event_id (re_event e') → e = e') →
  (∀ e, e ∈ events → re_outlier e = false → is_Some (db_state_ids db !! event_id (re_event e))) →
  ∃ out, filter_events_for_server db target local events redact filter_erased filter_partial = Ok out ∧
    filtered (server_sees db target local filter_erased filter_partial) redact events out.
Proof.
  intros Hdb Hev Huniq Hst. unfold filter_events_for_server.
  destruct (partial_ok db local events filter_partial) as (partial & -> & Hpart); [done..|].
  cbn [mbind result_bind].
  destruct (event_to_history_vis_ok db events) as (vis & -> & Hvis); [done..|]. cbn [mbind result_bind].
  destruct (restricted_memberships_ok db events target vis) as (mem & -> & Hmem); [done..|].
  cbn [mbind result_bind]. apply filter_map_res_filtered. intros e He.
  unfold filter_for_server. rewrite Hvis by done. cbn [of_option mbind result_bind].
  destruct (Hmem e He) as (l' & -> & Hl'). cbn [mbind result_bind].
  destruct (event_visible_ok target (visibility_at db e) (state_at db (re_event e)) l'
    (ev_sender (re_event e)) (if filter_erased then db_erased db else ∅)
    (bool_decide (event_id (re_event e) ∈ partial))) as (b & -> & Hb); [|done|].
  { intros k Hinc [m Hm]. unfold state_at in Hm. rewrite events_of_lookup in Hm.
    destruct (db_state_ids db !! event_id (re_event e)) as [ids|] eqn:Hids; [|by simpl in Hm].
    simpl in Hm. apply bind_Some in Hm as (x & Hx & Hm).
    by destruct (so_member _ Hdb _ _ _ _ _ Hids Hx Hm) as (_ & _ & ? & _). }
  cbn [mbind result_bind]. exists b. split.
  - destruct b; [done|]. destruct redact; [|done]. by rewrite prune_event_ok by (by apply Hev).
  - rewrite Hb, bool_decide_eq_false, Hpart by done. unfold server_sees, is_partial_remote.
    destruct filter_erased; [|rewrite elem_of_empty]; naive_solver.
Qed.
