(* ===== verification/VisibilityExamples.v ===== *)
(** A concrete room for the visibility filters: the theorems at work, and two runs
    that show their hypotheses are needed. *)
From S2P Require Import Prelude RoomVersions Identifiers Events Redaction StateFilter EventAuthExamples Visibility VisibilityProps VisibilityClients VisibilityServer.
From Stdlib Require Import Ascii.

(** ** Checking hypotheses on concrete states *)
Lemma state_ok_check (s : gmap StateKey event) :
  bool_decide (map_Forall (λ key m, key.1 = EventTypes.Member → is_ok (membership m) = true) s) = true →
  state_ok s.
Proof.
  intros H%bool_decide_eq_true k m Hm. specialize (H _ _ Hm eq_refl).
  destruct (membership m) as [j|]; [by exists j|done].
Qed.

Definition member_entry_ok (db : visibility_db) (k x : string) : bool :=
  match db_events db !! x with
  | Some m => bool_decide (ev_state_key m = Some k) &&
              match membership m with Ok (JStr _) => true | _ => false end &&
              startswith "@" k && bool_decide (is_Some (split_once ":"%char k))
  | None => true
  end.

Definition visibility_entry_ok (db : visibility_db) (x : string) : bool :=
  str_nonempty x &&
  match db_events db !! x with
  | Some v => match dict_get_or (ev_content v) "history_visibility" (JStr HistoryVisibility.SHARED) with
              | JStr _ => true | _ => false end
  | None => false
  end.

Lemma server_db_ok_check (db : visibility_db) :
  bool_decide (map_Forall (λ (_ : string) (ids : gmap StateKey string), map_Forall (λ key x,
    (key.1 = EventTypes.Member → member_entry_ok db key.2 x = true) ∧
    (key = _HISTORY_VIS_KEY → visibility_entry_ok db x = true)) ids) (db_state_ids db)) = true →
  server_db_ok db.
Proof.
  intros H%bool_decide_eq_true. split.
  - intros i ids k x m Hi Hk Hm. destruct (H _ _ Hi _ _ Hk) as [Hmem _]. specialize (Hmem eq_refl).
    unfold member_entry_ok in Hmem. rewrite Hm, !andb_true_iff, !bool_decide_eq_true in Hmem.
    destruct Hmem as [[[? Hs] ?] ?]. split_and!; try done.
    destruct (membership m) as [[]|]; try done. by eexists.
  - intros i ids x Hi Hk. destruct (H _ _ Hi _ _ Hk) as [_ Hv]. specialize (Hv eq_refl).
    unfold visibility_entry_ok in Hv. apply andb_true_iff in Hv as [Hne Hv].
    split; [by intros ->|]. destruct (db_events db !! x) as [v|]; [|done].
    exists v. destruct (dict_get_or _ _ _) eqn:Hd; try done. by eexists.
Qed.

Lemma event_ok_check e :
  is_ok (room_id e) && (negb (String.eqb (ev_type e) EventTypes.Member) ||
    (bool_decide (is_Some (ev_state_key e)) && is_ok (membership e))) &&
  is_ok (uns ← unsigned e; mapping_of (dict_get_or uns "prev_content" (JDict []))) &&
  is_ok (sticky_duration e) = true →
  event_ok e.
Proof.
  rewrite !andb_true_iff, orb_true_iff. intros [[[Hr Hm] Hu] Hs]. split.
  - destruct (room_id e); [by eexists|done].
  - intros Ht. destruct Hm as [Hn|[Hk%bool_decide_eq_true Hm]%andb_true_iff]; [by rewrite Ht in Hn|].
    split; [done|]. destruct (membership e); [by eexists|done].
  - destruct (unsigned e) as [uns|]; [|done]. simpl in Hu.
    destruct (mapping_of _) as [pc|] eqn:Hpc; [|done]. by exists uns, pc.
  - destruct (sticky_duration e); [by eexists|done].
Qed.

(** ** The room *)
Definition ex_visibility (v : string) : event :=
  ex_event RoomVersions.V10 RoomHistoryVisibility ex_alice (Some "")
    [("history_visibility", JStr v)] "vis" ["$create"].

(** Only members see the history; Alice is joined, Eve was banned. *)
Definition ex_vis_events : list event :=
  ex_visibility "joined" :: ex_auth_list ++ [ex_message ex_alice].

Definition ex_vis_ids : gmap StateKey string :=
  list_to_map ((λ e, ((ev_type e, default "" (ev_state_key e)), event_id e)) <$>
    ex_visibility "joined" :: ex_auth_list).

Definition ex_vis_db : visibility_db :=
  mkVisDb {["$msg" := ex_vis_ids]} (list_to_map ((λ e, (event_id e, e)) <$> ex_vis_events)) ∅ ∅
    (λ _, mkRetention None None) ∅ (λ _, mkAdminConfig false false) ∅ false.

Definition ex_room_message : room_event := mkRoomEvent (ex_message ex_alice) false false false.

Lemma ex_db_ok : db_ok ex_vis_db.
Proof.
  intros i ids Hi. cbn [ex_vis_db db_state_ids] in Hi. apply lookup_singleton_Some in Hi as [<- <-]. apply state_ok_check. by vm_compute.
Qed.

Lemma ex_message_ok : event_ok (re_event ex_room_message).
Proof. apply event_ok_check. by vm_compute. Qed.

Lemma ex_state_known :
  is_Some (db_state_ids ex_vis_db !! event_id (re_event ex_room_message)).
Proof. apply (bool_decide_unpack _). by vm_compute. Qed.

Definition ids_of (l : list room_event) : list string := (λ e, event_id (re_event e)) <$> l.

(** ** The theorems at work *)

(** Eve does not get the message of a room whose history is for members. *)
Lemma client_filter_correct_witness :
  ∃ out, filter_and_transform_events_for_client ex_vis_db 0 ex_eve [ex_room_message] false ∅ true =
           Ok out ∧
    ∀ o, o ∈ out → event_id (re_event o) ≠ "$msg".
Proof.
  destruct (client_filter_correct ex_vis_db 0 ex_eve [ex_room_message] false ∅) as (out & Hf & _ & Hn).
  - apply ex_db_ok.
  - intros e He%list_elem_of_singleton. subst e. apply ex_message_ok.
  - intros e e' He%list_elem_of_singleton He'%list_elem_of_singleton _. by subst.
  - intros e He%list_elem_of_singleton _. subst e. apply ex_state_known.
  - intros e He%list_elem_of_singleton Ho. by subst e.
  - intros e He%list_elem_of_singleton _. by subst e.
  - exists out. split; [done|]. intros o Ho. apply (Hn ex_room_message o); [|done|reflexivity|..].
    + by apply list_elem_of_singleton.
    + apply not_elem_of_empty.
    + discriminate.
    + by vm_compute.
    + apply (bool_decide_unpack _). by vm_compute.
Defined.

(** Of Alice and Eve, the message is pushed to those who can read it. *)
Lemma client_filters_agree_witness :
  ∃ us, filter_event_for_clients_with_state ex_vis_db 0 [ex_alice; ex_eve] ex_room_message ex_vis_ids
          false true = Ok us ∧
    ∃ out, filter_and_transform_events_for_client ex_vis_db 0 ex_eve [ex_room_message] false ∅ true =
             Ok out ∧ (ex_eve ∈ us ↔ out ≠ []).
Proof.
  destruct (client_filters_agree ex_vis_db 0 [ex_alice; ex_eve] ex_room_message ex_vis_ids false)
    as (us & Hus & Hin); [apply ex_db_ok|apply ex_message_ok|..].
  - intros H. discriminate H.
  - intros H. vm_compute in H. discriminate H.
  - intros H. vm_compute in H. discriminate H.
  - by_vm.
  - by_vm.
  - exists us. split; [done|]. apply (Hin ex_eve). apply list_elem_of_further, list_elem_of_here.
Defined.

(** A server without members gets the redacted form of the message. *)
Lemma server_filter_correct_witness :
  ∃ out, filter_events_for_server ex_vis_db "b.org" "a.org" [ex_room_message] true true true = Ok out ∧
    filtered (server_sees ex_vis_db "b.org" "a.org" true true) true [ex_room_message] out.
Proof.
  apply (server_filter_correct ex_vis_db "b.org" "a.org" [ex_room_message] true true true).
  - apply server_db_ok_check. by vm_compute.
  - intros e He%list_elem_of_singleton. subst e. split; [apply ex_message_ok|done].
  - intros e e' He%list_elem_of_singleton He'%list_elem_of_singleton _. by subst.
  - intros e He%list_elem_of_singleton _. subst e. apply ex_state_known.
Defined.

(** ** Limits *)

(** Alice reads the message; without the checks for sending to clients the filter
    raises on it, because the retention policies have not been fetched. *)
Lemma unchecked_request_raises :
  ids_of <$> filter_and_transform_events_for_client ex_vis_db 0 ex_alice [ex_room_message] false ∅ true =
    Ok ["$msg"] ∧
  filter_and_transform_events_for_client ex_vis_db 0 ex_alice [ex_room_message] false ∅ false =
    Raise NameError.
Proof. split; by vm_compute. Qed.

(** A soft-failed call invite in a public room. *)
Definition ex_call_invite : event :=
  ex_event RoomVersions.V10 CallInvite ex_alice None [] "call" ["$create"].
Definition ex_public : event :=
  ex_event RoomVersions.V10 EventTypes.JoinRules ex_alice (Some "") [("join_rule", JStr "public")]
    "rules" ["$create"].
Definition ex_call_db : visibility_db :=
  mkVisDb {["$call" := <[(EventTypes.JoinRules, ""):="$rules"]> ex_vis_ids]}
    (<["$rules":=ex_public]> (db_events ex_vis_db)) ∅ ∅
    (λ _, mkRetention None None) {[ex_alice]} (λ _, mkAdminConfig true false) ∅ false.

(** Call invites in public rooms are not shown, but to an administrator who asks
    for soft-failed events a soft-failed one is, unless there is another call
    invite among the events: the join rules are fetched only for invites that
    have not failed. *)
Lemma soft_failed_call_invite_shown :
  let failed := mkRoomEvent ex_call_invite true false false in
  let fine := mkRoomEvent ex_call_invite false false false in
  ids_of <$> filter_and_transform_events_for_client ex_call_db 0 ex_alice [failed] false ∅ true =
    Ok ["$call"] ∧
  filter_and_transform_events_for_client ex_call_db 0 ex_alice [failed; fine] false ∅ true = Ok [].
Proof. split; by vm_compute. Qed.
