(* ===== verification/StateResV1.v ===== *)
(** State resolution v1, of rooms of version 1: [textrp_briij/state/v1.py].

    SHA-1 and the function that fetches events are parameters.  A dict of
    conflicted events is the list of its items, in any order; the other dicts are
    maps. *)
From S2P Require Import Prelude RoomVersions Identifiers Events EventAuth.

Definition V1_POWER_KEY : StateKey := (EventTypes.PowerLevels, "").

(** ** [_seperate] *)

(** One round of the inner loop. *)
Definition sep_step (acc : StateMap string * StateMap (gset string)) (kv : StateKey * string) :
    StateMap string * StateMap (gset string) :=
  let '(unconflicted_state, conflicted_state) := acc in
  let '(key, value) := kv in
  match unconflicted_state !! key with
  | None =>
      match conflicted_state !! key with
      | None => (<[key:=value]> unconflicted_state, conflicted_state)
      | Some ls => (unconflicted_state, <[key:=ls ∪ {[value]}]> conflicted_state)
      end
  | Some unconflicted_value =>
      if String.eqb unconflicted_value value then acc
      else (delete key unconflicted_state, <[key:={[value; unconflicted_value]}]> conflicted_state)
  end.

(** [next] on an empty list ends a coroutine with a [RuntimeError]. *)
Definition v1_seperate (state_sets : list (StateMap string)) :
    result (StateMap string * StateMap (gset string)) :=
  match state_sets with
  | [] => Raise (RuntimeError "coroutine raised StopIteration")
  | first :: rest =>
      Ok (foldl (λ acc state_set, foldl sep_step acc (map_to_list state_set)) (first, ∅) rest)
  end.

Section V1.
Context (valid_ipv6 : string → bool).
Context (verify_signed_json : pydict → string → string → json → result unit).
(** [hashlib.sha1(s).hexdigest()] *)
Context (sha1_hex : string → string).
(** [state_map_factory] *)
Context (state_map_factory : gset string → gmap string event).

Notation check_auth := (check_state_dependent_auth_rules valid_ipv6 verify_signed_json).

(** ** [_ordered_events] *)
Definition order_key_v1 (e : event) : result (Z * string) :=
  depth ← of_option (dict_get (ev_other e) "depth") AttributeError;
  depth ← py_int depth;
  Ok ((- depth)%Z, sha1_hex (event_id e)).

(** The order on the keys. *)
Definition key_le_v1 (a b : Z * string) : bool :=
  if (a.1 <? b.1)%Z then true else if (b.1 <? a.1)%Z then false else String.leb a.2 b.2.

Definition keyed_le (a b : (Z * string) * event) : Prop := key_le_v1 a.1 b.1 = true.
#[export] Instance keyed_le_dec : RelDecision keyed_le.
Proof. intros a b. unfold keyed_le. apply _. Defined.

Definition with_keys (events : list event) : result (list ((Z * string) * event)) :=
  fold_res (λ l e, k ← order_key_v1 e; Ok (l ++ [(k, e)])) events [].

Definition _ordered_events (events : list event) : result (list event) :=
  l ← with_keys events;
  Ok (merge_sort keyed_le l).*2.

(** ** [_resolve_auth_events] *)

(** The keys of the auth events of a list of events. *)
Definition auth_keys_of (room_version : RoomVersion) (events : list event) : result (gset StateKey) :=
  fold_res (λ s e, ks ← auth_types_for_event room_version e; Ok (s ∪ ks)) events ∅.

Fixpoint resolve_auth_loop (auth_events : StateMap event) (prev_event : event) (events : list event) :
    result event :=
  match events with
  | [] => Ok prev_event
  | e :: events' =>
      k ← state_key prev_event;
      let auth_events := <[(ev_type prev_event, k):=prev_event]> auth_events in
      match check_auth e (map_to_list auth_events).*2 with
      | Ok _ => resolve_auth_loop auth_events e events'
      | Raise ex => if is_auth_error ex then Ok prev_event else Raise ex
      end
  end.

Definition _resolve_auth_events (room_version : RoomVersion) (events : list event)
    (auth_events : StateMap event) : result event :=
  ordered ← _ordered_events events;
  auth_keys ← auth_keys_of room_version events;
  let new_auth_events := filter (λ '(key, _), key ∈ auth_keys) auth_events in
  match reverse ordered with
  | [] => Raise IndexError
  | [_] => Raise NameError
  | prev_event :: rest => resolve_auth_loop new_auth_events prev_event rest
  end.

(** ** [_resolve_normal_events] *)
Fixpoint resolve_normal_loop (auth_events : StateMap event) (events : list event) : result event :=
  match events with
  | [] => Raise NameError
  | e :: events' =>
      match check_auth e (map_to_list auth_events).*2 with
      | Ok _ => Ok e
      | Raise ex =>
          if is_auth_error ex then
            match events' with [] => Ok e | _ => resolve_normal_loop auth_events events' end
          else Raise ex
      end
  end.

Definition _resolve_normal_events (events : list event) (auth_events : StateMap event) : result event :=
  ordered ← _ordered_events events;
  resolve_normal_loop auth_events ordered.

(** ** [_resolve_state_events] *)

(** One of the loops over the conflicted state: the keys [want] selects are
    resolved with [resolve]. *)
Definition resolve_keys (want : StateKey → bool) (resolve : list event → result event)
    (conflicted_state : list (StateKey * list event)) (resolved_state : StateMap event) :
    result (StateMap event) :=
  fold_res (λ r '(key, events),
    if want key then e ← resolve events; Ok (<[key:=e]> r) else Ok r) conflicted_state resolved_state.

(** [dict.get] on the list of items. *)
Fixpoint items_get {V} (d : list (StateKey * V)) (k : StateKey) : option V :=
  match d with
  | [] => None
  | (k', v) :: d' => if decide (k = k') then Some v else items_get d' k
  end.

Definition _resolve_state_events (room_version : RoomVersion)
    (conflicted_state : list (StateKey * list event)) (auth_events : StateMap event) :
    result (StateMap event) :=
  resolved_state ←
    match items_get conflicted_state V1_POWER_KEY with
    | Some events =>
        e ← _resolve_auth_events room_version events auth_events;
        Ok (<[V1_POWER_KEY:=e]> ∅)
    | None => Ok (∅ : StateMap event)
    end;
  let auth_events := resolved_state ∪ auth_events in
  resolved_state ← resolve_keys (λ key, String.eqb key.1 EventTypes.JoinRules)
    (λ events, _resolve_auth_events room_version events auth_events) conflicted_state resolved_state;
  let auth_events := resolved_state ∪ auth_events in
  resolved_state ← resolve_keys (λ key, String.eqb key.1 EventTypes.Member)
    (λ events, _resolve_auth_events room_version events auth_events) conflicted_state resolved_state;
  let auth_events := resolved_state ∪ auth_events in
  fold_res (λ r '(key, events),
    match (r : StateMap event) !! key with
    | Some _ => Ok r
    | None => e ← _resolve_normal_events events auth_events; Ok (<[key:=e]> r)
    end) conflicted_state resolved_state.

(** ** [_resolve_with_state] *)

(** The events of a conflicted key that are known. *)
Definition known_events (state_map : gmap string event) (event_ids : gset string) : list event :=
  omap (λ i, state_map !! i) (elements event_ids).

Definition _resolve_with_state (room_version : RoomVersion)
    (unconflicted_state_ids : StateMap string) (conflicted_state_ids : StateMap (gset string))
    (auth_event_ids : StateMap string) (state_map : gmap string event) : result (StateMap string) :=
  let events_at := (λ '(key, event_ids), (key, known_events state_map event_ids)) <$>
                   map_to_list conflicted_state_ids in
  let conflicted_state := filter (λ p, 1 < length p.2) events_at in
  let new_state := foldl (λ u p, match p.2 with [e] => <[p.1:=event_id e]> u | _ => u end)
                     unconflicted_state_ids events_at in
  let auth_events := omap (λ i, state_map !! i) auth_event_ids in
  resolved_state ← _resolve_state_events room_version conflicted_state auth_events;
  Ok ((event_id <$> resolved_state) ∪ new_state).

(** ** [_create_auth_events_from_maps] *)
Definition add_auth_keys (unconflicted_state : StateMap string) (auth_events : StateMap string)
    (keys : gset StateKey) : StateMap string :=
  auth_events ∪ filter (λ '(key, v), key ∈ keys ∧ v ≠ EmptyString) unconflicted_state.

Definition _create_auth_events_from_maps (room_version : RoomVersion)
    (unconflicted_state : StateMap string) (conflicted_state : StateMap (gset string))
    (state_map : gmap string event) : result (StateMap string) :=
  fold_res (λ auth_events event_ids,
    fold_res (λ auth_events event_id,
      match state_map !! event_id with
      | Some e =>
          keys ← auth_types_for_event room_version e;
          Ok (add_auth_keys unconflicted_state auth_events keys)
      | None => Ok auth_events
      end) (elements event_ids) auth_events) (map_to_list conflicted_state).*2 ∅.

(** ** [resolve_events_with_store] *)
Definition check_rooms_v1 (rid : string) (state_map : gmap string event) : result unit :=
  for_each (λ e, r ← room_id e;
    raise_if (negb (String.eqb r rid))
      (PyException "Attempting to state-resolve for room %s with event %s which is in %s"))
    (map_to_list state_map).*2.

Definition v1_resolve_events_with_store (rid : string) (room_version : RoomVersion)
    (state_sets : list (StateMap string)) (event_map : option (gmap string event)) :
    result (StateMap string) :=
  match state_sets with
  | [state_set] => Ok state_set
  | _ =>
      '(unconflicted_state, conflicted_state) ← v1_seperate state_sets;
      let in_flight := default ∅ event_map in
      let needed_events : gset string := ⋃ (map_to_list conflicted_state).*2 ∖ dom in_flight in
      let state_map := in_flight ∪ state_map_factory needed_events in
      _ ← check_rooms_v1 rid state_map;
      auth_events ← _create_auth_events_from_maps room_version unconflicted_state conflicted_state state_map;
      let new_needed_events : gset string :=
        list_to_set (map_to_list auth_events).*2 ∖ needed_events ∖ dom in_flight in
      let state_map_new := state_map_factory new_needed_events in
      _ ← check_rooms_v1 rid state_map_new;
      _resolve_with_state room_version unconflicted_state conflicted_state auth_events
        (state_map_new ∪ state_map)
  end.
End V1.
