(* ===== verification/StateResV1Props.v ===== *)
(** State resolution v1: what it separates, what it chooses, that the result is made
    of the given events, and that no order of dictionaries or state sets matters. *)
From S2P Require Import Prelude RoomVersions Identifiers Events EventAuth StateResV1.

(** ** [_seperate] *)

(** The values of a key in the state sets. *)
Definition values_at (state_sets : list (StateMap string)) (k : StateKey) : gset string :=
  list_to_set (omap (λ s : StateMap string, s !! k) state_sets).

(** A key with one value is agreed on, one with several is in conflict. *)
Definition classify (vals : gset string) : option string * option (gset string) :=
  match elements vals with
  | [] => (None, None)
  | [v] => (Some v, None)
  | _ => (None, Some vals)
  end.

Lemma classify_empty : classify ∅ = (None, None).
Proof. done. Qed.

Lemma classify_singleton v : classify {[v]} = (Some v, None).
Proof. unfold classify. by rewrite elements_singleton. Qed.

Lemma classify_many vals : 2 ≤ size vals → classify vals = (None, Some vals).
Proof.
  unfold size, set_size, classify. simpl. destruct (elements vals) as [|? [|? ?]]; simpl; [lia..|done].
Qed.

Lemma values_cases (vals : gset string) : vals = ∅ ∨ (∃ v, vals = {[v]}) ∨ 2 ≤ size vals.
Proof.
  destruct (decide (2 ≤ size vals)) as [|Hn]; [by auto|]. destruct (decide (size vals = 0)) as [H0|H0].
  - left. by apply size_empty_inv, leibniz_equiv in H0.
  - right. left. destruct (size_1_elem_of vals ltac:(lia)) as [v Hv]. exists v. by apply leibniz_equiv.
Qed.

(** What a round does at its key. *)
Definition sep_at (u : option string) (c : option (gset string)) (v : string) :
    option string * option (gset string) :=
  match u with
  | None => match c with None => (Some v, None) | Some ls => (None, Some (ls ∪ {[v]})) end
  | Some w => if String.eqb w v then (u, c) else (None, Some {[v; w]})
  end.

Lemma classify_add vals v :
  sep_at (classify vals).1 (classify vals).2 v = classify (vals ∪ {[v]}).
Proof.
  destruct (values_cases vals) as [->|[[w ->]|Hs]].
  - rewrite union_empty_l_L. by rewrite classify_empty, classify_singleton.
  - rewrite (classify_singleton w). simpl. destruct (String.eqb_spec w v) as [->|Hne].
    + by rewrite union_idemp_L, classify_singleton.
    + rewrite classify_many.
      * do 2 f_equal. set_solver.
      * rewrite size_union by set_solver. by rewrite !size_singleton.
  - rewrite (classify_many vals) by done. simpl. rewrite classify_many; [done|].
    etrans; [exact Hs|]. apply subseteq_size. set_solver.
Qed.

Lemma sep_step_lookup acc key v k :
  ((sep_step acc (key, v)).1 !! k, (sep_step acc (key, v)).2 !! k) =
  if decide (k = key) then sep_at (acc.1 !! k) (acc.2 !! k) v else (acc.1 !! k, acc.2 !! k).
Proof.
  destruct acc as [u c]. unfold sep_step, sep_at. simpl. destruct (decide (k = key)) as [->|Hne].
  - destruct (u !! key) as [w|] eqn:Hu.
    + destruct (String.eqb w v); simpl; [by rewrite Hu|]. by rewrite lookup_delete_eq, lookup_insert_eq.
    + destruct (c !! key) as [ls|] eqn:Hc; simpl; rewrite lookup_insert_eq; by rewrite ?Hu, ?Hc.
  - destruct (u !! key) as [w|]; [destruct (String.eqb w v)|destruct (c !! key)]; simpl;
      by rewrite ?lookup_insert_ne, ?lookup_delete_ne by done.
Qed.

Lemma sep_fold_lookup (acc : StateMap string * StateMap (gset string)) (s : StateMap string) (k : StateKey) :
  let r := foldl sep_step acc (map_to_list s) in
  (r.1 !! k, r.2 !! k) =
  match s !! k with Some v => sep_at (acc.1 !! k) (acc.2 !! k) v | None => (acc.1 !! k, acc.2 !! k) end.
Proof.
  assert (∀ (l : list (StateKey * string)) (acc : StateMap string * StateMap (gset string)), NoDup l.*1 → let r := foldl sep_step acc l in
    (r.1 !! k, r.2 !! k) = match (list_to_map l : StateMap string) !! k with
      | Some v => sep_at (acc.1 !! k) (acc.2 !! k) v | None => (acc.1 !! k, acc.2 !! k) end) as H.
  { induction l as [|[key v] l IH]; intros acc0 Hnd; [done|]. simpl in Hnd.
    apply NoDup_cons in Hnd as [Hn Hnd]. cbn [foldl]. cbv zeta in *. rewrite IH by done.
    simpl. pose proof (sep_step_lookup acc0 key v k) as Hs.
    destruct (decide (k = key)) as [->|Hne].
    - rewrite lookup_insert_eq, not_elem_of_list_to_map_1 by done. exact Hs.
    - rewrite lookup_insert_ne by done. injection Hs as H1 H2. by rewrite H1, H2. }
  cbv zeta in *. rewrite H by apply NoDup_fst_map_to_list. by rewrite list_to_map_to_list.
Qed.

Lemma v1_seperate_spec state_sets u c :
  v1_seperate state_sets = Ok (u, c) →
  ∀ k, (u !! k, c !! k) = classify (values_at state_sets k).
Proof.
  destruct state_sets as [|first rest]; [done|]. intros [= Heq] k.
  assert (∀ l (acc : StateMap string * StateMap (gset string)) (vals : gset string),
    (acc.1 !! k, acc.2 !! k) = classify vals →
    let r := foldl (λ acc state_set, foldl sep_step acc (map_to_list state_set)) acc l in
    (r.1 !! k, r.2 !! k) = classify (vals ∪ values_at l k)) as H.
  { induction l as [|s l IH]; intros acc vals Hacc.
    { simpl. rewrite Hacc. f_equal. unfold values_at. simpl. set_solver. }
    cbn [foldl]. cbv zeta in *.
    pose proof (sep_fold_lookup acc s k) as Hs. cbv zeta in Hs.
    assert (acc.1 !! k = (classify vals).1) as Hu by (by rewrite <- Hacc).
    assert (acc.2 !! k = (classify vals).2) as Hc by (by rewrite <- Hacc).
    unfold values_at. cbn [omap list_omap]. destruct (s !! k) as [v|].
    - rewrite (IH _ (vals ∪ {[v]})).
      + f_equal. unfold values_at. simpl. set_solver.
      + rewrite Hs, Hu, Hc. apply classify_add.
    - rewrite (IH _ vals); [done|]. by rewrite Hs, Hu, Hc; destruct (classify vals). }
  specialize (H rest (first, ∅) (values_at [first] k)). cbv zeta in H. rewrite Heq in H. simpl in H.
  rewrite H; [f_equal; unfold values_at; simpl; destruct (first !! k); simpl; set_solver|].
  unfold values_at. simpl. rewrite lookup_empty. destruct (first !! k) as [v|]; simpl; [|done].
  by rewrite union_empty_r_L, classify_singleton.
Qed.

Section V1Props.
Context (valid_ipv6 : string → bool).
Context (verify_signed_json : pydict → string → string → json → result unit).
Context (sha1_hex : string → string).

Notation check_auth := (check_state_dependent_auth_rules valid_ipv6 verify_signed_json).
Notation order_key := (order_key_v1 sha1_hex).
Notation ordered := (_ordered_events sha1_hex).
Notation resolve_auth := (_resolve_auth_events valid_ipv6 verify_signed_json sha1_hex).
Notation resolve_normal := (_resolve_normal_events valid_ipv6 verify_signed_json sha1_hex).
Notation resolve_state := (_resolve_state_events valid_ipv6 verify_signed_json sha1_hex).

(** ** The order on events *)

(** [e] comes before [e'], or has the same key. *)
Definition before (e e' : event) : Prop :=
  ∃ a b, order_key e = Ok a ∧ order_key e' = Ok b ∧ key_le_v1 a b = true.

Lemma key_le_v1_spec (a b : Z * string) :
  key_le_v1 a b = true ↔ (a.1 < b.1)%Z ∨ (a.1 = b.1 ∧ String.leb a.2 b.2 = true).
Proof.
  unfold key_le_v1. destruct (Z.ltb_spec a.1 b.1) as [H1|H1]; [split; [intros _; by left|done]|].
  destruct (Z.ltb_spec b.1 a.1) as [H2|H2]; [split; [done|]; intros [?|[? _]]; lia|].
  split; [intros ?; right; split; [lia|done]|]. intros [?|[_ ?]]; [lia|done].
Qed.

Lemma key_le_v1_trans a b c : key_le_v1 a b = true → key_le_v1 b c = true → key_le_v1 a c = true.
Proof.
  rewrite !key_le_v1_spec. intros [?|[Hab ?]] [?|[Hbc ?]]; [left; lia..|].
  right. split; [lia|]. by eapply string_leb_trans.
Qed.

Lemma key_le_v1_total a b : key_le_v1 a b = true ∨ key_le_v1 b a = true.
Proof.
  rewrite !key_le_v1_spec. destruct (Z.lt_total a.1 b.1) as [?|[?|?]]; [by left; left| |by right; left].
  destruct (String.leb_total a.2 b.2); [left|right]; right; auto.
Qed.

Lemma key_le_v1_antisym a b : key_le_v1 a b = true → key_le_v1 b a = true → a = b.
Proof.
  rewrite !key_le_v1_spec. intros [?|[H1 ?]] [?|[H2 ?]]; try lia.
  destruct a as [a1 a2], b as [b1 b2]. simpl in *. f_equal; [done|]. by apply String.leb_antisym.
Qed.

#[export] Instance keyed_le_trans : Transitive keyed_le.
Proof. intros [a ?] [b ?] [c ?]. apply key_le_v1_trans. Qed.
#[export] Instance keyed_le_total : Total keyed_le.
Proof. intros [a ?] [b ?]. apply key_le_v1_total. Qed.

Lemma with_keys_spec events l :
  with_keys sha1_hex events = Ok l ↔ Forall2 (λ e p, p.2 = e ∧ order_key e = Ok p.1) events l.
Proof.
  unfold with_keys. revert l. induction events as [|e events IH] using rev_ind; intros l.
  { simpl. split; [intros [= <-]; constructor|]. by intros ->%Forall2_nil_inv_l. }
  rewrite fold_res_snoc, bind_ok. split.
  - intros (l0 & Hl0%IH & (k & Hk & [= <-])%bind_ok). apply Forall2_app; [done|]. by repeat constructor.
  - intros (l0 & l1 & Hl0%IH & Hl1 & ->)%Forall2_app_inv_l.
    apply Forall2_cons_inv_l in Hl1 as ([k e'] & l2 & [He Hk] & ->%Forall2_nil_inv_l & ->).
    simpl in *. subst e'. exists l0. split; [done|]. apply bind_ok. by exists k.
Qed.

Lemma ordered_perm events l : ordered events = Ok l → l ≡ₚ events.
Proof.
  unfold _ordered_events. intros (kl & Hkl%with_keys_spec & [= <-])%bind_ok.
  rewrite merge_sort_Permutation.
  assert (kl.*2 = events) as ->; [|done].
  induction Hkl as [|e p events kl [He _] _ IH]; [done|]. rewrite fmap_cons. by f_equal.
Qed.

Lemma ordered_sorted events l : ordered events = Ok l → StronglySorted before l.
Proof.
  unfold _ordered_events. intros (kl & Hkl%with_keys_spec & [= <-])%bind_ok.
  assert (∀ p, p ∈ merge_sort keyed_le kl → order_key p.2 = Ok p.1) as Hkey.
  { intros p. rewrite merge_sort_Permutation. intros (i & Hp)%list_elem_of_lookup.
    destruct (Forall2_lookup_r _ _ _ _ _ Hkl Hp) as (e & _ & He & Hk). by rewrite He. }
  pose proof (StronglySorted_merge_sort keyed_le kl) as Hs. revert Hs Hkey.
  generalize (merge_sort keyed_le kl) as ml. induction ml as [|p ml IH]; intros Hs Hkey; simpl; [constructor|].
  apply StronglySorted_inv in Hs as [Hs Hp]. constructor; [apply IH; set_solver|].
  apply Forall_fmap. eapply Forall_impl; [apply Forall_forall; exact (λ q Hq, Hq)|].
  intros q Hq. rewrite Forall_forall in Hp. exists p.1, q.1. split_and!; [apply Hkey; set_solver..|].
  by apply Hp.
Qed.

(** ** Which event is chosen *)

(** The rules accept or refuse an event, given the auth events. *)
Definition accepts (auth : StateMap event) (e : event) : Prop :=
  ∃ x, check_auth e (map_to_list auth).*2 = Ok x.
Definition refuses (auth : StateMap event) (e : event) : Prop :=
  ∃ ex, check_auth e (map_to_list auth).*2 = Raise ex ∧ is_auth_error ex = true.

(** [R] holds between neighbours. *)
Definition chained {A} (R : A → A → Prop) (l : list A) : Prop :=
  ∀ i p e, l !! i = Some p → l !! S i = Some e → R p e.

Lemma resolve_auth_loop_spec (key : StateKey) events : ∀ auth prev r,
  (∀ e, e ∈ prev :: events → ev_type e = key.1 ∧ ev_state_key e = Some key.2) →
  resolve_auth_loop valid_ipv6 verify_signed_json auth prev events = Ok r →
  ∃ l1 l2, prev :: events = l1 ++ r :: l2 ∧
    chained (λ p e, accepts (<[key:=p]> auth) e) (l1 ++ [r]) ∧
    (∀ e, head l2 = Some e → refuses (<[key:=r]> auth) e).
Proof.
  induction events as [|e events IH]; intros auth prev r Hk; cbn [resolve_auth_loop].
  { intros [= <-]. exists [], []. split_and!; [done| |done]. by intros [] ??. }
  destruct (Hk prev ltac:(set_solver)) as [Ht Hs]. unfold state_key. rewrite Hs.
  cbn [of_option mbind result_bind]. rewrite Ht. destruct key as [t k]. simpl.
  destruct (check_auth e _) as [x|ex] eqn:Hc.
  - intros Hr. apply IH in Hr as (l1 & l2 & Heq & Hch & Href); [|set_solver].
    assert (∀ p, <[(t, k):=p]> (<[(t, k):=prev]> auth) = <[(t, k):=p]> auth) as Hins
      by (intros; apply insert_insert_eq).
    exists (prev :: l1), l2. split_and!; [by rewrite Heq| |by setoid_rewrite Hins in Href].
    intros [|i] p e'; simpl; [|intros H1 H2; rewrite <- Hins; by eapply Hch].
    intros [= <-]. destruct l1; simpl in *; intros [= <-]; injection Heq as <-; by exists x.
  - destruct (is_auth_error ex) eqn:Hex; [|done]. intros [= <-]. exists [], (e :: events).
    split_and!; [done|by intros [] ??|]. intros e' [= <-]. by exists ex.
Qed.

Lemma resolve_normal_loop_spec auth events r :
  resolve_normal_loop valid_ipv6 verify_signed_json auth events = Ok r →
  ∃ l1 l2, events = l1 ++ r :: l2 ∧ Forall (refuses auth) l1 ∧
    (accepts auth r ∨ l2 = [] ∧ refuses auth r).
Proof.
  induction events as [|e events IH]; cbn [resolve_normal_loop]; [done|].
  destruct (check_auth e _) as [x|ex] eqn:Hc.
  - intros [= <-]. exists [], events. split_and!; [done..|]. left. by exists x.
  - destruct (is_auth_error ex) eqn:Hex; [|done]. destruct events as [|e' events].
    + intros [= <-]. exists [], []. split_and!; [done..|]. right. split; [done|]. by exists ex.
    + intros (l1 & l2 & -> & Hl1 & Hr)%IH. exists (e :: l1), l2. split_and!; [done| |done].
      constructor; [by exists ex|done].
Qed.

Lemma resolve_auth_in rv events auth r : resolve_auth rv events auth = Ok r → r ∈ events.
Proof.
  unfold _resolve_auth_events. intros (l & Hl%ordered_perm & (ks & _ & Hr)%bind_ok)%bind_ok.
  rewrite <- Hl. rewrite <- elem_of_reverse. destruct (reverse l) as [|p [|e rest]]; [done..|].
  assert (∀ es a q, resolve_auth_loop valid_ipv6 verify_signed_json a q es = Ok r → r ∈ q :: es) as H.
  { induction es as [|x es IH]; intros a q; cbn [resolve_auth_loop]; [intros [= <-]; set_solver|].
    destruct (state_key q); [|done]. cbn [mbind result_bind]. destruct (check_auth x _).
    - intros ?%IH. set_solver.
    - destruct (is_auth_error _); [intros [= <-]; set_solver|done]. }
  by eapply H.
Qed.

Lemma resolve_normal_in events auth r : resolve_normal events auth = Ok r → r ∈ events.
Proof.
  unfold _resolve_normal_events. intros (l & Hl%ordered_perm & Hr)%bind_ok.
  apply resolve_normal_loop_spec in Hr as (l1 & l2 & -> & _). rewrite <- Hl. set_solver.
Qed.

(** C27: which of the conflicted events is chosen.  For a power levels, join rules or
    membership key the events are taken by growing depth (ties by hash): each is
    accepted with its predecessor as the current event, up to the result, after
    which the next one, if any, is refused; the first is never checked.  For any
    other key the result is the deepest event the rules accept, and the one of
    least depth when they accept none. *)
Theorem v1_choice_correct rv key events auth :
  (∀ e, e ∈ events → ev_type e = key.1 ∧ ev_state_key e = Some key.2) →
  (∀ r, resolve_auth rv events auth = Ok r →
     ∃ keys l1 l2, auth_keys_of rv events = Ok keys ∧ l1 ++ r :: l2 ≡ₚ events ∧
       StronglySorted (flip before) (l1 ++ r :: l2) ∧
       let auth := filter (λ '(k, _), k ∈ keys) auth in
       chained (λ p e, accepts (<[key:=p]> auth) e) (l1 ++ [r]) ∧
       (∀ e, head l2 = Some e → refuses (<[key:=r]> auth) e)) ∧
  (∀ r, resolve_normal events auth = Ok r →
     ∃ l1 l2, l1 ++ r :: l2 ≡ₚ events ∧ StronglySorted before (l1 ++ r :: l2) ∧
       Forall (refuses auth) l1 ∧ (accepts auth r ∨ l2 = [] ∧ refuses auth r)).
Proof.
  intros Hk. split; intros r.
  - unfold _resolve_auth_events. intros (l & Hl & (keys & Hkeys & Hr)%bind_ok)%bind_ok.
    pose proof (ordered_perm _ _ Hl) as Hp. pose proof (ordered_sorted _ _ Hl) as Hs.
    assert (StronglySorted (flip before) (reverse l)) as Hs'.
    { clear -Hs. induction Hs as [|e l Hs IH He]; [constructor|]. rewrite reverse_cons.
      apply StronglySorted_app_2; [|done|repeat constructor].
      intros x y Hx Hy%list_elem_of_singleton. subst y. rewrite elem_of_reverse in Hx. unfold flip.
      by apply (proj1 (Forall_forall _ _) He). }
    assert (reverse l ≡ₚ events) as Hp' by (by rewrite reverse_Permutation).
    destruct (reverse l) as [|p [|e rest]]; [done..|].
    apply (resolve_auth_loop_spec key) in Hr as (l1 & l2 & Heq & Hch & Href).
    + exists keys, l1, l2. rewrite <- Heq. done.
    + intros x Hx. apply Hk. by rewrite <- Hp'.
  - unfold _resolve_normal_events. intros (l & Hl & Hr)%bind_ok.
    apply resolve_normal_loop_spec in Hr as (l1 & l2 & -> & H1 & H2). exists l1, l2.
    split_and!; [by apply ordered_perm|by eapply ordered_sorted|done..].
Qed.

(** ** The resolved state *)
Lemma resolve_keys_spec (want : StateKey → bool) (f : list event → result event) (cs : list (StateKey * list event)) (r0 r : StateMap event) :
  resolve_keys want f cs r0 = Ok r →
  (∀ k e, r !! k = Some e → r0 !! k = Some e ∨ ∃ evs, (k, evs) ∈ cs ∧ f evs = Ok e) ∧
  (∀ k evs, (k, evs) ∈ cs → want k = true → is_Some (r !! k)) ∧
  (∀ k, is_Some (r0 !! k) → is_Some (r !! k)).
Proof.
  unfold resolve_keys. revert r0. induction cs as [|[k evs] cs IH]; intros r0; cbn [fold_res].
  { intros [= <-]. split_and!; [by left|set_solver|done]. }
  destruct (want k) eqn:Hw.
  - intros (r1 & (e & He & [= <-])%bind_ok & (H1 & H2 & H3)%IH)%bind_ok. split_and!.
    + intros k' e' [Hi|(evs' & Hin & Hf)]%H1.
      * apply lookup_insert_Some in Hi as [[<- <-]|[_ Hi]]; [|by left].
        right. exists evs. split; [apply list_elem_of_here|done].
      * right. exists evs'. split; [by apply list_elem_of_further|done].
    + intros k' evs' [[= -> ->]|Hin]%elem_of_cons Hw'; [|by eapply H2]. apply H3. by rewrite lookup_insert_eq.
    + intros k' Hk'. apply H3. rewrite lookup_insert_is_Some'. by right.
  - cbn [mbind result_bind]. intros (H1 & H2 & H3)%IH. split_and!.
    + intros k' e' [?|(evs' & ? & ?)]%H1; [by left|right; exists evs'; split; [by apply list_elem_of_further|done]].
    + intros k' evs' [[= -> ->]|Hin]%elem_of_cons Hw'; [congruence|by eapply H2].
    + done.
Qed.

(** The last loop: the keys that are left. *)
Lemma resolve_rest_spec (f : list event → result event) (cs : list (StateKey * list event)) (r0 r : StateMap event) :
  fold_res (λ r '(key, events), match (r : StateMap event) !! key with
    | Some _ => Ok r
    | None => e ← f events; Ok (<[key:=e]> r) end) cs r0 = Ok r →
  (∀ k e, r !! k = Some e → r0 !! k = Some e ∨ ∃ evs, (k, evs) ∈ cs ∧ f evs = Ok e) ∧
  (∀ k evs, (k, evs) ∈ cs → is_Some (r !! k)) ∧ (∀ k, is_Some (r0 !! k) → is_Some (r !! k)).
Proof.
  revert r0. induction cs as [|[k evs] cs IH]; intros r0; cbn [fold_res].
  { intros [= <-]. split_and!; [by left|set_solver|done]. }
  destruct (r0 !! k) as [x|] eqn:Hx.
  - cbn [mbind result_bind]. intros (H1 & H2 & H3)%IH. split_and!; [| |done].
    + intros k' e' [?|(evs' & ? & ?)]%H1; [by left|right; exists evs'; split; [by apply list_elem_of_further|done]].
    + intros k' evs' [[= -> ->]|Hin]%elem_of_cons; [apply H3; by rewrite Hx|by eapply H2].
  - intros (r1 & (e & He & [= <-])%bind_ok & (H1 & H2 & H3)%IH)%bind_ok. split_and!.
    + intros k' e' [Hi|(evs' & Hin & Hf)]%H1.
      * apply lookup_insert_Some in Hi as [[<- <-]|[_ Hi]]; [|by left].
        right. exists evs. split; [apply list_elem_of_here|done].
      * right. exists evs'. split; [by apply list_elem_of_further|done].
    + intros k' evs' [[= -> ->]|Hin]%elem_of_cons; [|by eapply H2]. apply H3. by rewrite lookup_insert_eq.
    + intros k' Hk'. apply H3. rewrite lookup_insert_is_Some'. by right.
Qed.

Lemma items_get_in {V} (d : list (StateKey * V)) k v : items_get d k = Some v → (k, v) ∈ d.
Proof.
  induction d as [|[k' v'] d IH]; simpl; [done|]. destruct (decide (k = k')) as [->|].
  - intros [= ->]. apply list_elem_of_here.
  - intros ?. apply list_elem_of_further. auto.
Qed.

Lemma resolve_state_spec (rv : RoomVersion) (cs : list (StateKey * list event)) (auth r : StateMap event) :
  resolve_state rv cs auth = Ok r →
  (∀ k e, r !! k = Some e → ∃ evs, (k, evs) ∈ cs ∧ e ∈ evs) ∧
  (∀ k evs, (k, evs) ∈ cs → is_Some (r !! k)).
Proof.
  unfold _resolve_state_events.
  intros (r1 & Hr1 & (r2 & Hr2 & (r3 & Hr3 & Hr)%bind_ok)%bind_ok)%bind_ok.
  apply resolve_keys_spec in Hr2 as (A1 & _ & _). apply resolve_keys_spec in Hr3 as (B1 & _ & _).
  apply resolve_rest_spec in Hr as (C1 & C2 & _). split; [|done]. intros k e.
  intros [[[Hk|(evs & Hin & He%resolve_auth_in)]%A1|(evs & Hin & He%resolve_auth_in)]%B1
         |(evs & Hin & He%resolve_normal_in)]%C1; [|by exists evs..].
  destruct (items_get cs V1_POWER_KEY) as [evs|] eqn:Hp.
  - apply bind_ok in Hr1 as (x & Hx%resolve_auth_in & [= <-]).
    apply lookup_insert_Some in Hk as [[<- <-]|[_ Hk]]; [|by rewrite lookup_empty in Hk].
    exists evs. split; [by apply items_get_in|done].
  - injection Hr1 as <-. by rewrite lookup_empty in Hk.
Qed.
End V1Props.
