(* ===== verification/StateResV1Order.v ===== *)
(** State resolution v1: the resolved state is made of the given events, and does not
    depend on any order. *)
From S2P Require Import Prelude RoomVersions Identifiers Events EventAuth StateResV1 StateResV1Props.

(** ** Folds over permuted lists *)
Lemma fold_res_app {A S} (f : S → A → result S) l1 l2 s :
  fold_res f (l1 ++ l2) s = (s' ← fold_res f l1 s; fold_res f l2 s').
Proof. revert s. induction l1 as [|x l IH]; intros s; simpl; [done|]. by destruct (f s x); simpl. Qed.

(** A fold whose steps commute on the elements of the list. *)
Lemma fold_res_permute {A S} (f : S → A → result S) l l' s r :
  l ≡ₚ l' →
  (∀ x y s r, x ∈ l → y ∈ l → (s' ← f s x; f s' y) = Ok r → (s' ← f s y; f s' x) = Ok r) →
  fold_res f l s = Ok r → fold_res f l' s = Ok r.
Proof.
  intros Hp. revert s. induction Hp as [|x l l' Hp IH|x y l|l l2 l3 Hp1 IH1 Hp2 IH2]; intros s Hc.
  - done.
  - cbn [fold_res]. rewrite !bind_ok. intros (s' & Hs & Hr). exists s'. split; [done|].
    apply IH; [|done]. intros a b ?? Ha Hb. apply Hc; by apply list_elem_of_further.
  - change (fold_res f ([y; x] ++ l) s = Ok r → fold_res f ([x; y] ++ l) s = Ok r).
    rewrite !fold_res_app, !bind_ok. intros (s' & Hs & Hr). exists s'. split; [|done].
    assert (∀ a b, fold_res f [a; b] s = (s' ← f s a; f s' b)) as H2.
    { intros a b. cbn [fold_res]. destruct (f s a); simpl; [|done]. by destruct (f _ b). }
    rewrite H2 in *. apply Hc; [set_solver..|done].
  - intros Hr. apply IH2; [|by apply IH1]. intros a b ??. rewrite <- Hp1. apply Hc.
Qed.

(** Folds over lists that correspond. *)
Lemma fold_res_Forall2 {A S} (R : A → A → Prop) (f : S → A → result S) l l' s r :
  Forall2 R l l' → (∀ x y s r, x ∈ l → R x y → f s x = Ok r → f s y = Ok r) →
  fold_res f l s = Ok r → fold_res f l' s = Ok r.
Proof.
  intros HR. revert s. induction HR as [|x y l l' Hxy HR IH]; intros s Hf; [done|]. cbn [fold_res].
  rewrite !bind_ok. intros (s' & Hs & Hr). exists s'. split; [eapply Hf; eauto; set_solver|].
  apply IH; [|done]. intros a b ?? Ha. apply Hf. by apply list_elem_of_further.
Qed.

Lemma none_union {A} (o : option A) : None ∪ o = o.
Proof. by destruct o. Qed.

Section V1Order.
Context (valid_ipv6 : string → bool).
Context (verify_signed_json : pydict → string → string → json → result unit).
Context (sha1_hex : string → string).

Notation order_key := (order_key_v1 sha1_hex).
Notation ordered := (_ordered_events sha1_hex).
Notation resolve_auth := (_resolve_auth_events valid_ipv6 verify_signed_json sha1_hex).
Notation resolve_normal := (_resolve_normal_events valid_ipv6 verify_signed_json sha1_hex).
Notation resolve_state := (_resolve_state_events valid_ipv6 verify_signed_json sha1_hex).

(** Events are told apart by their depth and the hash of their ID. *)
Definition told_apart (events : list event) : Prop :=
  ∀ e e', e ∈ events → e' ∈ events → order_key e = order_key e' → e = e'.

Lemma with_keys_permute events events' kl :
  events ≡ₚ events' → with_keys sha1_hex events = Ok kl →
  ∃ kl', with_keys sha1_hex events' = Ok kl' ∧ kl ≡ₚ kl'.
Proof.
  intros Hp. revert kl. induction Hp as [|e l l' Hp IH|e e' l|l l2 l3 _ IH1 _ IH2]; intros kl Hkl%with_keys_spec.
  - exists kl. split; [by apply with_keys_spec|done].
  - apply Forall2_cons_inv_l in Hkl as (p & kl0 & He & Hkl & ->).
    destruct (IH kl0) as (kl' & Hkl' & Hperm); [by apply with_keys_spec|].
    exists (p :: kl'). split; [|by rewrite Hperm]. apply with_keys_spec. constructor; [done|].
    by apply with_keys_spec.
  - apply Forall2_cons_inv_l in Hkl as (p & kl0 & He & Hkl & ->).
    apply Forall2_cons_inv_l in Hkl as (p' & kl1 & He' & Hkl & ->).
    exists (p' :: p :: kl1). split; [|apply Permutation_swap]. apply with_keys_spec.
    constructor; [done|]. by constructor.
  - destruct (IH1 kl) as (kl2 & Hkl2 & Hp1); [by apply with_keys_spec|].
    destruct (IH2 kl2 Hkl2) as (kl3 & Hkl3 & Hp2). exists kl3. split; [done|]. by rewrite Hp1.
Qed.

Lemma ordered_permute events events' l :
  told_apart events → events ≡ₚ events' → ordered events = Ok l → ordered events' = Ok l.
Proof.
  intros Ht Hp. unfold _ordered_events. rewrite bind_ok. intros (kl & Hkl & [= <-]).
  destruct (with_keys_permute _ _ _ Hp Hkl) as (kl' & -> & Hperm). simpl. do 2 f_equal. symmetry.
  apply with_keys_spec in Hkl.
  assert (∀ p, p ∈ kl → p.2 ∈ events ∧ order_key p.2 = Ok p.1) as Hkey.
  { intros p (i & Hi)%list_elem_of_lookup. destruct (Forall2_lookup_r _ _ _ _ _ Hkl Hi) as (e & He & Hpe & Hk).
    rewrite Hpe. split; [by eapply list_elem_of_lookup_2|done]. }
  apply (StronglySorted_unique_strong keyed_le).
  - intros p q. rewrite !merge_sort_Permutation, <- Hperm. intros Hpin Hqin H1 H2.
    destruct (Hkey p Hpin) as [Hpe Hpk], (Hkey q Hqin) as [Hqe Hqk].
    assert (p.1 = q.1) as Hkk by (by apply key_le_v1_antisym).
    destruct p as [a e], q as [b e']. simpl in *. subst b. f_equal. apply Ht; congruence.
  - apply (StronglySorted_merge_sort keyed_le).
  - apply (StronglySorted_merge_sort keyed_le).
  - by rewrite !merge_sort_Permutation.
Qed.

Lemma auth_keys_permute rv events events' keys :
  events ≡ₚ events' → auth_keys_of rv events = Ok keys → auth_keys_of rv events' = Ok keys.
Proof.
  intros Hp. apply fold_res_permute; [done|]. intros x y s r _ _.
  destruct (auth_types_for_event rv x) as [kx|]; [|done].
  destruct (auth_types_for_event rv y) as [ky|]; [|done]. simpl. intros [= <-]. f_equal. set_solver.
Qed.

Lemma resolve_auth_permute rv events events' auth r :
  told_apart events → events ≡ₚ events' →
  resolve_auth rv events auth = Ok r → resolve_auth rv events' auth = Ok r.
Proof.
  intros Ht Hp. unfold _resolve_auth_events. intros (l & Hl & (keys & Hk & Hr)%bind_ok)%bind_ok.
  rewrite (ordered_permute _ _ _ Ht Hp Hl). cbn [mbind result_bind].
  by rewrite (auth_keys_permute _ _ _ _ Hp Hk).
Qed.

Lemma resolve_normal_permute events events' auth r :
  told_apart events → events ≡ₚ events' →
  resolve_normal events auth = Ok r → resolve_normal events' auth = Ok r.
Proof.
  intros Ht Hp. unfold _resolve_normal_events. intros (l & Hl & Hr)%bind_ok.
  by rewrite (ordered_permute _ _ _ Ht Hp Hl).
Qed.

(** ** The same conflicted state in another order *)
Definition same_items (cs cs' : list (StateKey * list event)) : Prop :=
  ∃ cs1, Forall2 (λ p q, p.1 = q.1 ∧ p.2 ≡ₚ q.2) cs cs1 ∧ cs1 ≡ₚ cs'.

Section items.
Context (cs cs' : list (StateKey * list event)).
Context (Hnd : NoDup cs.*1) (Ht : ∀ k evs, (k, evs) ∈ cs → told_apart evs).
Context (Hsame : same_items cs cs').

(** A loop over the items whose steps commute for different keys. *)
Lemma fold_items_same (f : StateMap event → StateKey * list event → result (StateMap event)) s r :
  (∀ k evs evs' s r, (k, evs) ∈ cs → evs ≡ₚ evs' → f s (k, evs) = Ok r → f s (k, evs') = Ok r) →
  (∀ k k' evs evs' s r, k ≠ k' → (s' ← f s (k, evs); f s' (k', evs')) = Ok r →
     (s' ← f s (k', evs'); f s' (k, evs)) = Ok r) →
  fold_res f cs s = Ok r → fold_res f cs' s = Ok r.
Proof using Hnd Hsame.
  intros Hstep Hcomm Hr. destruct Hsame as (cs1 & HF & Hp).
  apply (fold_res_permute f cs1 cs'); [done| |].
  - assert (NoDup cs1.*1) as Hnd1.
    { assert (cs1.*1 = cs.*1) as ->; [|done]. clear -HF.
      induction HF as [|p q l l' [Hk _] _ IH]; [done|]. rewrite !fmap_cons. by f_equal. }
    intros [k evs] [k' evs'] s' r' Hx Hy. destruct (decide (k = k')) as [->|Hne]; [|by apply Hcomm].
    assert (evs = evs') as ->; [|done].
    apply list_elem_of_lookup in Hx as [i Hi], Hy as [j Hj].
    assert (i = j) as ->; [|congruence].
    eapply (NoDup_lookup cs1.*1 i j k'); [done|by rewrite list_lookup_fmap, Hi|by rewrite list_lookup_fmap, Hj].
  - eapply fold_res_Forall2; [exact HF| |exact Hr]. intros [k evs] [k' evs'] s' r' Hx [Hk Hpe]. simpl in *.
    subst k'. by apply Hstep.
Qed.

Lemma resolve_keys_same want resolve s r :
  (∀ evs evs' e, told_apart evs → evs ≡ₚ evs' → resolve evs = Ok e → resolve evs' = Ok e) →
  resolve_keys want resolve cs s = Ok r → resolve_keys want resolve cs' s = Ok r.
Proof using Hnd Hsame Ht.
  intros Hres. apply fold_items_same.
  - intros k evs evs' s' r' Hin Hp. destruct (want k); [|done]. rewrite !bind_ok.
    intros (e & He & Hr). exists e. split; [|done]. eauto.
  - intros k k' evs evs' s' r' Hne. destruct (want k), (want k'); cbn [mbind result_bind]; try done;
      destruct (resolve evs); try done; destruct (resolve evs'); try done. simpl.
    intros [= <-]. f_equal. by apply insert_insert_ne.
Qed.

Lemma resolve_rest_same resolve s r :
  (∀ evs evs' e, told_apart evs → evs ≡ₚ evs' → resolve evs = Ok e → resolve evs' = Ok e) →
  let f := λ r '(key, events), match (r : StateMap event) !! key with
    | Some _ => Ok r
    | None => e ← resolve events; Ok (<[key:=e]> r) end in
  fold_res f cs s = Ok r → fold_res f cs' s = Ok r.
Proof using Hnd Hsame Ht.
  intros Hres f. apply fold_items_same.
  - intros k evs evs' s' r' Hin Hp. unfold f. destruct (s' !! k); [done|]. rewrite !bind_ok.
    intros (e & He & Hr). exists e. split; [|done]. eauto.
  - intros k k' evs evs' s' r' Hne. unfold f.
    assert (∀ (m : StateMap event) e, <[k:=e]> m !! k' = m !! k') as H1
      by (intros; by apply lookup_insert_ne).
    assert (∀ (m : StateMap event) e, <[k':=e]> m !! k = m !! k) as H2
      by (intros; by apply lookup_insert_ne).
    destruct (s' !! k) eqn:Hk, (s' !! k') eqn:Hk'; cbn [mbind result_bind]; rewrite ?Hk, ?Hk'; try done;
      destruct (resolve evs); cbn [mbind result_bind]; try done;
      destruct (resolve evs'); cbn [mbind result_bind]; rewrite ?H1, ?H2, ?Hk, ?Hk'; try done.
    cbn [mbind result_bind]. intros [= <-]. f_equal. by apply insert_insert_ne.
Qed.

Lemma items_get_same k evs :
  items_get cs k = Some evs → ∃ evs', items_get cs' k = Some evs' ∧ evs ≡ₚ evs'.
Proof using Hnd Hsame.
  intros Hg. destruct Hsame as (cs1 & HF & Hp).
  assert (∃ evs', (k, evs') ∈ cs' ∧ evs ≡ₚ evs') as (evs' & Hin & Hpe).
  { apply items_get_in, list_elem_of_lookup in Hg as [i Hi].
    destruct (Forall2_lookup_l _ _ _ _ _ HF Hi) as ([k1 evs1] & Hi1 & Hk & Hpe). simpl in *. subst k1.
    exists evs1. split; [|done]. rewrite <- Hp. by eapply list_elem_of_lookup_2. }
  exists evs'. split; [|done].
  assert (NoDup cs'.*1) as Hnd'.
  { rewrite <- Hp. assert (cs1.*1 = cs.*1) as ->; [|done]. clear -HF.
    induction HF as [|p q l l' [Hk _] _ IH]; [done|]. rewrite !fmap_cons. by f_equal. }
  clear -Hin Hnd'. induction cs' as [|[k1 e1] l IH]; [by apply elem_of_nil in Hin|]. simpl in *.
  apply NoDup_cons in Hnd' as [Hn Hnd']. apply elem_of_cons in Hin as [[= -> ->]|Hin].
  - by rewrite decide_True.
  - rewrite decide_False; [by apply IH|]. intros ->. apply Hn. apply list_elem_of_fmap. by exists (k1, evs').
Qed.

Lemma items_get_none_same k : items_get cs k = None → items_get cs' k = None.
Proof using Hsame.
  intros Hg. destruct Hsame as (cs1 & HF & Hp).
  destruct (items_get cs' k) as [evs|] eqn:Hg'; [exfalso|done].
  apply items_get_in in Hg'. rewrite <- Hp in Hg'. apply list_elem_of_lookup in Hg' as [i Hi].
  destruct (Forall2_lookup_r _ _ _ _ _ HF Hi) as ([k1 evs1] & Hi1 & Hk & _). simpl in Hk. subst k1.
  apply list_elem_of_lookup_2 in Hi1. clear -Hg Hi1.
  induction cs as [|[k1 e1] l IH]; [by apply elem_of_nil in Hi1|]. simpl in Hg.
  destruct (decide (k = k1)) as [->|Hne]; [done|]. apply elem_of_cons in Hi1 as [[= -> ->]|Hi1]; [done|].
  by apply IH.
Qed.

Lemma resolve_state_same rv auth r :
  resolve_state rv cs auth = Ok r → resolve_state rv cs' auth = Ok r.
Proof using Hnd Hsame Ht.
  unfold _resolve_state_events.
  intros (r1 & Hr1 & (r2 & Hr2 & (r3 & Hr3 & Hr)%bind_ok)%bind_ok)%bind_ok.
  apply bind_ok. exists r1. split.
  - destruct (items_get cs V1_POWER_KEY) as [evs|] eqn:Hg.
    + destruct (items_get_same _ _ Hg) as (evs' & -> & Hp). apply bind_ok in Hr1 as (e & He & Hr1).
      apply bind_ok. exists e. split; [|done]. eapply resolve_auth_permute; [|exact Hp|exact He].
      eapply Ht. by apply items_get_in.
    + by rewrite (items_get_none_same _ Hg).
  - apply bind_ok. exists r2. split.
    { eapply resolve_keys_same; [|exact Hr2]. intros. by eapply resolve_auth_permute. }
    apply bind_ok. exists r3. split.
    { eapply resolve_keys_same; [|exact Hr3]. intros. by eapply resolve_auth_permute. }
    eapply resolve_rest_same; [|exact Hr]. intros. by eapply resolve_normal_permute.
Qed.
End items.

(** ** The whole algorithm *)

Lemma v1_seperate_permute sets sets' u c u' c' :
  sets ≡ₚ sets' → v1_seperate sets = Ok (u, c) → v1_seperate sets' = Ok (u', c') → u = u' ∧ c = c'.
Proof.
  intros Hp Hs Hs'.
  assert (∀ k, values_at sets k = values_at sets' k) as Hv.
  { intros k. unfold values_at. apply leibniz_equiv. intros v. rewrite !elem_of_list_to_set. by rewrite Hp. }
  split; apply map_eq; intros k;
    pose proof (v1_seperate_spec _ _ _ Hs k) as H1; pose proof (v1_seperate_spec _ _ _ Hs' k) as H2;
    rewrite Hv, <- H2 in H1; by injection H1.
Qed.

(** C26: nothing depends on an order.  Permuting the state sets does not change the
    outcome, errors included; and for a conflicted state whose events are told
    apart by depth and hash, neither the order of the keys nor the order of the
    events of a key, in which the code iterates over dictionaries and sets,
    changes the resolved state. *)
Theorem v1_order_independent factory rid rv sets sets' em :
  sets ≡ₚ sets' →
  v1_resolve_events_with_store valid_ipv6 verify_signed_json sha1_hex factory rid rv sets em =
  v1_resolve_events_with_store valid_ipv6 verify_signed_json sha1_hex factory rid rv sets' em ∧
  (∀ cs cs' auth r, NoDup cs.*1 → (∀ k evs, (k, evs) ∈ cs → told_apart evs) → same_items cs cs' →
     resolve_state rv cs auth = Ok r → resolve_state rv cs' auth = Ok r).
Proof.
  intros Hp. split; [|intros; by eapply (resolve_state_same cs)].
  pose proof (Permutation_length Hp) as Hlen.
  destruct sets as [|s [|s2 sets]].
  - by apply Permutation_nil_l in Hp as <-.
  - by apply Permutation_singleton_l in Hp as <-.
  - destruct sets' as [|s' [|s2' sets']]; [done..|]. unfold v1_resolve_events_with_store.
    destruct (v1_seperate (s :: s2 :: sets)) as [[u c]|] eqn:H1; [|done].
    destruct (v1_seperate (s' :: s2' :: sets')) as [[u' c']|] eqn:H2; [|done].
    by destruct (v1_seperate_permute _ _ _ _ _ _ Hp H1 H2) as [-> ->].
Qed.

(** An event that is in flight or in the store. *)
Definition known_event (store : gmap string event) (em : option (gmap string event)) (i : string) :
    option event := (default ∅ em ∪ store) !! i.

Lemma check_rooms_v1_ok rid state_map u :
  check_rooms_v1 rid state_map = Ok u → ∀ i e, state_map !! i = Some e → room_id e = Ok rid.
Proof.
  unfold check_rooms_v1. destruct u. rewrite for_each_ok. intros HF i e Hi. rewrite Forall_forall in HF.
  specialize (HF e). rewrite bind_ok in HF. destruct HF as (r & Hr & Hn%raise_if_ok).
  - apply list_elem_of_fmap. exists (i, e). split; [done|]. by apply elem_of_map_to_list.
  - apply negb_false_iff, String.eqb_eq in Hn. by subst.
Qed.

(** The keys that one known event settles. *)
Lemma settled_lookup (l : list (StateKey * list event)) (u0 : StateMap string) k :
  NoDup l.*1 →
  foldl (λ u p, match p.2 with [e] => <[p.1:=event_id e]> u | _ => u end) u0 l !! k =
  match items_get l k with Some [e] => Some (event_id e) | _ => u0 !! k end.
Proof.
  revert u0. induction l as [|[k' evs] l IH]; intros u0 Hnd; [done|]. simpl in Hnd.
  apply NoDup_cons in Hnd as [Hn Hnd]. cbn [foldl items_get]. rewrite IH by done. simpl.
  destruct (decide (k = k')) as [->|Hne].
  - assert (items_get l k' = None) as ->.
    { destruct (items_get l k') eqn:Hg; [|done]. apply items_get_in in Hg. exfalso. apply Hn.
      apply list_elem_of_fmap. by eexists (k', _). }
    destruct evs as [|e [|e' evs]]; [done|by rewrite lookup_insert_eq|done].
  - assert (∀ x, (<[k':=x]> u0 : StateMap string) !! k = u0 !! k) as Hi
      by (intros; by apply lookup_insert_ne).
    destruct evs as [|e [|e' evs]]; by rewrite ?Hi.
Qed.

Lemma known_events_in sm vals e : e ∈ known_events sm vals ↔ ∃ i, i ∈ vals ∧ sm !! i = Some e.
Proof. unfold known_events. rewrite list_elem_of_omap. setoid_rewrite elem_of_elements. done. Qed.

(** The items made from the conflicted state. *)
Lemma items_of_map (c : StateMap (gset string)) (sm : gmap string event) :
  let l := (λ '(key, event_ids), (key, known_events sm event_ids)) <$> map_to_list c in
  NoDup l.*1 ∧ ∀ k evs, (k, evs) ∈ l ↔ ∃ vals, c !! k = Some vals ∧ evs = known_events sm vals.
Proof.
  intros l. split.
  - unfold l. rewrite <- list_fmap_compose.
    rewrite (list_fmap_ext _ fst) by (by intros ? [] _). apply NoDup_fst_map_to_list.
  - intros k evs. unfold l. rewrite list_elem_of_fmap. split.
    + intros ([k' vals] & [= -> ->] & Hk%elem_of_map_to_list). by exists vals.
    + intros (vals & Hk & ->). exists (k, vals). split; [done|]. by apply elem_of_map_to_list.
Qed.

Lemma items_get_unique {V} (l : list (StateKey * V)) k v :
  NoDup l.*1 → (k, v) ∈ l → items_get l k = Some v.
Proof.
  induction l as [|[k' v'] l IH]; intros Hnd Hin; [by apply elem_of_nil in Hin|]. simpl in *.
  apply NoDup_cons in Hnd as [Hn Hnd]. apply elem_of_cons in Hin as [[= -> ->]|Hin]; [by rewrite decide_True|].
  rewrite decide_False; [by apply IH|]. intros ->. apply Hn, list_elem_of_fmap. by exists (k', v).
Qed.

Lemma resolve_with_state_spec rv u c auth_ids sm st k :
  _resolve_with_state valid_ipv6 verify_signed_json sha1_hex rv u c auth_ids sm = Ok st →
  (c !! k = None → st !! k = u !! k) ∧
  (∀ vals, c !! k = Some vals → u !! k = None →
     (∀ v, st !! k = Some v → ∃ i e, i ∈ vals ∧ sm !! i = Some e ∧ v = event_id e) ∧
     (st !! k = None → ∀ i, i ∈ vals → sm !! i = None)).
Proof.
  unfold _resolve_with_state. destruct (items_of_map c sm) as [Hnd Hin].
  set (l := (λ '(key, event_ids), (key, known_events sm event_ids)) <$> map_to_list c) in *.
  intros (resolved & (H1 & H2)%resolve_state_spec & [= <-])%bind_ok.
  rewrite lookup_union, lookup_fmap, (settled_lookup l) by done. split.
  - intros Hc. assert (resolved !! k = None) as ->.
    { destruct (resolved !! k) as [e|] eqn:Hr; [|done].
      destruct (H1 _ _ Hr) as (evs & [_ (vals & Hv & _)%Hin]%list_elem_of_filter & _). congruence. }
    assert (items_get l k = None) as ->.
    { destruct (items_get l k) as [evs|] eqn:Hg; [|done]. apply items_get_in, Hin in Hg as (vals & ? & _).
      congruence. }
    simpl. apply none_union.
  - intros vals Hc Hu. assert ((k, known_events sm vals) ∈ l) as Hkl by (apply Hin; by exists vals).
    rewrite (items_get_unique _ _ _ Hnd Hkl), Hu. destruct (resolved !! k) as [e|] eqn:Hr; simpl.
    + destruct (H1 _ _ Hr) as (evs & [_ (vals' & Hv & ->)%Hin]%list_elem_of_filter & He).
      rewrite Hc in Hv. injection Hv as <-. apply known_events_in in He as (i & Hi & He).
      rewrite union_Some_l. split; [intros v [= <-]; by exists i, e|done].
    + rewrite none_union. destruct (known_events sm vals) as [|e [|e' evs]] eqn:Hev.
      * split; [done|]. intros _ i Hi. destruct (sm !! i) as [e|] eqn:He; [|done].
        assert (e ∈ known_events sm vals) as Hke by (apply known_events_in; by exists i).
        rewrite Hev in Hke. by apply elem_of_nil in Hke.
      * split; [|done]. intros v [= <-].
        assert (e ∈ known_events sm vals) as (i & Hi & He)%known_events_in by (rewrite Hev; set_solver).
        by exists i, e.
      * exfalso. destruct (H2 k (e :: e' :: evs)) as [x Hx]; [|congruence].
        apply list_elem_of_filter. split; [simpl; lia|done].
Qed.

(** C25: the result of resolving two or more states.  A key on whose value all states
    that have it agree keeps that value; a key no state has is not in the result;
    the value of a key in conflict is one of the conflicting values, and an event
    of the room that is known; and such a key is missing only when none of its
    events is known. *)
Theorem v1_resolution_sound store factory rid rv sets em st :
  (∀ S i, factory S !! i = if decide (i ∈ S) then store !! i else None) →
  (∀ i e, known_event store em i = Some e → event_id e = i) →
  2 ≤ length sets →
  v1_resolve_events_with_store valid_ipv6 verify_signed_json sha1_hex factory rid rv sets em = Ok st →
  ∀ k, (values_at sets k = ∅ → st !! k = None) ∧
    (∀ v, values_at sets k = {[v]} → st !! k = Some v) ∧
    (2 ≤ size (values_at sets k) →
      (∀ v, st !! k = Some v → v ∈ values_at sets k ∧
         ∃ e, known_event store em v = Some e ∧ room_id e = Ok rid) ∧
      (st !! k = None → ∀ v, v ∈ values_at sets k → known_event store em v = None)).
Proof.
  intros Hf Hid Hlen. destruct sets as [|s [|s2 sets]]; [simpl in Hlen; lia..|].
  unfold v1_resolve_events_with_store. set (ss := s :: s2 :: sets) in *.
  intros ([u c] & Hsep & Hrest)%bind_ok k. pose proof (v1_seperate_spec _ _ _ Hsep k) as Hk.
  set (fl := default ∅ em) in *. set (needed := ⋃ (map_to_list c).*2 ∖ dom fl) in *.
  apply bind_ok in Hrest as ([] & Hrooms & Hrest). apply bind_ok in Hrest as (auth & _ & Hrest).
  set (new := _ ∖ needed ∖ dom fl) in *. apply bind_ok in Hrest as (_ & _ & Hr).
  destruct (resolve_with_state_spec _ _ _ _ _ _ k Hr) as [Hn Hs]. split_and!.
  - intros Hv. rewrite Hv in Hk. injection Hk as Hu Hc. by rewrite Hn.
  - intros v Hv. rewrite Hv, classify_singleton in Hk. injection Hk as Hu Hc. by rewrite Hn.
  - intros Hv. rewrite classify_many in Hk by done. injection Hk as Hu Hc.
    assert (∀ i, i ∈ values_at ss k → (factory new ∪ (fl ∪ factory needed)) !! i = known_event store em i ∧
      known_event store em i = (fl ∪ factory needed) !! i) as Hsm.
    { intros i Hi. assert (i ∈ (⋃ (map_to_list c).*2 : gset string)) as Hic.
      { apply elem_of_union_list. exists (values_at ss k). split; [|done]. apply list_elem_of_fmap.
        exists (k, values_at ss k). split; [done|]. by apply elem_of_map_to_list. }
      assert (known_event store em i = (fl ∪ factory needed) !! i) as Hkn.
      { unfold known_event. fold fl. rewrite !lookup_union, Hf. destruct (fl !! i) as [e|] eqn:He; simpl.
        - by rewrite !union_Some_l.
        - rewrite decide_True; [done|]. unfold needed. apply elem_of_difference. split; [done|].
          by apply not_elem_of_dom. }
      split; [|done]. rewrite Hkn, lookup_union, Hf, decide_False by set_solver. apply none_union. }
    destruct (Hs _ Hc Hu) as [Hs1 Hs2]. split.
    + intros v (i & e & Hi & He & ->)%Hs1. destruct (Hsm i Hi) as [Hsi Hki]. rewrite Hsi in He.
      rewrite (Hid _ _ He). split; [done|]. exists e. split; [done|].
      apply (check_rooms_v1_ok _ _ _ Hrooms i). congruence.
    + intros Hnone v Hi. destruct (Hsm v Hi) as [Hsi _]. rewrite <- Hsi. by apply Hs2.
Qed.
End V1Order.
