(* ===== verification/StateResV1Examples.v ===== *)
(** State resolution v1 on a concrete room. *)
From S2P Require Import Prelude RoomVersions Identifiers Events EventAuth EventAuthExamples StateResV1 StateResV1Props StateResV1Order.

(** ** A room of version 1 *)
Definition ex1_event (etype sender : string) (sk : option string) (content : pydict) (id : string)
    (depth : Z) : event :=
  mkEvent RoomVersions.V1 etype sender sk content (Some "!room:a.org") id "" [] [] 0
    [("a.org", [("ed25519:1", JStr "sig")])] None false [("depth", JInt depth)].

Definition ex1_levels (sender user id : string) (depth : Z) : event :=
  ex1_event EventTypes.PowerLevels sender (Some "") [("users", JDict [(user, JInt 100)])] id depth.

Definition ex1_topic (sender topic id : string) (depth : Z) : event :=
  ex1_event "m.room.topic" sender (Some "") [("topic", JStr topic)] id depth.

Definition ex1_base : list event :=
  [ ex1_event EventTypes.Create ex_alice (Some "") [("creator", JStr ex_alice)] "$c:a.org" 1;
    ex1_event EventTypes.Member ex_alice (Some ex_alice) [("membership", JStr "join")] "$a:a.org" 2;
    ex1_levels ex_alice ex_alice "$p:a.org" 3 ].

(** Alice set the topic; so did Eve, who is not in the room. *)
Definition ex1_topics : list event :=
  [ex1_topic ex_alice "tea" "$t1:a.org" 5; ex1_topic ex_eve "cake" "$t2:a.org" 9].

Definition ex1_store : gmap string event :=
  list_to_map ((λ e, (event_id e, e)) <$> ex1_base ++ ex1_topics).

Definition ex1_factory (S : gset string) : gmap string event := filter (λ '(i, _), i ∈ S) ex1_store.

Definition ex1_set (l : list event) : StateMap string :=
  list_to_map ((λ e, ((ev_type e, default "" (ev_state_key e)), event_id e)) <$> l).

Definition ex1_sets : list (StateMap string) :=
  [ex1_set (ex1_topic ex_alice "tea" "$t1:a.org" 5 :: ex1_base);
   ex1_set (ex1_topic ex_eve "cake" "$t2:a.org" 9 :: ex1_base)].

(** The hash is not needed to tell these events apart by name. *)
Definition ex1_sha1 (s : string) : string := s.

Definition ex1_run (sets : list (StateMap string)) : result (StateMap string) :=
  v1_resolve_events_with_store no_ipv6 no_signature ex1_sha1 ex1_factory "!room:a.org" RoomVersions.V1
    sets None.

(** Eve's topic is deeper, but refused. *)
Example ex1_resolved : (λ st : StateMap string, st !! ("m.room.topic", "")) <$> ex1_run ex1_sets = Ok (Some "$t1:a.org").
Proof. by vm_compute. Qed.

Lemma ex1_factory_ok S i : ex1_factory S !! i = if decide (i ∈ S) then ex1_store !! i else None.
Proof.
  unfold ex1_factory. rewrite map_lookup_filter. destruct (ex1_store !! i); simpl.
  - by destruct (decide (i ∈ S)); rewrite ?option_guard_True, ?option_guard_False by done.
  - by case_decide.
Qed.

Lemma v1_resolution_sound_witness :
  match ex1_run ex1_sets with
  | Ok st => ∀ v, st !! ("m.room.topic", "") = Some v →
      v ∈ values_at ex1_sets ("m.room.topic", "")
  | Raise _ => False
  end.
Proof.
  destruct (ex1_run ex1_sets) as [st|] eqn:Hrun.
  - intros v Hv. refine (proj1 (proj1 (proj2 (proj2 (v1_resolution_sound no_ipv6 no_signature ex1_sha1
      ex1_store ex1_factory "!room:a.org" RoomVersions.V1 ex1_sets None st _ _ _ Hrun
      ("m.room.topic", ""))) _) v Hv)).
    + apply ex1_factory_ok.
    + assert (map_Forall (λ i e, event_id e = i) ex1_store) as H
        by (apply (bool_decide_unpack _); by vm_compute).
      intros i e. unfold known_event. simpl. rewrite map_empty_union. apply H.
    + simpl. lia.
    + by vm_compute; lia.
  - assert (is_ok (ex1_run ex1_sets) = true) as H by (by vm_compute). by rewrite Hrun in H.
Defined.

Lemma v1_order_independent_witness : ex1_run ex1_sets = ex1_run (reverse ex1_sets).
Proof.
  apply (v1_order_independent no_ipv6 no_signature ex1_sha1 ex1_factory "!room:a.org" RoomVersions.V1
    ex1_sets (reverse ex1_sets) None). by rewrite reverse_Permutation.
Defined.

Lemma v1_choice_correct_witness :
  let r := ex1_topic ex_alice "tea" "$t1:a.org" 5 in
  ∃ l1 l2, l1 ++ r :: l2 ≡ₚ ex1_topics ∧ StronglySorted (before ex1_sha1) (l1 ++ r :: l2) ∧
    Forall (refuses no_ipv6 no_signature ∅) l1 ∧
    (accepts no_ipv6 no_signature ∅ r ∨ l2 = [] ∧ refuses no_ipv6 no_signature ∅ r).
Proof.
  apply (v1_choice_correct no_ipv6 no_signature ex1_sha1 RoomVersions.V1 ("m.room.topic", "") ex1_topics ∅).
  - intros e [->|[->|[]%elem_of_nil]%elem_of_cons]%elem_of_cons; done.
  - by vm_compute.
Defined.

(** The event of least depth is not checked: conflicting power levels of a user
    who is not in the room win when they claim a smaller depth. *)
Example ex1_unchecked_levels_win :
  let mine := ex1_levels ex_alice ex_alice "$p:a.org" 3 in
  let theirs := ex1_levels ex_eve ex_eve "$q:a.org" 2 in
  let auth := list_to_map ((λ e, ((ev_type e, default "" (ev_state_key e)), e)) <$> take 2 ex1_base) in
  event_id <$> _resolve_auth_events no_ipv6 no_signature ex1_sha1 RoomVersions.V1 [mine; theirs] auth =
    Ok "$q:a.org" ∧
  is_ok (check_state_dependent_auth_rules no_ipv6 no_signature theirs (map_to_list auth).*2) = false.
Proof. split; by vm_compute. Qed.
