(* ===== verification/ChainLinks.v ===== *)
(** The links of the chain cover index: [_LinkMap] of
    [storage/databases/main/events.py], and [_get_chain_links], [_materialize]
    and the forward walk of [storage/databases/main/event_federation.py].

    The auth events of a room form a directed acyclic graph.  The index cuts it
    into chains and gives every event a position, a chain ID and a sequence
    number in that chain; a position reaches the lower positions of its chain,
    and a link leads from a position to a position of another chain.

    A Python stack ([list.append] and [list.pop]) is a list whose head is the
    top.  A loop takes fuel, is [None] when the fuel runs out, and is given the
    fuel that is shown to be enough in [ChainLinksProps]. *)
From S2P Require Import Prelude.

(** A chain ID and a sequence number. *)
Abbreviation position := (Z * Z)%type.

(** ** [_LinkMap] *)
Record LinkMap := mkLinkMap {
  maps : gmap Z (gmap Z (gmap Z Z));
  additions : gset (Z * Z * Z * Z)
}.

Definition empty_LinkMap : LinkMap := mkLinkMap ∅ ∅.

(** [self.maps.get(src, {}).get(target, {})] *)
Definition current_links (m : gmap Z (gmap Z (gmap Z Z))) (src_chain target_chain : Z)
    : gmap Z Z :=
  default ∅ (default ∅ (m !! src_chain) !! target_chain).

(** [self.maps.setdefault(src, {}).setdefault(target, {})], with the inner
    dictionary replaced by [links]. *)
Definition set_links (m : gmap Z (gmap Z (gmap Z Z))) (src_chain target_chain : Z)
    (links : gmap Z Z) : gmap Z (gmap Z (gmap Z Z)) :=
  <[src_chain := <[target_chain := links]> (default ∅ (m !! src_chain))]> m.

(** A current link that the new link crosses. *)
Definition redundant (src_seq target_seq : Z) (links : gmap Z Z) : bool :=
  existsb (λ '(current_seq_src, current_seq_target),
    (current_seq_src <=? src_seq)%Z && (target_seq <=? current_seq_target)%Z) (map_to_list links).

Definition add_link (lm : LinkMap) (src_tuple target_tuple : position) (new : bool)
    : result (bool * LinkMap) :=
  let '(src_chain, src_seq) := src_tuple in
  let '(target_chain, target_seq) := target_tuple in
  let links := current_links (maps lm) src_chain target_chain in
  _ ← raise_if (src_chain =? target_chain)%Z AssertionError;
  if new && redundant src_seq target_seq links
  then Ok (false, mkLinkMap (set_links (maps lm) src_chain target_chain links) (additions lm))
  else
    Ok (true,
        mkLinkMap (set_links (maps lm) src_chain target_chain (<[src_seq := target_seq]> links))
          (if new then {[(src_chain, src_seq, target_chain, target_seq)]} ∪ additions lm
           else additions lm)).

Definition get_additions (lm : LinkMap) : list (Z * Z * Z * Z) :=
  omap (λ '(src_chain, src_seq, target_chain, _),
    (λ target_seq, (src_chain, src_seq, target_chain, target_seq)) <$>
      current_links (maps lm) src_chain target_chain !! src_seq) (elements (additions lm)).

(** [for tc, links in self.maps.get(chain, {}).items(): for ss, ts in
    links.items()]: the triples [(ss, tc, ts)] in turn. *)
Definition links_from (lm : LinkMap) (chain : Z) : list (Z * Z * Z) :=
  '(tc, links) ← map_to_list (default ∅ (maps lm !! chain));
  '(ss, ts) ← map_to_list links;
  [(ss, tc, ts)].

Section exists_path.
Context (lm : LinkMap) (target_chain target_seq : Z).

(** The two [for] loops of one turn: [None] is [return True]. *)
Fixpoint follow (visited_chains : gmap Z Z) (seq : Z) (links : list (Z * Z * Z))
    (search : list position) : option (list position) :=
  match links with
  | [] => Some search
  | (ss, tc, ts) :: links =>
      if (ts <=? default 0 (visited_chains !! tc))%Z then follow visited_chains seq links search
      else if (ss <=? seq)%Z then
        if (tc =? target_chain)%Z then
          if (target_seq <=? ts)%Z then None else follow visited_chains seq links search
        else follow visited_chains seq links ((tc, ts) :: search)
      else follow visited_chains seq links search
  end.

Fixpoint path_loop (fuel : nat) (visited_chains : gmap Z Z) (search : list position)
    : option bool :=
  match search with
  | [] => Some false
  | (chain, seq) :: search =>
      match fuel with
      | 0 => None
      | S fuel =>
          let visited_chains :=
            <[chain := Z.max seq (default 0%Z (visited_chains !! chain))]> visited_chains in
          match follow visited_chains seq (links_from lm chain) search with
          | None => Some true
          | Some search => path_loop fuel visited_chains search
          end
      end
  end.
End exists_path.

(** All the links, in any order. *)
Definition all_links (lm : LinkMap) : list (Z * Z * Z) :=
  (map_to_list (maps lm)).*1 ≫= links_from lm.

(** After the first turn every turn that pushes follows one that visits the end
    of a link for the first time: [exists_path_from_total]. *)
Definition exists_path_from (lm : LinkMap) (src_tuple target_tuple : position) : option bool :=
  let '(src_chain, src_seq) := src_tuple in
  let '(target_chain, target_seq) := target_tuple in
  if (src_chain =? target_chain)%Z then Some (target_seq <=? src_seq)%Z
  else
    let n := length (all_links lm) in
    path_loop lm target_chain target_seq (S (n * (2 * n + 3))) ∅ [(src_chain, src_seq)].

(** ** Links fetched from the database *)

(** [dict[int, list[tuple[int, int, int]]]]: from the origin chain to the
    origin sequence number, the target chain and the target sequence number. *)
Abbreviation chain_links := (gmap Z (list (Z * Z * Z))).

(** [links.setdefault(c, []).append(l)] *)
Definition append_link (links : chain_links) (c : Z) (l : Z * Z * Z) : chain_links :=
  <[c := default [] (links !! c) ++ [l]]> links.

(** [MAX_CHAIN_LENGTH] *)
Definition MAX_CHAIN_LENGTH : Z := 2 ^ 53 - 1.

(** One link of the [for] loop of [_materialize]. *)
Definition visit_link (backwards : bool) (s : Z) (st : list position * gmap Z Z)
    (link : Z * Z * Z) : list position * gmap Z Z :=
  let '(stack, materialized) := st in
  let '(sequence_number, target_chain_id, target_sequence_number) := link in
  let push :=
    ((target_chain_id, target_sequence_number) :: stack,
     <[target_chain_id := target_sequence_number]> materialized) in
  if backwards then
    if (s <? sequence_number)%Z then st
    else if (default 0 (materialized !! target_chain_id) <? target_sequence_number)%Z then push
    else st
  else
    if (sequence_number <? s)%Z then st
    else if (target_sequence_number <? default MAX_CHAIN_LENGTH (materialized !! target_chain_id))%Z
    then push else st.

Fixpoint materialize_loop (fuel : nat) (backwards : bool) (links : chain_links)
    (stack : list position) (materialized : gmap Z Z) : option (gmap Z Z) :=
  match stack with
  | [] => Some materialized
  | (c, s) :: stack =>
      match fuel with
      | 0 => None
      | S fuel =>
          let '(stack, materialized) :=
            foldl (visit_link backwards s) (stack, materialized) (default [] (links !! c)) in
          materialize_loop fuel backwards links stack materialized
      end
  end.

Definition flat_links (links : chain_links) : list (Z * Z * Z * Z) :=
  '(c, ls) ← map_to_list links;
  '(seq, tc, ts) ← ls;
  [(c, seq, tc, ts)].

(** A link is pushed at most once: one turn per link, and one for the origin. *)
Definition _materialize (origin_chain_id origin_sequence_number : Z) (links : chain_links)
    (materialized : gmap Z Z) (backwards : bool) : option (gmap Z Z) :=
  materialize_loop (S (length (flat_links links))) backwards links
    [(origin_chain_id, origin_sequence_number)] materialized.

(** [_generate_forward_links] *)
Definition _generate_forward_links (links : chain_links) : chain_links :=
  foldl (λ new_links '(origin_chain_id, chain_links),
    foldl (λ new_links '(origin_seq_num, target_chain_id, target_seq_num),
      append_link new_links target_chain_id (target_seq_num, origin_chain_id, origin_seq_num))
      new_links (chain_links : list (Z * Z * Z)))
    ∅ (map_to_list links).

(** Run [f] over a list, stopping when the fuel runs out. *)
Fixpoint fold_opt {A S} (f : S → A → option S) (l : list A) (s : S) : option S :=
  match l with
  | [] => Some s
  | x :: l' => s' ← f s x; fold_opt f l' s'
  end.

Definition accumulate_forwards_reachable_events (conflicted_forwards_reachable : gmap Z Z)
    (back_links : chain_links) (conflicted_chain_positions : gmap string position)
    : option (gmap Z Z) :=
  let fwd_links := _generate_forward_links back_links in
  fold_opt (λ forwards '(_, (conflicted_chain_id, conflicted_chain_seq)),
    _materialize conflicted_chain_id conflicted_chain_seq fwd_links
      (<[conflicted_chain_id :=
           Z.min conflicted_chain_seq
             (default MAX_CHAIN_LENGTH (forwards !! conflicted_chain_id))]> forwards) false)
    (map_to_list conflicted_chain_positions) conflicted_forwards_reachable.

(** The table [event_auth_chain_links]: origin chain and sequence number, target
    chain and sequence number. *)
Abbreviation link_table := (list (Z * Z * Z * Z)).

(** The recursive part of the query: the chains [ids] and those that the links
    of the table lead to from them. *)
Fixpoint recursive_links (fuel : nat) (table : link_table) (ids : gset Z) : option (gset Z) :=
  let step : gset Z :=
    list_to_set (omap (λ '(origin, _, target, _),
      if decide (origin ∈ ids) then Some target else None) table) in
  if decide (step ⊆ ids) then Some ids
  else match fuel with 0 => None | S fuel => recursive_links fuel table (step ∪ ids) end.

(** The rows of the query for one batch of chains. *)
Definition select_chain_links (table : link_table) (batch : list Z) : option link_table :=
  let base : gset Z :=
    list_to_set (omap (λ '(origin, _, _, _),
      if decide (origin ∈ batch) then Some origin else None) table) in
  ids ← recursive_links (length table) table base;
  Some (filter (λ '(origin, _, _, _), origin ∈ ids) table).

Definition group_links (rows : link_table) : chain_links :=
  foldl (λ links '(origin, oseq, target, tseq), append_link links origin (oseq, target, tseq))
    ∅ rows.

(** The batches [_get_chain_links] yields. *)
Fixpoint chain_links_loop (fuel : nat) (table : link_table) (chains_to_fetch : gset Z)
    : option (list chain_links) :=
  if decide (chains_to_fetch = ∅) then Some []
  else
    match fuel with
    | 0 => None
    | S fuel =>
        let batch2 := take 1000 (elements chains_to_fetch) in
        rows ← select_chain_links table batch2;
        let links := group_links rows in
        rest ← chain_links_loop fuel table
                 (chains_to_fetch ∖ list_to_set batch2 ∖ dom links);
        Some (links :: rest)
    end.

Definition _get_chain_links (table : link_table) (chains_to_fetch : gset Z)
    : option (list chain_links) :=
  chain_links_loop (size chains_to_fetch) table chains_to_fetch.
