(* ===== verification/ChainLinksProps.v ===== *)
(** The walks over the links of the chain cover end, and find exactly what the
    links reach. *)
From stdpp Require Import ssreflect.
From S2P Require Import Prelude ChainLinks.

Lemma length_filter_impl {A} (P Q : A → Prop) `{!∀ x, Decision (P x), !∀ x, Decision (Q x)} l :
  (∀ x, P x → Q x) → length (filter P l) ≤ length (filter Q l).
Proof.
  intros HPQ. induction l as [|x l IH]; [done|]. rewrite !filter_cons.
  destruct (decide (P x)) as [Hp|]; [rewrite decide_True; [simpl; lia|by apply HPQ]|].
  case_decide; simpl; lia.
Qed.

(** ** Reachability

    A position reaches the lower positions of its chain, and from a link that
    starts at or below it whatever the end of the link reaches. *)
Inductive reach (link : position → position → Prop) : position → position → Prop :=
  | reach_chain c s s' : (s' ≤ s)%Z → reach link (c, s) (c, s')
  | reach_link c s s1 y z :
      (s1 ≤ s)%Z → link (c, s1) y → reach link y z → reach link (c, s) z.

Section reach.
Context (link : position → position → Prop).

Lemma reach_refl x : reach link x x.
Proof. destruct x. by constructor. Qed.

Lemma reach_up c s s' y : reach link (c, s) y → (s ≤ s')%Z → reach link (c, s') y.
Proof.
  intros H Hs. inversion H; subst.
  - constructor. lia.
  - econstructor; [|eassumption|eassumption]. lia.
Qed.

Lemma reach_trans x y z : reach link x y → reach link y z → reach link x z.
Proof.
  induction 1 as [c s s' ?|c s s1 y' z' ? ? ? IH]; intros H'.
  - by eapply reach_up.
  - econstructor; eauto.
Qed.

Lemma reach_down x c s s' : reach link x (c, s) → (s' ≤ s)%Z → reach link x (c, s').
Proof. intros H ?. eapply reach_trans; [exact H|]. by constructor. Qed.

Lemma reach_one x y : link x y → reach link x y.
Proof. destruct x. intros. eapply reach_link; [reflexivity|eassumption|apply reach_refl]. Qed.
End reach.

Lemma reach_impl (link link' : position → position → Prop) x y :
  (∀ a b, link a b → reach link' a b) → reach link x y → reach link' x y.
Proof.
  intros Hl. induction 1 as [|c s s1 y z ? Hlk ? IH]; [by constructor|].
  eapply reach_trans; [|exact IH]. eapply reach_up; [by apply Hl|done].
Qed.

Lemma reach_equiv (link link' : position → position → Prop) :
  (∀ a b, link a b → reach link' a b) → (∀ a b, link' a b → reach link a b) →
  ∀ x y, reach link x y ↔ reach link' x y.
Proof. intros H1 H2 x y. split; by apply reach_impl. Qed.

(** No path leads up a chain. *)
Definition descending (link : position → position → Prop) : Prop :=
  ∀ c s s', reach link (c, s) (c, s') → (s' ≤ s)%Z.

Definition positive (link : position → position → Prop) : Prop :=
  ∀ x c s, link x (c, s) → (1 ≤ s)%Z.

(** ** Link maps *)
Definition lm_link (lm : LinkMap) (x y : position) : Prop :=
  current_links (maps lm) x.1 y.1 !! x.2 = Some y.2.

Lemma elem_of_links_from lm c ss tc ts :
  (ss, tc, ts) ∈ links_from lm c ↔ lm_link lm (c, ss) (tc, ts).
Proof.
  unfold links_from, lm_link, current_links. rewrite list_elem_of_bind. split.
  - intros ([tc' links] & Hin & Hl). apply elem_of_map_to_list in Hl.
    apply list_elem_of_bind in Hin as ([ss' ts'] & Hin & Hs%elem_of_map_to_list).
    apply list_elem_of_singleton in Hin as [= -> -> ->]. simpl. by rewrite Hl.
  - simpl. intros H. destruct (default ∅ (maps lm !! c) !! tc) as [links|] eqn:E; simpl in H.
    + exists (tc, links). split; [|by apply elem_of_map_to_list].
      apply list_elem_of_bind. exists (ss, ts). split; [set_solver|by apply elem_of_map_to_list].
    + by rewrite lookup_empty in H.
Qed.

Lemma elem_of_all_links lm c ss tc ts :
  lm_link lm (c, ss) (tc, ts) → (ss, tc, ts) ∈ all_links lm.
Proof.
  intros H. unfold all_links. apply list_elem_of_bind. exists c.
  split; [by apply elem_of_links_from|].
  apply list_elem_of_fmap. destruct (maps lm !! c) as [m|] eqn:E.
  - exists (c, m). split; [done|by apply elem_of_map_to_list].
  - unfold lm_link, current_links in H. simpl in H. by rewrite E /= !lookup_empty in H.
Qed.

Lemma links_from_length lm c : length (links_from lm c) ≤ length (all_links lm).
Proof.
  unfold all_links. destruct (maps lm !! c) as [m|] eqn:E.
  - assert (c ∈ (map_to_list (maps lm)).*1) as Hin.
    { apply list_elem_of_fmap. exists (c, m). split; [done|by apply elem_of_map_to_list]. }
    apply list_elem_of_split in Hin as (l1 & l2 & ->).
    rewrite bind_app bind_cons !length_app. lia.
  - unfold links_from. rewrite E /= map_to_list_empty. simpl. lia.
Qed.

(** *** [exists_path_from] ends *)
Section path_total.
Context (lm : LinkMap) (tc tsq : Z).

Definition fresh (visited : gmap Z Z) (x : position) : Prop := (default 0 (visited !! x.1) < x.2)%Z.

#[local] Instance fresh_dec visited x : Decision (fresh visited x) := Z_lt_dec _ _.

(** The links whose end has not been visited. *)
Definition unseen (visited : gmap Z Z) : nat :=
  length (filter (λ '(_, c, s), fresh visited (c, s)) (all_links lm)).

Lemma follow_pushes visited seq links search search' :
  follow tc tsq visited seq links search = Some search' →
  ∃ new, search' = new ++ search ∧ length new ≤ length links ∧
    ∀ x, x ∈ new → fresh visited x ∧ ∃ ss, (ss, x.1, x.2) ∈ links.
Proof.
  revert search. induction links as [|[[ss c] s] links IH]; intros search H; simpl in H.
  - injection H as <-. exists []. set_solver.
  - assert (∀ search0, follow tc tsq visited seq links search0 = Some search' →
      ∃ new, search' = new ++ search0 ∧ length new ≤ S (length links) ∧
        ∀ x, x ∈ new → fresh visited x ∧ ∃ ss', (ss', x.1, x.2) ∈ (ss, c, s) :: links) as Hgo.
    { intros search0 Hs. destruct (IH _ Hs) as (new & -> & ? & Hn). exists new.
      split; [done|]. split; [lia|]. intros x Hx. destruct (Hn _ Hx) as (? & ss' & ?).
      split; [done|]. exists ss'. by right. }
    repeat (case_match; try done); try (by apply Hgo).
    destruct (IH _ H) as (new & -> & ? & Hn). exists (new ++ [(c, s)]).
    split; [by rewrite -app_assoc|]. split; [rewrite length_app /=; lia|].
    intros x [Hx|Hx%list_elem_of_singleton]%elem_of_app.
    + destruct (Hn _ Hx) as (? & ss' & ?). split; [done|]. exists ss'. by right.
    + subst x. split; [unfold fresh; simpl; lia|]. exists ss. by left.
Qed.

Definition visit (visited : gmap Z Z) (x : position) : gmap Z Z :=
  <[x.1 := Z.max x.2 (default 0%Z (visited !! x.1))]> visited.

Lemma fresh_visit visited x y : fresh (visit visited x) y → fresh visited y ∧ y ≠ x.
Proof.
  unfold fresh, visit. destruct x as [c s], y as [c' s']; simpl.
  destruct (decide (c = c')) as [->|]; [rewrite lookup_insert_eq|rewrite lookup_insert_ne //].
  - simpl. intros. split; [lia|]. intros [=]. lia.
  - intros. split; [done|congruence].
Qed.

Lemma unseen_mono visited x l :
  length (filter (λ '(_, c, s), fresh (visit visited x) (c, s)) l) ≤
  length (filter (λ '(_, c, s), fresh visited (c, s)) (l : list (Z * Z * Z))).
Proof. apply length_filter_impl. intros [[? ?] ?] [? _]%fresh_visit. done. Qed.

Lemma unseen_visit visited x : unseen (visit visited x) ≤ unseen visited.
Proof. apply unseen_mono. Qed.

Lemma unseen_visit_lt visited x ss :
  fresh visited x → (ss, x.1, x.2) ∈ all_links lm → unseen (visit visited x) < unseen visited.
Proof.
  intros Hf (l1 & l2 & Hl)%list_elem_of_split.
  unfold unseen. rewrite Hl !filter_app !filter_cons !length_app.
  destruct x as [c s]. simpl in *.
  rewrite decide_False; [|intros [??]%fresh_visit; done].
  rewrite decide_True //. simpl.
  pose proof (unseen_mono visited (c, s) l1). pose proof (unseen_mono visited (c, s) l2). lia.
Qed.

(** The potential of the loop. *)
Definition path_potential (visited : gmap Z Z) (search : list position) : nat :=
  let n := length (all_links lm) in
  unseen visited * (2 * n + 2) + length search +
  match search with
  | x :: _ => if decide (fresh visited x) then 0 else S n
  | [] => 0
  end.

Lemma path_turn visited x search search' :
  (∃ ss, (ss, x.1, x.2) ∈ all_links lm) →
  follow tc tsq (visit visited x) x.2 (links_from lm x.1) search = Some search' →
  path_potential (visit visited x) search' < path_potential visited (x :: search).
Proof.
  intros [ss Hx] H. apply follow_pushes in H as (new & -> & Hlen & Hnew).
  pose proof (links_from_length lm x.1) as Hle. unfold path_potential.
  set (n := length (all_links lm)) in *. rewrite length_app.
  destruct (decide (fresh visited x)) as [Hf|Hf].
  - pose proof (unseen_visit_lt visited x ss Hf Hx) as Hlt.
    assert (unseen (visit visited x) * (2 * n + 2) + (2 * n + 2) ≤ unseen visited * (2 * n + 2))
      by nia.
    cbn [length]. destruct (new ++ search); [lia|case_decide; lia].
  - pose proof (unseen_visit visited x) as Hun. destruct new as [|y new].
    + simpl. destruct search as [|y search]; [nia|]. case_decide; simpl; nia.
    + simpl in *. rewrite decide_True; [nia|apply Hnew; by left].
Qed.

Lemma path_loop_total fuel visited search :
  (∀ x, x ∈ search → ∃ ss, (ss, x.1, x.2) ∈ all_links lm) →
  path_potential visited search ≤ fuel →
  ∃ b, path_loop lm tc tsq fuel visited search = Some b.
Proof.
  revert visited search. induction fuel as [|fuel IH]; intros visited search Hs Hp.
  - destruct search as [|x search]; [by eexists|]. unfold path_potential in Hp. simpl in Hp. lia.
  - destruct search as [|[c s] search]; [by eexists|]. cbn [path_loop].
    change (<[c := _]> visited) with (visit visited (c, s)).
    destruct (follow _ _ _ _ _ _) as [search'|] eqn:E; [|by eexists].
    apply IH.
    + apply follow_pushes in E as (new & -> & _ & Hnew). intros x [Hx|Hx]%elem_of_app.
      * destruct (Hnew _ Hx) as (_ & ss & Hss). exists ss. destruct x.
        by eapply elem_of_all_links, elem_of_links_from.
      * apply Hs. by right.
    + assert (path_potential (visit visited (c, s)) search' <
        path_potential visited ((c, s) :: search)); [|lia].
      apply path_turn; [|done]. apply Hs. by left.
Qed.
End path_total.

(** The search ends, whatever the links. *)
Lemma exists_path_from_total lm x y : ∃ b, exists_path_from lm x y = Some b.
Proof.
  destruct x as [c s], y as [tc tsq]. unfold exists_path_from.
  destruct (c =? tc)%Z; [by eexists|].
  set (n := length (all_links lm)). cbn [path_loop].
  change (<[c := _]> ∅) with (visit ∅ (c, s)).
  destruct (follow _ _ _ _ _ _) as [search'|] eqn:E; [|by eexists].
  apply follow_pushes in E as (new & -> & Hlen & Hnew). rewrite app_nil_r.
  pose proof (links_from_length lm c) as Hle.
  apply path_loop_total.
  - intros x Hx. destruct (Hnew _ Hx) as (_ & ss & Hss). exists ss. destruct x.
    by eapply elem_of_all_links, elem_of_links_from.
  - unfold path_potential. fold n. fold n in Hle.
    assert (unseen lm (visit ∅ (c, s)) ≤ n) by (apply length_filter).
    destruct new as [|y new]; simpl in *; [nia|].
    rewrite decide_True; [nia|apply Hnew; by left].
Qed.

(** *** [exists_path_from] is right *)
Section path_correct.
Context (lm : LinkMap) (tc tsq : Z).
Abbreviation L := (lm_link lm).

Lemma follow_true visited seq links search :
  follow tc tsq visited seq links search = None →
  ∃ ss ts, (ss, tc, ts) ∈ links ∧ (ss ≤ seq)%Z ∧ (tsq ≤ ts)%Z.
Proof.
  revert search. induction links as [|[[ss c] s] links IH]; intros search H; simpl in H; [done|].
  destruct (s <=? _)%Z; [|destruct (ss <=? seq)%Z eqn:?; [destruct (c =? tc)%Z eqn:?;
    [destruct (tsq <=? s)%Z eqn:?|]|]].
  2: { exists ss, s. replace c with tc by lia. split; [by left|lia]. }
  all: destruct (IH _ H) as (ss' & ts' & ? & ? & ?); exists ss', ts'; (split; [by right|done]).
Qed.

(** What a turn that does not find the target leaves. *)
Lemma follow_false visited seq links search search' :
  follow tc tsq visited seq links search = Some search' →
  (∀ x, x ∈ search → x ∈ search') ∧
  (∀ x, x ∈ search' → x ∈ search ∨ ∃ ss, (ss, x.1, x.2) ∈ links ∧ (ss ≤ seq)%Z ∧ x.1 ≠ tc) ∧
  (∀ ss c s, (ss, c, s) ∈ links → (ss ≤ seq)%Z →
    (s ≤ default 0 (visited !! c))%Z ∨ (c = tc ∧ (s < tsq)%Z) ∨ (c, s) ∈ search').
Proof.
  revert search. induction links as [|[[ss c] s] links IH]; intros search H; simpl in H.
  - injection H as <-. set_solver.
  - destruct (s <=? _)%Z eqn:?; [|destruct (ss <=? seq)%Z eqn:?; [destruct (c =? tc)%Z eqn:?;
      [destruct (tsq <=? s)%Z eqn:?; [done|]|]|]].
    all: destruct (IH _ H) as (H1 & H2 & H3); split_and!.
    all: try (intros x Hx; apply H1; set_solver).
    all: try (intros x Hx; destruct (H2 _ Hx) as [?|(ss' & ? & ?)];
      [|right; exists ss'; split; [by right|done]]).
    all: try (by left).
    all: try (intros ss' c' s' [[= -> -> ->]|Hin]%elem_of_cons Hle; [|by eapply H3]).
    + left. lia.
    + right; left. lia.
    + apply elem_of_cons in H0 as [->|?]; [|by left]. right. exists ss. simpl.
      split; [by left|]. lia.
    + right; right. apply H1. by left.
    + lia.
Qed.

Record path_inv (src : position) (visited : gmap Z Z) (search : list position) : Prop := {
  pi_search x : x ∈ search → reach L src x ∧ x.1 ≠ tc ∧ (1 ≤ x.2)%Z;
  pi_src : src ∈ search ∨ (src.2 ≤ default 0 (visited !! src.1))%Z;
  pi_target : visited !! tc = None;
  pi_closed c v ss t ts :
    visited !! c = Some v → (ss ≤ v)%Z → L (c, ss) (t, ts) →
    (ts ≤ default 0 (visited !! t))%Z ∨ (t = tc ∧ (ts < tsq)%Z) ∨ (t, ts) ∈ search
}.

Lemma visit_le visited x c :
  (default 0 (visited !! c) ≤ default 0 (visit visited x !! c))%Z.
Proof.
  unfold visit. destruct (decide (x.1 = c)) as [<-|];
    [rewrite lookup_insert_eq|rewrite lookup_insert_ne //]; simpl; lia.
Qed.

Lemma visit_self visited x : (x.2 ≤ default 0 (visit visited x !! x.1))%Z.
Proof. unfold visit. rewrite lookup_insert_eq. simpl. lia. Qed.

Context (Hpos : positive L).

Lemma path_inv_turn src visited x search search' :
  path_inv src visited (x :: search) →
  follow tc tsq (visit visited x) x.2 (links_from lm x.1) search = Some search' →
  path_inv src (visit visited x) search'.
Proof.
  intros [Hs Hsrc Ht Hcl] (H1 & H2 & H3)%follow_false.
  destruct (Hs x) as (Hx & Hxt & Hx1); [by left|]. split.
  - intros y [Hy|(ss & Hin & Hss & Hy)]%H2; [apply Hs; by right|].
    destruct y as [c s]. apply elem_of_links_from in Hin. simpl in *.
    split_and!; [|done|by eapply Hpos]. eapply reach_trans; [exact Hx|]. destruct x as [c0 s0].
    econstructor; [exact Hss|exact Hin|apply reach_refl].
  - destruct Hsrc as [[->|?]%elem_of_cons|?].
    + right. apply visit_self.
    + left. by apply H1.
    + right. pose proof (visit_le visited x src.1). lia.
  - unfold visit. by rewrite lookup_insert_ne.
  - intros c v ss t ts Hc Hle Hl.
    assert (∀ v0, visited !! c = Some v0 → (ss ≤ v0)%Z →
      (ts ≤ default 0 (visit visited x !! t))%Z ∨ t = tc ∧ (ts < tsq)%Z ∨ (t, ts) ∈ search') as Hold.
    { intros v0 Hc0 Hle0. destruct (Hcl c v0 ss t ts) as [?|[?|[<-|?]%elem_of_cons]]; try done.
      - left. pose proof (visit_le visited x t). lia.
      - by right; left.
      - left. apply (visit_self visited (t, ts)).
      - right; right. by apply H1. }
    unfold visit in Hc. destruct (decide (x.1 = c)) as [<-|Hne].
    + rewrite lookup_insert_eq in Hc. injection Hc as <-.
      destruct (decide (ss ≤ x.2)%Z) as [Hss|Hss].
      * apply (H3 ss t ts); [|done]. by apply elem_of_links_from.
      * destruct (visited !! x.1) as [v0|] eqn:E; simpl in Hle; [|lia].
        apply (Hold v0); [done|lia].
    + rewrite lookup_insert_ne // in Hc. by apply (Hold v).
Qed.

Context (Hdesc : descending L).

(** Nothing that a finished search visited reaches the target. *)
Lemma path_inv_done src visited x y :
  path_inv src visited [] → reach L x y → y = (tc, tsq) →
  x.1 ≠ tc → (1 ≤ x.2)%Z → (x.2 ≤ default 0 (visited !! x.1))%Z → False.
Proof.
  intros [_ _ Ht Hcl]. induction 1 as [c s s' Hs|c s s1 [t ts] z Hs Hl Hr IH]; intros Hy Hn H1 Hv.
  - by injection Hy as <- _.
  - simpl in *. destruct (visited !! c) as [v|] eqn:E; simpl in Hv; [|lia].
    pose proof (Hpos _ _ _ Hl) as Hts.
    destruct (Hcl c v s1 t ts) as [Hle|[[-> Hlt]|Hin]]; [done|lia|done| | |by apply elem_of_nil in Hin].
    + destruct (decide (t = tc)) as [->|]; [rewrite Ht /= in Hle; lia|]. by apply IH.
    + subst z. apply Hdesc in Hr. lia.
Qed.

Lemma path_loop_correct fuel src visited search b :
  path_inv src visited search → src.1 ≠ tc → (1 ≤ src.2)%Z →
  path_loop lm tc tsq fuel visited search = Some b →
  b = true ↔ reach L src (tc, tsq).
Proof.
  intros Hinv Hsrc Hsrc1. revert visited search Hinv.
  induction fuel as [|fuel IH]; intros visited [|[c s] search] Hinv H; simpl in H; try done.
  1, 2: injection H as <-; split; [done|]; intros Hr; exfalso;
    destruct (pi_src _ _ _ Hinv) as [?%elem_of_nil|?]; [done|];
    by eapply path_inv_done.
  change (<[c := _]> visited) with (visit visited (c, s)) in H.
  destruct (follow _ _ _ _ _ _) as [search'|] eqn:E.
  - eapply IH; [|exact H]. by eapply path_inv_turn.
  - injection H as <-. split; [intros _|done]. apply follow_true in E as (ss & ts & Hin & Hss & Hts).
    apply elem_of_links_from in Hin. destruct (pi_search _ _ _ Hinv (c, s)) as [Hr _]; [by left|].
    eapply reach_trans; [exact Hr|]. eapply reach_link; [exact Hss|exact Hin|by constructor].
Qed.
End path_correct.

(** On the links of an acyclic graph the search answers whether there is a path. *)
Lemma exists_path_from_reach lm x y :
  positive (lm_link lm) → descending (lm_link lm) → (1 ≤ x.2)%Z →
  ∃ b, exists_path_from lm x y = Some b ∧ (b = true ↔ reach (lm_link lm) x y).
Proof.
  intros Hpos Hdesc Hx. destruct (exists_path_from_total lm x y) as [b Hb]. exists b.
  split; [done|]. destruct x as [c s], y as [tc tsq]. unfold exists_path_from in Hb. simpl in Hx.
  destruct (Z.eqb_spec c tc) as [->|Hne].
  - injection Hb as <-. split; [intros; constructor; lia|]. intros ?%Hdesc. lia.
  - eapply path_loop_correct; [done|done| |done|done|exact Hb]. split; simpl.
    + intros x ->%list_elem_of_singleton. split_and!; [apply reach_refl|done|done].
    + left. by left.
    + done.
    + intros *. by rewrite lookup_empty.
Qed.

(** *** [add_link] *)
Lemma current_links_set m a b l c t :
  current_links (set_links m a b l) c t =
  if decide (c = a ∧ t = b) then l else current_links m c t.
Proof.
  unfold current_links, set_links. case_decide as Hd.
  - destruct Hd as [-> ->]. by rewrite lookup_insert_eq /= lookup_insert_eq.
  - destruct (decide (c = a)) as [->|]; [|by rewrite lookup_insert_ne].
    rewrite lookup_insert_eq /= lookup_insert_ne //. naive_solver.
Qed.

(** The links with one more. *)
Definition with_link (link : position → position → Prop) (x y a b : position) : Prop :=
  link a b ∨ (a = x ∧ b = y).

Lemma add_link_same_chain lm x y new : x.1 = y.1 → add_link lm x y new = Raise AssertionError.
Proof. destruct x, y; simpl. intros ->. by rewrite Z.eqb_refl. Qed.

(** A stored link is added as it is, if no other leads from its start to the
    chain of its end. *)
Lemma add_link_stored lm x y :
  x.1 ≠ y.1 → (∀ s, lm_link lm x (y.1, s) → s = y.2) →
  ∃ lm', add_link lm x y false = Ok (true, lm') ∧
    ∀ a b, lm_link lm' a b ↔ with_link (lm_link lm) x y a b.
Proof.
  destruct x as [c s], y as [t ts]. simpl. intros Hne Huniq.
  rewrite (proj2 (Z.eqb_neq c t)) //. simpl. eexists. split; [done|].
  intros [c' s'] [t' ts']. unfold lm_link, with_link in *. simpl in *. rewrite current_links_set.
  case_decide as Hd; [destruct Hd as [-> ->]|].
  - destruct (decide (s = s')) as [->|Hs].
    + rewrite lookup_insert_eq. split; [intros [= ->]; by right|].
      intros [H|[_ [=->]]]; [|done]. by rewrite (Huniq _ H).
    + rewrite lookup_insert_ne //. naive_solver.
  - naive_solver.
Qed.

(** A new link changes what is reachable as if it were added, also when it is
    dropped as redundant or replaces a lower one. *)
Lemma add_link_reach lm x y :
  x.1 ≠ y.1 →
  ∃ b lm', add_link lm x y true = Ok (b, lm') ∧
    (∀ a z, reach (lm_link lm') a z ↔ reach (with_link (lm_link lm) x y) a z) ∧
    (∀ a z, lm_link lm' a z → with_link (lm_link lm) x y a z).
Proof.
  destruct x as [c s], y as [t ts]. simpl. intros Hne.
  rewrite (proj2 (Z.eqb_neq c t)) //. simpl.
  destruct (redundant s ts (current_links (maps lm) c t)) eqn:Hred; eexists _, _; split; try done.
  - assert (∀ a z, lm_link (mkLinkMap (set_links (maps lm) c t (current_links (maps lm) c t))
      (additions lm)) a z ↔ lm_link lm a z) as Heq.
    { intros a z. unfold lm_link. simpl. rewrite current_links_set.
      case_decide as Hd; [by destruct Hd as [-> ->]|done]. }
    split; [|intros a z ?%Heq; by left]. apply reach_equiv.
    + intros a z ?%Heq. apply reach_one. by left.
    + intros a z [?|[-> ->]]; [by apply reach_one, Heq|].
      apply existsb_exists in Hred as ([s1 t1] & Hin & [??]%andb_true_iff).
      apply list_elem_of_In, elem_of_map_to_list in Hin.
      eapply (reach_link _ _ _ s1 (t, t1)); [lia|by apply Heq|constructor; lia].
  - assert (∀ a z, lm_link (mkLinkMap
      (set_links (maps lm) c t (<[s:=ts]> (current_links (maps lm) c t)))
      ({[(c, s, t, ts)]} ∪ additions lm)) a z ↔
      (a = (c, s) ∧ z = (t, ts)) ∨ (lm_link lm a z ∧ (a = (c, s) → z.1 ≠ t))) as Heq.
    { intros [c' s'] [t' ts']. unfold lm_link. simpl. rewrite current_links_set.
      case_decide as Hd; [destruct Hd as [-> ->]|naive_solver].
      destruct (decide (s = s')) as [->|]; [rewrite lookup_insert_eq|rewrite lookup_insert_ne //];
        naive_solver. }
    split; [|intros a z [?|[??]]%Heq; [by right|by left]]. apply reach_equiv.
    + intros a z Hl%Heq. apply reach_one. destruct Hl as [?|[??]]; [by right|by left].
    + intros a z [Hl|[-> ->]]; [|apply reach_one, Heq; by left].
      destruct (decide (a = (c, s) ∧ z.1 = t)) as [[-> Hz]|Hd]; [|apply reach_one, Heq; naive_solver].
      destruct z as [t' t1]. simpl in Hz. subst t'.
      eapply reach_link; [reflexivity|apply Heq; by left|]. constructor.
      unfold redundant in Hred. destruct (decide (t1 ≤ ts)%Z) as [|Hgt]; [done|].
      exfalso. assert (existsb (λ '(current_seq_src, current_seq_target),
        (current_seq_src <=? s)%Z && (ts <=? current_seq_target)%Z)
        (map_to_list (current_links (maps lm) c t)) = true) as Ht; [|congruence].
      apply existsb_exists. exists (s, t1). split; [|apply andb_true_iff; lia].
      by apply list_elem_of_In, elem_of_map_to_list.
Qed.
