(* ===== verification/ChainLinksWalk.v ===== *)
(** [_materialize] computes the closure of the links, in both directions, and
    [_get_chain_links] fetches every link that a walk from the given chains can
    take. *)
From stdpp Require Import ssreflect.
From S2P Require Import Prelude ChainLinks ChainLinksProps.

(** The links of a fetched dictionary, and of the table. *)
Definition cl_link (links : chain_links) (x y : position) : Prop :=
  (x.2, y.1, y.2) ∈ default [] (links !! x.1).

Definition table_link (table : link_table) (x y : position) : Prop :=
  (x.1, x.2, y.1, y.2) ∈ table.

Lemma elem_of_flat_links links c s t ts :
  (c, s, t, ts) ∈ flat_links links ↔ cl_link links (c, s) (t, ts).
Proof.
  unfold flat_links, cl_link. simpl. rewrite list_elem_of_bind. split.
  - intros ([c' ls] & Hin & Hl%elem_of_map_to_list).
    apply list_elem_of_bind in Hin as ([[s' t'] ts'] & Hin & Hs).
    apply list_elem_of_singleton in Hin as [= -> -> -> ->]. by rewrite Hl.
  - intros H. destruct (links !! c) as [ls|] eqn:E; simpl in H; [|by apply elem_of_nil in H].
    exists (c, ls). split; [|by apply elem_of_map_to_list].
    apply list_elem_of_bind. exists (s, t, ts). split; [set_solver|done].
Qed.

(** ** [_materialize] *)

(** Walking backwards a sequence number covers the lower ones, walking forwards
    the higher ones. *)
Definition covers (backwards : bool) (x y : Z) : Prop :=
  if backwards then (y ≤ x)%Z else (x ≤ y)%Z.

#[export] Instance covers_dec b x y : Decision (covers b x y).
Proof. destruct b; unfold covers; apply _. Defined.

Lemma covers_refl b x : covers b x x.
Proof. destruct b; simpl; lia. Qed.

Lemma covers_trans b x y z : covers b x y → covers b y z → covers b x z.
Proof. destruct b; simpl; lia. Qed.

Definition level (backwards : bool) (materialized : gmap Z Z) (c : Z) : Z :=
  default (if backwards then 0%Z else MAX_CHAIN_LENGTH) (materialized !! c).

Definition explored (b : bool) (links : chain_links) (mat : gmap Z Z) (c s : Z) : Prop :=
  ∀ q t ts, cl_link links (c, q) (t, ts) → covers b s q → covers b (level b mat t) ts.

Definition mat_le (b : bool) (mat mat' : gmap Z Z) : Prop :=
  ∀ c, covers b (level b mat' c) (level b mat c).

Lemma mat_le_refl b mat : mat_le b mat mat.
Proof. intros c. apply covers_refl. Qed.

Lemma mat_le_trans b m1 m2 m3 : mat_le b m1 m2 → mat_le b m2 m3 → mat_le b m1 m3.
Proof. intros H1 H2 c. eapply covers_trans; [apply H2|apply H1]. Qed.

Lemma explored_mono b links mat mat' c s s' :
  explored b links mat c s → mat_le b mat mat' → covers b s s' → explored b links mat' c s'.
Proof.
  intros H Hle Hs q t ts Hl Hq. eapply covers_trans; [apply Hle|].
  eapply H; [exact Hl|]. by eapply covers_trans.
Qed.

Lemma visit_link_eq b s stack mat q t ts :
  visit_link b s (stack, mat) (q, t, ts) =
  if decide (covers b s q ∧ ¬ covers b (level b mat t) ts)
  then ((t, ts) :: stack, <[t := ts]> mat) else (stack, mat).
Proof.
  unfold visit_link, level, covers. destruct b; repeat case_match; try done; exfalso; lia.
Qed.

Section materialize.
Context (b : bool) (links : chain_links).

(** The links whose end is not covered yet. *)
Definition uncovered (mat : gmap Z Z) : nat :=
  length (filter (λ '(_, _, t, ts), ¬ covers b (level b mat t) ts) (flat_links links)).

Lemma level_insert mat t ts c :
  level b (<[t := ts]> mat) c = if decide (c = t) then ts else level b mat c.
Proof.
  unfold level. case_decide; subst; [by rewrite lookup_insert_eq|by rewrite lookup_insert_ne].
Qed.

Lemma mat_le_push mat t ts : ¬ covers b (level b mat t) ts → mat_le b mat (<[t := ts]> mat).
Proof.
  intros H c. rewrite level_insert. case_decide; [subst|apply covers_refl].
  destruct b; simpl in *; lia.
Qed.

Lemma uncovered_push mat c q t ts :
  cl_link links (c, q) (t, ts) → ¬ covers b (level b mat t) ts →
  uncovered (<[t := ts]> mat) < uncovered mat.
Proof.
  intros Hl%elem_of_flat_links Hn. apply list_elem_of_split in Hl as (l1 & l2 & Hl).
  pose proof (mat_le_push mat t ts Hn) as Hle.
  assert (∀ l : link_table,
    length (filter (λ '(_, _, t0, ts0), ¬ covers b (level b (<[t:=ts]> mat) t0) ts0) l) ≤
    length (filter (λ '(_, _, t0, ts0), ¬ covers b (level b mat t0) ts0) l)) as Hmono.
  { intros l. apply length_filter_impl. intros [[[? ?] t0] ts0] H1 H2. apply H1.
    eapply covers_trans; [apply Hle|exact H2]. }
  unfold uncovered. rewrite Hl !filter_app !filter_cons !length_app.
  rewrite decide_False; [|rewrite level_insert decide_True //; pose proof (covers_refl b ts); tauto].
  rewrite decide_True //. simpl. pose proof (Hmono l1). pose proof (Hmono l2). lia.
Qed.

(** One turn of the loop. *)
Lemma visit_links_spec c s ls stack mat stack' mat' :
  (∀ q t ts, (q, t, ts) ∈ ls → cl_link links (c, q) (t, ts)) →
  foldl (visit_link b s) (stack, mat) ls = (stack', mat') →
  mat_le b mat mat' ∧ (∀ x, x ∈ stack → x ∈ stack') ∧
  (∀ q t ts, (q, t, ts) ∈ ls → covers b s q → covers b (level b mat' t) ts) ∧
  (∀ c', level b mat' c' = level b mat c' ∨ (c', level b mat' c') ∈ stack') ∧
  length stack' + uncovered mat' ≤ length stack + uncovered mat.
Proof.
  revert stack mat. induction ls as [|[[q t] ts] ls IH]; intros stack mat Hls H.
  { injection H as <- <-. split_and!; [apply mat_le_refl|done|set_solver|by left|done]. }
  cbn [foldl] in H. rewrite visit_link_eq in H.
  case_decide as Hd.
  - destruct Hd as [Hq Hn].
    apply IH in H as (H1 & H2 & H3 & H4 & H5); [|intros; apply Hls; by right].
    pose proof (mat_le_push mat t ts Hn) as Hp. split_and!.
    + by eapply mat_le_trans.
    + intros x Hx. apply H2. by right.
    + intros q' t' ts' [[= -> -> ->]|Hin]%elem_of_cons Hq'; [|by eapply H3].
      specialize (H1 t). rewrite level_insert decide_True // in H1.
    + intros c'. destruct (H4 c') as [E|?]; [|by right]. rewrite level_insert in E.
      case_decide as Hct; [|by left]. right. apply H2. rewrite E Hct. by left.
    + pose proof (uncovered_push mat c q t ts (Hls q t ts ltac:(by left)) Hn). simpl in *. lia.
  - apply IH in H as (H1 & H2 & H3 & H4 & H5); [|intros; apply Hls; by right].
    split_and!; try done. intros q' t' ts' [[= -> -> ->]|Hin]%elem_of_cons Hq'; [|by eapply H3].
    eapply covers_trans; [apply H1|]. destruct (decide (covers b (level b mat t) ts)); [done|].
    by destruct Hd.
Qed.

Definition loop_inv (c0 s0 : Z) (mat0 : gmap Z Z) (stack : list position) (mat : gmap Z Z) : Prop :=
  mat_le b mat0 mat ∧
  ∀ c s, (c = c0 ∧ s = s0) ∨ (level b mat c ≠ level b mat0 c ∧ s = level b mat c) →
    (∃ s', (c, s') ∈ stack ∧ covers b s' s) ∨ explored b links mat c s.

Lemma loop_inv_turn c0 s0 mat0 c s stack mat stack' mat' :
  loop_inv c0 s0 mat0 ((c, s) :: stack) mat →
  foldl (visit_link b s) (stack, mat) (default [] (links !! c)) = (stack', mat') →
  loop_inv c0 s0 mat0 stack' mat'.
Proof.
  intros [Hle Hinv] H. apply (visit_links_spec c) in H as (H1 & H2 & H3 & H4 & _); [|done].
  split; [by eapply mat_le_trans|]. intros c' s' Hcase.
  assert (∀ s'', (∃ q, (c', q) ∈ (c, s) :: stack ∧ covers b q s'') ∨ explored b links mat c' s'' →
    (∃ q, (c', q) ∈ stack' ∧ covers b q s'') ∨ explored b links mat' c' s'') as Hgo.
  { intros s'' [(q & [[= -> ->]|Hin]%elem_of_cons & Hq)|He].
    - right. intros q' t ts Hl Hq'. eapply H3; [exact Hl|]. by eapply covers_trans.
    - left. exists q. split; [by apply H2|done].
    - right. eapply explored_mono; [exact He|done|apply covers_refl]. }
  destruct Hcase as [Ho|[Hch ->]]; [apply Hgo, Hinv; by left|].
  destruct (H4 c') as [E|Hin].
  - rewrite E. apply Hgo, Hinv. right. rewrite E in Hch. done.
  - left. eexists. split; [exact Hin|apply covers_refl].
Qed.

Lemma materialize_loop_spec c0 s0 mat0 fuel stack mat :
  loop_inv c0 s0 mat0 stack mat → length stack + uncovered mat ≤ fuel →
  ∃ mat', materialize_loop fuel b links stack mat = Some mat' ∧ loop_inv c0 s0 mat0 [] mat'.
Proof.
  revert stack mat. induction fuel as [|fuel IH]; intros [|[c s] stack] mat Hinv Hf; simpl in Hf;
    try (by eexists). { lia. }
  simpl. destruct (foldl _ _ _) as [stack' mat'] eqn:E. apply IH.
  - by eapply loop_inv_turn.
  - apply (visit_links_spec c) in E as (_ & _ & _ & _ & Hlen); [|done]. lia.
Qed.

(** The walk ends; the origin and every chain whose level changed are explored. *)
Lemma materialize_spec c s mat :
  ∃ mat', _materialize c s links mat b = Some mat' ∧ mat_le b mat mat' ∧
    explored b links mat' c s ∧
    ∀ c', level b mat' c' = level b mat c' ∨ explored b links mat' c' (level b mat' c').
Proof.
  destruct (materialize_loop_spec c s mat (S (length (flat_links links))) [(c, s)] mat)
    as (mat' & Hm & Hle & Hinv).
  - split; [apply mat_le_refl|]. intros c' s' [[-> ->]|[? _]]; [|done].
    left. exists s. split; [by left|apply covers_refl].
  - simpl. assert (uncovered mat ≤ length (flat_links links)) by apply length_filter. lia.
  - exists mat'. split_and!; [exact Hm|done| |].
    + destruct (Hinv c s) as [(? & ?%elem_of_nil & _)|?]; [by left|done|done].
    + intros c'. destruct (decide (level b mat' c' = level b mat c')) as [|Hne]; [by left|].
      right. destruct (Hinv c' (level b mat' c')) as [(? & ?%elem_of_nil & _)|?]; [by right|done|done].
Qed.

(** The walk adds only the ends [Q] of links from positions [P] it has come to. *)
Section sound.
Context (P Q : position → Prop) (HQP : ∀ x, Q x → P x).
Context (HP : ∀ c s q t ts, P (c, s) → cl_link links (c, q) (t, ts) → covers b s q → Q (t, ts)).

Lemma visit_links_sound c s ls stack mat stack' mat' :
  (∀ q t ts, (q, t, ts) ∈ ls → cl_link links (c, q) (t, ts)) → P (c, s) →
  foldl (visit_link b s) (stack, mat) ls = (stack', mat') →
  (∀ x, x ∈ stack → P x) → (∀ c' m, mat !! c' = Some m → Q (c', m)) →
  (∀ x, x ∈ stack' → P x) ∧ (∀ c' m, mat' !! c' = Some m → Q (c', m)).
Proof.
  intros Hls Hc. revert stack mat.
  induction ls as [|[[q t] ts] ls IH]; intros stack mat H Hst Hmat.
  { by injection H as <- <-. }
  cbn [foldl] in H. rewrite visit_link_eq in H.
  case_decide as Hd; (eapply IH; [intros; apply Hls; by right|exact H| |]); try done.
  all: assert (Q (t, ts)) by (eapply HP; [exact Hc|apply Hls; by left|apply Hd]).
  - intros x [->|?]%elem_of_cons; [by apply HQP|by apply Hst].
  - intros c' m [[<- <-]|[_ ?]]%lookup_insert_Some; [done|by apply Hmat].
Qed.

Lemma materialize_sound c s mat mat' :
  _materialize c s links mat b = Some mat' → P (c, s) →
  (∀ c' m, mat !! c' = Some m → Q (c', m)) → ∀ c' m, mat' !! c' = Some m → Q (c', m).
Proof.
  unfold _materialize. intros Hm Hc Hmat.
  assert (∀ x, x ∈ [(c, s)] → P x) as Hst by (by intros x ->%list_elem_of_singleton).
  clear Hc. revert Hm Hst Hmat. generalize (S (length (flat_links links))) as fuel.
  generalize [(c, s)] as stack. intros stack fuel. revert stack mat.
  induction fuel as [|fuel IH]; intros [|[c1 s1] stack] mat Hm Hst Hmat; simpl in Hm; try done.
  1, 2: by injection Hm as <-.
  destruct (foldl _ _ _) as [stack' mat1] eqn:E.
  apply (visit_links_sound c1) in E as [H1 H2]; [|done|apply Hst; by left|
    intros x Hx; apply Hst; by right|done].
  eapply IH; [exact Hm|done|done].
Qed.
End sound.
End materialize.

(** ** [_get_chain_links] *)
Lemma cl_link_append links c l x y :
  cl_link (append_link links c l) x y ↔ cl_link links x y ∨ (x.1 = c ∧ l = (x.2, y.1, y.2)).
Proof.
  unfold cl_link, append_link. destruct (decide (x.1 = c)) as [<-|Hne].
  - rewrite lookup_insert_eq /= elem_of_app list_elem_of_singleton. naive_solver.
  - rewrite lookup_insert_ne //. naive_solver.
Qed.

Lemma group_links_fold rows links x y :
  cl_link (foldl (λ links '(origin, oseq, target, tseq),
    append_link links origin (oseq, target, tseq)) links rows) x y ↔
  cl_link links x y ∨ table_link rows x y.
Proof.
  revert links. induction rows as [|[[[o os] t] ts] rows IH]; intros links; simpl.
  - unfold table_link. rewrite elem_of_nil. tauto.
  - rewrite IH cl_link_append. unfold table_link. rewrite elem_of_cons.
    destruct x, y; simpl. naive_solver.
Qed.

Lemma cl_link_group rows x y : cl_link (group_links rows) x y ↔ table_link rows x y.
Proof.
  unfold group_links. rewrite group_links_fold. unfold cl_link. rewrite lookup_empty /=.
  rewrite elem_of_nil. tauto.
Qed.

Lemma dom_append links c l : dom (append_link links c l) = {[c]} ∪ dom links.
Proof. unfold append_link. by rewrite dom_insert_L. Qed.

Lemma dom_group_fold (rows : link_table) links c :
  c ∈ dom (foldl (λ links '(origin, oseq, target, tseq),
    append_link links origin (oseq, target, tseq)) links rows) ↔
  c ∈ dom links ∨ ∃ s t ts, (c, s, t, ts) ∈ rows.
Proof.
  revert links. induction rows as [|[[[o os] t] ts] rows IH]; intros links; simpl.
  - set_solver.
  - rewrite IH dom_append. set_solver.
Qed.

Lemma dom_group rows c : c ∈ dom (group_links rows) ↔ ∃ s t ts, (c, s, t, ts) ∈ rows.
Proof. unfold group_links. rewrite dom_group_fold. set_solver. Qed.

(** A chain with a link in the table. *)
Definition has_links (table : link_table) (c : Z) : Prop := ∃ s t ts, (c, s, t, ts) ∈ table.

(** A batch holds all the links of its chains, and with a link those of the
    chain at its end. *)
Record batch_of (table : link_table) (links : chain_links) : Prop := {
  bo_links x y : cl_link links x y ↔ x.1 ∈ dom links ∧ table_link table x y;
  bo_closed x y : cl_link links x y → has_links table y.1 → y.1 ∈ dom links
}.

Definition link_targets (table : link_table) (ids : gset Z) : gset Z :=
  list_to_set (omap (λ '(origin, _, target, _),
    if decide (origin ∈ ids) then Some target else None) table).

Lemma elem_of_link_targets table ids t :
  t ∈ link_targets table ids ↔ ∃ c s ts, (c, s, t, ts) ∈ table ∧ c ∈ ids.
Proof.
  unfold link_targets. rewrite elem_of_list_to_set list_elem_of_omap. split.
  - intros ([[[c s] t'] ts] & Hin & Ht). case_decide; [|done]. injection Ht as ->. naive_solver.
  - intros (c & s & ts & Hin & Hc). exists (c, s, t, ts). rewrite decide_True //.
Qed.

Lemma recursive_links_spec fuel table ids :
  length (filter (λ '(_, _, t, _), t ∉ ids) table) ≤ fuel →
  ∃ ids', recursive_links fuel table ids = Some ids' ∧ ids ⊆ ids' ∧ link_targets table ids' ⊆ ids'.
Proof.
  revert ids. induction fuel as [|fuel IH]; intros ids Hf; cbn [recursive_links];
    fold (link_targets table ids); case_decide as Hd.
  1, 3: exists ids; done.
  all: destruct (set_choose_L (link_targets table ids ∖ ids)) as [t Ht];
    [by intros ?%empty_difference_subseteq_L|].
  all: apply elem_of_difference in Ht as [Ht Hn]; pose proof Ht as Ht0.
  all: apply elem_of_link_targets in Ht as (c & s & ts & Hin & Hc).
  all: apply list_elem_of_split in Hin as (l1 & l2 & Hl).
  all: rewrite Hl filter_app filter_cons_True // length_app /= in Hf.
  { lia. }
  destruct (IH (link_targets table ids ∪ ids)) as (ids' & H1 & H2 & H3).
  - assert (∀ l : link_table,
      length (filter (λ '(_, _, t0, _), t0 ∉ link_targets table ids ∪ ids) l) ≤
      length (filter (λ '(_, _, t0, _), t0 ∉ ids) l)) as Hm.
    { intros l. apply length_filter_impl. intros [[[? ?] ?] ?]. set_solver. }
    set (step := link_targets table ids ∪ ids) in *. assert (t ∈ step) by set_solver.
    clearbody step. rewrite Hl filter_app filter_cons_False; [|by intros []]. rewrite length_app.
    pose proof (Hm l1). pose proof (Hm l2). lia.
  - exists ids'. split_and!; [exact H1|set_solver|done].
Qed.

Lemma select_chain_links_spec table batch :
  ∃ rows, select_chain_links table batch = Some rows ∧ batch_of table (group_links rows) ∧
    ∀ c, c ∈ batch → has_links table c → c ∈ dom (group_links rows).
Proof.
  unfold select_chain_links. set (base := list_to_set _).
  destruct (recursive_links_spec (length table) table base) as (ids & -> & Hb & Hc);
    [apply length_filter|]. simpl. eexists. split; [done|].
  assert (∀ c s t ts, (c, s, t, ts) ∈ filter (λ '(origin, _, _, _), origin ∈ ids) table ↔
    c ∈ ids ∧ (c, s, t, ts) ∈ table) as Hf by (intros; by rewrite list_elem_of_filter).
  assert (∀ c, c ∈ dom (group_links (filter (λ '(origin, _, _, _), origin ∈ ids) table)) ↔
    c ∈ ids ∧ has_links table c) as Hd.
  { intros c. rewrite dom_group. setoid_rewrite Hf. unfold has_links. naive_solver. }
  split; [split|].
  - intros [c s] [t ts]. rewrite cl_link_group Hd. unfold table_link. simpl. rewrite Hf.
    unfold has_links. naive_solver.
  - intros [c s] [t ts]. rewrite cl_link_group. unfold table_link. simpl. rewrite Hf Hd.
    intros [Hci Hin] Ht. split; [|done]. apply Hc, elem_of_link_targets. naive_solver.
  - intros c Hcb Hl. apply Hd. split; [|done]. apply Hb. unfold base.
    destruct Hl as (s & t & ts & Hin). apply elem_of_list_to_set, list_elem_of_omap.
    exists (c, s, t, ts). rewrite decide_True //.
Qed.

Lemma chain_links_loop_spec fuel table chains :
  size chains ≤ fuel →
  ∃ batches, chain_links_loop fuel table chains = Some batches ∧ Forall (batch_of table) batches ∧
    ∀ c, c ∈ chains → has_links table c → Exists (λ links, c ∈ dom links) batches.
Proof.
  revert chains. induction fuel as [|fuel IH]; intros chains Hf; cbn [chain_links_loop]; case_decide.
  1, 3: exists []; set_solver.
  { exfalso. assert (size chains = 0) as ?%size_empty_inv by lia. set_solver. }
  set (batch := take 1000 (elements chains)).
  destruct (select_chain_links_spec table batch) as (rows & -> & Hb & Hin). simpl.
  destruct (IH (chains ∖ list_to_set batch ∖ dom (group_links rows))) as (rest & -> & Hr & Hcov).
  - destruct (elements chains) as [|x l] eqn:E; [by apply elements_empty_inv, leibniz_equiv in E|].
    assert (x ∈ chains) by (apply elem_of_elements; rewrite E; by left).
    assert (x ∈ batch) by (unfold batch; by left).
    assert (size (chains ∖ list_to_set batch ∖ dom (group_links rows)) < size chains); [|lia].
    apply subset_size. set_solver.
  - simpl. eexists. split; [done|]. split; [by constructor|]. intros c Hc Hl.
    destruct (decide (c ∈ dom (group_links rows))) as [|Hn]; [by left|]. right.
    apply Hcov; [|done]. assert (c ∉ batch) by (intros ?; by apply Hn, Hin). set_solver.
Qed.

(** The batches end, hold the links of the table, and reach every chain asked
    for. *)
Lemma get_chain_links_spec table chains :
  ∃ batches, _get_chain_links table chains = Some batches ∧ Forall (batch_of table) batches ∧
    ∀ c, c ∈ chains → has_links table c → Exists (λ links, c ∈ dom links) batches.
Proof. by apply chain_links_loop_spec. Qed.
