(* ===== verification/IterUtils.v ===== *)
(** [batch_iter] and [sorted_topologically] of [util/iterutils.py].

    A dictionary is iterated by [map_fold] and a set by [set_fold]; the heap is
    the list of its elements, from which [pop_min] takes the least string. *)
From stdpp Require Import ssreflect.
From S2P Require Import Prelude TopoSort.

(** ** [batch_iter] *)
Fixpoint batch_loop {A} (fuel size : nat) (l : list A) : list (list A) :=
  match fuel, l with
  | S fuel, _ :: _ => take size l :: batch_loop fuel size (drop size l)
  | _, _ => []
  end.

(** One batch per element is enough when the size is positive. *)
Definition batch_iter {A} (l : list A) (size : nat) : list (list A) :=
  batch_loop (length l) size l.

Lemma batch_iter_concat {A} (l : list A) size : 0 < size → concat (batch_iter l size) = l.
Proof.
  intros Hs. unfold batch_iter. assert (length l ≤ length l) as Hl by done.
  revert Hl. generalize (length l) at 2 3 as fuel. intros fuel. revert l.
  induction fuel as [|fuel IH]; intros [|x l] Hl; simpl in *; try done; [lia|].
  rewrite IH; [|destruct size; [lia|]; simpl; rewrite length_drop; lia].
  destruct size; [lia|]. by rewrite take_drop.
Qed.

(** ** [sorted_topologically] *)

(** One edge of a node of [degree_map]. *)
Definition count_edge (node edge : string) (st : gmap string Z * gmap string (gset string))
    : gmap string Z * gmap string (gset string) :=
  let '(degree_map, reverse_graph) := st in
  (if decide (edge ∈ dom degree_map) then alter (Z.add 1) node degree_map else degree_map,
   <[edge := {[node]} ∪ default ∅ (reverse_graph !! edge)]> reverse_graph).

Definition count_node (node : string) (edges : list string)
    (st : gmap string Z * gmap string (gset string))
    : gmap string Z * gmap string (gset string) :=
  if decide (node ∈ dom st.1) then
    let '(degree_map, reverse_graph) :=
      set_fold (count_edge node) st (list_to_set edges : gset string) in
    (degree_map, <[node := default ∅ (reverse_graph !! node)]> reverse_graph)
  else st.

Definition topo_maps (nodes : gset string) (graph : gmap string (list string))
    : gmap string Z * gmap string (gset string) :=
  map_fold count_node (gset_to_gmap 0%Z nodes, ∅) graph.

(** [degree_map[edge] -= 1] and the push. *)
Definition release (edge : string) (st : gmap string Z * list string)
    : gmap string Z * list string :=
  let '(degree_map, zero_degree) := st in
  match degree_map !! edge with
  | None => st
  | Some d =>
      (<[edge := (d - 1)%Z]> degree_map,
       if (d - 1 =? 0)%Z then edge :: zero_degree else zero_degree)
  end.

Fixpoint topo_loop (fuel : nat) (reverse_graph : gmap string (gset string))
    (degree_map : gmap string Z) (zero_degree : list string) : option (list string) :=
  match zero_degree with
  | [] => Some []
  | x :: heap =>
      match fuel with
      | 0 => None
      | S fuel =>
          let '(node, zero_degree) := pop_min String.leb x heap in
          let '(degree_map, zero_degree) :=
            set_fold release (degree_map, zero_degree)
              (default ∅ (reverse_graph !! node) : gset string) in
          rest ← topo_loop fuel reverse_graph degree_map zero_degree;
          Some (node :: rest)
      end
  end.

(** Every node is yielded at most once. *)
Definition sorted_topologically (nodes : gset string) (graph : gmap string (list string))
    : option (list string) :=
  let '(degree_map, reverse_graph) := topo_maps nodes graph in
  topo_loop (size nodes) reverse_graph degree_map
    (filter (λ n, degree_map !! n = Some 0%Z) (elements nodes)).

(** *** The maps *)
Lemma filter_add_in (nodes X : gset string) e :
  e ∈ nodes → e ∉ X →
  size (filter (λ e, e ∈ nodes) ({[e]} ∪ X)) = S (size (filter (λ e, e ∈ nodes) X)).
Proof.
  intros. replace (filter (λ e, e ∈ nodes) ({[e]} ∪ X)) with ({[e]} ∪ filter (λ e, e ∈ nodes) X)
    by set_solver.
  rewrite size_union; [by rewrite size_singleton|set_solver].
Qed.

Lemma filter_add_out (nodes X : gset string) e :
  e ∉ nodes → filter (λ e, e ∈ nodes) ({[e]} ∪ X) = filter (λ e, e ∈ nodes) X.
Proof. set_solver. Qed.

Section topo.
Context (nodes : gset string) (graph : gmap string (list string)).

(** The edges of a node that lead to a node. *)
Definition deps_in (g : gmap string (list string)) (n : string) : gset string :=
  filter (λ e, e ∈ nodes) (list_to_set (default [] (g !! n))).

Definition edges_counted (node : string) (degree : gmap string Z)
    (rev : gmap string (gset string)) (st : gmap string Z * gmap string (gset string))
    (edges : gset string) : Prop :=
  dom st.1 = nodes ∧
  (∀ n, st.1 !! n = if decide (n = node)
     then Z.add (Z.of_nat (size (filter (λ e, e ∈ nodes) edges))) <$> degree !! n
     else degree !! n) ∧
  (∀ e, default ∅ (st.2 !! e) = (if decide (e ∈ edges) then {[node]} else ∅) ∪ default ∅ (rev !! e)).

Lemma count_edges_spec node (edges : gset string) degree rev :
  dom degree = nodes → node ∈ nodes →
  edges_counted node degree rev (set_fold (count_edge node) (degree, rev) edges) edges.
Proof.
  intros Hd Hn. apply (set_fold_ind_L (edges_counted node degree rev)); unfold edges_counted.
  - split_and!; [done| |intros e; case_decide; set_solver].
    intros n. rewrite filter_empty_L size_empty /=. case_decide; [|done].
    destruct (degree !! n); done.
  - intros e X [d r] He (H1 & H2 & H3). simpl in *. rewrite H1. split_and!.
    + case_decide; [by rewrite dom_alter_L|done].
    + intros n. destruct (decide (e ∈ nodes)) as [Hen|Hen].
      * rewrite filter_add_in //.
        case_decide as Hnn; [subst n|rewrite lookup_alter_ne //; by rewrite H2 decide_False].
        rewrite lookup_alter_eq H2 decide_True //. destruct (degree !! node); [|done].
        simpl. f_equal. lia.
      * rewrite H2 filter_add_out //.
    + intros e'. destruct (decide (e = e')) as [-> |Hne].
      * rewrite lookup_insert_eq /= H3 decide_False // decide_True; set_solver.
      * rewrite lookup_insert_ne // H3. repeat case_decide; set_solver.
Qed.

Definition maps_of (st : gmap string Z * gmap string (gset string))
    (g : gmap string (list string)) : Prop :=
  dom st.1 = nodes ∧
  (∀ n, n ∈ nodes → st.1 !! n = Some (Z.of_nat (size (deps_in g n)))) ∧
  (∀ e n, n ∈ default ∅ (st.2 !! e) ↔ n ∈ nodes ∧ e ∈ default [] (g !! n)).

Lemma topo_maps_spec : maps_of (topo_maps nodes graph) graph.
Proof.
  unfold topo_maps. apply (map_fold_weak_ind maps_of); unfold maps_of; simpl.
  - split_and!; [by rewrite dom_gset_to_gmap| |].
    + intros n Hn. rewrite lookup_gset_to_gmap_Some. split; [done|].
      unfold deps_in. rewrite lookup_empty /= filter_empty_L. done.
    + intros e n. rewrite !lookup_empty /=. set_solver.
  - intros node edges g [degree rev] Hg (H1 & H2 & H3). unfold count_node. simpl. rewrite H1.
    assert (∀ n, n ≠ node → deps_in (<[node:=edges]> g) n = deps_in g n) as Hne.
    { intros n ?. unfold deps_in. by rewrite lookup_insert_ne. }
    case_decide as Hn.
    + destruct (set_fold _ _ _) as [d r] eqn:E.
      pose proof (count_edges_spec node (list_to_set edges) degree rev H1 Hn) as (G1 & G2 & G3).
      rewrite E /= in G1 G2 G3. split_and!; [done| |].
      * intros n Hn'. rewrite G2. case_decide; [subst|by rewrite Hne // H2].
        rewrite H2 // /=. unfold deps_in. rewrite Hg lookup_insert_eq /=.
        rewrite filter_empty_L size_empty. f_equal. lia.
      * intros e n. rewrite (_ : default ∅ (<[node := default ∅ (r !! node)]> r !! e) =
          default ∅ (r !! e)); [|destruct (decide (e = node)) as [-> |];
          [by rewrite lookup_insert_eq|by rewrite lookup_insert_ne]].
        rewrite G3 elem_of_union H3. destruct (decide (n = node)) as [-> |].
        -- rewrite lookup_insert_eq Hg /=. case_decide; set_solver.
        -- rewrite lookup_insert_ne //. case_decide; set_solver.
    + split_and!; [done| |].
      * intros n Hn'. rewrite H2 // Hne //. by intros ->.
      * intros e n. rewrite H3. destruct (decide (n = node)) as [-> |]; [|by rewrite lookup_insert_ne].
        naive_solver.
Qed.

(** *** The loop *)
Definition released (degree : gmap string Z) (heap : list string)
    (st : gmap string Z * list string) (X : gset string) : Prop :=
  (∀ n, st.1 !! n = if decide (n ∈ X) then (λ d, (d - 1)%Z) <$> degree !! n else degree !! n) ∧
  (∀ n, n ∈ st.2 ↔ n ∈ heap ∨ (n ∈ X ∧ degree !! n = Some 1%Z)) ∧
  NoDup st.2.

Lemma release_spec degree heap (X : gset string) :
  NoDup heap → (∀ n, n ∈ heap → degree !! n = Some 0%Z) →
  released degree heap (set_fold release (degree, heap) X) X.
Proof.
  intros Hnd Hz. apply (set_fold_ind_L (released degree heap)); unfold released; simpl.
  - split_and!; [done|set_solver|done].
  - intros e Y [d h] He (H1 & H2 & H3). simpl in *.
    pose proof (H1 e) as He'. rewrite decide_False // in He'. rewrite He'.
    destruct (degree !! e) as [v|] eqn:Ev; simpl; split_and!.
    + intros n. destruct (decide (n = e)) as [-> |Hne].
      * rewrite lookup_insert_eq decide_True; [by rewrite Ev|set_solver].
      * rewrite lookup_insert_ne // H1. repeat case_decide; set_solver.
    + intros n. destruct (Z.eqb_spec (v - 1) 0).
      * rewrite elem_of_cons H2 elem_of_union elem_of_singleton.
        assert (v = 1%Z) as -> by lia. naive_solver.
      * rewrite H2 elem_of_union elem_of_singleton. split; [naive_solver|].
        intros [?|[[-> |?] Hv]]; [by left| |by right]. rewrite Ev in Hv. injection Hv as ->. lia.
    + destruct (Z.eqb_spec (v - 1) 0); [|done]. constructor; [|done].
      rewrite H2. intros [Hin|[? _]]; [|done]. rewrite Hz // in Ev. injection Ev as <-. lia.
    + intros n. rewrite H1. destruct (decide (n = e)) as [-> |].
      * by rewrite decide_False // Ev decide_True; [|set_solver].
      * repeat case_decide; set_solver.
    + intros n. rewrite H2. destruct (decide (n = e)) as [-> |]; [|set_solver].
      split; [by intros [?|[? ?]]; [left|]|]. intros [?|[_ ?]]; [by left|congruence].
    + done.
Qed.

Abbreviation deps := (deps_in graph).

Record topo_inv (done : list string) (degree : gmap string Z) (heap : list string) : Prop := {
  ti_degree n : n ∈ nodes →
    degree !! n = Some (Z.of_nat (size (deps n ∖ list_to_set done)));
  ti_heap n : n ∈ heap ↔ n ∈ nodes ∧ n ∉ done ∧ deps n ⊆ list_to_set done;
  ti_nodup : NoDup heap;
  ti_done : NoDup done;
  ti_closed n : n ∈ done → n ∈ nodes ∧ deps n ⊆ list_to_set done
}.

Lemma pop_min_perm x heap m r : pop_min String.leb x heap = (m, r) → x :: heap ≡ₚ m :: r.
Proof.
  revert x m r. induction heap as [|y heap IH]; intros x m r H; simpl in H.
  - by injection H as <- <-.
  - destruct (String.leb x y).
    + destruct (pop_min _ x heap) as [m' r'] eqn:E. injection H as <- <-.
      rewrite (Permutation_swap y x). rewrite (IH _ _ _ E). by rewrite Permutation_swap.
    + destruct (pop_min _ y heap) as [m' r'] eqn:E. injection H as <- <-.
      rewrite (IH _ _ _ E). by rewrite Permutation_swap.
Qed.

Lemma topo_inv_turn done degree x heap node heap' (rev : gmap string (gset string)) st :
  (∀ e n, n ∈ default ∅ (rev !! e) ↔ n ∈ nodes ∧ e ∈ default [] (graph !! n)) →
  topo_inv done degree (x :: heap) → pop_min String.leb x heap = (node, heap') →
  set_fold release (degree, heap') (default ∅ (rev !! node)) = st →
  node ∈ nodes ∧ node ∉ done ∧ deps node ⊆ list_to_set done ∧
  topo_inv (done ++ [node]) st.1 st.2.
Proof.
  intros Hrev [Hd Hh Hnd Hdn Hcl] Hp <-. apply pop_min_perm in Hp.
  assert (node ∈ x :: heap) as (Hn & Hnn & Hdeps)%Hh by (rewrite Hp; by left).
  rewrite Hp in Hnd. apply NoDup_cons in Hnd as [Hni Hnd].
  assert (∀ n, n ∈ heap' ↔ n ≠ node ∧ n ∈ nodes ∧ n ∉ done ∧ deps n ⊆ list_to_set done) as Hh'.
  { intros n. rewrite -Hh Hp elem_of_cons. split; [|naive_solver]. intros Hin.
    split; [by intros ->|by right]. }
  destruct (release_spec degree heap' (default ∅ (rev !! node))) as (H1 & H2 & H3); [done| |].
  { intros n Hin%Hh'. rewrite Hd; [|apply Hin].
    by rewrite (subseteq_empty_difference_L (deps n)) ?size_empty; [|apply Hin]. }
  assert (∀ n, n ∈ nodes → n ∈ default ∅ (rev !! node) ↔ node ∈ deps n) as Hr.
  { intros n Hnn'. rewrite Hrev. unfold deps_in. set_solver. }
  assert (∀ n, node ∈ deps n → size (deps n ∖ list_to_set done) =
    S (size (deps n ∖ list_to_set (done ++ [node])))) as Hsz.
  { intros n Hin. replace (deps n ∖ list_to_set done) with
      ({[node]} ∪ (deps n ∖ list_to_set (done ++ [node]))).
    - rewrite size_union; [by rewrite size_singleton|]. rewrite list_to_set_app_L. set_solver.
    - rewrite list_to_set_app_L. apply set_eq. intros z.
      clear -Hin Hnn. destruct (decide (z = node)); set_solver. }
  assert (∀ n, node ∉ deps n → deps n ∖ list_to_set (done ++ [node]) = deps n ∖ list_to_set done)
    as Hsz'. { intros n Hin. rewrite list_to_set_app_L. set_solver. }
  split_and!; try done. split.
  - intros n Hnn'. rewrite H1 Hd //. destruct (decide (node ∈ deps n)) as [Hin|Hin].
    + rewrite decide_True; [|by apply Hr]. simpl. rewrite Hsz //. f_equal. lia.
    + rewrite decide_False; [|by rewrite Hr]. by rewrite Hsz'.
  - intros n. rewrite H2 Hh' elem_of_app list_elem_of_singleton list_to_set_app_L. split.
    + intros [(Ha & Hb & Hc & Hdd)|[Hin Hdeg]]; [clear -Ha Hb Hc Hdd; set_solver|].
      assert (n ∈ nodes) as Hnn' by (by apply Hrev in Hin as [? _]).
      rewrite Hr // in Hin. rewrite Hd // Hsz // in Hdeg. injection Hdeg as Hdeg.
      assert (deps n ∖ list_to_set (done ++ [node]) = ∅) as He.
      { apply leibniz_equiv, size_empty_inv. lia. }
      apply empty_difference_subseteq_L in He. rewrite list_to_set_app_L in He.
      split_and!; [done| |done]. intros [Hc| ->]; [|apply Hdeps in Hin; clear -Hin Hnn; set_solver].
      apply Hcl in Hc as [_ Hc]. apply Hc in Hin. clear -Hin Hnn. set_solver.
    + intros (Hnn' & Hnd' & Hs). destruct (decide (node ∈ deps n)) as [Hin|Hin].
      * right. split; [by apply Hr|]. rewrite Hd // Hsz //.
        rewrite subseteq_empty_difference_L ?size_empty //. by rewrite list_to_set_app_L.
      * left. clear -Hnn' Hnd' Hs Hin. set_solver.
  - done.
  - apply NoDup_app. split_and!; [done|clear -Hnn; set_solver|apply NoDup_singleton].
  - intros n [Hin| ->%list_elem_of_singleton]%elem_of_app; rewrite list_to_set_app_L;
      [|clear -Hn Hdeps; set_solver].
    apply Hcl in Hin as [Ha Hb]. clear -Ha Hb. set_solver.
Qed.

(** Each node comes after its dependencies. *)
Definition in_order (done l : list string) : Prop :=
  ∀ l1 n l2, l = l1 ++ n :: l2 → n ∈ nodes ∧ deps n ⊆ list_to_set (done ++ l1).

Lemma in_order_cons done n l :
  n ∈ nodes → deps n ⊆ list_to_set done → in_order (done ++ [n]) l → in_order done (n :: l).
Proof.
  intros Hn Hd Hl [|m l1] m' l2 [= -> ->]; [by rewrite app_nil_r|].
  destruct (Hl l1 m' l2 eq_refl) as [? Hs]. by rewrite -app_assoc in Hs.
Qed.

Lemma topo_loop_spec fuel rev done degree heap :
  (∀ e n, n ∈ (default ∅ (rev !! e) : gset string) ↔ n ∈ nodes ∧ e ∈ default [] (graph !! n)) →
  topo_inv done degree heap → size nodes ≤ length done + fuel →
  ∃ l degree', topo_loop fuel rev degree heap = Some l ∧ in_order done l ∧
    topo_inv (done ++ l) degree' [].
Proof.
  intros Hrev. revert done degree heap. induction fuel as [|fuel IH];
    intros done degree [|x heap] Hinv Hf; simpl.
  1, 3: exists [], degree; rewrite app_nil_r; split_and!; [done|by intros []|done].
  - exfalso. assert (size (list_to_set (x :: done) : gset string) ≤ size nodes) as Hle.
    { apply subseteq_size. intros z [->|Hz]%elem_of_list_to_set%elem_of_cons.
      - apply (ti_heap _ _ _ Hinv). by left.
      - by apply (ti_closed _ _ _ Hinv). }
    rewrite size_list_to_set in Hle; [simpl in Hle; lia|]. constructor; [|apply Hinv].
    apply (ti_heap _ _ _ Hinv). by left.
  - destruct (pop_min _ x heap) as [node heap'] eqn:Hp.
    destruct (set_fold release _ _) as [degree' heap''] eqn:Hs.
    destruct (topo_inv_turn _ _ _ _ _ _ _ _ Hrev Hinv Hp Hs) as (Hn & Hnd & Hdeps & Hinv').
    simpl in Hinv'. destruct (IH _ _ _ Hinv') as (l & degree'' & -> & Ho & Hi); [rewrite length_app /=; lia|].
    exists (node :: l), degree''. split_and!; [done|by apply in_order_cons|].
    by rewrite -app_assoc in Hi.
Qed.

(** The generator ends; it yields nodes, each once and after the nodes it
    depends on, and leaves out only nodes that depend on one left out. *)
Lemma sorted_topologically_spec :
  ∃ l, sorted_topologically nodes graph = Some l ∧ NoDup l ∧ in_order [] l ∧
    ∀ n, n ∈ nodes → n ∉ l → ∃ e, e ∈ deps n ∧ e ∉ l.
Proof.
  unfold sorted_topologically. destruct (topo_maps nodes graph) as [degree rev] eqn:E.
  destruct topo_maps_spec as (H1 & H2 & H3). rewrite E /= in H1 H2 H3.
  destruct (topo_loop_spec (size nodes) rev [] degree
    (filter (λ n, degree !! n = Some 0%Z) (elements nodes))) as (l & degree' & Hl & Ho & Hi).
  - done.
  - split.
    + intros n Hn. rewrite H2 //. by rewrite difference_empty_L.
    + intros n. rewrite list_elem_of_filter elem_of_elements. split.
      * intros [Hz Hn]. rewrite H2 // in Hz. injection Hz as Hz. split_and!; [done|set_solver|].
        assert (deps n ≡ ∅) as ->; [apply size_empty_inv; lia|set_solver].
      * intros (Hn & _ & He). split; [|done]. rewrite H2 //.
        assert (deps n = ∅) as ->; [set_solver|by rewrite size_empty].
    + apply NoDup_filter, NoDup_elements.
    + constructor.
    + set_solver.
  - simpl. lia.
  - exists l. split_and!; [exact Hl|apply Hi|exact Ho|]. intros n Hn Hnl.
    destruct (decide (deps n ⊆ list_to_set l)) as [Hs|Hs].
    + exfalso. assert (n ∈ []) as ?%elem_of_nil; [|done]. by apply (ti_heap _ _ _ Hi).
    + destruct (set_choose_L (deps n ∖ list_to_set l)) as [e He];
        [by intros ?%empty_difference_subseteq_L|]. exists e. set_solver.
Qed.

Lemma sorted_topologically_complete (rank : string → nat) l :
  (∀ n e, n ∈ nodes → e ∈ deps n → rank e < rank n) →
  sorted_topologically nodes graph = Some l → ∀ n, n ∈ nodes ↔ n ∈ l.
Proof.
  intros Hr Hl. destruct sorted_topologically_spec as (l' & Hl' & _ & Ho & Hn).
  rewrite Hl in Hl'. injection Hl' as <-. intros n. split.
  - revert n. assert (∀ k n, rank n < k → n ∈ nodes → n ∈ l) as Hk;
      [|intros n; apply (Hk (S (rank n))); lia].
    induction k as [|k IH]; intros n Hlt Hin; [lia|].
    destruct (decide (n ∈ l)) as [|Hnl]; [done|]. destruct (Hn n Hin Hnl) as (e & He & Hel).
    exfalso. apply Hel, IH; [pose proof (Hr _ _ Hin He); lia|]. unfold deps_in in He. set_solver.
  - intros (l1 & l2 & ->)%list_elem_of_split. by apply (Ho l1 n l2).
Qed.
End topo.
