(* ===== verification/ChainCover.v ===== *)
(** The chain cover index of the auth DAG: how it is computed and stored
    ([storage/databases/main/events.py]).

    The database is the record of the tables the code reads and writes.  The
    rows of a table with a primary key are a map, the others a list.  A
    dictionary that a function fills is threaded through it.  [object()], a
    chain that has no ID yet, is a [Temp]. *)
From S2P Require Import Prelude TopoSort IterUtils ChainLinks.

(** ** Loops that may run out of fuel, and raise *)
Definition run (A : Type) : Type := option (result A).

#[export] Instance run_ret : MRet run := λ A x, Some (Ok x).
#[export] Instance run_bind : MBind run := λ A B f m,
  match m with
  | None => None
  | Some (Raise e) => Some (Raise e)
  | Some (Ok x) => f x
  end.

Definition lift {A} (r : result A) : run A := Some r.
#[global] Typeclasses Opaque run.

Definition fueled {A} (o : option A) : run A := Ok <$> o.

Fixpoint fold_run {A S} (f : S → A → run S) (l : list A) (s : S) : run S :=
  match l with
  | [] => mret s
  | x :: l' => s' ← f s x; fold_run f l' s'
  end.

(** ** The database *)

(** A row of [events]; [er_state_key] is the row of [state_events], if any. *)
Record event_row := mkEventRow {
  er_room_id : string;
  er_type : string;
  er_state_key : option string;
  er_depth : Z
}.

Record database := mkDatabase {
  db_rooms : gmap string (option bool);   (* rooms: has_auth_chain_index *)
  db_events : gmap string event_row;
  db_event_auth : list (string * string);
  db_chains : gmap string position;       (* event_auth_chains *)
  db_links : link_table;                  (* event_auth_chain_links *)
  db_to_calculate : gmap string (string * string * string);
  db_chain_seq : Z                        (* the sequence event_auth_chain_id *)
}.

(** [SELECT auth_id FROM event_auth WHERE event_id = ?] *)
Definition select_auth (db : database) (event_id : string) : list string :=
  (filter (λ r : string * string, r.1 = event_id) (db_event_auth db)).*2.

(** An event that is to be persisted. *)
Record new_event := mkNewEvent {
  ne_event_id : string;
  ne_room_id : string;
  ne_type : string;
  ne_state_key : option string;
  ne_depth : Z;
  ne_outlier : bool;
  ne_auth_events : list string
}.

Definition is_state (e : new_event) : bool := bool_decide (is_Some (ne_state_key e)).

(** [NewEventChainLinks] *)
Record NewEventChainLinks := mkNewEventChainLinks {
  chain_id : Z;
  sequence_number : Z;
  links : list position
}.

(** [simple_upsert_txn] on [event_auth_chain_to_calculate] *)
Definition upsert_to_calculate (db : database) (event_id : string) (row : string * string * string)
    : database :=
  mkDatabase (db_rooms db) (db_events db) (db_event_auth db) (db_chains db) (db_links db)
    (<[event_id := row]> (db_to_calculate db)) (db_chain_seq db).

(** [event_chain_id_gen.get_next_mult_txn] *)
Definition get_next_mult_txn (db : database) (n : nat) : list Z * database :=
  ((λ i, db_chain_seq db + 1 + Z.of_nat i)%Z <$> seq 0 n,
   mkDatabase (db_rooms db) (db_events db) (db_event_auth db) (db_chains db) (db_links db)
     (db_to_calculate db) (db_chain_seq db + Z.of_nat n)).

(** ** [_allocate_chain_ids] *)

(** A chain ID, or [object()]. *)
Inductive chain_key :=
  | Chain (c : Z)
  | Temp (n : nat).

#[export] Instance chain_key_eq_dec : EqDecision chain_key.
Proof. solve_decision. Defined.

#[export] Instance chain_key_countable : Countable chain_key.
Proof.
  refine (inj_countable'
    (λ k, match k with Chain c => inl c | Temp n => inr n end)
    (λ s, match s with inl c => Chain c | inr n => Temp n end) _).
  by intros [].
Defined.

(** What [_calculate_chain_cover_index] has gathered. *)
Record calc := mkCalc {
  event_to_types : gmap string (string * string);
  event_to_auth_chain : gmap string (list string);
  events_to_calc_chain_id_for : gset string;
  chain_map : gmap string position
}.

Definition auth_of (st : calc) (event_id : string) : list string :=
  default [] (event_to_auth_chain st !! event_id).

(** The auth event with the type and state key of the event, and the chains
    that are known of such auth events. *)
Definition tree_step (st : calc) (acc : gset Z * list (string * option string)) (event_id : string)
    : gset Z * list (string * option string) :=
  let '(existing_chains, tree) := acc in
  match list_find (λ auth_id, event_to_types st !! event_id = event_to_types st !! auth_id)
          (auth_of st event_id) with
  | Some (_, auth_id) =>
      (match chain_map st !! auth_id with
       | Some (c, _) => {[c]} ∪ existing_chains
       | None => existing_chains
       end, tree ++ [(event_id, Some auth_id)])
  | None => (existing_chains, tree ++ [(event_id, None)])
  end.

(** [SELECT chain_id, MAX(sequence_number) ... GROUP BY chain_id] *)
Definition max_seq_nos (chains : gmap string position) (existing_chains : gset Z)
    : gmap chain_key Z :=
  map_fold (λ _ '(c, s) acc,
    if decide (c ∈ existing_chains)
    then <[Chain c := match acc !! Chain c with Some s' => Z.max s s' | None => s end]> acc
    else acc) ∅ chains.

Record alloc := mkAlloc {
  unallocated_chain_ids : gset nat;
  new_chain_tuples : gmap string (chain_key * Z);
  chain_to_max_seq_no : gmap chain_key Z
}.

(** The position after the auth event's, if it is free. *)
Definition propose (st : calc) (a : alloc) (auth_event_id : option string)
    : result (option (chain_key * Z)) :=
  match auth_event_id with
  | None => Ok None
  | Some auth_id =>
      if negb (str_nonempty auth_id) then Ok None
      else
        '(c, s) ← of_option (match new_chain_tuples a !! auth_id with
                             | Some x => Some x
                             | None => (λ x, (Chain x.1, x.2)) <$> chain_map st !! auth_id
                             end) KeyError;
        m ← of_option (chain_to_max_seq_no a !! c) KeyError;
        Ok (if (m <? s + 1)%Z then Some (c, (s + 1)%Z) else None)
  end.

Definition allocate_step (st : calc) (a : alloc) (x : string * option string) : result alloc :=
  let '(event_id, auth_event_id) := x in
  proposed ← propose st a auth_event_id;
  let '(unallocated, new_chain_tuple) :=
    match proposed with
    | Some t => (unallocated_chain_ids a, t)
    | None =>
        let o := size (unallocated_chain_ids a) in
        ({[o]} ∪ unallocated_chain_ids a, (Temp o, 1%Z))
    end in
  Ok (mkAlloc unallocated (<[event_id := new_chain_tuple]> (new_chain_tuples a))
        (<[new_chain_tuple.1 := new_chain_tuple.2]> (chain_to_max_seq_no a))).

(** [chain_id_to_allocated_map[chain_id]] *)
Definition resolve_key (temps : gmap nat Z) (existing_chains : gset Z) (k : chain_key) : result Z :=
  match k with
  | Chain c => if decide (c ∈ existing_chains) then Ok c else Raise KeyError
  | Temp n => of_option (temps !! n) KeyError
  end.

Definition _allocate_chain_ids (db : database) (st : calc)
    : run (gmap string position * database) :=
  sorted ← fueled (sorted_topologically (events_to_calc_chain_id_for st) (event_to_auth_chain st));
  let '(existing_chains, tree) := foldl (tree_step st) (∅, []) sorted in
  a ← lift (fold_res (allocate_step st) tree
              (mkAlloc ∅ ∅ (max_seq_nos (db_chains db) existing_chains)));
  let unallocated := elements (unallocated_chain_ids a) in
  let '(newly_allocated_chain_ids, db) := get_next_mult_txn db (length unallocated) in
  let temps : gmap nat Z := list_to_map (zip unallocated newly_allocated_chain_ids) in
  tuples ← lift (fold_res (λ acc '(event_id, (k, s)),
      c ← resolve_key temps existing_chains k; Ok (<[event_id := (c, s)]> acc))
    (map_to_list (new_chain_tuples a)) ∅);
  mret (tuples, db).

(** ** [_calculate_chain_cover_index] *)

(** The events of the rooms that wait for their auth chain. *)
Definition add_waiting (db : database) (rooms : gset string) (st : calc) : calc :=
  map_fold (λ event_id '(room_id, event_type, state_key) st,
    if decide (room_id ∈ rooms) then
      mkCalc (<[event_id := (event_type, state_key)]> (event_to_types st))
        (<[event_id := select_auth db event_id]> (event_to_auth_chain st))
        ({[event_id]} ∪ events_to_calc_chain_id_for st) (chain_map st)
    else st) st (db_to_calculate db).

(** The auth events that are not about to be indexed. *)
Definition missing_auth_chains (st : calc) : gset string :=
  list_to_set (filter (λ a, a ∉ events_to_calc_chain_id_for st)
    (mjoin (map_to_list (event_to_auth_chain st)).*2)).

(** One row of the query for the missing events. *)
Definition fetch_missing (db : database) (acc : calc * gset string) (auth_id : string)
    : calc * gset string :=
  let '(st, missing) := acc in
  match db_events db !! auth_id with
  | Some (mkEventRow _ event_type (Some state_key) _) =>
      let types := <[auth_id := (event_type, state_key)]> (event_to_types st) in
      match db_chains db !! auth_id with
      | None =>
          let auth := select_auth db auth_id in
          (mkCalc types (<[auth_id := auth]> (event_to_auth_chain st))
             ({[auth_id]} ∪ events_to_calc_chain_id_for st) (chain_map st),
           list_to_set (filter (λ e, e ∉ dom types) auth) ∪ missing)
      | Some pos =>
          (mkCalc types (event_to_auth_chain st) (events_to_calc_chain_id_for st)
             (<[auth_id := pos]> (chain_map st)), missing)
      end
  | _ => acc
  end.

Fixpoint missing_loop (fuel : nat) (db : database) (st : calc) (missing : gset string)
    : option calc :=
  if decide (missing = ∅) then Some st
  else
    match fuel with
    | 0 => None
    | S fuel =>
        let '(st, missing) := foldl (fetch_missing db) (st, ∅) (elements missing) in
        missing_loop fuel db st missing
    end.

(** An event with an auth event whose chain is not known is left for later. *)
Definition discard_step (event_to_room_id : gmap string string) (acc : calc * database)
    (event_id : string) : result (calc * database) :=
  let '(st, db) := acc in
  if decide (Exists (λ auth_id, auth_id ∉ dom (chain_map st) ∧
                       auth_id ∉ events_to_calc_chain_id_for st) (auth_of st event_id))
  then
    let st' := mkCalc (event_to_types st) (event_to_auth_chain st)
                 (events_to_calc_chain_id_for st ∖ {[event_id]}) (chain_map st) in
    match event_to_room_id !! event_id with
    | Some room_id =>
        if str_nonempty room_id then
          '(e_type, state_key) ← of_option (event_to_types st !! event_id) KeyError;
          Ok (st', upsert_to_calculate db event_id (room_id, e_type, state_key))
        else Ok (st', db)
    | None => Ok (st', db)
    end
  else Ok (st, db).

(** [itertools.permutations(l, r=2)] *)
Definition permutations2 {A} (l : list A) : list (A * A) :=
  mjoin (imap (λ i x, (x,.) <$> (take i l ++ drop (S i) l)) l).

(** [chain_map[a_id]] *)
Definition pos_of (chain_map : gmap string position) (event_id : string) : result position :=
  of_option (chain_map !! event_id) KeyError.

(** The auth events in other chains, less those another auth event reaches. *)
Definition reduce (cm : gmap string position) (chain_links : LinkMap) (chain_id : Z)
    (auth : list string) : run (gset string) :=
  reduction ← lift (fold_res (λ (acc : gset string) a_id,
    '(c, _) ← pos_of cm a_id;
    Ok (if (c =? chain_id)%Z then acc else {[a_id]} ∪ acc)) auth ∅);
  fold_run (λ (acc : gset string) '(start_auth_id, end_auth_id),
    s ← lift (pos_of cm start_auth_id);
    e ← lift (pos_of cm end_auth_id);
    b ← fueled (exists_path_from chain_links s e);
    mret (if (b : bool) then acc ∖ {[end_auth_id]} else acc)) (permutations2 auth) reduction.

(** The new links of one event. *)
Definition link_event (cm : gmap string position) (auth : string → list string)
    (acc : gmap string NewEventChainLinks * LinkMap) (event_id : string)
    : run (gmap string NewEventChainLinks * LinkMap) :=
  '(c, s) ← lift (pos_of cm event_id);
  reduction ← reduce cm acc.2 c (auth event_id);
  fold_run (λ '(to_return, chain_links) auth_id,
    '(ac, asq) ← lift (pos_of cm auth_id);
    n ← lift (of_option ((to_return : gmap string NewEventChainLinks) !! event_id) KeyError);
    let n := mkNewEventChainLinks (chain_id n) (sequence_number n) (links n ++ [(ac, asq)]) in
    '(_, chain_links) ← lift (add_link chain_links (c, s) (ac, asq) true);
    mret (<[event_id := n]> to_return, chain_links)) (elements reduction) acc.

(** The links of the table, as a [_LinkMap]. *)
Definition stored_links (batches : list chain_links) : result LinkMap :=
  fold_res (λ lm batch,
    fold_res (λ lm '(origin_chain_id, origin_seq, target_chain_id, target_seq),
      '(_, lm) ← add_link lm (origin_chain_id, origin_seq) (target_chain_id, target_seq) false;
      Ok lm) (flat_links batch) lm) batches empty_LinkMap.

Definition _calculate_chain_cover_index (db : database) (event_to_room_id : gmap string string)
    (types : gmap string (string * string)) (auth : gmap string (list string))
    : run (gmap string NewEventChainLinks * database) :=
  let rooms : gset string := list_to_set (map_to_list event_to_room_id).*2 in
  let st := add_waiting db rooms (mkCalc types auth (dom event_to_room_id) ∅) in
  st ← fueled (missing_loop (2 * size (db_events db) + 2) db st (missing_auth_chains st));
  sorted ← fueled (sorted_topologically (dom (event_to_auth_chain st)) (event_to_auth_chain st));
  '(st, db) ← lift (fold_res (discard_step event_to_room_id) sorted (st, db));
  if decide (events_to_calc_chain_id_for st = ∅) then mret (∅, db)
  else
    '(tuples, db) ← _allocate_chain_ids db st;
    let cm := tuples ∪ chain_map st in
    let to_return := (λ '(c, s), mkNewEventChainLinks c s []) <$> (tuples : gmap string position) in
    batches ← fueled (_get_chain_links (db_links db)
                        (list_to_set (fst <$> (map_to_list cm).*2)));
    chain_links ← lift (stored_links batches);
    sorted ← fueled (sorted_topologically (events_to_calc_chain_id_for st)
                       (event_to_auth_chain st));
    '(to_return, _) ← fold_run (link_event cm (auth_of st)) sorted (to_return, chain_links);
    mret (to_return, db).

(** ** [_persist_chain_cover_index] *)

(** An insert into [event_auth_chains], which has unique event IDs and unique
    positions. *)
Definition insert_chain (chains : gmap string position) (event_id : string) (pos : position)
    : result (gmap string position) :=
  _ ← raise_if (bool_decide (event_id ∈ dom chains ∨
                             pos ∈ (map_to_list chains).*2)) IntegrityError;
  Ok (<[event_id := pos]> chains).

Definition _persist_chain_cover_index (db : database)
    (new_event_links : gmap string NewEventChainLinks) : result database :=
  chains ← fold_res (λ chains '(event_id, n),
    insert_chain chains event_id (chain_id n, sequence_number n))
    (map_to_list new_event_links) (db_chains db);
  Ok (mkDatabase (db_rooms db) (db_events db) (db_event_auth db) chains
        (db_links db ++
         '(_, n) ← map_to_list new_event_links;
         '(tc, ts) ← links n;
         [(chain_id n, sequence_number n, tc, ts)])
        (filter (λ '(event_id, _), event_id ∉ dom new_event_links) (db_to_calculate db))
        (db_chain_seq db)).

(** [_add_chain_cover_index] *)
Definition _add_chain_cover_index (db : database) (event_to_room_id : gmap string string)
    (types : gmap string (string * string)) (auth : gmap string (list string)) : run database :=
  '(new_event_links, db) ← _calculate_chain_cover_index db event_to_room_id types auth;
  lift (_persist_chain_cover_index db new_event_links).

(** ** Persisting events *)

(** [calculate_chain_cover_index_for_events], and its transaction. *)
Definition dedup_state_events (events : list new_event) : list new_event :=
  (foldl (λ '(acc, seen) event,
    if decide (is_state event = false ∨ ne_event_id event ∈ (seen : gset string)) then (acc, seen)
    else (acc ++ [event], {[ne_event_id event]} ∪ seen)) ([], ∅) events).1.

Definition calculate_chain_cover_index_for_events (db : database) (room_id : string)
    (events : list new_event) : run (gmap string NewEventChainLinks * database) :=
  let state_events := dedup_state_events events in
  if decide (state_events = []) then mret (∅, db)
  else
    match db_rooms db !! room_id with
    | None | Some (Some false) => mret (∅, db)
    | _ =>
        let state_events :=
          filter (λ e, ne_event_id e ∉ dom (db_chains db)) state_events in
        if decide (state_events = []) then mret (∅, db)
        else
          let table {A} (f : new_event → A) : gmap string A :=
            foldl (λ m e, <[ne_event_id e := f e]> m) ∅ state_events in
          _calculate_chain_cover_index db (table ne_room_id)
            (table (λ e, (ne_type e, default "" (ne_state_key e))))
            (table ne_auth_events)
    end.

(** [_persist_event_auth_chain_txn]; without state events there is no row to
    insert, and it returns early. *)
Definition _persist_event_auth_chain_txn (db : database) (events : list new_event)
    (new_event_links : gmap string NewEventChainLinks) : result database :=
  db ← (if decide (new_event_links = ∅) then Ok db
        else _persist_chain_cover_index db new_event_links);
  Ok (mkDatabase (db_rooms db) (db_events db)
        (db_event_auth db ++
         e ← events;
         if is_state e then (λ a, (ne_event_id e, a)) <$> ne_auth_events e else [])
        (db_chains db) (db_links db) (db_to_calculate db) (db_chain_seq db)).

(** The rows of [events] and [state_events] that [_store_event_txn] inserts. *)
Definition _store_event_txn (db : database) (events : list new_event) : database :=
  mkDatabase (db_rooms db)
    (foldl (λ m e, <[ne_event_id e :=
       mkEventRow (ne_room_id e) (ne_type e) (ne_state_key e) (ne_depth e)]> m)
       (db_events db) events)
    (db_event_auth db) (db_chains db) (db_links db) (db_to_calculate db) (db_chain_seq db).

(** [_update_outliers_txn] leaves the events that are not in the table. *)
Definition not_persisted (db : database) (events : list new_event) : list new_event :=
  filter (λ e, ne_event_id e ∉ dom (db_events db)) events.

(** [_filter_events_and_contexts_for_duplicates]: of each event the earliest
    copy that is not an outlier, else the earliest. *)
Definition keep_event (acc : list new_event) (event : new_event) : list new_event :=
  match list_find (λ e, ne_event_id e = ne_event_id event) acc with
  | None => acc ++ [event]
  | Some (i, prev) =>
      if negb (ne_outlier event) && ne_outlier prev then delete i acc ++ [event] else acc
  end.

Definition _filter_events_and_contexts_for_duplicates (events : list new_event)
    : list new_event :=
  foldl keep_event [] events.

(** Persisting a chunk of events of a room: the index is computed, then the
    events that are new are stored with their auth events and the index. *)
Definition persist_events (db : database) (room_id : string) (events : list new_event)
    : run database :=
  '(new_event_links, db) ← calculate_chain_cover_index_for_events db room_id events;
  let events := not_persisted db (_filter_events_and_contexts_for_duplicates events) in
  lift (_persist_event_auth_chain_txn (_store_event_txn db events) events new_event_links).
