(* ===== verification/ChainCoverInv.v ===== *)
(** What the stored index means: a cover of the auth DAG by chains, whose links
    reach exactly the auth chain. *)
From stdpp Require Import ssreflect.
From S2P Require Import Prelude ChainLinks ChainLinksProps ChainLinksWalk.

Section cover.
(** The auth events of every event.  An event ID stands for one event, and auth
    events are older: [rank] is any measure that shows it. *)
Context (auth : string → list string) (rank : string → nat).
Context (rank_lt : ∀ e a, a ∈ auth e → rank a < rank e).

Definition is_auth (e a : string) : Prop := a ∈ auth e.

(** [f] is in the auth chain of [e]. *)
Definition auth_chain (e f : string) : Prop := tc is_auth e f.

Lemma auth_chain_rank e f : auth_chain e f → rank f < rank e.
Proof. induction 1 as [e f H|e f g H _ IH]; apply rank_lt in H; lia. Qed.

Lemma auth_rtc_rank e f : rtc is_auth e f → rank f ≤ rank e.
Proof. induction 1 as [|e f g H _ IH]; [done|]. apply rank_lt in H. lia. Qed.

Record cover (chains : gmap string position) (link : position → position → Prop) : Prop := {
  cv_pos e c s : chains !! e = Some (c, s) → (1 ≤ s)%Z;
  cv_inj e f x : chains !! e = Some x → chains !! f = Some x → e = f;
  cv_pred e c s :
    chains !! e = Some (c, s) → (1 < s)%Z →
    ∃ p, p ∈ auth e ∧ chains !! p = Some (c, (s - 1)%Z);
  cv_complete e a x :
    chains !! e = Some x → a ∈ auth e → ∃ y, chains !! a = Some y ∧ reach link x y;
  cv_sound x y :
    link x y → x.1 ≠ y.1 ∧ ∃ e a, chains !! e = Some x ∧ chains !! a = Some y ∧ a ∈ auth e;
  cv_unique x t s1 s2 : link x (t, s1) → link x (t, s2) → s1 = s2
}.

Context (chains : gmap string position) (link : position → position → Prop).

(** Positions that are cuts of an auth DAG: all but the completeness of links. *)
Section positions.
Context (Hpos : ∀ e c s, chains !! e = Some (c, s) → (1 ≤ s)%Z).
Context (Hinj : ∀ e f x, chains !! e = Some x → chains !! f = Some x → e = f).
Context (Hpred : ∀ e c s, chains !! e = Some (c, s) → (1 < s)%Z →
  ∃ p, p ∈ auth e ∧ chains !! p = Some (c, (s - 1)%Z)).
Context (Hsound : ∀ x y, link x y →
  x.1 ≠ y.1 ∧ ∃ e a, chains !! e = Some x ∧ chains !! a = Some y ∧ a ∈ auth e).

(** A chain holds an event at each lower position, in the auth chain. *)
Lemma chain_down e c s s' :
  chains !! e = Some (c, s) → (1 ≤ s' ≤ s)%Z →
  ∃ f, chains !! f = Some (c, s') ∧ rtc is_auth e f.
Proof.
  intros He [H1 Hs]. assert (∃ n, s = s' + Z.of_nat n)%Z as [n ->]
    by (exists (Z.to_nat (s - s')); lia).
  clear Hs. revert e He. induction n as [|n IH]; intros e He.
  - exists e. split; [by rewrite Z.add_0_r in He|constructor].
  - destruct (Hpred _ _ _ He) as (p & Hp & Hcp); [lia|].
    destruct (IH p) as (f & Hf & Hr).
    { rewrite Hcp. do 2 f_equal. lia. }
    exists f. split; [done|]. by eapply rtc_l.
Qed.

Lemma chain_order e f c s s' :
  chains !! e = Some (c, s) → chains !! f = Some (c, s') → (s' ≤ s)%Z → rtc is_auth e f.
Proof.
  intros He Hf Hle. destruct (chain_down e c s s') as (f' & Hf' & Hr); [done| |].
  - split; [by eapply Hpos|done].
  - by rewrite (Hinj _ _ _ Hf Hf').
Qed.

(** A path of at least one link is a walk in the auth DAG. *)
Lemma reach_walk x y :
  reach link x y →
  (x.1 = y.1 ∧ (y.2 ≤ x.2)%Z) ∨
  ∃ e f s1 s2, chains !! e = Some (x.1, s1) ∧ (s1 ≤ x.2)%Z ∧
    chains !! f = Some (y.1, s2) ∧ (y.2 ≤ s2)%Z ∧ auth_chain e f.
Proof.
  induction 1 as [c s s' Hs|c s s1 y z Hs Hl Hr IH]; [by left|]. right. simpl.
  destruct (Hsound _ _ Hl) as (_ & e & a & He & Ha & Hea).
  destruct IH as [[Hyz Hle]|(e' & f & s3 & s4 & He' & Hs3 & Hf & Hs4 & Hc)].
  - exists e, a, s1, y.2. split_and!; [done|done|by rewrite -Hyz -surjective_pairing|done|].
    by apply tc_once.
  - exists e, f, s1, s4. split_and!; try done. destruct y as [t ts]. simpl in *.
    assert (rtc is_auth a e') as Hae by (by eapply chain_order).
    eapply tc_rtc_l; [|exact Hc]. eapply rtc_l; [exact Hea|exact Hae].
Qed.

(** Between the positions of two events. *)
Lemma reach_sound e f x y :
  chains !! e = Some x → chains !! f = Some y → reach link x y → rtc is_auth e f.
Proof.
  intros He Hf [[H1 H2]|(e' & f' & s1 & s2 & He' & H1 & Hf' & H2 & Hc)]%reach_walk;
    destruct x as [c s], y as [t ts]; simpl in *.
  - subst t. by eapply chain_order.
  - etrans; [eapply chain_order; [exact He|exact He'|exact H1]|].
    etrans; [by apply tc_rtc|]. by eapply chain_order.
Qed.

Lemma links_positive : positive link.
Proof. intros x c s Hl. destruct (Hsound _ _ Hl) as (_ & e & a & _ & Ha & _). by eapply Hpos. Qed.

Lemma links_descending : descending link.
Proof.
  intros c s s' [[_ ?]|(e & f & s1 & s2 & He & H1 & Hf & H2 & Hc)]%reach_walk; [done|].
  simpl in *. destruct (decide (s2 ≤ s1)%Z); [lia|]. exfalso.
  assert (rtc is_auth f e) as Hr%auth_rtc_rank by (eapply chain_order; [exact Hf|exact He|lia]).
  apply auth_chain_rank in Hc. lia.
Qed.
End positions.

Context (Hcover : cover chains link).

(** The links reach exactly the event and its auth chain. *)
Lemma cover_reach e f x y :
  chains !! e = Some x → chains !! f = Some y → reach link x y ↔ rtc is_auth e f.
Proof.
  intros He Hf. split; [eapply reach_sound; [apply Hcover..|exact He|exact Hf]|].
  intros Hr. revert x He. induction Hr as [e|e g f Hg Hr IH]; intros x He.
  - rewrite He in Hf. injection Hf as ->. apply reach_refl.
  - destruct (cv_complete _ _ Hcover e g x He Hg) as (z & Hz & Hxz).
    eapply reach_trans; [exact Hxz|]. by apply IH.
Qed.

Lemma cover_closed e f : is_Some (chains !! e) → rtc is_auth e f → is_Some (chains !! f).
Proof.
  intros He Hr. induction Hr as [|e g f Hg Hr IH]; [done|]. destruct He as [x He].
  apply IH. destruct (cv_complete _ _ Hcover e g x He Hg) as (y & Hy & _). by eexists.
Qed.
End cover.
