(* ===== verification/ChainCoverGather.v ===== *)
(** The first half of [_calculate_chain_cover_index]: gathering the events to
    index ends, and what is kept has all its auth events at hand. *)
From stdpp Require Import ssreflect.
From S2P Require Import Prelude TopoSort IterUtils ChainLinks ChainCover ChainCoverInv.

(** ** Facts on runs *)
Lemma run_bind_ok {A B} (m : run A) (f : A → run B) x : m = Some (Ok x) → (y ← m; f y) = f x.
Proof. by intros ->. Qed.

Lemma fueled_some {A} (o : option A) x : o = Some x → fueled o = Some (Ok x).
Proof. by intros ->. Qed.

Lemma fold_res_inv {A S} (I : list A → S → Prop) (f : S → A → result S) l s :
  I [] s →
  (∀ l1 x l2 s, l = l1 ++ x :: l2 → I l1 s → ∃ s', f s x = Ok s' ∧ I (l1 ++ [x]) s') →
  ∃ s', fold_res f l s = Ok s' ∧ I l s'.
Proof.
  intros H0 Hstep.
  assert (∀ l2 l1 s, l = l1 ++ l2 → I l1 s → ∃ s', fold_res f l2 s = Ok s' ∧ I l s') as Hgo.
  { induction l2 as [|x l2 IH]; intros l1 s0 Hl Hi; simpl.
    - rewrite app_nil_r in Hl. subst. eauto.
    - destruct (Hstep _ _ _ _ Hl Hi) as (s' & -> & Hi'). simpl.
      apply (IH (l1 ++ [x])); [by rewrite -app_assoc|done]. }
  by apply (Hgo l []).
Qed.

Lemma fold_run_inv {A S} (I : list A → S → Prop) (f : S → A → run S) l s :
  I [] s →
  (∀ l1 x l2 s, l = l1 ++ x :: l2 → I l1 s → ∃ s', f s x = Some (Ok s') ∧ I (l1 ++ [x]) s') →
  ∃ s', fold_run f l s = Some (Ok s') ∧ I l s'.
Proof.
  intros H0 Hstep.
  assert (∀ l2 l1 s, l = l1 ++ l2 → I l1 s → ∃ s', fold_run f l2 s = Some (Ok s') ∧ I l s') as Hgo.
  { induction l2 as [|x l2 IH]; intros l1 s0 Hl Hi; simpl.
    - rewrite app_nil_r in Hl. subst. eauto.
    - destruct (Hstep _ _ _ _ Hl Hi) as (s' & -> & Hi'). simpl.
      apply (IH (l1 ++ [x])); [by rewrite -app_assoc|done]. }
  by apply (Hgo l []).
Qed.

(** A state event of the table. *)
Definition stored (db : database) (e : string) : Prop :=
  ∃ row sk, db_events db !! e = Some row ∧ er_state_key row = Some sk.

#[export] Instance stored_dec db e : Decision (stored db e).
Proof.
  unfold stored. destruct (db_events db !! e) as [[r t [sk|] d]|].
  - left. by eexists _, _.
  - right. naive_solver.
  - right. naive_solver.
Defined.

Section gather.
Context (auth : string → list string) (db : database).

Record tables_ok : Prop := {
  tb_auth e : stored db e → select_auth db e = auth e;
  tb_new e : ¬ stored db e → select_auth db e = [];
  tb_indexed e : e ∈ dom (db_chains db) → stored db e;
  tb_waiting e : e ∈ dom (db_to_calculate db) → stored db e ∧ e ∉ dom (db_chains db)
}.
Context (Hdb : tables_ok).

(** What is gathered; [batch] are the events that are about to be stored. *)
Record calc_ok (batch : gset string) (st : calc) : Prop := {
  co_auth e l : event_to_auth_chain st !! e = Some l → l = auth e;
  co_calc e : e ∈ events_to_calc_chain_id_for st →
    e ∈ dom (event_to_auth_chain st) ∧ e ∉ dom (db_chains db) ∧ (e ∈ batch ∨ stored db e);
  co_auth_dom e : e ∈ dom (event_to_auth_chain st) → e ∈ events_to_calc_chain_id_for st;
  co_map : chain_map st ⊆ db_chains db;
  co_types e : e ∈ dom (event_to_types st) →
    e ∈ events_to_calc_chain_id_for st ∨ e ∈ dom (chain_map st);
  co_types_calc e : e ∈ events_to_calc_chain_id_for st → e ∈ dom (event_to_types st);
  co_batch e : e ∈ batch → e ∈ events_to_calc_chain_id_for st
}.

(** Every auth event is known, is among those still to be fetched, or is not
    stored. *)
Definition gathered (st : calc) (missing : gset string) : Prop :=
  ∀ e a, e ∈ events_to_calc_chain_id_for st → a ∈ auth e →
    a ∈ events_to_calc_chain_id_for st ∨ a ∈ dom (chain_map st) ∨ a ∈ missing ∨ ¬ stored db a.

Lemma calc_ok_add batch st e sk :
  calc_ok batch st → stored db e → e ∉ dom (db_chains db) →
  calc_ok batch (mkCalc (<[e := sk]> (event_to_types st))
    (<[e := select_auth db e]> (event_to_auth_chain st))
    ({[e]} ∪ events_to_calc_chain_id_for st) (chain_map st)).
Proof.
  intros [H1 H2 H3 H4 H5 H6 H7] Hs Hc. split; simpl.
  - intros e' l [[<- <-]|[_ ?]]%lookup_insert_Some; [by apply tb_auth|by apply H1].
  - intros e' [->%elem_of_singleton|He]%elem_of_union; rewrite dom_insert_L.
    + split_and!; [set_solver|done|by right].
    + destruct (H2 _ He) as (? & ? & ?). split_and!; [set_solver|done|done].
  - rewrite dom_insert_L. set_solver.
  - done.
  - rewrite dom_insert_L. set_solver.
  - rewrite dom_insert_L. set_solver.
  - set_solver.
Qed.

Lemma add_waiting_ok batch rooms st :
  calc_ok batch st → calc_ok batch (add_waiting db rooms st).
Proof.
  intros Hok. unfold add_waiting.
  assert (∀ m, m ⊆ db_to_calculate db → calc_ok batch (map_fold (λ event_id '(room_id, event_type, state_key) st,
    if decide (room_id ∈ rooms) then
      mkCalc (<[event_id := (event_type, state_key)]> (event_to_types st))
        (<[event_id := select_auth db event_id]> (event_to_auth_chain st))
        ({[event_id]} ∪ events_to_calc_chain_id_for st) (chain_map st)
    else st) st m)) as Hgo; [|by apply Hgo].
  intros m. apply (map_fold_weak_ind (λ st m, m ⊆ db_to_calculate db → calc_ok batch st)); [done|].
  intros e [[r t] k] m' st' Hm' IH Hsub.
  assert (db_to_calculate db !! e = Some (r, t, k)) as He.
  { eapply lookup_weaken; [by apply lookup_insert_eq|done]. }
  assert (calc_ok batch st') as Hok'.
  { apply IH. etrans; [by apply insert_subseteq|exact Hsub]. }
  case_decide; [|done]. destruct (tb_waiting Hdb e) as [? ?]; [by eapply elem_of_dom_2|].
  by apply calc_ok_add.
Qed.

(** One row of the query. *)
Lemma fetch_missing_ok batch st missing a st' missing' :
  calc_ok batch st → gathered st ({[a]} ∪ missing) →
  fetch_missing db (st, missing) a = (st', missing') →
  calc_ok batch st' ∧ gathered st' missing' ∧
  dom (event_to_types st) ⊆ dom (event_to_types st') ∧
  (∀ e, e ∈ missing' → e ∈ missing ∨ e ∉ dom (event_to_types st)) ∧
  (stored db a → a ∈ dom (event_to_types st')) ∧
  (¬ stored db a → (st', missing') = (st, missing)).
Proof.
  intros Hok Hg. unfold fetch_missing.
  destruct (db_events db !! a) as [[room ty [sk|] dep]|] eqn:Ea.
  2, 3: assert (¬ stored db a) as Hns by (unfold stored; rewrite Ea; naive_solver);
    intros [= <- <-]; split_and!; try done; [|by left];
    intros e b He Hb; destruct (Hg e b He Hb) as [?|[?|[Hin|?]]]; try tauto;
    (apply elem_of_union in Hin as [->%elem_of_singleton|?]; tauto).
  assert (stored db a) as Hsa by (by eexists _, _).
  destruct (db_chains db !! a) as [pos|] eqn:Ec; intros [= <- <-].
  - assert (calc_ok batch (mkCalc (<[a:=(ty, sk)]> (event_to_types st)) (event_to_auth_chain st)
      (events_to_calc_chain_id_for st) (<[a:=pos]> (chain_map st)))) as Hok'.
    { destruct Hok as [H1 H2 H3 H4 H5 H6 H7]. split; simpl; try done.
      - by apply insert_subseteq_l.
      - rewrite !dom_insert_L. set_solver.
      - rewrite dom_insert_L. set_solver. }
    split_and!; simpl; [done| |rewrite dom_insert_L; set_solver|by left|
      rewrite dom_insert_L; set_solver|done].
    intros e b He Hb. simpl in *. rewrite dom_insert_L.
    destruct (Hg e b He Hb) as [?|[?|[?|?]]]; set_solver.
  - split_and!; simpl; [| |rewrite dom_insert_L; set_solver| |
      rewrite dom_insert_L; set_solver|done].
    + apply calc_ok_add; [done|done|by apply not_elem_of_dom].
    + intros e b He Hb. simpl in *. destruct (decide (b ∈ events_to_calc_chain_id_for st)) as [|Hn1].
      { left. set_solver. }
      destruct (decide (b ∈ dom (chain_map st))) as [|Hn2]; [by right; left|].
      destruct (decide (b = a)) as [->|Hba]; [left; set_solver|].
      destruct (decide (b ∈ dom (event_to_types st))) as [Ht|Ht].
      { destruct (co_types _ _ Hok b Ht); tauto. }
      apply elem_of_union in He as [->%elem_of_singleton|He].
      * right; right; left. apply elem_of_union_l, elem_of_list_to_set, list_elem_of_filter.
        rewrite (tb_auth Hdb a Hsa) dom_insert_L. set_solver.
      * destruct (Hg e b He Hb) as [?|[?|[?|?]]]; set_solver.
    + intros e. rewrite elem_of_union elem_of_list_to_set list_elem_of_filter dom_insert_L. set_solver.
Qed.

Lemma fetch_rows_ok batch l st missing st' missing' :
  calc_ok batch st → gathered st (list_to_set l ∪ missing) →
  foldl (fetch_missing db) (st, missing) l = (st', missing') →
  calc_ok batch st' ∧ gathered st' missing' ∧
  dom (event_to_types st) ⊆ dom (event_to_types st') ∧
  (∀ e, e ∈ missing' → e ∈ missing ∨ e ∉ dom (event_to_types st)) ∧
  (∀ a, a ∈ l → stored db a → a ∈ dom (event_to_types st')) ∧
  ((∀ a, a ∈ l → ¬ stored db a) → missing' = missing).
Proof.
  revert st missing. induction l as [|a l IH]; intros st missing Hok Hg H.
  - injection H as <- <-. split_and!; try done; [|by left|set_solver].
    by rewrite list_to_set_nil (left_id_L ∅ (∪)) in Hg.
  - cbn [foldl] in H. destruct (fetch_missing db (st, missing) a) as [st1 m1] eqn:E.
    destruct (fetch_missing_ok batch st (list_to_set l ∪ missing) a st1 (list_to_set l ∪ m1))
      as (K1 & K2 & K3 & K4 & K5 & K6).
    { done. }
    { by rewrite list_to_set_cons -assoc_L in Hg. }
    { clear -E. unfold fetch_missing in *.
      destruct (db_events db !! a) as [[? ? [?|] ?]|]; [destruct (db_chains db !! a)|..];
        injection E as <- <-; f_equal; set_solver. }
    destruct (IH st1 m1 K1 K2 H) as (L1 & L2 & L3 & L4 & L5 & L6).
    assert (∀ e, e ∈ m1 → e ∈ missing ∨ e ∉ dom (event_to_types st)) as Hm1.
    { clear -E. unfold fetch_missing in E. intros e He.
      destruct (db_events db !! a) as [[? ? [?|] ?]|]; [destruct (db_chains db !! a)|..];
        injection E as <- <-; try (by left).
      apply elem_of_union in He as [(He & _)%elem_of_list_to_set%list_elem_of_filter|?]; [|by left].
      rewrite dom_insert_L in He. set_solver. }
    split_and!; [done|done|by etrans| | |].
    + intros e [He|He]%L4; [by apply Hm1|right; set_solver].
    + intros b [-> |Hb]%elem_of_cons Hs; [by apply L3, K5|by apply L5].
    + intros Hn. rewrite L6; [|intros b ?; apply Hn; by right].
      clear -E Hn. unfold fetch_missing in E. specialize (Hn a ltac:(by left)).
      destruct (db_events db !! a) as [[? ? [?|] ?]|] eqn:Ea; try by injection E as <- <-.
      exfalso. apply Hn. by eexists _, _.
Qed.

(** The number of events whose type is not known. *)
Definition unknown (st : calc) : nat := size (dom (db_events db) ∖ dom (event_to_types st)).

Lemma missing_loop_ok batch fuel st missing (prev : gset string) :
  calc_ok batch st → gathered st missing →
  prev ⊆ dom (event_to_types st) → (∀ e, e ∈ missing → e ∉ prev) →
  size (dom (db_events db) ∖ prev) + unknown st < fuel →
  ∃ st', missing_loop fuel db st missing = Some st' ∧ calc_ok batch st' ∧ gathered st' ∅.
Proof.
  revert st missing prev. induction fuel as [|fuel IH]; intros st missing prev Hok Hg Hp Hm Hf; [lia|].
  cbn [missing_loop]. case_decide as He; [subst; by exists st|].
  destruct (foldl _ _ _) as [st' missing'] eqn:E.
  apply (fetch_rows_ok batch) in E as (L1 & L2 & L3 & L4 & L5 & L6); [|done|].
  2: { by rewrite (right_id_L ∅ (∪)) list_to_set_elements_L. }
  destruct (decide (Exists (stored db) (elements missing))) as [(a & Ha & Hs)%Exists_exists|Hn].
  - apply (IH st' missing' (dom (event_to_types st))); try done.
    { intros e [?|?]%L4; [set_solver|done]. }
    assert (unknown st' < size (dom (db_events db) ∖ prev)); [|unfold unknown in *; lia].
    unfold unknown. apply subset_size. assert (a ∉ prev) by (by apply Hm, elem_of_elements).
    assert (a ∈ dom (db_events db)) by (destruct Hs as (? & ? & ? & _); by eapply elem_of_dom_2).
    specialize (L5 a Ha Hs). set_solver.
  - assert (missing' = ∅) as ->.
    { apply L6. intros a Ha Hs. apply Hn, Exists_exists. eauto. }
    exists st'. split; [|done]. by destruct fuel.
Qed.

(** ** The events left for later *)

(** A database that differs in the events that wait for their auth chain. *)
Definition with_waiting (db' : database) (P : string → Prop) : Prop :=
  (∃ w, db' = mkDatabase (db_rooms db) (db_events db) (db_event_auth db) (db_chains db)
                (db_links db) w (db_chain_seq db)) ∧
  ∀ e, e ∈ dom (db_to_calculate db') ↔ e ∈ dom (db_to_calculate db) ∨ P e.

Context (rank : string → nat) (rank_lt : ∀ e a, a ∈ auth e → rank a < rank e).
Context (event_to_room_id : gmap string string) (st : calc).
Abbreviation batch := (dom event_to_room_id).
Abbreviation E := (events_to_calc_chain_id_for st).
Context (Hok : calc_ok batch st) (Hg : gathered st ∅).
Context (Hrooms : ∀ e r, event_to_room_id !! e = Some r → str_nonempty r = true).

Record discard_inv (done : list string) (acc : calc * database) : Prop := {
  di_types : event_to_types acc.1 = event_to_types st;
  di_auth : event_to_auth_chain acc.1 = event_to_auth_chain st;
  di_map : chain_map acc.1 = chain_map st;
  di_sub e : e ∈ events_to_calc_chain_id_for acc.1 → e ∈ E;
  di_later e : e ∈ E → e ∉ done → e ∈ events_to_calc_chain_id_for acc.1;
  di_kept e a : e ∈ events_to_calc_chain_id_for acc.1 → e ∈ done → a ∈ auth e →
    a ∈ dom (chain_map st) ∨ a ∈ events_to_calc_chain_id_for acc.1;
  di_left e : e ∈ E → e ∉ events_to_calc_chain_id_for acc.1 →
    ∃ a, auth_chain auth e a ∧ ¬ stored db a ∧ a ∉ batch;
  di_db : with_waiting acc.2 (λ e, e ∈ batch ∧ e ∉ events_to_calc_chain_id_for acc.1)
}.

Lemma auth_of_calc e : e ∈ E → auth_of st e = auth e.
Proof.
  intros He. destruct (co_calc _ _ Hok e He) as ([l Hl]%elem_of_dom & _). unfold auth_of.
  rewrite Hl /=. by apply (co_auth _ _ Hok).
Qed.

Lemma nodes_calc e : e ∈ dom (event_to_auth_chain st) ↔ e ∈ E.
Proof. split; [apply (co_auth_dom _ _ Hok)|intros ?; by apply (co_calc _ _ Hok)]. Qed.

Lemma discard_step_ok done e rest acc :
  NoDup (done ++ e :: rest) →
  in_order (dom (event_to_auth_chain st)) (event_to_auth_chain st) [] (done ++ e :: rest) →
  discard_inv done acc →
  ∃ acc', discard_step event_to_room_id acc e = Ok acc' ∧ discard_inv (done ++ [e]) acc'.
Proof.
  intros Hnd Hord [H1 H2 H3 H4 H5 H6 H7 H8]. destruct acc as [st1 db1]. simpl in *.
  assert (e ∈ E) as He. { apply nodes_calc. by apply (Hord done e rest). }
  assert (e ∉ done) as Hed.
  { intros Hin. apply NoDup_app in Hnd as (_ & Hd & _). apply (Hd e Hin). by left. }
  unfold discard_step, auth_of. rewrite H2 H3. fold (auth_of st e). rewrite auth_of_calc //.
  case_decide as Hex.
  - apply Exists_exists in Hex as (a & Ha & Hna & Hnc).
    assert (∃ w, db1 = mkDatabase (db_rooms db) (db_events db) (db_event_auth db) (db_chains db)
                (db_links db) w (db_chain_seq db)) as [w ->] by apply H8.
    destruct H8 as [_ Hw]. simpl in Hw.
    assert (∀ w' : gmap string (string * string * string),
      (∀ x, x ∈ dom w' ↔ x ∈ dom w ∨ (x = e ∧ e ∈ batch)) →
      discard_inv (done ++ [e])
        (mkCalc (event_to_types st1) (event_to_auth_chain st) (events_to_calc_chain_id_for st1 ∖ {[e]})
           (chain_map st),
         mkDatabase (db_rooms db) (db_events db) (db_event_auth db) (db_chains db)
                (db_links db) w' (db_chain_seq db))) as Hgo.
    { intros w' Hw'. split; simpl; try done.
      - set_solver.
      - intros x Hx Hxd. apply elem_of_difference. split; [|set_solver]. apply H5; set_solver.
      - intros x b [Hx Hxe]%elem_of_difference Hxd Hb.
        assert (x ∈ done) as Hxd' by set_solver. destruct (H6 x b Hx Hxd' Hb) as [?|Hbc]; [by left|].
        right. apply elem_of_difference. split; [done|]. intros ->%elem_of_singleton.
        apply list_elem_of_split in Hxd' as (l1 & l2 & ->).
        destruct (Hord l1 x (l2 ++ e :: rest)) as [Hxn Hdeps]; [by rewrite -app_assoc|].
        apply Hed. rewrite elem_of_app. left. simpl in Hdeps.
        apply (elem_of_list_to_set (C:=gset string)), Hdeps. unfold deps_in.
        apply elem_of_filter. split; [by apply nodes_calc|].
        apply elem_of_list_to_set. fold (auth_of st x). rewrite auth_of_calc //. by apply H4.
      - intros x Hx Hxn. destruct (decide (x = e)) as [->|Hne]; [|apply H7; set_solver].
        destruct (decide (a ∈ E)) as [HaE|HaE].
        + destruct (H7 a HaE Hnc) as (b & Hb & ? & ?). exists b.
          split; [by eapply tc_l|done].
        + exists a. split_and!; [by apply tc_once| |].
          * destruct (Hg e a He Ha) as [?|[?|[?%elem_of_empty|?]]]; try done.
          * intros Hab. by apply HaE, (co_batch _ _ Hok).
      - split; [by eexists|]. simpl. intros x. rewrite Hw' Hw.
        destruct (decide (x = e)) as [->|]; set_solver. }
    destruct (event_to_room_id !! e) as [room|] eqn:Er.
    + rewrite (Hrooms _ _ Er). pose proof (co_types_calc _ _ Hok e He) as [[t k] Ht]%elem_of_dom.
      rewrite H1 Ht /=. eexists. split; [done|]. rewrite -H1. apply Hgo. intros x.
      rewrite dom_insert_L. assert (e ∈ batch) by (by eapply elem_of_dom_2). set_solver.
    + eexists. split; [done|]. apply Hgo. intros x. apply not_elem_of_dom in Er. set_solver.
  - eexists. split; [done|]. split; simpl; try done.
    + set_solver.
    + intros x b Hx [Hxd| ->%list_elem_of_singleton]%elem_of_app Hb; [by eapply H6|].
      destruct (decide (b ∈ dom (chain_map st))) as [|Hn1]; [by left|].
      destruct (decide (b ∈ events_to_calc_chain_id_for st1)) as [|Hn2]; [by right|].
      exfalso. apply Hex, Exists_exists. eauto.
Qed.

(** After the loop every event that is kept has its auth events in a chain or
    kept; an event is left for later only if its auth chain lacks an event. *)
Lemma discard_ok :
  ∃ sorted st' db',
    sorted_topologically (dom (event_to_auth_chain st)) (event_to_auth_chain st) = Some sorted ∧
    fold_res (discard_step event_to_room_id) sorted (st, db) = Ok (st', db') ∧
    discard_inv (elements E) (st', db').
Proof.
  set (nodes := dom (event_to_auth_chain st)).
  destruct (sorted_topologically_spec nodes (event_to_auth_chain st)) as (l & Hl & Hnd & Ho & _).
  assert (∀ n, n ∈ nodes ↔ n ∈ l) as Hall.
  { apply (sorted_topologically_complete nodes (event_to_auth_chain st) rank); [|done].
    intros n e Hn%nodes_calc (_ & He)%elem_of_filter. apply rank_lt.
    apply elem_of_list_to_set in He. fold (auth_of st n) in He. by rewrite auth_of_calc in He. }
  destruct (fold_res_inv discard_inv (discard_step event_to_room_id) l (st, db))
    as ([st' db'] & Hf & Hi).
  - split; simpl; try done.
    { intros e a _ []%elem_of_nil. }
    split; [by exists (db_to_calculate db); destruct db|]. intros e. split; [by left|]. intros [?|[Hb Hn]]; [done|]. by apply (co_batch _ _ Hok) in Hb.
  - intros l1 e l2 acc -> Hinv. by eapply discard_step_ok.
  - exists l, st', db'. split_and!; [done|done|].
    destruct Hi as [H1 H2 H3 H4 H5 H6 H7 H8]. split; try done.
    + intros e He Hn. exfalso. by apply Hn, elem_of_elements.
    + intros e a He _. apply H6; [done|]. apply Hall, nodes_calc, H4, He.
Qed.
End gather.
