(* ===== verification/ChainCoverAlloc.v ===== *)
(** [_allocate_chain_ids] gives every event to index a position of its own: the
    one after an auth event's, or the first of a new chain. *)
From stdpp Require Import ssreflect.
From S2P Require Import Prelude TopoSort IterUtils ChainLinks ChainCover ChainCoverInv ChainCoverGather.

(** ** The largest sequence number of a chain *)
Record max_of (chains : gmap string position) (existing : gset Z) (m : gmap chain_key Z) : Prop := {
  mo_chain k v : m !! k = Some v → ∃ c e, k = Chain c ∧ c ∈ existing ∧ chains !! e = Some (c, v);
  mo_le e c s v : chains !! e = Some (c, s) → m !! Chain c = Some v → (s ≤ v)%Z;
  mo_some e c s : chains !! e = Some (c, s) → c ∈ existing → is_Some (m !! Chain c)
}.

Lemma max_seq_nos_spec chains existing : max_of chains existing (max_seq_nos chains existing).
Proof.
  unfold max_seq_nos. apply (map_fold_weak_ind (λ m ch, max_of ch existing m)).
  { split; [intros *; by rewrite lookup_empty|intros *; by rewrite lookup_empty..]. }
  intros e [c s] ch m He [H1 H2 H3].
  assert (∀ e' x, ch !! e' = Some x → <[e := (c, s)]> ch !! e' = Some x) as Hmono.
  { intros e' x Hx. rewrite lookup_insert_ne //. by intros ->; rewrite He in Hx. }
  case_decide as Hc; split.
  - intros k v [[<- <-]|[Hne Hk]]%lookup_insert_Some.
    + destruct (m !! Chain c) as [s'|] eqn:Em; [|by exists c, e; rewrite lookup_insert_eq].
      destruct (Z.max_spec s s') as [[_ ->]|[_ ->]]; [|by exists c, e; rewrite lookup_insert_eq].
      destruct (H1 _ _ Em) as (c' & e' & [= <-] & _ & He'). exists c, e'. eauto.
    + destruct (H1 _ _ Hk) as (c' & e' & ? & ? & ?). exists c', e'. eauto.
  - intros e' c' s' v Hc' Hv. destruct (decide (c = c')) as [<-|Hne].
    + rewrite lookup_insert_eq in Hv. injection Hv as <-.
      apply lookup_insert_Some in Hc' as [[_ [= <-]]|[_ Hc']].
      * destruct (m !! Chain c); lia.
      * destruct (m !! Chain c) as [v|] eqn:Em; [pose proof (H2 _ _ _ _ Hc' Em); lia|].
        destruct (H3 _ _ _ Hc' Hc) as [? ?]. congruence.
    + rewrite lookup_insert_ne in Hv; [|congruence].
      apply lookup_insert_Some in Hc' as [[_ [= ? _]]|[_ Hc']]; [done|]. by eapply H2.
  - intros e' c' s' Hc' Hex. destruct (decide (c = c')) as [<-|Hne]; [by rewrite lookup_insert_eq|].
    rewrite lookup_insert_ne; [|congruence].
    apply lookup_insert_Some in Hc' as [[_ [= ? _]]|[_ Hc']]; [done|]. by eapply H3.
  - intros k v Hk. destruct (H1 _ _ Hk) as (c' & e' & ? & ? & ?). exists c', e'. eauto.
  - intros e' c' s' v Hc' Hv. apply lookup_insert_Some in Hc' as [[_ [= <- _]]|[_ Hc']]; [|by eapply H2].
    destruct (H1 _ _ Hv) as (c' & ? & [= <-] & ? & _). done.
  - intros e' c' s' Hc' Hex. apply lookup_insert_Some in Hc' as [[_ [= <- _]]|[_ Hc']]; [done|].
    by eapply H3.
Qed.

(** ** The tree *)
Definition parent (st : calc) (e : string) : option string :=
  snd <$> list_find (λ a, event_to_types st !! e = event_to_types st !! a) (auth_of st e).

Lemma parent_auth st e a : parent st e = Some a → a ∈ auth_of st e.
Proof.
  unfold parent. intros ([i a'] & Hf & ->)%fmap_Some. apply list_find_Some in Hf as (Hl & _).
  by eapply list_elem_of_lookup_2.
Qed.

Lemma tree_spec st l existing tree :
  foldl (tree_step st) (∅, []) l = (existing, tree) →
  tree = (λ e, (e, parent st e)) <$> l ∧
  (∀ e a c s, e ∈ l → parent st e = Some a → chain_map st !! a = Some (c, s) → c ∈ existing) ∧
  (∀ c, c ∈ existing → ∃ a s, chain_map st !! a = Some (c, s)).
Proof.
  assert (∀ l1 ex tr, foldl (tree_step st) (∅, []) l1 = (ex, tr) →
    tr = (λ e, (e, parent st e)) <$> l1 ∧
    (∀ e a c s, e ∈ l1 → parent st e = Some a → chain_map st !! a = Some (c, s) → c ∈ ex) ∧
    (∀ c, c ∈ ex → ∃ a s, chain_map st !! a = Some (c, s))) as Hgo; [|apply Hgo].
  intros l1. induction l1 as [|e l1 IH] using rev_ind; intros ex tr H.
  - injection H as <- <-. split_and!; [done|set_solver|set_solver].
  - rewrite foldl_snoc in H. destruct (foldl _ _ l1) as [ex1 tr1].
    destruct (IH _ _ eq_refl) as (-> & H2 & H3). unfold tree_step in H. unfold parent in *.
    rewrite fmap_app /=. destruct (list_find _ (auth_of st e)) as [[i a]|] eqn:Ef; simpl in *.
    + destruct (chain_map st !! a) as [[c s]|] eqn:Ea; injection H as <- <-; (split; [done|split]).
      * intros e' a' c' s' [Hin| ->%list_elem_of_singleton]%elem_of_app Hp Hc.
        -- apply elem_of_union_r. by eapply H2.
        -- rewrite Ef in Hp. injection Hp as <-. simpl in Hc. set_solver.
      * intros c' [->%elem_of_singleton|?]%elem_of_union; [by exists a, s|by apply H3].
      * intros e' a' c' s' [Hin| ->%list_elem_of_singleton]%elem_of_app Hp Hc; [by eapply H2|].
        rewrite Ef in Hp. injection Hp as <-. simpl in Hc. congruence.
      * done.
    + injection H as <- <-. split_and!; [done| |done].
      intros e' a' c' s' [Hin| ->%list_elem_of_singleton]%elem_of_app Hp Hc; [by eapply H2|].
      by rewrite Ef in Hp.
Qed.

(** ** The loop *)
Section alloc.
Context (auth : string → list string) (db : database) (st : calc) (existing : gset Z).
Abbreviation E := (events_to_calc_chain_id_for st).
Context (Hauth : ∀ e, e ∈ E → auth_of st e = auth e).
Context (Hclosed : ∀ e a, e ∈ E → a ∈ auth e → a ∈ dom (chain_map st) ∨ a ∈ E).
Context (Hnew : ∀ e, e ∈ E → db_chains db !! e = None).
Context (Hmap : chain_map st ⊆ db_chains db).
Context (Hpos : ∀ e c s, db_chains db !! e = Some (c, s) → (1 ≤ s)%Z).
Context (Hinj : ∀ e f x, db_chains db !! e = Some x → db_chains db !! f = Some x → e = f).
Context (Hex : ∀ c, c ∈ existing → ∃ a s, chain_map st !! a = Some (c, s)).

(** The position of an event, before new chains have an ID. *)
Definition fpos (a : alloc) (e : string) (k : chain_key) (s : Z) : Prop :=
  new_chain_tuples a !! e = Some (k, s) ∨
  ∃ c, k = Chain c ∧ db_chains db !! e = Some (c, s).

Record alloc_inv (done : list string) (a : alloc) : Prop := {
  ai_dom e : e ∈ dom (new_chain_tuples a) ↔ e ∈ done;
  ai_pos e k s : new_chain_tuples a !! e = Some (k, s) → (1 ≤ s)%Z;
  ai_max e k s m : fpos a e k s → chain_to_max_seq_no a !! k = Some m → (s ≤ m)%Z;
  ai_has e k s : new_chain_tuples a !! e = Some (k, s) → is_Some (chain_to_max_seq_no a !! k);
  ai_exist c : c ∈ existing → is_Some (chain_to_max_seq_no a !! Chain c);
  ai_inj e f k s : fpos a e k s → fpos a f k s → e = f;
  ai_pred e k s : new_chain_tuples a !! e = Some (k, s) → (1 < s)%Z →
    ∃ p, p ∈ auth e ∧ fpos a p k (s - 1);
  ai_chain e c s : new_chain_tuples a !! e = Some (Chain c, s) → c ∈ existing;
  ai_temp e n s : new_chain_tuples a !! e = Some (Temp n, s) → n ∈ unallocated_chain_ids a;
  ai_temps n : n ∈ unallocated_chain_ids a ↔ n < size (unallocated_chain_ids a)
}.

Lemma alloc_init : alloc_inv [] (mkAlloc ∅ ∅ (max_seq_nos (db_chains db) existing)).
Proof.
  pose proof (max_seq_nos_spec (db_chains db) existing) as [M1 M2 M3].
  split; simpl; try (intros *; by rewrite lookup_empty).
  - set_solver.
  - intros e k s m [Hf|(c & -> & Hc)] Hm; simpl in *; [by rewrite lookup_empty in Hf|by eapply M2].
  - intros c Hc. destruct (Hex c Hc) as (a & s & Ha). eapply M3; [|done].
    by eapply lookup_weaken.
  - intros e f k s [?|(c & -> & Hc)] [?|(c' & Heq & Hc')]; simpl in *; try by rewrite lookup_empty in H.
    injection Heq as <-. by eapply Hinj.
  - intros n. split; [set_solver|]. by intros ?%Nat.nlt_0_r.
Qed.

(** The position that is taken is free. *)
Lemma alloc_take done a e k s unalloc :
  alloc_inv done a → e ∈ E → e ∉ done →
  (1 ≤ s)%Z →
  (∀ e' s', fpos a e' k s' → (s' < s)%Z) →
  ((1 < s)%Z → ∃ p, p ∈ auth e ∧ fpos a p k (s - 1)) →
  (∀ c, k = Chain c → c ∈ existing) →
  (∀ n, k = Temp n → n ∈ unalloc) →
  unallocated_chain_ids a ⊆ unalloc → (∀ n, n ∈ unalloc ↔ n < size unalloc) →
  alloc_inv (done ++ [e])
    (mkAlloc unalloc (<[e := (k, s)]> (new_chain_tuples a)) (<[k := s]> (chain_to_max_seq_no a))).
Proof.
  intros [H1 H2 H3 H4 H5 H6 H7 H8 H9 H10] He Hed Hs Hfree Hp Hkc Hkt Hun Hsz.
  set (a' := mkAlloc _ _ _).
  assert (new_chain_tuples a !! e = None) as Hne.
  { apply not_elem_of_dom. by rewrite H1. }
  assert (∀ e' k' s', fpos a' e' k' s' ↔ (e' = e ∧ k' = k ∧ s' = s) ∨ fpos a e' k' s') as Hf.
  { intros e' k' s'. unfold fpos. simpl. destruct (decide (e' = e)) as [->|Hee].
    - rewrite lookup_insert_eq Hne. naive_solver.
    - rewrite lookup_insert_ne //. naive_solver. }
  assert (∀ e', fpos a e' k s → False) as Hno by (intros e' Hfp%Hfree; lia).
  split; simpl.
  - intros e'. rewrite dom_insert_L elem_of_union H1 elem_of_app elem_of_singleton.
    rewrite list_elem_of_singleton. tauto.
  - intros e' k' s' [[<- [= <- <-]]|[_ ?]]%lookup_insert_Some; [done|by eapply H2].
  - intros e' k' s' m [(-> & -> & ->)|Hfp]%Hf Hm.
    + rewrite lookup_insert_eq in Hm. by injection Hm as ->.
    + destruct (decide (k = k')) as [<-|]; [|rewrite lookup_insert_ne // in Hm; by eapply H3].
      rewrite lookup_insert_eq in Hm. injection Hm as <-. apply Hfree in Hfp. lia.
  - intros e' k' s' Hl. destruct (decide (k = k')) as [<-|Hkk]; [by rewrite lookup_insert_eq|].
    rewrite lookup_insert_ne //. apply lookup_insert_Some in Hl as [[_ [= ? _]]|[_ ?]]; [done|by eapply H4].
  - intros c Hc. destruct (decide (k = Chain c)) as [->|]; [by rewrite lookup_insert_eq|].
    rewrite lookup_insert_ne //. by apply H5.
  - intros e1 e2 k' s' [(-> & -> & ->)|F1]%Hf [(-> & Hk & Hs')|F2]%Hf; try done.
    + by destruct (Hno e2).
    + subst. by destruct (Hno e1).
    + by eapply H6.
  - intros e' k' s' [[<- [= <- <-]]|[_ Hl]]%lookup_insert_Some Hs'.
    + destruct (Hp Hs') as (p & ? & ?). exists p. split; [done|]. apply Hf. by right.
    + destruct (H7 _ _ _ Hl Hs') as (p & ? & ?). exists p. split; [done|]. apply Hf. by right.
  - intros e' c s' [[<- [= -> _]]|[_ ?]]%lookup_insert_Some; [by apply Hkc|by eapply H8].
  - intros e' n s' [[<- [= -> _]]|[_ ?]]%lookup_insert_Some; [by apply Hkt|]. by eapply Hun, H9.
  - done.
Qed.

Lemma allocate_step_ok done a e :
  alloc_inv done a → e ∈ E → e ∉ done →
  (∀ p, p ∈ auth e → p ∈ E → p ∈ done) →
  (∀ p c s, parent st e = Some p → chain_map st !! p = Some (c, s) → c ∈ existing) →
  ∃ a', allocate_step st a (e, parent st e) = Ok a' ∧ alloc_inv (done ++ [e]) a'.
Proof.
  intros Hinv He Hed Hdeps Hpar. pose proof Hinv as [H1 H2 H3 H4 H5 H6 H7 H8 H9 H10].
  unfold allocate_step. set (o := size (unallocated_chain_ids a)).
  assert (o ∉ unallocated_chain_ids a) as Ho by (rewrite H10; lia).
  (* a new chain *)
  assert (alloc_inv (done ++ [e]) (mkAlloc ({[o]} ∪ unallocated_chain_ids a)
    (<[e := (Temp o, 1%Z)]> (new_chain_tuples a)) (<[Temp o := 1%Z]> (chain_to_max_seq_no a)))) as Htemp.
  { apply (alloc_take done); try done.
    - intros e' s' [Hl|(c & ? & _)]; [|done]. by apply H9 in Hl.
    - intros n [= ->]. set_solver.
    - set_solver.
    - intros n. rewrite size_union; [|set_solver]. rewrite size_singleton.
      rewrite elem_of_union elem_of_singleton H10. unfold o. lia. }
  unfold propose. destruct (parent st e) as [p|] eqn:Ep; [|by eexists].
  destruct (str_nonempty p); [|by eexists]. simpl.
  assert (p ∈ auth e) as Hpa by (rewrite -Hauth //; by apply parent_auth).
  assert (∃ k s m, match new_chain_tuples a !! p with
      | Some x => Some x
      | None => (λ x, (Chain x.1, x.2)) <$> chain_map st !! p
      end = Some (k, s) ∧ fpos a p k s ∧ chain_to_max_seq_no a !! k = Some m ∧
      (∀ c, k = Chain c → c ∈ existing) ∧ (∀ n, k = Temp n → n ∈ unallocated_chain_ids a) ∧ (1 ≤ s)%Z)
    as (k & s & m & -> & Hfp & Hm & Hkc & Hkt & Hs).
  { destruct (new_chain_tuples a !! p) as [[k s]|] eqn:Enp.
    - destruct (H4 _ _ _ Enp) as [m Hm]. exists k, s, m. split_and!; try done.
      + by left.
      + intros c ->. by eapply H8.
      + intros n ->. by eapply H9.
      + by eapply H2.
    - destruct (Hclosed e p He Hpa) as [[[c s] Hc]%elem_of_dom|HpE].
      + destruct (H5 c) as [m Hm]; [by eapply Hpar|].
        assert (db_chains db !! p = Some (c, s)) as Hdc by (by eapply lookup_weaken).
        exists (Chain c), s, m. rewrite Hc. split_and!; try done.
        * right. eauto.
        * intros c' [= <-]. by eapply Hpar.
        * by eapply Hpos.
      + exfalso. apply not_elem_of_dom in Enp. by apply Enp, H1, Hdeps. }
  simpl. rewrite Hm /=. destruct (Z.ltb_spec m (s + 1)); [|by eexists].
  eexists. split; [done|]. simpl.
  pose proof (H3 _ _ _ _ Hfp Hm). apply (alloc_take done); try done.
  - lia.
  - intros e' s' Hf'. pose proof (H3 _ _ _ _ Hf' Hm). lia.
  - intros _. exists p. split; [done|]. by replace (s + 1 - 1)%Z with s by lia.
Qed.
End alloc.

(** ** New chain IDs *)
Definition fresh_ids (seq0 : Z) (U : gset nat) : gmap nat Z :=
  list_to_map (zip (elements U) ((λ i, seq0 + 1 + Z.of_nat i)%Z <$> seq 0 (length (elements U)))).

Lemma fresh_ids_lookup seq0 U n v :
  fresh_ids seq0 U !! n = Some v ↔
  ∃ i, elements U !! i = Some n ∧ v = (seq0 + 1 + Z.of_nat i)%Z.
Proof.
  unfold fresh_ids. rewrite -elem_of_list_to_map.
  2: { rewrite fst_zip; [apply NoDup_elements|]. by rewrite length_fmap length_seq. }
  rewrite list_elem_of_lookup. split.
  - intros (i & Hi). apply lookup_zip_Some in Hi as [H1 H2]. exists i. split; [done|].
    rewrite list_lookup_fmap in H2. apply fmap_Some in H2 as (j & Hj & ->).
    apply lookup_seq in Hj as [-> _]. done.
  - intros (i & H1 & ->). exists i. apply lookup_zip_Some. split; [done|].
    rewrite list_lookup_fmap lookup_seq_lt; [done|by eapply lookup_lt_Some].
Qed.

Lemma fresh_ids_some seq0 U n : n ∈ U → is_Some (fresh_ids seq0 U !! n).
Proof.
  intros Hn. apply elem_of_elements, list_elem_of_lookup in Hn as [i Hi].
  eexists. apply fresh_ids_lookup. eauto.
Qed.

Lemma fresh_ids_range seq0 U n v :
  fresh_ids seq0 U !! n = Some v → (seq0 < v ≤ seq0 + Z.of_nat (length (elements U)))%Z.
Proof. intros (i & Hi & ->)%fresh_ids_lookup. apply lookup_lt_Some in Hi. lia. Qed.

Lemma fresh_ids_inj seq0 U n n' v :
  fresh_ids seq0 U !! n = Some v → fresh_ids seq0 U !! n' = Some v → n = n'.
Proof.
  intros (i & Hi & ->)%fresh_ids_lookup (j & Hj & ?)%fresh_ids_lookup.
  assert (i = j) as <- by lia. congruence.
Qed.

Lemma resolve_fold temps existing (m : gmap string (chain_key * Z)) :
  (∀ e k s, m !! e = Some (k, s) → ∃ c, resolve_key temps existing k = Ok c) →
  ∃ tuples : gmap string position, fold_res (λ acc '(event_id, (k, s)),
      c ← resolve_key temps existing k; Ok (<[event_id := (c, s)]> acc)) (map_to_list m) ∅ = Ok tuples ∧
    ∀ e c s, tuples !! e = Some (c, s) ↔ ∃ k, m !! e = Some (k, s) ∧ resolve_key temps existing k = Ok c.
Proof.
  intros Hres.
  destruct (fold_res_inv (λ l (acc : gmap string position), ∀ e c s,
      acc !! e = Some (c, s) ↔ ∃ k, (e, (k, s)) ∈ l ∧ resolve_key temps existing k = Ok c)
    (λ acc '(event_id, (k, s)), c ← resolve_key temps existing k; Ok (<[event_id := (c, s)]> acc))
    (map_to_list m) ∅) as (tuples & Ht & Hinv).
  - intros e c s. rewrite lookup_empty. set_solver.
  - intros l1 [e [k s]] l2 acc Hl Hinv.
    assert (m !! e = Some (k, s)) as He by (apply elem_of_map_to_list; rewrite Hl; set_solver).
    destruct (Hres _ _ _ He) as [c Hc]. rewrite Hc /=. eexists. split; [done|].
    assert (∀ x, (e, x) ∉ l1) as Hn.
    { intros x Hx. pose proof (NoDup_fst_map_to_list m) as Hnd. rewrite Hl fmap_app in Hnd.
      apply NoDup_app in Hnd as (_ & Hd & _). apply (Hd e); [|by left].
      apply list_elem_of_fmap. by exists (e, x). }
    intros e' c' s'. destruct (decide (e = e')) as [<-|Hne].
    + rewrite lookup_insert_eq. split.
      * intros [= <- <-]. exists k. split; [set_solver|done].
      * intros (k' & [Hin|[= -> ->]%list_elem_of_singleton]%elem_of_app & Hk'); [by apply Hn in Hin|].
        congruence.
    + rewrite lookup_insert_ne // Hinv. apply exist_proper. intros k'.
      rewrite elem_of_app list_elem_of_singleton. naive_solver.
  - exists tuples. split; [done|]. intros e c s. rewrite Hinv. apply exist_proper. intros k.
    by rewrite elem_of_map_to_list.
Qed.

(** ** The whole *)
Record positions_ok (auth : string → list string) (chains : gmap string position) (top : Z) : Prop := {
  po_pos e c s : chains !! e = Some (c, s) → (1 ≤ s)%Z;
  po_inj e f x : chains !! e = Some x → chains !! f = Some x → e = f;
  po_pred e c s : chains !! e = Some (c, s) → (1 < s)%Z →
    ∃ p, p ∈ auth e ∧ chains !! p = Some (c, (s - 1)%Z);
  po_top e c s : chains !! e = Some (c, s) → (c ≤ top)%Z
}.

Section allocate.
Context (auth : string → list string) (rank : string → nat).
Context (rank_lt : ∀ e a, a ∈ auth e → rank a < rank e).
Context (db : database) (st : calc).
Abbreviation E := (events_to_calc_chain_id_for st).
Context (Hauth : ∀ e, e ∈ E → auth_of st e = auth e).
Context (Hclosed : ∀ e a, e ∈ E → a ∈ auth e → a ∈ dom (chain_map st) ∨ a ∈ E).
Context (Hnew : ∀ e, e ∈ E → db_chains db !! e = None).
Context (Hmap : chain_map st ⊆ db_chains db).
Context (Hpo : positions_ok auth (db_chains db) (db_chain_seq db)).

Lemma sorted_calc :
  ∃ l, sorted_topologically E (event_to_auth_chain st) = Some l ∧ NoDup l ∧
    (∀ e, e ∈ E ↔ e ∈ l) ∧
    ∀ l1 e l2, l = l1 ++ e :: l2 → ∀ p, p ∈ auth e → p ∈ E → p ∈ l1.
Proof.
  destruct (sorted_topologically_spec E (event_to_auth_chain st)) as (l & Hl & Hnd & Ho & _).
  exists l. split_and!; [done|done| |].
  - apply (sorted_topologically_complete E (event_to_auth_chain st) rank); [|done].
    intros n e Hn (_ & He)%elem_of_filter. apply rank_lt. rewrite -Hauth //.
    by apply elem_of_list_to_set in He.
  - intros l1 e l2 Heq p Hp HpE. destruct (Ho l1 e l2 Heq) as [He Hd].
    apply (elem_of_list_to_set (C:=gset string)), Hd, elem_of_filter. split; [done|].
    apply elem_of_list_to_set. fold (auth_of st e). by rewrite Hauth.
Qed.

(** The loop runs through, and its result is made of positions of their own. *)
Lemma allocate_loop_ok l existing tree :
  NoDup l → (∀ e, e ∈ E ↔ e ∈ l) →
  (∀ l1 e l2, l = l1 ++ e :: l2 → ∀ p, p ∈ auth e → p ∈ E → p ∈ l1) →
  foldl (tree_step st) (∅, []) l = (existing, tree) →
  (∀ c, c ∈ existing → (c ≤ db_chain_seq db)%Z) ∧
  ∃ a, fold_res (allocate_step st) tree
         (mkAlloc ∅ ∅ (max_seq_nos (db_chains db) existing)) = Ok a ∧
    alloc_inv auth db existing l a.
Proof.
  intros Hnd Hall Hord (-> & Hpar & Hex)%tree_spec. destruct Hpo as [Hpos Hinj _ Htop].
  assert (∀ l l' : list string,
    (λ e, (e, parent st e)) <$> l = (λ e, (e, parent st e)) <$> l' → l = l') as Hfi.
  { intros l1 l2 Heq. apply (f_equal (fmap fst)) in Heq. rewrite -!list_fmap_compose in Heq.
    by rewrite !list_fmap_id in Heq. }
  split. { intros c Hc. destruct (Hex c Hc) as (x & s & Hx). eapply Htop. by eapply lookup_weaken. }
  destruct (fold_res_inv (λ l1 a, ∃ done, l1 = (λ e, (e, parent st e)) <$> done ∧
      alloc_inv auth db existing done a) (allocate_step st) ((λ e, (e, parent st e)) <$> l)
    (mkAlloc ∅ ∅ (max_seq_nos (db_chains db) existing))) as (a & Ha & done & Hdone & Hinv).
  - exists []. split; [done|]. by apply (alloc_init auth db st).
  - intros l1 x l2 a Heq (done & -> & Hinv). apply fmap_app_inv in Heq as (la & lb & Hla & Hlb & ->).
    destruct lb as [|e lb]; [done|]. injection Hlb as -> ->. apply Hfi in Hla as ->.
    destruct (allocate_step_ok auth db st existing Hauth Hclosed Hnew Hmap Hpos Hinj Hex la a e)
      as (a' & Ha' & Hinv'); [done| | | | |].
    + apply Hall. set_solver.
    + apply NoDup_app in Hnd as (_ & Hd & _). intros Hin. apply (Hd e Hin). by left.
    + intros p Hp HpE. by eapply Hord.
    + intros p c s Hp Hc. eapply Hpar; [|done|done]. set_solver.
    + exists a'. split; [done|]. exists (la ++ [e]). by rewrite fmap_app.
  - apply Hfi in Hdone as ->. eauto.
Qed.

(** [c] is the ID of the chain [k]. *)
Definition key_is (temps : gmap nat Z) (k : chain_key) (c : Z) : Prop :=
  match k with
  | Chain c' => c' = c ∧ (c ≤ db_chain_seq db)%Z
  | Temp t => temps !! t = Some c
  end.

Lemma key_is_inj U k k' c :
  key_is (fresh_ids (db_chain_seq db) U) k c → key_is (fresh_ids (db_chain_seq db) U) k' c → k = k'.
Proof.
  destruct k as [c1|t], k' as [c2|t']; simpl.
  - by intros [-> _] [-> _].
  - intros [-> ?] ?%fresh_ids_range. lia.
  - intros ?%fresh_ids_range [-> ?]. lia.
  - intros H1 H2. f_equal. by eapply fresh_ids_inj.
Qed.

(** With their IDs the positions extend those of the table. *)
Lemma resolved_positions l existing a (tuples : gmap string position) :
  (∀ e, e ∈ E ↔ e ∈ l) → (∀ c, c ∈ existing → (c ≤ db_chain_seq db)%Z) →
  alloc_inv auth db existing l a →
  let temps := fresh_ids (db_chain_seq db) (unallocated_chain_ids a) in
  (∀ e c s, tuples !! e = Some (c, s) ↔
    ∃ k, new_chain_tuples a !! e = Some (k, s) ∧ key_is temps k c) →
  dom tuples = E →
  positions_ok auth (tuples ∪ db_chains db)
    (db_chain_seq db + Z.of_nat (length (elements (unallocated_chain_ids a)))).
Proof.
  intros Hall Hexle [H1 H2 H3 H4 H5 H6 H7 H8 H9 H10] temps Ht HdomE.
  destruct Hpo as [Hpos Hinj Hpred Htop].
  assert (∀ e c s, (tuples ∪ db_chains db) !! e = Some (c, s) ↔
    ∃ k, fpos db a e k s ∧ key_is temps k c) as Hto.
  { intros e c s. rewrite lookup_union_Some_raw. split.
    - intros [(k & Hk & Hr)%Ht|[_ Hu]]; [exists k; split; [by left|done]|].
      exists (Chain c). split; [right; eauto|]. split; [done|by eapply Htop].
    - intros (k & [Hk|(c' & -> & Hk)] & Hkc); [left; apply Ht; eauto|]. destruct Hkc as [-> _].
      right. split; [|done]. apply not_elem_of_dom. rewrite HdomE. intros HpE%Hnew. congruence. }
  split.
  - intros e c s (k & [Hn|(c' & -> & Hd)] & _)%Hto; [by eapply H2|by eapply Hpos].
  - intros e f [c s] (k & Hk & Hkc)%Hto (k' & Hk' & Hkc')%Hto.
    rewrite -(key_is_inj _ _ _ _ Hkc Hkc') in Hk'. by eapply H6.
  - intros e c s (k & Hk & Hkc)%Hto Hs.
    assert (∃ p, p ∈ auth e ∧ fpos db a p k (s - 1)) as (p & Hp & Hfp).
    { destruct Hk as [Hk|(c' & -> & Hd)]; [by apply H7|].
      destruct (Hpred _ _ _ Hd Hs) as (p & ? & ?). exists p. split; [done|]. right. eauto. }
    exists p. split; [done|]. apply Hto. eauto.
  - intros e c s (k & _ & Hkc)%Hto. destruct k as [c'|t]; [destruct Hkc; lia|].
    apply fresh_ids_range in Hkc. lia.
Qed.

Lemma resolve_key_is existing temps k c :
  (∀ c, c ∈ existing → (c ≤ db_chain_seq db)%Z) → (∀ c', k = Chain c' → c' ∈ existing) →
  resolve_key temps existing k = Ok c ↔ key_is temps k c.
Proof.
  intros Hle Hk. destruct k as [c'|t]; simpl; [|apply of_option_ok].
  rewrite decide_True; [|by apply Hk]. split; [intros [= <-]; split; [done|by apply Hle, Hk]|].
  by intros [-> _].
Qed.

(** The events to index, and no others, get a position each; the table and the
    sequence allow for them. *)
Lemma allocate_chain_ids_ok :
  ∃ tuples top, _allocate_chain_ids db st = Some (Ok (tuples,
      mkDatabase (db_rooms db) (db_events db) (db_event_auth db) (db_chains db) (db_links db)
        (db_to_calculate db) top)) ∧
    dom tuples = E ∧ positions_ok auth (tuples ∪ db_chains db) top.
Proof.
  destruct sorted_calc as (l & Hl & Hnd & Hall & Hord). unfold _allocate_chain_ids.
  rewrite Hl. cbn [fueled option_fmap option_map fmap mbind run_bind].
  destruct (foldl (tree_step st) (∅, []) l) as [existing tree] eqn:Et.
  destruct (allocate_loop_ok l existing tree) as (Hexle & a & -> & Hinv); try done.
  cbn [lift mbind run_bind get_next_mult_txn].
  fold (fresh_ids (db_chain_seq db) (unallocated_chain_ids a)).
  set (temps := fresh_ids (db_chain_seq db) (unallocated_chain_ids a)).
  assert (∀ e k s, new_chain_tuples a !! e = Some (k, s) → (∀ c', k = Chain c' → c' ∈ existing) ∧
    ∃ c, resolve_key temps existing k = Ok c) as Hkey.
  { intros e [c|t] s Hm; simpl; (split; [intros c' [=]; subst; by eapply (ai_chain _ _ _ _ _ Hinv)|]).
    - rewrite decide_True; [by eexists|by eapply (ai_chain _ _ _ _ _ Hinv)].
    - apply (ai_temp _ _ _ _ _ Hinv) in Hm.
      destruct (fresh_ids_some (db_chain_seq db) _ t Hm) as [v Hv]. exists v. by rewrite /temps Hv. }
  destruct (resolve_fold temps existing (new_chain_tuples a)) as (tuples & -> & Ht).
  { intros e k s Hm. by eapply Hkey. }
  cbn [mbind run_bind mret run_ret]. eexists tuples, _. split; [done|].
  assert (dom tuples = E) as HdomE.
  { apply set_eq. intros e. rewrite Hall -(ai_dom _ _ _ _ _ Hinv) !elem_of_dom. split.
    - intros [[c s] (k & Hk & _)%Ht]. by eexists.
    - intros [[k s] Hk]. destruct (Hkey _ _ _ Hk) as (_ & c & Hc). exists (c, s). apply Ht. eauto. }
  split; [done|]. eapply resolved_positions; [done|done|done| |done].
  intros e c s. rewrite Ht. split; intros (k & Hk & Hr); exists k; (split; [done|]);
    (eapply resolve_key_is; [done|by eapply Hkey|done]).
Qed.
End allocate.
