(* ===== verification/ChainCoverLink.v ===== *)
(** The second half of [_calculate_chain_cover_index]: with the new links every
    new event reaches its auth events. *)
From stdpp Require Import ssreflect.
From S2P Require Import Prelude TopoSort IterUtils ChainLinks ChainLinksProps ChainLinksWalk ChainCover.
From S2P Require Import ChainCoverInv ChainCoverGather ChainCoverAlloc.

(** ** The links of the table *)
Section stored.
Context (table : link_table).
Context (Hchain : ∀ x y, table_link table x y → x.1 ≠ y.1).
Context (Huniq : ∀ x t s1 s2, table_link table x (t, s1) → table_link table x (t, s2) → s1 = s2).

Lemma stored_batch batch lm :
  batch_of table batch → (∀ x y, lm_link lm x y → table_link table x y) →
  ∃ lm', fold_res (λ lm '(origin_chain_id, origin_seq, target_chain_id, target_seq),
      '(_, lm) ← add_link lm (origin_chain_id, origin_seq) (target_chain_id, target_seq) false;
      Ok lm) (flat_links batch) lm = Ok lm' ∧
    ∀ x y, lm_link lm' x y ↔ lm_link lm x y ∨ cl_link batch x y.
Proof.
  intros Hb Hlm.
  destruct (fold_res_inv (λ l lm', ∀ x y, lm_link lm' x y ↔ lm_link lm x y ∨ table_link l x y)
    (λ lm '(origin_chain_id, origin_seq, target_chain_id, target_seq),
      '(_, lm) ← add_link lm (origin_chain_id, origin_seq) (target_chain_id, target_seq) false;
      Ok lm) (flat_links batch) lm) as (lm' & Hf & Hinv).
  - intros x y. unfold table_link. rewrite elem_of_nil. tauto.
  - intros l1 [[[c s] t] ts] l2 lm1 Hl Hinv.
    assert (∀ r, r ∈ l1 ++ (c, s, t, ts) :: l2 → r ∈ table) as Hin.
    { rewrite -Hl. intros [[[c' s'] t'] ts'] Hr%elem_of_flat_links.
      by apply (bo_links _ _ Hb) in Hr as [_ ?]. }
    assert (table_link table (c, s) (t, ts)) as Htl by (apply Hin; set_solver).
    destruct (add_link_stored lm1 (c, s) (t, ts)) as (lm2 & -> & H2).
    { by apply (Hchain (c, s) (t, ts)). }
    { intros s' [?%Hlm|Hs']%Hinv; [by eapply Huniq|]. eapply Huniq; [|exact Htl].
      apply Hin. set_solver. }
    simpl. eexists. split; [done|]. intros x y. rewrite H2. unfold with_link. rewrite Hinv.
    unfold table_link. rewrite elem_of_app list_elem_of_singleton. destruct x, y; simpl. naive_solver.
  - exists lm'. split; [done|]. intros [c s] [t ts]. rewrite Hinv. unfold table_link. simpl.
    by rewrite elem_of_flat_links.
Qed.

Lemma stored_links_ok batches :
  Forall (batch_of table) batches →
  ∃ lm, stored_links batches = Ok lm ∧ ∀ x y, lm_link lm x y ↔ Exists (λ b, cl_link b x y) batches.
Proof.
  intros Hb. unfold stored_links.
  match goal with |- context [fold_res ?f batches _] => destruct (fold_res_inv
    (λ l lm, ∀ x y, lm_link lm x y ↔ Exists (λ b, cl_link b x y) l) f batches empty_LinkMap)
    as (lm & Hf & Hinv) end.
  - intros [c s] [t ts]. unfold lm_link, current_links. simpl. rewrite !lookup_empty.
    split; [done|by intros ?%Exists_nil].
  - intros l1 b l2 lm1 Hl Hinv. rewrite Hl in Hb. apply Forall_app in Hb as [Hb1 [Hb2 _]%Forall_cons].
    destruct (stored_batch b lm1) as (lm2 & -> & H2); [done| |].
    { intros x y Hx%Hinv. apply Exists_exists in Hx as (b' & Hin & Hx).
      rewrite Forall_forall in Hb1. by apply (bo_links _ _ (Hb1 _ Hin)) in Hx as [_ ?]. }
    exists lm2. split; [done|]. intros x y. rewrite H2 Hinv Exists_app Exists_cons Exists_nil. tauto.
  - eauto.
Qed.
End stored.

(** ** The reduction *)
Lemma elem_of_permutations2 {A} (l : list A) x y :
  NoDup l → (x, y) ∈ permutations2 l ↔ x ∈ l ∧ y ∈ l ∧ x ≠ y.
Proof.
  intros Hnd. unfold permutations2. rewrite list_elem_of_join. split.
  - intros (ll & Hin & Hll). apply elem_of_lookup_imap in Hll as (i & z & -> & Hi).
    apply list_elem_of_fmap in Hin as (w & [= -> ->] & Hw).
    assert (l = take i l ++ z :: drop (S i) l) as Hl by (by rewrite take_drop_middle).
    rewrite Hl in Hnd. apply NoDup_app in Hnd as (_ & Hd & [Hz _]%NoDup_cons).
    split_and!; [by eapply list_elem_of_lookup_2| |].
    + rewrite Hl. set_solver.
    + intros ->. apply elem_of_app in Hw as [Hw|Hw]; [|done]. apply (Hd _ Hw). by left.
  - intros (Hx & Hy & Hne). apply list_elem_of_lookup in Hx as [i Hi].
    exists ((x,.) <$> (take i l ++ drop (S i) l)). split.
    + apply list_elem_of_fmap. exists y. split; [done|].
      rewrite -(take_drop_middle l i x Hi) in Hy. set_solver.
    + apply elem_of_lookup_imap. by exists i, x.
Qed.

Section reduce.
Context (cm : gmap string position) (lm : LinkMap) (c : Z) (auths : list string).
Context (Hnd : NoDup auths).
Context (Hcm : ∀ a, a ∈ auths → ∃ x, cm !! a = Some x ∧ (1 ≤ x.2)%Z).
Context (Hlp : positive (lm_link lm)) (Hld : descending (lm_link lm)).

Definition reaches (b a : string) : Prop :=
  ∃ x y, cm !! b = Some x ∧ cm !! a = Some y ∧ reach (lm_link lm) x y.

Lemma reaches_or a :
  a ∈ auths →
  (∃ b, b ∈ auths ∧ b ≠ a ∧ reaches b a) ∨ (∀ b, b ∈ auths → b ≠ a → ¬ reaches b a).
Proof.
  intros Ha. assert (∀ l, l ⊆ auths →
    (∃ b, b ∈ auths ∧ b ≠ a ∧ reaches b a) ∨ (∀ b, b ∈ l → b ≠ a → ¬ reaches b a)) as Hgo
    by (intros l; induction l as [|b l IH]; intros Hl; [set_solver|];
      destruct (Hcm b) as (x & Hx & Hx1); [set_solver|]; destruct (Hcm a Ha) as (y & Hy & _);
      destruct (exists_path_from_reach lm x y Hlp Hld Hx1) as (r & _ & Hr);
      destruct IH as [?|IH]; [set_solver|by left|];
      destruct (decide (b = a)) as [->|Hne]; [right; set_solver|];
      destruct r; [left; exists b; split_and!; [set_solver|done|];
        exists x, y; split_and!; [done|done|by apply Hr]|];
      right; intros b' [->|?]%elem_of_cons Hb'; [|by apply IH];
      intros (x' & y' & ? & ? & ?); assert (false = true); [|done]; apply Hr; congruence).
  by apply Hgo.
Qed.

Lemma reduce_ok :
  ∃ red, reduce cm lm c auths = Some (Ok red) ∧
    ∀ a, a ∈ red ↔ a ∈ auths ∧ (∃ x, cm !! a = Some x ∧ x.1 ≠ c) ∧
                   ∀ b, b ∈ auths → b ≠ a → ¬ reaches b a.
Proof.
  unfold reduce.
  match goal with |- context [fold_res ?f auths ∅] => destruct (fold_res_inv
    (λ l (acc : gset string), ∀ a, a ∈ acc ↔ a ∈ l ∧ ∃ x, cm !! a = Some x ∧ x.1 ≠ c) f auths ∅)
    as (red0 & Hf & Hred0) end.
  { set_solver. }
  { intros l1 a l2 acc -> Hinv. destruct (Hcm a) as ([ac s] & Ha & _); [set_solver|].
    unfold pos_of. rewrite Ha /=. eexists. split; [done|]. intros a'.
    destruct (Z.eqb_spec ac c); [rewrite Hinv|rewrite elem_of_union elem_of_singleton Hinv];
      rewrite elem_of_app list_elem_of_singleton; naive_solver. }
  rewrite Hf. cbn [lift mbind run_bind].
  match goal with |- context [fold_run ?f (permutations2 auths) red0] => destruct (fold_run_inv
    (λ l (acc : gset string), ∀ a, a ∈ acc ↔ a ∈ red0 ∧ ∀ b, (b, a) ∈ l → ¬ reaches b a)
    f (permutations2 auths) red0) as (red & Hfr & Hred) end.
  { set_solver. }
  { intros l1 [b a] l2 acc Hl Hinv.
    assert ((b, a) ∈ permutations2 auths) as Hin by (rewrite Hl; set_solver).
    apply elem_of_permutations2 in Hin as (Hb & Ha & Hne); [|done].
    destruct (Hcm b Hb) as (x & Hx & Hx1), (Hcm a Ha) as (y & Hy & _).
    unfold pos_of. rewrite Hx Hy. cbn [lift of_option mbind run_bind].
    destruct (exists_path_from_reach lm x y) as (r & -> & Hr); try done.
    cbn [fueled fmap option_fmap option_map mbind run_bind mret run_ret].
    eexists. split; [done|]. intros a'.
    assert (reaches b a ↔ r = true) as Hreach.
    { rewrite Hr. unfold reaches. split; [|by eauto].
      intros (x' & y' & ? & ? & ?). congruence. }
    destruct r.
    - rewrite elem_of_difference elem_of_singleton Hinv. split.
      + intros [[? Hn] Hna]. split; [done|].
        intros b' [?|[= -> ->]%list_elem_of_singleton]%elem_of_app; [by apply Hn|done].
      + intros [? Hn]. split; [split; [done|intros b' ?; apply Hn; set_solver]|].
        intros ->. apply (Hn b); [set_solver|]. by apply Hreach.
    - rewrite Hinv. split; intros [? Hn]; (split; [done|]).
      + intros b' [?|[= -> ->]%list_elem_of_singleton]%elem_of_app; [by apply Hn|].
        rewrite Hreach. done.
      + intros b' ?. apply Hn. set_solver. }
  exists red. split; [done|]. intros a. rewrite Hred Hred0. split.
  - intros ([? ?] & Hn). split_and!; [done|done|]. intros b Hb Hne. apply Hn.
    by apply elem_of_permutations2.
  - intros (? & ? & Hn). split; [done|]. intros b (? & ? & ?)%elem_of_permutations2; [|done].
    by apply Hn.
Qed.
End reduce.

(** ** The new links *)
Section link.
Context (auth : string → list string) (rank : string → nat).
Context (rank_lt : ∀ e a, a ∈ auth e → rank a < rank e).
Context (auth_nodup : ∀ e, NoDup (auth e)).
Context (old chains tuples cm : gmap string position) (top : Z) (table : link_table).
Context (Hpo : positions_ok auth chains top).
Context (Hold : cover auth old (table_link table)).
Context (Hsub : old ⊆ chains) (Htup : tuples ⊆ chains) (Hcm : cm ⊆ chains).
Context (Hdisj : ∀ e, e ∈ dom tuples → e ∉ dom old).
Context (Htcm : ∀ e, e ∈ dom tuples → e ∈ dom cm).
Context (authf : string → list string).
Context (Hauthf : ∀ e, e ∈ dom tuples → authf e = auth e).
Context (Hclosed : ∀ e a, e ∈ dom tuples → a ∈ auth e → a ∈ dom cm).

Definition new_link (tr : gmap string NewEventChainLinks) (x y : position) : Prop :=
  ∃ e n, tr !! e = Some n ∧ x = (chain_id n, sequence_number n) ∧ y ∈ links n.

(** The links of the table with the new ones. *)
Definition all_of (tr : gmap string NewEventChainLinks) (x y : position) : Prop :=
  table_link table x y ∨ new_link tr x y.

Record link_inv (done : list string) (acc : gmap string NewEventChainLinks * LinkMap) : Prop := {
  li_pos e n : acc.1 !! e = Some n → tuples !! e = Some (chain_id n, sequence_number n);
  li_dom e : e ∈ dom tuples → is_Some (acc.1 !! e);
  li_sound e n y : acc.1 !! e = Some n → y ∈ links n →
    chain_id n ≠ y.1 ∧ ∃ a, a ∈ auth e ∧ chains !! a = Some y;
  li_uniq e n t s1 s2 : acc.1 !! e = Some n → (t, s1) ∈ links n → (t, s2) ∈ links n → s1 = s2;
  li_later e n : acc.1 !! e = Some n → e ∉ done → links n = [];
  li_lm x y : lm_link acc.2 x y → all_of acc.1 x y;
  li_complete e a x : e ∈ done → tuples !! e = Some x → a ∈ auth e →
    ∃ y, chains !! a = Some y ∧ reach (all_of acc.1) x y
}.

Lemma cm_lookup e x : cm !! e = Some x ↔ e ∈ dom cm ∧ chains !! e = Some x.
Proof.
  split; [intros H; split; [by eapply elem_of_dom_2|by eapply lookup_weaken]|].
  intros [[y Hy]%elem_of_dom Hx]. pose proof (lookup_weaken _ _ _ _ Hy Hcm). congruence.
Qed.

(** All links are auth edges. *)
Lemma all_of_sound tr x y :
  (∀ e n, tr !! e = Some n → tuples !! e = Some (chain_id n, sequence_number n)) →
  (∀ e n y, tr !! e = Some n → y ∈ links n → chain_id n ≠ y.1 ∧ ∃ a, a ∈ auth e ∧ chains !! a = Some y) →
  all_of tr x y →
  x.1 ≠ y.1 ∧ ∃ e a, chains !! e = Some x ∧ chains !! a = Some y ∧ a ∈ auth e.
Proof.
  intros H1 H3 [Ht|(e & n & Hn & -> & Hy)].
  - destruct (cv_sound _ _ _ Hold _ _ Ht) as (? & e & a & ? & ? & ?).
    split; [done|]. exists e, a. split_and!; [by eapply lookup_weaken..|done].
  - destruct (H3 e n y Hn Hy) as (? & a & ? & ?). split; [done|].
    exists e, a. split_and!; [|done|done]. eapply lookup_weaken; [|exact Htup]. by apply H1.
Qed.

(** The links of one event. *)
Lemma add_links_ok e x tr lm l :
  tr !! e = Some (mkNewEventChainLinks x.1 x.2 []) →
  (∀ a, a ∈ l → ∃ y, cm !! a = Some y ∧ x.1 ≠ y.1) →
  ∃ ys lm', fold_run (λ '(to_return, chain_links) auth_id,
      '(ac, asq) ← lift (pos_of cm auth_id);
      n ← lift (of_option ((to_return : gmap string NewEventChainLinks) !! e) KeyError);
      let n := mkNewEventChainLinks (chain_id n) (sequence_number n) (links n ++ [(ac, asq)]) in
      '(_, chain_links) ← lift (add_link chain_links x (ac, asq) true);
      mret (<[e := n]> to_return, chain_links)) l (tr, lm) =
    Some (Ok (<[e := mkNewEventChainLinks x.1 x.2 ys]> tr, lm')) ∧
    (∀ y, y ∈ ys ↔ ∃ a, a ∈ l ∧ cm !! a = Some y) ∧
    ∀ u v, lm_link lm' u v → lm_link lm u v ∨ (u = x ∧ v ∈ ys).
Proof.
  intros Htr Hl.
  match goal with |- context [fold_run ?f l (tr, lm)] => destruct (fold_run_inv
    (λ l1 acc, ∃ ys, acc.1 = <[e := mkNewEventChainLinks x.1 x.2 ys]> tr ∧
      (∀ y, y ∈ ys ↔ ∃ a, a ∈ l1 ∧ cm !! a = Some y) ∧
      ∀ u v, lm_link acc.2 u v → lm_link lm u v ∨ (u = x ∧ v ∈ ys)) f l (tr, lm))
    as ([tr' lm'] & Hf & ys & Hys1 & Hys2 & Hys3) end.
  - exists []. split_and!; [by rewrite insert_id|set_solver|by left].
  - intros l1 a l2 [tr1 lm1] -> (ys & Htr1 & Hys & Hlm1). simpl in *. subst tr1.
    destruct (Hl a) as ([ac asq] & Ha & Hne); [set_solver|].
    unfold pos_of at 1. rewrite Ha lookup_insert_eq. cbn [lift of_option mbind run_bind].
    destruct (add_link_reach lm1 x (ac, asq)) as (b & lm2 & -> & _ & Hlm2); [done|].
    cbn [mbind run_bind mret run_ret chain_id sequence_number links].
    eexists. split; [done|]. exists (ys ++ [(ac, asq)]). simpl. split_and!.
    + by rewrite insert_insert_eq.
    + intros y. rewrite elem_of_app Hys list_elem_of_singleton.
      setoid_rewrite elem_of_app. setoid_rewrite list_elem_of_singleton. naive_solver.
    + intros u v [Hu|[-> ->]]%Hlm2; [|right; set_solver].
      destruct (Hlm1 _ _ Hu) as [?|[-> ?]]; [by left|right; set_solver].
  - simpl in Hys1. subst tr'. exists ys, lm'. done.
Qed.

(** Every auth event of the event is reached: it has a link, it is in the chain,
    or another auth event reaches it. *)
Lemma reduced_reach (link : position → position → Prop) e c s (red : gset string) (lm : LinkMap) :
  (∀ x y, link x y → x.1 ≠ y.1 ∧ ∃ e a, chains !! e = Some x ∧ chains !! a = Some y ∧ a ∈ auth e) →
  (∀ x y, lm_link lm x y → link x y) →
  chains !! e = Some (c, s) → (∀ a, a ∈ auth e → a ∈ dom cm) →
  (∀ a, a ∈ auth e → a ∈ red ∨ (∃ x, cm !! a = Some x ∧ x.1 = c) ∨
        ∃ b, b ∈ auth e ∧ b ≠ a ∧ reaches cm lm b a) →
  (∀ a y, a ∈ red → cm !! a = Some y → link (c, s) y) →
  ∀ a, a ∈ auth e → ∃ y, chains !! a = Some y ∧ reach link (c, s) y.
Proof.
  intros Hsound Hlm He Hdom Hcase Hred. destruct Hpo as [Hpos Hinj Hpred _].
  assert (∀ n a, rank e - rank a ≤ n → a ∈ auth e →
    ∃ y, chains !! a = Some y ∧ reach link (c, s) y) as Hgo; [|intros a; apply (Hgo (rank e)); lia].
  induction n as [|n IH]; intros a Hn Ha; pose proof (rank_lt _ _ Ha); [lia|].
  pose proof (Hdom _ Ha) as [y Hy]%elem_of_dom. pose proof Hy as [_ Hya]%cm_lookup.
  exists y. split; [done|]. destruct (Hcase a Ha) as [Hin|[(x & Hx & Hxc)|(b & Hb & Hba & Hr)]].
  - by eapply reach_one, Hred.
  - rewrite Hy in Hx. injection Hx as <-. destruct y as [c' s']. simpl in Hxc. subst c'.
    constructor. destruct (decide (s' ≤ s)%Z) as [|Hlt]; [done|]. exfalso.
    assert (rtc (is_auth auth) a e) as Hr%(auth_rtc_rank auth rank rank_lt); [|lia].
    eapply (chain_order auth chains); [exact Hpos|exact Hinj|exact Hpred|exact Hya|exact He|lia].
  - destruct Hr as (x' & y' & [_ Hx']%cm_lookup & Hy' & Hr). rewrite Hy in Hy'. injection Hy' as <-.
    apply (reach_impl _ link) in Hr; [|intros; by apply reach_one, Hlm].
    assert (rtc (is_auth auth) b a) as Hrtc.
    { eapply (reach_sound auth chains link); [exact Hpos|exact Hinj|exact Hpred|exact Hsound|
        exact Hx'|exact Hya|exact Hr]. }
    assert (rank a < rank b) as Hlt.
    { apply (auth_chain_rank auth rank rank_lt). apply rtc_tc in Hrtc as [?|Htc]; [done|exact Htc]. }
    destruct (IH b) as (x2 & Hx2 & Hr2); [lia|done|]. rewrite Hx' in Hx2. injection Hx2 as <-.
    by eapply reach_trans.
Qed.

(** What the new links of an event mean for all links. *)
Lemma all_of_insert tr e n n' x y :
  tr !! e = Some n → links n = [] →
  all_of (<[e := n']> tr) x y ↔
  all_of tr x y ∨ (x = (chain_id n', sequence_number n') ∧ y ∈ links n').
Proof.
  intros He Hn. unfold all_of. rewrite (_ : new_link (<[e := n']> tr) x y ↔
    new_link tr x y ∨ (x = (chain_id n', sequence_number n') ∧ y ∈ links n')); [tauto|].
  unfold new_link. split.
  - intros (e' & m & [[<- <-]|[_ Hm]]%lookup_insert_Some & Hx & Hy); [by right|left; eauto].
  - intros [(e' & m & Hm & Hx & Hy)|[Hx Hy]].
    + exists e', m. split; [|done]. rewrite lookup_insert_ne //. intros <-.
      rewrite He in Hm. injection Hm as <-. rewrite Hn in Hy. by apply elem_of_nil in Hy.
    + exists e, n'. by rewrite lookup_insert_eq.
Qed.

Lemma lm_of_all done acc :
  link_inv done acc → positive (lm_link acc.2) ∧ descending (lm_link acc.2).
Proof.
  intros Hinv. destruct Hpo as [Hpos Hinj Hpred _].
  assert (∀ x y, all_of acc.1 x y →
    x.1 ≠ y.1 ∧ ∃ e a, chains !! e = Some x ∧ chains !! a = Some y ∧ a ∈ auth e) as Hsound.
  { intros x y. apply all_of_sound; apply Hinv. }
  split.
  - intros x c s Hl%(li_lm _ _ Hinv).
    by eapply (links_positive auth chains (all_of acc.1)); [exact Hpos|exact Hsound|exact Hl].
  - intros c s s' Hr. apply (reach_impl _ (all_of acc.1)) in Hr;
      [|intros; by apply reach_one, (li_lm _ _ Hinv)].
    by eapply (links_descending auth rank rank_lt chains (all_of acc.1));
      [exact Hpos|exact Hinj|exact Hpred|exact Hsound|exact Hr].
Qed.

(** The links of the reduction of an event, written into [to_return]. *)
Lemma link_inv_step done tr lm e c s (red : gset string) ys lm' :
  link_inv done (tr, lm) → e ∉ done → tuples !! e = Some (c, s) →
  (∀ a, a ∈ red ↔ a ∈ auth e ∧ (∃ x, cm !! a = Some x ∧ x.1 ≠ c) ∧
                  ∀ b, b ∈ auth e → b ≠ a → ¬ reaches cm lm b a) →
  (∀ a, a ∈ auth e → a ∈ red ∨ (∃ x, cm !! a = Some x ∧ x.1 = c) ∨
        ∃ b, b ∈ auth e ∧ b ≠ a ∧ reaches cm lm b a) →
  (∀ y, y ∈ ys ↔ ∃ a, a ∈ red ∧ cm !! a = Some y) →
  (∀ u v, lm_link lm' u v → lm_link lm u v ∨ (u = (c, s) ∧ v ∈ ys)) →
  link_inv (done ++ [e]) (<[e := mkNewEventChainLinks c s ys]> tr, lm').
Proof.
  intros Hinv Hed He Hred Hcase Hys Hlm. pose proof Hinv as [H1 H2 H3 H4 H5 H6 H7]. simpl in *.
  destruct (H2 e) as [n Hn]; [by eapply elem_of_dom_2|].
  assert (∀ x y, all_of (<[e := mkNewEventChainLinks c s ys]> tr) x y ↔
    all_of tr x y ∨ (x = (c, s) ∧ y ∈ ys)) as Hall.
  { intros x y. rewrite (all_of_insert tr e n) //. by apply (H5 e). }
  assert (∀ y, y ∈ ys → ∃ a, a ∈ auth e ∧ cm !! a = Some y ∧ c ≠ y.1 ∧
    ∀ b, b ∈ auth e → b ≠ a → ¬ reaches cm lm b a) as Hin.
  { intros y (a & (Ha & (x & Hx & Hxc) & Hb)%Hred & Hy)%Hys. exists a.
    rewrite Hy in Hx. injection Hx as <-. naive_solver. }
  assert (∀ e' n', <[e := mkNewEventChainLinks c s ys]> tr !! e' = Some n' →
    tuples !! e' = Some (chain_id n', sequence_number n')) as K1.
  { intros e' n' [[<- <-]|[_ ?]]%lookup_insert_Some; [done|by apply H1]. }
  assert (∀ e' n' y, <[e := mkNewEventChainLinks c s ys]> tr !! e' = Some n' → y ∈ links n' →
    chain_id n' ≠ y.1 ∧ ∃ a, a ∈ auth e' ∧ chains !! a = Some y) as K3.
  { intros e' n' y [[<- <-]|[_ ?]]%lookup_insert_Some Hy; [|by eapply H3].
    destruct (Hin y Hy) as (a & Ha & [_ Hcy]%cm_lookup & Hc & _). split; [done|]. eauto. }
  split; simpl; [exact K1| |exact K3| | | |].
  - intros e' He'. destruct (decide (e = e')) as [<-|]; [by rewrite lookup_insert_eq|].
    rewrite lookup_insert_ne //. by apply H2.
  - intros e' n' t s1 s2 [[<- <-]|[_ ?]]%lookup_insert_Some Hs1 Hs2; [|by eapply H4].
    destruct (Hin _ Hs1) as (a & Ha & Ha1 & _ & Hna), (Hin _ Hs2) as (b & Hb & Hb1 & _ & Hnb).
    destruct (decide (a = b)) as [->|Hab]; [rewrite Ha1 in Hb1; by injection Hb1|].
    destruct (Z.le_ge_cases s1 s2) as [Hle|Hle]; exfalso.
    + apply (Hna b); [done|done|]. exists (t, s2), (t, s1). split_and!; [done|done|by constructor].
    + apply (Hnb a); [done|done|]. exists (t, s1), (t, s2). split_and!; [done|done|by constructor].
  - intros e' n' [[<- <-]|[_ ?]]%lookup_insert_Some Hn'; [exfalso; set_solver|].
    eapply H5; [done|]. set_solver.
  - intros u v [Hu|Hu]%Hlm; apply Hall; [left; by apply H6|by right].
  - intros e' a x [He'| ->%list_elem_of_singleton]%elem_of_app Hx Ha.
    + destruct (H7 e' a x He' Hx Ha) as (y & Hy & Hr). exists y.
      split; [done|]. eapply reach_impl; [|exact Hr]. intros u v Hu. apply reach_one, Hall. by left.
    + rewrite He in Hx. injection Hx as <-.
      eapply (reduced_reach _ e c s red lm); [| | | |exact Hcase| |exact Ha].
      * intros x y. by apply all_of_sound.
      * intros x y Hl. apply Hall. left. by apply H6.
      * by eapply lookup_weaken.
      * intros b Hb. eapply Hclosed; [by eapply elem_of_dom_2|exact Hb].
      * intros b y Hb Hy. apply Hall. right. split; [done|]. apply Hys. eauto.
Qed.

Lemma link_event_ok done acc e :
  link_inv done acc → e ∈ dom tuples → e ∉ done →
  ∃ acc', link_event cm authf acc e = Some (Ok acc') ∧ link_inv (done ++ [e]) acc'.
Proof.
  intros Hinv HeE Hed. destruct acc as [tr lm].
  pose proof HeE as [[c s] He]%elem_of_dom.
  assert (cm !! e = Some (c, s)) as Hce.
  { apply cm_lookup. split; [by apply Htcm|by eapply lookup_weaken]. }
  assert (pos_of cm e = Ok (c, s)) as Hpe by (by rewrite /pos_of Hce).
  unfold link_event. rewrite Hpe Hauthf //. cbn [lift mbind run_bind].
  destruct (lm_of_all _ _ Hinv) as [Hlp Hld]. simpl in Hlp, Hld.
  assert (∀ a, a ∈ auth e → ∃ x, cm !! a = Some x ∧ (1 ≤ x.2)%Z) as Hac.
  { intros a Ha. pose proof (Hclosed e a HeE Ha) as [[ac asq] Hx]%elem_of_dom.
    exists (ac, asq). split; [done|]. apply cm_lookup in Hx as [_ Hx]. by eapply (po_pos _ _ _ Hpo). }
  destruct (reduce_ok cm lm c (auth e)) as (red & Hr & Hred); try done. simpl. rewrite Hr.
  cbn [mbind run_bind].
  destruct (li_dom _ _ Hinv e HeE) as [n Hn]. simpl in Hn.
  pose proof (li_pos _ _ Hinv e n Hn) as Hnp. rewrite He in Hnp. injection Hnp as Hc Hs.
  pose proof (li_later _ _ Hinv e n Hn Hed) as Hnl.
  destruct (add_links_ok e (c, s) tr lm (elements red)) as (ys & lm' & Hf & Hys & Hlm').
  { rewrite Hn. destruct n. simpl in *. by subst. }
  { intros a Ha%elem_of_elements%Hred. naive_solver. }
  simpl in Hf. eexists. split; [exact Hf|]. eapply link_inv_step; try done.
  - intros a Ha. destruct (decide (a ∈ red)) as [|Hna]; [by left|]. right.
    destruct (Hac a Ha) as (x & Hx & _). destruct (decide (x.1 = c)) as [|Hxc]; [left; eauto|]. right.
    destruct (reaches_or cm lm (auth e)) with a as [?|Hno]; try done.
    exfalso. apply Hna, Hred. eauto.
  - intros y. rewrite Hys. by setoid_rewrite elem_of_elements.
Qed.

Lemma link_events_ok sorted lm :
  NoDup sorted → (∀ e, e ∈ dom tuples ↔ e ∈ sorted) →
  (∀ x y, lm_link lm x y → table_link table x y) →
  ∃ acc, fold_run (link_event cm authf) sorted
      ((λ '(c, s), mkNewEventChainLinks c s []) <$> tuples, lm) = Some (Ok acc) ∧
    link_inv sorted acc.
Proof.
  intros Hnd Hall Hlm. apply (fold_run_inv link_inv).
  - split; simpl.
    + intros e n. rewrite lookup_fmap. intros ([c s] & -> & ->)%fmap_Some. done.
    + intros e [[c s] He]%elem_of_dom. rewrite lookup_fmap He. by eexists.
    + intros e n y. rewrite lookup_fmap. intros ([c s] & _ & ->)%fmap_Some []%elem_of_nil.
    + intros e n t s1 s2. rewrite lookup_fmap. intros ([c s] & _ & ->)%fmap_Some []%elem_of_nil.
    + intros e n. rewrite lookup_fmap. intros ([c s] & _ & ->)%fmap_Some. done.
    + intros x y Hl%Hlm. by left.
    + intros e a x []%elem_of_nil.
  - intros l1 e l2 acc Hl Hinv. apply link_event_ok; [done|apply Hall; rewrite Hl; set_solver|].
    rewrite Hl in Hnd. apply NoDup_app in Hnd as (_ & Hd & _). intros Hin. apply (Hd e Hin). by left.
Qed.

(** With the new positions and the new links the cover is one of all the events. *)
Lemma cover_extended sorted acc :
  (∀ e, e ∈ dom tuples ↔ e ∈ sorted) → (∀ e x, chains !! e = Some x → e ∈ dom tuples ∨ old !! e = Some x) →
  link_inv sorted acc → cover auth chains (all_of acc.1).
Proof.
  intros Hall Hsplit Hinv. pose proof Hinv as [H1 H2 H3 H4 H5 H6 H7]. destruct Hpo as [Hpos Hinj Hpred _].
  split; try done.
  - intros e a x He Ha. destruct (Hsplit e x He) as [Het|Heo].
    + apply (H7 e a x); [by apply Hall| |done]. pose proof Het as [x' Hx']%elem_of_dom.
      pose proof (lookup_weaken _ _ _ _ Hx' Htup). congruence.
    + destruct (cv_complete _ _ _ Hold e a x Heo Ha) as (y & Hy & Hr). exists y.
      split; [by eapply lookup_weaken|]. eapply reach_impl; [|exact Hr].
      intros u v Hu. apply reach_one. by left.
  - intros x y. by apply all_of_sound.
  - assert (∀ x s1 t s2, table_link table x (t, s1) → new_link acc.1 x (t, s2) → False) as Hno.
    { intros x s1 t s2 Ht (e & n & Hn & -> & _).
      destruct (cv_sound _ _ _ Hold _ _ Ht) as (_ & e' & _ & He' & _).
      pose proof (H1 _ _ Hn) as Het. assert (e = e') as <-.
      { eapply Hinj; [by eapply lookup_weaken; [exact Het|]|by eapply lookup_weaken; [exact He'|]]. }
      eapply Hdisj; [by eapply elem_of_dom_2|by eapply elem_of_dom_2]. }
    intros x t s1 s2 [Ht|Hn] [Ht'|Hn'].
    + by eapply (cv_unique _ _ _ Hold).
    + by destruct (Hno x s1 t s2).
    + by destruct (Hno x s2 t s1).
    + destruct Hn as (e & n & Hn & -> & Hy), Hn' as (e' & n' & Hn' & Hx & Hy').
      assert (e = e') as <-.
      { eapply Hinj; [eapply lookup_weaken; [by apply H1|exact Htup]|].
        rewrite Hx. eapply lookup_weaken; [by apply H1|exact Htup]. }
      rewrite Hn in Hn'. injection Hn' as <-. by eapply H4.
Qed.
End link.
