(* ===== verification/ChainCoverPersist.v ===== *)
(** Persisting events keeps the chain cover: no step raises or runs out of fuel,
    and the stored index is a cover of the indexed events. *)
From stdpp Require Import ssreflect.
From S2P Require Import Prelude TopoSort IterUtils ChainLinks ChainLinksProps ChainLinksWalk ChainCover.
From S2P Require Import ChainCoverInv ChainCoverGather ChainCoverAlloc ChainCoverLink.

(** The position in a [NewEventChainLinks]. *)
Definition new_pos (n : NewEventChainLinks) : position := (chain_id n, sequence_number n).

Section persist.
(** The auth events and the state key that belong to an event ID. *)
Context (auth : string → list string) (skey : string → option string) (rank : string → nat).
Context (rank_lt : ∀ e a, a ∈ auth e → rank a < rank e).
Context (auth_nodup : ∀ e, NoDup (auth e)).

Record index_ok (db : database) : Prop := {
  ix_tables : tables_ok auth db;
  ix_rows e row : db_events db !! e = Some row → er_state_key row = skey e;
  ix_cover : cover auth (db_chains db) (table_link (db_links db));
  ix_top e c s : db_chains db !! e = Some (c, s) → (c ≤ db_chain_seq db)%Z
}.

Lemma index_positions db : index_ok db → positions_ok auth (db_chains db) (db_chain_seq db).
Proof. intros [_ _ Hc Ht]. split; [apply Hc|apply Hc|apply Hc|exact Ht]. Qed.

(** ** [_calculate_chain_cover_index] *)

(** The database afterwards, and what is to be stored. *)
Record calculated (batch : gset string) (db : database)
    (tr : gmap string NewEventChainLinks) (db' : database) : Prop := {
  cl_db : ∃ w top, db' = mkDatabase (db_rooms db) (db_events db) (db_event_auth db) (db_chains db)
                           (db_links db) w top;
  cl_new e : e ∈ dom tr → e ∉ dom (db_chains db) ∧ (e ∈ batch ∨ stored db e);
  cl_waiting e : e ∈ dom (db_to_calculate db') ↔
    e ∈ dom (db_to_calculate db) ∨ (e ∈ batch ∧ e ∉ dom tr);
  cl_positions : positions_ok auth ((new_pos <$> tr) ∪ db_chains db) (db_chain_seq db');
  cl_cover : cover auth ((new_pos <$> tr) ∪ db_chains db) (all_of (db_links db) tr);
  cl_batch e : e ∈ batch → e ∉ dom tr → ∃ a, auth_chain auth e a ∧ ¬ stored db a ∧ a ∉ batch
}.

Lemma calculated_nothing batch db db' :
  index_ok db → with_waiting db db' (λ e, e ∈ batch) →
  (∀ e, e ∈ batch → ∃ a, auth_chain auth e a ∧ ¬ stored db a ∧ a ∉ batch) →
  calculated batch db ∅ db'.
Proof.
  intros Hix [[w ->] Hw] Hb. split.
  - by eexists _, _.
  - set_solver.
  - intros e. rewrite Hw. set_solver.
  - rewrite fmap_empty (left_id_L ∅ (∪)). exact (index_positions _ Hix).
  - rewrite fmap_empty (left_id_L ∅ (∪)).
    assert (∀ x y, all_of (db_links db) ∅ x y ↔ table_link (db_links db) x y) as Heq.
    { intros x y. split; [intros [?|(e & n & Hn & _)]; [done|by rewrite lookup_empty in Hn]|by left]. }
    destruct (ix_cover _ Hix) as [H1 H2 H3 H4 H5 H6]. split; try done.
    + intros e a x He Ha. destruct (H4 e a x He Ha) as (y & ? & ?). exists y. split; [done|].
      eapply reach_impl; [|done]. intros u v Hu. by apply reach_one, Heq.
    + intros x y ?%Heq. by apply H5.
    + intros x t s1 s2 ?%Heq ?%Heq. by eapply H6.
  - intros e He _. by apply Hb.
Qed.

(** From the events that are kept on. *)
Lemma index_kept db st w :
  index_ok db →
  (∀ e, e ∈ events_to_calc_chain_id_for st → auth_of st e = auth e) →
  (∀ e a, e ∈ events_to_calc_chain_id_for st → a ∈ auth e →
     a ∈ dom (chain_map st) ∨ a ∈ events_to_calc_chain_id_for st) →
  (∀ e, e ∈ events_to_calc_chain_id_for st → e ∉ dom (db_chains db)) →
  chain_map st ⊆ db_chains db →
  let db1 := mkDatabase (db_rooms db) (db_events db) (db_event_auth db) (db_chains db)
               (db_links db) w (db_chain_seq db) in
  ∃ tr top,
    ('(tuples, db2) ← _allocate_chain_ids db1 st;
     let cm := tuples ∪ chain_map st in
     let to_return := (λ '(c, s), mkNewEventChainLinks c s []) <$> (tuples : gmap string position) in
     batches ← fueled (_get_chain_links (db_links db2)
                         (list_to_set (fst <$> (map_to_list cm).*2)));
     chain_links ← lift (stored_links batches);
     sorted ← fueled (sorted_topologically (events_to_calc_chain_id_for st)
                        (event_to_auth_chain st));
     '(to_return, _) ← fold_run (link_event cm (auth_of st)) sorted (to_return, chain_links);
     mret (to_return, db2)) =
    Some (Ok (tr, mkDatabase (db_rooms db) (db_events db) (db_event_auth db) (db_chains db)
                    (db_links db) w top)) ∧
    dom tr = events_to_calc_chain_id_for st ∧
    positions_ok auth ((new_pos <$> tr) ∪ db_chains db) top ∧
    cover auth ((new_pos <$> tr) ∪ db_chains db) (all_of (db_links db) tr).
Proof.
  intros Hix Hauth Hclosed Hnew Hmap db1. set (E := events_to_calc_chain_id_for st) in *.
  destruct (allocate_chain_ids_ok auth rank rank_lt db1 st) as (tuples & top & -> & HdomE & Hpo); try done.
  { intros e He. by apply not_elem_of_dom, Hnew. }
  { by apply index_positions in Hix. }
  fold E in HdomE. cbn [mbind run_bind]. unfold db1 in *. cbn -[_get_chain_links] in Hpo |- *.
  set (chains := tuples ∪ db_chains db) in *. set (cm := tuples ∪ chain_map st).
  destruct (get_chain_links_spec (db_links db) (list_to_set (fst <$> (map_to_list cm).*2)))
    as (batches & -> & Hbatches & _).
  cbn [fueled fmap option_fmap option_map mbind run_bind].
  pose proof (ix_cover _ Hix) as Hcv.
  destruct (stored_links_ok (db_links db)) with batches as (lm & -> & Hlm).
  { intros x y Hl. by apply (cv_sound _ _ _ Hcv) in Hl as [? _]. }
  { apply Hcv. }
  { done. }
  cbn [lift mbind run_bind].
  destruct (sorted_calc auth rank rank_lt st Hauth) as (sorted & Hst & Hnd & Hall & _).
  fold E in Hst. rewrite Hst.
  cbn [fueled fmap option_fmap option_map mbind run_bind].
  fold E in Hall. assert (Hdisj : ∀ e, e ∈ dom tuples → e ∉ dom (db_chains db)).
  { intros e. rewrite HdomE. apply Hnew. }
  assert (Htup : tuples ⊆ chains) by apply map_union_subseteq_l.
  assert (Hsub : db_chains db ⊆ chains).
  { apply map_union_subseteq_r, map_disjoint_dom. intros e. specialize (Hdisj e). tauto. }
  assert (Hcm : cm ⊆ chains) by (by apply map_union_mono_l).
  assert (Hcmd : ∀ e, e ∈ dom cm ↔ e ∈ E ∨ e ∈ dom (chain_map st)).
  { intros e. rewrite dom_union_L HdomE. set_solver. }
  destruct (link_events_ok auth rank rank_lt auth_nodup (db_chains db) chains tuples cm top (db_links db))
    with (auth_of st) sorted lm as ([tr lm'] & Hf & Hinv); try done.
  { intros e. rewrite HdomE Hcmd. by left. }
  { intros e. rewrite HdomE. apply Hauth. }
  { intros e a. rewrite HdomE Hcmd. intros He Ha. destruct (Hclosed e a He Ha); tauto. }
  { intros e. rewrite HdomE. apply Hall. }
  { intros x y Hl%Hlm. apply Exists_exists in Hl as (b & Hb & Hl).
    rewrite Forall_forall in Hbatches. by apply (bo_links _ _ (Hbatches b Hb)) in Hl as [_ ?]. }
  rewrite Hf. cbn [mbind run_bind mret run_ret]. exists tr, top. split; [done|].
  assert (new_pos <$> tr = tuples) as Htr.
  { apply map_eq. intros e. rewrite lookup_fmap. destruct (tr !! e) as [n|] eqn:En; simpl.
    - by rewrite (li_pos _ _ _ _ _ _ Hinv e n En).
    - symmetry. apply not_elem_of_dom. intros He. destruct (li_dom _ _ _ _ _ _ Hinv e He). simpl in *.
      congruence. }
  rewrite Htr. split_and!; [|done|].
  { by rewrite -HdomE -Htr dom_fmap_L. }
  apply (cover_extended auth (db_chains db) chains tuples top (db_links db)) with (sorted := sorted)
    (acc := (tr, lm')); try done.
  - intros e. rewrite HdomE. apply Hall.
  - intros e x [?|[_ ?]]%lookup_union_Some_raw; [left; by eapply elem_of_dom_2|by right].
Qed.

Lemma calculate_ok db (event_to_room_id : gmap string string) types authm :
  index_ok db →
  (∀ e, e ∈ dom event_to_room_id → e ∉ dom (db_chains db)) →
  (∀ e r, event_to_room_id !! e = Some r → str_nonempty r = true) →
  dom types = dom event_to_room_id → dom authm = dom event_to_room_id →
  (∀ e l, authm !! e = Some l → l = auth e) →
  ∃ tr db', _calculate_chain_cover_index db event_to_room_id types authm = Some (Ok (tr, db')) ∧
    calculated (dom event_to_room_id) db tr db'.
Proof.
  intros Hix Hnew Hrooms Hdt Hda Hauth. set (batch := dom event_to_room_id) in *.
  unfold _calculate_chain_cover_index.
  set (st0 := add_waiting db _ _).
  assert (calc_ok auth db batch st0) as Hok0.
  { apply add_waiting_ok; [apply Hix|]. split; simpl; try done.
    - intros e He. rewrite Hda. split_and!; [done|by apply Hnew|by left].
    - intros e. by rewrite Hda.
    - apply map_empty_subseteq.
    - intros e. rewrite Hdt. by left.
    - intros e. by rewrite Hdt. }
  destruct (missing_loop_ok auth db (ix_tables _ Hix) batch (2 * size (db_events db) + 2) st0
    (missing_auth_chains st0) ∅) as (st1 & -> & Hok1 & Hg1); [done| |set_solver|set_solver| |].
  { intros e a He Ha. destruct (decide (a ∈ events_to_calc_chain_id_for st0)) as [|Hn]; [by left|].
    right; right; left. unfold missing_auth_chains. apply elem_of_list_to_set, list_elem_of_filter.
    split; [done|]. destruct (co_calc _ _ _ _ Hok0 e He) as ([l Hl]%elem_of_dom & _).
    apply list_elem_of_join. exists l. split; [by rewrite (co_auth _ _ _ _ Hok0 e l Hl)|].
    apply list_elem_of_fmap. exists (e, l). split; [done|by apply elem_of_map_to_list]. }
  { unfold unknown. rewrite difference_empty_L.
    assert (size (dom (db_events db) ∖ dom (event_to_types st0)) ≤ size (dom (db_events db))) as Hle.
    { apply subseteq_size. set_solver. }
    rewrite size_dom in Hle |- *. lia. }
  cbn [fueled fmap option_fmap option_map mbind run_bind].
  destruct (discard_ok auth db (ix_tables _ Hix) rank rank_lt event_to_room_id st1 Hok1 Hg1 Hrooms)
    as (sorted & st2 & db2 & -> & Hf & Hdi).
  cbn [fueled fmap option_fmap option_map mbind run_bind]. rewrite Hf.
  cbn [lift mbind run_bind]. destruct Hdi as [D1 D2 D3 D4 D5 D6 D7 D8]. simpl in *.
  case_decide as He.
  - exists ∅, db2. split; [done|]. apply calculated_nothing; [done| |].
    + destruct D8 as [Hdb Hw]. split; [done|]. intros e. rewrite Hw He. set_solver.
    + intros e Hb. apply D7; [by apply (co_batch _ _ _ _ Hok1)|]. rewrite He. set_solver.
  - destruct D8 as [[w ->] Hw].
    destruct (index_kept db st2 w) as (tr & top & Hrun & Hdom & Hpo & Hcv); try done.
    + intros e Hin. unfold auth_of. rewrite D2. apply (auth_of_calc _ _ _ _ Hok1). by apply D4.
    + intros e a Hin Ha. rewrite D3. apply (D6 e a); [done| |done]. by apply elem_of_elements, D4.
    + intros e Hin. by apply (co_calc _ _ _ _ Hok1 e), D4.
    + rewrite D3. apply (co_map _ _ _ _ Hok1).
    + eexists tr, _. split; [exact Hrun|]. split.
      * by eexists _, _.
      * intros e. rewrite Hdom. intros Hin%D4. by apply (co_calc _ _ _ _ Hok1 e) in Hin as (_ & ? & ?).
      * intros e. simpl in Hw. by rewrite Hw Hdom.
      * done.
      * done.
      * intros e Hb. rewrite Hdom. apply D7. by apply (co_batch _ _ _ _ Hok1).
Qed.

(** ** [_persist_chain_cover_index] *)
Definition new_rows (tr : gmap string NewEventChainLinks) : link_table :=
  '(_, n) ← map_to_list tr;
  '(tc, ts) ← links n;
  [(chain_id n, sequence_number n, tc, ts)].

Lemma elem_of_new_rows tr x y : table_link (new_rows tr) x y ↔ new_link tr x y.
Proof.
  destruct x as [c s], y as [t ts]. unfold table_link, new_rows, new_link. simpl.
  rewrite list_elem_of_bind. split.
  - intros ([e n] & Hin & Hn%elem_of_map_to_list).
    apply list_elem_of_bind in Hin as ([t' ts'] & Hin & Hl).
    apply list_elem_of_singleton in Hin as [= -> -> -> ->]. eauto.
  - intros (e & n & Hn & [= -> ->] & Hy). exists (e, n). split; [|by apply elem_of_map_to_list].
    apply list_elem_of_bind. exists (t, ts). split; [set_solver|done].
Qed.

Lemma insert_chains_ok (tr : gmap string NewEventChainLinks) (old : gmap string position) :
  (∀ e, e ∈ dom tr → e ∉ dom old) →
  (∀ e f x, ((new_pos <$> tr) ∪ old) !! e = Some x → ((new_pos <$> tr) ∪ old) !! f = Some x → e = f) →
  fold_res (λ chains '(event_id, n), insert_chain chains event_id (chain_id n, sequence_number n))
    (map_to_list tr) old = Ok ((new_pos <$> tr) ∪ old).
Proof.
  intros Hd Hinj.
  match goal with |- fold_res ?f _ _ = _ => destruct (fold_res_inv
    (λ l chains, ∀ e x, chains !! e = Some x ↔ (∃ n, (e, n) ∈ l ∧ x = new_pos n) ∨ old !! e = Some x)
    f (map_to_list tr) old) as (chains & -> & Hinv) end.
  - intros e x. set_solver.
  - intros l1 [e n] l2 chains Hl Hinv.
    assert (∀ e' n', (e', n') ∈ l1 ++ (e, n) :: l2 → tr !! e' = Some n') as Hin.
    { rewrite -Hl. intros. by apply elem_of_map_to_list. }
    assert (∀ e' n', (e', n') ∈ l1 → e' ≠ e) as Hne.
    { intros e' n' Hx ->. pose proof (NoDup_fst_map_to_list tr) as Hnd. rewrite Hl fmap_app in Hnd.
      apply NoDup_app in Hnd as (_ & Hdd & _). apply (Hdd e); [|by left].
      apply list_elem_of_fmap. by exists (e, n'). }
    assert (tr !! e = Some n) as He by (apply Hin; set_solver).
    assert (∀ e' x, chains !! e' = Some x → ((new_pos <$> tr) ∪ old) !! e' = Some x) as Hsub.
    { intros e' x [(n' & Hn' & ->)|Ho]%Hinv; apply lookup_union_Some_raw.
      - left. rewrite lookup_fmap (Hin e' n') //. set_solver.
      - right. split; [|done]. apply not_elem_of_dom. rewrite dom_fmap. intros ?%Hd.
        by apply elem_of_dom_2 in Ho. }
    unfold insert_chain. rewrite bool_decide_eq_false_2; last first.
    { intros [[x [(n' & Hn' & _)|Ho]%Hinv]%elem_of_dom|Hp].
      - by destruct (Hne _ _ Hn').
      - apply (Hd e); by eapply elem_of_dom_2.
      - apply list_elem_of_fmap in Hp as ([e' x] & Hx & Hin'%elem_of_map_to_list). simpl in Hx. subst x.
        assert (e' = e) as ->.
        { eapply Hinj; [by apply Hsub|]. apply lookup_union_Some_raw. left.
          by rewrite lookup_fmap He. }
        apply Hinv in Hin' as [(n' & Hn' & _)|Ho]; [by destruct (Hne _ _ Hn')|].
        apply (Hd e); by eapply elem_of_dom_2. }
    simpl. eexists. split; [done|]. intros e' x. setoid_rewrite elem_of_app.
    setoid_rewrite list_elem_of_singleton. rewrite lookup_insert_Some Hinv. split.
    + intros [[<- <-]|[? [(n' & ? & ?)|?]]]; [left; exists n; by eauto|left; by eauto|by right].
    + intros [(n' & [Hn'|[= -> ->]] & ->)|Ho].
      * right. split; [|left; eauto]. symmetry. by eapply Hne.
      * by left.
      * right. split; [|by right]. intros <-. apply (Hd e); by eapply elem_of_dom_2.
  - f_equal. apply map_eq. intros e. apply option_eq. intros x. rewrite Hinv lookup_union_Some_raw.
    rewrite lookup_fmap fmap_Some. setoid_rewrite elem_of_map_to_list. split; [|naive_solver].
    intros [?|Ho]; [by left|]. right. split; [|done]. destruct (tr !! e) eqn:En; [|done].
    exfalso. apply (Hd e); by eapply elem_of_dom_2.
Qed.

Lemma persist_index_ok batch db tr db' rows :
  calculated batch db tr db' →
  ∃ w, (if decide (tr = ∅) then Ok (mkDatabase (db_rooms db) rows (db_event_auth db) (db_chains db)
            (db_links db) (db_to_calculate db') (db_chain_seq db'))
        else _persist_chain_cover_index (mkDatabase (db_rooms db) rows (db_event_auth db)
          (db_chains db) (db_links db) (db_to_calculate db') (db_chain_seq db')) tr) =
    Ok (mkDatabase (db_rooms db) rows (db_event_auth db) ((new_pos <$> tr) ∪ db_chains db)
          (db_links db ++ new_rows tr) w (db_chain_seq db')) ∧
    ∀ e, e ∈ dom w ↔ (e ∈ dom (db_to_calculate db) ∨ e ∈ batch) ∧ e ∉ dom tr.
Proof.
  intros [(w & top & ->) Hn Hw Hpo Hcv _]. simpl in *. case_decide as Htr.
  - subst tr. exists w. rewrite fmap_empty (left_id_L ∅ (∪)) (_ : new_rows ∅ = []) // app_nil_r.
    split; [done|]. intros e. rewrite Hw. set_solver.
  - unfold _persist_chain_cover_index. simpl.
    rewrite insert_chains_ok; [|intros e He; by apply Hn|apply Hpo].
    simpl. eexists. split; [done|]. intros e. rewrite elem_of_dom. split.
    + intros [x [Hx He]%map_lookup_filter_Some]. apply elem_of_dom_2, Hw in Hx. simpl in He. tauto.
    + intros [Hin Hne]. assert (e ∈ dom w) as [x Hx]%elem_of_dom by (apply Hw; tauto).
      exists x. by apply map_lookup_filter_Some.
Qed.

(** ** The events of a chunk *)
Definition consistent (e : new_event) : Prop :=
  ne_auth_events e = auth (ne_event_id e) ∧ ne_state_key e = skey (ne_event_id e) ∧
  str_nonempty (ne_room_id e) = true.

Lemma dedup_spec evs e :
  e ∈ dedup_state_events evs → e ∈ evs ∧ is_state e = true.
Proof.
  unfold dedup_state_events.
  assert (∀ l acc seen, (∀ x, x ∈ acc → x ∈ evs ∧ is_state x = true) → (∀ x, x ∈ l → x ∈ evs) →
    ∀ x, x ∈ (foldl (λ '(acc, seen) event,
      if decide (is_state event = false ∨ ne_event_id event ∈ (seen : gset string)) then (acc, seen)
      else (acc ++ [event], {[ne_event_id event]} ∪ seen)) (acc, seen) l).1 →
      x ∈ evs ∧ is_state x = true) as Hgo; [|apply Hgo; [set_solver|done]].
  induction l as [|ev l IH]; intros acc seen Hacc Hl x; simpl; [by apply Hacc|].
  assert (∀ y, y ∈ l → y ∈ evs) by (intros; apply Hl; by right).
  case_decide as Hd; apply IH; try done.
  intros y [?| ->%list_elem_of_singleton]%elem_of_app; [by apply Hacc|].
  split; [apply Hl; by left|]. destruct (is_state ev); [done|tauto].
Qed.

Lemma dedup_complete evs e :
  e ∈ evs → is_state e = true →
  ∃ e', e' ∈ dedup_state_events evs ∧ ne_event_id e' = ne_event_id e.
Proof.
  unfold dedup_state_events.
  assert (∀ l acc seen, (∀ i, i ∈ seen → ∃ x, x ∈ acc ∧ ne_event_id x = i) →
    let r := foldl (λ '(acc, seen) event,
      if decide (is_state event = false ∨ ne_event_id event ∈ (seen : gset string)) then (acc, seen)
      else (acc ++ [event], {[ne_event_id event]} ∪ seen)) (acc, seen) l in
    (∀ x, x ∈ acc → x ∈ r.1) ∧
    ∀ x, x ∈ l → is_state x = true → ∃ y, y ∈ r.1 ∧ ne_event_id y = ne_event_id x) as Hgo.
  { induction l as [|ev l IH]; intros acc seen Hs; simpl; [set_solver|].
    case_decide as Hd.
    - destruct (IH acc seen Hs) as [H1 H2]. split; [done|].
      intros x [-> |?]%elem_of_cons Hx; [|by apply H2]. destruct Hd as [?|Hin]; [congruence|].
      destruct (Hs _ Hin) as (y & ? & ?). exists y. split; [by apply H1|done].
    - destruct (IH (acc ++ [ev]) ({[ne_event_id ev]} ∪ seen)) as [H1 H2].
      { intros i [->%elem_of_singleton|Hi]%elem_of_union.
        - exists ev. rewrite elem_of_app list_elem_of_singleton. by auto.
        - destruct (Hs i Hi) as (y & ? & ?). exists y. rewrite elem_of_app. by auto. }
      split; [intros y ?; apply H1, elem_of_app; by left|]. intros x [-> |?]%elem_of_cons Hx; [|by apply H2].
      exists ev. split; [|done]. apply H1, elem_of_app. right. by apply list_elem_of_singleton. }
  intros He Hst. by apply (Hgo evs [] ∅).
Qed.

(** A dictionary by event ID. *)
Definition by_id {A} (f : new_event → A) (l : list new_event) (m : gmap string A) : gmap string A :=
  foldl (λ m e, <[ne_event_id e := f e]> m) m l.

Lemma by_id_lookup {A} (f : new_event → A) l m k v :
  by_id f l m !! k = Some v →
  (∃ e, e ∈ l ∧ ne_event_id e = k ∧ v = f e) ∨ (k ∉ ne_event_id <$> l ∧ m !! k = Some v).
Proof.
  unfold by_id. revert m. induction l as [|e l IH]; intros m; simpl; [right; set_solver|].
  intros [(x & ? & ? & ?)|[Hn Hm]]%IH; [left; exists x; set_solver|].
  apply lookup_insert_Some in Hm as [[<- <-]|[Hne ?]]; [left; exists e; set_solver|].
  right. split; [set_solver|done].
Qed.

Lemma by_id_dom {A} (f : new_event → A) l m :
  dom (by_id f l m) = list_to_set (ne_event_id <$> l) ∪ dom m.
Proof.
  unfold by_id. revert m. induction l as [|e l IH]; intros m; simpl; [set_solver|].
  rewrite IH dom_insert_L. set_solver.
Qed.

Lemma calculate_for_events_ok db room_id evs :
  index_ok db → Forall consistent evs →
  ∃ tr db' batch,
    calculate_chain_cover_index_for_events db room_id evs = Some (Ok (tr, db')) ∧
    calculated batch db tr db' ∧
    (∀ e, e ∈ batch → e ∉ dom (db_chains db) ∧
       ∃ ev, ev ∈ evs ∧ ne_event_id ev = e ∧ is_state ev = true) ∧
    (db_rooms db !! room_id = Some (Some true) → ∀ ev, ev ∈ evs → is_state ev = true →
       ne_event_id ev ∉ dom (db_chains db) → ne_event_id ev ∈ batch).
Proof.
  intros Hix Hc. unfold calculate_chain_cover_index_for_events.
  assert (∀ P : Prop, (P → ∀ ev, ev ∈ evs → is_state ev = true →
      ne_event_id ev ∉ dom (db_chains db) → False) →
    ∃ tr db' batch, (mret (∅, db) : run (gmap string NewEventChainLinks * database)) =
        Some (Ok (tr, db')) ∧ calculated batch db tr db' ∧
      (∀ e, e ∈ batch → e ∉ dom (db_chains db) ∧
         ∃ ev, ev ∈ evs ∧ ne_event_id ev = e ∧ is_state ev = true) ∧
      (P → ∀ ev, ev ∈ evs → is_state ev = true → ne_event_id ev ∉ dom (db_chains db) →
         ne_event_id ev ∈ batch)) as Hnone.
  { intros P HP. exists ∅, db, ∅. split_and!; [done| |set_solver|].
    - apply calculated_nothing; [done| |set_solver]. split; [|set_solver].
      exists (db_to_calculate db). by destruct db.
    - intros. by exfalso; eapply HP. }
  case_decide as Hd0.
  { apply Hnone. intros _ ev Hev Hst _. destruct (dedup_complete evs ev Hev Hst) as (? & Hin & _).
    rewrite Hd0 in Hin. by apply elem_of_nil in Hin. }
  set (l := filter (λ e, ne_event_id e ∉ dom (db_chains db)) (dedup_state_events evs)).
  assert (∀ ev, ev ∈ evs → is_state ev = true → ne_event_id ev ∉ dom (db_chains db) →
    ∃ e, e ∈ l ∧ ne_event_id e = ne_event_id ev) as Hl.
  { intros ev Hev Hst Hn. destruct (dedup_complete evs ev Hev Hst) as (e & He & Hid). exists e.
    split; [|done]. apply list_elem_of_filter. by rewrite Hid. }
  assert (∀ e, e ∈ l → e ∈ evs ∧ is_state e = true ∧ ne_event_id e ∉ dom (db_chains db)) as Hl'.
  { intros e [? [? ?]%dedup_spec]%list_elem_of_filter. done. }
  assert (∃ tr db' batch,
    (if decide (l = []) then mret (∅, db)
     else _calculate_chain_cover_index db (by_id ne_room_id l ∅)
            (by_id (λ e, (ne_type e, default "" (ne_state_key e))) l ∅) (by_id ne_auth_events l ∅)) =
      Some (Ok (tr, db')) ∧ calculated batch db tr db' ∧
    (∀ e, e ∈ batch → e ∉ dom (db_chains db) ∧
       ∃ ev, ev ∈ evs ∧ ne_event_id ev = e ∧ is_state ev = true) ∧
    (db_rooms db !! room_id = Some (Some true) → ∀ ev, ev ∈ evs → is_state ev = true →
       ne_event_id ev ∉ dom (db_chains db) → ne_event_id ev ∈ batch)) as Hcalc.
  { case_decide as Hd1.
    { apply Hnone. intros _ ev Hev Hst Hn. destruct (Hl ev Hev Hst Hn) as (e & He & _).
      rewrite Hd1 in He. by apply elem_of_nil in He. }
    rewrite Forall_forall in Hc.
    destruct (calculate_ok db (by_id ne_room_id l ∅) (by_id (λ e, (ne_type e, default "" (ne_state_key e))) l ∅)
      (by_id ne_auth_events l ∅)) as (tr & db' & Hrun & Hcal); [done| | | | | |].
    - intros e. rewrite by_id_dom. rewrite elem_of_union elem_of_list_to_set list_elem_of_fmap.
      intros [(x & -> & Hx)|?]; [by apply Hl'|set_solver].
    - intros e r [(x & Hx & _ & ->)|[_ ?]]%by_id_lookup; [|by rewrite lookup_empty in H].
      apply Hc. by apply Hl'.
    - by rewrite !by_id_dom.
    - by rewrite !by_id_dom.
    - intros e a [(x & Hx & <- & ->)|[_ ?]]%by_id_lookup; [|by rewrite lookup_empty in H].
      apply Hc. by apply Hl'.
    - exists tr, db', (dom (by_id ne_room_id l ∅)). split_and!; [done|done| |].
      + intros e. rewrite by_id_dom elem_of_union elem_of_list_to_set list_elem_of_fmap.
        intros [(x & -> & Hx)|?]; [|set_solver]. destruct (Hl' x Hx) as (? & ? & ?). eauto 6.
      + intros _ ev Hev Hst Hn. destruct (Hl ev Hev Hst Hn) as (e & He & <-).
        rewrite by_id_dom elem_of_union elem_of_list_to_set list_elem_of_fmap. left. eauto. }
  destruct (db_rooms db !! room_id) as [[[|]|]|] eqn:Er; try exact Hcalc; by apply Hnone.
Qed.

(** ** Storing the new events *)
Lemma keep_event_spec acc ev :
  NoDup (ne_event_id <$> acc) →
  NoDup (ne_event_id <$> keep_event acc ev) ∧
  (∀ e, e ∈ keep_event acc ev → e ∈ acc ∨ e = ev) ∧
  ∀ i, i ∈ ne_event_id <$> keep_event acc ev ↔ i ∈ ne_event_id <$> acc ∨ i = ne_event_id ev.
Proof.
  intros Hnd. unfold keep_event.
  destruct (list_find _ acc) as [[i prev]|] eqn:Ef.
  - apply list_find_Some in Ef as (Hi & Hid & _).
    assert (ne_event_id prev ∈ ne_event_id <$> acc) as Hin
      by (by eapply list_elem_of_fmap_2, list_elem_of_lookup_2).
    case_match; [|split_and!; [done|by left|rewrite -Hid; naive_solver]].
    assert (acc = take i acc ++ prev :: drop (S i) acc) as Hacc by (by rewrite take_drop_middle).
    rewrite delete_take_drop. set (l1 := take i acc) in *. set (l2 := drop (S i) acc) in *.
    rewrite Hacc !fmap_app fmap_cons in Hnd. apply NoDup_app in Hnd as (N1 & N2 & [N3 N4]%NoDup_cons).
    split_and!.
    + rewrite !fmap_app -app_assoc. apply NoDup_app. split_and!; [done| |].
      * intros x Hx [Hx'|Hx']%elem_of_app; [apply (N2 x Hx); by right|].
        apply list_elem_of_singleton in Hx'. subst x. apply (N2 _ Hx). rewrite -Hid. by left.
      * apply NoDup_app. split_and!; [done| |apply NoDup_singleton].
        intros x Hx Hx'%list_elem_of_singleton. subst x. by rewrite -Hid in Hx.
    + intros e [He|He%list_elem_of_singleton]%elem_of_app; [left|by right]. rewrite Hacc. set_solver.
    + intros j. rewrite Hacc !fmap_app !fmap_cons !elem_of_app !elem_of_cons fmap_nil.
      rewrite elem_of_nil -Hid. tauto.
  - apply list_find_None in Ef. rewrite Forall_forall in Ef. split_and!.
    + rewrite fmap_app. apply NoDup_app. split_and!; [done| |apply NoDup_singleton].
      intros x (e & -> & He)%list_elem_of_fmap Hx%list_elem_of_singleton. by apply (Ef e).
    + intros e [He|He%list_elem_of_singleton]%elem_of_app; [by left|by right].
    + intros j. by rewrite fmap_app elem_of_app list_elem_of_singleton.
Qed.

Lemma filter_duplicates_spec evs :
  let l := _filter_events_and_contexts_for_duplicates evs in
  NoDup (ne_event_id <$> l) ∧ (∀ e, e ∈ l → e ∈ evs) ∧
  ∀ i, i ∈ ne_event_id <$> l ↔ i ∈ ne_event_id <$> evs.
Proof.
  unfold _filter_events_and_contexts_for_duplicates. simpl.
  induction evs as [|ev evs IH] using rev_ind; [split_and!; [constructor|done|done]|].
  rewrite foldl_snoc. destruct IH as (H1 & H2 & H3).
  destruct (keep_event_spec (foldl keep_event [] evs) ev H1) as (K1 & K2 & K3). split_and!; [done| |].
  - intros e [?%H2| ->]%K2; rewrite elem_of_app list_elem_of_singleton; tauto.
  - intros i. rewrite K3 H3 fmap_app elem_of_app list_elem_of_singleton. done.
Qed.

Definition auth_rows (l : list new_event) : list (string * string) :=
  e ← l; if is_state e then (λ a, (ne_event_id e, a)) <$> ne_auth_events e else [].

Lemma auth_rows_none l e : e ∉ ne_event_id <$> l → filter (λ r, r.1 = e) (auth_rows l) = [].
Proof.
  intros Hn. induction l as [|ev l IH]; [done|]. unfold auth_rows. rewrite bind_cons filter_app.
  fold (auth_rows l). rewrite IH; [|set_solver]. rewrite app_nil_r.
  destruct (is_state ev); [|done]. assert (ne_event_id ev ≠ e) by set_solver.
  induction (ne_auth_events ev) as [|a auths IHa]; [done|]. rewrite fmap_cons filter_cons_False //.
Qed.

Lemma auth_rows_one l ev :
  NoDup (ne_event_id <$> l) → ev ∈ l → is_state ev = true →
  (filter (λ r, r.1 = ne_event_id ev) (auth_rows l)).*2 = ne_auth_events ev.
Proof.
  intros Hnd Hin Hst. induction l as [|e l IH]; [by apply elem_of_nil in Hin|].
  apply NoDup_cons in Hnd as [Hn Hnd]. unfold auth_rows. rewrite bind_cons filter_app fmap_app.
  fold (auth_rows l). apply elem_of_cons in Hin as [-> |Hin].
  - rewrite auth_rows_none // app_nil_r Hst. clear IH.
    induction (ne_auth_events e) as [|a auths IHa]; [done|].
    rewrite fmap_cons filter_cons_True // fmap_cons IHa. done.
  - rewrite IH //. assert (ne_event_id e ≠ ne_event_id ev) as Hne.
    { intros Heq. apply Hn. rewrite Heq. by apply list_elem_of_fmap_2. }
    destruct (is_state e); [|done]. clear IH.
    induction (ne_auth_events e) as [|a auths IHa]; [done|]. rewrite fmap_cons filter_cons_False //.
Qed.

Section store.
Context (db : database) (evs new : list new_event).
Context (Hix : index_ok db) (Hc : ∀ e, e ∈ evs → consistent e).
Context (Hnd : NoDup (ne_event_id <$> new)).
Context (Hnew : ∀ e, e ∈ new → e ∈ evs ∧ ne_event_id e ∉ dom (db_events db)).
Context (Hall : ∀ ev, ev ∈ evs → ne_event_id ev ∈ dom (db_events db) ∨ ne_event_id ev ∈ ne_event_id <$> new).

Definition row_of (e : new_event) : event_row :=
  mkEventRow (ne_room_id e) (ne_type e) (ne_state_key e) (ne_depth e).

(** The tables after the new events are stored, whatever the index is. *)
Definition stored_db (chains : gmap string position) (table : link_table)
    (w : gmap string (string * string * string)) (top : Z) : database :=
  mkDatabase (db_rooms db) (by_id row_of new (db_events db)) (db_event_auth db ++ auth_rows new)
    chains table w top.

Lemma stored_rows chains table w top e row :
  db_events (stored_db chains table w top) !! e = Some row → er_state_key row = skey e.
Proof.
  intros [(x & Hx & <- & ->)|[_ ?]]%by_id_lookup; [|by eapply (ix_rows _ Hix)]. simpl.
  by apply Hc, Hnew.
Qed.

Lemma stored_new chains table w top ev :
  ev ∈ evs → is_state ev = true → stored (stored_db chains table w top) (ne_event_id ev).
Proof.
  intros Hev Hst. destruct (Hc ev Hev) as (_ & Hsk & _).
  assert (ne_event_id ev ∈ dom (db_events (stored_db chains table w top))) as [row Hrow]%elem_of_dom.
  { simpl. rewrite by_id_dom elem_of_union elem_of_list_to_set. destruct (Hall ev Hev); tauto. }
  unfold is_state in Hst. apply bool_decide_eq_true in Hst as [sk Hst].
  exists row, sk. split; [done|]. rewrite (stored_rows _ _ _ _ _ _ Hrow). congruence.
Qed.

Lemma stored_old chains table w top e : stored db e → stored (stored_db chains table w top) e.
Proof.
  intros (row & sk & Hr & Hsk).
  assert (e ∈ dom (db_events (stored_db chains table w top))) as [row' Hrow]%elem_of_dom.
  { simpl. rewrite by_id_dom elem_of_union. right. by eapply elem_of_dom_2. }
  exists row', sk. split; [done|].
  by rewrite (stored_rows _ _ _ _ _ _ Hrow) -(ix_rows _ Hix _ _ Hr).
Qed.

Lemma stored_auth chains table w top e :
  stored (stored_db chains table w top) e → select_auth (stored_db chains table w top) e = auth e.
Proof.
  intros (row & sk & Hr & Hsk). unfold select_auth. simpl. rewrite filter_app fmap_app.
  apply by_id_lookup in Hr as [(x & Hx & <- & ->)|[Hn Hr]].
  - destruct (Hnew x Hx) as [Hxe Hxn]. rewrite auth_rows_one //.
    + assert (select_auth db (ne_event_id x) = []) as Hs.
      { apply (tb_new _ _ (ix_tables _ Hix)). intros (row & sk' & Hrow & _).
        by apply Hxn, (elem_of_dom_2 _ _ row). }
      unfold select_auth in Hs. rewrite Hs.
      by apply Hc.
    + simpl in Hsk. unfold is_state. rewrite Hsk. by apply bool_decide_eq_true_2.
  - rewrite auth_rows_none // app_nil_r. apply (tb_auth _ _ (ix_tables _ Hix)). by exists row, sk.
Qed.

Lemma stored_iff chains table w top e :
  stored (stored_db chains table w top) e ↔
  stored db e ∨ ∃ ev, ev ∈ evs ∧ ne_event_id ev = e ∧ is_state ev = true.
Proof.
  split; [|intros [?|(ev & ? & <- & ?)]; [by apply stored_old|by apply stored_new]].
  intros (row & sk & [(x & Hx & <- & ->)|[_ Hr]]%by_id_lookup & Hsk); [|left; by exists row, sk].
  right. exists x. split_and!; [by apply Hnew|done|]. simpl in Hsk. unfold is_state. rewrite Hsk.
  by apply bool_decide_eq_true_2.
Qed.

Lemma auth_rows_not_state l e :
  (∀ ev, ev ∈ l → ne_event_id ev = e → is_state ev = false) →
  filter (λ r, r.1 = e) (auth_rows l) = [].
Proof.
  intros Hn. induction l as [|ev l IH]; [done|]. unfold auth_rows. rewrite bind_cons filter_app.
  fold (auth_rows l). rewrite IH; [|intros ev' ?; apply Hn; by right]. rewrite app_nil_r.
  destruct (is_state ev) eqn:Es; [|done].
  assert (ne_event_id ev ≠ e) by (intros ?; rewrite (Hn ev) in Es; [done|by left|done]).
  induction (ne_auth_events ev) as [|a auths IHa]; [done|]. rewrite fmap_cons filter_cons_False //.
Qed.

Lemma stored_no_auth chains table w top e :
  ¬ stored (stored_db chains table w top) e → select_auth (stored_db chains table w top) e = [].
Proof.
  rewrite stored_iff. intros Hn.
  unfold select_auth. simpl. rewrite filter_app fmap_app auth_rows_not_state.
  - rewrite app_nil_r. apply (tb_new _ _ (ix_tables _ Hix)). tauto.
  - intros ev Hev He. destruct (is_state ev) eqn:Es; [|done]. exfalso. apply Hn. right.
    exists ev. split_and!; [by apply Hnew|done|done].
Qed.

Lemma cover_rows tr :
  cover auth ((new_pos <$> tr) ∪ db_chains db) (all_of (db_links db) tr) →
  cover auth ((new_pos <$> tr) ∪ db_chains db) (table_link (db_links db ++ new_rows tr)).
Proof.
  assert (∀ x y, table_link (db_links db ++ new_rows tr) x y ↔ all_of (db_links db) tr x y) as Heq.
  { intros x y. unfold all_of. rewrite -elem_of_new_rows. unfold table_link. by rewrite elem_of_app. }
  intros [H1 H2 H3 H4 H5 H6]. split; try done.
  - intros e a x He Ha. destruct (H4 e a x He Ha) as (y & ? & ?). exists y. split; [done|].
    eapply reach_impl; [|done]. intros u v Hu. by apply reach_one, Heq.
  - intros x y ?%Heq. by apply H5.
  - intros x t s1 s2 ?%Heq ?%Heq. by eapply H6.
Qed.

Lemma stored_index batch tr db1 w :
  calculated batch db tr db1 →
  (∀ e, e ∈ batch → ∃ ev, ev ∈ evs ∧ ne_event_id ev = e ∧ is_state ev = true) →
  (∀ e, e ∈ dom w ↔ (e ∈ dom (db_to_calculate db) ∨ e ∈ batch) ∧ e ∉ dom tr) →
  (∀ e, e ∈ batch → e ∉ dom (db_chains db)) →
  index_ok (stored_db ((new_pos <$> tr) ∪ db_chains db) (db_links db ++ new_rows tr) w
    (db_chain_seq db1)).
Proof.
  intros Hcal Hb Hw Hbn.
  assert (∀ e, e ∈ batch → ∀ chains table w top, stored (stored_db chains table w top) e) as Hbs.
  { intros e (ev & ? & <- & ?)%Hb *. by apply stored_new. }
  split; [split|..].
  - intros e. apply stored_auth.
  - intros e. apply stored_no_auth.
  - intros e. simpl. rewrite dom_union_L dom_fmap_L. intros [He|He]%elem_of_union.
    + apply (cl_new _ _ _ _ Hcal) in He as [_ [?|?]]; [by apply Hbs|by apply stored_old].
    + by apply stored_old, (tb_indexed _ _ (ix_tables _ Hix)).
  - intros e [[He|He] Hn]%Hw; simpl; rewrite dom_union_L dom_fmap_L.
    + apply (tb_waiting _ _ (ix_tables _ Hix)) in He as [? ?].
      split; [by apply stored_old|]. intros [?|?]%elem_of_union; done.
    + split; [by apply Hbs|]. apply Hbn in He. intros [?|?]%elem_of_union; done.
  - intros e row. apply stored_rows.
  - apply cover_rows, (cl_cover _ _ _ _ Hcal).
  - apply (cl_positions _ _ _ _ Hcal).
Qed.
End store.

(** Persisting a chunk of events ends without an exception, and keeps the index. *)
Lemma persist_events_ok db room_id evs :
  index_ok db → Forall consistent evs →
  ∃ db', persist_events db room_id evs = Some (Ok db') ∧ index_ok db' ∧
    db_rooms db' = db_rooms db ∧
    (∀ e, stored db' e ↔ stored db e ∨ ∃ ev, ev ∈ evs ∧ ne_event_id ev = e ∧ is_state ev = true) ∧
    (∀ e, e ∈ dom (db_chains db) → e ∈ dom (db_chains db')) ∧
    (db_rooms db !! room_id = Some (Some true) → ∀ ev, ev ∈ evs → is_state ev = true →
       ne_event_id ev ∈ dom (db_chains db') ∨
       ∃ a, auth_chain auth (ne_event_id ev) a ∧ ¬ stored db' a).
Proof.
  intros Hix Hc. unfold persist_events.
  destruct (calculate_for_events_ok db room_id evs Hix Hc) as (tr & db1 & batch & -> & Hcal & Hb & Hbr).
  cbn [mbind run_bind].
  set (new := not_persisted db1 (_filter_events_and_contexts_for_duplicates evs)).
  destruct (filter_duplicates_spec evs) as (F1 & F2 & F3).
  destruct (cl_db _ _ _ _ Hcal) as (w1 & top & Hdb1).
  assert (db_events db1 = db_events db) as Hev1 by (by rewrite Hdb1).
  assert (NoDup (ne_event_id <$> new)) as Hnd.
  { eapply sublist_NoDup; [exact F1|]. by apply fmap_sublist, sublist_filter. }
  assert (∀ e, e ∈ new → e ∈ evs ∧ ne_event_id e ∉ dom (db_events db)) as Hnew.
  { intros e [He ?]%list_elem_of_filter. rewrite Hev1 in He. split; [by apply F2|done]. }
  assert (∀ ev, ev ∈ evs →
    ne_event_id ev ∈ dom (db_events db) ∨ ne_event_id ev ∈ ne_event_id <$> new) as Hall.
  { intros ev Hev. destruct (decide (ne_event_id ev ∈ dom (db_events db))) as [|Hn]; [by left|]. right.
    apply (list_elem_of_fmap_2 ne_event_id), F3, list_elem_of_fmap in Hev as (x & Hx & Hin).
    rewrite Hx in Hn |- *. apply list_elem_of_fmap_2, list_elem_of_filter. by rewrite Hev1. }
  destruct (persist_index_ok batch db tr db1 (by_id row_of new (db_events db)) Hcal) as (w & Hp & Hw).
  set (db' := stored_db db new ((new_pos <$> tr) ∪ db_chains db) (db_links db ++ new_rows tr) w
    (db_chain_seq db1)).
  exists db'. split.
  { unfold _persist_event_auth_chain_txn, _store_event_txn. rewrite Hev1.
    rewrite Hdb1 in Hp |- *. cbn [db_rooms db_events db_event_auth db_chains db_links db_to_calculate
      db_chain_seq] in Hp |- *. fold (by_id row_of new (db_events db)). rewrite Hp. subst db1. done. }
  rewrite Forall_forall in Hc.
  assert (∀ e, stored db' e ↔
    stored db e ∨ ∃ ev, ev ∈ evs ∧ ne_event_id ev = e ∧ is_state ev = true) as Hst.
  { intros e. by apply stored_iff. }
  assert (dom (db_chains db') = dom tr ∪ dom (db_chains db)) as Hdc.
  { simpl. by rewrite dom_union_L dom_fmap_L. }
  split_and!; [|done|done|rewrite Hdc; set_solver|].
  { eapply (stored_index db evs new); try done.
    - intros e He. by apply Hb.
    - intros e He. by apply Hb. }
  intros Hroom ev Hev Hsev. rewrite Hdc.
  destruct (decide (ne_event_id ev ∈ dom (db_chains db))) as [|Hn]; [left; set_solver|].
  destruct (decide (ne_event_id ev ∈ dom tr)) as [|Hnt]; [left; set_solver|]. right.
  destruct (cl_batch _ _ _ _ Hcal (ne_event_id ev)) as (a & Ha & Hna & Hnb); [by apply Hbr|done|].
  exists a. split; [done|]. intros [?|(ev' & Hev' & <- & Hs')]%Hst; [done|].
  destruct (decide (ne_event_id ev' ∈ dom (db_chains db))) as [Hd|Hd]; [|by apply Hnb, Hbr].
  by apply Hna, (tb_indexed _ _ (ix_tables _ Hix)).
Qed.
End persist.
