(* ===== verification/AuthChain.v ===== *)
(** The queries on the auth DAG of
    [storage/databases/main/event_federation.py]: the auth chain of a set of
    events and the auth chain difference of state sets, with the chain cover
    index and without it.

    [_event_auth_cache], an [LruCache], is a map; [evict] is what the cache may
    drop when it is written to. *)
From S2P Require Import Prelude IterUtils ChainLinks ChainCover.

(** ** With the index *)

(** [SELECT event_id, chain_id, sequence_number FROM event_auth_chains WHERE
    event_id IN ...], in batches. *)
Definition select_chains (db : database) (ids : gset string) : list (string * position) :=
  batch ← batch_iter (elements ids) 1000;
  omap (λ e, (λ pos, (e, pos)) <$> db_chains db !! e) batch.

(** [d[c] = max(s, d.get(c, 0))] *)
Definition raise_to (c s : Z) (d : gmap Z Z) : gmap Z Z :=
  <[c := Z.max s (default 0%Z (d !! c))]> d.

(** The chains that the links reach from [event_chains]. *)
Definition materialize_all (event_chains : gmap Z Z) (batches : list chain_links)
    (chains : gmap Z Z) : option (gmap Z Z) :=
  fold_opt (λ chains links,
    fold_opt (λ chains c,
      match event_chains !! c with
      | None => Some chains
      | Some s => _materialize c s links chains true
      end) (elements (dom links)) chains) batches chains.

(** [SELECT event_id FROM event_auth_chains WHERE chain_id = ? AND
    sequence_number <= ?], for each chain. *)
Definition in_range (chains : gmap Z Z) (pos : position) : bool :=
  match chains !! pos.1 with Some m => (pos.2 <=? m)%Z | None => false end.

Definition below (db : database) (chains : gmap Z Z) : gset string :=
  dom (filter (λ kv : string * position, in_range chains kv.2 = true) (db_chains db)).

Definition _get_auth_chain_ids_using_cover_index_txn (db : database) (room_id : string)
    (event_ids : gset string) (include_given : bool) : run (gset string) :=
  let rows := select_chains db event_ids in
  let seen_events : gset string := list_to_set rows.*1 in
  let event_chains := foldl (λ d '(_, (c, s)), raise_to c s d) ∅ rows in
  _ ← lift (raise_if (bool_decide (event_ids ∖ seen_events ≠ ∅)) (NoChainCoverIndex room_id));
  batches ← fueled (_get_chain_links (db_links db) (dom event_chains));
  chains ← fueled (materialize_all event_chains batches ∅);
  let chains := map_fold (λ c s chains,
    if (s =? 1)%Z then chains else raise_to c (s - 1) chains) chains event_chains in
  mret ((if include_given then event_ids else ∅) ∪ below db chains).

(** ** Without the index *)
Section walk.
Context (evict : gmap string (list (string * Z)) → gmap string (list (string * Z))).

(** The rows of [event_auth] joined with [events], for one event. *)
Definition auth_depths (db : database) (event_id : string) : list (string * Z) :=
  omap (λ a, (λ row, (a, er_depth row)) <$> db_events db !! a) (select_auth db event_id).

(** [self._event_auth_cache.set] for the events that have rows. *)
Definition cache_rows (db : database) (to_fetch : list string)
    (cache : gmap string (list (string * Z))) : gmap string (list (string * Z)) :=
  foldl (λ cache e,
    match auth_depths db e with [] => cache | rows => evict (<[e := rows]> cache) end)
    cache to_fetch.

(** The auth events of a chunk, from the cache or from the database. *)
Definition fetch_chunk (db : database) (acc : gmap string (list (string * Z)) * gset string)
    (chunk : list string) : gmap string (list (string * Z)) * gset string :=
  let '(cache, new_front) := acc in
  let to_fetch := filter (λ e, cache !! e = None) chunk in
  let cached := omap (cache !!.) chunk in
  (cache_rows db to_fetch cache,
   list_to_set (mjoin cached ++ (to_fetch ≫= auth_depths db)).*1 ∪ new_front).

Fixpoint auth_chain_loop (fuel : nat) (db : database) (cache : gmap string (list (string * Z)))
    (front results : gset string) : option (gset string * gmap string (list (string * Z))) :=
  if decide (front = ∅) then Some (results, cache)
  else
    match fuel with
    | 0 => None
    | S fuel =>
        let '(cache, new_front) :=
          foldl (fetch_chunk db) (cache, ∅) (batch_iter (elements front) 100) in
        let new_front := new_front ∖ results in
        auth_chain_loop fuel db cache new_front (results ∪ new_front)
    end.

(** Every turn but the last adds an event to the results. *)
Definition _get_auth_chain_ids_txn (db : database) (cache : gmap string (list (string * Z)))
    (event_ids : gset string) (include_given : bool)
    : option (gset string * gmap string (list (string * Z))) :=
  auth_chain_loop (S (size (db_events db))) db cache event_ids
    (if include_given then event_ids else ∅).

(** ** The auth chain *)

(** [except _NoChainCoverIndex], with [tests_allow_no_chain_cover_index] as it
    is outside tests; anything else is raised again. *)
Definition get_auth_chain_ids (db : database) (cache : gmap string (list (string * Z)))
    (room_id : string) (event_ids : gset string) (include_given : bool)
    : run (gset string * gmap string (list (string * Z))) :=
  has_index ← lift (of_option (db_rooms db !! room_id) TypeError);
  let walk := fueled (_get_auth_chain_ids_txn db cache event_ids include_given) in
  if bool_decide (has_index = Some true) then
    match _get_auth_chain_ids_using_cover_index_txn db room_id event_ids include_given with
    | Some (Raise (NoChainCoverIndex _)) => walk
    | Some (Raise e) => Some (Raise e)
    | Some (Ok r) => mret (r, cache)
    | None => None
    end
  else walk.
End walk.
