(* ===== verification/AuthChainProps.v ===== *)
(** The auth chain read from the chain cover index is the one a walk of the auth
    events finds. *)
From stdpp Require Import ssreflect.
From S2P Require Import Prelude IterUtils ChainLinks ChainLinksProps ChainLinksWalk ChainCover.
From S2P Require Import ChainCoverInv ChainCoverGather ChainCoverAlloc ChainCoverLink ChainCoverPersist AuthChain.

Lemma fold_opt_inv {A S} (I : list A → S → Prop) (f : S → A → option S) l s :
  I [] s →
  (∀ l1 x l2 s, l = l1 ++ x :: l2 → I l1 s → ∃ s', f s x = Some s' ∧ I (l1 ++ [x]) s') →
  ∃ s', fold_opt f l s = Some s' ∧ I l s'.
Proof.
  intros H0 Hstep.
  assert (∀ l2 l1 s, l = l1 ++ l2 → I l1 s → ∃ s', fold_opt f l2 s = Some s' ∧ I l s') as Hgo.
  { induction l2 as [|x l2 IH]; intros l1 s0 Hl Hi; simpl.
    - rewrite app_nil_r in Hl. subst. eauto.
    - destruct (Hstep _ _ _ _ Hl Hi) as (s' & -> & Hi'). simpl.
      apply (IH (l1 ++ [x])); [by rewrite -app_assoc|done]. }
  by apply (Hgo l []).
Qed.

(** ** Walking the links of the table *)
Section table.
Context (table : link_table).

Definition explored_in (mat : gmap Z Z) (c s : Z) : Prop :=
  ∀ q t ts, table_link table (c, q) (t, ts) → (q ≤ s)%Z → (ts ≤ level true mat t)%Z.

Lemma explored_in_mono mat mat' c s s' :
  explored_in mat c s → mat_le true mat mat' → (s' ≤ s)%Z → explored_in mat' c s'.
Proof. intros H Hle Hs q t ts Hl Hq. specialize (Hle t). simpl in Hle. apply H in Hl; lia. Qed.

Context (Hpos : positive (table_link table)).

Definition pos_mat (mat : gmap Z Z) : Prop := ∀ c m, mat !! c = Some m → (1 ≤ m)%Z.

(** One walk within a batch. *)
Lemma materialize_batch links c s mat :
  batch_of table links → c ∈ dom links → pos_mat mat →
  ∃ mat', _materialize c s links mat true = Some mat' ∧ pos_mat mat' ∧ mat_le true mat mat' ∧
    explored_in mat' c s ∧
    ∀ c', level true mat' c' = level true mat c' ∨ explored_in mat' c' (level true mat' c').
Proof.
  intros Hb Hc Hpm. destruct (materialize_spec true links c s mat) as (mat' & Hm & Hle & He & Hch).
  assert (∀ c' s', c' ∈ dom links → explored true links mat' c' s' → explored_in mat' c' s') as Hex.
  { intros c' s' Hd Hx q t ts Hl Hq. eapply Hx; [|done]. by apply (bo_links _ _ Hb). }
  pose proof (materialize_sound true links (λ _, True)
    (λ x, (1 ≤ x.2)%Z ∧ ((has_links table x.1 → x.1 ∈ dom links) ∨ mat !! x.1 = Some x.2))
    (λ _ _, I)) as Hs.
  specialize (λ H1 H2, Hs H1 c s mat mat' Hm I H2).
  assert (∀ c' m, mat' !! c' = Some m →
    (1 ≤ m)%Z ∧ ((has_links table c' → c' ∈ dom links) ∨ mat !! c' = Some m)) as Hs'.
  { apply Hs.
    - intros c1 s1 q t ts _ Hl _. split; [|left; exact (bo_closed _ _ Hb _ _ Hl)].
      apply (bo_links _ _ Hb) in Hl as [_ Hl]. exact (Hpos _ _ _ Hl).
    - intros c' m Hcm. split; [exact (Hpm _ _ Hcm)|by right]. }
  exists mat'. split_and!; [done|intros c' m Hcm; by destruct (Hs' _ _ Hcm)|done|by apply Hex|]. intros c'.
  destruct (decide (level true mat' c' = level true mat c')) as [|Hne]; [by left|]. right.
  destruct (Hch c') as [?|Hx]; [done|]. destruct (mat' !! c') as [m|] eqn:Em.
  - destruct (Hs' _ _ Em) as [_ [Hd|Ho]]; [|by exfalso; apply Hne; rewrite /level Em Ho].
    intros q t ts Hl Hq. eapply Hex; [apply Hd; by eexists _, _, _|exact Hx|exact Hl|done].
  - exfalso. apply Hne. specialize (Hle c'). unfold level in *. rewrite Em /= in Hle |- *.
    destruct (mat !! c') as [m|] eqn:Em'; [|done]. simpl in *. apply Hpm in Em'. lia.
Qed.

Record walked (ec : gmap Z Z) (mat0 mat : gmap Z Z) (done : Z → Prop) : Prop := {
  wk_pos : pos_mat mat;
  wk_le : mat_le true mat0 mat;
  wk_origin c s : done c → ec !! c = Some s → explored_in mat c s;
  wk_changed c : level true mat c = level true mat0 c ∨ explored_in mat c (level true mat c)
}.

Lemma materialize_all_ok ec batches mat0 :
  Forall (batch_of table) batches →
  (∀ c, c ∈ dom ec → has_links table c → Exists (λ links, c ∈ dom links) batches) →
  pos_mat mat0 →
  ∃ mat, materialize_all ec batches mat0 = Some mat ∧ walked ec mat0 mat (λ _, True).
Proof.
  intros Hb Hcov Hpm. unfold materialize_all.
  match goal with |- context [fold_opt ?f batches _] => destruct (fold_opt_inv
    (λ l mat, walked ec mat0 mat (λ c, Exists (λ links, c ∈ dom links) l)) f batches mat0)
    as (mat & -> & Hw) end.
  - split; [done|apply mat_le_refl|by intros c s ?%Exists_nil|by left].
  - intros l1 links l2 mat -> Hw. apply Forall_app in Hb as [_ [Hb _]%Forall_cons].
    match goal with |- context [fold_opt ?f (elements (dom links)) _] => destruct (fold_opt_inv
      (λ l mat, walked ec mat0 mat (λ c, Exists (λ links, c ∈ dom links) l1 ∨ c ∈ l))
      f (elements (dom links)) mat) as (mat' & -> & Hw') end.
    + destruct Hw as [W1 W2 W3 W4]. split; try done. intros c s [?|?%elem_of_nil]; [by apply W3|done].
    + intros k1 c k2 mat1 Hk [W1 W2 W3 W4].
      assert (c ∈ dom links) as Hc by (apply elem_of_elements; rewrite Hk; set_solver).
      destruct (ec !! c) as [s|] eqn:Ec.
      * destruct (materialize_batch links c s mat1 Hb Hc W1) as (mat2 & -> & M1 & M2 & M3 & M4).
        exists mat2. split; [done|]. split; [done|by eapply mat_le_trans| |].
        -- intros c' s' Hc' Hs'. destruct (decide (c' = c)) as [->|Hne].
           { rewrite Ec in Hs'. by injection Hs' as <-. }
           eapply explored_in_mono; [apply (W3 c' s'); [|done]|done|done].
           destruct Hc' as [?|[?|?%list_elem_of_singleton]%elem_of_app]; [by left|by right|done].
        -- intros c'. destruct (M4 c') as [Heq|?]; [|by right]. rewrite Heq.
           destruct (W4 c') as [?|Hx]; [by left|]. right. by eapply explored_in_mono.
      * exists mat1. split; [done|]. split; try done. intros c' s' Hc' Hs'.
        apply W3; [|done].
        destruct Hc' as [?|[?|?%list_elem_of_singleton]%elem_of_app]; [by left|by right|congruence].
    + exists mat'. split; [done|]. destruct Hw' as [W1 W2 W3 W4]. split; try done.
      intros c s [?|[?|?%Exists_nil]%Exists_cons]%Exists_app ?; try done.
      * apply W3; [by left|done].
      * apply W3; [right; by apply elem_of_elements|done].
  - exists mat. split; [done|]. destruct Hw as [W1 W2 W3 W4]. split; try done.
    intros c s _ Hs q t ts Hl Hq. eapply (W3 c s); [|done|exact Hl|done].
    apply Hcov; [by eapply elem_of_dom_2|by eexists _, _, _].
Qed.

(** What is materialised is closed under the links. *)
Lemma closed_reach mat y z :
  (∀ c, level true mat c = 0%Z ∨ explored_in mat c (level true mat c)) →
  reach (table_link table) y z → (1 ≤ y.2 ≤ level true mat y.1)%Z → (z.2 ≤ level true mat z.1)%Z.
Proof.
  intros Hcl. induction 1 as [c s s' Hs|c s s1 y z Hs Hl Hr IH]; intros [H1 Hy]; simpl in *; [lia|].
  apply IH. destruct y as [t ts]. split; [by eapply Hpos|]. simpl.
  destruct (Hcl c) as [H0|Hx]; [lia|]. eapply Hx; [exact Hl|]. lia.
Qed.

(** Soundness of the walks: only ends of links from what they start at. *)
Lemma materialize_all_sound (P Q : position → Prop) ec batches mat0 mat :
  (∀ x, Q x → P x) →
  (∀ c s q t ts, P (c, s) → table_link table (c, q) (t, ts) → (q ≤ s)%Z → Q (t, ts)) →
  Forall (batch_of table) batches →
  (∀ c s, ec !! c = Some s → P (c, s)) →
  (∀ c m, mat0 !! c = Some m → Q (c, m)) →
  materialize_all ec batches mat0 = Some mat → ∀ c m, mat !! c = Some m → Q (c, m).
Proof.
  intros HQP HP Hb Hec. unfold materialize_all. revert mat0.
  induction Hb as [|links batches Hb _ IH]; intros mat0 Hq Hm; simpl in Hm.
  { by injection Hm as <-. }
  apply bind_Some in Hm as (mat1 & Hm1 & Hm). eapply IH; [|exact Hm]. clear IH Hm.
  revert mat0 Hq Hm1. induction (elements (dom links)) as [|c l IH]; intros mat0 Hq Hm1; simpl in Hm1.
  { by injection Hm1 as <-. }
  apply bind_Some in Hm1 as (mat2 & Hm2 & Hm1). eapply IH; [|exact Hm1].
  destruct (ec !! c) as [s|] eqn:Ec; [|by injection Hm2 as <-].
  eapply (materialize_sound true links P Q HQP); [|exact Hm2|by apply Hec|done].
  intros c1 s1 q t ts Hp [_ Hl]%(bo_links _ _ Hb) Hc. by eapply HP.
Qed.
End table.

(** ** The highest position in each chain *)
Lemma elem_of_select_chains db ids e pos :
  (e, pos) ∈ select_chains db ids ↔ e ∈ ids ∧ db_chains db !! e = Some pos.
Proof.
  unfold select_chains. rewrite list_elem_of_bind. split.
  - intros (batch & Hin & Hb). apply list_elem_of_omap in Hin as (e' & He' & Hp).
    apply fmap_Some in Hp as (p & Hp & [= -> ->]). split; [|done].
    apply elem_of_elements. rewrite -(batch_iter_concat (elements ids) 1000); [|lia].
    apply list_elem_of_In, in_concat. exists batch.
    split; by apply list_elem_of_In.
  - intros [He Hp]. apply elem_of_elements in He.
    rewrite -(batch_iter_concat (elements ids) 1000) in He; [|lia].
    apply list_elem_of_In, in_concat in He as (batch & Hb & He).
    exists batch. split; [|by apply list_elem_of_In].
    apply list_elem_of_omap. exists e. split; [by apply list_elem_of_In|]. by rewrite Hp.
Qed.

(** [d] holds the highest sequence number of the positions [S] in each chain. *)
Record tops (S : position → Prop) (d : gmap Z Z) : Prop := {
  tp_in c m : d !! c = Some m → S (c, m);
  tp_le c s : S (c, s) → (s ≤ level true d c)%Z;
  tp_dom c s : S (c, s) → c ∈ dom d
}.

Lemma tops_raise (S : position → Prop) d c s :
  tops S d → (1 ≤ s)%Z → (∀ x, S x → (1 ≤ x.2)%Z) →
  tops (λ x, S x ∨ x = (c, s)) (raise_to c s d).
Proof.
  intros [H1 H2 H3] Hs Hpos. unfold raise_to. split.
  - intros c' m [[<- <-]|[_ ?]]%lookup_insert_Some; [|left; by apply H1].
    destruct (d !! c) as [m|] eqn:E; simpl; [|right; f_equal; lia].
    destruct (Z.max_spec s m) as [[_ ->]|[_ ->]]; [left; by apply H1|by right].
  - intros c' s' Hx. unfold level. destruct (decide (c = c')) as [<-|Hne].
    + rewrite lookup_insert_eq /=. destruct Hx as [Hx|[= ->]]; [|lia].
      apply H2 in Hx. unfold level in Hx. lia.
    + rewrite lookup_insert_ne //. destruct Hx as [Hx|[= -> ->]]; [|done]. by apply H2.
  - intros c' s' Hx. rewrite dom_insert_L. destruct Hx as [Hx|[= -> ->]]; [|set_solver].
    apply H3 in Hx. set_solver.
Qed.

Lemma tops_equiv (S S' : position → Prop) d : (∀ x, S x ↔ S' x) → tops S d → tops S' d.
Proof. intros Heq [H1 H2 H3]. split; intros; [by apply Heq, H1|by apply H2, Heq|by eapply H3, Heq]. Qed.

Lemma tops_fold {A} (l : list (A * position)) :
  (∀ a x, (a, x) ∈ l → (1 ≤ x.2)%Z) →
  tops (λ x, ∃ a, (a, x) ∈ l) (foldl (λ d '(_, (c, s)), raise_to c s d) ∅ l).
Proof.
  induction l as [|[a [c s]] l IH] using rev_ind; intros Hpos.
  - split; [intros *; by rewrite lookup_empty|set_solver|set_solver].
  - rewrite foldl_snoc. eapply tops_equiv; [|apply tops_raise; [apply IH| |]].
    + intros x. setoid_rewrite elem_of_app. setoid_rewrite list_elem_of_singleton. split.
      * intros [[b Hb]| ->]; eauto.
      * intros [b [Hb|[= -> ->]]]; [left; eauto|by right].
    + intros b x Hb. apply (Hpos b). set_solver.
    + apply (Hpos a (c, s)). set_solver.
    + intros x [b Hb]. apply (Hpos b). set_solver.
Qed.

(** ** The auth chain from the index *)
Section indexed.
Context (auth : string → list string) (skey : string → option string) (rank : string → nat).
Context (rank_lt : ∀ e a, a ∈ auth e → rank a < rank e).
Context (db : database) (Hix : index_ok auth skey db).
Abbreviation chains := (db_chains db).
Abbreviation T := (table_link (db_links db)).

Lemma cover_pos e c s : chains !! e = Some (c, s) → (1 ≤ s)%Z.
Proof. apply (cv_pos _ _ _ (ix_cover _ _ _ Hix)). Qed.

Lemma cover_positive : positive T.
Proof.
  apply (links_positive auth chains); [apply (ix_cover _ _ _ Hix)|apply (ix_cover _ _ _ Hix)].
Qed.

Lemma cover_order e f c s s' :
  chains !! e = Some (c, s) → chains !! f = Some (c, s') → (s' ≤ s)%Z → rtc (is_auth auth) e f.
Proof. apply (chain_order auth chains); apply (ix_cover _ _ _ Hix). Qed.

(** A link from at or below the position of an event leads into its auth chain. *)
Lemma link_auth e c s q t ts :
  chains !! e = Some (c, s) → T (c, q) (t, ts) → (q ≤ s)%Z →
  ∃ a, auth_chain auth e a ∧ chains !! a = Some (t, ts).
Proof.
  intros He Hl Hq. destruct (cv_sound _ _ _ (ix_cover _ _ _ Hix) _ _ Hl) as (_ & g & a & Hg & Ha & Hga).
  exists a. split; [|done]. eapply tc_rtc_l; [|by apply tc_once].
  by eapply cover_order.
Qed.

(** The events of the auth chains of [ids], in terms of what is materialised. *)
Section materialized.
Context (ids : gset string) (ec mat : gmap Z Z).
Context (Hids : ∀ e, e ∈ ids → e ∈ dom chains).
Context (Hec : tops (λ x, ∃ e, e ∈ ids ∧ chains !! e = Some x) ec).

Definition in_auth_chains (x : position) : Prop :=
  ∃ e a, e ∈ ids ∧ auth_chain auth e a ∧ chains !! a = Some x.

Context (Hsound : ∀ c m, mat !! c = Some m → in_auth_chains (c, m)).
Context (Horigin : ∀ c s, ec !! c = Some s → explored_in (db_links db) mat c s).
Context (Hclosed : ∀ c, level true mat c = 0%Z ∨ explored_in (db_links db) mat c (level true mat c)).

Lemma materialized_sound f c s m :
  chains !! f = Some (c, s) → mat !! c = Some m → (s ≤ m)%Z →
  ∃ e, e ∈ ids ∧ auth_chain auth e f.
Proof.
  intros Hf Hm Hle. destruct (Hsound _ _ Hm) as (e & a & He & Hea & Ha). exists e. split; [done|].
  eapply tc_rtc_r; [exact Hea|]. by eapply cover_order.
Qed.

Lemma materialized_complete e f t ts :
  e ∈ ids → auth_chain auth e f → chains !! f = Some (t, ts) →
  (ts ≤ level true mat t)%Z ∨ (ts < level true ec t)%Z.
Proof.
  intros He Hef Hf. pose proof (Hids e He) as [[c s] Hc]%elem_of_dom.
  assert (reach T (c, s) (t, ts)) as Hr.
  { eapply (cover_reach auth chains T (ix_cover _ _ _ Hix)); [exact Hc|exact Hf|by apply tc_rtc]. }
  assert (s ≤ level true ec c)%Z as Hs by (apply (tp_le _ _ Hec); eauto).
  assert (c ∈ dom ec) as [s' Hs']%elem_of_dom by (eapply (tp_dom _ _ Hec); eauto).
  unfold level at 1 in Hs. rewrite Hs' /= in Hs.
  inversion Hr as [c0 s0 s0' Hle|c0 s0 s1 [u us] z0 Hs1 Hl Hr']; subst.
  - right. assert (ts ≠ s).
    { intros ->. assert (e = f) as <- by (by eapply (cv_inj _ _ _ (ix_cover _ _ _ Hix))).
      apply (auth_chain_rank auth rank rank_lt) in Hef. lia. }
    unfold level. rewrite Hs' /=. lia.
  - left. apply (closed_reach (db_links db) cover_positive mat (u, us) (t, ts) Hclosed Hr').
    split; [by eapply cover_positive|]. simpl. eapply Horigin; [exact Hs'|exact Hl|]. lia.
Qed.
End materialized.

(** The chains of the given events, less the events themselves. *)
Lemma raise_given_lookup (ec mat : gmap Z Z) c :
  map_fold (λ c s chains, if (s =? 1)%Z then chains else raise_to c (s - 1) chains) mat ec !! c =
  match ec !! c with
  | Some s => if (s =? 1)%Z then mat !! c else Some (Z.max (s - 1) (default 0%Z (mat !! c)))
  | None => mat !! c
  end.
Proof.
  revert c. apply (map_fold_weak_ind (λ F (ec : gmap Z Z), ∀ c, F !! c = match ec !! c with
    | Some s => if (s =? 1)%Z then mat !! c else Some (Z.max (s - 1) (default 0%Z (mat !! c)))
    | None => mat !! c end)); [done|].
  intros c s ec' F Hc IH c'. destruct (decide (c = c')) as [<-|Hne].
  - rewrite lookup_insert_eq. specialize (IH c). rewrite Hc in IH.
    destruct (s =? 1)%Z; [done|]. unfold raise_to. by rewrite lookup_insert_eq IH.
  - rewrite lookup_insert_ne // -IH. destruct (s =? 1)%Z; [done|].
    unfold raise_to. by rewrite lookup_insert_ne.
Qed.

Lemma raise_given_range ec mat t ts :
  (1 ≤ ts)%Z → (∀ c s, ec !! c = Some s → (1 ≤ s)%Z) →
  in_range (map_fold (λ c s chains, if (s =? 1)%Z then chains else raise_to c (s - 1) chains) mat ec)
    (t, ts) = true ↔ (ts ≤ level true mat t)%Z ∨ (ts < level true ec t)%Z.
Proof.
  intros Hts Hec. unfold in_range, level. simpl. rewrite raise_given_lookup.
  destruct (ec !! t) as [s|] eqn:E; simpl; [pose proof (Hec _ _ E); destruct (Z.eqb_spec s 1)|].
  all: destruct (mat !! t) as [m|]; simpl; rewrite ?Z.leb_le; split; try done; lia.
Qed.

Lemma index_query_ok room_id ids include_given :
  (∀ e, e ∈ ids → e ∈ dom chains) →
  ∃ R, _get_auth_chain_ids_using_cover_index_txn db room_id ids include_given = Some (Ok R) ∧
    ∀ f, f ∈ R ↔ (include_given = true ∧ f ∈ ids) ∨ ∃ e, e ∈ ids ∧ auth_chain auth e f.
Proof.
  intros Hids. unfold _get_auth_chain_ids_using_cover_index_txn.
  set (rows := select_chains db ids).
  assert (∀ a x, (a, x) ∈ rows → (1 ≤ x.2)%Z) as Hrp.
  { intros a [c s] [_ Ha]%elem_of_select_chains. by eapply cover_pos. }
  set (ec := foldl (λ d '(_, (c, s)), raise_to c s d) ∅ rows).
  assert (tops (λ x, ∃ e, e ∈ ids ∧ chains !! e = Some x) ec) as Hec.
  { eapply tops_equiv; [|by apply tops_fold]. intros x. apply exist_proper. intros a.
    apply elem_of_select_chains. }
  rewrite bool_decide_eq_false_2; last first.
  { intros Hne. apply Hne, subseteq_empty_difference_L. intros e He.
    pose proof (Hids e He) as [x Hx]%elem_of_dom. apply elem_of_list_to_set, list_elem_of_fmap.
    exists (e, x). split; [done|]. by apply elem_of_select_chains. }
  cbn [raise_if lift mbind run_bind].
  destruct (get_chain_links_spec (db_links db) (dom ec)) as (batches & -> & Hb & Hcov).
  cbn [fueled fmap option_fmap option_map mbind run_bind].
  destruct (materialize_all_ok (db_links db) cover_positive ec batches ∅ Hb Hcov) as (mat & Hm & Hw).
  { intros c m. by rewrite lookup_empty. }
  rewrite Hm. cbn [fueled fmap option_fmap option_map mbind run_bind mret run_ret].
  eexists. split; [done|].
  assert (∀ c m, mat !! c = Some m → in_auth_chains ids (c, m)) as Hsound.
  { eapply (materialize_all_sound (db_links db)
      (λ x, ∃ e a, e ∈ ids ∧ rtc (is_auth auth) e a ∧ chains !! a = Some x)); [| |exact Hb| | |exact Hm].
    - intros x (e & a & ? & ? & ?). exists e, a. split_and!; [done|by apply tc_rtc|done].
    - intros c s q t ts (e & a & He & Hea & Ha) Hl Hq.
      destruct (link_auth a c s q t ts Ha Hl Hq) as (g & Hag & Hg). exists e, g.
      split_and!; [done|by eapply tc_rtc_l|done].
    - intros c s Hc. destruct (tp_in _ _ Hec c s Hc) as (e & He & Hce). exists e, e. done.
    - intros c m. by rewrite lookup_empty. }
  assert (∀ c s, ec !! c = Some s → (1 ≤ s)%Z) as Hecp.
  { intros c s Hc. destruct (tp_in _ _ Hec c s Hc) as (e & _ & Hce). by eapply cover_pos. }
  assert (∀ c, level true mat c = 0%Z ∨ explored_in (db_links db) mat c (level true mat c)) as Hcl.
  { intros c. apply (wk_changed _ _ _ _ _ Hw). }
  intros f. rewrite elem_of_union. rewrite (_ : f ∈ (if include_given then ids else ∅) ↔
    include_given = true ∧ f ∈ ids); [|destruct include_given; set_solver].
  apply or_iff_compat_l. unfold below. rewrite elem_of_dom. split.
  - intros [[c s] [Hf Hr]%map_lookup_filter_Some]. simpl in Hr.
    apply raise_given_range in Hr as [Hle|Hlt]; [| |by eapply cover_pos|done].
    + unfold level in Hle. destruct (mat !! c) as [m|] eqn:Em; simpl in Hle;
        [by eapply materialized_sound|]. apply cover_pos in Hf. lia.
    + unfold level in Hlt. destruct (ec !! c) as [m|] eqn:Em; simpl in Hlt;
        [|apply cover_pos in Hf; lia].
      destruct (tp_in _ _ Hec c m Em) as (e & He & Hce). exists e. split; [done|].
      assert (rtc (is_auth auth) e f) as [?|Htc]%rtc_tc by (eapply cover_order; [done|done|lia]);
        [subst; rewrite Hf in Hce; injection Hce as ->; lia|exact Htc].
  - intros (e & He & Hef).
    assert (is_Some (chains !! f)) as [[t ts] Hf].
    { eapply (cover_closed auth chains T (ix_cover _ _ _ Hix) e); [|by apply tc_rtc].
      by apply elem_of_dom, Hids. }
    exists (t, ts). apply map_lookup_filter_Some. split; [done|]. simpl.
    apply raise_given_range; [by eapply cover_pos|done|].
    eapply (materialized_complete ids ec mat); try done. intros c s Hs. by eapply (wk_origin _ _ _ _ _ Hw).
Qed.

Lemma index_query_missing room_id ids include_given e :
  e ∈ ids → e ∉ dom chains →
  _get_auth_chain_ids_using_cover_index_txn db room_id ids include_given =
  Some (Raise (NoChainCoverIndex room_id)).
Proof.
  intros He Hn. unfold _get_auth_chain_ids_using_cover_index_txn.
  rewrite bool_decide_eq_true_2; [done|]. intros Heq. apply (not_elem_of_empty (C:=gset string) e).
  rewrite -Heq. apply elem_of_difference. split; [done|].
  intros ([e' x] & -> & [_ Hx]%elem_of_select_chains)%elem_of_list_to_set%list_elem_of_fmap.
  apply Hn. by eapply elem_of_dom_2.
Qed.
End indexed.
