(* ===== verification/AuthChainWalk.v ===== *)
(** The walk of the auth events finds the auth chain, and agrees with the
    index. *)
From stdpp Require Import ssreflect.
From S2P Require Import Prelude IterUtils ChainLinks ChainLinksProps ChainLinksWalk ChainCover.
From S2P Require Import ChainCoverInv ChainCoverGather ChainCoverPersist AuthChain AuthChainProps.

(** An auth event that is stored. *)
Definition stored_edge (db : database) (e a : string) : Prop :=
  a ∈ select_auth db e ∧ a ∈ dom (db_events db).

Lemma elem_of_auth_depths db e a : a ∈ (auth_depths db e).*1 ↔ stored_edge db e a.
Proof.
  unfold auth_depths, stored_edge. rewrite list_elem_of_fmap. split.
  - intros ([a' d] & -> & Hin). apply list_elem_of_omap in Hin as (x & Hx & Hr).
    apply fmap_Some in Hr as (row & Hrow & [= -> ->]). split; [done|by eapply elem_of_dom_2].
  - intros [Ha [row Hr]%elem_of_dom]. exists (a, er_depth row). split; [done|].
    apply list_elem_of_omap. exists a. by rewrite Hr.
Qed.

Section walk.
Context (evict : gmap string (list (string * Z)) → gmap string (list (string * Z))).
(** A write may drop entries of the cache. *)
Context (evict_sub : ∀ cache, evict cache ⊆ cache).
Context (db : database).

(** The cache holds what the database has. *)
Definition cache_ok (cache : gmap string (list (string * Z))) : Prop :=
  ∀ e rows, cache !! e = Some rows → rows = auth_depths db e.

Lemma cache_rows_ok l cache : cache_ok cache → cache_ok (cache_rows evict db l cache).
Proof.
  unfold cache_rows. revert cache. induction l as [|e l IH]; intros cache Hc; simpl; [done|].
  apply IH. destruct (auth_depths db e) as [|r rows] eqn:E; [done|].
  intros e' rows' Hr. eapply lookup_weaken in Hr; [|apply evict_sub].
  apply lookup_insert_Some in Hr as [[<- <-]|[_ ?]]; [done|by apply Hc].
Qed.

Lemma fetch_chunk_ok cache front chunk cache' front' :
  cache_ok cache → fetch_chunk evict db (cache, front) chunk = (cache', front') →
  cache_ok cache' ∧
  ∀ a, a ∈ front' ↔ a ∈ front ∨ ∃ e, e ∈ chunk ∧ stored_edge db e a.
Proof.
  intros Hc [= <- <-]. split; [by apply cache_rows_ok|]. intros a.
  rewrite elem_of_union elem_of_list_to_set fmap_app elem_of_app.
  assert (a ∈ (mjoin (omap (cache !!.) chunk)).*1 ∨
      a ∈ ((filter (λ e, cache !! e = None) chunk) ≫= auth_depths db).*1 ↔
    ∃ e, e ∈ chunk ∧ stored_edge db e a) as ->; [|tauto].
  setoid_rewrite <- elem_of_auth_depths. rewrite !list_elem_of_fmap. split.
  - intros [(y & -> & Hy)|(y & -> & Hy)].
    + apply list_elem_of_join in Hy as (rows & Hy & (e & He & Hr)%list_elem_of_omap).
      exists e. split; [done|]. rewrite -(Hc _ _ Hr). apply list_elem_of_fmap. eauto.
    + apply list_elem_of_bind in Hy as (e & Hy & [_ He]%list_elem_of_filter).
      exists e. split; [done|]. apply list_elem_of_fmap. eauto.
  - intros (e & He & (y & -> & Hy)%list_elem_of_fmap). destruct (cache !! e) as [rows|] eqn:E.
    + left. exists y. split; [done|]. apply list_elem_of_join. exists rows.
      split; [by rewrite (Hc _ _ E)|]. apply list_elem_of_omap. eauto.
    + right. exists y. split; [done|]. apply list_elem_of_bind. exists e. split; [done|].
      by apply list_elem_of_filter.
Qed.

Lemma fetch_chunks_ok chunks cache front cache' front' :
  cache_ok cache → foldl (fetch_chunk evict db) (cache, front) chunks = (cache', front') →
  cache_ok cache' ∧
  ∀ a, a ∈ front' ↔ a ∈ front ∨ ∃ e, e ∈ concat chunks ∧ stored_edge db e a.
Proof.
  revert cache front. induction chunks as [|chunk chunks IH]; intros cache front Hc H; cbn [foldl] in H.
  - injection H as <- <-. split; [done|]. intros a. simpl. set_solver.
  - destruct (fetch_chunk evict db (cache, front) chunk) as [c1 f1] eqn:E.
    destruct (fetch_chunk_ok _ _ _ _ _ Hc E) as [Hc1 Hf1].
    destruct (IH _ _ Hc1 H) as [Hc' Hf']. split; [done|]. intros a. rewrite Hf' Hf1. simpl.
    setoid_rewrite elem_of_app. naive_solver.
Qed.

Section loop.
Context (ids : gset string) (include_given : bool).

Definition wanted (f : string) : Prop :=
  (include_given = true ∧ f ∈ ids) ∨ ∃ e, e ∈ ids ∧ tc (stored_edge db) e f.

Record walk_inv (front results : gset string) : Prop := {
  wi_sound f : f ∈ results → wanted f;
  wi_front f : f ∈ front → f ∈ ids ∨ f ∈ results;
  wi_closed e a : e ∈ ids ∨ e ∈ results → stored_edge db e a → a ∈ results ∨ e ∈ front
}.

Lemma walk_inv_turn front results new :
  walk_inv front results → (∀ a, a ∈ new ↔ ∃ e, e ∈ front ∧ stored_edge db e a) →
  walk_inv (new ∖ results) (results ∪ new ∖ results).
Proof.
  intros [H1 H2 H3] Hnew. split.
  - intros f [?|[(e & He & Hef)%Hnew _]%elem_of_difference]%elem_of_union; [by apply H1|].
    right. destruct (H2 e He) as [Hi|Hr]; [exists e; split; [done|by apply tc_once]|].
    destruct (H1 e Hr) as [[_ ?]|(g & ? & ?)]; [exists e; split; [done|by apply tc_once]|].
    exists g. split; [done|]. by eapply tc_r.
  - intros f Hf. right. set_solver.
  - intros e a He Hea. destruct (decide (a ∈ results)) as [|Hn]; [left; set_solver|].
    assert (e ∈ ids ∨ e ∈ results → a ∈ results ∪ new ∖ results) as Hin.
    { intros Hc. destruct (H3 e a Hc Hea) as [?|?]; [done|].
      apply elem_of_union_r, elem_of_difference. split; [|done]. apply Hnew. eauto. }
    destruct He as [?|[?|?]%elem_of_union]; [left; by apply Hin; left|left; by apply Hin; right|by right].
Qed.

Lemma auth_chain_loop_ok fuel cache front results :
  cache_ok cache → walk_inv front results →
  size (dom (db_events db) ∖ results) < fuel →
  ∃ R cache', auth_chain_loop evict fuel db cache front results = Some (R, cache') ∧
    cache_ok cache' ∧ walk_inv ∅ R.
Proof.
  revert cache front results. induction fuel as [|fuel IH]; intros cache front results Hc Hi Hf; [lia|].
  cbn [auth_chain_loop]. case_decide as He; [subst; by exists results, cache|].
  destruct (foldl _ _ _) as [cache' new] eqn:E.
  apply fetch_chunks_ok in E as [Hc' Hnew]; [|done].
  rewrite batch_iter_concat in Hnew; [|lia].
  assert (∀ a, a ∈ new ↔ ∃ e, e ∈ front ∧ stored_edge db e a) as Hnew'.
  { intros a. rewrite Hnew. setoid_rewrite elem_of_elements. set_solver. }
  pose proof (walk_inv_turn _ _ _ Hi Hnew') as Hi'.
  destruct (decide (new ∖ results = ∅)) as [Hn|Hn].
  - rewrite Hn in Hi' |- *. exists (results ∪ ∅), cache'. destruct fuel; done.
  - apply IH; [done|done|].
    destruct (set_choose_L _ Hn) as [a Ha].
    assert (size (dom (db_events db) ∖ (results ∪ new ∖ results)) <
      size (dom (db_events db) ∖ results)); [|lia].
    apply subset_size. assert (a ∈ dom (db_events db)).
    { apply elem_of_difference in Ha as [(e & _ & _ & ?)%Hnew' _]. done. }
    set_solver.
Qed.

Lemma walk_done R : (include_given = true → ∀ e, e ∈ ids → e ∈ R) → walk_inv ∅ R →
  ∀ f, f ∈ R ↔ wanted f.
Proof.
  intros Hg [H1 _ H3] f. split; [apply H1|]. intros [[? ?]|(e & He & Hef)]; [by apply Hg|].
  assert (∀ e, e ∈ ids ∨ e ∈ R → tc (stored_edge db) e f → f ∈ R) as Hgo; [|by eapply Hgo; [left|]].
  clear e He Hef. intros e He Hef. revert He.
  induction Hef as [e f Hef|e g f Heg _ IH]; intros He.
  - destruct (H3 e f He Hef) as [?|?]; [done|set_solver].
  - apply IH. right. destruct (H3 e g He Heg) as [?|?]; [done|set_solver].
Qed.

Lemma results_grow fuel cache front results R cache' :
  auth_chain_loop evict fuel db cache front results = Some (R, cache') → results ⊆ R.
Proof.
  revert cache front results. induction fuel as [|fuel IH]; intros cache front results;
    cbn [auth_chain_loop]; case_decide; try done.
  1, 2: by intros [= -> _].
  destruct (foldl _ _ _) as [c1 n1]. intros H'%IH. set_solver.
Qed.

(** The walk ends with the given events, if asked for, and the stored auth chain. *)
Lemma walk_query_ok cache :
  cache_ok cache →
  ∃ R cache', _get_auth_chain_ids_txn evict db cache ids include_given = Some (R, cache') ∧
    cache_ok cache' ∧ ∀ f, f ∈ R ↔ wanted f.
Proof.
  intros Hc. unfold _get_auth_chain_ids_txn.
  destruct (auth_chain_loop_ok (S (size (db_events db))) cache ids (if include_given then ids else ∅))
    as (R & cache' & Hr & Hc' & Hw); [done| | |].
  - split.
    + intros f Hf. left. destruct include_given; [done|set_solver].
    + by left.
    + intros e a [He|He] _; right; [done|]. destruct include_given; [done|set_solver].
  - rewrite -(size_dom (db_events db)).
    assert (size (dom (db_events db) ∖ (if include_given then ids else ∅)) ≤ size (dom (db_events db))).
    { apply subseteq_size. set_solver. }
    lia.
  - exists R, cache'. split_and!; [done|done|]. apply walk_done; [|done]. intros Hg.
    apply results_grow in Hr. rewrite Hg in Hr. done.
Qed.
End loop.
End walk.

(** ** The two ways agree *)
Section agree.
Context (auth : string → list string) (skey : string → option string) (rank : string → nat).
Context (rank_lt : ∀ e a, a ∈ auth e → rank a < rank e).
Context (db : database) (Hix : index_ok auth skey db).

Lemma stored_edge_indexed e a :
  e ∈ dom (db_chains db) → stored_edge db e a ↔ is_auth auth e a.
Proof.
  intros He. pose proof (tb_indexed _ _ (ix_tables _ _ _ Hix) e He) as Hs.
  unfold stored_edge, is_auth. rewrite (tb_auth _ _ (ix_tables _ _ _ Hix) e Hs).
  split; [by intros [? _]|]. intros Ha. split; [done|].
  pose proof He as [x Hx]%elem_of_dom.
  destruct (cv_complete _ _ _ (ix_cover _ _ _ Hix) e a x Hx Ha) as (y & Hy & _).
  apply elem_of_dom_2, (tb_indexed _ _ (ix_tables _ _ _ Hix)) in Hy as (row & sk & Hr & _).
  by eapply elem_of_dom_2.
Qed.

Lemma indexed_auth e a : e ∈ dom (db_chains db) → a ∈ auth e → a ∈ dom (db_chains db).
Proof.
  intros [x Hx]%elem_of_dom Ha.
  destruct (cv_complete _ _ _ (ix_cover _ _ _ Hix) e a x Hx Ha) as (y & Hy & _).
  by eapply elem_of_dom_2.
Qed.

(** The auth chain of an indexed event is stored. *)
Lemma stored_chain_indexed e f :
  e ∈ dom (db_chains db) → tc (stored_edge db) e f ↔ auth_chain auth e f.
Proof.
  intros He. split.
  - intros Hef. revert He. induction Hef as [e f H|e g f H _ IH]; intros He;
      apply stored_edge_indexed in H; try done; [by apply tc_once|].
    eapply tc_l; [exact H|]. apply IH. by eapply indexed_auth.
  - intros Hef. revert He. induction Hef as [e f H|e g f H _ IH]; intros He.
    + by apply tc_once, stored_edge_indexed.
    + eapply tc_l; [by apply stored_edge_indexed|]. apply IH. by eapply indexed_auth.
Qed.

Lemma get_auth_chain_ids_ok evict cache room_id has_index ids include_given :
  (∀ cache, evict cache ⊆ cache) → cache_ok db cache →
  db_rooms db !! room_id = Some has_index →
  ∃ R cache', get_auth_chain_ids evict db cache room_id ids include_given = Some (Ok (R, cache')) ∧
    cache_ok db cache' ∧
    ∀ f, f ∈ R ↔ (include_given = true ∧ f ∈ ids) ∨ ∃ e, e ∈ ids ∧ tc (stored_edge db) e f.
Proof.
  intros Hev Hc Hroom. unfold get_auth_chain_ids. rewrite Hroom. cbn [of_option lift mbind run_bind].
  destruct (walk_query_ok evict Hev db ids include_given cache Hc) as (R & cache' & Hw & Hc' & HR).
  rewrite Hw. case_bool_decide; [|by exists R, cache'].
  destruct (decide (ids ⊆ dom (db_chains db))) as [Hs|Hs].
  - destruct (index_query_ok auth skey rank rank_lt db Hix room_id ids include_given Hs) as (R' & -> & HR').
    exists R', cache. split_and!; [done|done|]. intros f. rewrite HR'. apply or_iff_compat_l.
    apply exist_proper. intros e. split; intros [He ?]; (split; [done|]);
      (apply stored_chain_indexed; [by apply Hs|done]).
  - destruct (set_choose_L (ids ∖ dom (db_chains db))) as [e He];
      [by intros ?%empty_difference_subseteq_L|]. apply elem_of_difference in He as [He Hn].
    rewrite (index_query_missing db room_id ids include_given e He Hn). by exists R, cache'.
Qed.
End agree.

(** ** Databases the server reaches *)
Inductive history (auth : string → list string) (skey : string → option string) : database → Prop :=
  | hist_start rooms : history auth skey (mkDatabase rooms ∅ [] ∅ [] ∅ 0)
  | hist_rooms db rooms :
      history auth skey db →
      history auth skey (mkDatabase rooms (db_events db) (db_event_auth db) (db_chains db)
        (db_links db) (db_to_calculate db) (db_chain_seq db))
  | hist_persist db room_id evs db' :
      history auth skey db → Forall (consistent auth skey) evs →
      persist_events db room_id evs = Some (Ok db') → history auth skey db'.

Lemma history_index auth skey rank db :
  (∀ e a, a ∈ auth e → rank a < rank e) → (∀ e, NoDup (auth e)) →
  history auth skey db → index_ok auth skey db.
Proof.
  intros Hr Hnd. induction 1 as [rooms|db rooms _ IH|db room_id evs db' _ IH Hc Hp].
  - assert (∀ e, ¬ stored (mkDatabase rooms ∅ [] ∅ [] ∅ 0) e) as Hns.
    { intros e (row & sk & Hr' & _). by rewrite lookup_empty in Hr'. }
    split; [split|..].
    + by intros e ?%Hns.
    + done.
    + intros e []%elem_of_empty.
    + intros e []%elem_of_empty.
    + intros *. by rewrite lookup_empty.
    + split; try (by intros *; rewrite lookup_empty).
      * intros x y []%elem_of_nil.
      * intros x t s1 s2 []%elem_of_nil.
    + intros *. by rewrite lookup_empty.
  - destruct IH as [[H1 H2 H3 H4] H5 H6 H7]. split; [split|..]; done.
  - destruct (persist_events_ok auth skey rank Hr Hnd db room_id evs IH Hc) as (db'' & Hp' & Hix & _).
    rewrite Hp in Hp'. by injection Hp' as <-.
Qed.

(** C5: persisting any chunk of events raises nothing and keeps the index of the
    auth DAG exact.  In every database reached by persisting events (each event
    ID standing for one event, auth events older than the event and named once),
    a further chunk is persisted; afterwards two indexed events have different
    positions, and the stored links lead from the position of one to that of the
    other exactly when the other is the event itself or in its auth chain; the
    events that were indexed still are; and in a room with an index a state event
    of the chunk is indexed unless an event of its auth chain is not stored. *)
Theorem chain_cover_correct (auth : string → list string) (skey : string → option string)
    (rank : string → nat) (db : database) (room_id : string) (evs : list new_event) :
  (∀ e a, a ∈ auth e → rank a < rank e) → (∀ e, NoDup (auth e)) →
  history auth skey db → Forall (consistent auth skey) evs →
  ∃ db', persist_events db room_id evs = Some (Ok db') ∧
    (∀ e f x y, db_chains db' !! e = Some x → db_chains db' !! f = Some y →
       (x = y → e = f) ∧
       (reach (table_link (db_links db')) x y ↔ e = f ∨ auth_chain auth e f)) ∧
    (∀ e, e ∈ dom (db_chains db) → e ∈ dom (db_chains db')) ∧
    (db_rooms db !! room_id = Some (Some true) → ∀ ev, ev ∈ evs → is_state ev = true →
       ne_event_id ev ∈ dom (db_chains db') ∨
       ∃ a, auth_chain auth (ne_event_id ev) a ∧ ¬ stored db' a).
Proof.
  intros Hr Hnd Hh Hc. pose proof (history_index auth skey rank db Hr Hnd Hh) as Hix.
  destruct (persist_events_ok auth skey rank Hr Hnd db room_id evs Hix Hc)
    as (db' & Hp & Hix' & _ & _ & Hkeep & Hnew).
  exists db'. split_and!; [done| |done|done]. intros e f x y He Hf. split.
  - intros <-. by eapply (cv_inj _ _ _ (ix_cover _ _ _ Hix')).
  - rewrite (cover_reach auth _ _ (ix_cover _ _ _ Hix') e f x y He Hf). apply rtc_tc.
Qed.

(** C8: the auth chain that the server reads is the auth chain.  In every database
    reached by persisting events [get_auth_chain_ids] returns, with the chain
    cover index, without it, or after falling back from it, exactly the events
    reachable from the given ones over stored auth events, with the given events
    themselves when asked for; a cache of auth events that agrees with the
    database is left so. *)
Theorem get_auth_chain_ids_correct (auth : string → list string) (skey : string → option string)
    (rank : string → nat) evict db cache room_id has_index ids include_given :
  (∀ e a, a ∈ auth e → rank a < rank e) → (∀ e, NoDup (auth e)) →
  history auth skey db → (∀ cache, evict cache ⊆ cache) → cache_ok db cache →
  db_rooms db !! room_id = Some has_index →
  ∃ R cache', get_auth_chain_ids evict db cache room_id ids include_given = Some (Ok (R, cache')) ∧
    cache_ok db cache' ∧
    ∀ f, f ∈ R ↔ (include_given = true ∧ f ∈ ids) ∨ ∃ e, e ∈ ids ∧ tc (stored_edge db) e f.
Proof.
  intros Hr Hnd Hh Hev Hc Hroom. pose proof (history_index auth skey rank db Hr Hnd Hh) as Hix.
  by apply (get_auth_chain_ids_ok auth skey rank Hr db Hix evict cache room_id has_index).
Qed.
