(* ===== verification/AuthDiff.v ===== *)
(** The auth chain difference of state sets, and the conflicted subgraph
    ([storage/databases/main/event_federation.py]).

    A state set that the code mutates is threaded through.  A set is iterated,
    and popped from, in the order of its [elements]. *)
From S2P Require Import Prelude IterUtils ChainLinks ChainCover AuthChain.

(** [StateDifference] *)
Record StateDifference := mkStateDifference {
  auth_difference : gset string;
  conflicted_subgraph : option (gset string)
}.

(** [l[0].union( *l[1:])] and [l[0].intersection( *l[1:])] *)
Definition union_all (l : list (gset string)) : result (gset string) :=
  match l with [] => Raise IndexError | s :: rest => Ok (foldl (∪) s rest) end.

Definition intersection_all (l : list (gset string)) : result (gset string) :=
  match l with [] => Raise IndexError | s :: rest => Ok (foldl (∩) s rest) end.

(** ** Events without an index: [_fixup_auth_chain_difference_sets] *)

(** The auth events of the events of the room that wait for their auth chain. *)
Definition waiting_auth (db : database) (room_id : string) : gmap string (gset string) :=
  map_imap (λ e '(r, _, _),
    if decide (r = room_id) then Some (list_to_set (select_auth db e)) else None)
    (db_to_calculate db).

(** The [while processing] loop. *)
Fixpoint partial_chain (fuel : nat) (event_to_auth_ids : gmap string (gset string))
    (processing to_add : gset string) : option (gset string) :=
  match elements processing with
  | [] => Some to_add
  | auth_id :: _ =>
      match fuel with
      | 0 => None
      | S fuel =>
          let to_add := {[auth_id]} ∪ to_add in
          let processing := processing ∖ {[auth_id]} in
          partial_chain fuel event_to_auth_ids
            (match event_to_auth_ids !! auth_id with
             | None => processing
             | Some sub => (sub ∖ to_add) ∪ processing
             end) to_add
      end
  end.

(** One event without an index in a state set: the state set, and the events
    without an index. *)
Definition replace_event (has_index : gset string) (acc : gset string * gset string)
    (x : string * gset string) : gset string * gset string :=
  let '(state_set, unindexed) := acc in
  let '(event_id, auth_chain) := x in
  if decide (event_id ∈ state_set) then
    (filter (λ a, a ∈ has_index) auth_chain ∪ (state_set ∖ {[event_id]} ∖ auth_chain),
     filter (λ a, a ∉ has_index) auth_chain ∪ ({[event_id]} ∪ unindexed))
  else acc.

Definition _fixup_auth_chain_difference_sets (db : database) (room_id : string)
    (state_sets : list (gset string)) (events_missing_chain_info : gset string)
    (events_that_have_chain_index : gset string) : run (gset string * list (gset string)) :=
  let event_to_auth_ids := waiting_auth db room_id in
  let auth_ids : gset string := ⋃ (map_to_list event_to_auth_ids).*2 in
  let has_index := filter (λ a, a ∈ dom (db_chains db)) auth_ids ∪ events_that_have_chain_index in
  _ ← lift (raise_if (bool_decide (events_missing_chain_info ∖ dom event_to_auth_ids ≠ ∅))
              (NoChainCoverIndex room_id));
  partial ← fueled (fold_opt (λ acc '(event_id, auth),
    if decide (Exists (λ s : gset string, event_id ∈ s) state_sets) then
      to_add ← partial_chain (size auth_ids) event_to_auth_ids auth ∅;
      Some (acc ++ [(event_id, to_add)])
    else Some acc) (map_to_list event_to_auth_ids) []);
  let replaced := (λ s, foldl (replace_event has_index) (s, ∅) partial) <$> state_sets in
  union ← lift (union_all replaced.*2);
  intersection ← lift (intersection_all replaced.*2);
  mret (union ∖ intersection, replaced.*1).

(** ** With the index *)

(** [chain_info], [seen_chains] and [chain_to_event]. *)
Record chain_data := mkChainData {
  chain_info : gmap string position;
  seen_chains : gset Z;
  chain_to_event : gmap Z (gmap Z string)
}.

Definition fetch_chain_info (db : database) (cd : chain_data) (ids : gset string) : chain_data :=
  foldl (λ cd '(e, (c, s)),
    mkChainData (<[e := (c, s)]> (chain_info cd)) ({[c]} ∪ seen_chains cd)
      (<[c := <[s := e]> (default ∅ (chain_to_event cd !! c))]> (chain_to_event cd)))
    cd (select_chains db ids).

(** [chain_info[event_id]] for the events of a set. *)
Definition positions_of (cd : chain_data) (ids : gset string) : result (list (string * position)) :=
  fold_res (λ acc e, pos ← of_option (chain_info cd !! e) KeyError; Ok (acc ++ [(e, pos)]))
    (elements ids) [].

(** The chains and sequence numbers of a state set. *)
Definition set_chains (cd : chain_data) (state_set : gset string) : result (gmap Z Z) :=
  positions ← positions_of cd state_set;
  Ok (foldl (λ d '(_, (c, s)), raise_to c s d) ∅ positions).

Definition map_res {A B} (f : A → result B) (l : list A) : result (list B) :=
  fold_res (λ acc x, y ← f x; Ok (acc ++ [y])) l [].

(** One batch of links for one state set. *)
Definition walk_set (links : chain_links) (chains : gmap Z Z) : option (gmap Z Z) :=
  fold_opt (λ chains c,
    match chains !! c with
    | None => Some chains
    | Some s => _materialize c s links chains true
    end) (elements (dom links)) chains.

(** The walk back from the given positions, marking them too. *)
Definition walk_back (links : chain_links) (positions : list (string * position))
    (reachable : gmap Z Z) : option (gmap Z Z) :=
  fold_opt (λ reachable '(_, (c, s)),
    if decide (c ∈ dom links) then _materialize c s links (raise_to c s reachable) true
    else Some reachable) positions reachable.

(** [for seq_no in range(lo, hi)]: the events that are known, and whether one
    was not. *)
Fixpoint fill_gap (events : gmap Z string) (seqs : list Z) (acc : gset string)
    : gset string * bool :=
  match seqs with
  | [] => (acc, false)
  | s :: seqs =>
      match events !! s with
      | Some e => if str_nonempty e then fill_gap events seqs ({[e]} ∪ acc) else (acc, true)
      | None => (acc, true)
      end
  end.

Definition events_of (cd : chain_data) (c : Z) : gmap Z string :=
  default ∅ (chain_to_event cd !! c).

(** Take the events of the range [(lo, hi]] of a chain, or leave a gap. *)
Definition take_range (cd : chain_data) (acc : gset string * gmap Z position) (c lo hi : Z)
    : gset string * gmap Z position :=
  let '(result, gaps) := acc in
  let '(result, gap) := fill_gap (events_of cd c) (seqZ (lo + 1) (hi - lo)) result in
  (result, if gap : bool then <[c := (lo, hi)]> gaps else gaps).

(** [min] and [max] over the state sets. *)
Definition min_level (set_to_chain : list (gmap Z Z)) (c : Z) : Z :=
  match (λ chains : gmap Z Z, default 0%Z (chains !! c)) <$> set_to_chain with
  | [] => 0
  | x :: l => foldl Z.min x l
  end.

Definition max_level (set_to_chain : list (gmap Z Z)) (c : Z) : Z :=
  match (λ chains : gmap Z Z, default 0%Z (chains !! c)) <$> set_to_chain with
  | [] => 0
  | x :: l => foldl Z.max x l
  end.

Definition auth_ranges (cd : chain_data) (seen : gset Z) (set_to_chain : list (gmap Z Z))
    (result : gset string) : gset string * gmap Z position :=
  foldl (λ acc c,
    let min_seq_no := min_level set_to_chain c in
    let max_seq_no := max_level set_to_chain c in
    if (min_seq_no <? max_seq_no)%Z then take_range cd acc c min_seq_no max_seq_no else acc)
    (result, ∅) (elements seen).

(** The overlap of what is reachable backwards and forwards, chain by chain. *)
Definition subgraph_ranges (cd : chain_data) (backwards forwards : gmap Z Z)
    : gset string * gmap Z position :=
  foldl (λ acc '(c, b),
    match forwards !! c with
    | None => acc
    | Some f => if (b <? f)%Z then acc else take_range cd acc c (f - 1) b
    end) (∅, ∅) (map_to_list backwards).

(** [_fetch_event_ids_from_chains_txn] *)
Definition _fetch_event_ids_from_chains_txn (db : database) (gaps : gmap Z position)
    : gset string :=
  dom (filter (λ kv : string * position,
    match gaps !! kv.2.1 with
    | Some (lo, hi) => (lo <? kv.2.2)%Z && (kv.2.2 <=? hi)%Z
    | None => false
    end = true) (db_chains db)).

(** The state of the loop over the batches of links. *)
Record diff_state := mkDiffState {
  ds_sets : list (gmap Z Z);
  ds_seen : gset Z;
  ds_backwards : gmap Z Z;
  ds_forwards : gmap Z Z
}.

Fixpoint map_opt {A B} (f : A → option B) (l : list A) : option (list B) :=
  match l with
  | [] => Some []
  | x :: l' => y ← f x; ys ← map_opt f l'; Some (y :: ys)
  end.

(** One batch; [conflicted] are the positions of the conflicted events, for
    state resolution v2.1. *)
Definition diff_batch (conflicted : option (list (string * position)))
    (additional : list (string * position)) (st : diff_state) (links : chain_links)
    : option diff_state :=
  sets ← map_opt (walk_set links) (ds_sets st);
  let seen := foldl (λ seen (chains : gmap Z Z), dom chains ∪ seen) (ds_seen st) sets in
  match conflicted with
  | None => Some (mkDiffState sets seen (ds_backwards st) (ds_forwards st))
  | Some conflicted =>
      forwards ← accumulate_forwards_reachable_events (ds_forwards st) links
                   (list_to_map conflicted);
      backwards ← walk_back links conflicted (ds_backwards st);
      backwards ← walk_back links additional backwards;
      Some (mkDiffState sets seen backwards forwards)
  end.

(** Replace the events that have no chain position, and read the positions of
    the events that come in for them. *)
Definition fixup_missing_chain_info (db : database) (room_id : string)
    (state_sets : list (gset string)) (initial_events : gset string) (cd : chain_data)
    : run (gset string * list (gset string) * chain_data) :=
  let events_missing_chain_info := initial_events ∖ dom (chain_info cd) in
  if decide (events_missing_chain_info = ∅) then mret (∅, state_sets, cd)
  else
    '(result, state_sets) ← _fixup_auth_chain_difference_sets db room_id state_sets
      events_missing_chain_info (dom (chain_info cd));
    let new_events_to_fetch := ⋃ state_sets ∖ initial_events in
    mret (result, state_sets, fetch_chain_info db cd new_events_to_fetch).

Definition _get_auth_chain_difference_using_cover_index_txn (db : database) (room_id : string)
    (state_sets : list (gset string)) (conflicted_set : option (gset string))
    (additional_backwards_reachable_conflicted_events : gset string) : run StateDifference :=
  initial_events ← lift (union_all state_sets);
  _ ← lift (match conflicted_set with
            | None => Ok tt
            | Some c =>
                _ ← raise_if (bool_decide (¬ c ⊆ initial_events)) AssertionError;
                raise_if (bool_decide
                  (¬ additional_backwards_reachable_conflicted_events ⊆ initial_events))
                  AssertionError
            end);
  let cd := fetch_chain_info db (mkChainData ∅ ∅ ∅) initial_events in
  '(auth_difference_result, state_sets, cd) ← fixup_missing_chain_info db room_id state_sets initial_events cd;
  conflicted ← lift (match conflicted_set with
                     | None => Ok None
                     | Some c => p ← positions_of cd c; Ok (Some p)
                     end);
  additional ← lift (match conflicted_set with
                     | None => Ok []
                     | Some _ => positions_of cd additional_backwards_reachable_conflicted_events
                     end);
  set_to_chain ← lift (map_res (set_chains cd) state_sets);
  batches ← fueled (_get_chain_links (db_links db) (seen_chains cd));
  st ← fueled (fold_opt (diff_batch conflicted additional) batches
                 (mkDiffState set_to_chain (seen_chains cd) ∅ ∅));
  let '(auth_difference_result, auth_gaps) :=
    auth_ranges cd (ds_seen st) (ds_sets st) auth_difference_result in
  let '(subgraph_result, subgraph_gaps) :=
    match conflicted_set with
    | None => (∅, ∅)
    | Some _ => subgraph_ranges cd (ds_backwards st) (ds_forwards st)
    end in
  mret (mkStateDifference
    (auth_difference_result ∪ _fetch_event_ids_from_chains_txn db auth_gaps)
    (Some (subgraph_result ∪ _fetch_event_ids_from_chains_txn db subgraph_gaps))).

(** ** Without the index: [_get_auth_chain_difference_txn] *)

(** The order of the pairs of a depth and an event ID. *)
Definition search_le (x y : Z * string) : Prop :=
  (x.1 < y.1)%Z ∨ (x.1 = y.1 ∧ String.leb x.2 y.2 = true).

#[export] Instance search_le_dec x y : Decision (search_le x y).
Proof. unfold search_le. apply _. Defined.

(** [search], [event_to_missing_sets] and [event_to_auth_events]. *)
Record walk_state := mkWalkState {
  ws_search : list (Z * string);
  ws_missing : gmap string (gset nat);
  ws_auth : gmap string (gset string)
}.

(** [event_to_missing_sets[a].intersection_update(event_to_missing_sets[e])] *)
Definition intersect_missing (missing : gmap string (gset nat)) (a e : string)
    : result (gmap string (gset nat)) :=
  x ← of_option (missing !! a) KeyError;
  y ← of_option (missing !! e) KeyError;
  Ok (<[a := x ∩ y]> missing).

(** The [while a_ids] loop: mark the known ancestors. *)
Fixpoint mark_loop (fuel : nat) (known : gmap string (gset string)) (e : string)
    (missing : gmap string (gset nat)) (a_ids : gset string) : run (gmap string (gset nat)) :=
  if decide (a_ids = ∅) then mret missing
  else
    match fuel with
    | 0 => None
    | S fuel =>
        missing ← lift (fold_res (λ m a_id, intersect_missing m a_id e) (elements a_ids) missing);
        mark_loop fuel known e missing
          (⋃ ((λ a_id, default ∅ (known !! a_id)) <$> elements a_ids))
    end.

(** One auth event that was found. *)
Definition found_step (n_sets : nat) (st : walk_state) (x : string * (string * Z))
    : run walk_state :=
  let '(e, (a, depth)) := x in
  let known := <[e := {[a]} ∪ default ∅ (ws_auth st !! e)]> (ws_auth st) in
  match ws_missing st !! a with
  | None =>
      missing ← lift (intersect_missing
        (<[a := list_to_set (seq 0 n_sets)]> (ws_missing st)) a e);
      mret (mkWalkState (ws_search st ++ [(depth, a)]) missing known)
  | Some _ =>
      missing ← mark_loop (S (size known)) known e (ws_missing st) (default ∅ (known !! a));
      missing ← lift (intersect_missing missing a e);
      mret (mkWalkState (ws_search st) missing known)
  end.

Section walk.
Context (evict : gmap string (list (string * Z)) → gmap string (list (string * Z))).

(** The auth events of a chunk. *)
Definition find_auth (db : database) (cache : gmap string (list (string * Z)))
    (chunk : list string)
    : list (string * (string * Z)) * gmap string (list (string * Z)) :=
  let to_fetch := filter (λ e, cache !! e = None) chunk in
  let cached := e ← chunk; (λ r, (e, r)) <$> default [] (cache !! e) in
  let fetched := e ← to_fetch; (λ r, (e, r)) <$> auth_depths db e in
  (cached ++ fetched, cache_rows evict db to_fetch cache).

Fixpoint diff_loop (fuel : nat) (db : database) (n_sets : nat)
    (cache : gmap string (list (string * Z))) (st : walk_state)
    : run (walk_state * gmap string (list (string * Z))) :=
  match ws_search st with
  | [] => mret (st, cache)
  | _ =>
      if forallb (λ x : Z * string, bool_decide (ws_missing st !! x.2 = Some ∅)) (ws_search st)
      then mret (st, cache)
      else
        match fuel with
        | 0 => None
        | S fuel =>
            let k := length (ws_search st) - 100 in
            let chunk := drop k (ws_search st) in
            let '(found, cache) := find_auth db cache chunk.*2 in
            st ← fold_run (found_step n_sets) found
                   (mkWalkState (take k (ws_search st)) (ws_missing st) (ws_auth st));
            diff_loop fuel db n_sets cache
              (mkWalkState (merge_sort search_le (ws_search st)) (ws_missing st) (ws_auth st))
        end
  end.

(** The state sets that an event is not in. *)
Definition sets_without (state_sets : list (gset string)) (e : string) : gset nat :=
  list_to_set (filter (λ i, default true ((λ s : gset string, bool_decide (e ∉ s)) <$> state_sets !! i) = true)
    (seq 0 (length state_sets))).

Definition _get_auth_chain_difference_txn (db : database)
    (cache : gmap string (list (string * Z))) (state_sets : list (gset string))
    : run (gset string * gmap string (list (string * Z))) :=
  initial_events ← lift (union_all state_sets);
  let missing := set_to_map (λ e, (e, sets_without state_sets e)) initial_events in
  let rows :=
    batch ← batch_iter (elements initial_events) 1000;
    omap (λ e, (λ row, (er_depth row, e)) <$> db_events db !! e) batch in
  '(st, cache) ← diff_loop (S (size (db_events db))) db (length state_sets) cache
    (mkWalkState (merge_sort search_le rows) missing ∅);
  mret (dom (filter (λ kv : string * gset nat, kv.2 ≠ ∅) (ws_missing st)), cache).

(** ** [get_auth_chain_difference_extended]

    [tests_allow_no_chain_cover_index] is as it is outside tests. *)
Definition get_auth_chain_difference_extended (db : database)
    (cache : gmap string (list (string * Z))) (room_id : string)
    (state_sets : list (gset string)) (conflicted_set : option (gset string))
    (additional_backwards_reachable_conflicted_events : gset string)
    : run (StateDifference * gmap string (list (string * Z))) :=
  has_index ← lift (of_option (db_rooms db !! room_id) TypeError);
  let walk :=
    match conflicted_set with
    | Some _ => lift (Raise (NoChainCoverIndex room_id))
    | None =>
        '(auth_diff, cache) ← _get_auth_chain_difference_txn db cache state_sets;
        mret (mkStateDifference auth_diff None, cache)
    end in
  if bool_decide (has_index = Some true) then
    match _get_auth_chain_difference_using_cover_index_txn db room_id state_sets conflicted_set
            additional_backwards_reachable_conflicted_events with
    | Some (Raise (NoChainCoverIndex _)) => walk
    | Some (Raise e) => Some (Raise e)
    | Some (Ok r) => mret (r, cache)
    | None => None
    end
  else walk.

Definition get_auth_chain_difference (db : database)
    (cache : gmap string (list (string * Z))) (room_id : string)
    (state_sets : list (gset string)) : run (gset string * gmap string (list (string * Z))) :=
  '(state_diff, cache) ← get_auth_chain_difference_extended db cache room_id state_sets None ∅;
  mret (auth_difference state_diff, cache).
End walk.
