(* ===== verification/AuthDiffProps.v ===== *)
(** The auth chain difference read from the chain cover index. *)
From stdpp Require Import ssreflect.
From S2P Require Import Prelude IterUtils ChainLinks ChainLinksProps ChainLinksWalk ChainCover.
From S2P Require Import ChainCoverInv ChainCoverGather ChainCoverPersist AuthChain AuthChainProps.
From S2P Require Import AuthDiff.

(** ** The walk of the links from the chains of a state set *)
Section table.
Context (table : link_table) (Hpos : positive (table_link table)).

(** Nothing is left to do for a chain. *)
Definition settled (mat : gmap Z Z) (c : Z) : Prop :=
  level true mat c = 0%Z ∨ explored_in table mat c (level true mat c).

Record walking (mat0 mat : gmap Z Z) (done : Z → Prop) : Prop := {
  wg_pos : pos_mat mat;
  wg_le : mat_le true mat0 mat;
  wg_done c : done c → settled mat c;
  wg_changed c : level true mat c = level true mat0 c ∨ settled mat c
}.

Lemma walking_step links c s mat0 mat (done : Z → Prop) :
  batch_of table links → c ∈ dom links → mat !! c = Some s → walking mat0 mat done →
  ∃ mat', _materialize c s links mat true = Some mat' ∧
    walking mat0 mat' (λ c', done c' ∨ c' = c).
Proof.
  intros Hb Hc Hs [W1 Wle W2 W3].
  destruct (materialize_batch table Hpos links c s mat Hb Hc W1) as (mat' & Hm & M1 & M2 & M3 & M4).
  exists mat'. split; [done|].
  assert (∀ c', settled mat c' → settled mat' c') as Hset.
  { intros c' [H0|Hx]; (destruct (M4 c') as [Heq|?]; [|by right]).
    - left. by rewrite Heq.
    - right. rewrite Heq. by eapply explored_in_mono. }
  split; [done|by eapply mat_le_trans| |].
  - intros c' [?| ->]; [by apply Hset, W2|]. destruct (M4 c) as [Heq|?]; right; [|done].
    rewrite Heq. unfold level at 1. by rewrite Hs.
  - intros c'. destruct (M4 c') as [Heq|?]; [|by right; right].
    rewrite Heq. destruct (W3 c') as [?|Hs']; [by left|right; by apply Hset].
Qed.

Lemma walking_mono mat0 mat (P Q : Z → Prop) :
  (∀ c, Q c → P c) → walking mat0 mat P → walking mat0 mat Q.
Proof. intros HPQ [W1 W2 W3 W4]. split; auto. Qed.

Lemma walk_set_ok links mat0 mat (done : Z → Prop) :
  batch_of table links → walking mat0 mat done →
  ∃ mat', walk_set links mat = Some mat' ∧ walking mat0 mat' (λ c, done c ∨ c ∈ dom links).
Proof.
  intros Hb Hw. unfold walk_set.
  match goal with |- context [fold_opt ?f ?es ?st] => destruct (fold_opt_inv
    (λ l m, walking mat0 m (λ c, done c ∨ c ∈ l)) f es st) as (mat' & Hm & Hw') end.
  - eapply walking_mono; [|exact Hw]. by intros c [?|?%elem_of_nil].
  - intros l1 c l2 m Hl Hw1.
    assert (c ∈ dom links) as Hc by (apply elem_of_elements; rewrite Hl; set_solver).
    destruct (m !! c) as [s|] eqn:E.
    + destruct (walking_step links c s mat0 m _ Hb Hc E Hw1) as (m' & Hm & Hw2).
      exists m'. split; [done|]. eapply walking_mono; [|exact Hw2]. intros c' H.
      rewrite elem_of_app list_elem_of_singleton in H. tauto.
    + exists m. split; [done|]. destruct Hw1 as [W1 Wle W2 W3]. split; try done.
      intros c' H. rewrite elem_of_app list_elem_of_singleton in H.
      destruct H as [?|[?| ->]]; [apply W2; tauto..|]. left. unfold level. by rewrite E.
  - exists mat'. split; [done|]. eapply walking_mono; [|exact Hw'].
    intros c [?|?%elem_of_elements]; tauto.
Qed.

(** Soundness: what the walk finds is at the end of links. *)
Lemma walk_set_sound (P : position → Prop) links mat mat' :
  (∀ c s q t ts, P (c, s) → table_link table (c, q) (t, ts) → (q ≤ s)%Z → P (t, ts)) →
  batch_of table links → walk_set links mat = Some mat' →
  (∀ c m, mat !! c = Some m → P (c, m)) → ∀ c m, mat' !! c = Some m → P (c, m).
Proof.
  intros HP Hb. unfold walk_set. revert mat.
  induction (elements (dom links)) as [|c l IH]; intros mat Hm Hq; simpl in Hm.
  { by injection Hm as <-. }
  apply bind_Some in Hm as (mat1 & Hm1 & Hm). eapply IH; [exact Hm|].
  destruct (mat !! c) as [s|] eqn:Ec; [|by injection Hm1 as <-].
  eapply (materialize_sound true links P P); [done| |exact Hm1|by apply Hq|done].
  intros c1 s1 q t ts Hp [_ Hl]%(bo_links _ _ Hb) Hc. by eapply HP.
Qed.

Lemma walking_start mat (P : Z → Prop) :
  pos_mat mat → (∀ c, ¬ P c) → walking mat mat P.
Proof. intros Hp Hn. split; [done|apply mat_le_refl|by intros c ?%Hn|by left]. Qed.

(** ** The batches, for every state set *)
Lemma map_opt_Forall2 {A B} (R : A → B → Prop) (f : A → option B) l :
  Forall (λ x, ∃ y, f x = Some y ∧ R x y) l → ∃ l', map_opt f l = Some l' ∧ Forall2 R l l'.
Proof.
  induction 1 as [|x l (y & Hy & HR) _ (l' & Hl & IH)]; simpl; [by exists []|].
  rewrite Hy /= Hl /=. eauto.
Qed.

Lemma accumulate_total forwards links positions :
  ∃ m, accumulate_forwards_reachable_events forwards links positions = Some m.
Proof.
  unfold accumulate_forwards_reachable_events. generalize (_generate_forward_links links). intros fwd.
  revert forwards. induction (map_to_list positions) as [|[e [c s]] l IH]; intros m; simpl; [eauto|].
  match goal with |- context [_materialize ?c ?s ?l ?m ?b] =>
    destruct (materialize_spec b l c s m) as (m' & -> & _) end. apply IH.
Qed.

Lemma walk_back_total links positions m : ∃ m', walk_back links positions m = Some m'.
Proof.
  unfold walk_back. revert m. induction positions as [|[e [c s]] l IH]; intros m; simpl; [eauto|].
  case_decide; simpl; [|apply IH].
  destruct (materialize_spec true links c s (raise_to c s m)) as (m' & -> & _). apply IH.
Qed.

Lemma diff_batch_sets conflicted additional st links sets :
  map_opt (walk_set links) (ds_sets st) = Some sets →
  ∃ st', diff_batch conflicted additional st links = Some st' ∧ ds_sets st' = sets ∧
    ds_seen st' = foldl (λ seen (m : gmap Z Z), dom m ∪ seen) (ds_seen st) sets.
Proof.
  intros Hs. unfold diff_batch. rewrite Hs /=. destruct conflicted as [ps|]; [|eauto].
  destruct (accumulate_total (ds_forwards st) links (list_to_map ps)) as [fm ->]. simpl.
  destruct (walk_back_total links ps (ds_backwards st)) as [bm ->]. simpl.
  destruct (walk_back_total links additional bm) as [bm' ->]. simpl. eauto.
Qed.

Lemma elem_of_seen_fold (sets : list (gmap Z Z)) seen c :
  c ∈ foldl (λ seen (m : gmap Z Z), dom m ∪ seen) seen sets ↔
  c ∈ seen ∨ ∃ m, m ∈ sets ∧ c ∈ dom m.
Proof.
  revert seen. induction sets as [|m sets IH]; intros seen; simpl; [set_solver|].
  rewrite IH elem_of_union. setoid_rewrite elem_of_cons. naive_solver.
Qed.

Definition walk_from (P : gmap Z Z → position → Prop) (batches : list chain_links)
    (mat0 mat : gmap Z Z) : Prop :=
  walking mat0 mat (λ c, Exists (λ links, c ∈ dom links) batches) ∧
  ∀ c m, mat !! c = Some m → P mat0 (c, m).

Lemma diff_batches_ok (P : gmap Z Z → position → Prop) conflicted additional batches st :
  (∀ mat0 c s q t ts, P mat0 (c, s) → table_link table (c, q) (t, ts) → (q ≤ s)%Z →
    P mat0 (t, ts)) →
  Forall (batch_of table) batches →
  Forall (λ mat, pos_mat mat ∧ (∀ c m, mat !! c = Some m → P mat (c, m)) ∧ dom mat ⊆ ds_seen st)
    (ds_sets st) →
  ∃ st', fold_opt (diff_batch conflicted additional) batches st = Some st' ∧
    Forall2 (walk_from P batches) (ds_sets st) (ds_sets st') ∧
    ∀ mat, mat ∈ ds_sets st' → dom mat ⊆ ds_seen st'.
Proof.
  intros HP Hb Hst.
  destruct (fold_opt_inv (λ l st', Forall2 (walk_from P l) (ds_sets st) (ds_sets st') ∧
    ∀ mat, mat ∈ ds_sets st' → dom mat ⊆ ds_seen st') (diff_batch conflicted additional) batches st)
    as (st' & Hf & HI); [| |by exists st'].
  - split; [|intros mat Hm; rewrite Forall_forall in Hst; by apply Hst].
    apply Forall_Forall2_diag. eapply Forall_impl; [exact Hst|]. simpl. intros mat (H1 & H2 & _).
    split; [|done]. apply walking_start; [done|]. by intros c ?%Exists_nil.
  - intros l1 links l2 st1 -> [H2 Hseen]. apply Forall_app in Hb as [_ [Hb _]%Forall_cons].
    destruct (map_opt_Forall2 (λ mat mat', ∀ mat0, walk_from P l1 mat0 mat →
      walk_from P (l1 ++ [links]) mat0 mat') (walk_set links) (ds_sets st1)) as (sets & Hm & HR).
    { apply Forall_forall. intros mat Hin.
      apply list_elem_of_lookup in Hin as [i Hi].
      destruct (Forall2_lookup_r _ _ _ _ _ H2 Hi) as (m0 & _ & [Hw _]).
      destruct (walk_set_ok links m0 mat _ Hb Hw) as (mat' & Hm' & _). exists mat'.
      split; [done|]. intros mat0 [Hw0 Hs0].
      destruct (walk_set_ok links mat0 mat _ Hb Hw0) as (mat'' & Hm'' & Hw').
      rewrite Hm' in Hm''. injection Hm'' as <-. split.
      - eapply walking_mono; [|exact Hw']. intros c Hc. rewrite Exists_app Exists_cons Exists_nil in Hc.
        tauto.
      - eapply walk_set_sound; [exact (HP mat0)|exact Hb|exact Hm'|done]. }
    destruct (diff_batch_sets conflicted additional st1 links sets Hm) as (st2 & Hd & Hs2 & Hn2).
    exists st2. split; [done|]. split.
    + rewrite Hs2. eapply Forall2_trans; [|exact H2|exact HR]. simpl. intros x y z ? Hyz. by apply Hyz.
    + rewrite Hs2 Hn2. intros mat Hin c Hc. apply elem_of_seen_fold. eauto.
Qed.
End table.

(** ** What is read of the positions *)
Record chain_data_ok (db : database) (ids : gset string) (cd : chain_data) : Prop := {
  cd_info e x : chain_info cd !! e = Some x ↔ e ∈ ids ∧ db_chains db !! e = Some x;
  cd_seen e c s : e ∈ ids → db_chains db !! e = Some (c, s) → c ∈ seen_chains cd;
  cd_events c s e : events_of cd c !! s = Some e → db_chains db !! e = Some (c, s)
}.

Lemma chain_data_empty db : chain_data_ok db ∅ (mkChainData ∅ ∅ ∅).
Proof.
  split; simpl.
  - intros e x. rewrite lookup_empty. set_solver.
  - set_solver.
  - intros c s e. unfold events_of. simpl. by rewrite !lookup_empty.
Qed.

Lemma fetch_chain_info_ok db ids cd ids' :
  chain_data_ok db ids cd → chain_data_ok db (ids ∪ ids') (fetch_chain_info db cd ids').
Proof.
  intros H0. unfold fetch_chain_info.
  assert (∀ l cd ids, (∀ e x, (e, x) ∈ l → db_chains db !! e = Some x) → chain_data_ok db ids cd →
    chain_data_ok db (ids ∪ list_to_set l.*1) (foldl (λ cd '(e, (c, s)),
      mkChainData (<[e := (c, s)]> (chain_info cd)) ({[c]} ∪ seen_chains cd)
        (<[c := <[s := e]> (default ∅ (chain_to_event cd !! c))]> (chain_to_event cd))) cd l)) as Hgo.
  { clear. induction l as [|[e [c s]] l IH]; intros cd ids Hl [C1 C2 C3]; simpl.
    { by rewrite right_id_L. }
    assert (db_chains db !! e = Some (c, s)) as He by (apply Hl; by left).
    rewrite assoc_L. apply IH; [intros; apply Hl; by right|]. split; simpl.
    - intros e' x. rewrite lookup_insert_Some C1. split.
      + intros [[<- <-]|[Hne [? ?]]]; set_solver.
      + intros [[?| ->%elem_of_singleton]%elem_of_union Hx].
        * destruct (decide (e = e')) as [<-|]; [left; split; congruence|right; done].
        * left. split; congruence.
    - intros e' c' s' [?| ->%elem_of_singleton]%elem_of_union Hx;
        [apply elem_of_union_r; by eapply C2|]. rewrite He in Hx. injection Hx as <- <-. set_solver.
    - intros c' s' e'. unfold events_of. simpl. destruct (decide (c = c')) as [<-|Hne].
      + rewrite lookup_insert_eq /= lookup_insert_Some. intros [[<- <-]|[_ H]]; [done|by apply C3].
      + rewrite lookup_insert_ne //. apply C3. }
  specialize (Hgo (select_chains db ids') cd ids).
  destruct Hgo as [C1 C2 C3]; [by intros e x [_ ?]%elem_of_select_chains|done|].
  assert (∀ e x, db_chains db !! e = Some x →
    e ∈ ids ∪ list_to_set (select_chains db ids').*1 ↔ e ∈ ids ∪ ids') as Hids.
  { intros e x Hx. rewrite !elem_of_union elem_of_list_to_set list_elem_of_fmap. split.
    - intros [?|([e' x'] & -> & [? _]%elem_of_select_chains)]; tauto.
    - intros [?|He]; [tauto|]. right. exists (e, x). split; [done|]. by apply elem_of_select_chains. }
  split; [|intros e c s He Hx; eapply C2; [by eapply Hids|exact Hx]|exact C3].
  intros e x. rewrite C1. split; intros [He Hx]; (split; [by eapply Hids|done]).
Qed.

Lemma positions_of_ok cd ids :
  ids ⊆ dom (chain_info cd) →
  ∃ l, positions_of cd ids = Ok l ∧ ∀ e x, (e, x) ∈ l ↔ e ∈ ids ∧ chain_info cd !! e = Some x.
Proof.
  intros Hs. unfold positions_of.
  assert (∀ es acc, (∀ e, e ∈ es → e ∈ dom (chain_info cd)) →
    ∃ l, fold_res (λ acc e, pos ← of_option (chain_info cd !! e) KeyError; Ok (acc ++ [(e, pos)]))
           es acc = Ok l ∧
      ∀ e x, (e, x) ∈ l ↔ (e, x) ∈ acc ∨ e ∈ es ∧ chain_info cd !! e = Some x) as Hgo.
  { induction es as [|e es IH]; intros acc Hd; simpl; [exists acc; set_solver|].
    assert (e ∈ dom (chain_info cd)) as [x Hx]%elem_of_dom by (apply Hd; by left). rewrite Hx /=.
    destruct (IH (acc ++ [(e, x)])) as (l & -> & Hl); [intros; apply Hd; by right|].
    exists l. split; [done|]. intros e' x'. rewrite Hl elem_of_app list_elem_of_singleton elem_of_cons.
    split.
    + intros [[?|[= -> ->]]|[? ?]]; [by left|right; tauto|right; tauto].
    + intros [?|[Hc ?]]; [by left; left|]. destruct Hc as [-> |?]; [left; right; congruence|by right]. }
  destruct (Hgo (elements ids) []) as (l & Hl & Hin).
  - intros e ?%elem_of_elements. by apply Hs.
  - exists l. split; [done|]. intros e x. rewrite Hin elem_of_elements elem_of_nil. tauto.
Qed.

Lemma map_res_Forall2 {A B} (R : A → B → Prop) (f : A → result B) l :
  Forall (λ x, ∃ y, f x = Ok y ∧ R x y) l → ∃ l', map_res f l = Ok l' ∧ Forall2 R l l'.
Proof.
  unfold map_res. intros H.
  assert (∀ acc, ∃ l', fold_res (λ acc x, y ← f x; Ok (acc ++ [y])) l acc = Ok (acc ++ l') ∧
    Forall2 R l l') as Hgo; [|by apply (Hgo [])].
  induction H as [|x l (y & Hy & HR) _ IH]; intros acc; simpl.
  - exists []. by rewrite app_nil_r.
  - rewrite Hy /=. destruct (IH (acc ++ [y])) as (l' & -> & Hl). exists (y :: l').
    rewrite -app_assoc. eauto.
Qed.

Lemma set_chains_ok db ids cd S :
  (∀ e c s, db_chains db !! e = Some (c, s) → (1 ≤ s)%Z) →
  chain_data_ok db ids cd → S ⊆ ids → S ⊆ dom (db_chains db) →
  ∃ m, set_chains cd S = Ok m ∧ tops (λ x, ∃ e, e ∈ S ∧ db_chains db !! e = Some x) m.
Proof.
  intros Hpos [C1 _ _] Hs Hd. unfold set_chains.
  destruct (positions_of_ok cd S) as (l & -> & Hl).
  { intros e He. pose proof (Hd e He) as [x Hx]%elem_of_dom. eapply elem_of_dom_2, C1.
    split; [by apply Hs|exact Hx]. }
  simpl. eexists. split; [done|]. eapply tops_equiv; [|apply tops_fold].
  - intros x. apply exist_proper. intros e. rewrite Hl C1. split; [tauto|].
    intros [? ?]. split_and!; [done|by apply Hs|done].
  - intros e [c s] [_ [_ Hx]%C1]%Hl. by eapply Hpos.
Qed.

(** ** The events of the ranges *)
Lemma fill_gap_spec events seqs acc acc' gap :
  fill_gap events seqs acc = (acc', gap) →
  acc ⊆ acc' ∧ (∀ f, f ∈ acc' → f ∈ acc ∨ ∃ s, s ∈ seqs ∧ events !! s = Some f) ∧
  (gap = false → ∀ s, s ∈ seqs → ∃ f, f ∈ acc' ∧ events !! s = Some f).
Proof.
  revert acc. induction seqs as [|s seqs IH]; intros acc H; simpl in H.
  { injection H as <- <-. split_and!; [done|by left|by intros _ s ?%elem_of_nil]. }
  destruct (events !! s) as [e|] eqn:E; [destruct (str_nonempty e)|].
  2, 3: injection H as <- <-; split_and!; [done|by left|done].
  apply IH in H as (H1 & H2 & H3). split_and!.
  - set_solver.
  - intros f [[->%elem_of_singleton |?]%elem_of_union |(s' & ? & ?)]%H2; [|by left|].
    + right. exists s. split; [by left|done].
    + right. exists s'. split; [by right|done].
  - intros Hg s' [-> |?]%elem_of_cons; [|by apply H3]. exists e. split; [|done]. set_solver.
Qed.

Lemma elem_of_fetch db gaps f :
  f ∈ _fetch_event_ids_from_chains_txn db gaps ↔
  ∃ c s lo hi, db_chains db !! f = Some (c, s) ∧ gaps !! c = Some (lo, hi) ∧ (lo < s ≤ hi)%Z.
Proof.
  unfold _fetch_event_ids_from_chains_txn. rewrite elem_of_dom. split.
  - intros [[c s] [Hf Hg]%map_lookup_filter_Some]. simpl in Hg.
    destruct (gaps !! c) as [[lo hi]|] eqn:E; [|done].
    apply andb_true_iff in Hg as [?%Z.ltb_lt ?%Z.leb_le]. exists c, s, lo, hi. split_and!; done.
  - intros (c & s & lo & hi & Hf & Hg & ? & ?). exists (c, s).
    apply map_lookup_filter_Some. split; [done|]. simpl. rewrite Hg.
    apply andb_true_iff. by rewrite Z.ltb_lt Z.leb_le.
Qed.

Section ranges.
Context (db : database) (cd : chain_data) (ids : gset string) (Hcd : chain_data_ok db ids cd).
Context (Hinj : ∀ e f x, db_chains db !! e = Some x → db_chains db !! f = Some x → e = f).
Context (R : Z → option (Z * Z)).

Definition range_step (acc : gset string * gmap Z position) (c : Z)
    : gset string * gmap Z position :=
  match R c with Some (lo, hi) => take_range cd acc c lo hi | None => acc end.

Definition in_ranges (l : list Z) (f : string) : Prop :=
  ∃ c s lo hi, db_chains db !! f = Some (c, s) ∧ c ∈ l ∧ R c = Some (lo, hi) ∧ (lo < s ≤ hi)%Z.

Lemma ranges_ok l result0 :
  let acc := foldl range_step (result0, ∅) l in
  ∀ f, f ∈ acc.1 ∪ _fetch_event_ids_from_chains_txn db acc.2 ↔ f ∈ result0 ∨ in_ranges l f.
Proof.
  assert (let acc := foldl range_step (result0, ∅) l in
    (result0 ⊆ acc.1 ∧ ∀ f, f ∈ acc.1 → f ∈ result0 ∨ in_ranges l f) ∧
    (∀ c x, acc.2 !! c = Some x → c ∈ l ∧ R c = Some x) ∧
    (∀ f c s lo hi, db_chains db !! f = Some (c, s) → c ∈ l → R c = Some (lo, hi) →
       (lo < s ≤ hi)%Z → f ∈ acc.1 ∨ acc.2 !! c = Some (lo, hi))) as H.
  { induction l as [|c l IH] using rev_ind; cbv zeta; [simpl; split_and!; set_solver|].
    rewrite foldl_snoc. destruct (foldl range_step (result0, ∅) l) as [res gaps]. cbn [fst snd] in IH.
    destruct IH as ((I1 & I2) & I3 & I4). unfold range_step at 1 2 3 4 5.
    assert (∀ f, in_ranges l f → in_ranges (l ++ [c]) f) as Hmono.
    { intros f (c' & s & lo & hi & H1 & H2 & H3). exists c', s, lo, hi. set_solver. }
    destruct (R c) as [[lo hi]|] eqn:Rc; cbn [fst snd].
    2: { split_and!; [done|intros f [?|?]%I2; auto|intros c' x [? ?]%I3; set_solver|].
         intros f c' s lo hi Hf Hc HR Hb. apply (I4 f c' s lo hi Hf); [set_solver|done..]. }
    unfold take_range. destruct (fill_gap _ _ _) as [res' gap] eqn:Eg.
    apply fill_gap_spec in Eg as (F1 & F2 & F3). cbn [fst snd]. split_and!.
    - by etrans.
    - intros f [[?|?]%I2|(s & Hs%elem_of_seqZ & He%(cd_events _ _ _ Hcd))]%F2; [by left|by right; auto|].
      right. exists c, s, lo, hi. split_and!; [done|set_solver|done|lia|lia].
    - intros c' x. destruct gap; [|intros [? ?]%I3; set_solver].
      intros [[<- <-]|[_ [? ?]%I3]]%lookup_insert_Some; set_solver.
    - intros f c' s lo' hi' Hf Hc HR Hb. destruct (decide (c' = c)) as [-> |Hne].
      + rewrite Rc in HR. injection HR as <- <-. destruct gap; [right; by rewrite lookup_insert_eq|].
        left. destruct (F3 eq_refl s) as (f' & Hf' & He%(cd_events _ _ _ Hcd)); [apply elem_of_seqZ; lia|].
        by rewrite (Hinj _ _ _ Hf He).
      + destruct (I4 f c' s lo' hi' Hf) as [?|Hg]; [set_solver|done..|left; by apply F1|].
        right. destruct gap; [by rewrite lookup_insert_ne|done]. }
  cbv zeta in *. destruct (foldl range_step (result0, ∅) l) as [res gaps]. cbn [fst snd] in *.
  destruct H as ((I1 & I2) & I3 & I4). intros f. rewrite elem_of_union elem_of_fetch. split.
  - intros [?|(c & s & lo & hi & Hf & [? ?]%I3 & ?)]; [auto|]. right. by exists c, s, lo, hi.
  - intros [?|(c & s & lo & hi & Hf & Hc & HR & Hb)]; [left; by apply I1|].
    destruct (I4 f c s lo hi Hf Hc HR Hb); [by left|]. right. by exists c, s, lo, hi.
Qed.
End ranges.

(** ** The lowest and the highest level over the state sets *)
Lemma min_level_le sets c s :
  sets ≠ [] → (s ≤ min_level sets c)%Z ↔ Forall (λ m, s ≤ level true m c)%Z sets.
Proof.
  unfold min_level. destruct sets as [|m sets]; [done|]. intros _. simpl.
  change (default 0%Z (m !! c)) with (level true m c). rewrite Forall_cons.
  generalize (level true m c) as x. induction sets as [|m' sets IH]; intros x; simpl.
  - rewrite Forall_nil. tauto.
  - rewrite IH Forall_cons Z.min_glb_iff. unfold level. tauto.
Qed.

Lemma max_level_le sets c s :
  sets ≠ [] → (s ≤ max_level sets c)%Z ↔ Exists (λ m, s ≤ level true m c)%Z sets.
Proof.
  unfold max_level. destruct sets as [|m sets]; [done|]. intros _. simpl.
  change (default 0%Z (m !! c)) with (level true m c). rewrite Exists_cons.
  generalize (level true m c) as x. induction sets as [|m' sets IH]; intros x; simpl.
  - rewrite Exists_nil. tauto.
  - rewrite IH Exists_cons Z.max_le_iff. unfold level. tauto.
Qed.

(** ** The difference of indexed state sets *)
(** [f] is in the state set or in the auth chain of one of its events. *)
Definition reaches (R : string → string → Prop) (S : gset string) (f : string) : Prop :=
  ∃ e, e ∈ S ∧ rtc R e f.

(** [f] is in the auth chain difference of the state sets: reached from one of
    them and not from all. *)
Definition in_difference (R : string → string → Prop) (state_sets : list (gset string))
    (f : string) : Prop :=
  Exists (λ S, reaches R S f) state_sets ∧ ¬ Forall (λ S, reaches R S f) state_sets.

Section indexed.
Context (auth : string → list string) (skey : string → option string) (rank : string → nat).
Context (rank_lt : ∀ e a, a ∈ auth e → rank a < rank e).
Context (db : database) (Hix : index_ok auth skey db).
Abbreviation chains := (db_chains db).
Abbreviation T := (table_link (db_links db)).
Abbreviation is_auth := (is_auth auth).

Lemma set_levels S batches mat0 mat f c s :
  S ⊆ dom chains → tops (λ x, ∃ e, e ∈ S ∧ chains !! e = Some x) mat0 →
  (∀ c, c ∈ dom mat0 → has_links (db_links db) c → Exists (λ links, c ∈ dom links) batches) →
  walk_from (db_links db) (λ _ x, ∃ e, chains !! e = Some x ∧ reaches is_auth S e) batches mat0 mat →
  chains !! f = Some (c, s) → (s ≤ level true mat c)%Z ↔ reaches is_auth S f.
Proof.
  intros Hd Ht Hcov [[W1 Wle W2 W3] Hs] Hf. split.
  - intros Hle. unfold level in Hle. destruct (mat !! c) as [m|] eqn:E; simpl in Hle.
    + destruct (Hs _ _ E) as (e & He & e0 & He0 & Hr). exists e0. split; [done|]. etrans; [exact Hr|].
      by eapply (cover_order auth skey db Hix).
    + apply (cover_pos auth skey db Hix) in Hf. lia.
  - intros (e & He & Hr). pose proof (Hd e He) as [[t ts] Hc]%elem_of_dom.
    apply (cover_reach auth chains T (ix_cover _ _ _ Hix) e f _ _ Hc Hf) in Hr.
    apply (closed_reach (db_links db) (cover_positive auth skey db Hix) mat (t, ts) (c, s)); [|done|].
    + intros c'. destruct (W3 c') as [Heq|?]; [|done]. destruct (mat0 !! c') as [m0|] eqn:E0.
      * destruct (decide (Exists (λ links : chain_links, c' ∈ dom links) batches)) as [?|Hn]; [by apply W2|].
        right. intros q t' ts' Hl _. exfalso. apply Hn, Hcov; [by eapply elem_of_dom_2|].
        by eexists _, _, _.
      * left. rewrite Heq. unfold level. by rewrite E0.
    + simpl. split; [by eapply (cover_pos auth skey db Hix)|]. etrans; [|apply (Wle t)].
      apply (tp_le _ _ Ht). eauto.
Qed.

Lemma reaches_link S c s q t ts :
  (∃ e, chains !! e = Some (c, s) ∧ reaches is_auth S e) → T (c, q) (t, ts) → (q ≤ s)%Z →
  ∃ e, chains !! e = Some (t, ts) ∧ reaches is_auth S e.
Proof.
  intros (e & He & e0 & He0 & Hr) Hl Hq.
  destruct (link_auth auth skey db Hix e c s q t ts He Hl Hq) as (a & Ha & Hca).
  exists a. split; [done|]. exists e0. split; [done|]. etrans; [exact Hr|]. by apply tc_rtc.
Qed.

Lemma auth_ranges_eq cd seen sets result :
  auth_ranges cd seen sets result =
  foldl (range_step cd (λ c, if (min_level sets c <? max_level sets c)%Z
           then Some (min_level sets c, max_level sets c) else None)) (result, ∅) (elements seen).
Proof.
  unfold auth_ranges. generalize (result, ∅ : gmap Z position). induction (elements seen) as [|c l IH]; [done|].
  intros acc. simpl. rewrite IH. f_equal. unfold range_step. by destruct (_ <? _)%Z.
Qed.

(** The levels of all the state sets, once the batches of links are walked. *)
Lemma diff_levels conflicted additional cd ids state_sets :
  chain_data_ok db ids cd → Forall (λ S, S ⊆ ids ∧ S ⊆ dom chains) state_sets →
  ∃ sets0 batches st,
    map_res (set_chains cd) state_sets = Ok sets0 ∧
    _get_chain_links (db_links db) (seen_chains cd) = Some batches ∧
    fold_opt (diff_batch conflicted additional) batches
      (mkDiffState sets0 (seen_chains cd) ∅ ∅) = Some st ∧
    (∀ mat, mat ∈ ds_sets st → dom mat ⊆ ds_seen st) ∧
    Forall2 (λ S mat, ∀ f c s, chains !! f = Some (c, s) →
      (s ≤ level true mat c)%Z ↔ reaches is_auth S f) state_sets (ds_sets st).
Proof.
  intros Hcd Hss.
  destruct (map_res_Forall2 (λ S mat, S ⊆ ids ∧ S ⊆ dom chains ∧
    tops (λ x, ∃ e, e ∈ S ∧ chains !! e = Some x) mat) (set_chains cd) state_sets)
    as (sets0 & Hm & H2).
  { eapply Forall_impl; [exact Hss|]. intros S [H1 H2].
    destruct (set_chains_ok db ids cd S) as (m & Hm & Ht); [|done..|eauto].
    apply (cover_pos auth skey db Hix). }
  destruct (get_chain_links_spec (db_links db) (seen_chains cd)) as (batches & Hb & Hbo & Hcov).
  assert (∀ S mat c, S ⊆ ids → tops (λ x, ∃ e, e ∈ S ∧ chains !! e = Some x) mat →
    c ∈ dom mat → c ∈ seen_chains cd) as Hseen.
  { intros S mat c Hi Ht [m Hcm]%elem_of_dom. destruct (tp_in _ _ Ht c m Hcm) as (e & He & Hx).
    eapply (cd_seen _ _ _ Hcd); [by apply Hi|exact Hx]. }
  destruct (diff_batches_ok (db_links db) (cover_positive auth skey db Hix)
    (λ mat0 x, ∀ S, tops (λ x, ∃ e, e ∈ S ∧ chains !! e = Some x) mat0 →
       ∃ e, chains !! e = Some x ∧ reaches is_auth S e)
    conflicted additional batches (mkDiffState sets0 (seen_chains cd) ∅ ∅)) as (st & Hf & HF & Hse).
  - intros mat0 c s q t ts HP Hl Hq S Ht. eapply reaches_link; [by apply HP|exact Hl|done].
  - done.
  - simpl. apply Forall_forall. intros mat Hin. apply list_elem_of_lookup in Hin as [i Hi].
    destruct (Forall2_lookup_r _ _ _ _ _ H2 Hi) as (S & _ & S1 & S2 & Ht). split_and!.
    + intros c m Hcm. destruct (tp_in _ _ Ht c m Hcm) as (e & _ & Hx).
      by eapply (cover_pos auth skey db Hix).
    + intros c m Hcm S' Ht'. destruct (tp_in _ _ Ht' c m Hcm) as (e & He & Hx). exists e.
      split; [done|]. exists e. split; [done|constructor].
    + intros c Hc. by eapply Hseen.
  - exists sets0, batches, st. split_and!; [done..|].
    eapply Forall2_trans; [|exact H2|exact HF]. simpl.
    intros S mat0 mat (S1 & S2 & Ht) [Hw Hs] f c s Hfx.
    apply (set_levels S batches mat0 mat f c s); [done|done| | |done].
    + intros c' Hc'. apply Hcov. by eapply Hseen.
    + split; [done|]. intros c' m Hcm. by apply (Hs _ _ Hcm).
Qed.

Lemma auth_ranges_ok cd ids state_sets st result0 :
  chain_data_ok db ids cd → state_sets ≠ [] →
  (∀ mat, mat ∈ ds_sets st → dom mat ⊆ ds_seen st) →
  Forall2 (λ S mat, ∀ f c s, chains !! f = Some (c, s) →
    (s ≤ level true mat c)%Z ↔ reaches is_auth S f) state_sets (ds_sets st) →
  let acc := auth_ranges cd (ds_seen st) (ds_sets st) result0 in
  ∀ f, f ∈ acc.1 ∪ _fetch_event_ids_from_chains_txn db acc.2 ↔
    f ∈ result0 ∨ (f ∈ dom chains ∧ in_difference is_auth state_sets f).
Proof.
  intros Hcd Hne Hseen HF. cbv zeta. intros f. rewrite auth_ranges_eq.
  rewrite (ranges_ok db cd ids Hcd (cv_inj _ _ _ (ix_cover _ _ _ Hix))).
  assert (ds_sets st ≠ []) as Hne'.
  { intros E. rewrite E in HF. inversion HF; subst; done. }
  assert (∀ c s, chains !! f = Some (c, s) →
    (min_level (ds_sets st) c < s ≤ max_level (ds_sets st) c)%Z ↔ in_difference is_auth state_sets f) as Hr.
  { intros c s Hf. unfold in_difference. rewrite -Z.nle_gt min_level_le // max_level_le //.
    assert (Forall (λ m, s ≤ level true m c)%Z (ds_sets st) ↔
      Forall (λ S, reaches is_auth S f) state_sets) as ->.
    { clear -HF Hf. induction HF as [|S m l l' H _ IH]; [by rewrite !Forall_nil|].
      by rewrite !Forall_cons IH (H f c s Hf). }
    assert (Exists (λ m, s ≤ level true m c)%Z (ds_sets st) ↔
      Exists (λ S, reaches is_auth S f) state_sets) as ->; [|tauto].
    clear -HF Hf. induction HF as [|S m l l' H _ IH]; [by rewrite !Exists_nil|].
    by rewrite !Exists_cons IH (H f c s Hf). }
  apply or_iff_compat_l. unfold in_ranges. split.
  - intros (c & s & lo & hi & Hf & _ & HR & Hb). split; [by eapply elem_of_dom_2|].
    destruct (_ <? _)%Z; [|done]. injection HR as <- <-. by eapply Hr.
  - intros [[[c s] Hf]%elem_of_dom Hd]. pose proof (proj2 (Hr c s Hf) Hd) as Hb.
    exists c, s, (min_level (ds_sets st) c), (max_level (ds_sets st) c). split_and!; try done; try lia.
    + destruct Hb as [_ Hb]. apply max_level_le in Hb; [|done]. apply Exists_exists in Hb as (m & Hm & Hle).
      apply elem_of_elements. apply (Hseen m Hm). unfold level in Hle.
      destruct (m !! c) eqn:E; [by eapply elem_of_dom_2|]. simpl in Hle.
      apply (cover_pos auth skey db Hix) in Hf. lia.
    + destruct (Z.ltb_spec (min_level (ds_sets st) c) (max_level (ds_sets st) c)); [done|lia].
Qed.
End indexed.
