(* ===== verification/AuthDiffFixup.v ===== *)
(** The auth chain difference of state sets of which some events wait for their
    chain cover index. *)
From stdpp Require Import ssreflect.
From S2P Require Import Prelude IterUtils ChainLinks ChainLinksProps ChainLinksWalk ChainCover.
From S2P Require Import ChainCoverInv ChainCoverGather ChainCoverPersist AuthChain AuthChainProps.
From S2P Require Import AuthDiff AuthDiffProps.

Lemma reaches_mono R (S S' : gset string) f : S ⊆ S' → reaches R S f → reaches R S' f.
Proof. intros Hs (e & He & Hr). exists e. split; [by apply Hs|done]. Qed.

(** ** The part of an auth chain that waits *)
Section partial.
Context (W : gmap string (gset string)).

Definition wedge (e a : string) : Prop := ∃ s, W !! e = Some s ∧ a ∈ s.

Lemma partial_chain_ok (ids : gset string) fuel (start processing to_add : gset string) :
  (∀ e a, wedge e a → a ∈ ids) → processing ⊆ ids → processing ## to_add →
  (∀ f, f ∈ to_add ∨ f ∈ processing → reaches wedge start f) →
  (∀ f a, f ∈ to_add → wedge f a → a ∈ to_add ∨ a ∈ processing) →
  start ⊆ to_add ∪ processing →
  size (ids ∖ to_add) ≤ fuel →
  ∃ R, partial_chain fuel W processing to_add = Some R ∧ ∀ f, f ∈ R ↔ reaches wedge start f.
Proof.
  intros Hids. revert processing to_add.
  induction fuel as [|fuel IH]; intros processing to_add Hp Hdisj Hsound Hcl Hst Hf;
    simpl; destruct (elements processing) as [|x l] eqn:E.
  1, 3: apply elements_empty_inv in E; exists to_add; split; [done|]; intros f; split; [auto|];
    intros (e & He & Hr); apply Hst in He; assert (e ∈ to_add) as He' by set_solver;
    clear He; induction Hr as [|e g f Hg Hr IHr]; [done|]; apply IHr;
    destruct (Hcl e g He' Hg); [done|set_solver].
  all: assert (x ∈ processing) as Hx by (apply elem_of_elements; rewrite E; by left).
  - assert (size (ids ∖ to_add) = 0) as ?%size_empty_inv by lia. set_solver.
  - set (to_add' := {[x]} ∪ to_add).
    set (proc' := match W !! x with
                  | Some sub => (sub ∖ to_add') ∪ (processing ∖ {[x]})
                  | None => processing ∖ {[x]} end).
    assert (∀ a, a ∈ proc' → a ∉ to_add' ∧ (a ∈ processing ∨ wedge x a)) as Hp1.
    { intros a. unfold proc'. destruct (W !! x) as [sub|] eqn:Ex.
      - intros [[Ha Hn]%elem_of_difference|[Ha Hn]%elem_of_difference]%elem_of_union.
        + split; [done|]. right. by exists sub.
        + split; [|by left]. intros [?|?]%elem_of_union; [done|by apply (Hdisj a)].
      - intros [Ha Hn]%elem_of_difference. split; [|by left].
        intros [?|?]%elem_of_union; [done|by apply (Hdisj a)]. }
    assert (∀ a, a ∈ processing ∨ wedge x a → a ∈ to_add' ∨ a ∈ proc') as Hp2.
    { intros a [Ha|(sub & Hs & Ha)]; unfold proc'.
      - destruct (decide (a = x)) as [-> |Hne]; [left; apply elem_of_union_l, elem_of_singleton; done|].
        right. assert (a ∈ processing ∖ {[x]}) by (apply elem_of_difference; by rewrite elem_of_singleton).
        destruct (W !! x); [by apply elem_of_union_r|done].
      - rewrite Hs. destruct (decide (a ∈ to_add')); [by left|]. right.
        apply elem_of_union_l, elem_of_difference. done. }
    apply (IH proc' to_add').
    + intros a [_ [?|Hw]]%Hp1; [by apply Hp|by eapply Hids].
    + intros a [Hn _]%Hp1 Ha. done.
    + intros f [[->%elem_of_singleton |?]%elem_of_union|[_ [?|Hw]]%Hp1]; auto.
      destruct (Hsound x) as (e & He & Hr); [by right|]. exists e. split; [done|]. by eapply rtc_r.
    + intros f a [->%elem_of_singleton |Hfa]%elem_of_union Hw; [auto|].
      destruct (Hcl f a Hfa Hw); [left; by apply elem_of_union_r|auto].
    + intros a Ha. apply elem_of_union. apply Hst, elem_of_union in Ha as [?|?]; [|auto].
      left. by apply elem_of_union_r.
    + assert (ids ∖ to_add' ⊂ ids ∖ to_add) as ?%subset_size; [|lia].
      clear -Hx Hp Hdisj. set_solver.
Qed.

Lemma partial_chain_spec fuel auths e :
  W !! e = Some auths → size (⋃ (map_to_list W).*2 : gset string) ≤ fuel →
  ∃ R, partial_chain fuel W auths ∅ = Some R ∧ ∀ f, f ∈ R ↔ tc wedge e f.
Proof.
  intros He Hf.
  assert (∀ e a, wedge e a → a ∈ (⋃ (map_to_list W).*2 : gset string)) as Hids.
  { intros e' a (s & Hs & Ha). apply elem_of_union_list. exists s. split; [|done].
    apply list_elem_of_fmap. exists (e', s). split; [done|]. by apply elem_of_map_to_list. }
  destruct (partial_chain_ok _ fuel auths auths ∅ Hids) as (R & HR & Hin).
  - intros a Ha. apply (Hids e). by exists auths.
  - set_solver.
  - intros f [?|?]; [set_solver|]. exists f. split; [done|constructor].
  - set_solver.
  - set_solver.
  - etrans; [|exact Hf]. apply subseteq_size. set_solver.
  - exists R. split; [done|]. intros f. rewrite Hin. split.
    + intros (a & Ha & Hr). eapply tc_rtc_r; [|exact Hr]. apply tc_once. by exists auths.
    + intros H. inversion H as [x y (s & Hs & Hy)|x y z (s & Hs & Hy) Ht]; subst; rewrite He in Hs;
        injection Hs as <-; [exists f; split; [done|constructor]|].
      exists y. split; [done|]. by apply tc_rtc.
Qed.
End partial.

Lemma elem_of_waiting_auth db room_id e s :
  waiting_auth db room_id !! e = Some s ↔
  (∃ t k, db_to_calculate db !! e = Some (room_id, t, k)) ∧ s = list_to_set (select_auth db e).
Proof.
  unfold waiting_auth. rewrite map_lookup_imap. destruct (db_to_calculate db !! e) as [[[r t] k]|]; simpl.
  - case_decide as Hr; [subst|]; split.
    + intros [= <-]. eauto.
    + by intros [_ ->].
    + done.
    + by intros [(t' & k' & [= ? ? ?]) _].
  - split; [done|]. by intros [(t & k & ?) _].
Qed.

(** An auth event of an event that is indexed, or that waits in the room. *)
Definition known_edge (db : database) (room_id : string) (e a : string) : Prop :=
  a ∈ select_auth db e ∧ (e ∈ dom (db_chains db) ∨ e ∈ dom (waiting_auth db room_id)).

Section fixup.
Context (auth : string → list string) (skey : string → option string).
Context (db : database) (Hix : index_ok auth skey db) (room_id : string).
Abbreviation chains := (db_chains db).
Abbreviation W := (waiting_auth db room_id).
Abbreviation known := (known_edge db room_id).

Lemma waiting_unindexed e : e ∈ dom W → e ∉ dom chains.
Proof.
  intros [s Hs]%elem_of_dom. apply elem_of_waiting_auth in Hs as [(t & k & Hw) _].
  apply elem_of_dom_2 in Hw. by apply (tb_waiting _ _ (ix_tables _ _ _ Hix)) in Hw as [_ ?].
Qed.

Lemma wedge_known e a : wedge W e a ↔ known e a ∧ e ∈ dom W.
Proof.
  unfold wedge, known_edge. split.
  - intros (s & Hs & Ha). pose proof (elem_of_dom_2 _ _ _ Hs).
    apply elem_of_waiting_auth in Hs as [_ ->]. apply elem_of_list_to_set in Ha. tauto.
  - intros [[Ha _] [s Hs]%elem_of_dom]. exists s. split; [done|].
    apply elem_of_waiting_auth in Hs as [_ ->]. by apply elem_of_list_to_set.
Qed.

Lemma known_indexed e a : e ∈ dom chains → known e a ↔ is_auth auth e a.
Proof.
  intros He. unfold known_edge, is_auth.
  rewrite (tb_auth _ _ (ix_tables _ _ _ Hix)); [tauto|]. by apply (tb_indexed _ _ (ix_tables _ _ _ Hix)).
Qed.

Lemma known_rtc_indexed e f :
  e ∈ dom chains → rtc known e f ↔ rtc (is_auth auth) e f ∧ f ∈ dom chains.
Proof.
  intros He. assert (∀ e a, e ∈ dom chains → a ∈ auth e → a ∈ dom chains) as Hcl.
  { intros e' a [x Hx]%elem_of_dom Ha.
    destruct (cv_complete _ _ _ (ix_cover _ _ _ Hix) e' a x Hx Ha) as (y & Hy & _).
    by eapply elem_of_dom_2. }
  split.
  - intros Hr. induction Hr as [|e g f Hg _ IH]; [done|]. apply known_indexed in Hg; [|done].
    destruct IH as [IH ?]; [by eapply Hcl|]. split; [by eapply rtc_l|done].
  - intros [Hr _]. induction Hr as [|e g f Hg _ IH]; [done|].
    eapply rtc_l; [by apply known_indexed|]. apply IH. by eapply Hcl.
Qed.

(** A walk from a waiting event stays among those, or passes an indexed event. *)
Lemma known_split e f :
  rtc known e f → e ∉ dom chains →
  rtc (wedge W) e f ∨ ∃ a, tc (wedge W) e a ∧ a ∈ dom chains ∧ rtc known a f.
Proof.
  induction 1 as [e|e g f Hg Hr IH]; intros He; [by left|].
  assert (wedge W e g) as Hw.
  { apply wedge_known. split; [done|]. by destruct Hg as [_ [?|?]]. }
  destruct (decide (g ∈ dom chains)) as [Hd|Hn].
  - right. exists g. split_and!; [by apply tc_once|done|done].
  - destruct (IH Hn) as [?|(a & Ha & ?)]; [left; by eapply rtc_l|].
    right. exists a. split; [by eapply tc_l|done].
Qed.

Lemma wedge_rtc_known e f : rtc (wedge W) e f → rtc known e f.
Proof. apply rtc_subrel. intros x y [? _]%wedge_known. done. Qed.

Definition chain_entry (x : string * gset string) : Prop :=
  x.1 ∈ dom W ∧ ∀ f, f ∈ x.2 ↔ tc (wedge W) x.1 f.

Context (has_index : gset string).
Context (Hhas : ∀ e a, tc (wedge W) e a → a ∈ has_index ↔ a ∈ dom chains).

(** What one replacement keeps. *)
Record replacing (S0 : gset string) (acc : gset string * gset string) (done : list string) : Prop := {
  rp_unindexed f : f ∈ acc.2 → f ∉ dom chains;
  rp_reach f : reaches known S0 f ↔ f ∈ acc.2 ∨ reaches known acc.1 f;
  rp_done e : e ∈ done → e ∉ acc.1;
  rp_from e : e ∈ acc.1 → e ∈ S0 ∨ e ∈ dom chains
}.

Lemma replace_event_ok S0 acc done x :
  chain_entry x → replacing S0 acc done →
  (∀ e, e ∈ done → e ∉ dom chains) →
  replacing S0 (replace_event has_index acc x) (done ++ [x.1]).
Proof.
  destruct acc as [S U], x as [e ch]. intros [He Hch] [R1 R2 R3 R4] Hdn. cbn [fst snd] in *.
  pose proof (waiting_unindexed e He) as Hne. unfold replace_event. case_decide as Hin; cycle 1.
  { split; try done. intros e' [?| ->%list_elem_of_singleton]%elem_of_app; [by apply R3|done]. }
  assert (∀ a, a ∈ ch → a ∈ has_index ↔ a ∈ dom chains) as Hh by (intros a ?%Hch; by eapply Hhas).
  set (S' := filter (λ a, a ∈ has_index) ch ∪ (S ∖ {[e]} ∖ ch)).
  set (U' := filter (λ a, a ∉ has_index) ch ∪ ({[e]} ∪ U)).
  assert (∀ a, a ∈ S' ↔ (a ∈ ch ∧ a ∈ dom chains) ∨ (a ∈ S ∧ a ≠ e ∧ a ∉ ch)) as HS'.
  { intros a. unfold S'. rewrite elem_of_union elem_of_filter !elem_of_difference elem_of_singleton.
    specialize (Hh a). tauto. }
  assert (∀ a, a ∈ U' ↔ (a ∈ ch ∧ a ∉ dom chains) ∨ a = e ∨ a ∈ U) as HU'.
  { intros a. unfold U'. rewrite !elem_of_union elem_of_filter elem_of_singleton.
    specialize (Hh a). tauto. }
  clearbody S' U'. split; cbn [fst snd].
  - intros f [[_ ?]|[-> |?]]%HU'; [done|done|by apply R1].
  - intros f. rewrite R2. split.
    + intros [?|(e' & He' & Hr)]; [left; apply HU'; tauto|].
      assert (rtc known e f → f ∈ U' ∨ reaches known S' f) as Hgo.
      { intros [Hw|(a & Ha & Hd & Hrf)]%known_split; [| |done].
        - apply rtc_tc in Hw as [<-|Hw%Hch]; [left; apply HU'; tauto|].
          destruct (decide (f ∈ dom chains)); [right|left; apply HU'; tauto].
          exists f. split; [apply HS'; tauto|constructor].
        - right. exists a. split; [|done]. apply HS'. left. split; [by apply Hch|done]. }
      destruct (decide (e' = e)) as [-> |Hne']; [by apply Hgo|].
      destruct (decide (e' ∈ ch)) as [Hc%Hch|Hnc].
      * apply Hgo. etrans; [|exact Hr]. by apply wedge_rtc_known, tc_rtc.
      * right. exists e'. split; [apply HS'; tauto|done].
    + assert (∀ a, a ∈ ch → rtc known e a) as Hca by (intros a ?%Hch; by apply wedge_rtc_known, tc_rtc).
      intros [[[? _]|[-> |?]]%HU'|(a & [[? _]|[? _]]%HS' & Hr)].
      * right. exists e. split; [done|by apply Hca].
      * right. exists e. split; [done|constructor].
      * by left.
      * right. exists e. split; [done|]. etrans; [by apply Hca|done].
      * right. by exists a.
  - intros e' [Hd| ->%list_elem_of_singleton]%elem_of_app [[? ?]|[? [? ?]]]%HS'; try done.
    + by apply (Hdn e').
    + by apply (R3 e').
  - intros e' [[_ ?]|[? _]]%HS'; [by right|by apply R4].
Qed.

Lemma replace_events_ok S0 l :
  Forall chain_entry l →
  replacing S0 (foldl (replace_event has_index) (S0, ∅) l) l.*1.
Proof.
  induction l as [|x l IH] using rev_ind; intros Hl.
  - simpl. split; cbn [fst snd]; [set_solver| |by intros e ?%elem_of_nil|by left].
    intros f. split; [by right|]. by intros [?%not_elem_of_empty|?].
  - apply Forall_app in Hl as [Hl Hx]. apply Forall_cons in Hx as [Hx _].
    rewrite foldl_snoc fmap_app /=. apply replace_event_ok; [done|by apply IH|].
    intros e ([e' ch] & -> & Hin)%list_elem_of_fmap. rewrite Forall_forall in Hl.
    apply waiting_unindexed. by apply (Hl _ Hin).
Qed.

(** When every event of the set that has no index is replaced. *)
Lemma replaced_set S0 l :
  Forall chain_entry l → (∀ e, e ∈ S0 → e ∈ dom chains ∨ e ∈ l.*1) →
  let acc := foldl (replace_event has_index) (S0, ∅) l in
  acc.1 ⊆ dom chains ∧
  (∀ f, f ∈ acc.2 ↔ f ∉ dom chains ∧ reaches known S0 f) ∧
  (∀ f, f ∈ dom chains → reaches known S0 f ↔ reaches (is_auth auth) acc.1 f).
Proof.
  intros Hl Hcov. cbv zeta. pose proof (replace_events_ok S0 l Hl) as [R1 R2 R3 R4].
  destruct (foldl _ _ _) as [S U]. cbn [fst snd] in *.
  assert (S ⊆ dom chains) as HS.
  { intros e He. destruct (R4 e He) as [H0|?]; [|done]. destruct (Hcov e H0) as [?|Hd]; [done|].
    by apply R3 in Hd. }
  assert (∀ f, reaches known S f ↔ reaches (is_auth auth) S f ∧ f ∈ dom chains) as HK.
  { intros f. split.
    - intros (e & He & Hr). apply known_rtc_indexed in Hr as [Hr ?]; [|by apply HS].
      split; [by exists e|done].
    - intros [(e & He & Hr) Hf]. exists e. split; [done|]. apply known_rtc_indexed; [by apply HS|done]. }
  split_and!; [done| |].
  - intros f. rewrite R2 HK. split; [intros Hf; split; [by apply R1|by left]|].
    intros [Hn [?|[_ ?]]]; done.
  - intros f Hf. rewrite R2 HK. split; [|by right]. by intros [?%R1|[? _]].
Qed.
End fixup.

(** ** Unions and intersections *)
Lemma union_all_ok l :
  l ≠ [] → ∃ u, union_all l = Ok u ∧ ∀ f, f ∈ u ↔ Exists (λ s : gset string, f ∈ s) l.
Proof.
  destruct l as [|s l]; [done|]. intros _. eexists. split; [done|]. intros f. rewrite Exists_cons.
  revert s. induction l as [|s' l IH]; intros s; simpl.
  - rewrite Exists_nil. tauto.
  - rewrite IH Exists_cons elem_of_union. tauto.
Qed.

Lemma intersection_all_ok l :
  l ≠ [] → ∃ u, intersection_all l = Ok u ∧ ∀ f, f ∈ u ↔ Forall (λ s : gset string, f ∈ s) l.
Proof.
  destruct l as [|s l]; [done|]. intros _. eexists. split; [done|]. intros f. rewrite Forall_cons.
  revert s. induction l as [|s' l IH]; intros s; simpl.
  - rewrite Forall_nil. tauto.
  - rewrite IH Forall_cons elem_of_intersection. tauto.
Qed.

(** Membership in the difference from membership of each set. *)
Lemma difference_pointwise (R R' : string → string → Prop) sets sets' f :
  Forall2 (λ S S', reaches R S f ↔ reaches R' S' f) sets sets' →
  in_difference R sets f ↔ in_difference R' sets' f.
Proof.
  intros H. unfold in_difference.
  assert (Exists (λ S, reaches R S f) sets ↔ Exists (λ S, reaches R' S f) sets') as ->.
  { induction H as [|S S' l l' HS _ IH]; [by rewrite !Exists_nil|]. by rewrite !Exists_cons HS IH. }
  assert (Forall (λ S, reaches R S f) sets ↔ Forall (λ S, reaches R' S f) sets') as ->; [|done].
  induction H as [|S S' l l' HS _ IH]; [by rewrite !Forall_nil|]. by rewrite !Forall_cons HS IH.
Qed.

Section difference.
Context (auth : string → list string) (skey : string → option string).
Context (db : database) (Hix : index_ok auth skey db) (room_id : string).
Abbreviation chains := (db_chains db).
Abbreviation W := (waiting_auth db room_id).
Abbreviation known := (known_edge db room_id).

Lemma partial_chains_ok state_sets fuel :
  size (⋃ (map_to_list W).*2 : gset string) ≤ fuel →
  ∃ l, fold_opt (λ acc '(event_id, auth),
      if decide (Exists (λ s : gset string, event_id ∈ s) state_sets) then
        to_add ← partial_chain fuel W auth ∅;
        Some (acc ++ [(event_id, to_add)])
      else Some acc) (map_to_list W) [] = Some l ∧
    Forall (chain_entry db room_id) l ∧
    ∀ e, e ∈ dom W → Exists (λ s : gset string, e ∈ s) state_sets → e ∈ l.*1.
Proof.
  intros Hf. match goal with |- context [fold_opt ?g _ _] => destruct (fold_opt_inv
    (λ l1 l, Forall (chain_entry db room_id) l ∧
       ∀ e, e ∈ l1.*1 → Exists (λ s : gset string, e ∈ s) state_sets → e ∈ l.*1)
    g (map_to_list W) []) as (l & Hl & Hc & Hin) end.
  - split; [done|]. intros e []%elem_of_nil.
  - intros l1 [e auths] l2 l Hl [Hc Hin].
    assert (W !! e = Some auths) as He.
    { apply elem_of_map_to_list. rewrite Hl. apply elem_of_app. right. by left. }
    case_decide as Hex.
    + destruct (partial_chain_spec W fuel auths e He Hf) as (R & -> & HR). simpl. eexists.
      split; [done|]. split.
      * apply Forall_app. split; [done|]. apply Forall_singleton.
        split; [by eapply elem_of_dom_2|done].
      * intros e' He' Hx. rewrite !fmap_app in He' |- *. apply elem_of_app.
        apply elem_of_app in He' as [?|?]; [left; by apply Hin|by right].
    + eexists. split; [done|]. split; [done|]. intros e' He' Hx. rewrite fmap_app in He'.
      apply elem_of_app in He' as [?| ->%list_elem_of_singleton]; [by apply Hin|done].
  - exists l. split_and!; [done..|]. intros e [s Hs]%elem_of_dom. apply Hin, list_elem_of_fmap.
    exists (e, s). split; [done|]. by apply elem_of_map_to_list.
Qed.

Lemma fixup_ok state_sets missing have :
  state_sets ≠ [] → missing ⊆ dom W → have ⊆ dom chains →
  Forall (λ S, ∀ e, e ∈ S → e ∈ dom chains ∨ e ∈ dom W) state_sets →
  ∃ D sets', _fixup_auth_chain_difference_sets db room_id state_sets missing have =
      Some (Ok (D, sets')) ∧
    (∀ f, f ∈ D ↔ f ∉ dom chains ∧ in_difference known state_sets f) ∧
    Forall2 (λ S S', S' ⊆ dom chains ∧
      ∀ f, f ∈ dom chains → reaches known S f ↔ reaches (is_auth auth) S' f) state_sets sets'.
Proof.
  intros Hne Hm Hh Hss. unfold _fixup_auth_chain_difference_sets.
  rewrite bool_decide_eq_false_2; last first.
  { intros H. apply H. by apply subseteq_empty_difference_L. }
  cbn [raise_if lift mbind run_bind].
  destruct (partial_chains_ok state_sets (size (⋃ (map_to_list W).*2 : gset string)))
    as (l & -> & Hl & Hcov); [done|].
  cbn [fueled fmap option_fmap option_map mbind run_bind].
  set (has_index := filter (λ a, a ∈ dom chains) (⋃ (map_to_list W).*2) ∪ have).
  assert (∀ e a, tc (wedge W) e a → a ∈ has_index ↔ a ∈ dom chains) as Hhas.
  { intros e a Ha. unfold has_index. rewrite elem_of_union elem_of_filter. split.
    - intros [[? _]|?]; [done|by apply Hh].
    - intros Hd. left. split; [done|].
      assert (∃ e', wedge W e' a) as (e' & s & Hs & Hin).
      { clear -Ha. induction Ha; eauto. }
      apply elem_of_union_list. exists s. split; [|done]. apply list_elem_of_fmap.
      exists (e', s). split; [done|]. by apply elem_of_map_to_list. }
  set (replaced := (λ s, foldl (replace_event has_index) (s, ∅) l) <$> state_sets).
  assert (Forall2 (λ S acc, acc.1 ⊆ dom chains ∧
    (∀ f, f ∈ acc.2 ↔ f ∉ dom chains ∧ reaches known S f) ∧
    (∀ f, f ∈ dom chains → reaches known S f ↔ reaches (is_auth auth) acc.1 f)) state_sets replaced) as HF.
  { apply Forall2_fmap_r, Forall_Forall2_diag. rewrite Forall_forall. intros S HS.
    apply (replaced_set auth skey db Hix room_id has_index Hhas S l Hl).
    intros e He. rewrite Forall_forall in Hss. destruct (Hss S HS e He) as [?|Hd]; [by left|].
    right. apply Hcov; [done|]. apply Exists_exists. eauto. }
  assert (replaced.*2 ≠ []) as Hne2.
  { clear -Hne. unfold replaced. by destruct state_sets. }
  destruct (union_all_ok replaced.*2 Hne2) as (U & -> & HU).
  destruct (intersection_all_ok replaced.*2 Hne2) as (I & -> & HI).
  cbn [lift mbind run_bind mret run_ret]. eexists _, _. split; [done|]. split.
  - intros f. rewrite elem_of_difference HU HI. unfold in_difference. clear -HF Hne.
    destruct (decide (f ∈ dom chains)) as [Hd|Hn].
    + assert (¬ Exists (λ s : gset string, f ∈ s) replaced.*2) as Hno; [|tauto].
      clear Hne. induction HF as [|S [S' U'] k k' (_ & HU' & _) _ IH]; [by intros ?%Exists_nil|].
      rewrite fmap_cons Exists_cons /=. intros [[? _]%HU'|?]; [done|by apply IH].
    + assert (Exists (λ s : gset string, f ∈ s) replaced.*2 ↔
        Exists (λ S, reaches known S f) state_sets) as ->.
      { clear Hne. induction HF as [|S [S' U'] k k' (_ & HU' & _) _ IH]; [by rewrite !Exists_nil|].
        rewrite fmap_cons !Exists_cons /= IH HU'. tauto. }
      assert (Forall (λ s : gset string, f ∈ s) replaced.*2 ↔
        Forall (λ S, reaches known S f) state_sets) as ->; [|tauto].
      clear Hne. induction HF as [|S [S' U'] k k' (_ & HU' & _) _ IH]; [by rewrite !Forall_nil|].
      rewrite fmap_cons !Forall_cons /= IH HU'. tauto.
  - apply Forall2_fmap_r. eapply Forall2_impl; [exact HF|]. simpl. intros S acc (H1 & _ & H3). done.
Qed.

Lemma fixup_missing state_sets (missing have : gset string) e :
  e ∈ missing → e ∉ dom W →
  _fixup_auth_chain_difference_sets db room_id state_sets missing have =
  Some (Raise (NoChainCoverIndex room_id)).
Proof.
  intros He Hn. unfold _fixup_auth_chain_difference_sets.
  rewrite bool_decide_eq_true_2; [done|]. intros H.
  apply (not_elem_of_empty (C:=gset string) e). rewrite -H. by apply elem_of_difference.
Qed.

(** The state sets the walk of the links starts from. *)
Record prepared (state_sets sets' : list (gset string)) (D ids : gset string) (cd : chain_data) : Prop := {
  pr_data : chain_data_ok db ids cd;
  pr_sets : Forall (λ S, S ⊆ ids ∧ S ⊆ dom chains) sets';
  pr_unindexed f : f ∈ D ↔ f ∉ dom chains ∧ in_difference known state_sets f;
  pr_reach : Forall2 (λ S S', ∀ f, f ∈ dom chains → reaches known S f ↔ reaches (is_auth auth) S' f)
    state_sets sets'
}.

Lemma prepare_ok state_sets (initial : gset string) :
  state_sets ≠ [] → (∀ e, e ∈ initial ↔ Exists (λ S : gset string, e ∈ S) state_sets) →
  initial ⊆ dom chains ∪ dom W →
  let cd := fetch_chain_info db (mkChainData ∅ ∅ ∅) initial in
  ∃ D sets' ids cd', initial ⊆ ids ∧
    fixup_missing_chain_info db room_id state_sets initial cd = Some (Ok (D, sets', cd')) ∧
    prepared state_sets sets' D ids cd'.
Proof.
  intros Hne Hin Hsub. cbv zeta. unfold fixup_missing_chain_info.
  pose proof (fetch_chain_info_ok db ∅ _ initial (chain_data_empty db)) as Hcd.
  rewrite left_id_L in Hcd. set (cd := fetch_chain_info _ _ _) in *.
  assert (∀ e, e ∈ dom (chain_info cd) ↔ e ∈ initial ∧ e ∈ dom chains) as Hinfo.
  { intros e. rewrite !elem_of_dom. split.
    - intros [x [? ?]%(cd_info _ _ _ Hcd)]. eauto.
    - intros [He [x Hx]]. exists x. by apply (cd_info _ _ _ Hcd). }
  case_decide as Hm.
  - assert (initial ⊆ dom chains) as Hall.
    { intros e He. assert (e ∈ dom (chain_info cd)) as [_ ?]%Hinfo; [|done].
      apply empty_difference_subseteq_L in Hm. by apply Hm. }
    assert (Forall (λ S : gset string, S ⊆ initial) state_sets) as HS.
    { apply Forall_forall. intros S HS e He. apply Hin, Exists_exists. eauto. }
    exists ∅, state_sets, initial, cd. split; [done|]. split; [done|]. split; [done| | |].
    + eapply Forall_impl; [exact HS|]. simpl. intros S HSi. split; [done|by etrans].
    + intros f. split; [intros []%not_elem_of_empty|]. intros [Hn [Hex _]]. exfalso. apply Hn.
      apply Exists_exists in Hex as (S & HSin & e & He & Hr). rewrite Forall_forall in HS.
      eapply (known_rtc_indexed auth skey db Hix) in Hr as [_ ?]; [done|].
      apply Hall. by apply (HS S).
    + apply Forall_Forall2_diag. eapply Forall_impl; [exact HS|]. simpl. intros S HSi f Hf. split.
      * intros (e & He & Hr). exists e. split; [done|].
        apply (known_rtc_indexed auth skey db Hix) in Hr as [? _]; [done|]. by apply Hall, HSi.
      * intros (e & He & Hr). exists e. split; [done|].
        apply (known_rtc_indexed auth skey db Hix); [by apply Hall, HSi|done].
  - destruct (fixup_ok state_sets (initial ∖ dom (chain_info cd)) (dom (chain_info cd)))
      as (D & sets' & -> & HD & HF).
    + done.
    + intros e [He Hn]%elem_of_difference.
      assert (e ∈ dom chains ∪ dom W) as [?|?]%elem_of_union by (by apply Hsub); [|done].
      exfalso. apply Hn. by apply Hinfo.
    + by intros e [_ ?]%Hinfo.
    + apply Forall_forall. intros S HS e He. apply elem_of_union, Hsub, Hin, Exists_exists. eauto.
    + cbn [mbind run_bind mret run_ret]. eexists _, _, _, _. split; [|split; [done|split]].
      2: by apply fetch_chain_info_ok.
      * set_solver.
      * apply Forall_forall. intros S' HS'. pose proof HS' as [i Hi]%list_elem_of_lookup.
        destruct (Forall2_lookup_r _ _ _ _ _ HF Hi) as (S & _ & Hd & _). split; [|done].
        intros e He. apply elem_of_union. destruct (decide (e ∈ initial)); [by left|right].
        apply elem_of_difference. split; [|done]. apply elem_of_union_list. eauto.
      * done.
      * eapply Forall2_impl; [exact HF|]. by intros S S' [_ ?].
Qed.

Lemma prepared_difference state_sets sets' D ids cd f :
  prepared state_sets sets' D ids cd →
  f ∈ D ∨ (f ∈ dom chains ∧ in_difference (is_auth auth) sets' f) ↔ in_difference known state_sets f.
Proof.
  intros [_ _ HD HF]. rewrite HD. destruct (decide (f ∈ dom chains)) as [Hd|Hn]; [|tauto].
  rewrite (difference_pointwise known (is_auth auth) state_sets sets'); [tauto|].
  eapply Forall2_impl; [exact HF|]. simpl. auto.
Qed.

(** The difference that the index gives. *)
Lemma index_difference_ok state_sets :
  state_sets ≠ [] →
  Forall (λ S, ∀ e, e ∈ S → e ∈ dom chains ∨ e ∈ dom W) state_sets →
  ∃ d, _get_auth_chain_difference_using_cover_index_txn db room_id state_sets None ∅ = Some (Ok d) ∧
    (∀ f, f ∈ auth_difference d ↔ in_difference known state_sets f) ∧
    default ∅ (conflicted_subgraph d) = ∅.
Proof.
  intros Hne Hss. unfold _get_auth_chain_difference_using_cover_index_txn.
  destruct (union_all_ok state_sets Hne) as (initial & -> & Hin).
  cbn [lift mbind run_bind]. cbv zeta.
  destruct (prepare_ok state_sets initial Hne Hin) as (D & sets' & ids & cd & Hids & -> & Hp).
  { intros e (S & HS & He)%Hin%Exists_exists. rewrite Forall_forall in Hss.
    apply elem_of_union. by eapply Hss. }
  cbn [lift mbind run_bind].
  destruct (diff_levels auth skey db Hix None [] cd ids sets' (pr_data _ _ _ _ _ Hp) (pr_sets _ _ _ _ _ Hp))
    as (sets0 & batches & st & -> & -> & Hf & Hseen & HF).
  cbn [lift fueled fmap option_fmap option_map mbind run_bind]. rewrite Hf.
  cbn [lift fueled fmap option_fmap option_map mbind run_bind].
  destruct (auth_ranges _ _ _ _) as [res gaps] eqn:Er. eexists. split; [done|]. split; cycle 1.
  { cbn [conflicted_subgraph default from_option id]. apply elem_of_equiv_empty_L. intros f [?|Hfe]%elem_of_union; [set_solver|].
    apply elem_of_fetch in Hfe as (c & s & lo & hi & _ & Hg & _). by rewrite lookup_empty in Hg. }
  intros f.
  rewrite -(prepared_difference _ _ _ _ _ f Hp). cbn [auth_difference].
  pose proof (auth_ranges_ok auth skey db Hix cd ids sets' st D (pr_data _ _ _ _ _ Hp)) as Ha.
  rewrite Er in Ha. cbn [fst snd] in Ha. apply Ha; [|done|done].
  pose proof (Forall2_length _ _ _ (pr_reach _ _ _ _ _ Hp)). by destruct sets', state_sets.
Qed.

(** Without positions for some event the index is not used. *)
Lemma index_difference_missing state_sets e :
  Exists (λ S : gset string, e ∈ S) state_sets → e ∉ dom chains → e ∉ dom W →
  _get_auth_chain_difference_using_cover_index_txn db room_id state_sets None ∅ =
  Some (Raise (NoChainCoverIndex room_id)).
Proof.
  intros Hex Hn Hw. unfold _get_auth_chain_difference_using_cover_index_txn.
  destruct (union_all_ok state_sets) as (initial & -> & Hin).
  { intros ->. by apply Exists_nil in Hex. }
  cbn [lift mbind run_bind].
  pose proof (fetch_chain_info_ok db ∅ _ initial (chain_data_empty db)) as Hcd.
  rewrite left_id_L in Hcd. set (cd := fetch_chain_info _ _ _) in *.
  assert (e ∈ initial ∖ dom (chain_info cd)) as He.
  { apply elem_of_difference. split; [by apply Hin|]. intros [x [_ Hx]%(cd_info _ _ _ Hcd)]%elem_of_dom.
    apply Hn. by eapply elem_of_dom_2. }
  unfold fixup_missing_chain_info. rewrite decide_False; [|set_solver]. by rewrite (fixup_missing state_sets _ _ e He Hw).
Qed.
End difference.
