(* ===== verification/AuthDiffWalk.v ===== *)
(** The auth chain difference without the index: the walk ends, and what it
    returns holds the difference. *)
From stdpp Require Import ssreflect.
From S2P Require Import Prelude IterUtils ChainLinks ChainLinksProps ChainLinksWalk ChainCover.
From S2P Require Import ChainCoverInv ChainCoverGather ChainCoverPersist AuthChain AuthChainProps.
From S2P Require Import AuthChainWalk AuthDiff AuthDiffProps AuthDiffFixup.

Section walk.
Context (db : database) (rank : string → nat).
Context (rank_edge : ∀ e a, stored_edge db e a → rank a < rank e).
Context (state_sets : list (gset string)).
Abbreviation edge := (stored_edge db).
Abbreviation n_sets := (length state_sets).

(** [x] is reached from the [i]th state set. *)
Definition reached (i : nat) (x : string) : Prop :=
  ∃ S, state_sets !! i = Some S ∧ reaches edge S x.

Lemma reached_edge i e a : reached i e → rtc edge e a → reached i a.
Proof.
  intros (S & HS & e0 & He0 & Hr) Ha. exists S. split; [done|]. exists e0. split; [done|]. by etrans.
Qed.

(** A state set that is not missing reaches the event. *)
Definition missing_ok (missing : gmap string (gset nat)) : Prop :=
  ∀ x M, missing !! x = Some M → ∀ i, i < n_sets → i ∉ M → reached i x.

Lemma intersect_missing_ok missing a e :
  missing_ok missing → a ∈ dom missing → e ∈ dom missing → rtc edge e a →
  ∃ missing', intersect_missing missing a e = Ok missing' ∧ missing_ok missing' ∧
    dom missing' = dom missing.
Proof.
  intros Hm [x Hx]%elem_of_dom [y Hy]%elem_of_dom Hr. unfold intersect_missing. rewrite Hx Hy /=.
  eexists. split; [done|]. split.
  - intros z M [[<- <-]|[_ Hz]]%lookup_insert_Some i Hi Hn; [|by eapply Hm].
    destruct (decide (i ∈ x)) as [Hix|Hix]; [|by eapply Hm].
    eapply reached_edge; [|exact Hr]. eapply Hm; [exact Hy|done|]. set_solver.
  - rewrite dom_insert_L. apply elem_of_dom_2 in Hx. set_solver.
Qed.

Lemma intersect_all_ok missing e l :
  missing_ok missing → e ∈ dom missing → (∀ a, a ∈ l → a ∈ dom missing ∧ rtc edge e a) →
  ∃ missing', fold_res (λ m a_id, intersect_missing m a_id e) l missing = Ok missing' ∧
    missing_ok missing' ∧ dom missing' = dom missing.
Proof.
  revert missing. induction l as [|a l IH]; intros missing Hm He Hl; simpl; [eauto|].
  destruct (Hl a) as [Ha Hr]; [by left|].
  destruct (intersect_missing_ok missing a e Hm Ha He Hr) as (m & -> & Hm' & Hd). simpl.
  destruct (IH m) as (m' & -> & ? & Hd'); [done|by rewrite Hd| |exists m'; by rewrite -Hd].
  intros a' Ha'. rewrite Hd. apply Hl. by right.
Qed.

(** The auth events that are known. *)
Definition known_ok (missing : gmap string (gset nat)) (known : gmap string (gset string)) : Prop :=
  ∀ e s a, known !! e = Some s → a ∈ s → edge e a ∧ a ∈ dom missing.

(** Marking the ancestors ends: every turn goes one step down a walk, and the
    events of a walk are distinct. *)
Lemma mark_loop_ok fuel known e missing a_ids k :
  missing_ok missing → known_ok missing known → e ∈ dom missing →
  (∀ x, x ∈ a_ids → x ∈ dom missing ∧ rtc edge e x ∧
    ∃ D : gset string, D ⊆ dom known ∧ size D = k ∧ ∀ d, d ∈ D → rank x < rank d) →
  size known < fuel + k →
  ∃ missing', mark_loop fuel known e missing a_ids = Some (Ok missing') ∧
    missing_ok missing' ∧ dom missing' = dom missing.
Proof.
  revert missing a_ids k. induction fuel as [|fuel IH]; intros missing a_ids k Hm Hk He Ha Hf;
    cbn [mark_loop]; case_decide as Hd.
  1, 3: exists missing; by split_and!.
  { destruct (set_choose_L a_ids Hd) as [x Hx]. destruct (Ha x Hx) as (_ & _ & D & HD & Hs & _).
    exfalso. apply subseteq_size in HD. rewrite size_dom in HD. lia. }
  destruct (intersect_all_ok missing e (elements a_ids)) as (m & -> & Hm' & Hdm); [done|done| |].
  { intros a ?%elem_of_elements. destruct (Ha a) as (? & ? & _); done. }
  cbn [lift mbind run_bind].
  destruct (IH m (⋃ ((λ a_id, default ∅ (known !! a_id)) <$> elements a_ids)) (S k))
    as (m' & -> & Hm'' & Hdm').
  - done.
  - intros e' s a Hs Has. rewrite Hdm. by eapply Hk.
  - by rewrite Hdm.
  - intros y (s & Hs & Hy)%elem_of_union_list. apply list_elem_of_fmap in Hs as (x & -> & Hx).
    apply elem_of_elements in Hx. destruct (Ha x Hx) as (Hxm & Hr & D & HD & Hsz & Hrk).
    destruct (known !! x) as [s|] eqn:Ex; simpl in Hy; [|set_solver].
    destruct (Hk x s y Ex Hy) as [Hxy Hym]. rewrite Hdm. split_and!; [done|by eapply rtc_r|].
    exists ({[x]} ∪ D). assert (x ∉ D) as HxD by (intros ?%Hrk; lia). split_and!.
    + apply elem_of_dom_2 in Ex. set_solver.
    + rewrite size_union; [|set_solver]. rewrite size_singleton. lia.
    + apply rank_edge in Hxy. intros d [->%elem_of_singleton |?%Hrk]%elem_of_union; lia.
  - lia.
  - exists m'. by rewrite Hdm' Hdm.
Qed.

(** ** The state of the walk *)
Record walk_ok (st : walk_state) (pending : list string) : Prop := {
  wo_missing : missing_ok (ws_missing st);
  wo_reach x : x ∈ dom (ws_missing st) → ∃ i, reached i x;
  wo_known : known_ok (ws_missing st) (ws_auth st);
  wo_search : NoDup (ws_search st).*2;
  wo_stored e : e ∈ (ws_search st).*2 → e ∈ dom (db_events db) ∧ e ∈ dom (ws_missing st);
  wo_pending e : e ∈ pending → e ∈ dom (ws_missing st);
  wo_closed x a : x ∈ dom (ws_missing st) → edge x a →
    x ∈ (ws_search st).*2 ∨ x ∈ pending ∨ a ∈ dom (ws_missing st)
}.

(** The events that are not found yet, and those that are to be walked. *)
Definition to_walk (st : walk_state) : nat :=
  size (dom (db_events db) ∖ dom (ws_missing st)) + length (ws_search st).

Lemma known_ok_insert missing known e a :
  known_ok missing known → edge e a → a ∈ dom missing →
  known_ok missing (<[e := {[a]} ∪ default ∅ (known !! e)]> known).
Proof.
  intros Hk He Ha e' s x [[<- <-]|[_ Hs]]%lookup_insert_Some Hx; [|by eapply Hk].
  apply elem_of_union in Hx as [->%elem_of_singleton |Hx]; [done|].
  destruct (known !! e) as [s|] eqn:E; [by eapply Hk|set_solver].
Qed.

Lemma known_ok_mono missing missing' known :
  dom missing ⊆ dom missing' → known_ok missing known → known_ok missing' known.
Proof. intros Hd Hk e s a Hs Ha. destruct (Hk e s a Hs Ha). split; [done|by apply Hd]. Qed.

Lemma found_step_ok st pending e a d :
  walk_ok st pending → e ∈ pending → edge e a →
  ∃ st', found_step n_sets st (e, (a, d)) = Some (Ok st') ∧ walk_ok st' pending ∧
    a ∈ dom (ws_missing st') ∧ dom (ws_missing st) ⊆ dom (ws_missing st') ∧ to_walk st' ≤ to_walk st.
Proof.
  intros [W1 W2 W3 W4 W5 W6 W7] He Hea. pose proof (W6 e He) as Hed. unfold found_step.
  set (known := <[e := _]> (ws_auth st)).
  destruct (ws_missing st !! a) as [M|] eqn:Ea.
  - pose proof (elem_of_dom_2 _ _ _ Ea) as Had.
    assert (known_ok (ws_missing st) known) as Hk by (by apply known_ok_insert).
    destruct (mark_loop_ok (S (size known)) known e (ws_missing st) (default ∅ (known !! a)) 1)
      as (m & -> & Hm & Hdm); [done|done|done| |lia|].
    { intros x Hx. destruct (known !! a) as [s|] eqn:Es; simpl in Hx; [|set_solver].
      destruct (Hk a s x Es Hx) as [Hax Hxd]. split_and!; [done|eapply rtc_l; [exact Hea|by apply rtc_once]|].
      exists {[a]}. apply elem_of_dom_2 in Es. split_and!; [set_solver|apply size_singleton|].
      intros d' ->%elem_of_singleton. by apply rank_edge. }
    cbn [mbind run_bind].
    destruct (intersect_missing_ok m a e) as (m' & -> & Hm' & Hdm'); [done|by rewrite Hdm..|by apply rtc_once|].
    cbn [lift mbind run_bind mret run_ret]. eexists. split; [done|].
    assert (dom m' = dom (ws_missing st)) as Hd by congruence.
    split; [split; cbn [ws_missing ws_search ws_auth]; rewrite ?Hd; try done|].
    + eapply known_ok_mono; [|exact Hk]. by rewrite Hd.
    + unfold to_walk. cbn [ws_missing ws_search]. rewrite !Hd. done.
  - assert (a ∉ dom (ws_missing st)) as Han by (by apply not_elem_of_dom).
    set (m0 := <[a := list_to_set (seq 0 n_sets)]> (ws_missing st)).
    assert (dom m0 = {[a]} ∪ dom (ws_missing st)) as Hd0 by (by rewrite /m0 dom_insert_L).
    destruct (intersect_missing_ok m0 a e) as (m & -> & Hm & Hdm).
    { intros x M [[<- <-]|[_ ?]]%lookup_insert_Some i Hi Hn; [|by eapply W1].
      exfalso. apply Hn, elem_of_list_to_set, elem_of_seq. lia. }
    { rewrite Hd0. set_solver. }
    { rewrite Hd0. set_solver. }
    { by apply rtc_once. }
    cbn [lift mbind run_bind mret run_ret]. eexists. split; [done|].
    assert (dom m = {[a]} ∪ dom (ws_missing st)) as Hd by congruence.
    split; [split; cbn [ws_missing ws_search ws_auth]; rewrite ?Hd|].
    + done.
    + intros x [->%elem_of_singleton |?]%elem_of_union; [|by apply W2].
      destruct (W2 e Hed) as [i Hi]. exists i. eapply reached_edge; [exact Hi|by apply rtc_once].
    + apply known_ok_insert; [|done|rewrite Hd; set_solver].
      eapply known_ok_mono; [|exact W3]. rewrite Hd. set_solver.
    + rewrite fmap_app. apply NoDup_app. split_and!; [done| |apply NoDup_singleton].
      intros x Hx ->%list_elem_of_singleton. by apply W5 in Hx as [_ ?].
    + intros x. rewrite fmap_app elem_of_app list_elem_of_singleton.
      intros [Hx|Hx]; [apply W5 in Hx; set_solver|]. simpl in Hx. subst x.
      split; [apply Hea|set_solver].
    + intros x Hx. apply W6 in Hx. set_solver.
    + intros x b Hx Hxb. rewrite fmap_app elem_of_app.
      apply elem_of_union in Hx as [->%elem_of_singleton |Hx].
      * left. right. by left.
      * destruct (W7 x b Hx Hxb) as [?|[?|?]]; [tauto|tauto|]. right. right. set_solver.
    + split_and!; [set_solver|set_solver|]. unfold to_walk. cbn [ws_missing ws_search].
      rewrite Hd length_app /=.
      assert (dom (db_events db) ∖ ({[a]} ∪ dom (ws_missing st)) ⊂ dom (db_events db) ∖ dom (ws_missing st))
        as ?%subset_size; [|lia].
      destruct Hea as [_ Hae]. set_solver.
Qed.

Lemma found_fold_ok found st pending :
  walk_ok st pending → (∀ e a d, (e, (a, d)) ∈ found → e ∈ pending ∧ edge e a) →
  ∃ st', fold_run (found_step n_sets) found st = Some (Ok st') ∧ walk_ok st' pending ∧
    (∀ e a d, (e, (a, d)) ∈ found → a ∈ dom (ws_missing st')) ∧
    dom (ws_missing st) ⊆ dom (ws_missing st') ∧ to_walk st' ≤ to_walk st.
Proof.
  revert st. induction found as [|[e [a d]] found IH]; intros st Hst Hf; cbn [fold_run].
  { exists st. split_and!; [done|done|by intros * ?%elem_of_nil|done|done]. }
  destruct (Hf e a d) as [He Hea]; [by left|].
  destruct (found_step_ok st pending e a d Hst He Hea) as (st1 & -> & Hst1 & Ha & Hd1 & Ht1).
  cbn [mbind run_bind].
  destruct (IH st1 Hst1) as (st2 & -> & Hst2 & Ha2 & Hd2 & Ht2); [intros; eapply Hf; by right|].
  exists st2. split_and!; [done|done| |by etrans|lia].
  intros e' a' d' [[= -> -> ->]|?]%elem_of_cons; [by apply Hd2|by eapply Ha2].
Qed.

(** ** The loop *)
Context (evict : gmap string (list (string * Z)) → gmap string (list (string * Z))).
Context (evict_sub : ∀ cache, evict cache ⊆ cache).

Lemma find_auth_ok cache chunk found cache' :
  cache_ok db cache → find_auth evict db cache chunk = (found, cache') →
  cache_ok db cache' ∧ ∀ e a d, (e, (a, d)) ∈ found ↔ e ∈ chunk ∧ (a, d) ∈ auth_depths db e.
Proof.
  intros Hc [= <- <-]. split; [by apply cache_rows_ok|]. intros e a d. rewrite elem_of_app. split.
  - intros [H|H]; apply list_elem_of_bind in H as (e' & H & He');
      apply list_elem_of_fmap in H as (r & [= <- <-] & Hr).
    + split; [done|]. destruct (cache !! e) as [rows|] eqn:E; simpl in Hr; [|by apply elem_of_nil in Hr].
      by rewrite -(Hc _ _ E).
    + apply list_elem_of_filter in He' as [_ ?]. done.
  - intros [He Hd]. destruct (cache !! e) as [rows|] eqn:E.
    + left. apply list_elem_of_bind. exists e. split; [|done]. rewrite E /=.
      apply list_elem_of_fmap. exists (a, d). split; [done|]. by rewrite (Hc _ _ E).
    + right. apply list_elem_of_bind. exists e. split; [|by apply list_elem_of_filter].
      apply list_elem_of_fmap. eauto.
Qed.

(** Where the loop stops: nothing is left to walk, or all of it is reached from
    every state set. *)
Definition walk_stopped (st : walk_state) : Prop :=
  ∀ e, e ∈ (ws_search st).*2 → ws_missing st !! e = Some ∅.

Lemma walk_ok_sort st :
  walk_ok st [] →
  walk_ok (mkWalkState (merge_sort search_le (ws_search st)) (ws_missing st) (ws_auth st)) [].
Proof.
  intros [W1 W2 W3 W4 W5 W6 W7].
  assert ((merge_sort search_le (ws_search st)).*2 ≡ₚ (ws_search st).*2) as Hp
    by (by rewrite merge_sort_Permutation).
  split; cbn [ws_search ws_missing ws_auth]; try done.
  - by rewrite Hp.
  - intros e. rewrite Hp. apply W5.
  - intros x a. rewrite Hp. apply W7.
Qed.

Lemma diff_loop_ok fuel cache st :
  walk_ok st [] → cache_ok db cache → to_walk st ≤ fuel →
  ∃ st' cache', diff_loop evict fuel db n_sets cache st = Some (Ok (st', cache')) ∧
    cache_ok db cache' ∧ walk_ok st' [] ∧ walk_stopped st' ∧
    dom (ws_missing st) ⊆ dom (ws_missing st').
Proof.
  revert cache st. induction fuel as [|fuel IH]; intros cache st Hst Hc Hf;
    cbn [diff_loop]; destruct (ws_search st) as [|x search] eqn:Es.
  1, 3: exists st, cache; split_and!; [done..| |done]; intros e; rewrite Es; by intros ?%elem_of_nil.
  all: rewrite -Es; destruct (forallb _ (ws_search st)) eqn:Ef.
  1, 3: exists st, cache; split_and!; [done..| |done]; intros e (y & -> & Hy)%list_elem_of_fmap;
    rewrite forallb_forall in Ef; apply list_elem_of_In, Ef, bool_decide_eq_true in Hy; done.
  { unfold to_walk in Hf. rewrite Es /= in Hf. lia. }
  destruct (find_auth _ _ _ _) as [found cache1] eqn:Efa.
  apply find_auth_ok in Efa as [Hc1 Hfound]; [|done].
  set (k := length (ws_search st) - 100) in *. destruct Hst as [W1 W2 W3 W4 W5 W6 W7].
  assert (∀ e, e ∈ (ws_search st).*2 ↔ e ∈ (take k (ws_search st)).*2 ∨ e ∈ (drop k (ws_search st)).*2) as Hsp.
  { intros e. by rewrite -elem_of_app -fmap_app take_drop. }
  assert (length (take k (ws_search st)) < length (ws_search st)) as Hlen.
  { rewrite length_take. unfold k. rewrite Es /=. lia. }
  set (st0 := mkWalkState (take k (ws_search st)) (ws_missing st) (ws_auth st)).
  assert (walk_ok st0 (drop k (ws_search st)).*2) as Hst0.
  { split; cbn [st0 ws_search ws_missing ws_auth]; try done.
    - eapply sublist_NoDup; [exact W4|]. apply fmap_sublist, sublist_take.
    - intros e He. apply W5, Hsp. by left.
    - intros e He. apply W5, Hsp. by right.
    - intros y a Hy Hya. destruct (W7 y a Hy Hya) as [?%Hsp|[?%elem_of_nil|?]]; tauto. }
  destruct (found_fold_ok found st0 _ Hst0) as (st1 & -> & Hst1 & Ha & Hd & Ht).
  { intros e a d [He Hd]%Hfound. split; [done|]. apply elem_of_auth_depths, list_elem_of_fmap. by exists (a, d). }
  cbn [mbind run_bind].
  assert (walk_ok st1 []) as Hst1'.
  { destruct Hst1 as [X1 X2 X3 X4 X5 X6 X7]. split; try done; [by intros e ?%elem_of_nil|].
    intros y a Hy Hya. destruct (X7 y a Hy Hya) as [?|[Hp|?]]; [tauto| |tauto].
    right. right. apply elem_of_auth_depths, list_elem_of_fmap in Hya as ([a' d] & -> & Hd').
    eapply (Ha y a' d), Hfound. done. }
  destruct (IH cache1 (mkWalkState (merge_sort search_le (ws_search st1)) (ws_missing st1) (ws_auth st1)))
    as (st2 & cache2 & -> & Hc2 & Hst2 & Hstop & Hd2); [by apply walk_ok_sort|done| |].
  - unfold to_walk in *. cbn [ws_search ws_missing st0] in *.
    rewrite (Permutation_length (merge_sort_Permutation search_le (ws_search st1))). lia.
  - exists st2, cache2. split_and!; try done. by etrans.
Qed.

(** ** The start *)
Lemma sets_without_ok e i :
  i < n_sets → i ∉ sets_without state_sets e → ∃ S, state_sets !! i = Some S ∧ e ∈ S.
Proof.
  intros Hi Hn. destruct (lookup_lt_is_Some_2 state_sets i Hi) as [S HS]. exists S. split; [done|].
  destruct (decide (e ∈ S)) as [|He]; [done|]. exfalso. apply Hn. unfold sets_without.
  apply elem_of_list_to_set, list_elem_of_filter. rewrite HS /=. split; [|apply elem_of_seq; lia].
  by apply bool_decide_eq_true.
Qed.

Lemma depth_rows_ok (initial : gset string) :
  let rows := batch ← batch_iter (elements initial) 1000;
    omap (λ e, (λ row, (er_depth row, e)) <$> db_events db !! e) batch in
  NoDup rows.*2 ∧ ∀ e, e ∈ rows.*2 ↔ e ∈ initial ∧ e ∈ dom (db_events db).
Proof.
  cbv zeta. set (f := λ e, (λ row, (er_depth row, e)) <$> db_events db !! e).
  assert (∀ ls : list (list string), (ls ≫= λ batch, omap f batch) = omap f (concat ls)) as ->.
  { induction ls as [|l ls IH]; [done|]. by rewrite bind_cons IH -omap_app. }
  rewrite batch_iter_concat; [|lia].
  assert (∀ l : list string, sublist (omap f l).*2 l) as Hsub.
  { induction l as [|e l IH]; [done|]. simpl. unfold f at 1.
    destruct (db_events db !! e); simpl; by constructor. }
  split; [eapply sublist_NoDup; [apply (NoDup_elements initial)|apply Hsub]|].
  intros e. rewrite list_elem_of_fmap -elem_of_elements. split.
  - intros ([d e'] & -> & Hin). apply list_elem_of_omap in Hin as (e & He & Hf).
    apply fmap_Some in Hf as (row & Hrow & [= -> ->]). split; [done|by eapply elem_of_dom_2].
  - intros [He [row Hrow]%elem_of_dom]. exists (er_depth row, e). split; [done|].
    apply list_elem_of_omap. exists e. split; [done|]. unfold f. by rewrite Hrow.
Qed.

Lemma walk_start_ok (initial : gset string) rows :
  (∀ e, ¬ stored db e → select_auth db e = []) →
  (∀ e, e ∈ initial ↔ Exists (λ S : gset string, e ∈ S) state_sets) →
  NoDup rows.*2 → (∀ e, e ∈ rows.*2 ↔ e ∈ initial ∧ e ∈ dom (db_events db)) →
  let missing := set_to_map (λ e, (e, sets_without state_sets e)) initial in
  let st := mkWalkState (merge_sort search_le rows) missing ∅ in
  walk_ok st [] ∧ dom missing = initial ∧ to_walk st ≤ size (db_events db).
Proof.
  intros Hnew Hin Hnd Hrows. cbv zeta. set (missing := set_to_map _ initial).
  assert (∀ e M, missing !! e = Some M ↔ e ∈ initial ∧ M = sets_without state_sets e) as Hm.
  { intros e M. unfold missing. rewrite lookup_set_to_map; [|done]. split.
    - by intros (x & Hx & [= <- <-]).
    - intros [? ->]. by exists e. }
  assert (dom missing = initial) as Hd.
  { apply set_eq. intros e. rewrite elem_of_dom. split; [by intros [M [? _]%Hm]|].
    intros He. exists (sets_without state_sets e). by apply Hm. }
  assert (walk_ok (mkWalkState rows missing ∅) []) as Hok.
  { split; cbn [ws_search ws_missing ws_auth]; rewrite ?Hd.
    - intros x M [Hx ->]%Hm i Hi Hn. destruct (sets_without_ok x i Hi Hn) as (S & HS & He).
      exists S. split; [done|]. exists x. split; [done|constructor].
    - intros x Hx%Hin%Exists_exists. destruct Hx as (S & HS & He).
      apply list_elem_of_lookup in HS as [i Hi]. exists i, S. split; [done|]. exists x.
      split; [done|constructor].
    - intros e s a. by rewrite lookup_empty.
    - done.
    - by intros e [? ?]%Hrows.
    - by intros e ?%elem_of_nil.
    - intros x a Hx [Ha _]. left. apply Hrows. split; [done|].
      destruct (decide (stored db x)) as [(row & sk & Hr & _)|Hn]; [by eapply elem_of_dom_2|].
      rewrite Hnew // in Ha. by apply elem_of_nil in Ha. }
  split_and!; [by apply (walk_ok_sort (mkWalkState rows missing ∅))|done|].
  unfold to_walk. cbn [ws_search ws_missing].
  rewrite (Permutation_length (merge_sort_Permutation search_le rows)) Hd -size_dom.
  rewrite -(length_fmap snd rows) -(size_list_to_set (C:=gset string) rows.*2 Hnd).
  rewrite -size_union.
  - apply subseteq_size. intros e. rewrite elem_of_union elem_of_difference elem_of_list_to_set Hrows.
    tauto.
  - intros e [_ ?]%elem_of_difference [? _]%elem_of_list_to_set%Hrows. done.
Qed.

(** ** The result *)
Lemma reached_all f : (∀ i, i < n_sets → reached i f) → Forall (λ S, reaches edge S f) state_sets.
Proof.
  intros H. apply Forall_lookup. intros i S HS. destruct (H i) as (S' & HS' & ?);
    [by eapply lookup_lt_Some|]. rewrite HS in HS'. by injection HS' as <-.
Qed.

(** The walk finds every event of the difference. *)
Lemma walk_found st f :
  walk_ok st [] → walk_stopped st → (∀ S e, S ∈ state_sets → e ∈ S → e ∈ dom (ws_missing st)) →
  in_difference edge state_sets f → f ∈ dom (ws_missing st).
Proof.
  intros [W1 W2 W3 W4 W5 W6 W7] Hstop H0 [Hex Hall].
  apply Exists_exists in Hex as (S & HS & e & He & Hr). apply (H0 S e HS) in He.
  induction Hr as [|e g f Hg Hr IH]; [done|]. apply IH; try done.
  destruct (W7 e g He Hg) as [Hs|[?%elem_of_nil|?]]; [|done|done]. exfalso. apply Hall, reached_all.
  intros i Hi. eapply reached_edge; [|eapply rtc_l; [exact Hg|exact Hr]].
  eapply W1; [by apply Hstop|done|apply not_elem_of_empty].
Qed.

Lemma walk_difference_ok cache :
  (∀ e, ¬ stored db e → select_auth db e = []) → state_sets ≠ [] → cache_ok db cache →
  ∃ R cache', _get_auth_chain_difference_txn evict db cache state_sets = Some (Ok (R, cache')) ∧
    cache_ok db cache' ∧
    (∀ f, in_difference edge state_sets f → f ∈ R) ∧
    (∀ f, f ∈ R → Exists (λ S, reaches edge S f) state_sets).
Proof.
  intros Hnew Hne Hc. unfold _get_auth_chain_difference_txn.
  destruct (union_all_ok state_sets Hne) as (initial & -> & Hin). cbn [lift mbind run_bind]. cbv zeta.
  destruct (depth_rows_ok initial) as [Hnd Hrows].
  destruct (walk_start_ok initial _ Hnew Hin Hnd Hrows) as (Hst & Hd & Ht).
  match goal with |- context [diff_loop evict ?n db n_sets cache ?s] =>
    destruct (diff_loop_ok n cache s Hst Hc) as (st & cache' & -> & Hc' & Hok & Hstop & Hdom) end; [lia|].
  cbn [mbind run_bind mret run_ret]. eexists _, _. split; [done|]. cbn [ws_missing] in Hdom. rewrite Hd in Hdom.
  split_and!; [done| |].
  - intros f Hf. assert (f ∈ dom (ws_missing st)) as [M HM]%elem_of_dom.
    { apply walk_found; [done|done| |done]. intros S e HS He. apply Hdom, Hin, Exists_exists. eauto. }
    apply elem_of_dom. exists M. apply map_lookup_filter_Some. split; [done|]. simpl. intros ->.
    apply Hf, reached_all. intros i Hi. eapply (wo_missing _ _ Hok); [exact HM|done|apply not_elem_of_empty].
  - intros f [M [HM _]%map_lookup_filter_Some]%elem_of_dom.
    destruct (wo_reach _ _ Hok f) as (i & S & HS & Hr); [by eapply elem_of_dom_2|].
    apply Exists_exists. exists S. split; [by eapply list_elem_of_lookup_2|done].
Qed.
End walk.

Lemma stored_edge_rank auth skey rank db e a :
  (∀ e a, a ∈ auth e → rank a < rank e) → index_ok auth skey db → stored_edge db e a →
  rank a < rank e.
Proof.
  intros Hr Hix [Ha _]. destruct (decide (stored db e)) as [Hs|Hn].
  - apply Hr. by rewrite -(tb_auth _ _ (ix_tables _ _ _ Hix) e Hs).
  - rewrite (tb_new _ _ (ix_tables _ _ _ Hix) e Hn) in Ha. by apply elem_of_nil in Ha.
Qed.

(** C6: the auth chain difference that state resolution asks for.  In every
    database reached by persisting events [get_auth_chain_difference] of one or
    more state sets returns.  In a room with an index whose state sets hold
    indexed events and events that wait for the index it returns exactly the
    events reached from some state set and not from all of them; otherwise it
    walks the auth events, and returns all of those events and only events
    reached from a state set.  The cache of auth events is left in agreement with
    the database. *)
Theorem get_auth_chain_difference_correct (auth : string → list string)
    (skey : string → option string) (rank : string → nat) evict db cache room_id has_index state_sets :
  (∀ e a, a ∈ auth e → rank a < rank e) → (∀ e, NoDup (auth e)) →
  history auth skey db → (∀ cache, evict cache ⊆ cache) → cache_ok db cache →
  db_rooms db !! room_id = Some has_index → state_sets ≠ [] →
  ∃ D cache', get_auth_chain_difference evict db cache room_id state_sets = Some (Ok (D, cache')) ∧
    cache_ok db cache' ∧
    (has_index = Some true →
     Forall (λ S, S ⊆ dom (db_chains db) ∪ dom (waiting_auth db room_id)) state_sets →
     ∀ f, f ∈ D ↔ in_difference (known_edge db room_id) state_sets f) ∧
    (has_index ≠ Some true ∨
     ¬ Forall (λ S, S ⊆ dom (db_chains db) ∪ dom (waiting_auth db room_id)) state_sets →
     (∀ f, in_difference (stored_edge db) state_sets f → f ∈ D) ∧
     (∀ f, f ∈ D → Exists (λ S, reaches (stored_edge db) S f) state_sets)).
Proof.
  intros Hr Hnd Hh Hev Hc Hroom Hne. pose proof (history_index auth skey rank db Hr Hnd Hh) as Hix.
  destruct (walk_difference_ok db rank (λ e a, stored_edge_rank auth skey rank db e a Hr Hix)
    state_sets evict Hev cache (tb_new _ _ (ix_tables _ _ _ Hix)) Hne) as (R & cache' & Hw & Hc' & H1 & H2); [done|].
  unfold get_auth_chain_difference, get_auth_chain_difference_extended. rewrite Hroom Hw.
  cbn [of_option lift mbind run_bind mret run_ret]. case_bool_decide as Hi; cycle 1.
  { exists R, cache'. by split_and!. }
  set (P := λ S : gset string, S ⊆ dom (db_chains db) ∪ dom (waiting_auth db room_id)).
  destruct (decide (Forall P state_sets)) as [Hall|Hn].
  - destruct (index_difference_ok auth skey db Hix room_id state_sets Hne) as (d & -> & Hd & _).
    { eapply Forall_impl; [exact Hall|]. intros S HS e He. by apply elem_of_union, HS. }
    exists (auth_difference d), cache. split_and!; [done|done|done|]. intros [?|?]; done.
  - assert (∃ e, Exists (λ S : gset string, e ∈ S) state_sets ∧ e ∉ dom (db_chains db) ∧
      e ∉ dom (waiting_auth db room_id)) as (e & He & Hn1 & Hn2).
    { apply not_Forall_Exists in Hn; [|apply _]. apply Exists_exists in Hn as (S & HS & Hn). simpl in Hn.
      destruct (set_choose_L (S ∖ (dom (db_chains db) ∪ dom (waiting_auth db room_id)))) as [e He].
      { intros ?%empty_difference_subseteq_L. done. }
      apply elem_of_difference in He as [He Hnu]. exists e. rewrite elem_of_union in Hnu.
      split; [apply Exists_exists; eauto|tauto]. }
    rewrite (index_difference_missing auth skey db Hix room_id state_sets e He Hn1 Hn2).
    exists R, cache'. by split_and!.
Qed.
