(* ===== verification/AuthDiffSubgraph.v ===== *)
(** The conflicted subgraph of state resolution v2.1, read from the chain cover
    index. *)
From stdpp Require Import ssreflect.
From S2P Require Import Prelude IterUtils ChainLinks ChainLinksProps ChainLinksWalk ChainCover.
From S2P Require Import ChainCoverInv ChainCoverGather ChainCoverPersist AuthChain AuthChainProps.
From S2P Require Import AuthChainWalk AuthDiff AuthDiffProps AuthDiffFixup.

(** ** Forward links *)
Lemma generate_forward_links_ok links x y :
  cl_link (_generate_forward_links links) y x ↔ cl_link links x y.
Proof.
  unfold _generate_forward_links.
  assert (∀ c (ls : list (Z * Z * Z)) acc,
    cl_link (foldl (λ new_links '(os, tc, ts), append_link new_links tc (ts, c, os)) acc ls) y x ↔
    cl_link acc y x ∨ x.1 = c ∧ (x.2, y.1, y.2) ∈ ls) as Hin.
  { intros c. induction ls as [|[[os tc] ts] ls IH]; intros acc; simpl.
    - rewrite elem_of_nil. tauto.
    - rewrite IH cl_link_append elem_of_cons. destruct x, y; simpl. naive_solver. }
  assert (∀ (l : list (Z * list (Z * Z * Z))) acc,
    cl_link (foldl (λ new_links '(c, ls),
      foldl (λ new_links '(os, tc, ts), append_link new_links tc (ts, c, os)) new_links ls) acc l) y x ↔
    cl_link acc y x ∨ ∃ ls, (x.1, ls) ∈ l ∧ (x.2, y.1, y.2) ∈ ls) as Hout.
  { induction l as [|[c ls] l IH]; intros acc; simpl.
    - setoid_rewrite elem_of_nil. naive_solver.
    - rewrite IH Hin. setoid_rewrite elem_of_cons. naive_solver. }
  rewrite Hout. unfold cl_link. rewrite lookup_empty /= elem_of_nil.
  setoid_rewrite elem_of_map_to_list. destruct (links !! x.1) as [ls|] eqn:E; simpl.
  - naive_solver.
  - rewrite elem_of_nil. naive_solver.
Qed.

(** ** One batch *)
Lemma get_chain_links_single table chains :
  size chains ≤ 1000 → chains ≠ ∅ →
  ∃ links, _get_chain_links table chains = Some [links] ∧ batch_of table links ∧
    ∀ c, c ∈ chains → c ∈ dom links ↔ has_links table c.
Proof.
  intros Hs Hne. unfold _get_chain_links.
  destruct (size chains) as [|n] eqn:En; [by apply size_empty_inv, leibniz_equiv in En|].
  cbn [chain_links_loop]. rewrite decide_False //.
  assert (take 1000 (elements chains) = elements chains) as ->.
  { apply take_ge. change (length (elements chains)) with (size chains). lia. }
  destruct (select_chain_links_spec table (elements chains)) as (rows & Hrows & Hb & Hcov).
  rewrite Hrows. cbn [mbind option_bind].
  assert (chains ∖ list_to_set (elements chains) ∖ dom (group_links rows) = ∅) as Hemp.
  { rewrite list_to_set_elements_L. set_solver. }
  rewrite Hemp. exists (group_links rows). split_and!; [by destruct n|done|].
  intros c Hc. split; [|intros ?; apply Hcov; [by apply elem_of_elements|done]].
  intros (s & t & ts & Hin)%dom_group. unfold select_chain_links in Hrows.
  apply bind_Some in Hrows as (ids & _ & [= <-]). apply list_elem_of_filter in Hin as [_ Hin].
  by exists s, t, ts.
Qed.

Section subgraph.
Context (auth : string → list string) (skey : string → option string).
Context (db : database) (Hix : index_ok auth skey db).
Abbreviation chains := (db_chains db).
Abbreviation T := (table_link (db_links db)).
Abbreviation is_auth := (is_auth auth).
Context (Hmax : ∀ e c s, chains !! e = Some (c, s) → (s < MAX_CHAIN_LENGTH)%Z).
Context (links : chain_links) (Hb : batch_of (db_links db) links).

(** ** Backwards *)

(** A position in the auth chain of an event of [l] whose chain has links. *)
Definition backed (l : list (string * position)) (x : position) : Prop :=
  ∃ f, chains !! f = Some x ∧ ∃ e c s, (e, (c, s)) ∈ l ∧ c ∈ dom links ∧ rtc is_auth e f.

Lemma backed_mono l l' x : (∀ y, y ∈ l → y ∈ l') → backed l x → backed l' x.
Proof. intros Hl (f & Hf & e & c & s & Hin & ?). exists f. split; [done|]. exists e, c, s. auto. Qed.

Lemma backed_link l c s q t ts :
  backed l (c, s) → cl_link links (c, q) (t, ts) → covers true s q → backed l (t, ts).
Proof.
  intros (f & Hf & e & c' & s' & Hin & Hc & Hr) [_ Hl]%(bo_links _ _ Hb) Hq.
  destruct (link_auth auth skey db Hix f c s q t ts Hf Hl Hq) as (a & Ha & Hca).
  exists a. split; [done|]. exists e, c', s'. split_and!; [done|done|]. etrans; [exact Hr|by apply tc_rtc].
Qed.

Record backing (l : list (string * position)) (B : gmap Z Z) : Prop := {
  bk_pos : pos_mat B;
  bk_settled c : settled (db_links db) B c;
  bk_done e c s : (e, (c, s)) ∈ l → c ∈ dom links → (s ≤ level true B c)%Z;
  bk_sound c m : B !! c = Some m → backed l (c, m)
}.

Lemma backing_skip l B e c s : c ∉ dom links → backing l B → backing (l ++ [(e, (c, s))]) B.
Proof.
  intros Hc [B1 B2 B3 B4]. split; [done|done| |].
  - intros e' c' s' [?|[= -> -> ->]%list_elem_of_singleton]%elem_of_app Hd; [by eapply B3|done].
  - intros c' m Hm. eapply backed_mono; [|by apply B4]. intros y ?. apply elem_of_app. by left.
Qed.

Lemma backing_step l B e c s :
  chains !! e = Some (c, s) → c ∈ dom links → backing l B →
  ∃ B', _materialize c s links (raise_to c s B) true = Some B' ∧ backing (l ++ [(e, (c, s))]) B'.
Proof.
  intros He Hc [B1 B2 B3 B4]. pose proof (cover_pos auth skey db Hix _ _ _ He) as Hs.
  remember (raise_to c s B) as B0 eqn:HB0.
  assert (∀ c', level true B0 c' = if decide (c' = c) then Z.max s (level true B c) else level true B c') as Hl0.
  { intros c'. rewrite HB0 /raise_to level_insert. done. }
  assert (pos_mat B0) as Hp0.
  { intros c' m. rewrite HB0 /raise_to. intros [[<- <-]|[_ ?]]%lookup_insert_Some; [lia|by eapply B1]. }
  assert (mat_le true B B0) as Hle0.
  { intros c'. rewrite Hl0. simpl. case_decide; subst; lia. }
  destruct (materialize_batch (db_links db) (cover_positive auth skey db Hix) links c s B0 Hb Hc Hp0)
    as (B' & Hm & M1 & M2 & M3 & M4).
  exists B'. split; [done|].
  assert (mat_le true B B') as Hle by (by eapply mat_le_trans).
  split; [done| | |].
  - intros c'. destruct (M4 c') as [Heq|?]; [|by right]. rewrite Hl0 in Heq.
    case_decide as Hcc; [subst c'|].
    + destruct (Z.max_spec s (level true B c)) as [[? Hmx]|[? Hmx]]; rewrite Hmx in Heq.
      * destruct (B2 c) as [?|Hx]; [lia|]. right. rewrite Heq. by eapply explored_in_mono.
      * right. by rewrite Heq.
    + destruct (B2 c') as [?|Hx]; [left; congruence|]. right. rewrite Heq. by eapply explored_in_mono.
  - intros e' c' s' [Hin|[= -> -> ->]%list_elem_of_singleton]%elem_of_app Hd.
    + etrans; [by eapply B3|]. apply (Hle c').
    + etrans; [|apply (M2 c)]. rewrite Hl0 decide_True //. lia.
  - set (l' := l ++ [(e, (c, s))]).
    assert (backed l' (c, s)) as Hcs.
    { exists e. split; [done|]. exists e, c, s. split_and!; [|done|constructor].
      apply elem_of_app. right. by left. }
    apply (materialize_sound true links (backed l') (backed l') (λ _ H, H) (backed_link l') c s B0 B' Hm Hcs).
    intros c' m. rewrite HB0 /raise_to.
    assert (∀ c m, B !! c = Some m → backed l' (c, m)) as Hold.
    { intros c1 m1 Hm1. eapply backed_mono; [|by apply B4]. intros y ?. apply elem_of_app. by left. }
    intros [[<- <-]|[_ ?]]%lookup_insert_Some; [|by apply Hold].
    destruct (B !! c) as [m|] eqn:Em; simpl; [|by rewrite Z.max_l; [|lia]].
    destruct (Z.max_spec s m) as [[_ ->]|[_ ->]]; [by apply Hold|done].
Qed.

Lemma walk_back_ok l0 l B :
  (∀ e x, (e, x) ∈ l → chains !! e = Some x) → backing l0 B →
  ∃ B', walk_back links l B = Some B' ∧ backing (l0 ++ l) B'.
Proof.
  intros Hl HB. unfold walk_back.
  match goal with |- context [fold_opt ?f l B] =>
    destruct (fold_opt_inv (λ l1 B, backing (l0 ++ l1) B) f l B) as (B' & Hf & HB') end.
  - by rewrite app_nil_r.
  - intros l1 [e [c s]] l2 B1 -> HB1. rewrite app_assoc. case_decide as Hc.
    + apply backing_step; [|done|done]. apply Hl, elem_of_app. right. by left.
    + exists B1. split; [done|]. by apply backing_skip.
  - eauto.
Qed.

(** The levels backwards are those of the auth chains of the events whose chain
    has links. *)
Lemma backing_levels l B f c s :
  (∀ e x, (e, x) ∈ l → chains !! e = Some x) → backing l B → chains !! f = Some (c, s) →
  (s ≤ level true B c)%Z ↔ ∃ e c' s', (e, (c', s')) ∈ l ∧ c' ∈ dom links ∧ rtc is_auth e f.
Proof.
  intros Hl [B1 B2 B3 B4] Hf. split.
  - intros Hle. unfold level in Hle. destruct (B !! c) as [m|] eqn:Em; simpl in Hle; cycle 1.
    { apply (cover_pos auth skey db Hix) in Hf. lia. }
    destruct (B4 c m Em) as (g & Hg & e & c' & s' & Hin & Hc & Hr). exists e, c', s'.
    split_and!; [done|done|]. etrans; [exact Hr|]. by eapply (cover_order auth skey db Hix).
  - intros (e & c' & s' & Hin & Hc & Hr). pose proof (Hl _ _ Hin) as He.
    apply (cover_reach auth chains T (ix_cover _ _ _ Hix) e f _ _ He Hf) in Hr.
    apply (closed_reach (db_links db) (cover_positive auth skey db Hix) B (c', s') (c, s)); [done|done|].
    simpl. split; [by eapply (cover_pos auth skey db Hix)|by eapply B3].
Qed.

(** ** Forwards *)
Abbreviation fwd := (_generate_forward_links links).

(** A position whose auth chain has an event of [l]. *)
Definition fronted (l : list (string * position)) (x : position) : Prop :=
  ∃ f, chains !! f = Some x ∧ ∃ e y, (e, y) ∈ l ∧ rtc is_auth f e.

Lemma fronted_mono l l' x : (∀ y, y ∈ l → y ∈ l') → fronted l x → fronted l' x.
Proof. intros Hl (f & Hf & e & y & Hin & ?). exists f. split; [done|]. exists e, y. auto. Qed.

Lemma fronted_link l c s q t ts :
  fronted l (c, s) → cl_link fwd (c, q) (t, ts) → covers false s q → fronted l (t, ts).
Proof.
  intros (f & Hf & e & y & Hin & Hr) Hl Hq. apply (generate_forward_links_ok links (t, ts) (c, q)) in Hl.
  apply (bo_links _ _ Hb) in Hl as [_ Hl].
  destruct (cv_sound _ _ _ (ix_cover _ _ _ Hix) _ _ Hl) as (_ & g & a & Hg & Ha & Hga).
  exists g. split; [done|]. exists e, y. split; [done|]. eapply rtc_l; [exact Hga|].
  etrans; [|exact Hr]. by eapply (cover_order auth skey db Hix).
Qed.

Definition explored_fwd (F : gmap Z Z) (c : Z) : Prop :=
  level false F c = MAX_CHAIN_LENGTH ∨ explored false fwd F c (level false F c).

Record fronting (l : list (string * position)) (F : gmap Z Z) : Prop := {
  fr_settled c : explored_fwd F c;
  fr_done e c s : (e, (c, s)) ∈ l → (level false F c ≤ s)%Z;
  fr_sound c m : F !! c = Some m → fronted l (c, m)
}.

Lemma fronting_step l F e c s :
  chains !! e = Some (c, s) → fronting l F →
  ∃ F', _materialize c s fwd
      (<[c := Z.min s (default MAX_CHAIN_LENGTH (F !! c))]> F) false = Some F' ∧
    fronting (l ++ [(e, (c, s))]) F'.
Proof.
  intros He [F1 F2 F3]. pose proof (Hmax _ _ _ He) as Hs.
  change (default MAX_CHAIN_LENGTH (F !! c)) with (level false F c).
  remember (<[c := Z.min s (level false F c)]> F) as F0 eqn:HF0.
  assert (∀ c', level false F0 c' = if decide (c' = c) then Z.min s (level false F c) else level false F c') as Hl0.
  { intros c'. by rewrite HF0 level_insert. }
  assert (mat_le false F F0) as Hle0.
  { intros c'. rewrite Hl0. simpl. case_decide; subst; lia. }
  destruct (materialize_spec false fwd c s F0) as (F' & Hm & M1 & M2 & M3).
  exists F'. split; [done|].
  assert (mat_le false F F') as Hle by (by eapply mat_le_trans).
  split.
  - intros c'. destruct (M3 c') as [Heq|?]; [|by right]. rewrite Hl0 in Heq.
    case_decide as Hcc; [subst c'|].
    + destruct (Z.min_spec s (level false F c)) as [[? Hmn]|[? Hmn]]; rewrite Hmn in Heq.
      * right. by rewrite Heq.
      * destruct (F1 c) as [?|Hx]; [left; congruence|]. right. rewrite Heq.
        eapply explored_mono; [exact Hx|done|apply covers_refl].
    + destruct (F1 c') as [?|Hx]; [left; congruence|]. right. rewrite Heq.
      eapply explored_mono; [exact Hx|done|apply covers_refl].
  - intros e' c' s' [Hin|[= -> -> ->]%list_elem_of_singleton]%elem_of_app.
    + etrans; [apply (Hle c')|by eapply F2].
    + etrans; [apply (M1 c)|]. rewrite Hl0 decide_True //. lia.
  - set (l' := l ++ [(e, (c, s))]).
    assert (fronted l' (c, s)) as Hcs.
    { exists e. split; [done|]. exists e, (c, s). split; [|constructor]. apply elem_of_app. right. by left. }
    apply (materialize_sound false fwd (fronted l') (fronted l') (λ _ H, H) (fronted_link l') c s F0 F' Hm Hcs).
    assert (∀ c m, F !! c = Some m → fronted l' (c, m)) as Hold.
    { intros c1 m1 Hm1. eapply fronted_mono; [|by apply F3]. intros y ?. apply elem_of_app. by left. }
    intros c' m. rewrite HF0. intros [[<- <-]|[_ ?]]%lookup_insert_Some; [|by apply Hold].
    unfold level. destruct (F !! c) as [m|] eqn:Em; simpl; [|by rewrite Z.min_l; [|lia]].
    destruct (Z.min_spec s m) as [[_ ->]|[_ ->]]; [done|by apply Hold].
Qed.

Lemma accumulate_ok l :
  (∀ e x, (e, x) ∈ l → chains !! e = Some x) →
  ∃ F, accumulate_forwards_reachable_events ∅ links (list_to_map l) = Some F ∧
    fronting (map_to_list (list_to_map l : gmap string position)) F ∧
    ∀ e x, (e, x) ∈ map_to_list (list_to_map l : gmap string position) ↔ (e, x) ∈ l.
Proof.
  intros Hl. unfold accumulate_forwards_reachable_events.
  assert (∀ e x, (e, x) ∈ map_to_list (list_to_map l : gmap string position) ↔ (e, x) ∈ l) as Hin.
  { intros e x. rewrite elem_of_map_to_list. split; [apply elem_of_list_to_map_2|].
    intros H. apply elem_of_list_to_map_1'; [|done]. intros y Hy. apply Hl in H, Hy. congruence. }
  match goal with |- context [fold_opt ?f ?ps ∅] =>
    destruct (fold_opt_inv fronting f ps ∅) as (F & Hf & HF) end.
  - split.
    + intros c. left. unfold level. by rewrite lookup_empty.
    + by intros * ?%elem_of_nil.
    + intros c m. by rewrite lookup_empty.
  - intros l1 [e [c s]] l2 F Heq HF. apply fronting_step; [|done].
    apply Hl, Hin. rewrite Heq. apply elem_of_app. right. by left.
  - eauto.
Qed.

Lemma fronting_reach F x y :
  (∀ c, explored_fwd F c) → (∀ x y, cl_link links x y → (y.2 < MAX_CHAIN_LENGTH)%Z) →
  reach (cl_link links) x y → (level false F y.1 ≤ y.2 < MAX_CHAIN_LENGTH)%Z →
  (level false F x.1 ≤ x.2)%Z.
Proof.
  intros Hset Hlt. induction 1 as [c s s' Hs|c s s1 y z Hs Hl Hr IH]; intros Hy; simpl in *; [lia|].
  pose proof (Hlt _ _ Hl). assert (level false F y.1 ≤ y.2)%Z as Hy' by auto.
  destruct (Hset y.1) as [?|Hx]; [lia|].
  assert (covers false (level false F c) s1) as Hc; [|simpl in Hc; lia].
  eapply (Hx y.2 c s1); [|done]. rewrite -surjective_pairing. by apply generate_forward_links_ok.
Qed.

(** Links from a chain of the batch are in the batch. *)
Lemma reach_in_batch x y :
  reach T x y → (has_links (db_links db) x.1 → x.1 ∈ dom links) → reach (cl_link links) x y.
Proof.
  induction 1 as [c s s' Hs|c s s1 y z Hs Hl Hr IH]; intros Hc; simpl in *.
  - by constructor.
  - assert (cl_link links (c, s1) y) as Hcl.
    { apply (bo_links _ _ Hb). split; [|done]. simpl. apply Hc. by exists s1, y.1, y.2. }
    econstructor; [exact Hs|exact Hcl|]. apply IH. by apply (bo_closed _ _ Hb _ _ Hcl).
Qed.

Lemma reach_dom x y :
  reach T x y → (has_links (db_links db) x.1 → x.1 ∈ dom links) →
  has_links (db_links db) y.1 → y.1 ∈ dom links.
Proof.
  induction 1 as [c s s' Hs|c s s1 y z Hs Hl Hr IH]; intros Hc; simpl in *; [done|].
  assert (cl_link links (c, s1) y) as Hcl.
  { apply (bo_links _ _ Hb). split; [|done]. simpl. apply Hc. by exists s1, y.1, y.2. }
  apply IH. by apply (bo_closed _ _ Hb _ _ Hcl).
Qed.

Lemma backed_dom (l : list (string * position)) f c s :
  (∀ e x, (e, x) ∈ l → chains !! e = Some x) → chains !! f = Some (c, s) →
  (∃ e c' s', (e, (c', s')) ∈ l ∧ c' ∈ dom links ∧ rtc is_auth e f) →
  has_links (db_links db) c → c ∈ dom links.
Proof.
  intros Hl Hf (e & c' & s' & Hin & Hd & Hr).
  apply (cover_reach auth chains T (ix_cover _ _ _ Hix) e f _ _ (Hl _ _ Hin) Hf) in Hr.
  by apply (reach_dom _ _ Hr).
Qed.

Lemma fronting_levels l F f c s :
  (∀ e x, (e, x) ∈ l → chains !! e = Some x) → fronting l F →
  chains !! f = Some (c, s) → (has_links (db_links db) c → c ∈ dom links) →
  (level false F c ≤ s)%Z ↔ ∃ e x, (e, x) ∈ l ∧ rtc is_auth f e.
Proof.
  intros Hl [F1 F2 F3] Hf Hc. split.
  - intros Hle. unfold level in Hle. destruct (F !! c) as [m|] eqn:Em; simpl in Hle; cycle 1.
    { apply Hmax in Hf. lia. }
    destruct (F3 c m Em) as (g & Hg & e & y & Hin & Hr). exists e, y. split; [done|].
    etrans; [|exact Hr]. by eapply (cover_order auth skey db Hix).
  - intros (e & [t ts] & Hin & Hr). pose proof (Hl _ _ Hin) as He.
    apply (cover_reach auth chains T (ix_cover _ _ _ Hix) f e _ _ Hf He) in Hr.
    apply (fronting_reach F (c, s) (t, ts)); [done| |by apply reach_in_batch|].
    + intros x [u us] [_ Hxy]%(bo_links _ _ Hb).
      destruct (cv_sound _ _ _ (ix_cover _ _ _ Hix) _ _ Hxy) as (_ & g & a & _ & Ha & _). by eapply Hmax.
    + simpl. split; [by eapply F2|by eapply Hmax].
Qed.
End subgraph.

(** ** The overlap *)
Lemma subgraph_ranges_eq cd B F :
  subgraph_ranges cd B F =
  foldl (range_step cd (λ c, b ← B !! c; f ← F !! c;
    if (b <? f)%Z then None else Some ((f - 1)%Z, b))) (∅, ∅) (map_to_list B).*1.
Proof.
  unfold subgraph_ranges.
  assert (∀ l acc, (∀ c b, (c, b) ∈ l → B !! c = Some b) →
    foldl (λ acc '(c, b), match F !! c with
      | None => acc
      | Some f => if (b <? f)%Z then acc else take_range cd acc c (f - 1) b end) acc l =
    foldl (range_step cd (λ c, b ← B !! c; f ← F !! c;
      if (b <? f)%Z then None else Some ((f - 1)%Z, b))) acc l.*1) as Hgo.
  { induction l as [|[c b] l IH]; intros acc Hl; [done|]. simpl. rewrite IH; [|intros; apply Hl; by right].
    f_equal. unfold range_step. rewrite (Hl c b); [|by left]. simpl.
    destruct (F !! c) as [f|]; [|done]. simpl. by destruct (b <? f)%Z. }
  apply Hgo. intros c b. by rewrite elem_of_map_to_list.
Qed.

Lemma subgraph_ranges_ok db cd ids B F :
  chain_data_ok db ids cd →
  (∀ e f x, db_chains db !! e = Some x → db_chains db !! f = Some x → e = f) →
  (∀ e c s, db_chains db !! e = Some (c, s) → (1 ≤ s < MAX_CHAIN_LENGTH)%Z) →
  let acc := subgraph_ranges cd B F in
  ∀ f, f ∈ acc.1 ∪ _fetch_event_ids_from_chains_txn db acc.2 ↔
    ∃ c s, db_chains db !! f = Some (c, s) ∧ (level false F c ≤ s ≤ level true B c)%Z.
Proof.
  intros Hcd Hinj Hs. cbv zeta. intros f. rewrite subgraph_ranges_eq (ranges_ok db cd ids Hcd Hinj).
  unfold in_ranges, level. split.
  - intros [[]%not_elem_of_empty|(c & s & lo & hi & Hf & _ & HR & Hb)]. exists c, s. split; [done|].
    apply bind_Some in HR as (b & -> & HR). apply bind_Some in HR as (g & -> & HR). simpl.
    destruct (Z.ltb_spec b g); [done|]. injection HR as <- <-. lia.
  - intros (c & s & Hf & Hle). right. pose proof (Hs _ _ _ Hf).
    destruct (B !! c) as [b|] eqn:EB; simpl in Hle; [|lia].
    destruct (F !! c) as [g|] eqn:EF; simpl in Hle; [|lia].
    exists c, s, (g - 1)%Z, b. split_and!; [done| | |lia|lia].
    + apply list_elem_of_fmap. exists (c, b). split; [done|]. by apply elem_of_map_to_list.
    + rewrite EB EF /=. destruct (Z.ltb_spec b g); [lia|done].
Qed.

(** The chains of a set of events. *)
Definition chains_of (db : database) (ids : gset string) : gset Z :=
  list_to_set (select_chains db ids).*2.*1.

Lemma seen_chains_of db ids :
  seen_chains (fetch_chain_info db (mkChainData ∅ ∅ ∅) ids) = chains_of db ids.
Proof.
  unfold fetch_chain_info, chains_of.
  assert (∀ l cd, seen_chains (foldl (λ cd '(e, (c, s)),
      mkChainData (<[e := (c, s)]> (chain_info cd)) ({[c]} ∪ seen_chains cd)
        (<[c := <[s := e]> (default ∅ (chain_to_event cd !! c))]> (chain_to_event cd))) cd l) =
    seen_chains cd ∪ list_to_set l.*2.*1) as Hgo.
  { induction l as [|[e [c s]] l IH]; intros cd; simpl; [by rewrite right_id_L|].
    rewrite IH. simpl. set_solver. }
  rewrite Hgo /=. by rewrite left_id_L.
Qed.

(** An event whose chain has links. *)
Definition linked (db : database) (e : string) : Prop :=
  ∃ c s, db_chains db !! e = Some (c, s) ∧ has_links (db_links db) c.

(** [f] is between the conflicted events: after one of them, and before one of
    them or an additional event, whose chain has links. *)
Definition in_subgraph (R : string → string → Prop) (db : database) (conflicted additional : gset string)
    (f : string) : Prop :=
  (∃ e, e ∈ conflicted ∪ additional ∧ linked db e ∧ rtc R e f) ∧ ∃ e, e ∈ conflicted ∧ rtc R f e.

Section main.
Context (auth : string → list string) (skey : string → option string).
Context (db : database) (Hix : index_ok auth skey db).
Abbreviation chains := (db_chains db).
Context (Hmax : ∀ e c s, chains !! e = Some (c, s) → (s < MAX_CHAIN_LENGTH)%Z).

(** The walks of the only batch. *)
Lemma single_batch_subgraph cd ids C A pC pA sets seen st links :
  chain_data_ok db ids cd → batch_of (db_links db) links →
  (∀ e c s, e ∈ C ∪ A → chains !! e = Some (c, s) → c ∈ dom links ↔ has_links (db_links db) c) →
  (∀ e x, (e, x) ∈ pC ↔ e ∈ C ∧ chains !! e = Some x) →
  (∀ e x, (e, x) ∈ pA ↔ e ∈ A ∧ chains !! e = Some x) →
  C ∪ A ⊆ dom chains →
  diff_batch (Some pC) pA (mkDiffState sets seen ∅ ∅) links = Some st →
  let acc := subgraph_ranges cd (ds_backwards st) (ds_forwards st) in
  ∀ f, f ∈ acc.1 ∪ _fetch_event_ids_from_chains_txn db acc.2 ↔ in_subgraph (is_auth auth) db C A f.
Proof.
  intros Hcd Hb Hdom HC HA Hsub Hst. cbv zeta. intros f. unfold diff_batch in Hst.
  apply bind_Some in Hst as (sets' & _ & Hst). cbn [ds_backwards ds_forwards] in Hst.
  assert (∀ e x, (e, x) ∈ pC → chains !! e = Some x) as HpC by (by intros e x [_ ?]%HC).
  assert (∀ e x, (e, x) ∈ pA → chains !! e = Some x) as HpA by (by intros e x [_ ?]%HA).
  destruct (accumulate_ok auth skey db Hix Hmax links Hb pC HpC) as (F & HF & Hfr & Hfin).
  rewrite HF in Hst. cbn [mbind option_bind] in Hst.
  destruct (walk_back_ok auth skey db Hix links Hb [] pC ∅ HpC) as (B1 & HB1 & Hbk1).
  { split.
    - intros c m. by rewrite lookup_empty.
    - intros c. left. unfold level. by rewrite lookup_empty.
    - by intros * ?%elem_of_nil.
    - intros c m. by rewrite lookup_empty. }
  rewrite HB1 in Hst. cbn [mbind option_bind app] in Hst, Hbk1.
  destruct (walk_back_ok auth skey db Hix links Hb pC pA B1 HpA Hbk1) as (B & HB & Hbk).
  rewrite HB in Hst. cbn [mbind option_bind] in Hst. injection Hst as <-. cbn [ds_backwards ds_forwards].
  rewrite (subgraph_ranges_ok db cd ids B F Hcd (cv_inj _ _ _ (ix_cover _ _ _ Hix))); cycle 1.
  { intros e c s He. split; [by eapply (cover_pos auth skey db Hix)|by eapply Hmax]. }
  assert (∀ e x, (e, x) ∈ pC ++ pA → chains !! e = Some x) as HpCA.
  { intros e x [?|?]%elem_of_app; auto. }
  assert ((∃ e c' s', (e, (c', s')) ∈ pC ++ pA ∧ c' ∈ dom links ∧ rtc (is_auth auth) e f) ↔
    ∃ e, e ∈ C ∪ A ∧ linked db e ∧ rtc (is_auth auth) e f) as Hback.
  { split.
    - intros (e & c' & s' & Hin & Hd & Hr).
      assert (e ∈ C ∪ A ∧ chains !! e = Some (c', s')) as [He Hce].
      { rewrite elem_of_app HC HA in Hin. rewrite elem_of_union. tauto. }
      exists e. split_and!; [done| |done]. exists c', s'. split; [done|]. by eapply Hdom.
    - intros (e & He & (c' & s' & Hce & Hl) & Hr). exists e, c', s'. split_and!; [|by eapply Hdom|done].
      rewrite elem_of_app HC HA. rewrite elem_of_union in He. tauto. }
  assert ((∃ e x, (e, x) ∈ map_to_list (list_to_map pC : gmap string position) ∧ rtc (is_auth auth) f e) ↔
    ∃ e, e ∈ C ∧ rtc (is_auth auth) f e) as Hfront.
  { split.
    - intros (e & x & Hin & Hr). apply Hfin, HC in Hin as [? _]. eauto.
    - intros (e & He & Hr). assert (e ∈ dom chains) as [x Hx]%elem_of_dom by (apply Hsub; set_solver).
      exists e, x. split; [|done]. by apply Hfin, HC. }
  assert (∀ e x, (e, x) ∈ map_to_list (list_to_map pC : gmap string position) → chains !! e = Some x) as Hmap.
  { intros e x ?%Hfin. auto. }
  unfold in_subgraph. rewrite -Hback -Hfront. split.
  - intros (c & s & Hf & Hlo & Hhi).
    apply (backing_levels auth skey db Hix links (pC ++ pA) B f c s HpCA Hbk Hf) in Hhi.
    split; [done|]. eapply (fronting_levels auth skey db Hix Hmax links Hb _ F f c s); [done|done|done| |done].
    exact (backed_dom auth skey db Hix links Hb (pC ++ pA) f c s HpCA Hf Hhi).
  - intros [Hbf Hff].
    assert (f ∈ dom chains) as [[c s] Hf]%elem_of_dom.
    { destruct Hbf as (e & c' & s' & Hin & _ & Hr). apply elem_of_dom.
      eapply (cover_closed auth chains (table_link (db_links db)) (ix_cover _ _ _ Hix) e); [|done].
      exists (c', s'). by apply HpCA. }
    exists c, s. split; [done|]. split.
    + eapply (fronting_levels auth skey db Hix Hmax links Hb _ F f c s); [done|done|done| |done].
      exact (backed_dom auth skey db Hix links Hb (pC ++ pA) f c s HpCA Hf Hbf).
    + by eapply (backing_levels auth skey db Hix links (pC ++ pA) B f c s).
Qed.

(** The difference and the subgraph of indexed state sets. *)
Lemma index_subgraph_ok room_id state_sets C A :
  state_sets ≠ [] → C ∪ A ⊆ ⋃ state_sets → ⋃ state_sets ⊆ dom chains →
  size (chains_of db (⋃ state_sets)) ≤ 1000 →
  ∃ d G, _get_auth_chain_difference_using_cover_index_txn db room_id state_sets (Some C) A = Some (Ok d) ∧
    (∀ f, f ∈ auth_difference d ↔ in_difference (is_auth auth) state_sets f) ∧
    conflicted_subgraph d = Some G ∧ ∀ f, f ∈ G ↔ in_subgraph (is_auth auth) db C A f.
Proof.
  intros Hne HCA Hall Hsz. unfold _get_auth_chain_difference_using_cover_index_txn.
  destruct (union_all_ok state_sets Hne) as (initial & -> & Hin).
  assert (initial = ⋃ state_sets) as ->.
  { apply set_eq. intros e. rewrite Hin elem_of_union_list Exists_exists. done. }
  cbn [lift mbind run_bind]. rewrite !bool_decide_eq_false_2; [|intros H; apply H; set_solver..].
  cbn [raise_if mbind result_bind lift run_bind]. cbv zeta.
  pose proof (fetch_chain_info_ok db ∅ _ (⋃ state_sets) (chain_data_empty db)) as Hcd.
  rewrite left_id_L in Hcd. pose proof (seen_chains_of db (⋃ state_sets)) as Hseen.
  set (cd := fetch_chain_info _ _ _) in *.
  assert (⋃ state_sets ⊆ dom (chain_info cd)) as Hinfo.
  { intros e He. pose proof (Hall e He) as [x Hx]%elem_of_dom.
    apply (elem_of_dom_2 _ _ x), (cd_info _ _ _ Hcd). done. }
  assert (fixup_missing_chain_info db room_id state_sets (⋃ state_sets) cd =
    Some (Ok (∅, state_sets, cd))) as ->.
  { unfold fixup_missing_chain_info. rewrite decide_True //. by apply subseteq_empty_difference_L. }
  cbn [mbind run_bind].
  destruct (positions_of_ok cd C) as (pC & -> & HpC); [set_solver|].
  destruct (positions_of_ok cd A) as (pA & -> & HpA); [set_solver|].
  cbn [mbind result_bind lift run_bind].
  assert (Forall (λ S : gset string, S ⊆ ⋃ state_sets ∧ S ⊆ dom chains) state_sets) as HS.
  { apply Forall_forall. intros S HS.
    assert (S ⊆ ⋃ state_sets) by (intros e He; apply elem_of_union_list; eauto). split; [done|by etrans]. }
  destruct (diff_levels auth skey db Hix (Some pC) pA cd (⋃ state_sets) state_sets Hcd HS)
    as (sets0 & batches & st & -> & Hbat & Hf & Hse & HF).
  rewrite Hbat. cbn [mbind lift run_bind fueled fmap option_fmap option_map]. rewrite Hf.
  cbn [mbind lift run_bind fueled fmap option_fmap option_map].
  pose proof (auth_ranges_ok auth skey db Hix cd (⋃ state_sets) state_sets st ∅ Hcd Hne Hse HF) as Ha.
  destruct (auth_ranges _ _ _ _) as [res gaps] eqn:Er. cbn [fst snd] in Ha.
  assert (let acc := subgraph_ranges cd (ds_backwards st) (ds_forwards st) in
    ∀ f, f ∈ acc.1 ∪ _fetch_event_ids_from_chains_txn db acc.2 ↔ in_subgraph (is_auth auth) db C A f) as Hg.
  { destruct (decide (chains_of db (⋃ state_sets) = ∅)) as [Hempty|Hn].
    - assert (⋃ state_sets = ∅) as Hnone.
      { apply elem_of_equiv_empty_L. intros e He. pose proof (Hall e He) as [[c s] Hx]%elem_of_dom.
        apply (cd_seen _ _ _ Hcd e c s He) in Hx. rewrite Hseen Hempty in Hx. set_solver. }
      rewrite Hseen Hempty in Hbat. injection Hbat as <-. injection Hf as <-.
      cbv zeta. intros f. split; [|intros [(e & He & _) _]; apply HCA in He; set_solver].
      unfold subgraph_ranges. cbn [ds_backwards]. rewrite map_to_list_empty /=.
      intros [?|(c & s & lo & hi & _ & Hgap & _)%elem_of_fetch]%elem_of_union; [set_solver|].
      by rewrite lookup_empty in Hgap.
    - destruct (get_chain_links_single (db_links db) (chains_of db (⋃ state_sets)) Hsz Hn)
        as (links & Hl & Hb & Hd).
      rewrite Hseen Hl in Hbat. injection Hbat as <-. cbn [fold_opt] in Hf.
      apply bind_Some in Hf as (st' & Hf & [= ->]).
      eapply (single_batch_subgraph cd (⋃ state_sets) C A pC pA); [done|done| | | | |exact Hf].
      + intros e c s He Hce. apply Hd. rewrite -Hseen. eapply (cd_seen _ _ _ Hcd); [by apply HCA|exact Hce].
      + intros e x. rewrite HpC (cd_info _ _ _ Hcd). set_solver.
      + intros e x. rewrite HpA (cd_info _ _ _ Hcd). set_solver.
      + by etrans. }
  cbv zeta in Hg. destruct (subgraph_ranges _ _ _) as [res' gaps'] eqn:Er'. cbn [fst snd] in Hg.
  eexists _, _. split; [done|]. cbn [auth_difference conflicted_subgraph]. split_and!; [|done|exact Hg].
  intros f. rewrite Ha. split; [by intros [[]%not_elem_of_empty|[_ ?]]|]. intros Hd. right. split; [|done].
  destruct Hd as [(S & HSi & e & He & Hr)%Exists_exists _]. apply elem_of_dom.
  eapply (cover_closed auth chains (table_link (db_links db)) (ix_cover _ _ _ Hix) e); [|done].
  apply elem_of_dom, Hall, elem_of_union_list. eauto.
Qed.
End main.

(** C9: the conflicted subgraph of state resolution v2.1.  In every database
    reached by persisting events, for state sets of indexed events on at most 1000
    chains (one batch of links) in a room with an index,
    [get_auth_chain_difference_extended] returns the exact auth chain difference,
    and as conflicted subgraph exactly the events that have a conflicted event in
    their auth chain (or are one) and are themselves in the auth chain of a
    conflicted or additional event (or are one) whose chain has links. *)
Theorem conflicted_subgraph_correct (auth : string → list string) (skey : string → option string)
    (rank : string → nat) evict db cache room_id state_sets conflicted additional :
  (∀ e a, a ∈ auth e → rank a < rank e) → (∀ e, NoDup (auth e)) →
  history auth skey db → db_rooms db !! room_id = Some (Some true) →
  (∀ e c s, db_chains db !! e = Some (c, s) → (s < MAX_CHAIN_LENGTH)%Z) →
  state_sets ≠ [] → conflicted ∪ additional ⊆ ⋃ state_sets → ⋃ state_sets ⊆ dom (db_chains db) →
  size (chains_of db (⋃ state_sets)) ≤ 1000 →
  ∃ d G, get_auth_chain_difference_extended evict db cache room_id state_sets (Some conflicted)
           additional = Some (Ok (d, cache)) ∧
    (∀ f, f ∈ auth_difference d ↔ in_difference (is_auth auth) state_sets f) ∧
    conflicted_subgraph d = Some G ∧
    ∀ f, f ∈ G ↔ in_subgraph (is_auth auth) db conflicted additional f.
Proof.
  intros Hr Hnd Hh Hroom Hmax Hne HCA Hall Hsz.
  pose proof (history_index auth skey rank db Hr Hnd Hh) as Hix.
  destruct (index_subgraph_ok auth skey db Hix Hmax room_id state_sets conflicted additional Hne HCA Hall Hsz)
    as (d & G & Hd & H1 & H2 & H3).
  exists d, G. split_and!; [|done..]. unfold get_auth_chain_difference_extended.
  rewrite Hroom Hd. cbn [of_option lift mbind run_bind]. by rewrite bool_decide_eq_true_2.
Qed.
