(* ===== verification/AuthChainExamples.v ===== *)
(** The auth chain index on concrete rooms: instances of the theorems, and the
    inputs on which the queries miss what they are meant to find. *)
From S2P Require Import Prelude IterUtils ChainLinks ChainLinksProps ChainLinksWalk ChainCover.
From S2P Require Import ChainCoverInv ChainCoverGather ChainCoverPersist AuthChain AuthChainProps.
From S2P Require Import AuthChainWalk AuthDiff AuthDiffProps AuthDiffFixup AuthDiffWalk AuthDiffSubgraph.

(** A room: its creation, the creator's join, two power levels events, and the
    memberships of others, one of which names an event that is not stored. *)
Definition ex_auth (e : string) : list string :=
  if decide (e = "$join") then ["$create"]
  else if decide (e = "$power") then ["$create"; "$join"]
  else if decide (e = "$alice") then ["$create"; "$power"]
  else if decide (e = "$power2") then ["$create"; "$join"; "$power"]
  else if decide (e = "$bob") then ["$create"; "$alice"; "$power2"]
  else if decide (e = "$late") then ["$create"; "$lost"]
  else if decide (e = "$carol") then ["$create"; "$power2"]
  else if decide (e = "$kick") then ["$create"; "$carol"]
  else [].

Definition ex_skey (e : string) : option string :=
  if decide (e ∈ ["$power"; "$power2"]) then Some "power" else Some e.

Definition ex_rank (e : string) : nat :=
  if decide (e = "$join") then 1
  else if decide (e = "$power") then 2
  else if decide (e ∈ ["$alice"; "$power2"]) then 3
  else if decide (e = "$bob") then 4
  else if decide (e = "$late") then 1
  else if decide (e = "$carol") then 5
  else if decide (e = "$kick") then 6
  else 0.

Definition ex_event (e : string) (depth : Z) : new_event :=
  mkNewEvent e "!r" "t" (ex_skey e) depth false (ex_auth e).

Definition ex_start : database := mkDatabase {["!r" := Some true]} ∅ [] ∅ [] ∅ 0.

Definition ex_first : list new_event :=
  [ex_event "$create" 1; ex_event "$join" 2; ex_event "$power" 3].

Definition ex_second : list new_event :=
  [ex_event "$alice" 4; ex_event "$power2" 4; ex_event "$bob" 5; ex_event "$late" 6].

Definition run_get {A} (d : A) (r : run A) : A :=
  match r with Some (Ok x) => x | _ => d end.

Definition ex_db1 : database := run_get ex_start (persist_events ex_start "!r" ex_first).
Definition ex_db2 : database := run_get ex_start (persist_events ex_db1 "!r" ex_second).


Lemma ex_rank_lt e a : a ∈ ex_auth e → ex_rank a < ex_rank e.
Proof.
  unfold ex_auth. repeat (case_decide; [subst; intros Hin; repeat
    (apply elem_of_cons in Hin as [->|Hin]; [by apply Nat.ltb_lt|]); by apply elem_of_nil in Hin|]).
  by intros ?%elem_of_nil.
Qed.

Lemma ex_auth_nodup e : NoDup (ex_auth e).
Proof.
  unfold ex_auth. repeat (case_decide; [apply (bool_decide_unpack _); by vm_compute|]). constructor.
Qed.

Lemma ex_consistent l :
  forallb (λ e, bool_decide (ne_auth_events e = ex_auth (ne_event_id e) ∧
    ne_state_key e = ex_skey (ne_event_id e) ∧ str_nonempty (ne_room_id e) = true)) l = true →
  Forall (consistent ex_auth ex_skey) l.
Proof.
  intros H. apply Forall_forall. intros e He. rewrite forallb_forall in H.
  by apply list_elem_of_In, H, bool_decide_eq_true in He.
Qed.

Lemma ex_history1 : history ex_auth ex_skey ex_db1.
Proof.
  apply (hist_persist _ _ ex_start "!r" ex_first); [apply hist_start|by apply ex_consistent|by vm_compute].
Qed.

Lemma ex_history2 : history ex_auth ex_skey ex_db2.
Proof.
  apply (hist_persist _ _ ex_db1 "!r" ex_second); [apply ex_history1|by apply ex_consistent|by vm_compute].
Qed.

(** Persisting the second chunk: [chain_cover_correct] holds of it. *)
Lemma chain_cover_correct_witness :
  ∃ db', persist_events ex_db1 "!r" ex_second = Some (Ok db') ∧
    (∀ e f x y, db_chains db' !! e = Some x → db_chains db' !! f = Some y →
       (x = y → e = f) ∧
       (reach (table_link (db_links db')) x y ↔ e = f ∨ auth_chain ex_auth e f)) ∧
    (∀ e, e ∈ dom (db_chains ex_db1) → e ∈ dom (db_chains db')) ∧
    (db_rooms ex_db1 !! "!r" = Some (Some true) → ∀ ev, ev ∈ ex_second → is_state ev = true →
       ne_event_id ev ∈ dom (db_chains db') ∨
       ∃ a, auth_chain ex_auth (ne_event_id ev) a ∧ ¬ stored db' a).
Proof.
  apply (chain_cover_correct ex_auth ex_skey ex_rank).
  - apply ex_rank_lt.
  - apply ex_auth_nodup.
  - apply ex_history1.
  - by apply ex_consistent.
Defined.

Definition no_evict (cache : gmap string (list (string * Z))) := cache.

Lemma ex_no_evict cache : no_evict cache ⊆ cache.
Proof. done. Qed.

Lemma ex_empty_cache db : cache_ok db ∅.
Proof. intros e rows. by rewrite lookup_empty. Qed.

Lemma get_auth_chain_ids_correct_witness :
  ∃ R cache', get_auth_chain_ids no_evict ex_db2 ∅ "!r" {["$bob"; "$late"]} false =
      Some (Ok (R, cache')) ∧ cache_ok ex_db2 cache' ∧
    ∀ f, f ∈ R ↔ (false = true ∧ f ∈ ({["$bob"; "$late"]} : gset string)) ∨
      ∃ e, e ∈ ({["$bob"; "$late"]} : gset string) ∧ tc (stored_edge ex_db2) e f.
Proof.
  apply (get_auth_chain_ids_correct ex_auth ex_skey ex_rank no_evict ex_db2 ∅ "!r" (Some true)).
  - apply ex_rank_lt.
  - apply ex_auth_nodup.
  - apply ex_history2.
  - apply ex_no_evict.
  - apply ex_empty_cache.
  - by vm_compute.
Defined.

(** One event of the second state set waits for an auth event. *)
Definition ex_sets : list (gset string) :=
  [{["$alice"; "$power2"; "$late"]}; {["$bob"; "$power2"]}].

Lemma get_auth_chain_difference_correct_witness :
  ∃ D cache', get_auth_chain_difference no_evict ex_db2 ∅ "!r" ex_sets = Some (Ok (D, cache')) ∧
    cache_ok ex_db2 cache' ∧
    (Some true = Some true →
     Forall (λ S, S ⊆ dom (db_chains ex_db2) ∪ dom (waiting_auth ex_db2 "!r")) ex_sets →
     ∀ f, f ∈ D ↔ in_difference (known_edge ex_db2 "!r") ex_sets f) ∧
    (Some true ≠ Some true ∨
     ¬ Forall (λ S, S ⊆ dom (db_chains ex_db2) ∪ dom (waiting_auth ex_db2 "!r")) ex_sets →
     (∀ f, in_difference (stored_edge ex_db2) ex_sets f → f ∈ D) ∧
     (∀ f, f ∈ D → Exists (λ S, reaches (stored_edge ex_db2) S f) ex_sets)).
Proof.
  apply (get_auth_chain_difference_correct ex_auth ex_skey ex_rank no_evict ex_db2 ∅ "!r" (Some true)).
  - apply ex_rank_lt.
  - apply ex_auth_nodup.
  - apply ex_history2.
  - apply ex_no_evict.
  - apply ex_empty_cache.
  - by vm_compute.
  - done.
Defined.

(** The events of a difference, in their order in the set. *)
Definition found_ids (r : run (gset string * gmap string (list (string * Z))))
    : run (list string) :=
  '(ids, _) ← r; mret (elements (ids : gset string)).

Example ex_difference :
  Forall (λ S, S ⊆ dom (db_chains ex_db2) ∪ dom (waiting_auth ex_db2 "!r")) ex_sets ∧
  found_ids (get_auth_chain_difference no_evict ex_db2 ∅ "!r" ex_sets) =
    Some (Ok ["$bob"; "$lost"; "$late"]).
Proof. split; [apply (bool_decide_unpack _)|]; by vm_compute. Qed.

Definition ex_conflict : list (gset string) :=
  [{["$join"; "$power"]}; {["$alice"; "$power2"; "$bob"]}].

Lemma conflicted_subgraph_correct_witness :
  ∃ d G, get_auth_chain_difference_extended no_evict ex_db2 ∅ "!r" ex_conflict
           (Some {["$join"; "$power2"]}) {["$bob"]} = Some (Ok (d, ∅)) ∧
    (∀ f, f ∈ auth_difference d ↔ in_difference (is_auth ex_auth) ex_conflict f) ∧
    conflicted_subgraph d = Some G ∧
    ∀ f, f ∈ G ↔ in_subgraph (is_auth ex_auth) ex_db2 {["$join"; "$power2"]} {["$bob"]} f.
Proof.
  apply (conflicted_subgraph_correct ex_auth ex_skey ex_rank).
  - apply ex_rank_lt.
  - apply ex_auth_nodup.
  - apply ex_history2.
  - by vm_compute.
  - assert (map_Forall (λ _ p, (p.2 < MAX_CHAIN_LENGTH)%Z) (db_chains ex_db2)) as H
      by (apply (bool_decide_unpack _); by vm_compute).
    intros e c s He. exact (H e (c, s) He).
  - done.
  - apply (bool_decide_unpack _). by vm_compute.
  - apply (bool_decide_unpack _). by vm_compute.
  - apply Nat.leb_le. by vm_compute.
Defined.

(** A conflicted event that waits for the index. *)
Example conflicted_waiting :
  get_auth_chain_difference_extended no_evict ex_db2 ∅ "!r" [{["$late"]}; {["$power"]}]
    (Some {["$late"; "$power"]}) ∅ = Some (Raise KeyError).
Proof. by vm_compute. Qed.

(** ** The walk may stop too early *)

(** [$v] and [$w] name [$u], which names [$x]; the others name the creation. *)
Definition early_event (e : string) (depth : Z) (auths : list string) : new_event :=
  mkNewEvent e "!o" "t" (Some e) depth false auths.

Definition early_db : database :=
  run_get ex_start (persist_events (mkDatabase {["!o" := None]} ∅ [] ∅ [] ∅ 0) "!o"
    [early_event "$create" 1 []; early_event "$x" 2 ["$create"]; early_event "$u" 3 ["$x"];
     early_event "$v" 4 ["$create"; "$u"]; early_event "$w" 4 ["$create"; "$u"]]).

(** [$x] is reached from both state sets, and is in the difference that the walk
    returns: it stops when it is at [$u], before it learns that [$v] reaches
    [$x]. *)
Example walk_stops_early :
  Forall (λ S, reaches (stored_edge early_db) S "$x") [{["$v"]}; {["$w"; "$x"]}] ∧
  found_ids (get_auth_chain_difference no_evict early_db ∅ "!o" [{["$v"]}; {["$w"; "$x"]}]) =
    Some (Ok ["$w"; "$v"; "$x"]).
Proof.
  split; [|by vm_compute]. constructor; [|constructor; [|constructor]].
  - exists "$v". split; [set_solver|]. eapply rtc_l; [|eapply rtc_l; [|constructor]].
    + instantiate (1 := "$u"). split; apply (bool_decide_unpack _); by vm_compute.
    + split; apply (bool_decide_unpack _); by vm_compute.
  - exists "$x". split; [set_solver|constructor].
Qed.

(** ** Forward links of a second batch *)

(** The chains of the docstring: [G] of chain 2 names [C] of chain 1, and [J] of
    chain 3 names [H] of chain 2; [B] and [K] are conflicted. *)
Definition fwd_conflicted : gmap string position := {["B" := (1, 2)%Z; "K" := (3, 2)%Z]}.
Definition fwd_batch1 : chain_links := {[2%Z := [(1, 1, 3)%Z]]}.
Definition fwd_batch2 : chain_links := {[2%Z := [(1, 1, 3)%Z]; 3%Z := [(1, 2, 2)%Z]]}.

(** After both batches chain 3 is taken to be reached from [K] on, and not from
    [J] on, which the second batch alone finds. *)
Example second_batch_skipped :
  (forwards ← accumulate_forwards_reachable_events ∅ fwd_batch1 fwd_conflicted;
   forwards ← accumulate_forwards_reachable_events forwards fwd_batch2 fwd_conflicted;
   (forwards : gmap Z Z) !! 3%Z) = Some 2%Z ∧
  (forwards ← accumulate_forwards_reachable_events ∅ fwd_batch2 fwd_conflicted;
   (forwards : gmap Z Z) !! 3%Z) = Some 1%Z.
Proof. split; by vm_compute. Qed.

(** ** An auth event that is named twice *)
Definition twice_db : database :=
  run_get ex_start (persist_events ex_start "!r"
    [early_event "$create" 1 []; early_event "$join" 2 ["$create"; "$create"]]).

(** The link to it is dropped, and the index has lost it. *)
Example duplicate_auth_event_lost :
  select_auth twice_db "$join" = ["$create"; "$create"] ∧
  "$join" ∈ dom (db_chains twice_db) ∧ db_links twice_db = [] ∧
  found_ids (get_auth_chain_ids no_evict twice_db ∅ "!r" {["$join"]} false) = Some (Ok []).
Proof.
  split_and!; [by vm_compute|apply (bool_decide_unpack _); by vm_compute|by vm_compute..].
Qed.
