(* ===== verification/StateResAuthDiff.v ===== *)
(** State resolution over the chain cover index: the auth chain difference that
    [_get_auth_chain_difference] of [state/v2.py] computes, part of it itself for
    events that are not persisted yet and part of it in the database. *)
From stdpp Require Import ssreflect.
From S2P Require Import Prelude Identifiers Events EventAuth StateRes ChainLinks ChainLinksWalk ChainCover ChainCoverInv.
From S2P Require Import ChainCoverGather ChainCoverPersist AuthChain AuthChainWalk AuthDiff AuthDiffProps AuthDiffFixup.

(** The store of state resolution, over the database.  It raises nothing on the
    state sets of the theorem below. *)
Definition index_store (evict : gmap string (list (string * Z)) → gmap string (list (string * Z)))
    (db : database) (cache : gmap string (list (string * Z)))
    (room_id : string) (state_sets : list (gset string)) (conflicted_state : option (gset string))
    (additional : gset string) : gset string * option (gset string) :=
  match get_auth_chain_difference_extended evict db cache room_id state_sets conflicted_state
          additional with
  | Some (Ok (d, _)) => (auth_difference d, conflicted_subgraph d)
  | _ => (∅, None)
  end.

Lemma m_bind_ok {A B} (m : M A) (f : A → M B) em x em' :
  m em = Some (Ok (x, em')) → (m ≫= f) em = f x em'.
Proof. unfold mbind, M_bind. by intros ->. Qed.

(** ** The traversal of the unpersisted events *)
Section chains.
Context (auth : string → list string) (rank : string → nat).
Context (rank_lt : ∀ e a, a ∈ auth e → rank a < rank e).
Context (unp : gmap string event).
Context (Hunp : ∀ i e, unp !! i = Some e → event_id e = i ∧ auth_event_ids e = Ok (auth i)).

Definition uedge (e a : string) : Prop := e ∈ dom unp ∧ a ∈ auth e.

(** What one turn pushes. *)
Lemma push_fold (next : string) auth_ids (chain : gset string) links stack :
  ∃ links', foldl (λ '(chain, links, to_search) auth_id,
      ({[auth_id]} ∪ chain, set_add links auth_id next,
       match unp !! auth_id with
       | Some auth_event => auth_event :: to_search
       | None => to_search
       end)) (chain, links, stack) auth_ids =
    (list_to_set auth_ids ∪ chain, links', reverse (omap (unp !!.) auth_ids) ++ stack).
Proof.
  revert chain links stack. induction auth_ids as [|a l IH]; intros chain links stack; simpl.
  - exists links. by rewrite left_id_L.
  - destruct (IH ({[a]} ∪ chain) (set_add links a next)
      (match unp !! a with Some e => e :: stack | None => stack end)) as (links' & ->).
    exists links'. f_equal; [f_equal; set_solver|].
    destruct (unp !! a) as [e|]; simpl; [|done]. by rewrite reverse_cons -app_assoc.
Qed.

(** Searching from an event uses up a number of turns and adds what it
    reaches. *)
Definition searched (e : event) (n : nat) (S : gset string) : Prop :=
  ∀ fuel chain links stack em, ∃ links',
    chain_search (n + fuel) unp chain links (e :: stack) em =
    chain_search fuel unp (S ∪ chain) links' stack em.

Lemma search_list l :
  Forall (λ e, ∃ n S, searched e n S ∧ ∀ f, f ∈ S ↔ tc uedge (event_id e) f) l →
  ∃ n (S : gset string), (∀ f, f ∈ S ↔ ∃ e, e ∈ l ∧ tc uedge (event_id e) f) ∧
    ∀ fuel chain links stack em, ∃ links',
      chain_search (n + fuel) unp chain links (l ++ stack) em =
      chain_search fuel unp (S ∪ chain) links' stack em.
Proof.
  induction 1 as [|e l (n & S & Hn & HS) _ (n' & S' & HS' & Hn')].
  - exists 0, ∅. split; [set_solver|]. intros. exists links. by rewrite (left_id_L ∅ (∪)).
  - exists (n + n'), (S' ∪ S). split.
    + intros f. rewrite elem_of_union HS HS'. setoid_rewrite elem_of_cons. naive_solver.
    + intros fuel chain links stack em. rewrite -Nat.add_assoc. simpl.
      destruct (Hn (n' + fuel) chain links (l ++ stack) em) as (links1 & ->).
      destruct (Hn' fuel (S ∪ chain) links1 stack em) as (links2 & ->). exists links2.
      by rewrite assoc_L.
Qed.

Lemma search_ok e :
  unp !! event_id e = Some e → ∃ n S, searched e n S ∧ ∀ f, f ∈ S ↔ tc uedge (event_id e) f.
Proof.
  remember (rank (event_id e)) as r eqn:Hr. revert e Hr.
  induction (lt_wf r) as [r _ IH]. intros e -> He.
  destruct (Hunp _ _ He) as [_ Hauth].
  destruct (search_list (reverse (omap (unp !!.) (auth (event_id e))))) as (n & S & HS & Hn).
  { apply Forall_forall. intros e' Hin. apply elem_of_reverse, list_elem_of_omap in Hin as (a & Ha & Hea).
    destruct (Hunp _ _ Hea) as [Hid _]. eapply IH; [|done|by rewrite Hid]. rewrite Hid. by apply rank_lt. }
  exists (Datatypes.S n), (S ∪ list_to_set (auth (event_id e))). split.
  - intros fuel chain links stack em. simpl. unfold m_lift, mbind, M_bind. rewrite Hauth.
    destruct (push_fold (event_id e) (auth (event_id e)) chain links stack) as (links' & ->).
    destruct (Hn fuel (list_to_set (auth (event_id e)) ∪ chain) links' stack em) as (links'' & ->).
    exists links''. by rewrite assoc_L.
  - intros f. rewrite elem_of_union elem_of_list_to_set HS. split.
    + assert (event_id e ∈ dom unp) as Hd by (by eapply elem_of_dom_2).
      intros [(e' & Hin & Hf)|Hf]; [|by apply tc_once].
      apply elem_of_reverse, list_elem_of_omap in Hin as (a & Ha & Hea).
      destruct (Hunp _ _ Hea) as [Hid _]. rewrite Hid in Hf. by eapply tc_l.
    + intros Ht. inversion Ht as [x y [_ Hy]|x y z [_ Hy] Hyz]; subst; [by right|].
      destruct (decide (f ∈ auth (event_id e))); [by right|]. left.
      assert (y ∈ dom unp) as [e' He']%elem_of_dom by (inversion Hyz as [? ? [? _]|? ? ? [? _]]; done).
      exists e'. destruct (Hunp _ _ He') as [Hid _]. rewrite Hid. split; [|done].
      apply elem_of_reverse, list_elem_of_omap. eauto.
Qed.

(** Enough turns, for every event. *)
Lemma auth_chains_ok :
  ∃ fuel0, ∀ fuel em, fuel0 ≤ fuel → ∃ chains links,
    auth_chains fuel unp em = Some (Ok ((chains, links), em)) ∧
    ∀ i, match chains !! i with
         | Some c => i ∈ dom unp ∧ ∀ f, f ∈ c ↔ rtc uedge i f
         | None => i ∉ dom unp
         end.
Proof.
  assert (∀ l : list (string * event), (∀ i e, (i, e) ∈ l → unp !! i = Some e) →
    ∃ fuel0, ∀ fuel em chains links, fuel0 ≤ fuel → ∃ chains' links',
      m_fold (λ '(chains, links) (e : event),
        '(chain, links) ← chain_search fuel unp {[event_id e]} links [e];
        mret (<[event_id e := chain]> chains, links)) l.*2 (chains, links) em =
        Some (Ok ((chains', links'), em)) ∧
      ∀ i, if decide (i ∈ l.*1) then ∃ c, chains' !! i = Some c ∧ ∀ f, f ∈ c ↔ rtc uedge i f
           else chains' !! i = (chains : gmap string (gset string)) !! i) as Hgo.
  { induction l as [|[i e] l IH]; intros Hl.
    - exists 0. intros fuel em chains links _. by exists chains, links.
    - assert (unp !! i = Some e) as Hi by (apply Hl; by left).
      destruct (Hunp _ _ Hi) as [Hid _].
      destruct (search_ok e) as (n & S & Hn & HS); [by rewrite Hid|].
      destruct IH as (fuel0 & IH); [intros; apply Hl; by right|]. exists (n + fuel0).
      intros fuel em chains links Hf. cbn [m_fold fmap list_fmap snd].
      destruct (Hn (fuel - n) {[event_id e]} links [] em) as (links1 & Hs).
      replace (n + (fuel - n)) with fuel in Hs by lia.
      assert (chain_search fuel unp {[event_id e]} links [e] em =
        Some (Ok ((S ∪ {[event_id e]}, links1), em))) as Hse by (rewrite Hs; by destruct (fuel - n)).
      erewrite m_bind_ok; [|by rewrite (m_bind_ok _ _ _ _ _ Hse)].
      destruct (IH fuel em (<[event_id e := S ∪ {[event_id e]}]> chains) links1) as (chains' & links' & -> & Hc);
        [lia|]. exists chains', links'. split; [done|]. intros j. specialize (Hc j).
      cbn [fmap list_fmap fst]. destruct (decide (j ∈ l.*1)) as [Hj|Hj].
      + rewrite decide_True; [|by right]. done.
      + destruct (decide (j = i)) as [-> |Hne].
        * rewrite decide_True; [|by left]. rewrite Hc Hid lookup_insert_eq. eexists. split; [done|].
          intros f. rewrite elem_of_union elem_of_singleton HS Hid rtc_tc. naive_solver.
        * rewrite decide_False; [|by intros [?|?]%elem_of_cons]. rewrite Hc lookup_insert_ne //.
          by rewrite Hid. }
  destruct (Hgo (map_to_list unp)) as (fuel0 & Hf).
  { intros i e. by rewrite elem_of_map_to_list. }
  exists fuel0. intros fuel em Hle. destruct (Hf fuel em ∅ ∅ Hle) as (chains & links & Hr & Hc).
  exists chains, links. split; [exact Hr|]. intros i. specialize (Hc i).
  assert (i ∈ (map_to_list unp).*1 ↔ i ∈ dom unp) as Hin.
  { rewrite list_elem_of_fmap elem_of_dom. split.
    - intros ([j e] & -> & He%elem_of_map_to_list). by exists e.
    - intros [e He]. exists (i, e). split; [done|]. by apply elem_of_map_to_list. }
  case_decide as Hd; rewrite Hin in Hd.
  - destruct Hc as (c & -> & Hc). done.
  - by rewrite Hc lookup_empty.
Qed.
End chains.

(** ** The two parts *)
Section parts.
Context (auth : string → list string) (skey : string → option string).
Context (db : database) (Hix : index_ok auth skey db).
Context (unp : gmap string event).
(** Unpersisted events name events that are indexed or unpersisted too. *)
Context (Hnew : ∀ i, i ∈ dom unp → i ∉ dom (db_chains db)).
Context (Hclosed : ∀ i a, i ∈ dom unp → a ∈ auth i → a ∈ dom unp ∨ a ∈ dom (db_chains db)).
Abbreviation chains := (db_chains db).
Abbreviation is_auth := (is_auth auth).
Abbreviation uedge := (uedge auth unp).

Lemma indexed_rtc e f : e ∈ dom chains → rtc is_auth e f → f ∈ dom chains.
Proof.
  intros He Hr. apply elem_of_dom.
  eapply (cover_closed auth chains (table_link (db_links db)) (ix_cover _ _ _ Hix) e); [|done].
  by apply elem_of_dom.
Qed.

Lemma uedge_rtc e f : rtc uedge e f → rtc is_auth e f.
Proof. apply rtc_subrel. by intros x y [_ ?]. Qed.

Lemma uedge_end e f : rtc uedge e f → e ∈ dom unp → f ∈ dom unp ∨ f ∈ dom chains.
Proof.
  intros Hr He. apply rtc_inv_r in Hr as [<-|(g & _ & [Hg Hf])]; [by left|]. by apply (Hclosed g).
Qed.

Lemma unpersisted_split e f :
  rtc is_auth e f → e ∈ dom unp →
  rtc uedge e f ∨ ∃ a, rtc uedge e a ∧ a ∈ dom chains ∧ rtc is_auth a f.
Proof.
  induction 1 as [e|e g f Hg Hr IH]; intros He; [by left|].
  assert (uedge e g) as Hu by done. destruct (Hclosed e g He Hg) as [Hd|Hd].
  - destruct (IH Hd) as [?|(a & Ha & ?)]; [left; by eapply rtc_l|].
    right. exists a. split; [by eapply rtc_l|done].
  - right. exists g. split_and!; [by apply rtc_once|done|done].
Qed.

Context (cm : gmap string (gset string)).
Context (Hcm : ∀ i, match cm !! i with
  | Some c => i ∈ dom unp ∧ ∀ f, f ∈ c ↔ rtc uedge i f
  | None => i ∉ dom unp
  end).

Definition values_of (S : StateMap string) : gset string := list_to_set (map_to_list S).*2.

Lemma split_state_set_ok S :
  (∀ f, f ∈ (split_state_set unp cm S).1 ↔
     ∃ e, e ∈ values_of S ∧
       ((e ∈ dom unp ∧ f ∉ dom unp ∧ rtc uedge e f) ∨ (e ∉ dom unp ∧ f = e))) ∧
  (∀ f, f ∈ (split_state_set unp cm S).2 ↔
     ∃ e, e ∈ values_of S ∧ e ∈ dom unp ∧ f ∈ dom unp ∧ rtc uedge e f).
Proof.
  unfold split_state_set, values_of.
  assert (∀ l : list string,
    let acc := foldl (λ '(set_ids, unpersisted_ids) event_id,
      match cm !! event_id with
      | Some event_chain =>
          (filter (λ e, e ∉ dom unp) event_chain ∪ set_ids,
           filter (λ e, e ∈ dom unp) event_chain ∪ unpersisted_ids)
      | None => ({[event_id]} ∪ set_ids, unpersisted_ids)
      end) (∅ : gset string, ∅ : gset string) l in
    (∀ f, f ∈ acc.1 ↔ ∃ e, e ∈ l ∧
       ((e ∈ dom unp ∧ f ∉ dom unp ∧ rtc uedge e f) ∨ (e ∉ dom unp ∧ f = e))) ∧
    (∀ f, f ∈ acc.2 ↔ ∃ e, e ∈ l ∧ e ∈ dom unp ∧ f ∈ dom unp ∧ rtc uedge e f)) as Hgo.
  { induction l as [|x l IH] using rev_ind; cbv zeta; [simpl; set_solver|]. rewrite foldl_snoc.
    destruct (foldl _ _ l) as [ids up]. cbn [fst snd] in IH. destruct IH as [I1 I2].
    setoid_rewrite elem_of_app. setoid_rewrite list_elem_of_singleton.
    specialize (Hcm x). destruct (cm !! x) as [c|]; [destruct Hcm as [Hx Hc]|]; cbn [fst snd]; split; intros f.
    - rewrite elem_of_union elem_of_filter Hc I1.
      split; [intros [?|(e & He & ?)]; [exists x|exists e]; tauto|].
      intros (e & [He| ->] & ?); [right; exists e; tauto|left; tauto].
    - rewrite elem_of_union elem_of_filter Hc I2.
      split; [intros [?|(e & He & ?)]; [exists x|exists e]; tauto|].
      intros (e & [He| ->] & ?); [right; exists e; tauto|left; tauto].
    - rewrite elem_of_union elem_of_singleton I1.
      split; [intros [?|(e & He & ?)]; [exists x|exists e]; tauto|].
      intros (e & [He| ->] & ?); [right; exists e; tauto|destruct (decide (f = x)); [by left|tauto]].
    - rewrite I2. split; [intros (e & He & ?); exists e; tauto|].
      intros (e & [He| ->] & ?); [exists e; tauto|tauto]. }
  destruct (Hgo (map_to_list S).*2) as [G1 G2]. split; intros f.
  - rewrite G1. by setoid_rewrite elem_of_list_to_set.
  - rewrite G2. by setoid_rewrite elem_of_list_to_set.
Qed.

Lemma split_reaches S :
  values_of S ⊆ dom unp ∪ dom chains →
  (split_state_set unp cm S).1 ⊆ dom chains ∧
  (∀ f, f ∈ (split_state_set unp cm S).2 ↔ f ∈ dom unp ∧ reaches is_auth (values_of S) f) ∧
  (∀ f, f ∈ dom chains →
     reaches is_auth (values_of S) f ↔ reaches is_auth (split_state_set unp cm S).1 f).
Proof.
  intros HS. destruct (split_state_set_ok S) as [H1 H2]. destruct (split_state_set unp cm S) as [ids up].
  cbn [fst snd] in *. split_and!.
  - intros f (e & He & [(Hu & Hn & Hr)|[Hn ->]])%H1.
    + by destruct (uedge_end e f Hr Hu).
    + apply HS, elem_of_union in He as [?|?]; done.
  - intros f. rewrite H2. split.
    + intros (e & He & _ & Hf & Hr). split; [done|]. exists e. split; [done|by apply uedge_rtc].
    + intros [Hf (e & He & Hr)]. exists e. pose proof (proj1 (elem_of_union _ _ _) (HS e He)) as Hc.
      destruct Hc as [Hu|Hc]; [|by apply (indexed_rtc e f) in Hr; [|done]; destruct (Hnew f)].
      split_and!; [done|done|done|]. destruct (unpersisted_split e f Hr Hu) as [?|(a & _ & Ha & Haf)]; [done|].
      apply (indexed_rtc a f Ha) in Haf. by destruct (Hnew f).
  - intros f Hf. split.
    + intros (e & He & Hr). pose proof (proj1 (elem_of_union _ _ _) (HS e He)) as Hc. destruct Hc as [Hu|Hc].
      * assert (∀ a, rtc uedge e a → a ∈ dom chains → a ∈ ids) as Hin.
        { intros a Ha Hd. apply H1. exists e. split; [done|]. left. split_and!; [done| |done].
          intros ?%Hnew. done. }
        destruct (unpersisted_split e f Hr Hu) as [?|(a & Ha & Hd & Haf)].
        -- exists f. split; [by apply Hin|constructor].
        -- exists a. split; [by apply Hin|done].
      * exists e. split; [|done]. apply H1. exists e. split; [done|]. right. split; [|done].
        intros ?%Hnew. done.
    + intros (a & (e & He & [(Hu & _ & Ha)|[_ ->]])%H1 & Hr).
      * exists e. split; [done|]. etrans; [by apply uedge_rtc|done].
      * by exists e.
Qed.
End parts.

Lemma union_minus_intersection_ok l :
  l ≠ [] → ∃ D, union_minus_intersection l = Ok D ∧
    ∀ f, f ∈ D ↔ Exists (λ s : gset string, f ∈ s) l ∧ ¬ Forall (λ s : gset string, f ∈ s) l.
Proof.
  intros Hne. destruct (union_all_ok l Hne) as (U & HU & HUin).
  destruct (intersection_all_ok l Hne) as (I & HI & HIin). destruct l as [|s l]; [done|].
  injection HU as <-. injection HI as <-. eexists. split; [done|].
  intros f. by rewrite elem_of_difference HUin HIin.
Qed.

(** The database answers for indexed state sets. *)
Lemma index_store_ok auth skey db evict cache room_id sets :
  index_ok auth skey db → db_rooms db !! room_id = Some (Some true) → sets ≠ [] →
  Forall (λ S : gset string, S ⊆ dom (db_chains db)) sets →
  ∃ D G, index_store evict db cache room_id sets None ∅ = (D, G) ∧ default ∅ G = ∅ ∧
    ∀ f, f ∈ D ↔ f ∈ dom (db_chains db) ∧ in_difference (is_auth auth) sets f.
Proof.
  intros Hix Hroom Hne Hall.
  destruct (index_difference_ok auth skey db Hix room_id sets Hne) as (d & Hd & Hin & Hg).
  { eapply Forall_impl; [exact Hall|]. intros S HS e He. left. by apply HS. }
  exists (auth_difference d), (conflicted_subgraph d). unfold index_store, get_auth_chain_difference_extended.
  rewrite Hroom. cbn [of_option lift mbind run_bind]. rewrite bool_decide_eq_true_2; [|done].
  rewrite Hd. split_and!; [done|done|]. intros f. rewrite Hin.
  assert (∀ S, S ∈ sets → reaches (known_edge db room_id) S f ↔
    f ∈ dom (db_chains db) ∧ reaches (is_auth auth) S f) as Hr.
  { intros S HS. rewrite Forall_forall in Hall. split.
    - intros (e & He & Hr). apply (known_rtc_indexed auth skey db Hix) in Hr as [Hr Hf]; [|by apply (Hall S)].
      split; [done|]. by exists e.
    - intros [Hf (e & He & Hr)]. exists e. split; [done|].
      apply (known_rtc_indexed auth skey db Hix); [by apply (Hall S)|done]. }
  unfold in_difference. rewrite !Exists_exists !Forall_forall. split.
  - intros [(S & HS & [Hf HSf]%Hr) Hn]; [|done]. split_and!; [done|by exists S|].
    intros HA. apply Hn. intros S' HS'. apply Hr; [done|]. split; [done|by apply HA].
  - intros [Hf [(S & HS & HSf) Hn]]. split; [exists S; split; [done|by apply Hr]|].
    intros HA. apply Hn. intros S' HS'. by apply (Hr S' HS'), HA.
Qed.

(** The two parts make up the difference. *)
Lemma parts_difference (auth : string → list string) (skey : string → option string) (db : database)
    (unp : gmap string event) (cm : gmap string (gset string))
    (state_sets : list (StateMap string)) (D0 D : gset string) (f : string) :
  index_ok auth skey db →
  (∀ i, i ∈ dom unp → i ∉ dom (db_chains db)) →
  (∀ i a, i ∈ dom unp → a ∈ auth i → a ∈ dom unp ∨ a ∈ dom (db_chains db)) →
  (∀ i, match cm !! i with
        | Some c => i ∈ dom unp ∧ ∀ f, f ∈ c ↔ rtc (uedge auth unp) i f
        | None => i ∉ dom unp
        end) →
  Forall (λ S, values_of S ⊆ dom unp ∪ dom (db_chains db)) state_sets →
  (∀ f, f ∈ D0 ↔ Exists (λ s : gset string, f ∈ s) (split_state_set unp cm <$> state_sets).*2 ∧
     ¬ Forall (λ s : gset string, f ∈ s) (split_state_set unp cm <$> state_sets).*2) →
  (∀ f, f ∈ D ↔ f ∈ dom (db_chains db) ∧
     in_difference (is_auth auth) (split_state_set unp cm <$> state_sets).*1 f) →
  f ∈ D0 ∪ D ↔ in_difference (is_auth auth) (values_of <$> state_sets) f.
Proof.
  intros Hix Hnew Hcl Hcm Hss HD0 HD. rewrite elem_of_union HD0 HD. clear HD0 HD.
  assert (Forall (λ S, ∀ f, reaches (is_auth auth) (values_of S) f → f ∈ dom unp ∨ f ∈ dom (db_chains db))
    state_sets) as Hin.
  { eapply Forall_impl; [exact Hss|]. simpl. intros S HS g (e & He & Hr).
    pose proof (proj1 (elem_of_union _ _ _) (HS e He)) as [Hu|Hc].
    - destruct (unpersisted_split auth db unp Hcl e g Hr Hu) as [Hu'|(a & _ & Ha & Hg)].
      + by apply (uedge_end auth db unp Hcl e).
      + right. by eapply (indexed_rtc auth skey db Hix a).
    - right. by eapply (indexed_rtc auth skey db Hix e). }
  eapply Forall_impl in Hss; [|intros S HS;
    exact (split_reaches auth skey db Hix unp Hnew Hcl cm Hcm S HS)].
  unfold in_difference. rewrite -!list_fmap_compose !Exists_fmap !Forall_fmap !Exists_exists !Forall_forall.
  rewrite !Forall_forall in Hss Hin. unfold compose.
  assert (∀ S, S ∈ state_sets → f ∈ (split_state_set unp cm S).2 ↔
    f ∈ dom unp ∧ reaches (is_auth auth) (values_of S) f) as H2 by (intros S HS; by apply (Hss S HS)).
  assert (∀ S, S ∈ state_sets → f ∈ dom (db_chains db) → reaches (is_auth auth) (values_of S) f ↔
    reaches (is_auth auth) (split_state_set unp cm S).1 f) as H1 by (intros S HS; by apply (Hss S HS)).
  clear Hss. split.
  - intros [[(S & HS & Hx) Hn]|[Hf [(S & HS & Hx) Hn]]].
    + apply (H2 S HS) in Hx as [Hu Hr]. split; [by exists S|]. intros HA. apply Hn.
      intros S' HS'. apply (H2 S' HS'). split; [done|by apply HA].
    + split; [exists S; split; [done|by apply (H1 S HS Hf)]|]. intros HA. apply Hn. intros S' HS'.
      by apply (H1 S' HS' Hf), HA.
  - intros [(S & HS & Hr) Hn]. destruct (Hin S HS f Hr) as [Hu|Hc].
    + left. split; [exists S; split; [done|by apply (H2 S HS)]|]. intros HA. apply Hn. intros S' HS'.
      by apply (H2 S' HS'), HA.
    + right. split; [done|]. split; [exists S; split; [done|by apply (H1 S HS Hc)]|]. intros HA. apply Hn.
      intros S' HS'. by apply (H1 S' HS' Hc), HA.
Qed.

(** C7: the auth chain difference of state resolution v2, over the database.  In a
    room with an index, in every database reached by persisting events, let the
    state sets hold indexed events and unpersisted events whose auth events are
    indexed or unpersisted.  Given enough fuel (one turn for each walk from an
    unpersisted event down the unpersisted events), [_get_auth_chain_difference]
    with the database as its store returns exactly the events that are in the
    state or in the auth chain of some, but not of all, of the state sets. *)
Theorem state_resolution_difference_correct (auth : string → list string)
    (skey : string → option string) (rank : string → nat)
    (evict : gmap string (list (string * Z)) → gmap string (list (string * Z))) (db : database)
    (cache : gmap string (list (string * Z))) (room_id : string)
    (unp : gmap string event) (state_sets : list (StateMap string)) :
  (∀ e a, a ∈ auth e → rank a < rank e) → (∀ e, NoDup (auth e)) →
  history auth skey db → db_rooms db !! room_id = Some (Some true) →
  (∀ i e, unp !! i = Some e → event_id e = i ∧ auth_event_ids e = Ok (auth i)) →
  (∀ i, i ∈ dom unp → i ∉ dom (db_chains db)) →
  (∀ i a, i ∈ dom unp → a ∈ auth i → a ∈ dom unp ∨ a ∈ dom (db_chains db)) →
  state_sets ≠ [] →
  Forall (λ S, values_of S ⊆ dom unp ∪ dom (db_chains db)) state_sets →
  ∃ fuel0, ∀ fuel em, fuel0 ≤ fuel → ∃ D,
    _get_auth_chain_difference (index_store evict db cache) fuel room_id state_sets unp None em =
      Some (Ok (D, em)) ∧
    ∀ f, f ∈ D ↔ in_difference (is_auth auth) (values_of <$> state_sets) f.
Proof.
  intros Hr Hnd Hh Hroom Hunp Hnew Hcl Hne Hss.
  pose proof (history_index auth skey rank db Hr Hnd Hh) as Hix.
  destruct (auth_chains_ok auth rank Hr unp Hunp) as (fuel0 & Hchains). exists fuel0.
  intros fuel em Hf. destruct (Hchains fuel em Hf) as (cm & links & Hac & Hcm).
  unfold _get_auth_chain_difference. rewrite (m_bind_ok _ _ _ _ _ Hac).
  case_bool_decide as He.
  - subst unp. change ((λ s : StateMap string, list_to_set (map_to_list s).*2) <$> state_sets)
      with (values_of <$> state_sets).
    destruct (index_store_ok auth skey db evict cache room_id (values_of <$> state_sets) Hix Hroom)
      as (D & G & HDG & HG & HD); [by destruct state_sets| |].
    { apply Forall_fmap. eapply Forall_impl; [exact Hss|]. simpl. intros S HS e [?|?]%HS%elem_of_union; set_solver. }
    erewrite m_bind_ok; [|done]. cbn [fmap option_fmap option_map]. rewrite HDG.
    erewrite m_bind_ok; [|by destruct G]. eexists. split; [done|]. intros f. rewrite HG.
    rewrite !left_id_L HD. split; [by intros [_ ?]|]. intros Hd. split; [|done].
    destruct Hd as [Hex _]. rewrite Exists_fmap in Hex. apply Exists_exists in Hex as (S & HS & e & Hin & Hre).
    eapply (indexed_rtc auth skey db Hix e); [|done]. rewrite Forall_forall in Hss.
    apply (Hss S HS) in Hin. set_solver.
  - destruct (union_minus_intersection_ok (split_state_set unp cm <$> state_sets).*2) as (D0 & HD0e & HD0);
      [by destruct state_sets|].
    destruct (index_store_ok auth skey db evict cache room_id (split_state_set unp cm <$> state_sets).*1
      Hix Hroom) as (D & G & HDG & HG & HD); [by destruct state_sets| |].
    { rewrite !Forall_fmap. eapply Forall_impl; [exact Hss|]. simpl. intros S HS.
      by apply (split_reaches auth skey db Hix unp Hnew Hcl cm Hcm). }
    erewrite m_bind_ok; [|unfold m_lift; by rewrite HD0e].
    change (split_conflicted unp cm (default ∅ None)) with (∅ : gset string, ∅ : gset string).
    cbv beta iota. change ((λ c : gset string, c ∖ ∅) <$> None) with (None : option (gset string)).
    rewrite HDG.
    erewrite m_bind_ok; [|by destruct G]. eexists. split; [done|]. intros f. rewrite HG left_id_L.
    by apply (parts_difference auth skey db unp cm state_sets D0 D f Hix Hnew Hcl Hcm Hss HD0 HD).
Qed.
