(* ===== verification/StateResAuthDiffExamples.v ===== *)
(** State resolution over the chain cover index, on a room. *)
From S2P Require Import Prelude RoomVersions Identifiers Events EventAuth StateRes ChainCover AuthChain AuthChainWalk AuthDiffProps.
From S2P Require Import ChainCoverInv AuthDiff AuthChainExamples StateResAuthDiff.

Definition ex_unpersisted_event (hash : string) : event :=
  mkEvent RoomVersions.V10 "m.room.member" "@a:x" (Some hash) [] (Some "!r") "" hash [] (ex_auth ("$" +:+ hash))
    0 [] None false [].

(** Two memberships that are not persisted yet, the second on top of the first. *)
Definition ex_unpersisted : gmap string event :=
  {["$carol" := ex_unpersisted_event "carol"; "$kick" := ex_unpersisted_event "kick"]}.

Definition ex_state_sets : list (StateMap string) :=
  [{[("p", "") := "$power"; ("m", "carol") := "$kick"]}; {[("p", "") := "$power2"; ("m", "carol") := "$carol"]}].

Lemma ex_unpersisted_ok i e :
  ex_unpersisted !! i = Some e → event_id e = i ∧ auth_event_ids e = Ok (ex_auth i).
Proof.
  unfold ex_unpersisted. intros [[<- <-]|[_ [<- <-]%lookup_singleton_Some]]%lookup_insert_Some; by vm_compute.
Qed.

Lemma state_resolution_difference_correct_witness :
  ∃ fuel0, ∀ fuel em, fuel0 ≤ fuel → ∃ D,
    _get_auth_chain_difference (index_store no_evict ex_db2 ∅) fuel "!r" ex_state_sets ex_unpersisted None em =
      Some (Ok (D, em)) ∧
    ∀ f, f ∈ D ↔ in_difference (is_auth ex_auth) (values_of <$> ex_state_sets) f.
Proof.
  apply (state_resolution_difference_correct ex_auth ex_skey ex_rank).
  - apply ex_rank_lt.
  - apply ex_auth_nodup.
  - apply ex_history2.
  - by vm_compute.
  - apply ex_unpersisted_ok.
  - assert (set_Forall (λ i, i ∉ dom (db_chains ex_db2)) (dom ex_unpersisted)) as H
      by (apply (bool_decide_unpack _); by vm_compute). exact H.
  - assert (set_Forall (λ i, Forall (λ a, a ∈ dom ex_unpersisted ∨ a ∈ dom (db_chains ex_db2)) (ex_auth i))
      (dom ex_unpersisted)) as H by (apply (bool_decide_unpack _); by vm_compute).
    intros i a Hi Ha. apply H in Hi. rewrite Forall_forall in Hi. by apply Hi.
  - done.
  - apply (bool_decide_unpack _). by vm_compute.
Defined.

(** The kick is only in the first state, and the second power levels are reached
    from both. *)
Example ex_resolution_difference :
  match _get_auth_chain_difference (index_store no_evict ex_db2 ∅) 10 "!r" ex_state_sets
          ex_unpersisted None ∅ with
  | Some (Ok (D, _)) => elements D
  | _ => []
  end = ["$kick"].
Proof. by vm_compute. Qed.
